(* ===== verification/_CoqProject ===== *)
-Q . S2P
Prelude.v
Fifo.v
RingBuffer.v
EventQueue.v
Threads.v
Wrappers.v
Spawn.v
Monitor.v
LockOrder.v
Transfer.v
Vectors.v
Barrier.v
ReaderWriter.v
Doubles.v
Bits.v
Registers.v
Interrupts.v
MemBasics.v
Validators.v
Logstore.v
Spsc.v
PacketProc.v
SparseSet.v
Heap.v
SparseHeap.v
LogHeap.v
LogThreads.v
Submasks.v
IntParser.v
BufferPool.v
Counters.v
CounterThreads.v
BoundedQueue.v
WorkerQueue.v
ThreadPool.v
ResourcePool.v
PubSub.v
StatTable.v
SmallSync.v
SemPrograms.v
FilePrograms.v
Mains.v
VectorMain.v
PacketMain.v
Listing.v
Paging.v
Timing.v
VectorVerbose.v
