(* ===== verification/Prelude.v ===== *)
(** * OSTEP exercises: a verification library

    The repository holds the exercises that go with the book "Operating Systems:
    Three Easy Pieces" (directories 5_ to 39_) and a set of systems programming
    challenges (practiceQs/): some seventy small C files, most of them a data
    structure, a synchronisation object or a register helper with, at most, a
    main that exercises it. The parts interact in a few ways: counters, vectors
    and the log store have a header as interface and a main or a test as client;
    the queues and pools are called by threads; the processes of packet_proc.c,
    spsc.c, blackboard.c and fork_test.c share memory or a pipe.

    ** Conventions

    - An integer object of width [w] is a [Z]; what is stored in an unsigned one
      is reduced by [wrap w], a signed result is [None] when it overflows
      ([chk_s]). Pointers that may be null are [option]s.
    - Undefined behaviour (an access outside an array, signed overflow, an
      undefined shift, a freed block) is [None] (in FilePrograms.v and the files
      on it, [Undef], where [NoFuel] has to be told from it). A theorem that a function returns
      [Some _] is a memory-safety theorem.
    - A thread is a program counter with its local variables, and its step a
      function of the shared state that is [None] while it has to wait.
      Executions are the sequences of single steps of any threads, so a theorem
      on reachable states holds for every schedule. Memory is sequentially
      consistent; C11 acquire and release accesses are plain accesses.
    - Where a file does not compile as written (a misspelt field, a missing
      argument), the model takes the only reading that does, and the
      manifest's findings say so; where it compiles and is wrong, the model is
      wrong in the same way and a theorem shows what follows.

    ** The files

    Shared by all:
    - Prelude.v (this file): machine integers, arrays, sums over lists, tactics
      and hint databases [cword] and [carr].
    - Fifo.v: circular slices of an array and the class [BoundedFifo], the
      contract of a queue in a fixed array, with the theorem that an instance
      and a list answer alike on every sequence of calls.
    - Threads.v: interleaving semantics, invariants, measures and progress,
      semaphores and mutexes, counting threads by program counter, output logs,
      and [verify], which explores all states of a program with few of them.
    - Monitor.v: calls that are critical sections of one mutex and sleep on
      condition variables (signal, broadcast, spurious wake-ups).
    - Spawn.v: a main that creates threads, joins them and reports, on top of any
      system of Threads.v; bounds and results carry over to the whole program.
    - LockOrder.v: the class [LockDiscipline]; locks taken in increasing rank
      cannot deadlock.
    - Heap.v: blocks, [malloc] and [free], computations on them, and ownership.
    - Wrappers.v: the macros of common_threads.h and common.h, with and without
      NDEBUG, and that through them a program has the primitives of Threads.v.
    - Doubles.v: IEEE double arithmetic with its rounding, and its errors.
    - Bits.v: bit-by-bit reasoning on registers (database [bits]).

    Data structures:
    - RingBuffer.v (power_of_two_ring_buffer.c) and EventQueue.v
      (isr_to_task_event_queue.c), instances of [BoundedFifo]; the pop of the
      latter also with interrupts between its accesses.
    - SparseSet.v (sparse_set_for_huge_domain_ids.c) refines a finite set,
      Logstore.v (log_structured_storage_041526) a finite map with a log,
      BufferPool.v (bare_metal_packet_buffer_pool_allocation_051926) a stack of
      blocks, PubSub.v (thread_safe_pub_sub_dispatcher.c) a bag of
      subscriptions, StatTable.v (thread_safe_stat_table.c) saturating sums.
    - SparseHeap.v and LogHeap.v: the sparse set and the log store again, on the
      heap, with their pointers and every [malloc] and [free]; LogHeap.v also runs
      a clean beside the gets of other threads, and LogThreads.v, where puts and
      gets are cut into their accesses, beside their puts.
    - Counters.v (29_LockedDataStructures): counter.h as the class [Counter],
      with its two implementations as instances and main.c as their client;
      CounterThreads.v: the same increments access by access, under their locks,
      and the counters' memory.
    - Submasks.v (bitmask_backtracking.c), IntParser.v
      (interger_parser_with_overflow_checks.c), MemBasics.v (mem_basics.c).

    Threads and processes:
    - Barrier.v, ReaderWriter.v and SemPrograms.v (31_Semaphores, main-race.c of
      27_ThreadAPI, blackboard_040226); Vectors.v (32_ConcurrencyBugs);
      Transfer.v (deadlock_free_multi_lock_transfer.c).
    - BoundedQueue.v (thread_safe_bounded_queue.c), WorkerQueue.v
      (worker_queue_shutdown.c), ThreadPool.v (thread_pool_shutdown.c),
      ResourcePool.v (semaphore_resource_pool.c) and SmallSync.v
      (reset_race_state_guard.c, implement_rdwrlock.c,
      completion_vs_timeout_race.c), on Monitor.v.
    - Spsc.v (spsc_040426) and PacketProc.v
      (zerocopy_packet_processor_042926), lock-free rings between processes;
      PacketMain.v: the latter's file, mappings and clean-up.
    - Mains.v: barrier.c, reader-writer.c and the counter benchmark as whole
      programs, from argv to the last line; VectorMain.v: the options and main of
      main-common.c, around Vectors.v; VectorVerbose.v: what these programs print,
      with [print_info] and its lock, and that printing does not change whether
      they deadlock.

    Registers, validators and files:
    - Registers.v, Interrupts.v and Validators.v: the register, interrupt,
      reset, ioctl, MMIO and firmware-command challenges, and the labs.
    - FilePrograms.v (mytail.c, patcher.c, event_loop.c, fork_test.c, on a model
      of the C string functions they use), Listing.v (myls.c, stat.c) and
      Paging.v (tlb.c, mem.c).
    - Timing.v: the clocks of mem.c, tlb.c, packet_proc.c, the counter benchmark and
      the vector programs, and the times computed from them in doubles.

    ** What the theorems show

    - Refinement: on every sequence of calls the data structures answer as their
      abstract objects ([logstore_refines_map], [sparse_set_refines],
      [ring_refines_fifo], [pub_sub_refines_bag], [stats_saturating_sums],
      [buffer_pool_refines_stack]); concurrent calls of the bounded queue take
      effect one at a time ([bq_linearizable]).
    - Memory: from creation to destruction the sparse set and the log store use no
      freed block, free none twice and leak none ([sparse_set_heap_safe],
      [logstore_one_cleaner_safe]); two concurrent cleans of the log store free a
      block twice ([logstore_two_cleaners_double_free]), and the reads of one
      race with a put ([logstore_clean_races]). With one writing thread
      the log store is a map at every moment, also in the middle of a clean
      ([logstore_single_writer]).
    - Whole programs, from the command line: on every schedule they end with the
      output they should have ([barrier_program], [reader_writer_program],
      [counter_program], [vector_nolock_program]), or exactly when they hang
      ([vector_programs_deadlock]);
      [options_roundtrip] is about the parsing itself.
    - Safety on every schedule: mutual exclusion, ownership and exact results
      ([rwlock_excludes], [rp_exclusive], [packet_ownership],
      [packet_checksum_exact], [spsc_sum_exact], [transfer_safe],
      [nolock_exact], [counters_exact], [wq_jobs_accounted],
      [tp_running_accounts]), the order of outputs
      ([barrier_separates_phases], [rendezvous_before_after],
      [print_outs_make_sense]).
    - Termination and liveness: for the programs that end, a bound on the length
      of every execution and that no reachable state is stuck
      ([barrier_terminates], [rw_terminates], [packet_terminates],
      [bq_no_lost_wakeups], [rp_clients_finish], [global_order_no_deadlock]), and
      for those that can hang, when ([vector_deadlock_iff],
      [worker_main_never_returns], [tp_refused_submit_blocks_pool]).
    - Exact input/output behaviour, errors included, of the sequential functions
      ([my_memmove_exact], [generate_submasks_complete], [parse_i32_signed],
      [validate_fw_cmd_policy], [handle_irq_exact], [tail_prints_last_lines],
      [ring_doorbell_word], [patcher_swaps_one_byte], [mem_program],
      [mem_reports_rounds], [myls_lists]).
    - Measured times: the doubles that the programs compute and pass to [printf]
      are as close to the readings of the clock as they claim ([time_roundtrip], [tlb_time_accurate],
      [elapsed_time_accurate], [main_time_accurate], [nanoseconds_exact]).
    - The wrappers: [wrapped_run_spec], [primitives], [create_threads].

    ** Fuel

    Loops over a counter are structural recursions on the number of passes that
    the loop bound gives. Submasks.v gives its two loops 33 rounds and one round
    more than there are submasks, BufferPool.v more rounds than the pool has
    bytes; the theorems prove that this is enough. In Tail and Tlb the fuel is an
    argument, and the theorems say how much is enough (two more than the bytes
    of the file; more than the elements of one trail). [verify] explores
    with a fixed fuel and then checks that the set found is closed under steps,
    so too little fuel makes the check fail and not succeed. Programs that run
    for ever (mem.c, event_loop.c) are run for any number of steps.

    ** Not modelled

    The formatting of numbers in what is printed; doubles too large for the
    format (no program comes near); the mains of the challenges that only print the
    results of a few calls; what spsc.c prints of its child's exit code; failures of
    system calls other than those that a model takes as an argument, and of
    [malloc] where the code does not look at its result; memory-ordering effects
    beyond sequential consistency, which includes what a device sees of stores
    without a barrier. *)

From Stdlib Require Export ZArith Lia.
From stdpp Require Export prelude gmap relations.

#[export] Set Default Goal Selector "!".
#[export] Unset Program Cases.

Global Open Scope Z_scope.

(** Comparisons stay folded, for [split_tests] and [lia] to see them. *)
#[global] Arguments Z.eqb !_ !_ : simpl nomatch.
#[global] Arguments Z.ltb !_ !_ : simpl nomatch.
#[global] Arguments Z.leb !_ !_ : simpl nomatch.
#[global] Arguments Z.of_nat : simpl never.

(** ** Machine-width integers

    A [w]-bit unsigned C object holds a [Z] in [0 <= x < 2^w]; every
    arithmetic result that is stored in such an object is reduced by [wrap].
    A signed object of width [w] holds a [Z] in [-2^(w-1) <= x < 2^(w-1)];
    [swrap] is the conversion to it. *)
Definition wrap (w x : Z) : Z := x mod 2 ^ w.
Definition swrap (w x : Z) : Z := (x + 2 ^ (w - 1)) mod 2 ^ w - 2 ^ (w - 1).

Definition in_u (w x : Z) : Prop := 0 <= x < 2 ^ w.
Definition in_s (w x : Z) : Prop := - 2 ^ (w - 1) <= x < 2 ^ (w - 1).

(** A result of signed arithmetic: [None] on overflow, which is undefined. *)
Definition chk_s (w x : Z) : option Z := if bool_decide (in_s w x) then Some x else None.

Declare Scope cword_scope.
Delimit Scope cword_scope with cword.
Notation u8 := (wrap 8).
Notation u16 := (wrap 16).
Notation u32 := (wrap 32).
Notation u64 := (wrap 64).
Notation "x +u32 y" := (wrap 32 (x + y)) (at level 50, left associativity) : cword_scope.
Notation "x -u32 y" := (wrap 32 (x - y)) (at level 50, left associativity) : cword_scope.
Notation "x +u64 y" := (wrap 64 (x + y)) (at level 50, left associativity) : cword_scope.
Notation "x -u64 y" := (wrap 64 (x - y)) (at level 50, left associativity) : cword_scope.
Notation "~u32 x" := (wrap 32 (Z.lnot x)) (at level 35, right associativity) : cword_scope.
Global Open Scope cword_scope.

(** A C condition: any non-zero integer is true. *)
Definition truthy (x : Z) : bool := negb (x =? 0).

(** ** Arrays

    A C array is a list of its elements. Access outside the array is undefined
    behaviour, which every model of this library writes as [None]; so a theorem
    that a function returns [Some _] says that it stays inside its arrays. *)
Definition arr_get {A} (l : list A) (i : Z) : option A :=
  if bool_decide (0 <= i) then l !! Z.to_nat i else None.

Definition arr_set {A} (l : list A) (i : Z) (x : A) : option (list A) :=
  if bool_decide (0 <= i < Z.of_nat (length l)) then Some (<[Z.to_nat i := x]> l) else None.

Declare Scope carr_scope.
Delimit Scope carr_scope with carr.
Notation "l .[ i ]" := (arr_get l i) (at level 1, left associativity, format "l .[ i ]") : carr_scope.
Notation "l .[ i <- x ]" := (arr_set l i x)
  (at level 1, left associativity, format "l .[ i  <-  x ]") : carr_scope.
Global Open Scope carr_scope.

(** ** Automation *)
Create HintDb carr.
Create HintDb cword.

(** Case analysis on every boolean test of the goal and the hypotheses that
    the [Z] comparisons decide, followed by arithmetic. *)
Ltac split_tests :=
  repeat match goal with
  | |- context [bool_decide ?P] => case_bool_decide
  | H : context [bool_decide ?P] |- _ => case_bool_decide
  | |- context [Z.eqb ?a ?b] => destruct (Z.eqb_spec a b)
  | |- context [Z.ltb ?a ?b] => destruct (Z.ltb_spec a b)
  | |- context [Z.leb ?a ?b] => destruct (Z.leb_spec a b)
  | H : context [Z.eqb ?a ?b] |- _ => destruct (Z.eqb_spec a b)
  | H : context [Z.ltb ?a ?b] |- _ => destruct (Z.ltb_spec a b)
  | H : context [Z.leb ?a ?b] |- _ => destruct (Z.leb_spec a b)
  end; simpl in *.

(** Close a goal about list lengths and positions. *)
Ltac len :=
  repeat (rewrite ?length_insert, ?length_app, ?length_take, ?length_drop,
                  ?length_replicate, ?length_fmap in * || simpl in * ); lia.

(** Turn [mod] by a positive literal into its quotient equation. *)
Ltac modlia := Z.div_mod_to_equations; lia.

(** *** Integers *)
Lemma wrap_range w x : 0 <= w -> in_u w (wrap w x).
Proof. intros. unfold wrap, in_u. apply Z.mod_pos_bound, Z.pow_pos_nonneg; lia. Qed.

Lemma wrap_small w x : in_u w x -> wrap w x = x.
Proof. intros. unfold wrap. apply Z.mod_small. assumption. Qed.

Lemma wrap_wrap w x : 0 <= w -> wrap w (wrap w x) = wrap w x.
Proof. intros. apply wrap_small, wrap_range. assumption. Qed.

Lemma wrap_add_l w x y : 0 <= w -> wrap w (wrap w x + y) = wrap w (x + y).
Proof. intros. unfold wrap. apply Z.add_mod_idemp_l. apply Z.pow_nonzero; lia. Qed.

Lemma wrap_sub_l w x y : 0 <= w -> wrap w (wrap w x - y) = wrap w (x - y).
Proof. intros. apply (wrap_add_l w x (- y)). assumption. Qed.

Lemma wrap_sub_r w x y : 0 <= w -> wrap w (x - wrap w y) = wrap w (x - y).
Proof. intros. unfold wrap. rewrite Zminus_mod_idemp_r. reflexivity. Qed.

Lemma swrap_range w x : 0 < w -> in_s w (swrap w x).
Proof.
  intros. unfold swrap, in_s.
  pose proof (Z.mod_pos_bound (x + 2 ^ (w - 1)) (2 ^ w) ltac:(apply Z.pow_pos_nonneg; lia)).
  assert (2 ^ w = 2 * 2 ^ (w - 1)) by (rewrite <- Z.pow_succ_r by lia; f_equal; lia).
  lia.
Qed.

Lemma swrap_small w x : 0 < w -> in_s w x -> swrap w x = x.
Proof.
  intros Hw H. unfold swrap, in_s in *.
  assert (2 ^ w = 2 * 2 ^ (w - 1)) by (rewrite <- Z.pow_succ_r by lia; f_equal; lia).
  rewrite Z.mod_small; lia.
Qed.

Lemma chk_s_ok w x : in_s w x -> chk_s w x = Some x.
Proof. intros. unfold chk_s. by rewrite bool_decide_eq_true_2. Qed.

Lemma chk_s_Some w x y : chk_s w x = Some y -> y = x /\ in_s w x.
Proof. unfold chk_s. case_bool_decide; naive_solver. Qed.

(** Reduction modulo a divisor of [2^w] does not see the wrap-around. *)
Lemma wrap_mod_pow2 w k x : 0 <= k <= w -> wrap w x mod 2 ^ k = x mod 2 ^ k.
Proof.
  intros. unfold wrap. apply Z.mod_mod_divide.
  exists (2 ^ (w - k)). rewrite <- Z.pow_add_r by lia. f_equal; lia.
Qed.

(** [x & (2^k - 1)], the masking idiom, is the remainder. *)
Lemma land_mask k x : 0 <= k -> Z.land x (2 ^ k - 1) = x mod 2 ^ k.
Proof. intros. rewrite <- Z.land_ones by lia. f_equal. rewrite Z.ones_equiv. lia. Qed.

#[export] Hint Resolve wrap_range wrap_small swrap_range : cword.
#[export] Hint Rewrite wrap_wrap wrap_add_l wrap_sub_l wrap_sub_r using lia : cword.

(** *** Arrays *)
Section arrays.
Context {A : Type}.
Implicit Types (l : list A) (i j : Z) (x : A).

Lemma arr_get_nat l i : 0 <= i -> l.[i] = l !! Z.to_nat i.
Proof. intros. unfold arr_get. by rewrite bool_decide_eq_true_2. Qed.

Lemma arr_get_Some l i x : l.[i] = Some x -> 0 <= i < Z.of_nat (length l).
Proof.
  unfold arr_get. intros. case_bool_decide; [|done].
  apply lookup_lt_Some in H. lia.
Qed.

Lemma arr_get_is_Some l i : 0 <= i < Z.of_nat (length l) -> exists x, l.[i] = Some x.
Proof. intros. rewrite arr_get_nat by lia. apply lookup_lt_is_Some_2. lia. Qed.

Lemma arr_set_in l i x :
  0 <= i < Z.of_nat (length l) -> l.[i <- x] = Some (<[Z.to_nat i := x]> l).
Proof. intros. unfold arr_set. by rewrite bool_decide_eq_true_2. Qed.

Lemma arr_set_out l i x : ~ (0 <= i < Z.of_nat (length l)) -> l.[i <- x] = None.
Proof. intros. unfold arr_set. by rewrite bool_decide_eq_false_2. Qed.

Lemma arr_set_Some l l' i x :
  l.[i <- x] = Some l' -> 0 <= i < Z.of_nat (length l) /\ l' = <[Z.to_nat i := x]> l.
Proof. unfold arr_set. intros. case_bool_decide; naive_solver. Qed.

Lemma arr_set_length l l' i x : l.[i <- x] = Some l' -> length l' = length l.
Proof. intros [_ ->]%arr_set_Some. by rewrite length_insert. Qed.

Lemma arr_get_set l l' i j x :
  l.[i <- x] = Some l' -> l'.[j] = if bool_decide (i = j) then Some x else l.[j].
Proof.
  intros [Hi ->]%arr_set_Some. unfold arr_get. split_tests; subst.
  - by rewrite list_lookup_insert_eq by lia.
  - rewrite list_lookup_insert_ne by lia. done.
  - lia.
  - done.
Qed.

Lemma arr_get_insert_eq l i x :
  0 <= i < Z.of_nat (length l) -> (<[Z.to_nat i := x]> l).[i] = Some x.
Proof. intros. rewrite arr_get_nat by lia. apply list_lookup_insert_eq. lia. Qed.

Lemma arr_get_insert_ne l i j x :
  0 <= i -> i <> j -> (<[Z.to_nat i := x]> l).[j] = l.[j].
Proof.
  intros. unfold arr_get. case_bool_decide; [|done].
  apply list_lookup_insert_ne. lia.
Qed.
End arrays.

#[export] Hint Resolve arr_get_is_Some arr_set_length arr_get_Some : carr.
#[export] Hint Rewrite @arr_get_insert_eq using lia : carr.
#[export] Hint Rewrite @arr_get_insert_ne using lia : carr.

(** *** Sums over lists

    The counting arguments of the library are all sums of an integer measure
    over the elements of a list: one lemma says how such a sum changes when
    one element does. *)
Definition lsum {A} (f : A -> Z) (l : list A) : Z := foldr (fun x acc => f x + acc) 0 l.

(** The 0/1 measure of a boolean predicate, so that [lsum (ind p)] counts. *)
Definition ind {A} (p : A -> bool) (x : A) : Z := if p x then 1 else 0.

Section sums.
Context {A : Type}.
Implicit Types (f : A -> Z) (l : list A).

Lemma lsum_cons f x l : lsum f (x :: l) = f x + lsum f l.
Proof. reflexivity. Qed.

Lemma lsum_app f l1 l2 : lsum f (l1 ++ l2) = lsum f l1 + lsum f l2.
Proof. induction l1; simpl; lia. Qed.

Lemma lsum_insert f l i x y :
  l !! i = Some x -> lsum f (<[i := y]> l) = lsum f l - f x + f y.
Proof.
  revert i; induction l as [|z l IH]; intros [|i] H; simplify_eq/=; [lia|].
  rewrite (IH _ H). lia.
Qed.

Lemma lsum_nonneg f l : (forall x, 0 <= f x) -> 0 <= lsum f l.
Proof. intros Hf; induction l as [|x l IH]; simpl; [lia|]. specialize (Hf x). lia. Qed.

Lemma lsum_lookup_le f l i x : (forall x, 0 <= f x) -> l !! i = Some x -> f x <= lsum f l.
Proof.
  intros Hf; revert i; induction l as [|y l IH]; intros [|i] H; simplify_eq/=.
  - pose proof (lsum_nonneg f l Hf). lia.
  - specialize (IH _ H). specialize (Hf y). lia.
Qed.

Lemma lsum_lookup2_le f l i j x y :
  (forall x, 0 <= f x) -> i <> j -> l !! i = Some x -> l !! j = Some y -> f x + f y <= lsum f l.
Proof.
  intros Hf. revert i j; induction l as [|z l IH]; intros [|i] [|j] Hij Hi Hj; simplify_eq/=.
  - pose proof (lsum_lookup_le f l j y Hf Hj). lia.
  - pose proof (lsum_lookup_le f l i x Hf Hi). lia.
  - specialize (IH i j ltac:(lia) Hi Hj). specialize (Hf z). lia.
Qed.

Lemma lsum_replicate f n x : lsum f (replicate n x) = Z.of_nat n * f x.
Proof. induction n; simpl; lia. Qed.

Lemma lsum_ext f g l : (forall x, x ∈ l -> f x = g x) -> lsum f l = lsum g l.
Proof.
  induction l as [|x l IH]; intros H; simpl; [done|].
  rewrite IH by (intros; apply H; set_solver). rewrite H by set_solver. done.
Qed.

Lemma lsum_le f g l : (forall x, x ∈ l -> f x <= g x) -> lsum f l <= lsum g l.
Proof.
  induction l as [|x l IH]; intros H; simpl; [lia|].
  assert (f x <= g x) by (apply H; set_solver).
  assert (lsum f l <= lsum g l) by (apply IH; intros; apply H; set_solver). lia.
Qed.

Lemma lsum_const f c l : (forall x, x ∈ l -> f x = c) -> lsum f l = Z.of_nat (length l) * c.
Proof.
  intros H. rewrite (lsum_ext f (fun _ => c)) by done. clear H.
  induction l; simpl; lia.
Qed.

(** A positive sum of non-negative measures has a positive element. *)
Lemma lsum_pos_inv f l :
  (forall x, 0 <= f x) -> 0 < lsum f l -> exists i x, l !! i = Some x /\ 0 < f x.
Proof.
  intros Hf. induction l as [|x l IH]; simpl; intros H; [lia|].
  destruct (decide (0 < f x)); [by exists 0%nat, x|].
  destruct IH as (i & y & Hi & Hy); [lia|]. by exists (S i), y.
Qed.

Lemma lsum_zero_inv f l i x :
  (forall x, 0 <= f x) -> lsum f l = 0 -> l !! i = Some x -> f x = 0.
Proof.
  intros Hf H Hi. pose proof (lsum_lookup_le f l i x Hf Hi). specialize (Hf x). lia.
Qed.

Lemma lsum_scale f c l : lsum (fun x => c * f x) l = c * lsum f l.
Proof. induction l; simpl; lia. Qed.

Lemma lsum_fmap {B} (g : B -> A) f (l : list B) : lsum f (g <$> l) = lsum (fun x => f (g x)) l.
Proof. induction l as [|x l IH]; [done|]. by rewrite fmap_cons, !lsum_cons, IH. Qed.

Lemma ind_nonneg (p : A -> bool) x : 0 <= ind p x.
Proof. unfold ind. destruct (p x); lia. Qed.

Lemma ind_le_length (p : A -> bool) l : lsum (ind p) l <= Z.of_nat (length l).
Proof.
  induction l as [|x l IH]; simpl; [lia|]. unfold ind at 1. destruct (p x); lia.
Qed.

Lemma ind_all (p : A -> bool) l :
  lsum (ind p) l = Z.of_nat (length l) -> forall i x, l !! i = Some x -> p x = true.
Proof.
  induction l as [|y l IH]; intros H i x Hi; [done|].
  pose proof (ind_le_length p l). simpl in H. unfold ind at 1 in H.
  destruct (p y) eqn:E; [|lia].
  destruct i; simplify_eq/=; [done|]. eapply IH; [lia|done].
Qed.
End sums.

#[export] Hint Resolve ind_nonneg : carr.

(** A sum does not depend on the order of the list. *)
#[export] Instance lsum_perm {A} (f : A -> Z) : Proper ((≡ₚ) ==> eq) (lsum f).
Proof. intros l l' H. induction H; simpl; lia. Qed.


(** ** Runs

    The calls of a client, one after the other: the final state and the answers,
    [None] as soon as a call is undefined. *)
Definition run_ops {S O R : Type} (step : S -> O -> option (S * R)) : S -> list O -> option (S * list R) :=
  fix go s ops :=
    match ops with
    | [] => Some (s, [])
    | o :: ops => '(s, r) ← step s o; '(s, rs) ← go s ops; Some (s, r :: rs)
    end.

Lemma run_ops_app {S O R} (step : S -> O -> option (S * R)) s ops1 ops2 :
  run_ops step s (ops1 ++ ops2) =
  '(s1, rs1) ← run_ops step s ops1; '(s2, rs2) ← run_ops step s1 ops2; Some (s2, rs1 ++ rs2).
Proof.
  revert s. induction ops1 as [|o ops1 IH]; intros s; simpl.
  - by destruct (run_ops step s ops2) as [[]|].
  - destruct (step s o) as [[s1 r]|]; simpl; [|done]. rewrite IH.
    destruct (run_ops step s1 ops1) as [[s2 rs1]|]; simpl; [|done].
    by destruct (run_ops step s2 ops2) as [[]|].
Qed.
