(* ===== verification/Fifo.v ===== *)
(** * Circular buffers and the bounded FIFO contract

    Several programs of the repository keep a queue in a fixed array that they
    index modulo its length (power_of_two_ring_buffer.c, isr_to_task_event_queue.c,
    packet_proc.c, spsc.c, thread_safe_bounded_queue.c, worker_queue_shutdown.c,
    thread_pool_shutdown.c). This file holds what they share: the predicate
    [cslice] that says which list a segment of the array holds, and the
    interface [BoundedFifo] that says what such a queue promises, with the
    theorem that an implementation of the interface and the specification queue
    (a list) give the same answers on every sequence of operations. *)

From S2P Require Import Prelude.

(** ** Circular slices *)

(** The array [e], of [cap] elements, holds [xs] from position [start] on, in
    order and modulo [cap]. *)
Definition cslice {A} (cap : Z) (e : list A) (start : Z) (xs : list A) : Prop :=
  0 < cap /\ Z.of_nat (length e) = cap /\ Z.of_nat (length xs) <= cap /\
  forall j x, xs !! j = Some x -> e.[(start + Z.of_nat j) mod cap] = Some x.

Section cslice.
Context {A : Type}.
Implicit Types (e xs : list A) (x : A).

Lemma cslice_nil cap e start : 0 < cap -> Z.of_nat (length e) = cap -> cslice cap e start [].
Proof. intros. split_and!; simpl; try lia. intros j x Hj. by destruct j. Qed.

(** Only the residue of the start matters: this is what makes the counters'
    wrap-around harmless. *)
Lemma cslice_congr cap e s s' xs :
  s mod cap = s' mod cap -> cslice cap e s xs -> cslice cap e s' xs.
Proof.
  intros Hs (Hc & He & Hx & H). split_and!; try done. intros j x Hj.
  rewrite <- (H j x Hj). f_equal.
  rewrite <- Z.add_mod_idemp_l, <- Hs, Z.add_mod_idemp_l by lia. done.
Qed.

Lemma cslice_push cap e s xs x p :
  cslice cap e s xs -> Z.of_nat (length xs) < cap -> p = (s + Z.of_nat (length xs)) mod cap ->
  e.[p <- x] = Some (<[Z.to_nat p := x]> e) /\ cslice cap (<[Z.to_nat p := x]> e) s (xs ++ [x]).
Proof.
  intros (Hc & He & Hx & H) Hlt ->.
  pose proof (Z.mod_pos_bound (s + Z.of_nat (length xs)) cap Hc) as Hp.
  split; [apply arr_set_in; lia|].
  split_and!; [done|len|len|]. intros j y Hj.
  apply lookup_app_Some in Hj as [Hj|[Hge Hj]].
  - assert (j < length xs)%nat by (by eapply lookup_lt_Some).
    rewrite arr_get_insert_ne; [by apply H|lia|].
    intros Heq%(f_equal (fun z => (z - (s + Z.of_nat j)) mod cap)).
    rewrite !Zminus_mod_idemp_l in Heq.
    replace (s + Z.of_nat j - (s + Z.of_nat j)) with 0 in Heq by lia.
    rewrite Z.mod_0_l in Heq by lia.
    rewrite Z.mod_small in Heq by lia. lia.
  - assert (j = length xs) as ->.
    { apply lookup_lt_Some in Hj. simpl in Hj. lia. }
    rewrite Nat.sub_diag in Hj. simplify_eq/=.
    apply arr_get_insert_eq. lia.
Qed.

Lemma cslice_head cap e s x xs : cslice cap e s (x :: xs) -> e.[s mod cap] = Some x.
Proof.
  intros (Hc & He & Hx & H). specialize (H 0%nat x eq_refl).
  by rewrite Z.add_0_r in H.
Qed.

Lemma cslice_tail cap e s x xs : cslice cap e s (x :: xs) -> cslice cap e (s + 1) xs.
Proof.
  intros (Hc & He & Hx & H). split_and!; [done|done|len|].
  intros j y Hj. rewrite <- (H (S j) y Hj). f_equal. f_equal. lia.
Qed.

Lemma cslice_lookup cap e s xs j x :
  cslice cap e s xs -> xs !! j = Some x -> e.[(s + Z.of_nat j) mod cap] = Some x.
Proof. intros (_ & _ & _ & H). apply H. Qed.

(** A write outside the occupied segment does not change what it holds. *)
Lemma cslice_insert_out cap e s xs p x :
  cslice cap e s xs ->
  0 <= p < cap ->
  (forall j, (j < length xs)%nat -> (s + Z.of_nat j) mod cap <> p) ->
  cslice cap (<[Z.to_nat p := x]> e) s xs.
Proof.
  intros (Hc & He & Hx & H) Hp Hne. split_and!; [done|len|done|].
  intros j y Hj. rewrite arr_get_insert_ne; [by apply H|lia|].
  apply not_eq_sym, Hne. by eapply lookup_lt_Some.
Qed.
End cslice.

(** ** The contract of a bounded queue *)

(** What a client of a bounded queue relies on. [None] is undefined behaviour,
    so the laws also say that the operations have none. *)
Class BoundedFifo (Q A : Type) := {
  fifo_cap : nat;
  fifo_push : Q -> A -> option (bool * Q);
  fifo_pop : Q -> option (option A * Q);
  fifo_repr : Q -> list A -> Prop;
  fifo_repr_cap q xs : fifo_repr q xs -> (length xs <= fifo_cap)%nat;
  fifo_push_full q xs x :
    fifo_repr q xs -> length xs = fifo_cap -> fifo_push q x = Some (false, q);
  fifo_push_ok q xs x :
    fifo_repr q xs -> (length xs < fifo_cap)%nat ->
    exists q', fifo_push q x = Some (true, q') /\ fifo_repr q' (xs ++ [x]);
  fifo_pop_empty q : fifo_repr q [] -> fifo_pop q = Some (None, q);
  fifo_pop_ok q x xs :
    fifo_repr q (x :: xs) -> exists q', fifo_pop q = Some (Some x, q') /\ fifo_repr q' xs
}.

(** Requests of a client, and the answers it observes. *)
Inductive fifo_op (A : Type) : Type :=
| Push (x : A)
| Pop.
Arguments Push {A} x.
Arguments Pop {A}.

Inductive fifo_ans (A : Type) : Type :=
| Pushed (ok : bool)
| Popped (x : option A).
Arguments Pushed {A} ok.
Arguments Popped {A} x.

(** Running a client against an implementation. *)
Fixpoint fifo_run {Q A} `{BoundedFifo Q A} (ops : list (fifo_op A)) (q : Q)
  : option (list (fifo_ans A) * Q) :=
  match ops with
  | [] => Some ([], q)
  | Push x :: ops =>
      '(b, q) ← fifo_push q x; '(r, q) ← fifo_run ops q; Some (Pushed b :: r, q)
  | Pop :: ops =>
      '(o, q) ← fifo_pop q; '(r, q) ← fifo_run ops q; Some (Popped o :: r, q)
  end.

(** Running a client against the specification: a list that refuses a push
    when it has [cap] elements. *)
Fixpoint spec_run {A} (cap : nat) (ops : list (fifo_op A)) (xs : list A)
  : list (fifo_ans A) * list A :=
  match ops with
  | [] => ([], xs)
  | Push x :: ops =>
      if bool_decide (length xs < cap)%nat
      then let '(r, ys) := spec_run cap ops (xs ++ [x]) in (Pushed true :: r, ys)
      else let '(r, ys) := spec_run cap ops xs in (Pushed false :: r, ys)
  | Pop :: ops =>
      match xs with
      | [] => let '(r, ys) := spec_run cap ops [] in (Popped None :: r, ys)
      | x :: xs => let '(r, ys) := spec_run cap ops xs in (Popped (Some x) :: r, ys)
      end
  end.

(** Every implementation of the interface gives, on every sequence of
    operations, the answers of the specification, and ends in a state that
    represents the specification's final list. *)
Lemma fifo_run_refines {Q A} `{BoundedFifo Q A} ops (q : Q) (xs : list A) :
  fifo_repr q xs ->
  exists q', fifo_run ops q = Some ((spec_run fifo_cap ops xs).1, q') /\
             fifo_repr q' (spec_run fifo_cap ops xs).2.
Proof.
  revert q xs. induction ops as [|[x|] ops IH]; intros q xs Hq; simpl; [eauto|..].
  - case_bool_decide as Hlt.
    + destruct (fifo_push_ok q xs x Hq Hlt) as (q1 & -> & Hq1); simpl.
      destruct (IH _ _ Hq1) as (q2 & -> & Hq2). destruct (spec_run _ ops _). eauto.
    + pose proof (fifo_repr_cap q xs Hq).
      rewrite (fifo_push_full q xs x Hq) by lia; simpl.
      destruct (IH _ _ Hq) as (q2 & -> & Hq2). destruct (spec_run _ ops _). eauto.
  - destruct xs as [|x xs].
    + rewrite (fifo_pop_empty q Hq); simpl.
      destruct (IH _ _ Hq) as (q2 & -> & Hq2). destruct (spec_run _ ops _). eauto.
    + destruct (fifo_pop_ok q x xs Hq) as (q1 & -> & Hq1); simpl.
      destruct (IH _ _ Hq1) as (q2 & -> & Hq2). destruct (spec_run _ ops _). eauto.
Qed.
