(* ===== verification/RingBuffer.v ===== *)
(** * power_of_two_ring_buffer.c

    The ring of 1024 entries with free-running 32-bit counters: [head] counts
    the pops, [tail] the pushes, both modulo [2^32], and [counter & RING_MASK]
    is the position in the array. The theorems say that the counters'
    wrap-around is invisible: the ring is a FIFO queue of capacity 1024. *)

From S2P Require Import Prelude Fifo.

Definition RING_CAP : Z := 1024.
Definition RING_MASK : Z := RING_CAP - 1.

Record ring := mk_ring {
  ring_head : Z;            (* uint32_t *)
  ring_tail : Z;            (* uint32_t *)
  ring_entries : list Z     (* uint32_t entries[RING_CAP] *)
}.

Definition ring_empty (r : ring) : bool := ring_head r =? ring_tail r.

Definition ring_full (r : ring) : bool := (ring_tail r -u32 ring_head r) =? RING_CAP.

Definition ring_size (r : ring) : Z := ring_tail r -u32 ring_head r.

(** The boolean is the function's result, the ring the state it leaves. *)
Definition ring_push (r : ring) (value : Z) : option (bool * ring) :=
  if ring_full r then Some (false, r)
  else
    entries ← (ring_entries r).[Z.land (ring_tail r) RING_MASK <- value];
    Some (true, mk_ring (ring_head r) (ring_tail r +u32 1) entries).

(** [value] is the content of the caller's [*value] before the call; the last
    component is its content after the call. *)
Definition ring_pop (r : ring) (value : Z) : option (bool * ring * Z) :=
  if ring_empty r then Some (false, r, value)
  else
    v ← (ring_entries r).[Z.land (ring_head r) RING_MASK];
    Some (true, mk_ring (ring_head r +u32 1) (ring_tail r) (ring_entries r), v).

(** ** Specification *)

(** The well-formed rings: what the C type and the operations guarantee. *)
Definition ring_wf (r : ring) : Prop :=
  in_u 32 (ring_head r) /\ in_u 32 (ring_tail r) /\
  length (ring_entries r) = 1024%nat /\ ring_size r <= RING_CAP.

(** The ring holds the list [xs], oldest element first. *)
Definition ring_repr (r : ring) (xs : list Z) : Prop :=
  in_u 32 (ring_head r) /\
  ring_tail r = (ring_head r +u32 Z.of_nat (length xs)) /\
  cslice RING_CAP (ring_entries r) (ring_head r) xs.

Lemma ring_mask_mod x : Z.land x RING_MASK = x mod RING_CAP.
Proof. exact (land_mask 10 x ltac:(lia)). Qed.

Lemma ring_repr_len r xs : ring_repr r xs -> Z.of_nat (length xs) <= 1024.
Proof. intros (_ & _ & _ & _ & H & _). exact H. Qed.

Lemma ring_repr_size r xs : ring_repr r xs -> ring_size r = Z.of_nat (length xs).
Proof.
  intros Hr. pose proof (ring_repr_len r xs Hr). destruct Hr as (Hh & Ht & _).
  unfold ring_size. rewrite Ht. autorewrite with cword.
  rewrite Z.add_simpl_l. apply wrap_small. unfold in_u in *. lia.
Qed.

Lemma ring_repr_empty r xs : ring_repr r xs -> ring_empty r = bool_decide (xs = []).
Proof.
  intros Hr. pose proof (ring_repr_size r xs Hr) as Hs. unfold ring_empty.
  destruct Hr as (Hh & Ht & _). destruct (Z.eqb_spec (ring_head r) (ring_tail r)) as [E|E].
  - unfold ring_size in Hs. rewrite E, Z.sub_diag in Hs. symmetry. apply bool_decide_eq_true_2.
    destruct xs; [done|]. cbv in Hs. discriminate.
  - symmetry. apply bool_decide_eq_false_2. intros ->. apply E. rewrite Ht. simpl.
    rewrite Z.add_0_r. symmetry. by apply wrap_small.
Qed.

Lemma ring_repr_full r xs :
  ring_repr r xs -> ring_full r = bool_decide (length xs = 1024%nat).
Proof.
  intros Hr. pose proof (ring_repr_size r xs Hr) as Hs. unfold ring_full.
  change (ring_tail r -u32 ring_head r) with (ring_size r). rewrite Hs. unfold RING_CAP.
  split_tests; lia || done.
Qed.

Lemma ring_push_repr r xs value :
  ring_repr r xs -> (length xs < 1024)%nat ->
  exists r', ring_push r value = Some (true, r') /\ ring_repr r' (xs ++ [value]).
Proof.
  intros Hr Hlt. unfold ring_push.
  rewrite (ring_repr_full r xs Hr), bool_decide_eq_false_2 by lia.
  destruct Hr as (Hh & Ht & Hc). rewrite ring_mask_mod.
  destruct (cslice_push RING_CAP (ring_entries r) (ring_head r) xs value
              (ring_tail r mod RING_CAP)) as [-> Hc']; [done|unfold RING_CAP; lia|..].
  { rewrite Ht. change RING_CAP with (2 ^ 10). apply wrap_mod_pow2. lia. }
  eexists; split; [done|]. split_and!; simpl; [done| |done].
  rewrite Ht, length_app. autorewrite with cword. f_equal. simpl. lia.
Qed.

Lemma ring_pop_repr r x xs value :
  ring_repr r (x :: xs) ->
  exists r', ring_pop r value = Some (true, r', x) /\ ring_repr r' xs.
Proof.
  intros Hr. unfold ring_pop. rewrite (ring_repr_empty r _ Hr), bool_decide_eq_false_2 by done.
  destruct Hr as (Hh & Ht & Hc). rewrite ring_mask_mod, (cslice_head _ _ _ _ _ Hc).
  eexists; split; [done|]. split_and!; simpl.
  - apply wrap_range. lia.
  - rewrite Ht. autorewrite with cword. f_equal. simpl length. lia.
  - eapply cslice_congr, cslice_tail, Hc. symmetry. change RING_CAP with (2 ^ 10).
    apply wrap_mod_pow2. lia.
Qed.

(** [ring_pop] seen by a client that looks at [*value] only on success. *)
Definition ring_pop_opt (r : ring) : option (option Z * ring) :=
  '(b, r', v) ← ring_pop r 0; Some (if (b : bool) then Some v else None, r').

#[export] Program Instance ring_fifo : BoundedFifo ring Z := {
  fifo_cap := 1024;
  fifo_push := ring_push;
  fifo_pop := ring_pop_opt;
  fifo_repr := ring_repr
}.
Next Obligation. intros r xs Hr. pose proof (ring_repr_len r xs Hr). lia. Qed.
Next Obligation.
  intros r xs x Hr Hl. unfold ring_push.
  by rewrite (ring_repr_full r xs Hr), bool_decide_eq_true_2 by done.
Qed.
Next Obligation. intros. by apply ring_push_repr. Qed.
Next Obligation.
  intros r Hr. unfold ring_pop_opt, ring_pop. by rewrite (ring_repr_empty r [] Hr).
Qed.
Next Obligation.
  intros r x xs Hr. unfold ring_pop_opt. destruct (ring_pop_repr r x xs 0 Hr) as (r' & -> & Hr'). by exists r'.
Qed.

(** Every well-formed ring holds some list: the elements between [head] and
    [tail]. *)
Lemma ring_wf_repr r : ring_wf r -> exists xs, ring_repr r xs.
Proof.
  intros (Hh & Ht & He & Hs). set (n := Z.to_nat (ring_size r)).
  assert (0 <= ring_size r) by (apply (wrap_range 32); lia).
  exists ((fun j => default 0 ((ring_entries r).[(ring_head r + Z.of_nat j) mod RING_CAP])) <$> seq 0 n).
  split_and!; [done|..].
  - rewrite length_fmap, length_seq. unfold n. rewrite Z2Nat.id by done.
    unfold ring_size. rewrite (Z.add_comm (ring_head r)). autorewrite with cword.
    rewrite Z.sub_add. symmetry. by apply wrap_small.
  - split_and!; [done| |rewrite length_fmap, length_seq; lia|].
    { rewrite He. done. }
    intros j x Hj. apply list_lookup_fmap_Some in Hj as (k & -> & Hk).
    apply lookup_seq in Hk as [-> Hlt]. simpl.
    destruct (arr_get_is_Some (ring_entries r) ((ring_head r + Z.of_nat j) mod RING_CAP))
      as (y & Hy); [|by rewrite Hy].
    rewrite He. apply Z.mod_pos_bound. done.
Qed.

(** C4. The ring of power_of_two_ring_buffer.c is a FIFO queue of capacity
    1024: from any well-formed state (any counter values, also ones about to
    wrap at [2^32]) there is a list [xs] of [ring_size] elements such that
    every sequence of [ring_push] and [ring_pop] calls answers as the list
    does, without leaving the array, all 1024 entries being usable. *)
Theorem ring_refines_fifo (r : ring) (ops : list (fifo_op Z)) (Hwf : ring_wf r) :
  exists xs r',
    Z.of_nat (length xs) = ring_size r /\
    fifo_run ops r = Some ((spec_run 1024 ops xs).1, r') /\
    ring_repr r' (spec_run 1024 ops xs).2.
Proof.
  destruct (ring_wf_repr r Hwf) as [xs Hr].
  destruct (fifo_run_refines (H := ring_fifo) ops r xs Hr) as (r' & Hrun & Hr').
  exists xs, r'. split_and!; [|done|done]. symmetry. by apply ring_repr_size.
Qed.

(** The counters are two steps from wrapping and the ring is empty. *)
Definition ring_about_to_wrap : ring := mk_ring 4294967294 4294967294 (replicate 1024 0).

Lemma ring_about_to_wrap_wf : ring_wf ring_about_to_wrap.
Proof. split_and!; [split|split|..]; vm_compute; congruence. Qed.

Lemma ring_refines_fifo_witness :
  ring_wf ring_about_to_wrap /\
  exists xs r',
    Z.of_nat (length xs) = ring_size ring_about_to_wrap /\
    fifo_run [Push 7; Push 8; Push 9; Pop] ring_about_to_wrap
      = Some ((spec_run 1024 [Push 7; Push 8; Push 9; Pop] xs).1, r') /\
    ring_repr r' (spec_run 1024 [Push 7; Push 8; Push 9; Pop] xs).2.
Proof.
  split; [exact ring_about_to_wrap_wf|].
  apply (ring_refines_fifo ring_about_to_wrap _ ring_about_to_wrap_wf).
Defined.

Example ring_wraps_concretely :
  fst <$> fifo_run [Push 7; Push 8; Push 9; Pop; Pop; Pop; Pop] ring_about_to_wrap
  = Some [Pushed true; Pushed true; Pushed true; Popped (Some 7); Popped (Some 8);
          Popped (Some 9); Popped None].
Proof. vm_compute. reflexivity. Qed.
