(* ===== verification/EventQueue.v ===== *)
(** * isr_to_task_event_queue.c

    The queue of 64 events between one interrupt handler, which pushes at
    [head], and one task, which pops at [tail]; both counters are free-running
    32-bit integers. The handler can interrupt the task between any two
    accesses of [event_q_pop_from_task], so besides the queue's sequential
    behaviour (an instance of [BoundedFifo]) the file models the pop with
    bursts of handler calls between its accesses. *)

From S2P Require Import Prelude Fifo.

Definition EVT_Q_CAP : Z := 64.
Definition EVT_Q_MASK : Z := EVT_Q_CAP - 1.

Inductive event_type := EVT_LINK_UP | EVT_LINK_DOWN | EVT_CMD_DONE | EVT_ERROR.

Record event := mk_event { evt_type : event_type; evt_data : Z (* uint32_t *) }.

Record event_q := mk_event_q {
  eq_head : Z;                (* _Atomic uint32_t, written by the ISR *)
  eq_tail : Z;                (* _Atomic uint32_t, written by the task *)
  eq_entries : list event     (* struct event entries[EVT_Q_CAP] *)
}.

Definition event_q_push_from_isr (q : event_q) (e : event) : option (bool * event_q) :=
  if (eq_head q -u32 eq_tail q) =? EVT_Q_CAP then Some (false, q)
  else
    entries ← (eq_entries q).[Z.land (eq_head q) EVT_Q_MASK <- e];
    Some (true, mk_event_q (eq_head q +u32 1) (eq_tail q) entries).

(** [None] in the first component is the result [false], which leaves [*out]
    alone; [Some e] is [true] with [*out = e]. *)
Definition event_q_pop_from_task (q : event_q) : option (option event * event_q) :=
  if eq_head q =? eq_tail q then Some (None, q)
  else
    e ← (eq_entries q).[Z.land (eq_tail q) EVT_Q_MASK];
    Some (Some e, mk_event_q (eq_head q) (eq_tail q +u32 1) (eq_entries q)).

(** A burst of interrupts, each of which tries to push one event. *)
Fixpoint isr_burst (q : event_q) (es : list event) : option event_q :=
  match es with
  | [] => Some q
  | e :: es => '(_, q') ← event_q_push_from_isr q e; isr_burst q' es
  end.

(** The same pop, interrupted by the burst [es1] after its emptiness test, by
    [es2] after it has copied the entry and before it advances [tail]. *)
Definition event_q_pop_interrupted (q : event_q) (es1 es2 : list event)
  : option (option event * event_q) :=
  if eq_head q =? eq_tail q then Some (None, q)
  else
    q1 ← isr_burst q es1;
    e ← (eq_entries q1).[Z.land (eq_tail q1) EVT_Q_MASK];
    q2 ← isr_burst q1 es2;
    Some (Some e, mk_event_q (eq_head q2) (eq_tail q2 +u32 1) (eq_entries q2)).

(** ** Specification *)

Definition event_q_wf (q : event_q) : Prop :=
  in_u 32 (eq_head q) /\ in_u 32 (eq_tail q) /\
  length (eq_entries q) = 64%nat /\ (eq_head q -u32 eq_tail q) <= EVT_Q_CAP.

Definition event_q_repr (q : event_q) (xs : list event) : Prop :=
  in_u 32 (eq_tail q) /\
  eq_head q = (eq_tail q +u32 Z.of_nat (length xs)) /\
  cslice EVT_Q_CAP (eq_entries q) (eq_tail q) xs.

(** The queue after a burst: an event that finds the queue full is dropped. *)
Fixpoint burst_spec (xs es : list event) : list event :=
  match es with
  | [] => xs
  | e :: es => burst_spec (if bool_decide (length xs < 64)%nat then xs ++ [e] else xs) es
  end.

Lemma event_q_mask_mod x : Z.land x EVT_Q_MASK = x mod EVT_Q_CAP.
Proof. exact (land_mask 6 x ltac:(lia)). Qed.

Lemma event_q_repr_len q xs : event_q_repr q xs -> Z.of_nat (length xs) <= 64.
Proof. intros (_ & _ & _ & _ & H & _). exact H. Qed.

Lemma event_q_repr_used q xs :
  event_q_repr q xs -> (eq_head q -u32 eq_tail q) = Z.of_nat (length xs).
Proof.
  intros Hq. pose proof (event_q_repr_len q xs Hq). destruct Hq as (Ht & Hh & _).
  rewrite Hh. autorewrite with cword. rewrite Z.add_simpl_l.
  apply wrap_small. unfold in_u in *. lia.
Qed.

Lemma event_q_repr_nonempty q x xs : event_q_repr q (x :: xs) -> (eq_head q =? eq_tail q) = false.
Proof.
  intros Hq. pose proof (event_q_repr_used q _ Hq) as Hu. apply Z.eqb_neq. intros E.
  rewrite E, Z.sub_diag in Hu. cbv in Hu. discriminate.
Qed.

Lemma event_q_push_repr q xs e :
  event_q_repr q xs -> (length xs < 64)%nat ->
  exists q', event_q_push_from_isr q e = Some (true, q') /\ event_q_repr q' (xs ++ [e]) /\
             eq_tail q' = eq_tail q.
Proof.
  intros Hq Hlt. unfold event_q_push_from_isr. rewrite (event_q_repr_used q xs Hq).
  unfold EVT_Q_CAP at 1. rewrite (proj2 (Z.eqb_neq _ _)) by lia.
  destruct Hq as (Ht & Hh & Hc). rewrite event_q_mask_mod.
  destruct (cslice_push EVT_Q_CAP (eq_entries q) (eq_tail q) xs e
              (eq_head q mod EVT_Q_CAP)) as [-> Hc']; [done|unfold EVT_Q_CAP; lia|..].
  { rewrite Hh. change EVT_Q_CAP with (2 ^ 6). apply wrap_mod_pow2. lia. }
  eexists; split; [done|]. split; [|done]. unfold event_q_repr; simpl. split_and!; [done| |done].
  rewrite Hh, length_app. autorewrite with cword. f_equal. simpl. lia.
Qed.

Lemma event_q_push_full q xs e :
  event_q_repr q xs -> length xs = 64%nat -> event_q_push_from_isr q e = Some (false, q).
Proof.
  intros Hq Hl. unfold event_q_push_from_isr. rewrite (event_q_repr_used q xs Hq), Hl. done.
Qed.

(** Copying the oldest entry and advancing [tail] removes it. *)
Lemma event_q_take_repr q x xs :
  event_q_repr q (x :: xs) ->
  (eq_entries q).[Z.land (eq_tail q) EVT_Q_MASK] = Some x /\
  event_q_repr (mk_event_q (eq_head q) (eq_tail q +u32 1) (eq_entries q)) xs.
Proof.
  intros (Ht & Hh & Hc). rewrite event_q_mask_mod. split; [by eapply cslice_head|].
  split_and!; simpl.
  - apply wrap_range. lia.
  - rewrite Hh. autorewrite with cword. f_equal. simpl length. lia.
  - eapply cslice_congr, cslice_tail, Hc. symmetry. change EVT_Q_CAP with (2 ^ 6).
    apply wrap_mod_pow2. lia.
Qed.

#[export] Program Instance event_q_fifo : BoundedFifo event_q event := {
  fifo_cap := 64;
  fifo_push := event_q_push_from_isr;
  fifo_pop := event_q_pop_from_task;
  fifo_repr := event_q_repr
}.
Next Obligation. intros q xs Hq. pose proof (event_q_repr_len q xs Hq). lia. Qed.
Next Obligation. intros. by eapply event_q_push_full. Qed.
Next Obligation.
  intros q xs e Hq Hl. destruct (event_q_push_repr q xs e Hq Hl) as (q' & ? & ? & _). eauto.
Qed.
Next Obligation.
  intros q (Ht & Hh & _). unfold event_q_pop_from_task.
  rewrite Hh. simpl. rewrite Z.add_0_r, wrap_small, Z.eqb_refl by done. done.
Qed.
Next Obligation.
  intros q x xs Hq. unfold event_q_pop_from_task. rewrite (event_q_repr_nonempty q x xs Hq).
  destruct (event_q_take_repr q x xs Hq) as [-> Hq']. eauto.
Qed.

(** A burst behaves as its specification and never touches [tail]. *)
Lemma isr_burst_repr es q xs :
  event_q_repr q xs ->
  exists q', isr_burst q es = Some q' /\ event_q_repr q' (burst_spec xs es) /\
             eq_tail q' = eq_tail q.
Proof.
  revert q xs. induction es as [|e es IH]; intros q xs Hq; simpl; [eauto|].
  case_bool_decide as Hl.
  - destruct (event_q_push_repr q xs e Hq Hl) as (q1 & -> & Hq1 & <-). simpl. by apply IH.
  - pose proof (event_q_repr_len q xs Hq).
    rewrite (event_q_push_full q xs e Hq) by lia. simpl. by apply IH.
Qed.

Lemma burst_spec_cons x xs es : exists ys, burst_spec (x :: xs) es = x :: ys.
Proof.
  revert xs. induction es as [|e es IH]; intros xs; simpl; [eauto|].
  case_bool_decide; [rewrite app_comm_cons|]; apply IH.
Qed.

(** C28. An interrupted pop is still a pop: whatever bursts of interrupts
    arrive after the task's emptiness test and before it advances [tail], the
    task gets the event that was oldest when it started, no access leaves the
    array, the events the handler could queue follow in order, and only events
    that arrived while 64 were queued are dropped. *)
Theorem event_q_pop_interrupted_fifo (q : event_q) (x : event) (xs es1 es2 : list event)
    (Hq : event_q_repr q (x :: xs)) :
  exists q', event_q_pop_interrupted q es1 es2 = Some (Some x, q') /\
             event_q_repr q' (tail (burst_spec (burst_spec (x :: xs) es1) es2)).
Proof.
  unfold event_q_pop_interrupted. rewrite (event_q_repr_nonempty q x xs Hq).
  destruct (isr_burst_repr es1 q _ Hq) as (q1 & -> & Hq1 & Ht1). simpl.
  destruct (burst_spec_cons x xs es1) as [ys Hys]. rewrite Hys in *.
  destruct (event_q_take_repr q1 x ys Hq1) as [-> _]. simpl.
  destruct (isr_burst_repr es2 q1 _ Hq1) as (q2 & -> & Hq2 & Ht2). simpl.
  destruct (burst_spec_cons x ys es2) as [zs Hzs]. rewrite Hzs in *.
  destruct (event_q_take_repr q2 x zs Hq2) as [_ Hq3]. eauto.
Qed.

(** One link-up event is queued, the counters being about to wrap. *)
Definition event_q_one : event_q :=
  mk_event_q 0 4294967295 (<[63%nat := mk_event EVT_LINK_UP 5]> (replicate 64 (mk_event EVT_ERROR 0))).

Lemma event_q_one_repr : event_q_repr event_q_one [mk_event EVT_LINK_UP 5].
Proof.
  unfold event_q_repr, cslice, in_u.
  split_and!; [by vm_compute|by vm_compute|by vm_compute|done|by vm_compute|by vm_compute|].
  intros [|j] x Hj; [by simplify_eq/=|by destruct j].
Qed.

Lemma event_q_pop_interrupted_fifo_witness :
  exists q', event_q_pop_interrupted event_q_one [mk_event EVT_ERROR 1] [mk_event EVT_CMD_DONE 2]
             = Some (Some (mk_event EVT_LINK_UP 5), q') /\
    event_q_repr q' (tail (burst_spec (burst_spec [mk_event EVT_LINK_UP 5] [mk_event EVT_ERROR 1])
                             [mk_event EVT_CMD_DONE 2])).
Proof.
  apply (event_q_pop_interrupted_fifo event_q_one (mk_event EVT_LINK_UP 5) []).
  exact event_q_one_repr.
Defined.
