(* ===== verification/Threads.v ===== *)
(** * Interleaving threads

    The concurrent programs of the repository are modelled as a shared state
    [S] and a list of threads, each a local state [L] (its program counter and
    local variables). A thread's next atomic step is the function
    [tstep : S -> L -> option (S * L)], [None] when the thread cannot move (it is
    blocked in a lock, semaphore or condition, or has returned). A step of the
    system is a step of any one thread, so a theorem about all states reachable
    by [sys_step] is a theorem about every schedule. Steps are the accesses to
    shared memory in program order (sequential consistency). *)

From S2P Require Import Prelude.

Section threads.
Context {S L : Type} (tstep : S -> L -> option (S * L)).

Inductive sys_step : S * list L -> S * list L -> Prop :=
| sys_step_thread i s ls l s' l' :
    ls !! i = Some l -> tstep s l = Some (s', l') -> sys_step (s, ls) (s', <[i := l']> ls).

(** Executable runs: a schedule is the list of the threads that move. *)
Definition run_thread (c : S * list L) (i : nat) : option (S * list L) :=
  l ← c.2 !! i; '(s', l') ← tstep c.1 l; Some (s', <[i := l']> c.2).

Fixpoint run_sched (sched : list nat) (c : S * list L) : option (S * list L) :=
  match sched with
  | [] => Some c
  | i :: sched => c' ← run_thread c i; run_sched sched c'
  end.

Lemma run_thread_step c i c' : run_thread c i = Some c' -> sys_step c c'.
Proof.
  destruct c as [s ls]. unfold run_thread; simpl. intros H.
  destruct (ls !! i) as [l|] eqn:Hi; simplify_eq/=.
  destruct (tstep s l) as [[s' l']|] eqn:Ht; simplify_eq/=. by econstructor.
Qed.

Lemma run_sched_rtc sched c c' : run_sched sched c = Some c' -> rtc sys_step c c'.
Proof.
  revert c. induction sched as [|i sched IH]; simpl; intros c H; [by simplify_eq|].
  destruct (run_thread c i) as [c1|] eqn:H1; simplify_eq/=.
  eapply rtc_l; [by eapply run_thread_step|by apply IH].
Qed.

(** ** Invariants *)

Lemma reach_invariant (I : S * list L -> Prop) c0 :
  I c0 -> (forall c c', I c -> sys_step c c' -> I c') ->
  forall c, rtc sys_step c0 c -> I c.
Proof. intros H0 Hs c Hr. induction Hr; eauto. Qed.

(** The usual form: what one thread's step must preserve. *)
Lemma thread_invariant (I : S -> list L -> Prop) s0 ls0 :
  I s0 ls0 ->
  (forall i s ls l s' l', I s ls -> ls !! i = Some l -> tstep s l = Some (s', l') ->
     I s' (<[i := l']> ls)) ->
  forall s ls, rtc sys_step (s0, ls0) (s, ls) -> I s ls.
Proof.
  intros H0 Hs s ls Hr.
  refine (reach_invariant (fun c => I c.1 c.2) (s0, ls0) H0 _ (s, ls) Hr).
  intros c c' HI Hstep. destruct Hstep as [i s1 ls1 l s' l' Hi Ht].
  exact (Hs _ _ _ _ _ _ HI Hi Ht).
Qed.

Lemma sys_step_length s ls s' ls' : sys_step (s, ls) (s', ls') -> length ls' = length ls.
Proof. intros H. inversion H; subst. by rewrite length_insert. Qed.

(** ** Progress and termination *)

(** A measure that every step of a thread decreases, in the states that
    satisfy an invariant [P], bounds the length of every execution. *)
Lemma measure_bounds_runs (P : S * list L -> Prop) (m : L -> nat) n c c' :
  (forall c c', P c -> sys_step c c' -> P c') ->
  (forall s ls i l s' l', P (s, ls) -> ls !! i = Some l -> tstep s l = Some (s', l') ->
     (m l' < m l)%nat) ->
  P c -> nsteps sys_step n c c' ->
  Z.of_nat n + lsum (fun l => Z.of_nat (m l)) c'.2 <= lsum (fun l => Z.of_nat (m l)) c.2.
Proof.
  intros HP Hm Hc Hn. induction Hn as [c|n c1 c2 c3 Hstep _ IH]; [lia|].
  specialize (IH (HP _ _ Hc Hstep)).
  inversion Hstep as [i s ls l s' l' Hi Ht]; subst; simpl in *.
  rewrite (lsum_insert _ _ _ _ _ Hi) in IH. specialize (Hm _ _ _ _ _ _ Hc Hi Ht). lia.
Qed.

(** If no state of [P] short of [fin] is stuck and a measure decreases, then
    from every state of [P], whatever was scheduled to reach it, [fin] is
    reached: there is no deadlock and no livelock. *)
Lemma progress_reaches (P : S * list L -> Prop) (m : L -> nat) (fin : S * list L -> Prop) c :
  (forall c c', P c -> sys_step c c' -> P c') ->
  (forall s ls i l s' l', P (s, ls) -> ls !! i = Some l -> tstep s l = Some (s', l') ->
     (m l' < m l)%nat) ->
  (forall c, P c -> fin c \/ exists c', sys_step c c') ->
  P c -> exists c', rtc sys_step c c' /\ fin c'.
Proof.
  intros HP Hm Hprog. remember (Z.to_nat (lsum (fun l => Z.of_nat (m l)) c.2)) as n eqn:Hn.
  revert c Hn. induction n as [n IH] using lt_wf_ind; intros c -> Hc.
  destruct (Hprog c Hc) as [Hd|[c' Hstep]]; [by exists c|].
  assert (Hc' : P c') by (by eapply HP).
  pose proof (lsum_nonneg (fun l => Z.of_nat (m l)) c'.2 ltac:(intros; simpl; lia)).
  pose proof (measure_bounds_runs P m 1 c c' HP Hm Hc ltac:(by apply nsteps_once)).
  destruct (IH (Z.to_nat (lsum (fun l => Z.of_nat (m l)) c'.2)) ltac:(lia) c' eq_refl Hc')
    as (c2 & Hr & Hd).
  exists c2. split; [by eapply rtc_l|done].
Qed.

(** Both, in the form of [thread_invariant]. *)
Lemma system_terminates (I : S -> list L -> Prop) (m : L -> nat) (fin : S * list L -> Prop) s0 ls0 :
  I s0 ls0 ->
  (forall i s ls l s' l', I s ls -> ls !! i = Some l -> tstep s l = Some (s', l') ->
     I s' (<[i := l']> ls) /\ (m l' < m l)%nat) ->
  (forall s ls, I s ls -> fin (s, ls) \/ exists c', sys_step (s, ls) c') ->
  (forall k c, nsteps sys_step k (s0, ls0) c -> Z.of_nat k <= lsum (fun l => Z.of_nat (m l)) ls0) /\
  (forall c, rtc sys_step (s0, ls0) c -> exists c', rtc sys_step c c' /\ fin c').
Proof.
  intros H0 Hs Hp. set (P := fun c : S * list L => I c.1 c.2).
  assert (HP : forall c c', P c -> sys_step c c' -> P c').
  { intros c c' Hc Hst. destruct Hst as [i s ls l s' l' Hi Ht]. apply (Hs i s ls l s' l' Hc Hi Ht). }
  assert (Hm : forall s ls i l s' l', P (s, ls) -> ls !! i = Some l -> tstep s l = Some (s', l') -> (m l' < m l)%nat).
  { intros s ls i l s' l' Hc Hi Ht. apply (Hs i s ls l s' l' Hc Hi Ht). }
  split.
  - intros k c Hk. pose proof (measure_bounds_runs P m k (s0, ls0) c HP Hm H0 Hk) as Hb. simpl in Hb.
    pose proof (lsum_nonneg (fun l => Z.of_nat (m l)) c.2 ltac:(intros; simpl; lia)). lia.
  - intros c Hc. apply (progress_reaches P m fin c HP Hm); [intros [s ls]; apply Hp|].
    by apply (reach_invariant P (s0, ls0) H0 HP).
Qed.

(** A thread that can move lets the system move. *)
Lemma thread_can_step s ls i l :
  ls !! i = Some l -> is_Some (tstep s l) -> exists c', sys_step (s, ls) c'.
Proof. intros Hi [[s' l'] Ht]. eexists. by econstructor. Qed.
End threads.

(** ** Exhaustive exploration

    The programs with a fixed number of threads have few states: a list of
    configurations that is closed under the steps contains all the reachable
    ones, and what a boolean test says of all its elements holds of them. *)
Section explore.
Context {S L : Type} `{EqDecision S, EqDecision L} (tstep : S -> L -> option (S * L)).
Notation cfg := (S * list L)%type.

Definition succs (c : cfg) : list cfg := omap (run_thread tstep c) (seq 0 (length c.2)).

Definition closed (cs : list cfg) : bool :=
  forallb (fun c => forallb (fun c' => bool_decide (c' ∈ cs)) (succs c)) cs.

(** All configurations reachable from the [frontier], given enough fuel. *)
Fixpoint explore (fuel : nat) (frontier seen : list cfg) : list cfg :=
  match fuel, frontier with
  | O, _ | _, [] => seen
  | Datatypes.S fuel, c :: frontier =>
      if bool_decide (c ∈ seen) then explore fuel frontier seen
      else explore fuel (succs c ++ frontier) (c :: seen)
  end.

Lemma sys_step_succs c c' : sys_step tstep c c' -> c' ∈ succs c.
Proof.
  destruct 1 as [i s ls l s' l' Hi Ht]. unfold succs. apply list_elem_of_omap. exists i. split.
  - apply elem_of_seq. simpl. apply lookup_lt_Some in Hi. lia.
  - unfold run_thread; simpl. rewrite Hi. simpl. by rewrite Ht.
Qed.

Lemma closed_reachable cs c0 c :
  closed cs = true -> c0 ∈ cs -> rtc (sys_step tstep) c0 c -> c ∈ cs.
Proof.
  intros Hcl H0 Hr. induction Hr as [|c0 c1 c2 Hs _ IH]; [done|]. apply IH.
  unfold closed in Hcl. rewrite forallb_forall in Hcl.
  specialize (Hcl c0 (proj1 (list_elem_of_In _ _) H0)). rewrite forallb_forall in Hcl.
  specialize (Hcl c1 (proj1 (list_elem_of_In _ _) (sys_step_succs _ _ Hs))). by apply bool_decide_eq_true_1 in Hcl.
Qed.

(** A test that all the explored configurations pass. *)
Lemma explored_invariant (P : cfg -> bool) cs c0 c :
  bool_decide (c0 ∈ cs) && closed cs && forallb P cs = true -> rtc (sys_step tstep) c0 c -> P c = true.
Proof.
  intros [[H0 Hcl]%andb_true_iff HP]%andb_true_iff Hr. apply bool_decide_eq_true_1 in H0.
  rewrite forallb_forall in HP. apply HP, list_elem_of_In. by eapply closed_reachable.
Qed.

(** What a finite program is checked for: a test [P] of every reachable
    configuration, no deadlock short of [fin], and a measure [m] that every
    step decreases. *)
Definition sound_at (m : cfg -> nat) (P fin : cfg -> bool) (c : cfg) : bool :=
  P c && (fin c || negb (bool_decide (succs c = []))) && forallb (fun c' => m c' <? m c)%nat (succs c).

Definition verify (m : cfg -> nat) (P fin : cfg -> bool) (fuel : nat) (c0 : cfg) : bool :=
  let cs := explore fuel [c0] [] in
  bool_decide (c0 ∈ cs) && closed cs && forallb (sound_at m P fin) cs.

Lemma succs_step c c' : c' ∈ succs c -> sys_step tstep c c'.
Proof. unfold succs. intros (i & _ & Hi)%list_elem_of_omap. by eapply run_thread_step. Qed.

Lemma sound_at_step m P fin c c' :
  sound_at m P fin c = true -> sys_step tstep c c' -> (m c' < m c)%nat.
Proof.
  unfold sound_at. rewrite !andb_true_iff, forallb_forall. intros [_ Hm] Hs.
  apply Nat.ltb_lt, Hm, list_elem_of_In. by apply sys_step_succs.
Qed.

(** A verified program satisfies its test, stops within [m c0] steps under
    every schedule, and can only stop in a final configuration. *)
Lemma verify_sound m P fin fuel c0 :
  verify m P fin fuel c0 = true ->
  (forall c, rtc (sys_step tstep) c0 c ->
     P c = true /\ (fin c = true \/ exists c', sys_step tstep c c')) /\
  (forall n c, nsteps (sys_step tstep) n c0 c -> (n <= m c0)%nat).
Proof.
  intros Hv. assert (Hall : forall c, rtc (sys_step tstep) c0 c -> sound_at m P fin c = true).
  { intros c. by apply explored_invariant with (explore fuel [c0] []). }
  split.
  - intros c Hc. specialize (Hall c Hc). unfold sound_at in Hall. rewrite !andb_true_iff in Hall.
    destruct Hall as [[HP Hf] _]. split; [done|].
    apply orb_true_iff in Hf as [Hf|Hf]; [by left|right]. apply negb_true_iff, bool_decide_eq_false_1 in Hf.
    destruct (succs c) as [|c' cs] eqn:E; [done|]. exists c'. apply succs_step. rewrite E. by left.
  - assert (Hgen : forall n c c1, rtc (sys_step tstep) c0 c -> nsteps (sys_step tstep) n c c1 -> (n + m c1 <= m c)%nat).
    { intros n c c1 Hc Hn. induction Hn as [c|n c c2 c3 Hs _ IH]; [lia|].
      specialize (IH ltac:(by eapply rtc_r)). pose proof (sound_at_step _ _ _ _ _ (Hall c Hc) Hs). lia. }
    intros n c Hn. specialize (Hgen n c0 c ltac:(constructor) Hn). lia.
Qed.
End explore.

(** Either some element satisfies a decidable predicate or none does. *)
Lemma list_find_dec {L} (p : L -> bool) (ls : list L) :
  (exists i l, ls !! i = Some l /\ p l = true) \/ (forall i l, ls !! i = Some l -> p l = false).
Proof.
  induction ls as [|x ls IH]; [by right|].
  destruct (p x) eqn:E; [left; by exists 0%nat, x|].
  destruct IH as [(i & l & ? & ?)|H]; [left; by exists (Datatypes.S i), l|].
  right. intros [|i] l Hl; simplify_eq/=; eauto.
Qed.

(** ** Outputs

    Programs that print are given an output log, extended at its end. *)

(** [b] is printed before every [a] of the log. *)
Definition printed_before {M} (a b : M) (out : list M) : Prop :=
  forall pre post, out = pre ++ a :: post -> b ∈ pre.

Lemma printed_before_nil {M} (a b : M) : printed_before a b [].
Proof. intros pre post H. by destruct pre. Qed.

Lemma printed_before_snoc {M} (a b : M) (out : list M) (x : M) :
  printed_before a b out -> (x = a -> b ∈ out) -> printed_before a b (out ++ [x]).
Proof.
  intros Hout Hx pre post E.
  destruct post as [|y post _] using rev_ind.
  - apply app_inj_tail in E as [-> ->]. by apply Hx.
  - rewrite app_comm_cons, app_assoc in E. apply app_inj_tail in E as [E _].
    by eapply Hout.
Qed.

(** A test of it: of the two, the first one printed is [b]. *)
Fixpoint prints_first {M} `{EqDecision M} (a b : M) (out : list M) : bool :=
  match out with
  | [] => true
  | x :: out => bool_decide (x = b) || negb (bool_decide (x = a)) && prints_first a b out
  end.

Lemma prints_first_before {M} `{EqDecision M} (a b : M) (out : list M) :
  a <> b -> prints_first a b out = true -> printed_before a b out.
Proof.
  intros Hab. induction out as [|x out IH]; [intros _; apply printed_before_nil|].
  simpl. intros Ht pre post E. destruct pre as [|y pre]; simplify_eq/=.
  - rewrite bool_decide_eq_false_2, bool_decide_eq_true_2 in Ht by done. done.
  - apply orb_true_iff in Ht as [Ht|[_ Ht]%andb_true_iff].
    + apply bool_decide_eq_true_1 in Ht as ->. by left.
    + right. by apply (IH Ht pre post).
Qed.

(** One case of an invariant proof: invert the thread's step, and rewrite the
    sums the invariant is made of. *)
Ltac sums_step Hi :=
  repeat match goal with
  | |- context [lsum ?f (<[?i := ?y]> ?ls)] => rewrite (lsum_insert f ls i _ y Hi)
  end.

(** ** Atomic calls

    When every call of the threads is one critical section, an execution is an
    interleaving of their sequences of calls. *)
Inductive interleaving {A} : list (list A) -> list A -> Prop :=
  | il_nil tss : Forall (fun ts => ts = []) tss -> interleaving tss []
  | il_cons tss i x ts l :
      tss !! i = Some (x :: ts) -> interleaving (<[i := ts]> tss) l -> interleaving tss (x :: l).

Lemma interleaving_Forall {A} (P : A -> Prop) tss l :
  interleaving tss l -> Forall (Forall P) tss -> Forall P l.
Proof.
  induction 1 as [tss Hnil|tss i x ts l Hi _ IH]; intros Hall; [constructor|].
  pose proof (Forall_lookup_1 _ _ _ _ Hall Hi) as Hx. inversion Hx; subst.
  constructor; [done|]. apply IH. by apply Forall_insert.
Qed.

Lemma interleaving_sum {A} (f : A -> Z) tss l :
  interleaving tss l -> lsum f l = lsum (lsum f) tss.
Proof.
  induction 1 as [tss Hnil|tss i x ts l Hi _ IH].
  - simpl. symmetry. rewrite (lsum_const (lsum f) 0); [lia|].
    intros ts Hts. rewrite Forall_forall in Hnil. by rewrite (Hnil ts Hts).
  - simpl. rewrite IH, (lsum_insert (lsum f) tss i (x :: ts) ts) by done. simpl. lia.
Qed.

(** ** Counting threads by program counter *)
Section counting.
Context {L P : Type} `{EqDecision P} (pc : L -> P).

Definition at_stmt (p : P) (l : L) : bool := bool_decide (pc l = p).

(** How many threads are about to execute the statement [p]. *)
Definition at_cnt (p : P) (ls : list L) : Z := lsum (ind (at_stmt p)) ls.

Lemma at_cnt_nonneg p ls : 0 <= at_cnt p ls.
Proof. apply lsum_nonneg. auto with carr. Qed.

Lemma at_cnt_insert p i l l' ls :
  ls !! i = Some l -> at_cnt p (<[i := l']> ls) = at_cnt p ls - ind (at_stmt p) l + ind (at_stmt p) l'.
Proof. apply lsum_insert. Qed.

Lemma at_cnt_exists p ls : 0 < at_cnt p ls -> exists i l, ls !! i = Some l /\ pc l = p.
Proof.
  intros H. destruct (lsum_pos_inv (ind (at_stmt p)) ls ltac:(auto with carr) H) as (i & l & Hi & Hl).
  exists i, l. split; [done|]. unfold ind, at_stmt in Hl. case_bool_decide; [done|lia].
Qed.

Lemma at_cnt_lookup p ls i l : ls !! i = Some l -> pc l = p -> 1 <= at_cnt p ls.
Proof.
  intros Hi Hp. pose proof (lsum_lookup_le (ind (at_stmt p)) ls i l ltac:(auto with carr) Hi) as H.
  fold (at_cnt p ls) in H. unfold ind, at_stmt in H. by rewrite bool_decide_eq_true_2 in H.
Qed.

Lemma at_cnt_lookup2 p ls i j l l' :
  i <> j -> ls !! i = Some l -> ls !! j = Some l' -> pc l = p -> pc l' = p -> 2 <= at_cnt p ls.
Proof.
  intros Hij Hi Hj Hp Hp'.
  pose proof (lsum_lookup2_le (ind (at_stmt p)) ls i j l l' ltac:(auto with carr) Hij Hi Hj) as H.
  fold (at_cnt p ls) in H. unfold ind, at_stmt in H. by rewrite !bool_decide_eq_true_2 in H.
Qed.

Lemma at_cnt_none p ls i l : at_cnt p ls = 0 -> ls !! i = Some l -> pc l <> p.
Proof. intros H Hi Hp. pose proof (at_cnt_lookup p ls i l Hi Hp). lia. Qed.

Lemma at_cnt_zero p ls : (forall l, l ∈ ls -> pc l <> p) -> at_cnt p ls = 0.
Proof.
  intros H. unfold at_cnt. rewrite (lsum_const _ 0); [lia|]. intros l Hl.
  unfold ind, at_stmt. rewrite bool_decide_eq_false_2; [done|]. by apply H.
Qed.
End counting.

(** Evaluate the 0/1 measures of threads whose program counter is known. *)
Ltac eval_inds :=
  repeat match goal with
  | H : context [ind ?p ?t] |- _ =>
      let v := eval vm_compute in (ind p t) in
      lazymatch v with 0 => idtac | 1 => idtac end; change (ind p t) with v in H
  | |- context [ind ?p ?t] =>
      let v := eval vm_compute in (ind p t) in
      lazymatch v with 0 => idtac | 1 => idtac end; change (ind p t) with v
  end.

(** ** The synchronisation objects of POSIX the programs use

    [None] is a caller that has to wait. *)
Definition sem_wait (v : Z) : option Z := if 0 <? v then Some (v - 1) else None.
Definition sem_post (v : Z) : Z := v + 1.

(** A mutex is the boolean "locked"; only the holder unlocks it. *)
Definition mutex_lock (m : bool) : option bool := if m then None else Some true.
Definition mutex_unlock (m : bool) : bool := false.

Lemma sem_wait_Some v v' : sem_wait v = Some v' -> 0 < v /\ v' = v - 1.
Proof. unfold sem_wait. destruct (Z.ltb_spec 0 v); naive_solver. Qed.

Lemma sem_wait_pos v : 0 < v -> sem_wait v = Some (v - 1).
Proof. intros. unfold sem_wait. destruct (Z.ltb_spec 0 v); [done|lia]. Qed.

(** Invert every [sem_wait] and [mutex_lock] of a step that succeeded. *)
Ltac inv_sync :=
  repeat match goal with
  | H : context [sem_wait ?v] |- _ =>
      let E := fresh "Hw" in
      destruct (sem_wait v) eqn:E; simpl in H; [apply sem_wait_Some in E as [? ->]|discriminate H]
  | H : context [mutex_lock ?m] |- _ =>
      let E := fresh "Hm" in
      destruct m eqn:E; simpl in H; [discriminate H|]
  end.
