(* ===== verification/Wrappers.v ===== *)
(** * common_threads.h and common.h

    The programs of 27_ThreadAPI, 31_Semaphores and 32_ConcurrencyBugs call the
    thread library through macros that assert that a call has returned 0, and
    [malloc] through one that asserts that it has not failed. The library itself
    is a parameter: a record of its operations on a state. [NDEBUG] is a parameter
    too: where it is defined, [assert] expands to nothing and the calls inside are
    not made.

    [wrapped_run_spec] says what a sequence of wrapped calls does. [primitives]
    connects the wrappers to the mutexes, semaphores and threads of Threads.v, on
    which the models of the programs are built, and [create_threads] shows
    what becomes of the loops that create the threads, under [NDEBUG] too. *)

From S2P Require Import Prelude Threads.

(** A call that does not return is [None]; a call that does leaves a state and
    its result. *)
Definition call (S : Type) : Type := S -> option (S * Z).

(** The operations of the library, on objects that are known by a number;
    [attr] and [value_ptr] are null in all the programs. *)
Record library (S : Type) := mk_library {
  pthread_create : nat -> nat -> nat -> call S;   (* thread, start_routine, arg *)
  pthread_join : nat -> call S;
  pthread_mutex_init : nat -> call S;
  pthread_mutex_lock : nat -> call S;
  pthread_mutex_unlock : nat -> call S;
  pthread_cond_init : nat -> call S;
  pthread_cond_signal : nat -> call S;
  pthread_cond_wait : nat -> nat -> call S;
  sem_init : nat -> Z -> Z -> call S;             (* sem, pshared, value *)
  lib_sem_wait : nat -> call S;
  lib_sem_post : nat -> call S
}.
Arguments pthread_create {S} _ _ _ _ _.
Arguments pthread_join {S} _ _ _.
Arguments pthread_mutex_init {S} _ _ _.
Arguments pthread_mutex_lock {S} _ _ _.
Arguments pthread_mutex_unlock {S} _ _ _.
Arguments pthread_cond_init {S} _ _ _.
Arguments pthread_cond_signal {S} _ _ _.
Arguments pthread_cond_wait {S} _ _ _ _.
Arguments sem_init {S} _ _ _ _ _.
Arguments lib_sem_wait {S} _ _ _.
Arguments lib_sem_post {S} _ _ _.

(** How a wrapped call ends, when it does. *)
Inductive wrapped (S : Type) := Returned (s : S) | Aborted.
Arguments Returned {S} _.
Arguments Aborted {S}.

Section macros.
Context {S : Type} (lib : library S) (ndebug : bool).

(** [assert(f(...) == 0)]. *)
Definition assert_zero (f : call S) (s : S) : option (wrapped S) :=
  if ndebug then Some (Returned s) else '(s', rc) ← f s; Some (if rc =? 0 then Returned s' else Aborted).

Definition Pthread_create (thread start_routine arg : nat) := assert_zero (pthread_create lib thread start_routine arg).
Definition Pthread_join (thread : nat) := assert_zero (pthread_join lib thread).
Definition Pthread_mutex_init (m : nat) := assert_zero (pthread_mutex_init lib m).
Definition Pthread_mutex_lock (m : nat) := assert_zero (pthread_mutex_lock lib m).
Definition Pthread_mutex_unlock (m : nat) := assert_zero (pthread_mutex_unlock lib m).
Definition Pthread_cond_init (cond : nat) := assert_zero (pthread_cond_init lib cond).
Definition Pthread_cond_signal (cond : nat) := assert_zero (pthread_cond_signal lib cond).
Definition Pthread_cond_wait (cond mutex : nat) := assert_zero (pthread_cond_wait lib cond mutex).
Definition Mutex_init (m : nat) := assert_zero (pthread_mutex_init lib m).
Definition Mutex_lock (m : nat) := assert_zero (pthread_mutex_lock lib m).
Definition Mutex_unlock (m : nat) := assert_zero (pthread_mutex_unlock lib m).
Definition Cond_init (cond : nat) := assert_zero (pthread_cond_init lib cond).
Definition Cond_signal (cond : nat) := assert_zero (pthread_cond_signal lib cond).
Definition Cond_wait (cond mutex : nat) := assert_zero (pthread_cond_wait lib cond mutex).
Definition Sem_init (sem : nat) (value : Z) := assert_zero (sem_init lib sem 0 value).
Definition Sem_wait (sem : nat) := assert_zero (lib_sem_wait lib sem).
Definition Sem_post (sem : nat) := assert_zero (lib_sem_post lib sem).

(** [({ void *p = malloc(s); assert(p != NULL); p; })]: here the call is outside of
    the assertion. The result is null, if [NDEBUG] lets it through. *)
Definition Malloc {P : Type} (malloc : Z -> option P) (size : Z) : option (option P) :=
  match malloc size with
  | Some p => Some (Some p)
  | None => if ndebug then Some None else None
  end.

(** ** Sequences of calls *)

(** The calls themselves, with their results. *)
Fixpoint raw_run (fs : list (call S)) (s : S) : option (S * list Z) :=
  match fs with
  | [] => Some (s, [])
  | f :: fs => '(s, rc) ← f s; '(s, rcs) ← raw_run fs s; Some (s, rc :: rcs)
  end.

(** The same calls, wrapped: the first assertion that fails ends the program. *)
Fixpoint wrapped_run (fs : list (call S)) (s : S) : option (wrapped S) :=
  match fs with
  | [] => Some (Returned s)
  | f :: fs => r ← assert_zero f s; match r with Returned s => wrapped_run fs s | Aborted => Some Aborted end
  end.
End macros.

(** Without [NDEBUG] a sequence of wrapped calls returns in exactly the states in
    which the calls themselves all return 0, and aborts exactly when one of them
    returns something else after the ones before it returned 0. With [NDEBUG] it
    does nothing. *)
Theorem wrapped_run_spec {S} (fs : list (call S)) (s : S) :
  (forall s', wrapped_run false fs s = Some (Returned s') <->
     raw_run fs s = Some (s', replicate (length fs) 0)) /\
  (wrapped_run false fs s = Some Aborted <->
     exists fs1 f fs2 s1 s2 rc, fs = fs1 ++ f :: fs2 /\ raw_run fs1 s = Some (s1, replicate (length fs1) 0) /\
       f s1 = Some (s2, rc) /\ rc <> 0) /\
  wrapped_run true fs s = Some (Returned s).
Proof.
  revert s. induction fs as [|f fs IH]; intros s; cbn [wrapped_run raw_run length replicate].
  - split_and!; [|split|done]; [split; intros; by simplify_eq|done|].
    intros (fs1 & f & fs2 & ? & ? & ? & E & _). by destruct fs1.
  - unfold assert_zero. destruct (f s) as [[s1 rc]|] eqn:Hf; cbn [mbind option_bind].
    + destruct (IH s1) as (IH1 & IH2 & _). destruct (Z.eqb_spec rc 0) as [->|Hrc]; cbn [mbind option_bind].
      * split_and!; [| |apply IH].
        -- intros s'. rewrite IH1. destruct (raw_run fs s1) as [[s2 rcs]|]; cbn; naive_solver.
        -- rewrite IH2. split.
           ++ intros (fs1 & g & fs2 & a & b & rc & -> & Hr & Hg & Hn). exists (f :: fs1), g, fs2, a, b, rc.
              split_and!; [done| |done|done]. simpl. rewrite Hf; simpl. by rewrite Hr.
           ++ intros ([|f' fs1] & g & fs2 & a & b & rc & E & Hr & Hg & Hn); simplify_eq/=.
              rewrite Hf in Hr; simpl in Hr. destruct (raw_run fs1 s1) as [[s2 rcs]|] eqn:E1; simplify_eq/=.
              by exists fs1, g, fs2, a, b, rc.
      * split_and!; [| |apply IH].
        -- intros s'. split; [done|]. intros H. destruct (raw_run fs s1) as [[s2 rcs]|]; simplify_eq/=.
        -- split; [|done]. intros _. exists [], f, fs, s, s1, rc. by split_and!.
    + split_and!; [intros s'; split; done| |apply IH]. split; [done|].
      intros ([|f' fs1] & g & fs2 & a & b & rc & E & Hr & Hg & Hn); simplify_eq/=. by rewrite Hf in Hr.
Qed.

(** ** The primitives of the models *)

(** Mutexes, semaphores and the threads created, of which there can be [limit]. *)
Record machine := mk_machine { mutexes : list bool; sems : list Z; threads : list (nat * nat) }.

Definition EAGAIN : Z := 11.
Definition SEM_VALUE_MAX : Z := 2 ^ 31 - 1.

Section machine.
Context (limit : nat) (rest : library machine).

(** As the manual pages describe them; conditions and joins are those of [rest]. *)
Definition machine_library : library machine := {|
  pthread_create _ start_routine arg s :=
    Some (if (length (threads s) <? limit)%nat
          then (mk_machine (mutexes s) (sems s) (threads s ++ [(start_routine, arg)]), 0) else (s, EAGAIN));
  pthread_join := pthread_join rest;
  pthread_mutex_init m s := Some (mk_machine (<[m := false]> (mutexes s)) (sems s) (threads s), 0);
  pthread_mutex_lock m s :=
    b ← mutexes s !! m; b ← mutex_lock b; Some (mk_machine (<[m := b]> (mutexes s)) (sems s) (threads s), 0);
  pthread_mutex_unlock m s :=
    b ← mutexes s !! m; Some (mk_machine (<[m := mutex_unlock b]> (mutexes s)) (sems s) (threads s), 0);
  pthread_cond_init := pthread_cond_init rest;
  pthread_cond_signal := pthread_cond_signal rest;
  pthread_cond_wait := pthread_cond_wait rest;
  sem_init sem _ value s :=
    Some (if value <=? SEM_VALUE_MAX
          then (mk_machine (mutexes s) (<[sem := value]> (sems s)) (threads s), 0) else (s, -1));
  lib_sem_wait sem s :=
    v ← sems s !! sem; v ← sem_wait v; Some (mk_machine (mutexes s) (<[sem := v]> (sems s)) (threads s), 0);
  lib_sem_post sem s :=
    v ← sems s !! sem;
    Some (if v <? SEM_VALUE_MAX
          then (mk_machine (mutexes s) (<[sem := sem_post v]> (sems s)) (threads s), 0) else (s, -1))
|}.
Abbreviation L := machine_library.

(** Through the wrappers a mutex and a semaphore are [mutex_lock], [mutex_unlock],
    [sem_wait] and [sem_post] of Threads.v: a wrapped call waits exactly when they
    do, and aborts only where a semaphore would overflow. *)
Theorem primitives s x b v :
  mutexes s !! x = Some b -> sems s !! x = Some v -> 0 <= v <= SEM_VALUE_MAX ->
  Mutex_lock L false x s =
    (fun b => Returned (mk_machine (<[x := b]> (mutexes s)) (sems s) (threads s))) <$> mutex_lock b /\
  Mutex_unlock L false x s =
    Some (Returned (mk_machine (<[x := mutex_unlock b]> (mutexes s)) (sems s) (threads s))) /\
  Sem_wait L false x s =
    (fun v => Returned (mk_machine (mutexes s) (<[x := v]> (sems s)) (threads s))) <$> sem_wait v /\
  (Sem_post L false x s = Some Aborted <-> v = SEM_VALUE_MAX) /\
  (v < SEM_VALUE_MAX -> Sem_post L false x s =
    Some (Returned (mk_machine (mutexes s) (<[x := sem_post v]> (sems s)) (threads s)))).
Proof.
  intros Hb Hv Hr. unfold Mutex_lock, Mutex_unlock, Sem_wait, Sem_post, assert_zero, L; cbn. rewrite Hb, Hv; cbn.
  split_and!.
  - by destruct (mutex_lock b).
  - done.
  - by destruct (sem_wait v).
  - destruct (Z.ltb_spec v SEM_VALUE_MAX); cbn; split; intros; try done; lia.
  - intros. by destruct (Z.ltb_spec v SEM_VALUE_MAX); [|lia].
Qed.

(** The loop [for (i = 0; i < n; i++) Pthread_create(&p[i], NULL, start_routine, &args[i])]
    of the programs' mains. *)
Definition create_calls (start_routine first n : nat) : list (call machine) :=
  (fun i => pthread_create L i start_routine i) <$> seq first n.

Lemma create_raw r n : forall first s,
  raw_run (create_calls r first n) s =
  let k := Nat.min n (limit - length (threads s)) in
  Some (mk_machine (mutexes s) (sems s) (threads s ++ ((r,.) <$> seq first k)), replicate k 0 ++ replicate (n - k) EAGAIN).
Proof.
  induction n as [|n IH]; intros first s; [destruct s; cbn; by rewrite app_nil_r|].
  unfold create_calls. cbn [seq fmap list_fmap raw_run]. fold (create_calls r (S first) n).
  unfold L at 1; cbn [pthread_create mbind option_bind]. destruct (Nat.ltb_spec (length (threads s)) limit) as [Hl|Hl].
  - rewrite IH. cbn [threads mutexes sems]. rewrite length_app; cbn [length].
    replace (Nat.min (S n) (limit - length (threads s))) with (S (Nat.min n (limit - (length (threads s) + 1)))) by lia.
    cbn. by rewrite <- app_assoc.
  - rewrite IH. replace (limit - length (threads s))%nat with 0%nat by lia. rewrite !Nat.min_0_r. cbn.
    rewrite Nat.sub_0_r. done.
Qed.

(** A main that creates [n] threads through the wrapper has created them all, in
    order, when the loop is over, if the system allows so many; otherwise it has
    aborted; and with [NDEBUG] it has created none. *)
Theorem create_threads r n s :
  let main_loop ndebug := wrapped_run ndebug (create_calls r 0 n) s in
  (main_loop false =
     if (length (threads s) + n <=? limit)%nat || (n =? 0)%nat
     then Some (Returned (mk_machine (mutexes s) (sems s) (threads s ++ ((r,.) <$> seq 0 n)))) else Some Aborted) /\
  main_loop true = Some (Returned s).
Proof.
  intros main_loop. unfold main_loop. destruct (wrapped_run_spec (create_calls r 0 n) s) as (H1 & H2 & H3). split; [|done].
  assert (Hlen : length (create_calls r 0 n) = n) by (unfold create_calls; by rewrite length_fmap, length_seq).
  destruct (Nat.leb_spec (length (threads s) + n) limit) as [Hl|Hl]; cbn [orb];
    [|destruct (Nat.eqb_spec n 0) as [->|Hn]; [cbn; destruct s; by rewrite app_nil_r|]].
  - apply H1. rewrite create_raw, Hlen. cbn zeta. replace (Nat.min n _) with n by lia.
    by rewrite Nat.sub_diag, app_nil_r.
  - apply H2. set (k := (limit - length (threads s))%nat).
    exists (create_calls r 0 k), (pthread_create L k r k), (create_calls r (S k) (n - S k)).
    eexists _, _, EAGAIN. split_and!; [| | |done].
    + unfold create_calls. replace n with (k + S (n - S k))%nat at 1 by lia. rewrite seq_app, fmap_app. done.
    + rewrite create_raw. cbn zeta. unfold create_calls. rewrite length_fmap, length_seq.
      replace (Nat.min k _) with k by lia. by rewrite Nat.sub_diag, app_nil_r.
    + cbn [machine_library pthread_create threads]. rewrite length_app, length_fmap, length_seq.
      destruct (Nat.ltb_spec (length (threads s) + k) limit); [lia|done].
Qed.
End machine.
