(* ===== verification/Spawn.v ===== *)
(** * A main that creates threads and joins them

    Most of the concurrent programs have the same main: it creates [n] threads in
    a loop, joins them in a loop, and reports something. Threads.v knows the
    threads only; this file adds main to them. A thread runs from its creation
    on, and a join waits until the thread has returned. What holds for every
    schedule of the threads alone is carried over to the whole program:
    [spawn_threads] (main only restricts the schedules), [spawn_report] (the
    report is made when all have returned), [spawn_bounded] and
    [spawn_finishes]. *)

From S2P Require Import Prelude Threads.

(** Where main is: it has created [k] threads, it has joined [k], it is at its
    final statement, or it has returned with the report it made. *)
Inductive main_pc (R : Type) := MCreate (k : nat) | MJoin (k : nat) | MReport | MReturned (r : R).
Arguments MCreate {R} _.
Arguments MJoin {R} _.
Arguments MReport {R}.
Arguments MReturned {R} _.

Section spawn.
Context {S L R : Type} (tstep : S -> L -> option (S * L)) (returned : L -> bool) (report : S -> R).

(** A thread that has returned does not move. *)
Context (returned_stops : forall s l, returned l = true -> tstep s l = None).

Definition created (m : main_pc R) (i : nat) : Prop :=
  match m with MCreate k => (i < k)%nat | _ => True end.

(** A main of [n] threads. *)
Definition main_step (n : nat) (m : main_pc R) (c : S * list L) : option (main_pc R) :=
  match m with
  | MCreate k => Some (if (k <? n)%nat then MCreate (Datatypes.S k) else MJoin 0)
  | MJoin k =>
      if (k <? n)%nat then l ← c.2 !! k; if returned l then Some (MJoin (Datatypes.S k)) else None
      else Some MReport
  | MReport => Some (MReturned (report c.1))
  | MReturned _ => None
  end.

Inductive spawn_step (n : nat) : main_pc R * (S * list L) -> main_pc R * (S * list L) -> Prop :=
| spawn_thread m i s ls l s' l' :
    created m i -> ls !! i = Some l -> tstep s l = Some (s', l') ->
    spawn_step n (m, (s, ls)) (m, (s', <[i := l']> ls))
| spawn_main m m' c : main_step n m c = Some m' -> spawn_step n (m, c) (m', c).

Definition all_returned (ls : list L) : Prop := forall i l, ls !! i = Some l -> returned l = true.

(** ** The threads *)

Lemma spawn_threads n p p' : rtc (spawn_step n) p p' -> rtc (sys_step tstep) p.2 p'.2.
Proof.
  induction 1 as [p|p p1 p2 Hs _ IH]; [done|]. destruct Hs; [|done].
  eapply rtc_l; [by econstructor|done].
Qed.

(** What main has joined has returned, and stays so. *)
Definition joined (m : main_pc R) (ls : list L) : Prop :=
  match m with
  | MCreate _ => True
  | MJoin k => forall i l, (i < k)%nat -> ls !! i = Some l -> returned l = true
  | MReport | MReturned _ => all_returned ls
  end.

Definition spawn_inv (n : nat) (p : main_pc R * (S * list L)) : Prop :=
  length p.2.2 = n /\ joined p.1 p.2.2 /\
  (match p.1 with MCreate k | MJoin k => (k <= n)%nat | MReturned r => r = report p.2.1 | MReport => True end).

(** A thread that moves has not returned, so it is none of those joined. *)
Lemma joined_step m s ls i l s' l' :
  joined m ls -> ls !! i = Some l -> tstep s l = Some (s', l') ->
  joined m (<[i := l']> ls) /\ (forall r, m <> MReturned r).
Proof.
  intros Hj Hi Ht. assert (Hr : returned l = false).
  { destruct (returned l) eqn:E; [|done]. by rewrite returned_stops in Ht. }
  destruct m as [k|k| |r]; simpl in *; (split; [|try done]).
  - done.
  - intros j x Hk Hx. destruct (decide (j = i)) as [->|Hne].
    + specialize (Hj i l Hk Hi). congruence.
    + rewrite list_lookup_insert_ne in Hx by done. by eapply Hj.
  - specialize (Hj i l Hi). congruence.
  - specialize (Hj i l Hi). congruence.
  - specialize (Hj i l Hi). congruence.
Qed.

Lemma spawn_inv_step n p p' : spawn_inv n p -> spawn_step n p p' -> spawn_inv n p'.
Proof.
  unfold spawn_inv. intros (Hl & Hj & Hm) Hs.
  destruct Hs as [m i s ls l s' l' Hc Hi Ht|m m' [s ls] Hm']; simpl in *; subst n.
  - destruct (joined_step m s ls i l s' l' Hj Hi Ht) as [Hj' Hnr].
    split; [by rewrite length_insert|]. split; [done|]. destruct m as [k|k| |r]; try done. by destruct (Hnr r).
  - split; [done|]. destruct m as [k|k| |r]; simpl in *; simplify_eq.
    + destruct (Nat.ltb_spec k (length ls)); simpl; (split; [|lia]); [done|intros; lia].
    + destruct (Nat.ltb_spec k (length ls)); simplify_eq/=.
      * destruct (ls !! k) as [l|] eqn:Hk; simpl in Hm'; [|done]. destruct (returned l) eqn:Hr; simplify_eq.
        simpl. split; [|lia]. intros i x Hi Hx. destruct (decide (i = k)) as [->|Hne]; [congruence|].
        apply (Hj i x); [lia|done].
      * split; [|done]. intros i l Hi. apply (Hj i l); [|done]. apply lookup_lt_Some in Hi. lia.
    + done.
Qed.

Lemma spawn_inv_reach ls0 s0 p :
  rtc (spawn_step (length ls0)) (MCreate 0, (s0, ls0)) p -> spawn_inv (length ls0) p.
Proof.
  intros Hr. remember (MCreate 0, (s0, ls0)) as p0 eqn:E.
  assert (H0 : spawn_inv (length ls0) p0) by (subst; repeat split; simpl; lia).
  clear E. induction Hr as [|p0 p1 p2 Hs _ IH]; [done|]. apply IH. by eapply spawn_inv_step.
Qed.

(** When main has returned, its report is that of a state that the threads
    reached and in which all of them have returned. *)
Lemma spawn_report s0 ls0 r s ls :
  rtc (spawn_step (length ls0)) (MCreate 0, (s0, ls0)) (MReturned r, (s, ls)) ->
  r = report s /\ all_returned ls /\ rtc (sys_step tstep) (s0, ls0) (s, ls).
Proof.
  intros Hr. destruct (spawn_inv_reach ls0 s0 _ Hr) as (_ & Hj & Hm). split; [done|]. split; [done|].
  apply (spawn_threads _ _ _ Hr).
Qed.

(** ** Termination *)

(** The statements main has left. *)
Definition main_left (n : nat) (m : main_pc R) : nat :=
  match m with
  | MCreate k => (n - k) + n + 3
  | MJoin k => (n - k) + 2
  | MReport => 1
  | MReturned _ => 0
  end.

Lemma main_step_left n m c m' : main_step n m c = Some m' -> (main_left n m' < main_left n m)%nat.
Proof.
  destruct m as [k|k| |r]; simpl; intros Hm; simplify_eq/=; try lia.
  - destruct (Nat.ltb_spec k n); simpl; lia.
  - destruct (Nat.ltb_spec k n); simplify_eq/=; [|lia].
    destruct (c.2 !! k) as [l|]; simpl in Hm; [|done]. destruct (returned l); simplify_eq/=. lia.
Qed.

(** A program's execution is the threads' with main's statements between. *)
Lemma spawn_nsteps n k p p' :
  nsteps (spawn_step n) k p p' ->
  exists j, nsteps (sys_step tstep) j p.2 p'.2 /\ (k + main_left n p'.1 <= j + main_left n p.1)%nat.
Proof.
  induction 1 as [p|k p p1 p2 Hs _ (j & Hj & Hk)]; [exists 0%nat; split; [constructor|lia]|].
  destruct Hs as [m i s ls l s' l' Hc Hi Ht|m m' c Hm]; simpl in *.
  - exists (Datatypes.S j). split; [|lia]. econstructor; [by econstructor|done].
  - exists j. split; [done|]. pose proof (main_step_left _ _ _ _ Hm). lia.
Qed.

(** A bound on the executions of the threads gives one for the program. *)
Lemma spawn_bounded s0 ls0 b k p :
  (forall j c, nsteps (sys_step tstep) j (s0, ls0) c -> (j <= b)%nat) ->
  nsteps (spawn_step (length ls0)) k (MCreate 0, (s0, ls0)) p -> (k <= b + 2 * length ls0 + 3)%nat.
Proof.
  intros Hb Hk. destruct (spawn_nsteps _ _ _ _ Hk) as (j & Hj & Hle). simpl in *. specialize (Hb j _ Hj). lia.
Qed.

Lemma spawn_lift n m c c' :
  (forall i, created m i) -> rtc (sys_step tstep) c c' -> rtc (spawn_step n) (m, c) (m, c').
Proof.
  intros Hm. induction 1 as [|c c1 c2 Hs _ IH]; [done|]. destruct Hs as [i s ls l s' l' Hi Ht].
  eapply rtc_l; [|exact IH]. by econstructor.
Qed.

Lemma spawn_create_all n k c :
  (k <= n)%nat -> rtc (spawn_step n) (MCreate k, c) (MJoin 0, c).
Proof.
  remember (n - k)%nat as d eqn:Hd. revert k Hd. induction d as [|d IH]; intros k Hd Hk.
  - eapply rtc_l; [|done]. constructor. simpl. by destruct (Nat.ltb_spec k n); [lia|].
  - eapply rtc_l; [|apply (IH (Datatypes.S k)); lia]. constructor. simpl. by destruct (Nat.ltb_spec k n); [|lia].
Qed.

Lemma spawn_join_all n k s ls :
  length ls = n -> (k <= n)%nat -> all_returned ls ->
  rtc (spawn_step n) (MJoin k, (s, ls)) (MReturned (report s), (s, ls)).
Proof.
  intros Hl. remember (n - k)%nat as d eqn:Hd. revert k Hd. induction d as [|d IH]; intros k Hd Hk Hall.
  - eapply rtc_l; [constructor; simpl; by destruct (Nat.ltb_spec k n); [lia|]|].
    eapply rtc_l; [by constructor|done].
  - eapply rtc_l; [|apply (IH (Datatypes.S k)); [lia|lia|done]]. constructor. simpl.
    destruct (Nat.ltb_spec k n); [|lia]. destruct (lookup_lt_is_Some_2 ls k ltac:(lia)) as [l Hk'].
    rewrite Hk'. simpl. by rewrite (Hall k l Hk').
Qed.

(** If the threads can finish from every state they reach, so can the program. *)
Lemma spawn_finishes s0 ls0 p :
  (forall c, rtc (sys_step tstep) (s0, ls0) c ->
     exists c', rtc (sys_step tstep) c c' /\ all_returned c'.2) ->
  rtc (spawn_step (length ls0)) (MCreate 0, (s0, ls0)) p ->
  exists s ls, rtc (spawn_step (length ls0)) p (MReturned (report s), (s, ls)).
Proof.
  intros Hfin Hr. destruct (spawn_inv_reach ls0 s0 p Hr) as (Hl & Hj & Hm).
  pose proof (spawn_threads _ _ _ Hr) as Hth. destruct p as [m c]. simpl in *.
  assert (Hgo : forall k, (k <= length ls0)%nat -> exists s ls,
             rtc (spawn_step (length ls0)) (MJoin k, c) (MReturned (report s), (s, ls))).
  { intros k Hk. destruct (Hfin c Hth) as ([s ls] & Hc & Hall). exists s, ls.
    etrans; [apply (spawn_lift _ (MJoin k)); [done|exact Hc]|]. apply spawn_join_all; [|done|done].
    rewrite <- Hl. clear -Hc. change ls with (s, ls).2. induction Hc as [|c c1 c2 Hs _ IH]; [done|].
    rewrite IH. destruct Hs. simpl. by rewrite length_insert. }
  destruct m as [k|k| |r].
  - destruct (Hgo 0%nat ltac:(lia)) as (s & ls & H). exists s, ls. etrans; [by apply spawn_create_all|done].
  - by apply Hgo.
  - destruct c as [s ls]. exists s, ls. eapply rtc_l; [by constructor|done].
  - destruct c as [s ls]. exists s, ls. simpl in Hm. by subst.
Qed.

(** The three together: what the threads guarantee gives what the program does. *)
Lemma spawn_program c0 n b (Q : R -> Prop) :
  length c0.2 = n ->
  (forall s ls, rtc (sys_step tstep) c0 (s, ls) -> all_returned ls -> Q (report s)) ->
  (forall j c, nsteps (sys_step tstep) j c0 c -> (j <= b)%nat) ->
  (forall c, rtc (sys_step tstep) c0 c -> exists c', rtc (sys_step tstep) c c' /\ all_returned c'.2) ->
  (forall r c, rtc (spawn_step n) (MCreate 0, c0) (MReturned r, c) -> Q r) /\
  (forall k p, nsteps (spawn_step n) k (MCreate 0, c0) p -> (k <= b + 2 * n + 3)%nat) /\
  (forall p, rtc (spawn_step n) (MCreate 0, c0) p ->
     exists r c, Q r /\ rtc (spawn_step n) p (MReturned r, c)).
Proof.
  destruct c0 as [s0 ls0]. cbn [snd]. intros <- HQ Hb Hf.
  assert (Hq : forall r c, rtc (spawn_step (length ls0)) (MCreate 0, (s0, ls0)) (MReturned r, c) -> Q r).
  { intros r [s ls] Hr. destruct (spawn_report _ _ _ _ _ Hr) as (-> & Hall & Hs). by eapply HQ. }
  split_and!; [exact Hq|intros k p Hk; by eapply spawn_bounded|].
  intros p Hp. destruct (spawn_finishes _ _ _ Hf Hp) as (s & ls & Hr). eexists _, _. split; [|exact Hr].
  eapply Hq. by etrans.
Qed.
End spawn.
