(* ===== verification/Monitor.v ===== *)
(** * Monitors: mutexes with condition variables

    The blocking queues and pools of the repository share one shape: a struct
    with a mutex, whose fields are read and written only between
    [pthread_mutex_lock] and [pthread_mutex_unlock], and condition variables on
    which a call sleeps in a [while] loop. A call's code from the moment it gets
    the mutex to the moment it gives it up (by unlocking, or inside
    [pthread_cond_wait]) is one atomic step here: nothing else reads or writes
    the fields meanwhile. This file holds the interleaving of such steps:

    - [mcall s c] runs the call [c], or what is left of it, on the shared state
      [s] from a lock to the next unlock. [None] is undefined behaviour.
    - a thread that got [Wait v c'] sleeps on the condition variable [v]; woken,
      it takes the mutex again and goes on with [c'], that is, with the test of
      its [while] loop.
    - [Signal v] wakes one sleeper of [v], whichever, if there is one;
      [Broadcast v] wakes them all. A sleeper can also wake without a signal
      ([spurious]), as POSIX allows: safety theorems admit such wake-ups. *)

From S2P Require Import Prelude.

Inductive wake (V : Type) : Type :=
| Signal (v : V)
| Broadcast (v : V).
Arguments Signal {V} v.
Arguments Broadcast {V} v.

(** What a step of a call does: it finds the mutex (or semaphore) taken, it
    sleeps, it goes on to its next critical section, or it returns. *)
Inductive outcome (S C R V : Type) : Type :=
| Blocked
| Wait (v : V) (c : C)
| Next (s : S) (c : C) (ws : list (wake V))
| Done (s : S) (r : R) (ws : list (wake V)).
Arguments Blocked {S C R V}.
Arguments Wait {S C R V} v c.
Arguments Next {S C R V} s c ws.
Arguments Done {S C R V} s r ws.

(** A thread: the calls it has left, the first of them under way, and the
    condition variable it sleeps on. *)
Record mthread (C V : Type) := mk_mthread {
  mt_calls : list C;
  mt_cv : option V
}.
Arguments mk_mthread {C V} mt_calls mt_cv.
Arguments mt_calls {C V} m.
Arguments mt_cv {C V} m.

Definition start {C V} (calls : list C) : mthread C V := mk_mthread calls None.

(** The shared state, the threads, and the calls that have returned, in the
    order of their last critical sections, with their results. *)
Record mcfg (S C R V : Type) := mk_mcfg {
  mc_state : S;
  mc_threads : list (mthread C V);
  mc_log : list (C * R)
}.
Arguments mk_mcfg {S C R V} mc_state mc_threads mc_log.
Arguments mc_state {S C R V} m.
Arguments mc_threads {S C R V} m.
Arguments mc_log {S C R V} m.

Section monitor.
Context {S C R V : Type} `{EqDecision V} (mcall : S -> C -> option (outcome S C R V)).
Notation thread := (mthread C V).
Notation cfg := (mcfg S C R V).

Definition awaken (t : thread) : thread := mk_mthread (mt_calls t) None.

Definition waits_on (v : V) (t : thread) : bool := bool_decide (mt_cv t = Some v).

Inductive woken : list (wake V) -> list thread -> list thread -> Prop :=
| woken_nil ls : woken [] ls ls
| woken_signal v ws ls j t ls' :
    ls !! j = Some t -> waits_on v t = true ->
    woken ws (<[j := awaken t]> ls) ls' -> woken (Signal v :: ws) ls ls'
| woken_nobody v ws ls ls' :
    (forall j t, ls !! j = Some t -> waits_on v t = false) ->
    woken ws ls ls' -> woken (Signal v :: ws) ls ls'
| woken_broadcast v ws ls ls' :
    woken ws ((fun t => if waits_on v t then awaken t else t) <$> ls) ls' ->
    woken (Broadcast v :: ws) ls ls'.

Inductive mon_step : cfg -> cfg -> Prop :=
| mon_wait s ls log i c cs v c' :
    ls !! i = Some (mk_mthread (c :: cs) None) -> mcall s c = Some (Wait v c') ->
    mon_step (mk_mcfg s ls log) (mk_mcfg s (<[i := mk_mthread (c' :: cs) (Some v)]> ls) log)
| mon_next s ls log i c cs s' c' ws ls' :
    ls !! i = Some (mk_mthread (c :: cs) None) -> mcall s c = Some (Next s' c' ws) ->
    woken ws (<[i := mk_mthread (c' :: cs) None]> ls) ls' ->
    mon_step (mk_mcfg s ls log) (mk_mcfg s' ls' log)
| mon_done s ls log i c cs s' r ws ls' :
    ls !! i = Some (mk_mthread (c :: cs) None) -> mcall s c = Some (Done s' r ws) ->
    woken ws (<[i := mk_mthread cs None]> ls) ls' ->
    mon_step (mk_mcfg s ls log) (mk_mcfg s' ls' (log ++ [(c, r)])).

Inductive spurious : cfg -> cfg -> Prop :=
| spurious_wakeup s ls log i t :
    ls !! i = Some t -> mt_cv t <> None ->
    spurious (mk_mcfg s ls log) (mk_mcfg s (<[i := awaken t]> ls) log).

Definition any_step (k k' : cfg) : Prop := mon_step k k' \/ spurious k k'.

Definition init (s : S) (progs : list (list C)) : cfg := mk_mcfg s (start <$> progs) [].

(** Every thread has returned from all its calls. *)
Definition all_returned (k : cfg) : Prop := forall t, t ∈ mc_threads k -> mt_calls t = [].

(** ** Executable runs, in which a signal wakes the first sleeper *)
Fixpoint wake_first (v : V) (ls : list thread) : list thread :=
  match ls with
  | [] => []
  | t :: ls => if waits_on v t then awaken t :: ls else t :: wake_first v ls
  end.

Fixpoint wake_all (ws : list (wake V)) (ls : list thread) : list thread :=
  match ws with
  | [] => ls
  | Signal v :: ws => wake_all ws (wake_first v ls)
  | Broadcast v :: ws => wake_all ws ((fun t => if waits_on v t then awaken t else t) <$> ls)
  end.

Definition mon_run1 (k : cfg) (i : nat) : option cfg :=
  match mc_threads k !! i with
  | Some (mk_mthread (c :: cs) None) =>
      match mcall (mc_state k) c with
      | Some (Wait v c') =>
          Some (mk_mcfg (mc_state k) (<[i := mk_mthread (c' :: cs) (Some v)]> (mc_threads k)) (mc_log k))
      | Some (Next s' c' ws) =>
          Some (mk_mcfg s' (wake_all ws (<[i := mk_mthread (c' :: cs) None]> (mc_threads k))) (mc_log k))
      | Some (Done s' r ws) =>
          Some (mk_mcfg s' (wake_all ws (<[i := mk_mthread cs None]> (mc_threads k)))
                  (mc_log k ++ [(c, r)]))
      | _ => None
      end
  | _ => None
  end.

Fixpoint mon_run (sched : list nat) (k : cfg) : option cfg :=
  match sched with
  | [] => Some k
  | i :: sched => k' ← mon_run1 k i; mon_run sched k'
  end.

Lemma wake_first_spec v ls :
  (exists j t, ls !! j = Some t /\ waits_on v t = true /\ wake_first v ls = <[j := awaken t]> ls) \/
  ((forall j t, ls !! j = Some t -> waits_on v t = false) /\ wake_first v ls = ls).
Proof.
  induction ls as [|x ls IH]; simpl; [by right|].
  destruct (waits_on v x) eqn:E; [left; by exists 0%nat, x|].
  destruct IH as [(j & t & ? & ? & ->)|[Hno ->]]; [left; by exists (Datatypes.S j), t|right].
  split; [|done]. intros [|j] t Hj; simplify_eq/=; eauto.
Qed.

Lemma wake_all_woken ws ls : woken ws ls (wake_all ws ls).
Proof.
  revert ls. induction ws as [|[v|v] ws IH]; intros ls; simpl; [constructor| |by constructor].
  destruct (wake_first_spec v ls) as [(j & t & ? & ? & ->)|[Hno ->]].
  - by econstructor.
  - by apply woken_nobody.
Qed.

Lemma mon_run_rtc sched k k' : mon_run sched k = Some k' -> rtc mon_step k k'.
Proof.
  revert k. induction sched as [|i sched IH]; simpl; intros k H; [by simplify_eq|].
  destruct (mon_run1 k i) as [k1|] eqn:H1; simplify_eq/=.
  eapply rtc_l; [|by apply IH]. destruct k as [s ls log]. unfold mon_run1 in H1; simpl in H1.
  destruct (ls !! i) as [[[|c cs] [v|]]|] eqn:Hi; try done.
  destruct (mcall s c) as [[| | |]|] eqn:Hc; simplify_eq.
  - by eapply mon_wait.
  - by eapply mon_next, wake_all_woken.
  - by eapply mon_done, wake_all_woken.
Qed.

Lemma rtc_mon_any k k' : rtc mon_step k k' -> rtc any_step k k'.
Proof. apply rtc_subrel. by left. Qed.

(** ** Invariants *)

(** An invariant of the shared state alone and of the log. *)
Lemma mon_state_invariant (I : S -> list (C * R) -> Prop) k0 :
  (forall s log c s' c' ws, I s log -> mcall s c = Some (Next s' c' ws) -> I s' log) ->
  (forall s log c s' r ws, I s log -> mcall s c = Some (Done s' r ws) -> I s' (log ++ [(c, r)])) ->
  I (mc_state k0) (mc_log k0) ->
  forall k, rtc any_step k0 k -> I (mc_state k) (mc_log k).
Proof.
  intros Hn Hd H0 k Hr. induction Hr as [|k1 k2 k3 Hs _ IH]; [done|]. apply IH.
  destruct Hs as [Hs|Hs]; inversion Hs; subst; simpl in *; eauto.
Qed.

(** The measures of threads that a wake-up leaves alone keep their sums. *)
Lemma woken_sum (f : thread -> Z) ws ls ls' :
  (forall t, f (awaken t) = f t) -> woken ws ls ls' -> lsum f ls' = lsum f ls.
Proof.
  intros Hf. induction 1 as [|v ws ls j t ls' Hj Ht _ IH| |v ws ls ls' _ IH]; try done.
  - rewrite IH, (lsum_insert f ls j t) by done. rewrite Hf. lia.
  - rewrite IH. clear -Hf. induction ls as [|x ls IH]; [done|].
    rewrite fmap_cons, !lsum_cons, IH. destruct (waits_on v x); by rewrite ?Hf.
Qed.

Lemma woken_calls_sum (g : list C -> Z) ws ls ls' :
  woken ws ls ls' -> lsum (fun t => g (mt_calls t)) ls' = lsum (fun t => g (mt_calls t)) ls.
Proof. by apply woken_sum. Qed.

Lemma woken_length ws ls ls' : woken ws ls ls' -> length ls' = length ls.
Proof.
  induction 1 as [|v ws ls j t ls' Hj Ht _ IH| |v ws ls ls' _ IH]; try done.
  - by rewrite length_insert in IH.
  - by rewrite length_fmap in IH.
Qed.

(** A woken list has, at every position, the same calls, and nobody fell asleep. *)
Lemma woken_lookup ws ls ls' i t' :
  woken ws ls ls' -> ls' !! i = Some t' ->
  exists t, ls !! i = Some t /\ (t' = t \/ t' = awaken t).
Proof.
  intros Hw. revert t'. induction Hw as [|v ws ls j t ls' Hj Ht _ IH| |v ws ls ls' _ IH];
    intros t' Hi; [eauto| |eauto|].
  - destruct (IH t' Hi) as (u & Hu & Ht'). destruct (decide (i = j)) as [->|].
    + rewrite list_lookup_insert_eq in Hu by (by eapply lookup_lt_Some). simplify_eq.
      exists t. split; [done|]. right. by destruct Ht' as [-> | ->].
    + rewrite list_lookup_insert_ne in Hu by done. eauto.
  - destruct (IH t' Hi) as (u & Hu & Ht'). rewrite list_lookup_fmap in Hu.
    destruct (ls !! i) as [x|]; simplify_eq/=. exists x. split; [done|].
    destruct (waits_on v x); [|done]. right. by destruct Ht' as [-> | ->].
Qed.

(** Any list of wake-ups can be carried out. *)
Lemma woken_exists ws ls : exists ls', woken ws ls ls'.
Proof. eexists. apply wake_all_woken. Qed.

(** ** Progress and termination *)

Definition awake (t : thread) : bool := bool_decide (mt_cv t = None).

Section measure.
Context (cost : C -> nat).

Definition calls_cost (t : thread) : Z := lsum (fun c => Z.of_nat (cost c)) (mt_calls t).

(** Each critical section that completes costs more than the threads it can
    wake, each test that fails costs the thread's being awake. *)
Definition mon_measure (k : cfg) : Z :=
  (Z.of_nat (length (mc_threads k)) + 1) * lsum calls_cost (mc_threads k)
  + lsum (ind awake) (mc_threads k).

Hypothesis cost_pos : forall c, (1 <= cost c)%nat.
Hypothesis cost_wait : forall s c v c', mcall s c = Some (Wait v c') -> (cost c' <= cost c)%nat.
Hypothesis cost_next : forall s c s' c' ws,
  mcall s c = Some (Next s' c' ws) -> (cost c' < cost c)%nat.

Lemma mon_measure_nonneg k : 0 <= mon_measure k.
Proof.
  unfold mon_measure. pose proof (lsum_nonneg (ind awake) (mc_threads k) ltac:(auto with carr)).
  pose proof (lsum_nonneg calls_cost (mc_threads k)
    ltac:(intros; apply lsum_nonneg; intros; lia)). nia.
Qed.

Lemma woken_cost_decreases s ls log s' log' i c cs cs' ws ls' :
  ls !! i = Some (mk_mthread (c :: cs) None) ->
  lsum (fun c => Z.of_nat (cost c)) cs' < lsum (fun c => Z.of_nat (cost c)) (c :: cs) ->
  woken ws (<[i := mk_mthread cs' None]> ls) ls' ->
  mon_measure (mk_mcfg s' ls' log') < mon_measure (mk_mcfg s ls log).
Proof.
  intros Hi Hlt Hw. unfold mon_measure; simpl mc_threads.
  rewrite (woken_length _ _ _ Hw), length_insert.
  rewrite (woken_sum calls_cost _ _ _ ltac:(done) Hw), (lsum_insert _ _ _ _ _ Hi).
  pose proof (ind_le_length awake ls') as H1.
  rewrite (woken_length _ _ _ Hw), length_insert in H1.
  pose proof (lsum_nonneg (ind awake) ls ltac:(auto with carr)).
  unfold calls_cost at 2 3. cbn [mt_calls]. nia.
Qed.

Lemma mon_step_measure k k' : mon_step k k' -> mon_measure k' < mon_measure k.
Proof.
  destruct 1 as [s ls log i c cs v c' Hi Hc|s ls log i c cs s' c' ws ls' Hi Hc Hw
                |s ls log i c cs s' r ws ls' Hi Hc Hw].
  - unfold mon_measure; simpl mc_threads. rewrite length_insert, !(lsum_insert _ _ _ _ _ Hi).
    change (ind awake (mk_mthread (c' :: cs) (Some v))) with 0.
    change (ind awake (mk_mthread (c :: cs) None)) with 1.
    unfold calls_cost at 2 3. cbn [mt_calls]. rewrite !lsum_cons. pose proof (cost_wait _ _ _ _ Hc). nia.
  - eapply woken_cost_decreases; [done| |done]. rewrite !lsum_cons.
    pose proof (cost_next _ _ _ _ _ Hc). lia.
  - eapply woken_cost_decreases; [done| |done]. rewrite !lsum_cons.
    pose proof (cost_pos c). lia.
Qed.

Lemma mon_steps_bounded n k k' : nsteps mon_step n k k' -> Z.of_nat n <= mon_measure k.
Proof.
  induction 1 as [k|n k1 k2 k3 Hs _ IH]; [apply mon_measure_nonneg|].
  pose proof (mon_step_measure _ _ Hs). lia.
Qed.

(** From a state of an invariant [P] whose states can all move until [fin],
    [fin] is reached, whatever the schedule has been so far. *)
Lemma mon_reaches (P fin : cfg -> Prop) k :
  (forall k k', P k -> mon_step k k' -> P k') ->
  (forall k, P k -> fin k \/ exists k', mon_step k k') ->
  P k -> exists k', rtc mon_step k k' /\ fin k'.
Proof.
  intros HP Hprog. remember (Z.to_nat (mon_measure k)) as n eqn:Hn. revert k Hn.
  induction n as [n IH] using lt_wf_ind; intros k -> Hk.
  destruct (Hprog k Hk) as [|[k1 Hs]]; [by exists k|].
  pose proof (mon_step_measure _ _ Hs). pose proof (mon_measure_nonneg k1).
  destruct (IH (Z.to_nat (mon_measure k1)) ltac:(lia) k1 eq_refl (HP _ _ Hk Hs)) as (k2 & ? & ?).
  exists k2. split; [by eapply rtc_l|done].
Qed.
End measure.

(** An awake thread whose call is neither blocked nor undefined can move. *)
Lemma mon_can_step s ls log i c cs o :
  ls !! i = Some (mk_mthread (c :: cs) None) -> mcall s c = Some o -> o <> Blocked ->
  exists k, mon_step (mk_mcfg s ls log) k.
Proof.
  intros Hi Hc Ho. destruct o as [|v c'|s' c' ws|s' r ws]; [done|..].
  - eexists. by eapply mon_wait.
  - destruct (woken_exists ws (<[i := mk_mthread (c' :: cs) None]> ls)) as [ls' Hw].
    eexists. by eapply mon_next.
  - destruct (woken_exists ws (<[i := mk_mthread cs None]> ls)) as [ls' Hw].
    eexists. by eapply mon_done.
Qed.
End monitor.

(** ** Counting sleepers and the threads that are ready to repeat their test *)
Section sleepers.
Context {C V : Type} `{EqDecision V}.
Implicit Types (ls : list (mthread C V)) (t : mthread C V) (v : V).

Definition sleepers v ls : Z := lsum (ind (waits_on v)) ls.

(** Awake, and about to run a call that satisfies [p]. *)
Definition ready (p : C -> bool) t : bool :=
  match t with mk_mthread (c :: _) None => p c | _ => false end.

Definition ready_cnt (p : C -> bool) ls : Z := lsum (ind (ready p)) ls.

Lemma sleepers_nonneg v ls : 0 <= sleepers v ls.
Proof. apply lsum_nonneg. auto with carr. Qed.

Lemma ready_cnt_nonneg p ls : 0 <= ready_cnt p ls.
Proof. apply lsum_nonneg. auto with carr. Qed.

Lemma sleepers_insert v ls i t t' :
  ls !! i = Some t -> sleepers v (<[i := t']> ls) = sleepers v ls - ind (waits_on v) t + ind (waits_on v) t'.
Proof. apply lsum_insert. Qed.

Lemma ready_cnt_insert p ls i t t' :
  ls !! i = Some t -> ready_cnt p (<[i := t']> ls) = ready_cnt p ls - ind (ready p) t + ind (ready p) t'.
Proof. apply lsum_insert. Qed.

Lemma sleepers_lookup v ls i t : ls !! i = Some t -> mt_cv t = Some v -> 1 <= sleepers v ls.
Proof.
  intros Hi Ht. pose proof (lsum_lookup_le (ind (waits_on v)) ls i t ltac:(auto with carr) Hi) as H.
  assert (Hw : waits_on v t = true) by (by apply bool_decide_eq_true_2).
  unfold ind at 1 in H. by rewrite Hw in H.
Qed.

Lemma sleepers_none v ls :
  (forall j t, ls !! j = Some t -> waits_on v t = false) -> sleepers v ls = 0.
Proof.
  intros H. unfold sleepers. rewrite (lsum_const _ 0); [lia|].
  intros t [j Hj]%list_elem_of_lookup. unfold ind. by rewrite (H j t Hj).
Qed.

Lemma sleepers_zero v ls i t : sleepers v ls = 0 -> ls !! i = Some t -> mt_cv t <> Some v.
Proof. intros H Hi Ht. pose proof (sleepers_lookup v ls i t Hi Ht). lia. Qed.

(** What one signal does. *)
Lemma woken_one v ls ls' :
  woken [Signal v] ls ls' ->
  (ls' = ls /\ sleepers v ls = 0) \/
  exists j t, ls !! j = Some t /\ mt_cv t = Some v /\ ls' = <[j := awaken t]> ls.
Proof.
  intros H. inversion H as [|? ? ? j t ? Hj Ht Hw|? ? ? ? Hno Hw|]; subst; inversion Hw; subst.
  - right. exists j, t. unfold waits_on in Ht. by case_bool_decide.
  - left. split; [done|]. by apply sleepers_none.
Qed.

(** Nobody sleeps on a condition variable that was broadcast. *)
Lemma woken_broadcast_none v ws ls ls' :
  woken ws ls ls' -> Broadcast v ∈ ws -> sleepers v ls' = 0.
Proof.
  assert (Hkeep : forall ws ls ls', woken ws ls ls' -> sleepers v ls = 0 -> sleepers v ls' = 0).
  { clear. intros ws ls ls' Hw H0. apply sleepers_none. intros j t' Hj.
    destruct (woken_lookup _ _ _ _ _ Hw Hj) as (t & Ht & Htt).
    unfold waits_on. apply bool_decide_eq_false_2.
    destruct Htt as [-> | ->]; [by eapply sleepers_zero|done]. }
  induction 1 as [|u ws ls j t ls' Hj Ht Hw IH|u ws ls ls' Hno Hw IH|u ws ls ls' Hw IH];
    rewrite ?elem_of_nil, ?elem_of_cons; intros Hin; [done|..].
  - apply IH. by destruct Hin.
  - apply IH. by destruct Hin.
  - destruct Hin as [[= ->]|Hin]; [|by apply IH]. eapply Hkeep; [done|]. apply sleepers_none.
    intros j t Hj. rewrite list_lookup_fmap in Hj. destruct (ls !! j) as [x|]; simplify_eq/=.
    destruct (waits_on u x) eqn:Hx; [by unfold waits_on|done].
Qed.

Lemma sleepers_awake v (cs : list C) : ind (waits_on v) (mk_mthread cs None) = 0.
Proof. done. Qed.

(** A thread that goes from one call to the next without sleeping. *)
Lemma return_sleepers v ls i cs cs' :
  ls !! i = Some (mk_mthread cs None) -> sleepers v (<[i := mk_mthread cs' None]> ls) = sleepers v ls.
Proof. intros Hi. rewrite (sleepers_insert _ _ _ _ _ Hi), !sleepers_awake. lia. Qed.

Lemma return_ready p ls i c cs cs' :
  ls !! i = Some (mk_mthread (c :: cs) None) ->
  ready_cnt p ls - ind p c <= ready_cnt p (<[i := mk_mthread cs' None]> ls).
Proof.
  intros Hi. rewrite (ready_cnt_insert _ _ _ _ _ Hi).
  pose proof (ind_nonneg (ready p) (mk_mthread cs' None)).
  change (ind (ready p) (mk_mthread (c :: cs) None)) with (ind p c). lia.
Qed.

(** Wake-ups change neither the calls of the threads nor their number. *)
Lemma woken_calls ws ls ls' : woken ws ls ls' -> mt_calls <$> ls' = mt_calls <$> ls.
Proof.
  induction 1 as [|v ws ls j t ls' Hj Ht _ IH| |v ws ls ls' _ IH]; try done.
  - rewrite IH, list_fmap_insert. apply list_insert_id. rewrite list_lookup_fmap, Hj. done.
  - rewrite IH, <- list_fmap_compose. apply list_fmap_ext. intros i x _. simpl. by destruct (waits_on v x).
Qed.
End sleepers.
