(* ===== verification/LockOrder.v ===== *)
(** * Locks taken in a global order

    What deadlock_free_multi_lock_transfer.c and vector-global-order.c rely on,
    proved once for threads that are known only by the locks they hold and the
    lock they wait for: if every thread waits only for locks of a higher rank
    than those it holds, and holds none when it has finished, then the threads
    cannot deadlock, and a lock is never held twice. [LockDiscipline] states what
    a program has to show for it. *)

From S2P Require Import Prelude Threads.

(** Among the elements that satisfy [p] one has the largest [f]. *)
Lemma list_argmax {A} (p : A -> Prop) `{forall x, Decision (p x)} (f : A -> Z) (l : list A) i x :
  l !! i = Some x -> p x ->
  exists j y, l !! j = Some y /\ p y /\ forall k z, l !! k = Some z -> p z -> f z <= f y.
Proof.
  revert i x. induction l as [|a l IH]; intros i x Hi Hp; [done|].
  assert (Hcase : (exists k z, l !! k = Some z /\ p z) \/ (forall k z, l !! k = Some z -> ~ p z)).
  { destruct (decide (Exists p l)) as [He|He].
    - left. apply Exists_exists in He as (z & [k Hk]%list_elem_of_lookup & Hz). by exists k, z.
    - right. intros k z Hk Hz. apply He, Exists_exists. exists z. split; [|done].
      by eapply list_elem_of_lookup_2. }
  destruct Hcase as [(k & z & Hk & Hz)|Hno].
  - destruct (IH k z Hk Hz) as (j & y & Hj & Hy & Hmax).
    destruct (decide (p a /\ f y < f a)) as [[Ha Hlt]|Hna].
    + exists 0%nat, a. split_and!; [done|done|]. intros [|m] b Hm Hb; simplify_eq/=; [lia|].
      specialize (Hmax m b Hm Hb). lia.
    + exists (S j), y. split_and!; [done|done|]. intros [|m] b Hm Hb; simplify_eq/=; [|by eapply Hmax].
      destruct (decide (f y < f b)); [naive_solver|lia].
  - destruct i as [|i]; simplify_eq/=; [|by destruct (Hno i x)].
    exists 0%nat, x. split_and!; [done|done|]. intros [|m] b Hm Hb; simplify_eq/=; [lia|by destruct (Hno m b)].
Qed.

(** A program with locks: which are [taken] in the shared state, which a thread
    has [held], which it [wants] next, whether it is [finished], whether its next
    step is undefined ([stuck]). [lockstep] is what one step may do to the locks. *)
Section discipline.
Context {S L : Type} (tstep : S -> L -> option (S * L)).
Context (taken : S -> nat -> bool) (held : L -> list nat) (wants : L -> option nat) (finished : L -> bool).
Context (stuck : S -> L -> bool) (rank : nat -> Z).

Inductive lockstep (s : S) (l : L) (s' : S) (l' : L) : Prop :=
| ls_acquire w :
    wants l = Some w -> taken s w = false -> held l' = w :: held l ->
    (forall x, taken s' x = bool_decide (x = w) || taken s x) -> lockstep s l s' l'
| ls_release w :
    held l ≡ₚ w :: held l' ->
    (forall x, taken s' x = negb (bool_decide (x = w)) && taken s x) -> lockstep s l s' l'
| ls_other :
    held l' = held l -> (forall x, taken s' x = taken s x) -> lockstep s l s' l'.

(** [ok] is an invariant of the states and of each thread. A thread that cannot
    move has finished, is stuck or wants a lock that is taken. *)
Class LockDiscipline (ok : S -> L -> Prop) := {
  ld_step s l s' l' : ok s l -> tstep s l = Some (s', l') -> lockstep s l s' l';
  ld_blocked s l : ok s l -> tstep s l = None ->
    finished l = true \/ stuck s l = true \/ exists w, wants l = Some w /\ taken s w = true;
  ld_order s l w h : ok s l -> wants l = Some w -> h ∈ held l -> rank h < rank w;
  ld_finished s l : ok s l -> finished l = true -> held l = []
}.

Definition holds (x : nat) (l : L) : Z := lsum (ind (fun y => bool_decide (y = x))) (held l).

(** A lock is taken exactly when one thread holds it. *)
Definition lock_inv (s : S) (ls : list L) : Prop :=
  forall x, (if taken s x then 1 else 0) = lsum (holds x) ls.

Lemma holds_nonneg x l : 0 <= holds x l.
Proof. apply lsum_nonneg. auto with carr. Qed.

Lemma holds_elem x l : x ∈ held l -> 1 <= holds x l.
Proof.
  intros [i Hi]%list_elem_of_lookup. unfold holds.
  pose proof (lsum_lookup_le (ind (fun y => bool_decide (y = x))) (held l) i x ltac:(auto with carr) Hi) as H.
  unfold ind at 1 in H. by rewrite bool_decide_eq_true_2 in H.
Qed.

Lemma holds_pos x l : 0 < holds x l -> x ∈ held l.
Proof.
  intros H. unfold holds in H. apply lsum_pos_inv in H as (i & y & Hi & Hy); [|auto with carr].
  unfold ind in Hy. case_bool_decide; [subst|lia]. by eapply list_elem_of_lookup_2.
Qed.

Lemma lock_inv_step s ls i l s' l' :
  lock_inv s ls -> ls !! i = Some l -> lockstep s l s' l' -> lock_inv s' (<[i := l']> ls).
Proof.
  intros HI Hi Hs x. rewrite (lsum_insert _ _ _ _ _ Hi). specialize (HI x). unfold holds in *.
  destruct Hs as [w Hw Hf Hh Ht|w Hh Ht|Hh Ht]; rewrite Ht.
  - rewrite Hh, lsum_cons. unfold ind at 3. rewrite (bool_decide_ext (w = x) (x = w)) by done.
    case_bool_decide as Hx; simpl; [subst; rewrite Hf in HI; lia|]. lia.
  - rewrite Hh, lsum_cons in *. unfold ind at 2.
    rewrite (bool_decide_ext (w = x) (x = w)) by done. case_bool_decide as Hx; simpl; [subst|lia].
    pose proof (lsum_lookup_le (holds w) ls i l (holds_nonneg w) Hi) as Hle. unfold holds in Hle at 1.
    rewrite Hh, lsum_cons in Hle. unfold ind at 1 in Hle.
    rewrite bool_decide_eq_true_2 in Hle by done.
    pose proof (lsum_nonneg (ind (fun y => bool_decide (y = w))) (held l') ltac:(auto with carr)).
    destruct (taken s w); unfold holds in *; lia.
  - rewrite Hh. lia.
Qed.

(** Two threads never hold the same lock. *)
Lemma lock_exclusive s ls i j l l' x :
  lock_inv s ls -> i <> j -> ls !! i = Some l -> ls !! j = Some l' -> x ∈ held l -> x ∈ held l' -> False.
Proof.
  intros HI Hij Hi Hj Hx Hx'. specialize (HI x).
  pose proof (lsum_lookup2_le (holds x) ls i j l l' (holds_nonneg x) Hij Hi Hj).
  apply holds_elem in Hx, Hx'. destruct (taken s x); lia.
Qed.

Lemma lock_held_taken s ls i l x : lock_inv s ls -> ls !! i = Some l -> x ∈ held l -> taken s x = true.
Proof.
  intros HI Hi Hx. specialize (HI x). pose proof (lsum_lookup_le (holds x) ls i l (holds_nonneg x) Hi).
  apply holds_elem in Hx. destruct (taken s x); [done|lia].
Qed.

(** Threads that respect the order do not deadlock: when none of them can move,
    all have finished, or one has come to an undefined operation. *)
Lemma lock_order_progress `{HD : LockDiscipline ok} s ls :
  lock_inv s ls -> (forall i l, ls !! i = Some l -> ok s l) ->
  (forall i l, ls !! i = Some l -> finished l = true) \/
  (exists i l, ls !! i = Some l /\ stuck s l = true) \/ exists c', sys_step tstep (s, ls) c'.
Proof.
  intros HI Hok.
  destruct (list_find_dec (fun l => match tstep s l with Some _ => true | None => false end) ls)
    as [(i & l & Hi & Hl)|Hno].
  { right; right. destruct (tstep s l) as [[s' l']|] eqn:Ht; [|done]. eapply thread_can_step; [done|by rewrite Ht]. }
  destruct (list_find_dec (stuck s) ls) as [Hst|Hst]; [by right; left|left].
  assert (Hblk : forall i l, ls !! i = Some l -> finished l = true \/ exists w, wants l = Some w /\ taken s w = true).
  { intros i l Hi. destruct (ld_blocked s l) as [?|[Hs|?]]; [by eapply Hok| |by left| |by right].
    - specialize (Hno i l Hi). by destruct (tstep s l).
    - specialize (Hst i l Hi). congruence. }
  intros i l Hi. destruct (finished l) eqn:Hf; [done|exfalso].
  destruct (list_argmax (fun l => finished l = false) (fun l => from_option rank 0 (wants l)) ls i l Hi Hf)
    as (j & m & Hj & Hm & Hmax).
  destruct (Hblk j m Hj) as [|(w & Hw & Ht)]; [congruence|]. specialize (HI w). rewrite Ht in HI.
  destruct (lsum_pos_inv (holds w) ls (holds_nonneg w) ltac:(lia)) as (k & o & Hk & Ho). apply holds_pos in Ho.
  destruct (finished o) eqn:Hfo.
  { rewrite (ld_finished s o (Hok k o Hk) Hfo) in Ho. by apply elem_of_nil in Ho. }
  destruct (Hblk k o Hk) as [|(w' & Hw' & _)]; [congruence|].
  pose proof (ld_order s o w' w (Hok k o Hk) Hw' Ho) as Hlt.
  specialize (Hmax k o Hk Hfo). rewrite Hw, Hw' in Hmax. simpl in Hmax. lia.
Qed.
End discipline.
