(* ===== verification/Transfer.v ===== *)
(** * deadlock_free_multi_lock_transfer.c

    [transfer_value] locks two counters in the order of their ids (of their
    addresses when the ids are equal) and moves an amount from one to the other.
    Any number of threads make any sequence of such calls on shared counters;
    each lock, load, store and unlock is a step. The theorem: if the values are
    non-negative and their sum fits in an [int64_t], there is no overflow and no
    deadlock, all calls return, no value becomes negative and the total is kept. *)

From S2P Require Import Prelude Threads LockOrder.

(** The fields of [struct locked_counter] that change. The [id] does not: it is
    the parameter [lc_id] below. *)
Record locked_counter := mk_counter {
  lc_value : Z;             (* int64_t *)
  lc_mu : bool              (* locked *)
}.

(** A call's arguments; a pointer is the counter's index, [None] is NULL. *)
Record tr_args := mk_args { a_from : option nat; a_to : option nat; a_amount : Z }.

(** Where a thread is inside [transfer_value]; the loaded value or the return
    code it carries. *)
Inductive tr_pc :=
| TEntry | TLock1 | TLock2 | TCheck
| TSub | TSubStore (v : Z) | TAdd | TAddStore (v : Z)
| TUnlock2 (r : Z) | TUnlock1 (r : Z).

#[export] Instance tr_pc_eq_dec : EqDecision tr_pc.
Proof. solve_decision. Defined.

(** A thread: its place in the first of the calls it has left, and the results
    of those that returned. *)
Record tr_thread := mk_tr { tr_at : tr_pc; tr_calls : list tr_args; tr_rets : list Z }.

Section transfer.
(** How many counters there are, their ids and their addresses. *)
Context (num : nat) (lc_id : nat -> Z) (addr : nat -> Z).

(** Lines 40-56: the mutexes in the order in which they are locked. *)
Definition lock_order (from to : nat) : nat * nat :=
  if lc_id from <? lc_id to then (from, to)
  else if lc_id to <? lc_id from then (to, from)
  else if addr from <? addr to then (from, to) else (to, from).

Definition set_mu (cs : list locked_counter) (i : nat) (b : bool) : option (list locked_counter) :=
  c ← cs !! i; Some (<[i := mk_counter (lc_value c) b]> cs).

Definition set_value (cs : list locked_counter) (i : nat) (v : Z) : option (list locked_counter) :=
  c ← cs !! i; Some (<[i := mk_counter v (lc_mu c)]> cs).

(** [pthread_mutex_lock]: [None] while it is locked. *)
Definition lock_counter (cs : list locked_counter) (i : nat) : option (list locked_counter) :=
  c ← cs !! i; b ← mutex_lock (lc_mu c); set_mu cs i b.

(** Return [r] from the first call. *)
Definition tr_return (t : tr_thread) (r : Z) : tr_thread := mk_tr TEntry (tail (tr_calls t)) (tr_rets t ++ [r]).

Definition tr_goto (t : tr_thread) (pc : tr_pc) : tr_thread := mk_tr pc (tr_calls t) (tr_rets t).

(** One step of [transfer_value]. *)
Definition transfer_value_step (cs : list locked_counter) (t : tr_thread)
  : option (list locked_counter * tr_thread) :=
  match tr_calls t with
  | [] => None
  | mk_args (Some from) (Some to) amount :: _ =>
      let '(first, second) := lock_order from to in
      match tr_at t with
      | TEntry =>
          if amount <=? 0 then Some (cs, tr_return t (-2))
          else if bool_decide (from = to) then Some (cs, tr_return t 0)
          else Some (cs, tr_goto t TLock1)
      | TLock1 => cs ← lock_counter cs first; Some (cs, tr_goto t TLock2)
      | TLock2 => cs ← lock_counter cs second; Some (cs, tr_goto t TCheck)
      | TCheck =>
          c ← cs !! from;
          if lc_value c <? amount then Some (cs, tr_goto t (TUnlock2 (-3))) else Some (cs, tr_goto t TSub)
      | TSub => c ← cs !! from; Some (cs, tr_goto t (TSubStore (lc_value c)))
      | TSubStore v => v' ← chk_s 64 (v - amount); cs ← set_value cs from v'; Some (cs, tr_goto t TAdd)
      | TAdd => c ← cs !! to; Some (cs, tr_goto t (TAddStore (lc_value c)))
      | TAddStore v => v' ← chk_s 64 (v + amount); cs ← set_value cs to v'; Some (cs, tr_goto t (TUnlock2 0))
      | TUnlock2 r => cs ← set_mu cs second false; Some (cs, tr_goto t (TUnlock1 r))
      | TUnlock1 r => cs ← set_mu cs first false; Some (cs, tr_return t r)
      end
  | _ => Some (cs, tr_return t (-1))
  end.

(** ** Locks *)

Definition tr_taken (cs : list locked_counter) (x : nat) : bool :=
  match cs !! x with Some c => lc_mu c | None => false end.

Definition tr_locks (t : tr_thread) : nat * nat :=
  match tr_calls t with
  | mk_args (Some from) (Some to) _ :: _ => lock_order from to
  | _ => (0, 0)%nat
  end.

Definition tr_held (t : tr_thread) : list nat :=
  match tr_at t with
  | TEntry | TLock1 => []
  | TLock2 | TUnlock1 _ => [(tr_locks t).1]
  | _ => [(tr_locks t).2; (tr_locks t).1]
  end.

Definition tr_wants (t : tr_thread) : option nat :=
  match tr_at t with
  | TLock1 => Some (tr_locks t).1
  | TLock2 => Some (tr_locks t).2
  | _ => None
  end.

Definition tr_finished (t : tr_thread) : bool :=
  match tr_calls t, tr_at t with [], TEntry => true | _, _ => false end.

(** The order of the locks: by id, then by address. *)
Definition tr_rank (x : nat) : Z := lc_id x * 2 ^ 64 + addr x.

(** Distinct counters have distinct 64-bit addresses. *)
Hypothesis addr_range : forall x, (x < num)%nat -> in_u 64 (addr x).
Hypothesis addr_inj : forall x y, (x < num)%nat -> (y < num)%nat -> addr x = addr y -> x = y.

Lemma lock_order_rank from to : from <> to -> (from < num)%nat -> (to < num)%nat ->
  tr_rank (lock_order from to).1 < tr_rank (lock_order from to).2 /\
  ((lock_order from to = (from, to)) \/ (lock_order from to = (to, from))).
Proof.
  intros Hne Hfn Htn. unfold lock_order, tr_rank.
  pose proof (addr_range from Hfn) as Hf. pose proof (addr_range to Htn) as Ht. unfold in_u in *.
  assert (addr from <> addr to) by (intros E; by apply Hne, addr_inj).
  split_tests; split; auto; nia.
Qed.

(** What holds of a thread in the middle of a call: its pointers are two
    counters, and while it holds their locks what it has read is still true. *)
Definition value_of (cs : list locked_counter) (x : nat) : Z := from_option lc_value 0 (cs !! x).

Definition tr_ok (cs : list locked_counter) (t : tr_thread) : Prop :=
  (length cs = num /\
   forall a x, a ∈ tr_calls t -> a_from a = Some x \/ a_to a = Some x -> (x < num)%nat) /\
  match tr_at t with
  | TEntry => True
  | pc => exists from to amount rest,
      tr_calls t = mk_args (Some from) (Some to) amount :: rest /\ from <> to /\ 0 < amount /\
      match pc with
      | TSub => amount <= value_of cs from
      | TSubStore v => v = value_of cs from /\ amount <= v < 2 ^ 63
      | TAddStore v => v = value_of cs to /\ 0 <= v /\ v + amount < 2 ^ 63
      | _ => True
      end
  end.

Lemma lock_counter_Some cs i cs' :
  lock_counter cs i = Some cs' ->
  exists c, cs !! i = Some c /\ lc_mu c = false /\ cs' = <[i := mk_counter (lc_value c) true]> cs.
Proof.
  unfold lock_counter, set_mu. intros H. destruct (cs !! i) as [c|]; [|done]. exists c. simpl in H.
  destruct (lc_mu c); simpl in H; [done|]. simplify_eq. by split_and!.
Qed.

Lemma set_mu_Some cs i b cs' :
  set_mu cs i b = Some cs' -> exists c, cs !! i = Some c /\ cs' = <[i := mk_counter (lc_value c) b]> cs.
Proof. unfold set_mu. intros H. destruct (cs !! i) as [c|]; simplify_eq/=. eauto. Qed.

Lemma set_value_Some cs i v cs' :
  set_value cs i v = Some cs' -> exists c, cs !! i = Some c /\ cs' = <[i := mk_counter v (lc_mu c)]> cs.
Proof. unfold set_value. intros H. destruct (cs !! i) as [c|]; simplify_eq/=. eauto. Qed.

Lemma taken_insert cs i c v b x :
  cs !! i = Some c ->
  tr_taken (<[i := mk_counter v b]> cs) x = if bool_decide (x = i) then b else tr_taken cs x.
Proof.
  intros Hi. unfold tr_taken. case_bool_decide as Hx; [subst|by rewrite list_lookup_insert_ne].
  by rewrite list_lookup_insert_eq by (by eapply lookup_lt_Some).
Qed.

Lemma value_insert cs i c v b x :
  cs !! i = Some c ->
  value_of (<[i := mk_counter v b]> cs) x = if bool_decide (x = i) then v else value_of cs x.
Proof.
  intros Hi. unfold value_of. case_bool_decide as Hx; [subst|by rewrite list_lookup_insert_ne].
  by rewrite list_lookup_insert_eq by (by eapply lookup_lt_Some).
Qed.

(** The steps, with what they find and leave. *)
Inductive tr_steps (cs : list locked_counter) (t : tr_thread) : list locked_counter -> tr_thread -> Prop :=
| st_return r : tr_at t = TEntry -> tr_calls t <> [] -> tr_steps cs t cs (tr_return t r)
| st_enter from to amount rest :
    tr_calls t = mk_args (Some from) (Some to) amount :: rest -> tr_at t = TEntry ->
    0 < amount -> from <> to -> tr_steps cs t cs (tr_goto t TLock1)
| st_lock w c pc :
    tr_wants t = Some w -> cs !! w = Some c -> lc_mu c = false ->
    (tr_at t = TLock1 /\ pc = TLock2) \/ (tr_at t = TLock2 /\ pc = TCheck) ->
    tr_steps cs t (<[w := mk_counter (lc_value c) true]> cs) (tr_goto t pc)
| st_read from to amount rest pc :
    tr_calls t = mk_args (Some from) (Some to) amount :: rest ->
    (tr_at t = TCheck /\ (pc = TUnlock2 (-3) \/ (pc = TSub /\ amount <= value_of cs from))) \/
    (tr_at t = TSub /\ pc = TSubStore (value_of cs from)) \/
    (tr_at t = TAdd /\ pc = TAddStore (value_of cs to)) ->
    tr_steps cs t cs (tr_goto t pc)
| st_sub from to amount rest v c :
    tr_calls t = mk_args (Some from) (Some to) amount :: rest -> tr_at t = TSubStore v -> cs !! from = Some c ->
    tr_steps cs t (<[from := mk_counter (v - amount) (lc_mu c)]> cs) (tr_goto t TAdd)
| st_add from to amount rest v c :
    tr_calls t = mk_args (Some from) (Some to) amount :: rest -> tr_at t = TAddStore v -> cs !! to = Some c ->
    in_s 64 (v + amount) ->
    tr_steps cs t (<[to := mk_counter (v + amount) (lc_mu c)]> cs) (tr_goto t (TUnlock2 0))
| st_unlock2 w r c :
    tr_at t = TUnlock2 r -> w = (tr_locks t).2 -> cs !! w = Some c ->
    tr_steps cs t (<[w := mk_counter (lc_value c) false]> cs) (tr_goto t (TUnlock1 r))
| st_unlock1 w r c :
    tr_at t = TUnlock1 r -> w = (tr_locks t).1 -> cs !! w = Some c ->
    tr_steps cs t (<[w := mk_counter (lc_value c) false]> cs) (tr_return t r).

Lemma transfer_steps cs t cs' t' :
  tr_ok cs t -> transfer_value_step cs t = Some (cs', t') -> tr_steps cs t cs' t'.
Proof.
  intros [_ Hok] Hs. destruct t as [pc calls rets]; simpl in Hok. unfold transfer_value_step in Hs.
  simpl tr_calls in Hs; simpl tr_at in Hs.
  destruct (decide (pc = TEntry)) as [->|Hpc].
  { destruct calls as [|[[from|] [to|] amount] rest]; simplify_eq; try by apply st_return.
    destruct (lock_order from to). destruct (Z.leb_spec amount 0); simplify_eq; [by apply st_return|].
    case_bool_decide; simplify_eq; [by apply st_return|]. by eapply st_enter. }
  assert (Hcall : exists from to amount rest, calls = mk_args (Some from) (Some to) amount :: rest).
  { destruct pc; [done|..]; destruct Hok as (from & to & amount & rest & -> & _); by eexists _, _, _, _. }
  clear Hok. destruct Hcall as (from & to & amount & rest & ->).
  assert (Hlk : tr_locks (mk_tr pc (mk_args (Some from) (Some to) amount :: rest) rets) = lock_order from to) by done.
  destruct (lock_order from to) as [first second] eqn:Hlo.
  destruct pc as [| | | | |v| |v|r|r]; [done|..].
  - destruct (lock_counter cs first) as [cs1|] eqn:E; simplify_eq/=.
    apply lock_counter_Some in E as (c & Hc & Hm & ->).
    eapply st_lock; [|done|done|by left]. unfold tr_wants; cbn [tr_at]. by rewrite Hlk.
  - destruct (lock_counter cs second) as [cs1|] eqn:E; simplify_eq/=.
    apply lock_counter_Some in E as (c & Hc & Hm & ->).
    eapply st_lock; [|done|done|by right]. unfold tr_wants; cbn [tr_at]. by rewrite Hlk.
  - destruct (cs !! from) as [c|] eqn:Hc; simplify_eq/=.
    destruct (Z.ltb_spec (lc_value c) amount); simplify_eq; (eapply st_read; [done|left; split; [done|]]); [by left|right].
    split; [done|]. unfold value_of. rewrite Hc. simpl. lia.
  - destruct (cs !! from) as [c|] eqn:Hc; simplify_eq/=. eapply st_read; [done|right; left; split; [done|]].
    unfold value_of. by rewrite Hc.
  - destruct (chk_s 64 (v - amount)) as [v'|] eqn:Hv; simplify_eq/=.
    destruct (set_value cs from v') as [cs1|] eqn:E; simplify_eq/=.
    apply set_value_Some in E as (c & Hc & ->). apply chk_s_Some in Hv as [-> _]. by eapply st_sub.
  - destruct (cs !! to) as [c|] eqn:Hc; simplify_eq/=. eapply st_read; [done|right; right; split; [done|]].
    unfold value_of. by rewrite Hc.
  - destruct (chk_s 64 (v + amount)) as [v'|] eqn:Hv; simplify_eq/=.
    destruct (set_value cs to v') as [cs1|] eqn:E; simplify_eq/=.
    apply set_value_Some in E as (c & Hc & ->). apply chk_s_Some in Hv as [-> ?]. by eapply st_add.
  - destruct (set_mu cs second false) as [cs1|] eqn:E; simplify_eq/=.
    apply set_mu_Some in E as (c & Hc & ->). eapply st_unlock2; [done|by rewrite Hlk|done].
  - destruct (set_mu cs first false) as [cs1|] eqn:E; simplify_eq/=.
    apply set_mu_Some in E as (c & Hc & ->). eapply st_unlock1; [done|by rewrite Hlk|done].
Qed.

(** The locks of a call in progress are its two counters. *)
Lemma tr_ok_locks cs t :
  tr_ok cs t -> tr_at t <> TEntry ->
  exists from to amount rest, tr_calls t = mk_args (Some from) (Some to) amount :: rest /\
    from <> to /\ 0 < amount /\ tr_rank (tr_locks t).1 < tr_rank (tr_locks t).2 /\
    (tr_locks t = (from, to) \/ tr_locks t = (to, from)) /\ (from < length cs)%nat /\ (to < length cs)%nat.
Proof.
  intros [[Hlen Hrange] Hok] Hpc.
  assert (Hc : exists from to amount rest, tr_calls t = mk_args (Some from) (Some to) amount :: rest /\
                 from <> to /\ 0 < amount).
  { destruct (tr_at t); [done|..]; destruct Hok as (from & to & amount & rest & ? & ? & ? & _);
      by exists from, to, amount, rest. }
  destruct Hc as (from & to & amount & rest & Hc & Hne & Ha). exists from, to, amount, rest.
  assert (Hf : (from < num)%nat).
  { apply (Hrange (mk_args (Some from) (Some to) amount)); [rewrite Hc; set_solver|by left]. }
  assert (Ht : (to < num)%nat).
  { apply (Hrange (mk_args (Some from) (Some to) amount)); [rewrite Hc; set_solver|by right]. }
  destruct (lock_order_rank from to Hne Hf Ht) as [Hr Ho].
  assert (Hl : tr_locks t = lock_order from to) by (unfold tr_locks; by rewrite Hc).
  rewrite Hl, Hlen. by split_and!.
Qed.

(** A thread that cannot move has finished or finds its lock taken: there is no
    undefined behaviour. *)
Lemma transfer_blocked cs t :
  tr_ok cs t -> transfer_value_step cs t = None ->
  tr_finished t = true \/ exists w, tr_wants t = Some w /\ tr_taken cs w = true.
Proof.
  intros Hok Hs. destruct (decide (tr_at t = TEntry)) as [Hpc|Hpc].
  { unfold transfer_value_step in Hs. unfold tr_finished. rewrite Hpc in *.
    destruct (tr_calls t) as [|[[from|] [to|] amount] rest]; [by left|exfalso..]; try done.
    destruct (lock_order from to). destruct (_ <=? _); [done|]. by case_bool_decide. }
  destruct (tr_ok_locks cs t Hok Hpc) as (from & to & amount & rest & Hc & Hne & Ha & Hr & Ho & Hf & Ht).
  destruct Hok as [_ Hok]. unfold transfer_value_step in Hs. rewrite Hc in Hs.
  assert (Hl : tr_locks t = lock_order from to) by (unfold tr_locks; by rewrite Hc).
  assert (Hin : ((tr_locks t).1 < length cs)%nat /\ ((tr_locks t).2 < length cs)%nat) by (by destruct Ho as [-> | ->]).
  destruct Hin as [Hin1 Hin2]. rewrite <- Hl in Hs. destruct (tr_locks t) as [first second] eqn:Hlk; simpl in Hin1, Hin2.
  apply lookup_lt_is_Some_2 in Hf as [cf Hf], Ht as [ct Ht], Hin1 as [c1 H1], Hin2 as [c2 H2].
  assert (Hlock : forall w c, cs !! w = Some c -> lock_counter cs w = None -> tr_taken cs w = true).
  { intros w c Hw. unfold lock_counter, set_mu, tr_taken. rewrite Hw. simpl. by destruct (lc_mu c). }
  destruct (tr_at t) as [| | | | |v| |v|r|r] eqn:Hat; [done|..].
  - right. exists first. unfold tr_wants. rewrite Hat, Hlk. split; [done|].
    destruct (lock_counter cs first) eqn:E; [done|]. by eapply Hlock.
  - right. exists second. unfold tr_wants. rewrite Hat, Hlk. split; [done|].
    destruct (lock_counter cs second) eqn:E; [done|]. by eapply Hlock.
  - rewrite Hf in Hs; simpl in Hs. by destruct (_ <? _).
  - by rewrite Hf in Hs.
  - destruct Hok as (? & ? & ? & ? & Hc' & _ & _ & _ & Hv). rewrite Hc in Hc'. simplify_eq.
    rewrite chk_s_ok in Hs by (unfold in_s; lia). simpl in Hs. unfold set_value in Hs. by rewrite Hf in Hs.
  - by rewrite Ht in Hs.
  - destruct Hok as (? & ? & ? & ? & Hc' & _ & _ & _ & Hv). rewrite Hc in Hc'. simplify_eq.
    rewrite chk_s_ok in Hs by (unfold in_s; lia). simpl in Hs. unfold set_value in Hs. by rewrite Ht in Hs.
  - unfold set_mu in Hs. by rewrite H2 in Hs.
  - unfold set_mu in Hs. by rewrite H1 in Hs.
Qed.

#[local] Instance transfer_discipline :
  LockDiscipline transfer_value_step tr_taken tr_held tr_wants tr_finished (fun _ _ => false) tr_rank tr_ok.
Proof.
  split.
  - intros cs t cs' t' Hok Hs. pose proof (transfer_steps _ _ _ _ Hok Hs) as Hst.
    destruct Hst as [r Hat Hc|from to amount rest Hc Hat Ha Hne|w c pc Hw Hcs Hm Hpc
                    |from to amount rest pc Hc Hpc|from to amount rest v c Hc Hat Hcs
                    |from to amount rest v c Hc Hat Hcs Hv|w r c Hat -> Hcs|w r c Hat -> Hcs].
    + apply ls_other; [|done]. unfold tr_held. by rewrite Hat.
    + apply ls_other; [|done]. unfold tr_held. by rewrite Hat.
    + apply (ls_acquire _ _ _ _ _ _ _ w); [done|unfold tr_taken; by rewrite Hcs| |].
      * unfold tr_held, tr_wants in *. destruct Hpc as [[E ->]|[E ->]]; rewrite E in *; by simplify_eq.
      * intros x. rewrite (taken_insert _ _ _ _ _ _ Hcs). by case_bool_decide.
    + apply ls_other; [|done]. unfold tr_held.
      destruct Hpc as [[-> [->|[-> _]]]|[[-> ->]|[-> ->]]]; done.
    + apply ls_other; [unfold tr_held; by rewrite Hat|]. intros x. rewrite (taken_insert _ _ _ _ _ _ Hcs).
      case_bool_decide; [subst; unfold tr_taken; by rewrite Hcs|done].
    + apply ls_other; [unfold tr_held; by rewrite Hat|]. intros x. rewrite (taken_insert _ _ _ _ _ _ Hcs).
      case_bool_decide; [subst; unfold tr_taken; by rewrite Hcs|done].
    + apply (ls_release _ _ _ _ _ _ _ (tr_locks t).2); [unfold tr_held; by rewrite Hat|].
      intros x. rewrite (taken_insert _ _ _ _ _ _ Hcs). by case_bool_decide.
    + apply (ls_release _ _ _ _ _ _ _ (tr_locks t).1); [unfold tr_held; by rewrite Hat|].
      intros x. rewrite (taken_insert _ _ _ _ _ _ Hcs). by case_bool_decide.
  - intros cs t Hok Hs. destruct (transfer_blocked cs t Hok Hs); [by left|by right; right].
  - intros cs t w h Hok Hw Hh. destruct (decide (tr_at t = TEntry)) as [E|Hpc].
    { unfold tr_wants in Hw. by rewrite E in Hw. }
    destruct (tr_ok_locks cs t Hok Hpc) as (_ & _ & _ & _ & _ & _ & _ & Hr & _).
    unfold tr_wants, tr_held in *. destruct (tr_at t); simplify_eq; [by apply elem_of_nil in Hh|].
    apply list_elem_of_singleton in Hh as ->. done.
  - intros cs t _ Hf. unfold tr_finished, tr_held in *. destruct (tr_calls t), (tr_at t); done.
Qed.

(** ** Money *)

(** What a thread has taken from one counter and not yet given to the other. *)
Definition inflight (t : tr_thread) : Z :=
  match tr_at t, tr_calls t with
  | TAdd, a :: _ | TAddStore _, a :: _ => a_amount a
  | _, _ => 0
  end.

Definition tr_inv (total : Z) (cs : list locked_counter) (ls : list tr_thread) : Prop :=
  lock_inv tr_taken tr_held cs ls /\
  (forall i t, ls !! i = Some t -> tr_ok cs t) /\
  (forall x c, cs !! x = Some c -> 0 <= lc_value c) /\
  lsum lc_value cs + lsum inflight ls = total /\ total < 2 ^ 63.

Lemma inflight_nonneg cs t : tr_ok cs t -> 0 <= inflight t.
Proof.
  intros [_ Hok]. unfold inflight. destruct (tr_at t); try lia;
    destruct Hok as (from & to & amount & rest & -> & _ & Ha & _); simpl; lia.
Qed.

(** The values of its counters do not change under a thread that holds them. *)
Lemma tr_ok_stable cs cs' t :
  length cs' = length cs -> (forall x, x ∈ tr_held t -> value_of cs' x = value_of cs x) ->
  tr_ok cs t -> tr_ok cs' t.
Proof.
  intros Hlen Hv Hok. pose proof Hok as [Hr H2]. split; [by rewrite Hlen|].
  destruct (decide (tr_at t = TEntry)) as [E|Hpc]; [by rewrite E|].
  destruct (tr_ok_locks cs t Hok Hpc) as (f & o & a & rest & Hc & Hne & Ha & _ & Ho & _).
  assert (Hboth : tr_held t = [(tr_locks t).2; (tr_locks t).1] ->
            value_of cs' f = value_of cs f /\ value_of cs' o = value_of cs o).
  { intros E. rewrite E in Hv. split; apply Hv; destruct Ho as [-> | ->]; set_solver. }
  unfold tr_held in Hboth.
  destruct (tr_at t); destruct_and?; try done;
    destruct H2 as (f' & o' & a' & rest' & Hc' & H2); rewrite Hc in Hc'; simplify_eq;
    exists f', o', a', rest'; try (destruct (Hboth eq_refl) as [E1 E2]; rewrite ?E1, ?E2); by split.
Qed.

Lemma tr_step_values cs t cs' t' :
  tr_ok cs t -> tr_steps cs t cs' t' ->
  length cs' = length cs /\ forall x, x ∉ tr_held t -> value_of cs' x = value_of cs x.
Proof.
  intros Hok Hs. destruct Hs as [r Hat Hc|from to amount rest Hc Hat Ha Hne|w c pc Hw Hcs Hm Hpc
                    |from to amount rest pc Hc Hpc|from to amount rest v c Hc Hat Hcs
                    |from to amount rest v c Hc Hat Hcs Hv|w r c Hat -> Hcs|w r c Hat -> Hcs];
    rewrite ?length_insert; (split; [done|]); intros x Hx; try done;
    rewrite (value_insert _ _ _ _ _ _ Hcs); (case_bool_decide as E; [subst x|done]);
    try (unfold value_of; by rewrite Hcs).
  all: exfalso; apply Hx; unfold tr_held; rewrite Hat;
    destruct (tr_ok_locks cs t Hok ltac:(congruence)) as (f & o & a & re & Hc' & _ & _ & _ & Ho & _);
    rewrite Hc in Hc'; simplify_eq; destruct Ho as [-> | ->]; set_solver.
Qed.

Lemma value_le_total total cs ls x :
  tr_inv total cs ls -> 0 <= value_of cs x /\ value_of cs x + lsum inflight ls <= total.
Proof.
  intros (_ & Hok & Hnn & Hsum & _).
  assert (Hs : forall l, (forall x c, l !! x = Some c -> 0 <= lc_value c) ->
            0 <= value_of l x /\ value_of l x <= lsum lc_value l).
  { clear. unfold value_of. revert x. intros x l. revert x. induction l as [|c l IH]; intros x Hl; [done|].
    rewrite lsum_cons. pose proof (Hl 0%nat c eq_refl).
    assert (Hl' : forall x c, l !! x = Some c -> 0 <= lc_value c) by (intros y d Hy; by apply (Hl (S y))).
    destruct x as [|x]; simpl.
    - destruct (IH 0%nat Hl') as [? ?]. assert (0 <= lsum lc_value l) by lia. lia.
    - destruct (IH x Hl') as [? ?]. lia. }
  destruct (Hs cs Hnn). lia.
Qed.

Lemma sum_inflight_ge total cs ls i t :
  tr_inv total cs ls -> ls !! i = Some t -> inflight t <= lsum inflight ls.
Proof.
  intros (_ & Hok & _) Hi.
  assert (Hnn : forall l, (forall i t, l !! i = Some t -> 0 <= inflight t) -> 0 <= lsum inflight l /\
            forall i t, l !! i = Some t -> inflight t <= lsum inflight l).
  { clear. induction l as [|a l IH]; intros Hl; [done|]. rewrite lsum_cons.
    destruct IH as [IH1 IH2]; [intros i t Hi; by apply (Hl (S i))|]. pose proof (Hl 0%nat a eq_refl).
    split; [lia|]. intros [|i] t Hi; simplify_eq/=; [lia|]. specialize (IH2 i t Hi). lia. }
  eapply Hnn; [|done]. intros j u Hj. eapply inflight_nonneg. by eapply Hok.
Qed.

(** Past its entry a call has two counters and an amount to move. *)
Lemma tr_ok_call cs t :
  tr_ok cs t -> tr_at t <> TEntry ->
  exists from to amount rest,
    tr_calls t = mk_args (Some from) (Some to) amount :: rest /\ from <> to /\ 0 < amount.
Proof.
  intros Hok Hpc. destruct (tr_ok_locks cs t Hok Hpc) as (f & o & a & re & ? & ? & ? & _). by exists f, o, a, re.
Qed.

(** What the two stores rely on: the value loaded is still there. *)
Lemma tr_ok_sub cs t from to amount rest v c :
  tr_ok cs t -> tr_calls t = mk_args (Some from) (Some to) amount :: rest -> tr_at t = TSubStore v ->
  cs !! from = Some c -> v = lc_value c /\ amount <= v /\ from <> to /\ 0 < amount.
Proof.
  intros [_ Hok] Hc Hat Hcs. rewrite Hat in Hok. destruct Hok as (f & o & a & re & Hc' & Hne & Ha & Hv & Hle & _).
  rewrite Hc in Hc'. injection Hc' as <- <- <- <-. unfold value_of in Hv. rewrite Hcs in Hv. simpl in Hv. by subst.
Qed.

Lemma tr_ok_add cs t from to amount rest v c :
  tr_ok cs t -> tr_calls t = mk_args (Some from) (Some to) amount :: rest -> tr_at t = TAddStore v ->
  cs !! to = Some c -> v = lc_value c /\ 0 <= v /\ from <> to /\ 0 < amount.
Proof.
  intros [_ Hok] Hc Hat Hcs. rewrite Hat in Hok. destruct Hok as (f & o & a & re & Hc' & Hne & Ha & Hv & Hle & _).
  rewrite Hc in Hc'. injection Hc' as <- <- <- <-. unfold value_of in Hv. rewrite Hcs in Hv. simpl in Hv. by subst.
Qed.

(** A step moves value between the counters and the mover's hand. *)
Lemma tr_step_sum cs t cs' t' :
  tr_ok cs t -> tr_steps cs t cs' t' -> lsum lc_value cs' + inflight t' = lsum lc_value cs + inflight t.
Proof.
  intros Hok Hs.
  destruct Hs as [r Hat Hc|from to amount rest Hc Hat Ha Hne|w c pc Hw Hcs Hm Hpc
                    |from to amount rest pc Hc Hpc|from to amount rest v c Hc Hat Hcs
                    |from to amount rest v c Hc Hat Hcs Hv|w r c Hat -> Hcs|w r c Hat -> Hcs];
    try rewrite (lsum_insert _ _ _ _ _ Hcs); unfold inflight.
  - rewrite Hat. simpl. lia.
  - rewrite Hat. simpl. lia.
  - destruct Hpc as [[-> ->]|[-> ->]]; simpl; lia.
  - rewrite Hc. destruct Hpc as [[-> [->|[-> ?]]]|[[-> ->]|[-> ->]]]; simpl; rewrite ?Hc; simpl; lia.
  - destruct (tr_ok_sub _ _ _ _ _ _ _ _ Hok Hc Hat Hcs) as [-> _]. rewrite Hat. simpl. rewrite Hc. simpl. lia.
  - destruct (tr_ok_add _ _ _ _ _ _ _ _ Hok Hc Hat Hcs) as [-> _]. rewrite Hat, Hc. simpl. lia.
  - rewrite Hat. simpl. lia.
  - rewrite Hat. simpl. lia.
Qed.

(** No counter becomes negative. *)
Lemma tr_step_nonneg cs t cs' t' :
  tr_ok cs t -> (forall x c, cs !! x = Some c -> 0 <= lc_value c) -> tr_steps cs t cs' t' ->
  forall x c, cs' !! x = Some c -> 0 <= lc_value c.
Proof.
  intros Hok Hnn Hs.
  assert (Hins : forall y c v b, cs !! y = Some c -> 0 <= v ->
            forall x d, <[y := mk_counter v b]> cs !! x = Some d -> 0 <= lc_value d).
  { intros y c v b Hy Hv x d Hx. apply list_lookup_insert_Some in Hx as [(-> & <- & _)|[_ Hx]]; [done|by eapply Hnn]. }
  destruct Hs as [| |w c pc Hw Hcs| |from to amount rest v c Hc Hat Hcs
                    |from to amount rest v c Hc Hat Hcs Hv|w r c Hat -> Hcs|w r c Hat -> Hcs];
    try done; try (by eapply Hins; [|eapply Hnn]).
  - destruct (tr_ok_sub _ _ _ _ _ _ _ _ Hok Hc Hat Hcs) as (-> & ? & _). eapply Hins; [done|lia].
  - destruct (tr_ok_add _ _ _ _ _ _ _ _ Hok Hc Hat Hcs) as (-> & ? & _ & ?). eapply Hins; [done|lia].
Qed.

(** What a thread that goes on with its call has to keep. *)
Lemma tr_ok_goto cs cs' t pc :
  tr_ok cs t -> tr_at t <> TEntry -> length cs' = length cs ->
  match pc with TEntry | TSub | TSubStore _ | TAddStore _ => False | _ => True end ->
  tr_ok cs' (tr_goto t pc).
Proof.
  intros Hok Hpc Hlen Hnew. destruct (tr_ok_call cs t Hok Hpc) as (f & o & a & re & Hc & Hne & Ha).
  destruct Hok as [[Hl Hr] _]. split; [split; [by rewrite Hlen|done]|].
  simpl. destruct pc; try done; by exists f, o, a, re.
Qed.

(** The mover's part of the invariant. *)
Lemma tr_step_ok total cs ls i t cs' t' :
  tr_inv total cs ls -> ls !! i = Some t -> tr_steps cs t cs' t' -> tr_ok cs' t'.
Proof.
  intros HI Hi Hs. pose proof HI as (_ & Hok & _ & _ & Htot). specialize (Hok i t Hi).
  pose proof (sum_inflight_ge _ _ _ _ _ HI Hi) as Hfl. pose proof (fun x => value_le_total _ _ _ x HI) as Hval.
  assert (Hret : forall cs2 r, length cs2 = length cs -> tr_ok cs2 (tr_return t r)).
  { intros cs2 r Hl. destruct Hok as [[Hlen Hr] _]. split; [split; [by rewrite Hl|]|done].
    intros a x Ha. apply Hr. simpl in Ha. destruct (tr_calls t); [done|]. by apply list_elem_of_further. }
  destruct Hs as [r Hat Hc|from to amount rest Hc Hat Ha Hne|w c pc Hw Hcs Hm Hpc
                    |from to amount rest pc Hc Hpc|from to amount rest v c Hc Hat Hcs
                    |from to amount rest v c Hc Hat Hcs Hv|w r c Hat -> Hcs|w r c Hat -> Hcs].
  - by apply Hret.
  - destruct Hok as [Hr _]. split; [done|]. simpl. by exists from, to, amount, rest.
  - apply (tr_ok_goto cs); [done| |by rewrite length_insert|]; destruct Hpc as [[E ->]|[E ->]]; by rewrite ?E.
  - assert (Hpc' : tr_at t <> TEntry) by (destruct Hpc as [[-> _]|[[-> _]|[-> _]]]; done).
    destruct (tr_ok_call cs t Hok Hpc') as (f & o & a & re & Hc' & Hne & Ha). rewrite Hc in Hc'. simplify_eq.
    destruct Hok as [Hr Hok]. split; [done|]. simpl.
    pose proof (Hval f) as [Hf1 Hf2]. pose proof (Hval o) as [Ho1 Ho2].
    destruct Hpc as [[E [->|[-> ?]]]|[[E ->]|[E ->]]]; exists f, o, a, re; rewrite E in Hok; try done.
    + destruct Hok as (? & ? & ? & ? & Hc2 & _ & _ & Hle). rewrite Hc in Hc2. simplify_eq.
      assert (inflight t = 0) by (unfold inflight; by rewrite E). split_and!; try done. lia.
    + assert (inflight t = a) by (unfold inflight; by rewrite E, Hc). split_and!; try done. lia.
  - apply (tr_ok_goto cs); [done|congruence|by rewrite length_insert|done].
  - apply (tr_ok_goto cs); [done|congruence|by rewrite length_insert|done].
  - apply (tr_ok_goto cs); [done|congruence|by rewrite length_insert|done].
  - apply Hret. by rewrite length_insert.
Qed.

Lemma tr_inv_step total i cs ls t cs' t' :
  tr_inv total cs ls -> ls !! i = Some t -> transfer_value_step cs t = Some (cs', t') ->
  tr_inv total cs' (<[i := t']> ls).
Proof.
  intros HI Hi Hs. pose proof HI as (Hlk & Hok & Hnn & Hsum & Htot).
  pose proof (transfer_steps _ _ _ _ (Hok i t Hi) Hs) as Hst.
  pose proof (tr_step_ok _ _ _ _ _ _ _ HI Hi Hst) as Hok'.
  pose proof (tr_step_sum _ _ _ _ (Hok i t Hi) Hst) as Hsum'.
  pose proof (tr_step_nonneg _ _ _ _ (Hok i t Hi) Hnn Hst) as Hnn'.
  destruct (tr_step_values _ _ _ _ (Hok i t Hi) Hst) as [Hlen Hval].
  split_and!; [| |done| |done].
  - eapply lock_inv_step; [done|done|]. eapply (@ld_step _ _ _ _ _ _ _ _ _ _ transfer_discipline); [by eapply Hok|done].
  - intros j u Hj. apply list_lookup_insert_Some in Hj as [(-> & <- & _)|[Hne Hj]]; [done|].
    eapply tr_ok_stable; [done| |by eapply Hok]. intros x Hx. apply Hval. intros Hx'.
    by eapply (lock_exclusive tr_taken tr_held cs ls i j).
  - rewrite (lsum_insert _ _ _ _ _ Hi). lia.
Qed.

(** ** Termination *)

Definition pc_cost (pc : tr_pc) : nat :=
  match pc with
  | TEntry => 10 | TLock1 => 9 | TLock2 => 8 | TCheck => 7 | TSub => 6 | TSubStore _ => 5
  | TAdd => 4 | TAddStore _ => 3 | TUnlock2 _ => 2 | TUnlock1 _ => 1
  end.

(** A call is at most ten steps. *)
Definition tr_cost (t : tr_thread) : nat :=
  match tr_calls t with [] => 0 | _ :: rest => 10 * length rest + pc_cost (tr_at t) end.

Lemma tr_cost_step cs t cs' t' :
  transfer_value_step cs t = Some (cs', t') -> tr_ok cs t -> (tr_cost t' < tr_cost t)%nat.
Proof.
  intros Hs Hok. pose proof (transfer_steps _ _ _ _ Hok Hs) as Hst.
  assert (Hret : forall r, tr_calls t <> [] -> (tr_cost (tr_return t r) < tr_cost t)%nat).
  { intros r Hc. unfold tr_cost, tr_return. simpl. destruct (tr_calls t) as [|a [|b rest]]; [done|..];
      destruct (tr_at t); simpl; lia. }
  assert (Hgo : forall pc, tr_calls t <> [] -> (pc_cost pc < pc_cost (tr_at t))%nat ->
            (tr_cost (tr_goto t pc) < tr_cost t)%nat).
  { intros pc Hc Hlt. unfold tr_cost, tr_goto. simpl. destruct (tr_calls t); [done|]. lia. }
  assert (Hne : tr_at t <> TEntry -> tr_calls t <> []).
  { intros Hpc. destruct (tr_ok_locks cs t Hok Hpc) as (? & ? & ? & ? & -> & _). done. }
  destruct Hst as [r Hat Hc|from to amount rest Hc Hat Ha Hne'|w c pc Hw Hcs Hm Hpc
                    |from to amount rest pc Hc Hpc|from to amount rest v c Hc Hat Hcs
                    |from to amount rest v c Hc Hat Hcs Hv|w r c Hat -> Hcs|w r c Hat -> Hcs].
  - by apply Hret.
  - apply Hgo; [by rewrite Hc|]. rewrite Hat. simpl. lia.
  - destruct Hpc as [[E ->]|[E ->]]; (apply Hgo; [apply Hne; congruence|]); rewrite E; simpl; lia.
  - apply Hgo; [by rewrite Hc|].
    destruct Hpc as [[-> [->|[-> _]]]|[[-> ->]|[-> ->]]]; simpl; lia.
  - apply Hgo; [by rewrite Hc|]. rewrite Hat. simpl. lia.
  - apply Hgo; [by rewrite Hc|]. rewrite Hat. simpl. lia.
  - apply Hgo; [apply Hne; congruence|]. rewrite Hat. simpl. lia.
  - apply Hret, Hne. congruence.
Qed.

Definition tr_start (calls : list tr_args) : tr_thread := mk_tr TEntry calls [].

Lemma tr_inv_init total cs progs :
  length cs = num ->
  (forall x c, cs !! x = Some c -> 0 <= lc_value c /\ lc_mu c = false) ->
  (forall calls a x, calls ∈ progs -> a ∈ calls -> a_from a = Some x \/ a_to a = Some x -> (x < num)%nat) ->
  lsum lc_value cs = total -> total < 2 ^ 63 -> tr_inv total cs (tr_start <$> progs).
Proof.
  intros Hnum Hcs Hp Hsum Htot.
  assert (Hz : forall f : tr_thread -> Z, (forall calls, f (tr_start calls) = 0) -> lsum f (tr_start <$> progs) = 0).
  { intros f Hf. rewrite lsum_fmap, (lsum_const _ 0); [lia|]. intros calls _. apply Hf. }
  split_and!; [|..|done].
  - intros x. rewrite Hz by done. unfold tr_taken. destruct (cs !! x) as [c|] eqn:Hx; [|done].
    by destruct (Hcs x c Hx) as [_ ->].
  - intros i t Hi. rewrite list_lookup_fmap in Hi. destruct (progs !! i) as [calls|] eqn:Hc; simplify_eq/=.
    split; [|done]. split; [done|]. intros a x Ha. apply (Hp calls); [by eapply list_elem_of_lookup_2|done].
  - intros x c Hx. by apply (Hcs x c).
  - rewrite Hz by done. lia.
Qed.

(** C10. deadlock_free_multi_lock_transfer.c: let any number of threads make any
    [transfer_value] calls (NULL pointers, negative amounts and equal pointers
    included) on shared counters, whatever their ids. If no value is negative
    and their sum is below [2^63], then in every state of every schedule no
    value is negative and the sum of the values and of the amounts being moved
    is the initial total; no schedule is longer than ten steps per call; and
    from every reachable state all calls can still return (no deadlock, no
    overflow), leaving the total unchanged and every mutex unlocked. *)
Theorem transfer_safe (cs0 : list locked_counter) (progs : list (list tr_args)) cs ls :
  length cs0 = num ->
  (forall x c, cs0 !! x = Some c -> 0 <= lc_value c /\ lc_mu c = false) ->
  (forall calls a x, calls ∈ progs -> a ∈ calls -> a_from a = Some x \/ a_to a = Some x -> (x < num)%nat) ->
  lsum lc_value cs0 < 2 ^ 63 ->
  rtc (sys_step transfer_value_step) (cs0, tr_start <$> progs) (cs, ls) ->
  (forall x c, cs !! x = Some c -> 0 <= lc_value c) /\
  lsum lc_value cs + lsum inflight ls = lsum lc_value cs0 /\
  (forall n c', nsteps (sys_step transfer_value_step) n (cs, ls) c' ->
     Z.of_nat n <= lsum (fun t => Z.of_nat (tr_cost t)) ls) /\
  exists cs' ls', rtc (sys_step transfer_value_step) (cs, ls) (cs', ls') /\
    (forall i t, ls' !! i = Some t -> tr_finished t = true) /\
    lsum lc_value cs' = lsum lc_value cs0 /\ (forall x c, cs' !! x = Some c -> lc_mu c = false).
Proof.
  intros Hnum Hcs Hp Htot Hr. set (total := lsum lc_value cs0) in *.
  assert (HI : tr_inv total cs ls).
  { refine (thread_invariant transfer_value_step (tr_inv total) cs0 (tr_start <$> progs) _ _ cs ls Hr).
    - by apply tr_inv_init.
    - intros. by eapply tr_inv_step. }
  set (P := fun c : list locked_counter * list tr_thread => tr_inv total c.1 c.2).
  assert (HP : forall c c', P c -> sys_step transfer_value_step c c' -> P c').
  { intros c c' Hc Hs. destruct Hs. by eapply tr_inv_step. }
  assert (Hm : forall s l i t s' t', P (s, l) -> l !! i = Some t -> transfer_value_step s t = Some (s', t') ->
            (tr_cost t' < tr_cost t)%nat).
  { intros s l i t s' t' (_ & Hok & _) Hi Hs. eapply tr_cost_step; [done|by eapply Hok]. }
  pose proof HI as (Hlk & Hok & Hnn & Hsum & Hlt). split_and!; [done|done|..].
  - intros n c' Hn. pose proof (measure_bounds_runs _ P tr_cost n (cs, ls) c' HP Hm HI Hn) as Hb.
    pose proof (lsum_nonneg (fun t => Z.of_nat (tr_cost t)) c'.2 ltac:(intros; simpl; lia)). simpl in *. lia.
  - destruct (progress_reaches transfer_value_step P tr_cost
      (fun c => P c /\ forall i t, c.2 !! i = Some t -> tr_finished t = true) (cs, ls) HP Hm) as ([cs' ls'] & Hr' & HI' & Hf).
    + intros [s l] Hc. destruct (@lock_order_progress _ _ _ _ _ _ _ _ _ _ transfer_discipline s l)
        as [|[(? & ? & _ & [=])|]]; [by apply Hc..|by left|by right].
    + exact HI.
    + destruct HI' as (Hlk' & _ & _ & Hsum' & _). simpl in *. exists cs', ls'. split_and!; [done..| |].
      * rewrite (lsum_const inflight 0) in Hsum'; [lia|]. intros t [i Hi]%list_elem_of_lookup.
        specialize (Hf i t Hi). unfold tr_finished, inflight in *. by destruct (tr_calls t), (tr_at t).
      * intros x c Hx. specialize (Hlk' x). rewrite (lsum_const _ 0) in Hlk'.
        { unfold tr_taken in Hlk'. rewrite Hx in Hlk'. destruct (lc_mu c); [lia|done]. }
        intros t [i Hi]%list_elem_of_lookup. specialize (Hf i t Hi). unfold tr_finished, LockOrder.holds, tr_held in *.
        by destruct (tr_calls t), (tr_at t).
Qed.
End transfer.

(** ** Two opposite transfers

    The first thread has both locks, and has taken its amount; the second waits
    for its first lock, the same as the first thread's. *)

Definition demo_ids (x : nat) : Z := 7.
Definition demo_addr (x : nat) : Z := 4096 + 64 * Z.of_nat x.
Definition demo_counters : list locked_counter := [mk_counter 10 false; mk_counter 4 false].
Definition demo_calls : list (list tr_args) := [[mk_args (Some 0%nat) (Some 1%nat) 5]; [mk_args (Some 1%nat) (Some 0%nat) 3]].
Definition demo_sched : list nat := [0; 1; 0; 0; 0; 0; 0]%nat.
Definition demo_reached : list locked_counter * list tr_thread :=
  default (demo_counters, tr_start <$> demo_calls)
    (run_sched (transfer_value_step demo_ids demo_addr) demo_sched (demo_counters, tr_start <$> demo_calls)).

Example demo_reached_state : (lc_value <$> demo_reached.1, tr_at <$> demo_reached.2) = ([5; 4], [TAdd; TLock1]).
Proof. vm_compute. reflexivity. Qed.

Example demo_second_waits :
  run_sched (transfer_value_step demo_ids demo_addr) (demo_sched ++ [1%nat]) (demo_counters, tr_start <$> demo_calls) = None.
Proof. vm_compute. reflexivity. Qed.

Lemma transfer_safe_witness :
  lsum lc_value demo_reached.1 + lsum inflight demo_reached.2 = 14 /\
  exists cs' ls', rtc (sys_step (transfer_value_step demo_ids demo_addr)) demo_reached (cs', ls') /\
    (forall i t, ls' !! i = Some t -> tr_finished t = true) /\ lsum lc_value cs' = 14.
Proof.
  destruct (transfer_safe 2 demo_ids demo_addr) with (cs0 := demo_counters) (progs := demo_calls)
    (cs := demo_reached.1) (ls := demo_reached.2) as (_ & Hsum & _ & cs' & ls' & Hr & Hf & Ht & _).
  - intros x Hx. unfold demo_addr, in_u. lia.
  - intros x y Hx Hy. unfold demo_addr. lia.
  - reflexivity.
  - intros [|[|x]] c Hc; [injection Hc as <-..|discriminate Hc]; (split; [vm_compute; discriminate|reflexivity]).
  - intros calls a x Hc Ha Hx. apply list_elem_of_In in Hc, Ha.
    destruct Hc as [<-|[<-|[]]]; destruct Ha as [<-|[]]; simpl in Hx; destruct Hx as [[= <-]|[= <-]]; lia.
  - reflexivity.
  - apply (run_sched_rtc _ demo_sched). vm_compute. reflexivity.
  - split; [exact Hsum|]. exists cs', ls'. split; [exact Hr|]. split; [exact Hf|exact Ht].
Defined.
