(* ===== verification/Vectors.v ===== *)
(** * The vectors of 32_ConcurrencyBugs

    Five versions of [vector_add(v_dst, v_src)] that differ in how they lock
    (vector-deadlock.c, vector-global-order.c, vector-avoid-hold-and-wait.c,
    vector-try-wait.c, vector-nolock.c), and the program main-common.c that runs
    them in threads. A call is the list of its operations on the shared memory,
    in program order; each is a step, and a thread runs the operations of its
    calls one after the other. Lock [0] is the mutex [global] of
    vector-avoid-hold-and-wait.c, lock [x + 1] that of vector [x].

    The theorems: vector-deadlock.c deadlocks exactly when it is told to; taking
    the locks in address order, or all at once, never deadlocks; the version
    that backs off can run for ever; the lock-free version loses no addition. *)

From S2P Require Import Prelude Threads LockOrder.

Definition VECTOR_SIZE : nat := 100.
Definition MAX_THREADS : nat := 100.

Record vector_t := mk_vec {
  v_lock : bool;            (* locked *)
  v_values : list Z         (* int values[VECTOR_SIZE] *)
}.

(** The shared memory: the vectors, [global] and [retry]. *)
Record v_state := mk_vs {
  vs_v : list vector_t;     (* v[2 * MAX_THREADS] *)
  vs_global : bool;
  vs_retry : Z
}.

Definition lk_global : nat := 0.
Definition lk (x : nat) : nat := S x.

Inductive vop :=
| Acq (l : nat)                       (* Pthread_mutex_lock *)
| Rel (l : nat)                       (* Pthread_mutex_unlock *)
| LoadSum (dst src i : nat)           (* v_dst->values[i] + v_src->values[i] *)
| StoreSum (dst i : nat)              (* v_dst->values[i] = ... *)
| LoadSrc (src i : nat)               (* the argument of fetch_and_add *)
| FetchAdd (dst i : nat)              (* __sync_fetch_and_add *)
| TryDst (dst src : nat)              (* the label top of vector-try-wait.c *)
| TrySrc (dst src : nat)              (* the second trylock *)
| IncRetry (dst src : nat).           (* retry++, unlock, goto top *)

(** The loop of the locking versions. *)
Definition add_loop (dst src : nat) : list vop :=
  i ← seq 0 VECTOR_SIZE; [LoadSum dst src i; StoreSum dst i].

Definition vector_add_deadlock (dst src : nat) : list vop :=
  [Acq (lk dst); Acq (lk src)] ++ add_loop dst src ++ [Rel (lk dst); Rel (lk src)].

(** The vectors are the elements of one array: their addresses are in the order
    of the indices. *)
Definition vector_add_global_order (dst src : nat) : list vop :=
  (if (dst <? src)%nat then [Acq (lk dst); Acq (lk src)]
   else if (src <? dst)%nat then [Acq (lk src); Acq (lk dst)]
   else [Acq (lk src)])
  ++ add_loop dst src ++ [Rel (lk src)] ++ (if bool_decide (dst = src) then [] else [Rel (lk dst)]).

Definition vector_add_hold_and_wait (dst src : nat) : list vop :=
  [Acq lk_global; Acq (lk dst); Acq (lk src); Rel lk_global] ++ add_loop dst src ++ [Rel (lk dst); Rel (lk src)].

Definition vector_add_try_wait (dst src : nat) : list vop := [TryDst dst src].

Definition vector_add_nolock (dst src : nat) : list vop :=
  i ← seq 0 VECTOR_SIZE; [LoadSrc src i; FetchAdd dst i].

(** A thread: the operations it has left, the locks it holds, and the value it
    has loaded. *)
Record v_thread := mk_vt { vt_ops : list vop; vt_held : list nat; vt_tmp : Z }.

Definition lock_of (s : v_state) (l : nat) : option bool :=
  match l with O => Some (vs_global s) | S x => v_lock <$> vs_v s !! x end.

Definition set_lock (s : v_state) (l : nat) (b : bool) : v_state :=
  match l with
  | O => mk_vs (vs_v s) b (vs_retry s)
  | S x => mk_vs (alter (fun v => mk_vec b (v_values v)) x (vs_v s)) (vs_global s) (vs_retry s)
  end.

Definition load (s : v_state) (x i : nat) : option Z := v ← vs_v s !! x; v_values v !! i.

Definition store (s : v_state) (x i : nat) (z : Z) : option v_state :=
  v ← vs_v s !! x; _ ← v_values v !! i;
  Some (mk_vs (<[x := mk_vec (v_lock v) (<[i := z]> (v_values v))]> (vs_v s)) (vs_global s) (vs_retry s)).

Fixpoint remove1 (x : nat) (l : list nat) : list nat :=
  match l with [] => [] | y :: l => if bool_decide (x = y) then l else y :: remove1 x l end.

(** One operation. [Acq] of a lock that is taken, and undefined operations
    (overflow of [int] addition; the atomic builtin wraps around), do not move. *)
Definition v_step (s : v_state) (t : v_thread) : option (v_state * v_thread) :=
  match vt_ops t with
  | [] => None
  | op :: ops =>
      let next s tmp := Some (s, mk_vt ops (vt_held t) tmp) in
      match op with
      | Acq l =>
          b ← lock_of s l; _ ← mutex_lock b;
          Some (set_lock s l true, mk_vt ops (l :: vt_held t) (vt_tmp t))
      | Rel l => Some (set_lock s l (mutex_unlock true), mk_vt ops (remove1 l (vt_held t)) (vt_tmp t))
      | LoadSum dst src i => a ← load s dst i; b ← load s src i; z ← chk_s 32 (a + b); next s z
      | StoreSum dst i => s ← store s dst i (vt_tmp t); next s (vt_tmp t)
      | LoadSrc src i => a ← load s src i; next s a
      | FetchAdd dst i => a ← load s dst i; s ← store s dst i (swrap 32 (a + vt_tmp t)); next s (vt_tmp t)
      | TryDst dst src =>
          b ← lock_of s (lk dst);
          if (b : bool) then Some (s, t)
          else Some (set_lock s (lk dst) true, mk_vt (TrySrc dst src :: ops) (lk dst :: vt_held t) (vt_tmp t))
      | TrySrc dst src =>
          b ← lock_of s (lk src);
          if (b : bool) then Some (s, mk_vt (IncRetry dst src :: ops) (vt_held t) (vt_tmp t))
          else Some (set_lock s (lk src) true,
                     mk_vt (add_loop dst src ++ [Rel (lk dst); Rel (lk src)] ++ ops) (lk src :: vt_held t) (vt_tmp t))
      | IncRetry dst src =>
          r ← chk_s 32 (vs_retry s + 1);
          Some (mk_vs (vs_v s) (vs_global s) r,
                mk_vt (Rel (lk dst) :: TryDst dst src :: ops) (vt_held t) (vt_tmp t))
      end
  end.

(** ** main-common.c *)

Record thread_arg_t := mk_targ { tid : nat; vector_add_order : Z; vector_0 : nat; vector_1 : nat }.

(** The options that matter here. *)
Record v_opts := mk_opts { o_loops : nat; o_threads : nat; o_deadlock : bool; o_parallel : bool }.

(** Lines 103-117: the arguments of thread [i]. *)
Definition main_args (o : v_opts) (i : nat) : thread_arg_t :=
  let '(v0, v1) := if o_parallel o then (i * 2, i * 2 + 1)%nat else (0, 1)%nat in
  mk_targ i (if o_deadlock o && (Z.of_nat i mod 2 =? 1) then 1 else 0) v0 v1.

(** The vectors that [worker] adds. *)
Definition worker_pair (a : thread_arg_t) : nat * nat :=
  if vector_add_order a =? 0 then (vector_0 a, vector_1 a) else (vector_1 a, vector_0 a).

(** [worker] with one of the versions of [vector_add]. *)
Definition worker (vector_add : nat -> nat -> list vop) (loops : nat) (a : thread_arg_t) : v_thread :=
  let '(v0, v1) := worker_pair a in mk_vt (concat (replicate loops (vector_add v0 v1))) [] 0.

Definition vector_init (value : Z) : vector_t := mk_vec false (replicate VECTOR_SIZE value).

Definition v_init : v_state :=
  mk_vs ((fun i => vector_init (Z.of_nat i)) <$> seq 0 (2 * MAX_THREADS)) false 0.

(** [main] after it has created the threads. *)
Definition v_main (vector_add : nat -> nat -> list vop) (o : v_opts) : v_state * list v_thread :=
  (v_init, (fun i => worker vector_add (o_loops o) (main_args o i)) <$> seq 0 (o_threads o)).

(** ** Locks *)

Definition v_taken (s : v_state) (l : nat) : bool := default false (lock_of s l).

Definition v_wants (t : v_thread) : option nat :=
  match vt_ops t with Acq l :: _ => Some l | _ => None end.

Definition v_finished (t : v_thread) : bool := match vt_ops t with [] => true | _ => false end.

(** The next operation is undefined. *)
Definition v_stuck (s : v_state) (t : v_thread) : bool :=
  match v_step s t with
  | Some _ => false
  | None => match vt_ops t with [] => false | Acq l :: _ => bool_decide (lock_of s l = None) | _ => true end
  end.

(** A deadlock: some thread has not finished, and those that have not all wait
    for locks that are taken. *)
Definition deadlocked (c : v_state * list v_thread) : Prop :=
  (exists i t, c.2 !! i = Some t /\ v_finished t = false) /\
  forall i t, c.2 !! i = Some t -> v_finished t = false ->
    exists l, v_wants t = Some l /\ v_taken c.1 l = true.

(** Operations that touch no lock. *)
Definition is_data (op : vop) : bool :=
  match op with LoadSum _ _ _ | StoreSum _ _ | LoadSrc _ _ | FetchAdd _ _ => true | _ => false end.

Lemma lock_of_set s l b l' :
  default false (lock_of (set_lock s l b) l')
  = if bool_decide (l' = l) then (if lock_of s l then b else false) else default false (lock_of s l').
Proof.
  case_bool_decide as E; [subst l'|]; destruct l as [|x]; simpl.
  - done.
  - rewrite list_lookup_alter_eq. by destruct (vs_v s !! x).
  - by destruct l'.
  - destruct l' as [|y]; [done|]. simpl. by rewrite list_lookup_alter_ne by congruence.
Qed.

Lemma lock_of_store s x i z s' l : store s x i z = Some s' -> lock_of s' l = lock_of s l.
Proof.
  unfold store. intros H. destruct (vs_v s !! x) as [v|] eqn:Hx; simplify_eq/=.
  destruct (v_values v !! i); simplify_eq/=. destruct l as [|y]; [done|]. simpl.
  destruct (decide (x = y)) as [->|]; [|by rewrite list_lookup_insert_ne].
  rewrite list_lookup_insert_eq by (by eapply lookup_lt_Some). by rewrite Hx.
Qed.

Lemma remove1_perm x l : x ∈ l -> l ≡ₚ x :: remove1 x l.
Proof.
  induction l as [|y l IH]; [by intros ?%elem_of_nil|]. intros Hx. simpl. case_bool_decide as E; [by subst|].
  apply elem_of_cons in Hx as [->|Hx]; [done|]. rewrite (IH Hx) at 1. constructor.
Qed.

(** The steps of a thread, with the locks they find and leave. *)
Lemma v_step_locks s t s' t' op ops :
  vt_ops t = op :: ops -> v_step s t = Some (s', t') ->
  match op with
  | Acq l => lock_of s l = Some false /\ s' = set_lock s l true /\ t' = mk_vt ops (l :: vt_held t) (vt_tmp t)
  | Rel l => s' = set_lock s l false /\ t' = mk_vt ops (remove1 l (vt_held t)) (vt_tmp t)
  | LoadSum _ _ _ | StoreSum _ _ | LoadSrc _ _ | FetchAdd _ _ =>
      (forall l, lock_of s' l = lock_of s l) /\ vt_ops t' = ops /\ vt_held t' = vt_held t
  | _ => True
  end.
Proof.
  intros Hops Hs. unfold v_step in Hs. rewrite Hops in Hs. destruct op; try done.
  - destruct (lock_of s l) as [[]|]; by simplify_eq/=.
  - by simplify_eq/=.
  - destruct (load s dst i) as [a|]; simpl in Hs; [|done]. destruct (load s src i) as [b|]; simpl in Hs; [|done].
    destruct (chk_s 32 (a + b)); by simplify_eq/=.
  - destruct (store s dst i (vt_tmp t)) as [s1|] eqn:Hst; simplify_eq/=. split_and!; [|done|done].
    intros l. by eapply lock_of_store.
  - destruct (load s src i); by simplify_eq/=.
  - destruct (load s dst i) as [a|]; simpl in Hs; [|done].
    destruct (store s dst i (swrap 32 (a + vt_tmp t))) as [s1|] eqn:Hst; simplify_eq/=. split_and!; [|done|done].
    intros l. by eapply lock_of_store.
Qed.

(** ** Programs that follow a locking rule *)
Section rule.
(** [can held l]: a thread that holds [held] may ask for [l]. *)
Context (can : list nat -> nat -> Prop).

Fixpoint v_ordered (held : list nat) (ops : list vop) : Prop :=
  match ops with
  | [] => held = []
  | op :: ops =>
      match op with
      | Acq l => can held l /\ v_ordered (l :: held) ops
      | Rel l => l ∈ held /\ v_ordered (remove1 l held) ops
      | _ => is_data op = true /\ v_ordered held ops
      end
  end.

Lemma v_ordered_app held ops1 ops2 :
  v_ordered held ops1 -> v_ordered [] ops2 -> v_ordered held (ops1 ++ ops2).
Proof.
  intros H1 H2. revert held H1. induction ops1 as [|op ops1 IH]; intros held H1; simpl in *; [by subst|].
  destruct op; naive_solver.
Qed.

Lemma v_ordered_data held ops1 ops2 :
  Forall (fun op => is_data op = true) ops1 -> v_ordered held ops2 -> v_ordered held (ops1 ++ ops2).
Proof.
  induction 1 as [|op ops1 Hop _ IH]; intros H2; [done|]. simpl. specialize (IH H2). by destruct op.
Qed.

Lemma v_ordered_calls n ops : v_ordered [] ops -> v_ordered [] (concat (replicate n ops)).
Proof. intros H. induction n as [|n IH]; [done|]. simpl. by apply v_ordered_app. Qed.

Definition v_ok (s : v_state) (t : v_thread) : Prop := v_ordered (vt_held t) (vt_ops t).

(** A step follows the rule, and executes one operation. *)
Lemma v_ok_step s t s' t' :
  v_ok s t -> v_step s t = Some (s', t') ->
  lockstep v_taken vt_held v_wants s t s' t' /\ v_ok s' t' /\ (length (vt_ops t') < length (vt_ops t))%nat.
Proof.
  intros Hok Hs. unfold v_ok in *. destruct (vt_ops t) as [|op ops] eqn:Hops.
  { unfold v_step in Hs. by rewrite Hops in Hs. }
  pose proof (v_step_locks s t s' t' op ops Hops Hs) as Hl. simpl in Hok.
  destruct (is_data op) eqn:Hop.
  { assert (Hd : (forall l, lock_of s' l = lock_of s l) /\ vt_ops t' = ops /\ vt_held t' = vt_held t) by (by destruct op).
    destruct Hd as (Hd & -> & Hh). split_and!; [|rewrite Hh; by destruct op, Hok|simpl; lia].
    apply ls_other; [done|]. intros x. unfold v_taken. by rewrite Hd. }
  destruct op; try (by destruct Hok); destruct Hok as [Hc Hok].
  - destruct Hl as (Hfree & -> & ->). split_and!; [|done|simpl; lia].
    apply (ls_acquire _ _ _ _ _ _ _ l); simpl; try done.
    + unfold v_wants. by rewrite Hops.
    + unfold v_taken. by rewrite Hfree.
    + intros x. unfold v_taken. rewrite lock_of_set, Hfree. by case_bool_decide.
  - destruct Hl as (-> & ->). split_and!; [|done|simpl; lia].
    apply (ls_release _ _ _ _ _ _ _ l); simpl; [by apply remove1_perm|].
    intros x. unfold v_taken. rewrite lock_of_set. case_bool_decide; [by destruct (lock_of s l)|done].
Qed.

Lemma v_blocked s t :
  v_step s t = None ->
  v_finished t = true \/ v_stuck s t = true \/ exists w, v_wants t = Some w /\ v_taken s w = true.
Proof.
  intros Hs. unfold v_finished, v_stuck, v_wants. rewrite Hs. unfold v_step in Hs.
  destruct (vt_ops t) as [|op ops]; [by left|right]. destruct op; try by left.
  destruct (lock_of s l) as [[]|] eqn:Hl; [right; exists l; unfold v_taken; by rewrite Hl|done|by left].
Qed.

Definition v_inv (s : v_state) (ls : list v_thread) : Prop :=
  lock_inv v_taken vt_held s ls /\ forall i t, ls !! i = Some t -> v_ok s t.

Lemma v_inv_step i s ls t s' t' :
  v_inv s ls -> ls !! i = Some t -> v_step s t = Some (s', t') -> v_inv s' (<[i := t']> ls).
Proof.
  intros [Hlk Hok] Hi Hs. destruct (v_ok_step s t s' t' (Hok i t Hi) Hs) as (Hls & Hok' & _). split.
  - by eapply lock_inv_step.
  - intros j u Hj. apply list_lookup_insert_Some in Hj as [(-> & <- & _)|[_ Hj]]; [done|by eapply Hok].
Qed.

Lemma v_inv_reach s0 progs c :
  (forall l, v_taken s0 l = false) -> Forall (v_ordered []) progs ->
  rtc (sys_step v_step) (s0, (fun ops => mk_vt ops [] 0) <$> progs) c -> v_inv c.1 c.2.
Proof.
  intros H0 Hp Hr. destruct c as [s ls]. refine (thread_invariant v_step v_inv s0 _ _ _ s ls Hr).
  - split.
    + intros x. rewrite H0, lsum_fmap, (lsum_const _ 0); [lia|done].
    + intros i t Hi. rewrite list_lookup_fmap in Hi. destruct (progs !! i) as [ops|] eqn:Hops; simplify_eq/=.
      red; simpl. rewrite Forall_forall in Hp. apply Hp. by eapply list_elem_of_lookup_2.
  - intros. by eapply v_inv_step.
Qed.

(** No schedule is longer than the programs. *)
Lemma v_inv_bounded c n c' :
  v_inv c.1 c.2 -> nsteps (sys_step v_step) n c c' ->
  Z.of_nat n <= lsum (fun t => Z.of_nat (length (vt_ops t))) c.2.
Proof.
  intros HI Hn.
  pose proof (lsum_nonneg (fun t => Z.of_nat (length (vt_ops t))) c'.2 ltac:(intros; simpl; lia)).
  enough (Z.of_nat n + lsum (fun t => Z.of_nat (length (vt_ops t))) c'.2
          <= lsum (fun t => Z.of_nat (length (vt_ops t))) c.2) by lia.
  apply (measure_bounds_runs v_step (fun c => v_inv c.1 c.2) (fun t => length (vt_ops t)) n c c'); [..|done|done].
  - intros k k' Hk Hs. destruct Hs. by eapply v_inv_step.
  - intros s ls i t s' t' [_ Hok] Hi Hs. by destruct (v_ok_step s t s' t' (Hok i t Hi) Hs) as (_ & _ & ?).
Qed.

(** A thread that makes the given calls. *)
Definition caller (vector_add : nat -> nat -> list vop) (calls : list (nat * nat)) : list vop :=
  '(dst, src) ← calls; vector_add dst src.

Lemma caller_ordered vector_add calls :
  (forall dst src, (dst, src) ∈ calls -> v_ordered [] (vector_add dst src)) ->
  v_ordered [] (caller vector_add calls).
Proof.
  unfold caller. induction calls as [|[dst src] calls IH]; intros H; [done|]. rewrite bind_cons.
  apply v_ordered_app; [apply H; set_solver|]. apply IH. intros d s' Hin. apply H. set_solver.
Qed.
End rule.

(** *** Locks in the order of a rank *)

Definition by_rank (rank : nat -> Z) (held : list nat) (l : nat) : Prop := forall h, h ∈ held -> rank h < rank l.

#[local] Instance v_discipline rank :
  LockDiscipline v_step v_taken vt_held v_wants v_finished v_stuck rank (v_ok (by_rank rank)).
Proof.
  split.
  - intros s t s' t' Hok Hs. by destruct (v_ok_step _ s t s' t' Hok Hs).
  - intros s t _. apply v_blocked.
  - intros s t w h Hok Hw Hh. unfold v_ok, v_wants in *. destruct (vt_ops t) as [|[] ops]; try done.
    simplify_eq. destruct Hok as [Hok _]. by apply Hok.
  - intros s t Hok Hf. unfold v_ok, v_finished in *. by destruct (vt_ops t).
Qed.

(** A deadlock has no thread that moves or is stuck. *)
Lemma deadlocked_step s ls c' : deadlocked (s, ls) -> ~ sys_step v_step (s, ls) c'.
Proof.
  intros [_ Hdead] Hs. inversion Hs as [j s1 ls1 u s' u' Hj Hu]; subst.
  assert (Hfin : v_finished u = false).
  { unfold v_step, v_finished in *. by destruct (vt_ops u). }
  destruct (Hdead j u Hj Hfin) as (l & Hw & Hl). unfold v_wants, v_taken, v_step in *. simpl in Hl.
  destruct (vt_ops u) as [|[] ops]; try done. simplify_eq. destruct (lock_of s l) as [[]|]; done.
Qed.

Lemma deadlocked_stuck s ls j u : deadlocked (s, ls) -> ls !! j = Some u -> v_stuck s u = false.
Proof.
  intros [_ Hdead] Hj. destruct (v_stuck s u) eqn:Hu; [exfalso|done].
  assert (Hfin : v_finished u = false).
  { unfold v_stuck, v_finished in *. destruct (v_step s u); [done|]. by destruct (vt_ops u). }
  destruct (Hdead j u Hj Hfin) as (l & Hw & Hl). unfold v_stuck, v_wants, v_taken in *. simpl in Hl.
  destruct (v_step s u); [done|]. destruct (vt_ops u) as [|[] ops]; try done. simplify_eq.
  case_bool_decide as E; [|done]. by rewrite E in Hl.
Qed.

(** Threads whose programs respect the order never deadlock. *)
Lemma v_ordered_no_deadlock rank s0 progs c :
  (forall l, v_taken s0 l = false) -> Forall (v_ordered (by_rank rank) []) progs ->
  rtc (sys_step v_step) (s0, (fun ops => mk_vt ops [] 0) <$> progs) c -> ~ deadlocked c.
Proof.
  intros H0 Hp Hr Hdead. destruct c as [s ls]. destruct (v_inv_reach _ s0 progs _ H0 Hp Hr) as [Hlk Hok].
  destruct (@lock_order_progress _ _ _ _ _ _ _ _ _ _ (v_discipline rank) s ls Hlk Hok)
    as [Hf|[(j & u & Hj & Hu)|[c' Hs]]].
  - destruct Hdead as [(i & t & Hi & Ht) _]. specialize (Hf i t Hi). congruence.
  - rewrite (deadlocked_stuck s ls j u Hdead Hj) in Hu. done.
  - by eapply deadlocked_step.
Qed.

(** ** vector-global-order.c *)

Lemma add_loop_data dst src : Forall (fun op => is_data op = true) (add_loop dst src).
Proof.
  unfold add_loop. apply Forall_forall. intros op Hop.
  apply list_elem_of_bind in Hop as (i & Hop & _). apply list_elem_of_In in Hop.
  by destruct Hop as [<-|[<-|[]]].
Qed.

Lemma remove1_eq x l : remove1 x (x :: l) = l.
Proof. simpl. by rewrite bool_decide_eq_true_2. Qed.

Lemma remove1_ne x y l : x <> y -> remove1 x (y :: l) = y :: remove1 x l.
Proof. intros. simpl. by rewrite bool_decide_eq_false_2. Qed.

(** Locks taken in the order [l1], [l2], and released in either order. *)
Lemma two_locks_ordered rank l1 l2 r1 r2 body :
  rank l1 < rank l2 -> (r1 = l1 /\ r2 = l2) \/ (r1 = l2 /\ r2 = l1) ->
  Forall (fun op => is_data op = true) body ->
  v_ordered (by_rank rank) [] ([Acq l1; Acq l2] ++ body ++ [Rel r1; Rel r2]).
Proof.
  intros Hlt Hr Hbody. assert (l1 <> l2) by (intros ->; lia).
  simpl. split_and!; [by intros h ?%elem_of_nil| |].
  { intros h Hh. apply list_elem_of_singleton in Hh as ->. done. }
  apply v_ordered_data; [done|]. destruct Hr as [[-> ->]|[-> ->]]; cbn [v_ordered].
  - rewrite remove1_ne, remove1_eq, remove1_eq by done. split_and!; [set_solver|set_solver|done].
  - rewrite remove1_eq, remove1_eq. split_and!; [set_solver|set_solver|done].
Qed.

Lemma global_order_ordered dst src : v_ordered (by_rank Z.of_nat) [] (vector_add_global_order dst src).
Proof.
  unfold vector_add_global_order, lk. generalize (add_loop_data dst src). generalize (add_loop dst src). intros body Hd.
  destruct (Nat.ltb_spec dst src); [|destruct (Nat.ltb_spec src dst)].
  - rewrite bool_decide_eq_false_2 by lia. apply two_locks_ordered; [lia|by right|done].
  - rewrite bool_decide_eq_false_2 by lia. apply two_locks_ordered; [lia|by left|done].
  - assert (dst = src) as -> by lia. rewrite bool_decide_eq_true_2 by done. simpl.
    split; [by intros h ?%elem_of_nil|]. apply v_ordered_data; [done|]. cbn [v_ordered].
    rewrite remove1_eq. split; [set_solver|done].
Qed.

(** vector-global-order.c never deadlocks: whatever threads make whatever
    [vector_add] calls (also with [v_dst == v_src]), in no reachable state of any
    schedule do all the threads that have not finished wait for locks; and no
    schedule is longer than the number of the operations, so every execution
    ends, with all calls returned unless an [int] addition overflows. *)
Theorem global_order_no_deadlock (s0 : v_state) (calls : list (list (nat * nat))) c :
  (forall l, v_taken s0 l = false) ->
  let ls0 := (fun cs => mk_vt (caller vector_add_global_order cs) [] 0) <$> calls in
  rtc (sys_step v_step) (s0, ls0) c ->
  ~ deadlocked c /\
  (forall n c', nsteps (sys_step v_step) n c c' -> Z.of_nat n <= lsum (fun t => Z.of_nat (length (vt_ops t))) c.2).
Proof.
  intros H0 ls0 Hr.
  assert (Hord : Forall (v_ordered (by_rank Z.of_nat) []) (caller vector_add_global_order <$> calls)).
  { apply Forall_fmap, Forall_true. intros cs. apply caller_ordered. intros. apply global_order_ordered. }
  assert (Hls : ls0 = (fun ops => mk_vt ops [] 0) <$> (caller vector_add_global_order <$> calls))
    by (by rewrite <- list_fmap_compose).
  rewrite Hls in Hr. split; [by eapply v_ordered_no_deadlock|]. intros n c'.
  eapply v_inv_bounded, v_inv_reach; done.
Qed.

(** ** vector-deadlock.c *)

Lemma v_init_free l : v_taken v_init l = false.
Proof.
  unfold v_taken. destruct l as [|x]; [done|]. cbn [lock_of v_init vs_v].
  rewrite list_lookup_fmap. by destruct (seq 0 (2 * MAX_THREADS) !! x).
Qed.

Lemma main_threads vector_add o :
  v_main vector_add o = (v_init, (fun ops => mk_vt ops [] 0) <$>
    ((fun i => let '(v0, v1) := worker_pair (main_args o i) in concat (replicate (o_loops o) (vector_add v0 v1)))
       <$> seq 0 (o_threads o))).
Proof.
  unfold v_main. f_equal. rewrite <- list_fmap_compose. apply list_fmap_ext. intros _ i _. unfold worker; simpl.
  by destruct (worker_pair (main_args o i)).
Qed.

(** The vectors thread [i] of main-common.c adds, and their order. *)
Lemma main_pair o i :
  let base := if o_parallel o then (i * 2)%nat else 0%nat in
  worker_pair (main_args o i)
  = if o_deadlock o && (Z.of_nat i mod 2 =? 1) then (S base, base) else (base, S base).
Proof.
  unfold worker_pair, main_args. destruct (o_parallel o); simpl; destruct (o_deadlock o && _); simpl; by rewrite ?Nat.add_1_r.
Qed.

(** A rank that the threads respect when they work on disjoint pairs, of which
    the odd ones are taken in the opposite order. *)
Definition pair_rank (l : nat) : Z :=
  if (Z.of_nat (l - 1) / 2) mod 2 =? 1 then - Z.of_nat l else Z.of_nat l.

Lemma deadlock_ordered rank dst src :
  rank (lk dst) < rank (lk src) -> v_ordered (by_rank rank) [] (vector_add_deadlock dst src).
Proof. intros H. apply two_locks_ordered; [done|by left|apply add_loop_data]. Qed.

(** The options with which vector-deadlock.c respects an order. *)
Lemma deadlock_main_ordered o i :
  ~ (o_deadlock o = true /\ o_parallel o = false /\ (2 <= o_threads o)%nat /\ (1 <= o_loops o)%nat) ->
  (i < o_threads o)%nat ->
  let rank := if o_deadlock o && o_parallel o then pair_rank else Z.of_nat in
  let '(v0, v1) := worker_pair (main_args o i) in
  v_ordered (by_rank rank) [] (concat (replicate (o_loops o) (vector_add_deadlock v0 v1))).
Proof.
  intros Ho Hi. rewrite main_pair. destruct (o_loops o) as [|n]; [by destruct (o_deadlock o && (_ =? 1))|].
  destruct (o_deadlock o); cbn [andb].
  2: { apply v_ordered_calls, deadlock_ordered. unfold lk. lia. }
  destruct (o_parallel o); cbn [andb].
  - assert (Hr : forall k, (k = 1 \/ k = 2)%nat -> pair_rank (i * 2 + k)
              = if Z.of_nat i mod 2 =? 1 then - Z.of_nat (i * 2 + k) else Z.of_nat (i * 2 + k)).
    { intros k Hk. unfold pair_rank. replace (Z.of_nat (i * 2 + k - 1) / 2) with (Z.of_nat i); [done|].
      destruct Hk as [-> | ->]; [rewrite Nat2Z.inj_sub, Nat2Z.inj_add by lia|rewrite Nat2Z.inj_sub, Nat2Z.inj_add by lia];
        modlia. }
    assert (E1 : lk (i * 2) = (i * 2 + 1)%nat) by (unfold lk; lia).
    assert (E2 : lk (S (i * 2)) = (i * 2 + 2)%nat) by (unfold lk; lia).
    destruct (Z.eqb_spec (Z.of_nat i mod 2) 1) as [Hi1|Hi1]; apply v_ordered_calls, deadlock_ordered;
      rewrite E1, E2, !Hr by auto; destruct (Z.eqb_spec (Z.of_nat i mod 2) 1); lia.
  - assert (i = 0%nat) as -> by (destruct (decide (2 <= o_threads o)%nat); [naive_solver lia|lia]).
    change (Z.of_nat 0 mod 2 =? 1) with false. cbv iota beta zeta. apply v_ordered_calls, deadlock_ordered. unfold lk. lia.
Qed.

(** The first operations of a thread of main-common.c without [-p]: it takes the
    two locks. *)
Lemma deadlock_worker_ops o i n :
  o_parallel o = false -> o_loops o = S n ->
  exists rest, worker vector_add_deadlock (o_loops o) (main_args o i)
    = mk_vt (if o_deadlock o && (Z.of_nat i mod 2 =? 1) then Acq 2 :: Acq 1 :: rest else Acq 1 :: Acq 2 :: rest) [] 0.
Proof.
  intros Hp Hl. unfold worker. rewrite main_pair, Hp, Hl. cbn [replicate concat].
  destruct (o_deadlock o && _); unfold vector_add_deadlock; eexists; cbn [app lk]; done.
Qed.

Lemma acquire_step s ls i l ops held tmp :
  ls !! i = Some (mk_vt (Acq l :: ops) held tmp) -> lock_of s l = Some false ->
  sys_step v_step (s, ls) (set_lock s l true, <[i := mk_vt ops (l :: held) tmp]> ls).
Proof. intros Hi Hl. econstructor; [done|]. unfold v_step; simpl. by rewrite Hl. Qed.

(** Thread 0 has the first lock, thread 1 the second. *)
Lemma deadlock_reached o n :
  o_deadlock o = true -> o_parallel o = false -> (2 <= o_threads o)%nat -> o_loops o = S n ->
  exists c, rtc (sys_step v_step) (v_main vector_add_deadlock o) c /\ deadlocked c.
Proof.
  intros Hd Hp Ht Hl. set (th i := worker vector_add_deadlock (o_loops o) (main_args o i)).
  assert (Hth : forall i, exists rest,
            th i = mk_vt (if Z.of_nat i mod 2 =? 1 then Acq 2 :: Acq 1 :: rest else Acq 1 :: Acq 2 :: rest) [] 0).
  { intros i. destruct (deadlock_worker_ops o i n Hp Hl) as [rest Hr]. exists rest. unfold th. by rewrite Hr, Hd. }
  unfold v_main. fold th.
  set (ls := th <$> seq 0 (o_threads o)).
  assert (Hls : forall i, (i < o_threads o)%nat -> ls !! i = Some (th i)).
  { intros i Hi. unfold ls. rewrite list_lookup_fmap, lookup_seq_lt by done. done. }
  destruct (Hth 0%nat) as [r0 H0], (Hth 1%nat) as [r1 H1]. simpl in H0, H1.
  set (t0 := mk_vt (Acq 2 :: r0) [1%nat] 0). set (t1 := mk_vt (Acq 1 :: r1) [2%nat] 0).
  exists (set_lock (set_lock v_init 1 true) 2 true, <[1%nat := t1]> (<[0%nat := t0]> ls)). split.
  - eapply rtc_l; [apply (acquire_step _ _ 0 1 (Acq 2 :: r0) [] 0); [by rewrite Hls, H0 by lia|done]|].
    eapply rtc_l; [|apply rtc_refl]. apply (acquire_step _ _ 1 2 (Acq 1 :: r1) [] 0); [|done].
    rewrite list_lookup_insert_ne by done. by rewrite Hls, H1 by lia.
  - assert (Htaken : forall l, l = 1%nat \/ l = 2%nat -> v_taken (set_lock (set_lock v_init 1 true) 2 true) l = true).
    { intros l [-> | ->]; vm_compute; done. }
    split; simpl.
    + exists 1%nat, t1. split; [|done]. apply list_lookup_insert_eq. rewrite length_insert. unfold ls.
      rewrite length_fmap, length_seq. lia.
    + intros i t Hi _. apply list_lookup_insert_Some in Hi as [(_ & <- & _)|[_ Hi]]; [exists 1%nat; auto|].
      apply list_lookup_insert_Some in Hi as [(_ & <- & _)|[_ Hi]]; [exists 2%nat; auto|].
      assert (Hlt : (i < o_threads o)%nat).
      { apply lookup_lt_Some in Hi. unfold ls in Hi. by rewrite length_fmap, length_seq in Hi. }
      rewrite (Hls i Hlt) in Hi. simplify_eq. destruct (Hth i) as [rest ->].
      destruct (Z.of_nat i mod 2 =? 1); [exists 2%nat|exists 1%nat]; auto.
Qed.

(** vector-deadlock.c deadlocks exactly when it is told to: a state in which
    the threads of main-common.c wait for each other's locks can be reached if
    and only if the program runs with [-d], without [-p], with at least two
    threads and at least one loop. *)
Theorem vector_deadlock_iff (o : v_opts) :
  (exists c, rtc (sys_step v_step) (v_main vector_add_deadlock o) c /\ deadlocked c) <->
  o_deadlock o = true /\ o_parallel o = false /\ (2 <= o_threads o)%nat /\ (1 <= o_loops o)%nat.
Proof.
  split.
  - intros (c & Hr & Hdead). apply dec_stable. intros Ho. rewrite main_threads in Hr. revert Hdead.
    eapply (v_ordered_no_deadlock (if o_deadlock o && o_parallel o then pair_rank else Z.of_nat));
      [apply v_init_free| |exact Hr].
    apply Forall_fmap, Forall_forall. intros i Hi%elem_of_seq.
    pose proof (deadlock_main_ordered o i Ho ltac:(lia)) as H. simpl.
    by destruct (worker_pair (main_args o i)).
  - intros (Hd & Hp & Ht & Hl). destruct (o_loops o) as [|n] eqn:E; [lia|]. by eapply deadlock_reached.
Qed.

(** ** vector-avoid-hold-and-wait.c *)

(** [global] is taken first, the other locks only by who has it. *)
Definition gated (held : list nat) (l : nat) : Prop :=
  (l = lk_global /\ held = []) \/ (lk_global ∈ held /\ l ∉ held).

Lemma hold_and_wait_gated dst src : dst <> src -> v_ordered gated [] (vector_add_hold_and_wait dst src).
Proof.
  intros Hne. unfold vector_add_hold_and_wait, lk, lk_global. generalize (add_loop_data dst src).
  generalize (add_loop dst src). intros body Hd. cbn [app v_ordered]. unfold gated, lk_global.
  split; [by left|]. split; [right; set_solver|]. split; [right; set_solver|]. split; [set_solver|].
  rewrite !remove1_ne, remove1_eq by done.
  apply v_ordered_data; [done|]. cbn [v_ordered]. split; [set_solver|].
  rewrite remove1_ne, !remove1_eq by congruence. split; [set_solver|]. done.
Qed.

Lemma gated_no_deadlock s ls : v_inv gated s ls -> ~ deadlocked (s, ls).
Proof.
  intros [Hlk Hok] Hdead. pose proof Hdead as [(i & t & Hi & Ht) Hw]. simpl in *.
  assert (Hheld : forall l, v_taken s l = true -> exists j u, ls !! j = Some u /\ l ∈ vt_held u /\ v_finished u = false).
  { intros l Hl. specialize (Hlk l). rewrite Hl in Hlk.
    destruct (lsum_pos_inv (LockOrder.holds vt_held l) ls (LockOrder.holds_nonneg vt_held l) ltac:(lia)) as (j & u & Hj & Hu).
    apply LockOrder.holds_pos in Hu. exists j, u. split_and!; [done|done|]. specialize (Hok j u Hj).
    unfold v_ok, v_finished in *. destruct (vt_ops u); [|done]. simpl in Hok. rewrite Hok in Hu. by apply elem_of_nil in Hu. }
  assert (Hwait : forall j u, ls !! j = Some u -> v_finished u = false ->
            exists l, v_wants u = Some l /\ v_taken s l = true /\ gated (vt_held u) l).
  { intros j u Hj Hu. destruct (Hw j u Hj Hu) as (l & Hwl & Hl). exists l. split_and!; [done|done|].
    specialize (Hok j u Hj). unfold v_ok, v_wants in *. destruct (vt_ops u) as [|[] ops]; try done. simplify_eq.
    by destruct Hok. }
  (* a thread that has [global] and waits: its lock is held by one that has [global] too *)
  assert (Hno : forall j u l, ls !! j = Some u -> v_wants u = Some l -> v_taken s l = true ->
            lk_global ∈ vt_held u -> l ∉ vt_held u -> False).
  { intros j u l Hj Hwl Hl Hg Hnot. destruct (Hheld l Hl) as (k & o & Hk & Ho & Hfo).
    destruct (Hwait k o Hk Hfo) as (l' & Hw' & Hl' & [[_ Hnil]|[Hg' _]]).
    - rewrite Hnil in Ho. by apply elem_of_nil in Ho.
    - destruct (decide (j = k)) as [->|Hjk]; [rewrite Hj in Hk; by simplify_eq|].
      by eapply (lock_exclusive v_taken vt_held s ls j k). }
  destruct (Hwait i t Hi Ht) as (l & Hwl & Hl & [[-> Hnil]|[Hg Hnot]]); [|by eapply Hno].
  destruct (Hheld lk_global Hl) as (j & u & Hj & Hu & Hfu).
  destruct (Hwait j u Hj Hfu) as (l' & Hw' & Hl' & [[_ Hnil']|[Hg' Hnot']]); [|by eapply Hno].
  rewrite Hnil' in Hu. by apply elem_of_nil in Hu.
Qed.

(** vector-avoid-hold-and-wait.c never deadlocks: whatever threads make
    whatever [vector_add] calls on two different vectors, in whatever order, in
    no reachable state of any schedule do all the threads that have not finished
    wait for locks, and no schedule is longer than the number of operations. *)
Theorem hold_and_wait_no_deadlock (s0 : v_state) (calls : list (list (nat * nat))) c :
  (forall l, v_taken s0 l = false) ->
  (forall cs dst src, cs ∈ calls -> (dst, src) ∈ cs -> dst <> src) ->
  rtc (sys_step v_step) (s0, (fun cs => mk_vt (caller vector_add_hold_and_wait cs) [] 0) <$> calls) c ->
  ~ deadlocked c /\
  (forall n c', nsteps (sys_step v_step) n c c' -> Z.of_nat n <= lsum (fun t => Z.of_nat (length (vt_ops t))) c.2).
Proof.
  intros H0 Hne Hr.
  assert (Hord : Forall (v_ordered gated []) (caller vector_add_hold_and_wait <$> calls)).
  { apply Forall_fmap, Forall_forall. intros cs Hcs. apply caller_ordered. intros dst src Hin.
    apply hold_and_wait_gated. by eapply Hne. }
  assert (Hls : (fun cs => mk_vt (caller vector_add_hold_and_wait cs) [] 0) <$> calls
                = (fun ops => mk_vt ops [] 0) <$> (caller vector_add_hold_and_wait <$> calls))
    by (by rewrite <- list_fmap_compose).
  rewrite Hls in Hr. pose proof (v_inv_reach _ s0 _ c H0 Hord Hr) as HI. split.
  - destruct c. by apply gated_no_deadlock.
  - intros n c'. by apply (v_inv_bounded gated).
Qed.

(** [vector_add(v, v)], which vector-global-order.c handles, waits for itself. *)
Theorem hold_and_wait_same_vector :
  deadlocked (default (v_init, []) (run_sched v_step [0; 0]%nat
    (v_init, [mk_vt (vector_add_hold_and_wait 3 3) [] 0]))).
Proof.
  split.
  - exists 0%nat. eexists. split; vm_compute; reflexivity.
  - intros [|[|i]] t Hi _; [|done..]. exists 4%nat. injection Hi as <-. split; vm_compute; reflexivity.
Qed.

(** ** vector-try-wait.c *)

(** Threads 0 and 1 have their first vectors and are about to try the second. *)
Definition both_hold (r : Z) (a b : list Z) (rest : list vector_t) (ops0 ops1 : list vop) : v_state * list v_thread :=
  (mk_vs (mk_vec true a :: mk_vec true b :: rest) false r,
   [mk_vt (TrySrc 0 1 :: ops0) [1%nat] 0; mk_vt (TrySrc 1 0 :: ops1) [2%nat] 0]).

(** Both fail, back off and take their first vectors again, in turns. *)
Definition retry_round : list nat := [0; 1; 0; 1; 0; 1; 0; 1]%nat.

(** vector-try-wait.c can livelock: with two threads that add two vectors in
    opposite orders (option [-d]) there is a reachable state from which a fair
    schedule, in which both threads take four steps, leads back to the same
    threads and vectors, the threads having only counted two more retries; the
    round can be repeated until the [int] counter [retry] overflows. *)
Theorem try_wait_livelocks :
  (exists a b rest ops0 ops1, run_sched v_step [0; 1]%nat
     (v_main vector_add_try_wait (mk_opts 1 2 true false)) = Some (both_hold 0 a b rest ops0 ops1)) /\
  forall r a b rest ops0 ops1, 0 <= r -> r + 2 < 2 ^ 31 ->
    run_sched v_step retry_round (both_hold r a b rest ops0 ops1) = Some (both_hold (r + 2) a b rest ops0 ops1).
Proof.
  split.
  - do 5 eexists. vm_compute. reflexivity.
  - intros r a b rest ops0 ops1 H0 H1. unfold retry_round, both_hold. cbn.
    rewrite (chk_s_ok 32 (r + 1)) by (unfold in_s; lia). cbn.
    rewrite (chk_s_ok 32 (r + 1 + 1)) by (unfold in_s; lia). cbn. by replace (r + 1 + 1) with (r + 2) by lia.
Qed.

(** ** vector-nolock.c *)

Lemma swrap_add_l w x y : 0 < w -> swrap w (swrap w x + y) = swrap w (x + y).
Proof.
  intros Hw. unfold swrap. f_equal.
  replace ((x + 2 ^ (w - 1)) mod 2 ^ w - 2 ^ (w - 1) + y + 2 ^ (w - 1)) with ((x + 2 ^ (w - 1)) mod 2 ^ w + y) by lia.
  rewrite Zplus_mod_idemp_l. f_equal. lia.
Qed.

(** The additions to element [j] of vector 0 that a thread has left. *)
Definition adds_left (j : nat) (t : v_thread) : Z :=
  lsum (fun op => match op with FetchAdd 0 i => if bool_decide (i = j) then 1 else 0 | _ => 0 end) (vt_ops t).

(** Loads of vector 1 and additions to vector 0 alternate. *)
Fixpoint alternates (ops : list vop) : Prop :=
  match ops with
  | [] => True
  | LoadSrc 1 i :: FetchAdd 0 j :: ops => (i < VECTOR_SIZE)%nat /\ (j < VECTOR_SIZE)%nat /\ alternates ops
  | _ => False
  end.

Definition adder (t : v_thread) : Prop :=
  alternates (vt_ops t) \/
  exists j ops, vt_ops t = FetchAdd 0 j :: ops /\ (j < VECTOR_SIZE)%nat /\ vt_tmp t = 1 /\ alternates ops.

(** Vector 1 keeps its initial value 1; element [j] of vector 0 counts the
    additions made out of the [total] of them. *)
Definition nolock_inv (total : Z) (s : v_state) (ls : list v_thread) : Prop :=
  (forall i t, ls !! i = Some t -> adder t) /\
  (forall j, (j < VECTOR_SIZE)%nat -> load s 1 j = Some 1 /\
     load s 0 j = Some (swrap 32 (total - lsum (adds_left j) ls))).

Lemma load_store s x i z s' y j :
  store s x i z = Some s' -> load s' y j = if bool_decide (y = x /\ j = i) then Some z else load s y j.
Proof.
  unfold store, load. intros H. destruct (vs_v s !! x) as [v|] eqn:Hx; simpl in H; [|done].
  destruct (v_values v !! i) eqn:Hi; simplify_eq/=. destruct (decide (y = x)) as [->|Hy].
  - rewrite list_lookup_insert_eq by (by eapply lookup_lt_Some). simpl. rewrite Hx. simpl.
    case_bool_decide as Hj.
    + destruct Hj as [_ ->]. by rewrite list_lookup_insert_eq by (by eapply lookup_lt_Some).
    + rewrite list_lookup_insert_ne by naive_solver. done.
  - rewrite list_lookup_insert_ne by done. by rewrite bool_decide_eq_false_2 by naive_solver.
Qed.

Lemma store_is_Some s x i z a : load s x i = Some a -> is_Some (store s x i z).
Proof.
  unfold load, store. destruct (vs_v s !! x) as [v|]; simpl; [|done]. intros ->. simpl. eauto.
Qed.

(** What an adder's step does: it loads a 1, or adds 1 to one element. *)
Lemma adder_step total s ls i t :
  nolock_inv total s ls -> ls !! i = Some t -> vt_ops t <> [] ->
  exists s' t', v_step s t = Some (s', t') /\ nolock_inv total s' (<[i := t']> ls) /\
    (length (vt_ops t') < length (vt_ops t))%nat.
Proof.
  intros [Had Hld] Hi Hne. destruct (Had i t Hi) as [Halt|(j & ops & Hops & Hj & Htmp & Halt)].
  - destruct t as [ops held tmp]; simpl in *.
    destruct ops as [|[] [|[] ops]]; try done; simpl in Halt; try (by destruct src as [|[]]).
    destruct src as [|[|]]; try done. destruct dst; [|done]. destruct Halt as (Hi' & Hj & Halt).
    exists s, (mk_vt (FetchAdd 0 i1 :: ops) held 1). destruct (Hld _ Hi') as [H1 _].
    split_and!; [unfold v_step; simpl; by rewrite H1| |simpl; lia]. split.
    + intros k u Hk. apply list_lookup_insert_Some in Hk as [(-> & <- & _)|[_ Hk]]; [|by eapply Had].
      right. by exists i1, ops.
    + intros k Hk. destruct (Hld k Hk) as [? ->]. split; [done|].
      rewrite (lsum_insert _ _ _ _ _ Hi). do 2 f_equal. unfold adds_left at 3 4. simpl. lia.
  - destruct (Hld j Hj) as [_ H0]. destruct (store_is_Some s 0 j (swrap 32 (swrap 32 (total - lsum (adds_left j) ls) + 1)) _ H0)
      as [s' Hs']. exists s', (mk_vt ops (vt_held t) 1).
    split_and!; [unfold v_step; rewrite Hops, H0, Htmp; simpl; by rewrite Hs'| |rewrite Hops; simpl; lia]. split.
    + intros k u Hk. apply list_lookup_insert_Some in Hk as [(-> & <- & _)|[_ Hk]]; [|by eapply Had]. by left.
    + intros k Hk. rewrite !(load_store _ _ _ _ _ _ _ Hs'), (bool_decide_eq_false_2 (1%nat = 0%nat /\ _)) by naive_solver.
      destruct (Hld k Hk) as [Hk1 Hk0]. split; [done|]. rewrite (lsum_insert _ _ _ _ _ Hi), swrap_add_l by lia.
      unfold adds_left at 3 4. rewrite Hops. cbn [vt_ops]. rewrite lsum_cons.
      destruct (decide (k = j)) as [->|Hkj].
      * rewrite !bool_decide_eq_true_2 by done. do 2 f_equal. lia.
      * rewrite !bool_decide_eq_false_2 by naive_solver. rewrite Hk0. do 2 f_equal. lia.
Qed.

Lemma alternates_nolock n : alternates (concat (replicate n (vector_add_nolock 0 1))).
Proof.
  assert (Happ : forall l rest, Forall (fun i => (i < VECTOR_SIZE)%nat) l -> alternates rest ->
            alternates ((i ← l; [LoadSrc 1 i; FetchAdd 0 i]) ++ rest)).
  { induction 1 as [|i l Hi _ IH]; intros Hr; [done|]. rewrite bind_cons. simpl. split_and!; [done|done|].
    by apply IH. }
  induction n as [|n IH]; [done|]. apply Happ; [|exact IH].
  apply Forall_forall. intros i Hi%elem_of_seq. lia.
Qed.

Lemma adds_left_nolock n j held tmp :
  (j < VECTOR_SIZE)%nat -> adds_left j (mk_vt (concat (replicate n (vector_add_nolock 0 1))) held tmp) = Z.of_nat n.
Proof.
  intros Hj. unfold adds_left; cbn [vt_ops]. induction n as [|n IH]; [done|]. cbn [replicate concat].
  rewrite lsum_app, IH. unfold vector_add_nolock.
  assert (Hl : forall l, NoDup l -> lsum (fun op => match op with FetchAdd 0 i => if bool_decide (i = j) then 1 else 0 | _ => 0 end)
                 (i ← l; [LoadSrc 1 i; FetchAdd 0 i]) = if bool_decide (j ∈ l) then 1 else 0).
  { induction 1 as [|i l Hni _ IHl]; [done|]. rewrite bind_cons, lsum_app, IHl. cbn.
    destruct (decide (i = j)) as [->|Hij].
    - rewrite (bool_decide_eq_true_2 (j = j)), (bool_decide_eq_true_2 (j ∈ j :: l)), (bool_decide_eq_false_2 (j ∈ l)) by set_solver. lia.
    - rewrite (bool_decide_eq_false_2 (i = j)) by done.
      rewrite (bool_decide_ext (j ∈ i :: l) (j ∈ l)) by set_solver. lia. }
  rewrite Hl by apply NoDup_seq. rewrite bool_decide_eq_true_2 by (apply elem_of_seq; lia). lia.
Qed.

Lemma nolock_inv_init o :
  o_deadlock o = false -> o_parallel o = false ->
  nolock_inv (Z.of_nat (o_threads o * o_loops o)) (v_main vector_add_nolock o).1 (v_main vector_add_nolock o).2.
Proof.
  intros Hd Hp.
  assert (Hw : forall i, worker vector_add_nolock (o_loops o) (main_args o i)
            = mk_vt (concat (replicate (o_loops o) (vector_add_nolock 0 1))) [] 0).
  { intros i. unfold worker. by rewrite main_pair, Hd, Hp. }
  unfold v_main. cbn [fst snd]. split.
  - intros i t Hi. rewrite list_lookup_fmap in Hi. destruct (seq _ _ !! i); simplify_eq/=. rewrite Hw.
    left. apply alternates_nolock.
  - intros j Hj. assert (Hl : forall x v, v_init.(vs_v) !! x = Some v -> v_values v !! j = Some (Z.of_nat x)).
    { intros x v Hx. unfold v_init in Hx; cbn [vs_v] in Hx. rewrite list_lookup_fmap in Hx.
      destruct (seq _ _ !! x) as [y|] eqn:Hy; [|done]. apply lookup_seq in Hy as [-> _].
      injection Hx as <-. unfold vector_init; cbn [v_values]. by apply lookup_replicate. }
    unfold load. destruct (vs_v v_init !! 1%nat) as [v1|] eqn:H1; [|done].
    destruct (vs_v v_init !! 0%nat) as [v0|] eqn:H0; [|done]. simpl. rewrite (Hl _ _ H1), (Hl _ _ H0).
    split; [done|]. f_equal. rewrite lsum_fmap, (lsum_const _ (Z.of_nat (o_loops o))).
    + rewrite length_seq, Nat2Z.inj_mul, Z.sub_diag. done.
    + intros i _. rewrite Hw. by apply adds_left_nolock.
Qed.

(** vector-nolock.c needs no locks: when all threads add vector 1 to vector 0
    (the default options), no atomic addition is lost. From every state of every
    schedule all threads can run to their end, no thread ever waits, and when
    they have returned every element of vector 0 is the number of threads times
    the number of loops (as a 32-bit [int], which the builtin wraps around). *)
Theorem nolock_exact (o : v_opts) c :
  o_deadlock o = false -> o_parallel o = false ->
  rtc (sys_step v_step) (v_main vector_add_nolock o) c ->
  (forall i t, c.2 !! i = Some t -> v_finished t = true \/ is_Some (v_step c.1 t)) /\
  ((forall i t, c.2 !! i = Some t -> v_finished t = true) ->
     forall j, (j < VECTOR_SIZE)%nat -> load c.1 0 j = Some (swrap 32 (Z.of_nat (o_threads o * o_loops o)))) /\
  exists c', rtc (sys_step v_step) c c' /\ forall i t, c'.2 !! i = Some t -> v_finished t = true.
Proof.
  intros Hd Hp Hr. set (total := Z.of_nat (o_threads o * o_loops o)).
  assert (Hstep : forall s ls i t s' t', nolock_inv total s ls -> ls !! i = Some t -> v_step s t = Some (s', t') ->
            nolock_inv total s' (<[i := t']> ls) /\ (length (vt_ops t') < length (vt_ops t))%nat).
  { intros s ls i t s' t' HI Hi Hs. destruct (decide (vt_ops t = [])) as [E|Hne].
    { unfold v_step in Hs. by rewrite E in Hs. }
    destruct (adder_step _ _ _ _ _ HI Hi Hne) as (s1 & t1 & Hs1 & H1 & H2). rewrite Hs in Hs1. by simplify_eq. }
  assert (HI : nolock_inv total c.1 c.2).
  { pose proof (nolock_inv_init o Hd Hp) as H0. destruct (v_main vector_add_nolock o) as [s0 ls0], c as [s ls].
    refine (thread_invariant v_step (nolock_inv total) s0 ls0 H0 _ s ls Hr). intros. by eapply Hstep. }
  assert (Hcan : forall s ls i t, nolock_inv total s ls -> ls !! i = Some t ->
            v_finished t = true \/ is_Some (v_step s t)).
  { intros s ls i t HI' Hi. unfold v_finished. destruct (vt_ops t) as [|op ops] eqn:E; [by left|right].
    destruct (adder_step _ _ _ _ _ HI' Hi) as (s1 & t1 & -> & _); [by rewrite E|done]. }
  split_and!.
  - intros i t. by apply Hcan.
  - intros Hfin j Hj. destruct HI as [_ HI]. destruct (HI j Hj) as [_ ->].
    rewrite (lsum_const _ 0); [do 2 f_equal; lia|]. intros t [i Hi]%list_elem_of_lookup. specialize (Hfin i t Hi).
    unfold v_finished, adds_left in *. by destruct (vt_ops t).
  - apply (progress_reaches v_step (fun c => nolock_inv total c.1 c.2) (fun t => length (vt_ops t))); [..|done].
    + intros k k' Hk Hs. destruct Hs. by eapply Hstep.
    + intros s ls i t s' t' Hk Hi Hs. by eapply Hstep.
    + intros [s ls] Hk. destruct (list_find_dec (fun t => negb (v_finished t)) ls) as [(i & t & Hi & Ht)|Hno].
      * right. destruct (Hcan s ls i t Hk Hi) as [E|Hs]; [by rewrite E in Ht|]. by eapply thread_can_step.
      * left. intros i t Hi. specialize (Hno i t Hi). by destruct (v_finished t).
Qed.

(** ** Runs *)

(** The locks of [v_init] are free, and two threads that add vectors in opposite
    orders have each made some steps. *)
Definition opposite : list (list (nat * nat)) := [[(0, 1)%nat]; [(1, 0)%nat]].

Lemma global_order_no_deadlock_witness :
  let c := default (v_init, []) (run_sched v_step [0; 0]%nat
    (v_init, (fun cs => mk_vt (caller vector_add_global_order cs) [] 0) <$> opposite)) in
  ~ deadlocked c.
Proof.
  apply (global_order_no_deadlock v_init opposite); [exact v_init_free|].
  apply (run_sched_rtc _ [0; 0]%nat). vm_compute. reflexivity.
Defined.

Lemma hold_and_wait_no_deadlock_witness :
  let c := default (v_init, []) (run_sched v_step [1; 1]%nat
    (v_init, (fun cs => mk_vt (caller vector_add_hold_and_wait cs) [] 0) <$> opposite)) in
  ~ deadlocked c.
Proof.
  apply (hold_and_wait_no_deadlock v_init opposite); [exact v_init_free| |].
  - intros cs dst src Hcs Hin. apply list_elem_of_In in Hcs, Hin.
    destruct Hcs as [<-|[<-|[]]]; destruct Hin as [[= <- <-]|[]]; discriminate.
  - apply (run_sched_rtc _ [1; 1]%nat). vm_compute. reflexivity.
Defined.

Lemma nolock_exact_witness :
  let o := mk_opts 2 3 false false in
  exists c', rtc (sys_step v_step) (v_main vector_add_nolock o) c' /\
    forall i t, c'.2 !! i = Some t -> v_finished t = true.
Proof.
  intros o. apply (nolock_exact o (v_main vector_add_nolock o)); [reflexivity|reflexivity|apply rtc_refl].
Defined.

Lemma try_wait_livelocks_witness :
  run_sched v_step retry_round (both_hold 0 [] [] [] [] []) = Some (both_hold 2 [] [] [] [] []).
Proof. apply (proj2 try_wait_livelocks 0 [] [] [] [] []); reflexivity || discriminate. Defined.
