(* ===== verification/Barrier.v ===== *)
(** * 31_Semaphores/barrier.c

    [num_threads] children print "before", cross the barrier and print
    "after". Shared state is the [barrier_t] object and the output; a child's
    program counter names the statement it executes next. *)

From S2P Require Import Prelude Threads.

Record barrier_t := mk_barrier {
  b_count : Z;
  b_num_threads : Z;
  b_lock : Z;        (* sem_t *)
  b_barrier : Z      (* sem_t *)
}.

Definition barrier_init (num_threads : Z) : barrier_t := mk_barrier 0 num_threads 1 0.

Inductive b_msg := Before (thread_id : nat) | After (thread_id : nat).

#[export] Instance b_msg_eq_dec : EqDecision b_msg.
Proof. solve_decision. Defined.

Record b_shared := mk_b_shared { bs_b : barrier_t; bs_out : list b_msg }.

(** The statements of [child], with [barrier] inlined at its call. *)
Inductive b_pc :=
| B_before      (* printf before *)
| B_lock        (* Sem_wait(&b->lock) *)
| B_count       (* b->count++ *)
| B_check       (* if (b->count == b->num_threads) Sem_post(&b->barrier) *)
| B_unlock      (* Sem_post(&b->lock) *)
| B_wait        (* Sem_wait(&b->barrier) *)
| B_post        (* Sem_post(&b->barrier) *)
| B_after       (* printf after *)
| B_done.       (* return NULL *)

#[export] Instance b_pc_eq_dec : EqDecision b_pc.
Proof. solve_decision. Defined.

Record b_thread := mk_b_thread { bt_id : nat; bt_pc : b_pc }.

(** The accesses of [barrier] to its object. *)
Definition barrier_step (b : barrier_t) (pc : b_pc) : option (barrier_t * b_pc) :=
  match pc with
  | B_lock =>
      l ← sem_wait (b_lock b);
      Some (mk_barrier (b_count b) (b_num_threads b) l (b_barrier b), B_count)
  | B_count =>
      Some (mk_barrier (b_count b + 1) (b_num_threads b) (b_lock b) (b_barrier b), B_check)
  | B_check =>
      if b_count b =? b_num_threads b
      then Some (mk_barrier (b_count b) (b_num_threads b) (b_lock b) (sem_post (b_barrier b)), B_unlock)
      else Some (b, B_unlock)
  | B_unlock =>
      Some (mk_barrier (b_count b) (b_num_threads b) (sem_post (b_lock b)) (b_barrier b), B_wait)
  | B_wait =>
      w ← sem_wait (b_barrier b);
      Some (mk_barrier (b_count b) (b_num_threads b) (b_lock b) w, B_post)
  | B_post =>
      Some (mk_barrier (b_count b) (b_num_threads b) (b_lock b) (sem_post (b_barrier b)), B_after)
  | _ => None
  end.

Definition child_step (s : b_shared) (t : b_thread) : option (b_shared * b_thread) :=
  let goto pc := mk_b_thread (bt_id t) pc in
  match bt_pc t with
  | B_before => Some (mk_b_shared (bs_b s) (bs_out s ++ [Before (bt_id t)]), goto B_lock)
  | B_after => Some (mk_b_shared (bs_b s) (bs_out s ++ [After (bt_id t)]), goto B_done)
  | B_done => None
  | pc => '(b, pc') ← barrier_step (bs_b s) pc; Some (mk_b_shared b (bs_out s), goto pc')
  end.

(** [main] after [barrier_init] and its creation loop. *)
Definition barrier_main (num_threads : nat) : b_shared * list b_thread :=
  (mk_b_shared (barrier_init (Z.of_nat num_threads)) [],
   (fun i => mk_b_thread i B_before) <$> seq 0 num_threads).

(** ** Invariant *)

Notation cnt := (at_cnt bt_pc).

Definition crossed (ts : list b_thread) : Z := cnt B_post ts + cnt B_after ts + cnt B_done ts.

Definition counted (ts : list b_thread) : Z :=
  cnt B_check ts + cnt B_unlock ts + cnt B_wait ts + crossed ts.

(** The barrier is open: the last arrival has posted it. *)
Definition b_open (n : Z) (ts : list b_thread) : Z :=
  if (counted ts =? n) && (cnt B_check ts =? 0) then 1 else 0.

Definition barrier_inv (n : Z) (s : b_shared) (ts : list b_thread) : Prop :=
  let b := bs_b s in
  Z.of_nat (length ts) = n /\ b_num_threads b = n /\ 0 <= b_lock b /\ 0 <= b_barrier b /\
  b_lock b + cnt B_count ts + cnt B_check ts + cnt B_unlock ts = 1 /\
  b_count b = counted ts /\
  b_barrier b + cnt B_post ts = b_open n ts /\
  (0 < crossed ts -> b_open n ts = 1).

Lemma cnt_total ts :
  Z.of_nat (length ts) = cnt B_before ts + cnt B_lock ts + cnt B_count ts + counted ts.
Proof.
  unfold counted, crossed, at_cnt. induction ts as [|[id pc] ts IH]; [done|].
  simpl length. rewrite Nat2Z.inj_succ, IH. simpl. destruct pc; eval_inds; lia.
Qed.

(** Every count is a non-negative part of the total. *)
Ltac cnt_facts ts :=
  pose proof (cnt_total ts); pose proof (at_cnt_nonneg bt_pc B_before ts); pose proof (at_cnt_nonneg bt_pc B_lock ts);
  pose proof (at_cnt_nonneg bt_pc B_count ts); pose proof (at_cnt_nonneg bt_pc B_check ts);
  pose proof (at_cnt_nonneg bt_pc B_unlock ts); pose proof (at_cnt_nonneg bt_pc B_wait ts);
  pose proof (at_cnt_nonneg bt_pc B_post ts); pose proof (at_cnt_nonneg bt_pc B_after ts);
  pose proof (at_cnt_nonneg bt_pc B_done ts).

Lemma barrier_inv_init n :
  (0 < n)%nat -> barrier_inv (Z.of_nat n) (barrier_main n).1 (barrier_main n).2.
Proof.
  intros Hpos.
  assert (H : forall p, p <> B_before -> cnt p (barrier_main n).2 = 0).
  { intros p Hp. apply at_cnt_zero. intros t Ht.
    apply list_elem_of_fmap in Ht as (i & -> & _). simpl. congruence. }
  unfold barrier_inv, b_open, counted, crossed. rewrite !H by done. simpl.
  rewrite length_fmap, length_seq. split_tests; split_and!; lia.
Qed.

Lemma barrier_inv_step n i s ts t s' t' :
  barrier_inv n s ts -> ts !! i = Some t -> child_step s t = Some (s', t') ->
  barrier_inv n s' (<[i := t']> ts).
Proof.
  intros (Hlen & Hn & Hl0 & Hb0 & Hl & Hc & Hb & Ho) Hi Ht.
  destruct s as [[c nt lk br] out], t as [id pc]; simpl in *.
  cnt_facts ts. pose proof (at_cnt_lookup bt_pc _ ts i _ Hi eq_refl).
  unfold barrier_inv, b_open, counted, crossed in *. rewrite length_insert in *.
  rewrite !(at_cnt_insert bt_pc _ _ _ _ _ Hi) in *.
  unfold child_step in Ht. simpl in *.
  destruct (Z.eqb_spec (cnt B_check ts + cnt B_unlock ts + cnt B_wait ts +
    (cnt B_post ts + cnt B_after ts + cnt B_done ts)) n), (Z.eqb_spec (cnt B_check ts) 0);
    simpl in Hb, Ho; destruct pc; simpl in *; inv_sync;
    repeat case_match; simplify_eq/=; eval_inds; unfold sem_post in *;
    split_and!; try lia; split_tests; lia.
Qed.

(** What the output says about the children: an "after" comes when every
    child has printed its "before". *)
Definition barrier_out_inv (n : Z) (s : b_shared) (ts : list b_thread) : Prop :=
  barrier_inv n s ts /\
  (forall i t, ts !! i = Some t -> bt_id t = i /\ (bt_pc t <> B_before -> Before i ∈ bs_out s)) /\
  (forall i j, Z.of_nat j < n -> printed_before (After i) (Before j) (bs_out s)).

(** Once the barrier is open nobody is left before it. *)
Lemma crossed_all_counted n s ts i t :
  barrier_inv n s ts -> 0 < crossed ts -> ts !! i = Some t -> bt_pc t <> B_before.
Proof.
  intros (Hlen & _ & _ & _ & _ & _ & _ & Ho) Hc Hi Hpc. specialize (Ho Hc). unfold b_open in Ho.
  cnt_facts ts. destruct (Z.eqb_spec (counted ts) n); [|done].
  apply (at_cnt_none bt_pc B_before ts i t); [lia|done|done].
Qed.

(** What a step of [child] does to the output. *)
Lemma child_step_out s t s' t' :
  child_step s t = Some (s', t') ->
  bt_id t' = bt_id t /\
  ((bt_pc t = B_before /\ bs_out s' = bs_out s ++ [Before (bt_id t)]) \/
   (bt_pc t = B_after /\ bs_out s' = bs_out s ++ [After (bt_id t)]) \/
   (bt_pc t <> B_before /\ bs_out s' = bs_out s)).
Proof.
  unfold child_step. intros H. destruct t as [id pc]; simpl in *.
  destruct pc; simpl in *; inv_sync; repeat case_match; simplify_eq/=; naive_solver.
Qed.

Lemma barrier_out_step n i s ts t s' t' :
  barrier_out_inv n s ts -> ts !! i = Some t -> child_step s t = Some (s', t') ->
  barrier_out_inv n s' (<[i := t']> ts).
Proof.
  intros (HI & Hth & Hout) Hi Ht.
  pose proof (barrier_inv_step n i s ts t s' t' HI Hi Ht) as HI'.
  destruct (child_step_out s t s' t' Ht) as [Hid Hcase]. destruct (Hth i t Hi) as [Hti Hbi].
  assert (Hmono : forall m, m ∈ bs_out s -> m ∈ bs_out s').
  { intros m Hm. destruct Hcase as [[_ ->]|[[_ ->]|[_ ->]]]; set_solver. }
  split_and!; [done|..].
  - intros j u Hj. destruct (decide (i = j)) as [<-|Hne].
    + rewrite list_lookup_insert_eq in Hj by (by eapply lookup_lt_Some). simplify_eq.
      split; [congruence|]. intros _.
      destruct Hcase as [[_ ->]|[[E ->]|[E ->]]]; [set_solver|..]; [|by apply Hbi].
      apply elem_of_app; left. apply Hbi. by rewrite E.
    + rewrite list_lookup_insert_ne in Hj by done. destruct (Hth j u Hj) as [? Hb]. eauto.
  - intros k j Hjn. specialize (Hout k j Hjn).
    destruct Hcase as [[_ ->]|[[E ->]|[_ ->]]]; [by apply printed_before_snoc| |exact Hout].
    apply printed_before_snoc; [exact Hout|intros _].
    destruct (lookup_lt_is_Some_2 ts j) as [u Hu]; [destruct HI; lia|].
    apply (Hth j u Hu). apply (crossed_all_counted n s ts j u HI); [|exact Hu].
    pose proof (at_cnt_lookup bt_pc B_after ts i t Hi E). cnt_facts ts. unfold crossed. lia.
Qed.

Lemma barrier_reach n s ts :
  (0 < n)%nat -> rtc (sys_step child_step) (barrier_main n) (s, ts) ->
  barrier_out_inv (Z.of_nat n) s ts.
Proof.
  intros Hn. unfold barrier_main. apply thread_invariant.
  - split; [by apply (barrier_inv_init n)|]. split; simpl.
    + intros i t Hi. apply list_lookup_fmap_Some in Hi as (k & -> & Hk).
      apply lookup_seq in Hk as [-> _]. done.
    + intros i j _. apply printed_before_nil.
  - intros i s1 ts1 t s' t'. apply barrier_out_step.
Qed.

(** The barrier separates the phases: in every reachable state of every
    schedule of [num_threads > 0] children, before any "after" line of the
    output come the "before" lines of all the children. *)
Theorem barrier_separates_phases (n : nat) (s : b_shared) (ts : list b_thread) (i j : nat)
    (Hn : (0 < n)%nat) (Hj : (j < n)%nat)
    (Hr : rtc (sys_step child_step) (barrier_main n) (s, ts)) :
  printed_before (After i) (Before j) (bs_out s).
Proof. destruct (barrier_reach n s ts Hn Hr) as (_ & _ & H). apply H. lia. Qed.

(** Two children that run to the end, the second one first at the barrier. *)
Definition barrier_sched2 : list nat :=
  [0; 1; 1; 1; 1; 1; 0; 0; 0; 0; 1; 1; 0; 1; 0; 0]%nat.

Lemma barrier_separates_phases_witness :
  exists s ts,
    run_sched child_step barrier_sched2 (barrier_main 2) = Some (s, ts) /\
    bs_out s = [Before 0; Before 1; After 1; After 0] /\
    printed_before (After 1) (Before 0) (bs_out s).
Proof.
  destruct (run_sched child_step barrier_sched2 (barrier_main 2)) as [[s ts]|] eqn:E;
    [|vm_compute in E; discriminate].
  exists s, ts. split; [reflexivity|]. split; [vm_compute in E; injection E as <- <-; reflexivity|].
  apply (barrier_separates_phases 2 s ts 1 0 ltac:(lia) ltac:(lia)).
  by apply (run_sched_rtc _ barrier_sched2).
Defined.

(** ** Progress *)

(** Statements a child still has to execute. *)
Definition b_todo (t : b_thread) : nat :=
  match bt_pc t with
  | B_before => 8 | B_lock => 7 | B_count => 6 | B_check => 5 | B_unlock => 4
  | B_wait => 3 | B_post => 2 | B_after => 1 | B_done => 0
  end%nat.

Definition barrier_done (c : b_shared * list b_thread) : Prop :=
  forall i t, c.2 !! i = Some t -> bt_pc t = B_done.

Lemma child_step_todo s t s' t' : child_step s t = Some (s', t') -> (b_todo t' < b_todo t)%nat.
Proof.
  unfold child_step. intros H. destruct t as [id pc]; simpl in *.
  destruct pc; simpl in *; inv_sync; repeat case_match; simplify_eq/=; unfold b_todo; simpl; lia.
Qed.

(** The statements that never block. *)
Definition b_runnable (t : b_thread) : bool :=
  negb (bool_decide (bt_pc t ∈ [B_lock; B_wait; B_done])).

(** Nobody who can run without waiting: only blocked and finished children. *)
Lemma no_runnable_counts ts :
  (forall i t, ts !! i = Some t -> b_runnable t = false) ->
  Z.of_nat (length ts) = cnt B_lock ts + cnt B_wait ts + cnt B_done ts /\
  cnt B_count ts = 0 /\ cnt B_check ts = 0 /\ cnt B_unlock ts = 0 /\ cnt B_post ts = 0.
Proof.
  intros H.
  assert (Hz : forall p, p ∉ [B_lock; B_wait; B_done] -> cnt p ts = 0).
  { intros p Hp. destruct (decide (0 < cnt p ts)) as [Hpos|]; [|pose proof (at_cnt_nonneg bt_pc p ts); lia].
    destruct (at_cnt_exists bt_pc p ts Hpos) as (i & t & Hi & <-). apply H in Hi.
    unfold b_runnable in Hi. rewrite bool_decide_eq_false_2 in Hi by done. done. }
  rewrite cnt_total. unfold counted, crossed.
  rewrite (Hz B_before), (Hz B_count), (Hz B_check), (Hz B_unlock), (Hz B_post), (Hz B_after)
    by set_solver. lia.
Qed.

Lemma barrier_progress n s ts :
  barrier_inv n s ts -> barrier_done (s, ts) \/ exists c', sys_step child_step (s, ts) c'.
Proof.
  intros (Hlen & _ & Hl0 & Hb0 & Hl & Hc & Hb & Ho).
  destruct (list_find_dec b_runnable ts) as [(i & t & Hi & Ht)|Hnone].
  { right. eapply thread_can_step; [done|]. destruct s as [[c nt lk br] out], t as [id pc].
    unfold b_runnable in Ht. unfold child_step. destruct pc; simpl in *; try done;
      repeat case_match; eauto. }
  destruct (no_runnable_counts ts Hnone) as (Htot & Hz1 & Hz2 & Hz3 & Hz4).
  destruct (decide (0 < cnt B_lock ts)) as [Hlk|].
  { right. destruct (at_cnt_exists bt_pc _ _ Hlk) as (i & [id pc] & Hi & Hpc); simpl in Hpc; subst pc.
    eapply thread_can_step; [done|]. unfold child_step; simpl.
    rewrite sem_wait_pos by lia. eauto. }
  destruct (decide (0 < cnt B_wait ts)) as [Hw|].
  { right. destruct (at_cnt_exists bt_pc _ _ Hw) as (i & [id pc] & Hi & Hpc); simpl in Hpc; subst pc.
    eapply thread_can_step; [done|]. unfold child_step; simpl.
    cnt_facts ts. rewrite sem_wait_pos; [eauto|].
    unfold b_open, counted, crossed in *. split_tests; lia. }
  left. intros i t Hi. specialize (Hnone i t Hi). unfold b_runnable in Hnone.
  cnt_facts ts.
  assert (bt_pc t <> B_lock) by (apply (at_cnt_none bt_pc B_lock ts i); [lia|done]).
  assert (bt_pc t <> B_wait) by (apply (at_cnt_none bt_pc B_wait ts i); [lia|done]).
  destruct t as [id pc]; destruct pc; simpl in *; done.
Qed.

(** The barrier neither deadlocks nor runs forever: an execution of
    [num_threads > 0] children has at most 8 steps per child, and from every
    state that some schedule reaches all the children can still return. *)
Theorem barrier_terminates (n : nat) (s : b_shared) (ts : list b_thread) (k : nat)
    (Hn : (0 < n)%nat) (Hr : nsteps (sys_step child_step) k (barrier_main n) (s, ts)) :
  (k <= 8 * n)%nat /\
  exists c', rtc (sys_step child_step) (s, ts) c' /\ barrier_done c'.
Proof.
  set (P := fun c : b_shared * list b_thread => barrier_inv (Z.of_nat n) c.1 c.2).
  assert (HP : forall c c', P c -> sys_step child_step c c' -> P c').
  { intros c c' Hc Hs. destruct Hs as [i s1 ts1 t s' t' Hi Ht]. by eapply barrier_inv_step. }
  assert (Hm : forall s ts i t s' t', P (s, ts) -> ts !! i = Some t ->
    child_step s t = Some (s', t') -> (b_todo t' < b_todo t)%nat)
    by (intros; by eapply child_step_todo).
  split.
  - pose proof (measure_bounds_runs child_step P b_todo k _ _ HP Hm (barrier_inv_init n Hn) Hr) as Hb.
    pose proof (lsum_nonneg (fun t => Z.of_nat (b_todo t)) ts ltac:(intros; simpl; lia)).
    unfold barrier_main in Hb; simpl in Hb.
    rewrite (lsum_const _ 8 (_ <$> _)), length_fmap, length_seq in Hb; [lia|].
    intros t Ht. apply list_elem_of_fmap in Ht as (i & -> & _). done.
  - apply (progress_reaches child_step P b_todo barrier_done _ HP Hm).
    + intros [s1 ts1] Hc. by eapply barrier_progress.
    + unfold P; simpl. eapply barrier_reach; [done|]. by eapply rtc_nsteps_2.
Qed.

Lemma barrier_terminates_witness :
  (0 <= 8 * 3)%nat /\
  exists c', rtc (sys_step child_step) (barrier_main 3) c' /\ barrier_done c'.
Proof.
  apply (barrier_terminates 3 (barrier_main 3).1 (barrier_main 3).2 0 ltac:(lia)).
  apply nsteps_O.
Defined.
