(* ===== verification/ReaderWriter.v ===== *)
(** * 31_Semaphores/reader-writer.c

    The reader-writer lock made of two semaphores and a reader count, and the
    program that uses it: [num_readers] readers print [value] [loops] times
    under the read lock, [num_writers] writers increment it [loops] times under
    the write lock. A thread's program counter names the statement it executes
    next; [value++] is two steps, a load and a store, so that the theorem on
    the final value rests on the lock; it is undefined when the [int] overflows. *)

From S2P Require Import Prelude Threads.

Record rwlock_t := mk_rwlock {
  rw_lock : Z;          (* sem_t *)
  rw_write_lock : Z;    (* sem_t *)
  rw_num_readers : Z
}.

Definition rwlock_init : rwlock_t := mk_rwlock 1 1 0.

Inductive rw_msg := Read (v : Z) | Write (v : Z).

Record rw_shared := mk_rw_shared {
  rws_lock : rwlock_t;
  rws_value : Z;
  rws_out : list rw_msg
}.

Inductive rw_pc :=
(* reader: for (i = 0; i < loops; i++) *)
| R_loop
(* rwlock_acquire_readlock *)
| R_lock | R_inc | R_check | R_wwait | R_unlock
(* printf *)
| R_read
(* rwlock_release_readlock *)
| R_rlock | R_dec | R_rcheck | R_wpost | R_runlock
(* writer: for (i = 0; i < loops; i++) *)
| W_loop
(* rwlock_acquire_writelock, value++, printf, rwlock_release_writelock *)
| W_wait | W_load | W_store | W_print | W_post
(* return NULL *)
| R_done | W_done.

#[export] Instance rw_pc_eq_dec : EqDecision rw_pc.
Proof. solve_decision. Defined.

(** [rwt_i] is the loop counter, [rwt_tmp] the value a writer has loaded. *)
Record rw_thread := mk_rw_thread { rwt_pc : rw_pc; rwt_i : Z; rwt_tmp : Z }.

Definition rwlock_acquire_readlock_step (rw : rwlock_t) (pc : rw_pc) : option (rwlock_t * rw_pc) :=
  match pc with
  | R_lock =>
      l ← sem_wait (rw_lock rw); Some (mk_rwlock l (rw_write_lock rw) (rw_num_readers rw), R_inc)
  | R_inc =>
      Some (mk_rwlock (rw_lock rw) (rw_write_lock rw) (rw_num_readers rw + 1), R_check)
  | R_check => Some (rw, if rw_num_readers rw =? 1 then R_wwait else R_unlock)
  | R_wwait =>
      w ← sem_wait (rw_write_lock rw); Some (mk_rwlock (rw_lock rw) w (rw_num_readers rw), R_unlock)
  | R_unlock =>
      Some (mk_rwlock (sem_post (rw_lock rw)) (rw_write_lock rw) (rw_num_readers rw), R_read)
  | _ => None
  end.

(** The last statement goes back to the reader's loop test. *)
Definition rwlock_release_readlock_step (rw : rwlock_t) (pc : rw_pc) : option (rwlock_t * rw_pc) :=
  match pc with
  | R_rlock =>
      l ← sem_wait (rw_lock rw); Some (mk_rwlock l (rw_write_lock rw) (rw_num_readers rw), R_dec)
  | R_dec =>
      Some (mk_rwlock (rw_lock rw) (rw_write_lock rw) (rw_num_readers rw - 1), R_rcheck)
  | R_rcheck => Some (rw, if rw_num_readers rw =? 0 then R_wpost else R_runlock)
  | R_wpost =>
      Some (mk_rwlock (rw_lock rw) (sem_post (rw_write_lock rw)) (rw_num_readers rw), R_runlock)
  | R_runlock =>
      Some (mk_rwlock (sem_post (rw_lock rw)) (rw_write_lock rw) (rw_num_readers rw), R_loop)
  | _ => None
  end.

Definition rwlock_acquire_writelock (rw : rwlock_t) : option rwlock_t :=
  w ← sem_wait (rw_write_lock rw); Some (mk_rwlock (rw_lock rw) w (rw_num_readers rw)).

Definition rwlock_release_writelock (rw : rwlock_t) : rwlock_t :=
  mk_rwlock (rw_lock rw) (sem_post (rw_write_lock rw)) (rw_num_readers rw).

Definition reader_step (loops : Z) (s : rw_shared) (t : rw_thread)
  : option (rw_shared * rw_thread) :=
  let rw := rws_lock s in
  match rwt_pc t with
  | R_loop =>
      Some (s, mk_rw_thread (if rwt_i t <? loops then R_lock else R_done) (rwt_i t) (rwt_tmp t))
  | R_read =>
      Some (mk_rw_shared rw (rws_value s) (rws_out s ++ [Read (rws_value s)]),
            mk_rw_thread R_rlock (rwt_i t) (rwt_tmp t))
  | R_lock | R_inc | R_check | R_wwait | R_unlock =>
      '(rw', pc) ← rwlock_acquire_readlock_step rw (rwt_pc t);
      Some (mk_rw_shared rw' (rws_value s) (rws_out s), mk_rw_thread pc (rwt_i t) (rwt_tmp t))
  | R_rlock | R_dec | R_rcheck | R_wpost =>
      '(rw', pc) ← rwlock_release_readlock_step rw (rwt_pc t);
      Some (mk_rw_shared rw' (rws_value s) (rws_out s), mk_rw_thread pc (rwt_i t) (rwt_tmp t))
  | R_runlock =>
      '(rw', pc) ← rwlock_release_readlock_step rw R_runlock;
      Some (mk_rw_shared rw' (rws_value s) (rws_out s), mk_rw_thread pc (rwt_i t + 1) (rwt_tmp t))
  | _ => None
  end.

Definition writer_step (loops : Z) (s : rw_shared) (t : rw_thread)
  : option (rw_shared * rw_thread) :=
  let rw := rws_lock s in
  match rwt_pc t with
  | W_loop =>
      Some (s, mk_rw_thread (if rwt_i t <? loops then W_wait else W_done) (rwt_i t) (rwt_tmp t))
  | W_wait =>
      rw' ← rwlock_acquire_writelock rw;
      Some (mk_rw_shared rw' (rws_value s) (rws_out s), mk_rw_thread W_load (rwt_i t) (rwt_tmp t))
  | W_load => Some (s, mk_rw_thread W_store (rwt_i t) (rws_value s))
  | W_store =>
      v ← chk_s 32 (rwt_tmp t + 1);
      Some (mk_rw_shared rw v (rws_out s), mk_rw_thread W_print (rwt_i t) (rwt_tmp t))
  | W_print =>
      Some (mk_rw_shared rw (rws_value s) (rws_out s ++ [Write (rws_value s)]),
            mk_rw_thread W_post (rwt_i t) (rwt_tmp t))
  | W_post =>
      Some (mk_rw_shared (rwlock_release_writelock rw) (rws_value s) (rws_out s),
            mk_rw_thread W_loop (rwt_i t + 1) (rwt_tmp t))
  | _ => None
  end.

Definition is_writer_pc (p : rw_pc) : bool :=
  match p with
  | W_loop | W_wait | W_load | W_store | W_print | W_post | W_done => true
  | _ => false
  end.

Definition rw_step (loops : Z) (s : rw_shared) (t : rw_thread) : option (rw_shared * rw_thread) :=
  if is_writer_pc (rwt_pc t) then writer_step loops s t else reader_step loops s t.

(** [main] after [rwlock_init] and its two creation loops. *)
Definition rw_main (num_readers num_writers : nat) : rw_shared * list rw_thread :=
  (mk_rw_shared rwlock_init 0 [],
   replicate num_readers (mk_rw_thread R_loop 0 0) ++
   replicate num_writers (mk_rw_thread W_loop 0 0)).

(** ** The lock's invariant *)

Notation rwc := (at_cnt rwt_pc).

(** Threads that hold the semaphore [lock]. *)
Definition in_lock (ts : list rw_thread) : Z :=
  rwc R_inc ts + rwc R_check ts + rwc R_wwait ts + rwc R_unlock ts +
  rwc R_dec ts + rwc R_rcheck ts + rwc R_wpost ts + rwc R_runlock ts.

(** Threads the reader count counts. *)
Definition counted_readers (ts : list rw_thread) : Z :=
  rwc R_check ts + rwc R_wwait ts + rwc R_unlock ts + rwc R_read ts + rwc R_rlock ts + rwc R_dec ts.

(** Writers inside their critical section. *)
Definition in_write (ts : list rw_thread) : Z :=
  rwc W_load ts + rwc W_store ts + rwc W_print ts + rwc W_post ts.

(** Whether the readers, as a group, hold the semaphore [write_lock]: [num]
    counts them, [arriving] of them are about to take it, [leaving] about to
    give it back. *)
Definition readers_hold (num arriving leaving : Z) : Z :=
  if 0 <? leaving then 1
  else if num =? 0 then 0
  else if (num =? 1) && (0 <? arriving) then 0 else 1.

Definition rw_inv (s : rw_shared) (ts : list rw_thread) : Prop :=
  let rw := rws_lock s in
  0 <= rw_lock rw /\ 0 <= rw_write_lock rw /\
  rw_lock rw + in_lock ts = 1 /\
  rw_num_readers rw = counted_readers ts /\
  rw_write_lock rw + in_write ts +
    readers_hold (rw_num_readers rw) (rwc R_check ts + rwc R_wwait ts)
                 (rwc R_rcheck ts + rwc R_wpost ts) = 1 /\
  (0 < rwc R_wwait ts -> rw_num_readers rw = 1) /\
  (0 < rwc R_wpost ts -> rw_num_readers rw = 0).

Ltac rwc_facts ts :=
  pose proof (at_cnt_nonneg rwt_pc R_inc ts); pose proof (at_cnt_nonneg rwt_pc R_check ts);
  pose proof (at_cnt_nonneg rwt_pc R_wwait ts); pose proof (at_cnt_nonneg rwt_pc R_unlock ts);
  pose proof (at_cnt_nonneg rwt_pc R_read ts); pose proof (at_cnt_nonneg rwt_pc R_rlock ts);
  pose proof (at_cnt_nonneg rwt_pc R_dec ts); pose proof (at_cnt_nonneg rwt_pc R_rcheck ts);
  pose proof (at_cnt_nonneg rwt_pc R_wpost ts); pose proof (at_cnt_nonneg rwt_pc R_runlock ts);
  pose proof (at_cnt_nonneg rwt_pc W_load ts); pose proof (at_cnt_nonneg rwt_pc W_store ts);
  pose proof (at_cnt_nonneg rwt_pc W_print ts); pose proof (at_cnt_nonneg rwt_pc W_post ts).

Lemma rw_inv_init r w : rw_inv (rw_main r w).1 (rw_main r w).2.
Proof.
  assert (H : forall p, p <> R_loop -> p <> W_loop -> rwc p (rw_main r w).2 = 0).
  { intros p Hr Hw. apply at_cnt_zero. intros t Ht. unfold rw_main in Ht; simpl in Ht.
    rewrite elem_of_app, !elem_of_replicate in Ht. naive_solver. }
  unfold rw_inv, in_lock, counted_readers, in_write, readers_hold. rewrite !H by done. simpl.
  split_and!; lia.
Qed.

(** A step of the program, by the statement executed. *)
Ltac rw_cases Ht :=
  unfold rw_step, reader_step, writer_step, rwlock_acquire_readlock_step,
    rwlock_release_readlock_step, rwlock_acquire_writelock, rwlock_release_writelock in Ht;
  match type of Ht with
  | context [rwt_pc ?t] => destruct t as [pc ii tmp]; destruct pc
  end; simpl in Ht; inv_sync;
  try match type of Ht with
  | context [chk_s ?w ?x] =>
      let E := fresh "Hck" in destruct (chk_s w x) eqn:E; simpl in Ht; [apply chk_s_Some in E as [-> ?]|discriminate Ht]
  end; repeat case_match; simplify_eq/=.

Lemma rw_inv_step loops i s ts t s' t' :
  rw_inv s ts -> ts !! i = Some t -> rw_step loops s t = Some (s', t') ->
  rw_inv s' (<[i := t']> ts).
Proof.
  intros (Hl0 & Hw0 & Hl & Hn & Hw & Hww & Hwp) Hi Ht.
  destruct s as [[lk wl nr] v out]; simpl in *.
  rwc_facts ts. pose proof (at_cnt_lookup rwt_pc _ ts i t Hi eq_refl).
  unfold rw_inv, in_lock, counted_readers, in_write in *.
  rewrite !(at_cnt_insert rwt_pc _ _ _ _ _ Hi) in *.
  unfold readers_hold in Hw.
  destruct (Z.ltb_spec 0 (rwc R_rcheck ts + rwc R_wpost ts));
    [|destruct (Z.eqb_spec nr 0); [|destruct (Z.eqb_spec nr 1);
      [destruct (Z.ltb_spec 0 (rwc R_check ts + rwc R_wwait ts))|]]]; simpl in Hw;
    rw_cases Ht; eval_inds; unfold sem_post, readers_hold in *;
    split_and!; try lia; split_tests; lia.
Qed.

(** ** The program's invariant *)

(** Increments a writer has made. *)
Definition incs (t : rw_thread) : Z :=
  match rwt_pc t with
  | W_loop | W_wait | W_load | W_store | W_done => rwt_i t
  | W_print | W_post => rwt_i t + 1
  | _ => 0
  end.

(** The loop counter is where the statement says. *)
Definition rwt_ok (loops value : Z) (t : rw_thread) : Prop :=
  match rwt_pc t with
  | R_loop | W_loop => 0 <= rwt_i t <= loops
  | R_done | W_done => rwt_i t = loops
  | W_store => 0 <= rwt_i t < loops /\ rwt_tmp t = value
  | _ => 0 <= rwt_i t < loops
  end.

Definition is_writer (t : rw_thread) : bool := is_writer_pc (rwt_pc t).

Definition rw_prog_inv (loops nw : Z) (s : rw_shared) (ts : list rw_thread) : Prop :=
  rw_inv s ts /\ lsum (ind is_writer) ts = nw /\
  (forall i t, ts !! i = Some t -> rwt_ok loops (rws_value s) t) /\
  rws_value s = lsum incs ts.

(** The statements of a writer's critical section. *)
Definition write_pcs : list rw_pc := [W_load; W_store; W_print; W_post].

Lemma in_write_lookup ts i t : ts !! i = Some t -> rwt_pc t ∈ write_pcs -> 1 <= in_write ts.
Proof.
  intros Hi Hp. rwc_facts ts. pose proof (at_cnt_lookup rwt_pc _ ts i t Hi eq_refl) as Hk.
  unfold in_write, write_pcs in *.
  rewrite !elem_of_cons in Hp. destruct Hp as [E|[E|[E|[E|E]]]]; [..|by inversion E];
    rewrite E in Hk; lia.
Qed.

(** At most one writer is in its critical section. *)
Lemma in_write_unique s ts i j t u :
  rw_inv s ts -> i <> j -> ts !! i = Some t -> ts !! j = Some u ->
  rwt_pc t ∈ write_pcs -> rwt_pc u ∈ write_pcs -> False.
Proof.
  intros (_ & Hw0 & _ & _ & Hw & _) Hij Hi Hj Ht Hu.
  assert (2 <= in_write ts).
  { pose proof (in_write_lookup (<[i := mk_rw_thread R_done 0 0]> ts) j u
      ltac:(by rewrite list_lookup_insert_ne) Hu) as H.
    unfold in_write in *. rewrite !(at_cnt_insert rwt_pc _ _ _ _ _ Hi) in H. rwc_facts ts.
    destruct t as [pc ii tmp]; unfold write_pcs in Ht; simpl in Ht.
    rewrite !elem_of_cons in Ht. destruct Ht as [->|[->|[->|[->|E]]]]; [..|by inversion E];
      eval_inds; lia. }
  assert (0 <= readers_hold (rw_num_readers (rws_lock s)) (rwc R_check ts + rwc R_wwait ts)
    (rwc R_rcheck ts + rwc R_wpost ts)) by (unfold readers_hold; repeat case_match; lia).
  lia.
Qed.

(** No reader reads while a writer is in its critical section. *)
Lemma no_reader_in_write s ts i j t u :
  rw_inv s ts -> ts !! i = Some t -> ts !! j = Some u ->
  rwt_pc t ∈ write_pcs -> rwt_pc u <> R_read.
Proof.
  intros (_ & Hw0 & _ & Hn & Hw & _ & Hwp) Hi Hj Ht Hu.
  pose proof (in_write_lookup ts i t Hi Ht). pose proof (at_cnt_lookup rwt_pc R_read ts j u Hj Hu).
  rwc_facts ts. unfold readers_hold, counted_readers in *. split_tests; lia.
Qed.

Lemma rw_prog_step loops nw i s ts t s' t' :
  rw_prog_inv loops nw s ts -> ts !! i = Some t -> rw_step loops s t = Some (s', t') ->
  rw_prog_inv loops nw s' (<[i := t']> ts).
Proof.
  intros (HI & Hnw & Hok & Hv) Hi Ht.
  pose proof (rw_inv_step loops i s ts t s' t' HI Hi Ht) as HI'.
  pose proof (Hok i t Hi) as Hti.
  assert (Ht' : ind is_writer t' = ind is_writer t /\ rwt_ok loops (rws_value s') t' /\
    rws_value s' = rws_value s - incs t + incs t' /\
    (rws_value s' = rws_value s \/ rwt_pc t = W_store)).
  { clear - Ht Hti. destruct s as [rw v out].
    rw_cases Ht; unfold rwt_ok, incs in *; simpl in *; eval_inds; split_tests;
      (split; [lia|split; [lia|split; [lia|first [left; reflexivity|right; reflexivity]]]]). }
  destruct Ht' as (Hw' & Hok' & Hv' & Hch). split_and!; [done|..].
  - rewrite (lsum_insert _ _ _ _ _ Hi). lia.
  - intros j u Hj. destruct (decide (i = j)) as [<-|Hne].
    + rewrite list_lookup_insert_eq in Hj by (by eapply lookup_lt_Some). by simplify_eq.
    + rewrite list_lookup_insert_ne in Hj by done.
      destruct Hch as [->|Hst]; [by eapply Hok|].
      pose proof (Hok j u Hj) as Huok. unfold rwt_ok in *. destruct (rwt_pc u) eqn:Eu; try done.
      exfalso. eapply (in_write_unique s ts i j t u); try done;
        rewrite ?Hst, ?Eu; unfold write_pcs; set_solver.
  - rewrite (lsum_insert _ _ _ _ _ Hi). lia.
Qed.

Lemma rw_prog_init loops r w :
  0 <= loops -> rw_prog_inv loops (Z.of_nat w) (rw_main r w).1 (rw_main r w).2.
Proof.
  intros Hl. split_and!; [apply rw_inv_init|..]; simpl.
  - rewrite lsum_app, !lsum_replicate. eval_inds. lia.
  - intros i t Hi. apply lookup_app_Some in Hi as [Hi|[_ Hi]];
      apply lookup_replicate in Hi as [-> _]; unfold rwt_ok; simpl; lia.
  - rewrite lsum_app, !lsum_replicate. unfold incs; simpl. lia.
Qed.

Lemma rw_reach loops r w s ts :
  0 <= loops -> rtc (sys_step (rw_step loops)) (rw_main r w) (s, ts) ->
  rw_prog_inv loops (Z.of_nat w) s ts.
Proof.
  intros Hl. unfold rw_main. apply thread_invariant; [by apply (rw_prog_init loops r w)|].
  intros. by eapply rw_prog_step.
Qed.

(** C11. The lock excludes: in every reachable state, while a writer is in its
    critical section (between [rwlock_acquire_writelock] and
    [rwlock_release_writelock]) no other writer is in its own and no reader is
    between [rwlock_acquire_readlock] and [rwlock_release_readlock]. *)
Theorem rwlock_excludes (loops : Z) (r w : nat) (s : rw_shared) (ts : list rw_thread)
    (i j : nat) (t u : rw_thread)
    (Hl : 0 <= loops) (Hr : rtc (sys_step (rw_step loops)) (rw_main r w) (s, ts))
    (Hi : ts !! i = Some t) (Hj : ts !! j = Some u) (Hij : i <> j)
    (Ht : rwt_pc t ∈ write_pcs) :
  rwt_pc u ∉ write_pcs /\ rwt_pc u <> R_read.
Proof.
  destruct (rw_reach loops r w s ts Hl Hr) as (HI & _). split.
  - intros Hu. by eapply (in_write_unique s ts i j t u).
  - by eapply (no_reader_in_write s ts i j t u).
Qed.

(** One reader waits for the lock a writer holds. *)
Definition rw_sched_write : list nat := [1; 1; 1; 0; 0; 0; 0]%nat.

Lemma rwlock_excludes_witness :
  exists s ts t u,
    run_sched (rw_step 1) rw_sched_write (rw_main 1 1) = Some (s, ts) /\
    ts !! 1%nat = Some t /\ ts !! 0%nat = Some u /\
    rwt_pc t = W_store /\ rwt_pc u = R_wwait /\
    (rwt_pc u ∉ write_pcs /\ rwt_pc u <> R_read).
Proof.
  destruct (run_sched (rw_step 1) rw_sched_write (rw_main 1 1)) as [[s ts]|] eqn:E;
    [|vm_compute in E; discriminate].
  assert (Hu : ts !! 0%nat = Some (mk_rw_thread R_wwait 0 0))
    by (vm_compute in E; injection E as <- <-; reflexivity).
  assert (Ht : ts !! 1%nat = Some (mk_rw_thread W_store 0 0))
    by (vm_compute in E; injection E as <- <-; reflexivity).
  exists s, ts, (mk_rw_thread W_store 0 0), (mk_rw_thread R_wwait 0 0).
  split; [reflexivity|]. split; [exact Ht|]. split; [exact Hu|].
  split; [reflexivity|]. split; [reflexivity|].
  apply (rwlock_excludes 1 1 1 s ts 1 0 (mk_rw_thread W_store 0 0) (mk_rw_thread R_wwait 0 0));
    [lia| |exact Ht|exact Hu|lia|unfold write_pcs; set_solver].
  by apply (run_sched_rtc _ rw_sched_write).
Defined.

Definition rw_finished (c : rw_shared * list rw_thread) : Prop :=
  forall i t, c.2 !! i = Some t -> rwt_pc t = R_done \/ rwt_pc t = W_done.

(** No increment is lost: when all the threads have returned, [value] is
    [num_writers * loops], whatever the schedule. *)
Theorem rw_final_value (loops : Z) (r w : nat) (s : rw_shared) (ts : list rw_thread)
    (Hl : 0 <= loops) (Hr : rtc (sys_step (rw_step loops)) (rw_main r w) (s, ts))
    (Hend : rw_finished (s, ts)) :
  rws_value s = Z.of_nat w * loops.
Proof.
  destruct (rw_reach loops r w s ts Hl Hr) as (_ & Hw & Hok & ->).
  rewrite (lsum_ext incs (fun t => loops * ind is_writer t)).
  - rewrite lsum_scale, Hw. lia.
  - intros t (i & Hi)%list_elem_of_lookup. specialize (Hok i t Hi).
    unfold rwt_ok, incs, ind, is_writer in *.
    destruct (Hend i t Hi) as [E|E]; rewrite E in *; simpl; lia.
Qed.

(** Two writers and a reader, interleaved, each running twice. *)
Definition rw_sched_all : list nat :=
  concat (replicate 2 [1; 1; 2; 1; 1; 1; 1; 2; 2; 2; 2; 2; 0; 0; 0; 0; 0; 0; 0; 0; 0; 0; 0; 0])%nat
  ++ [0; 1; 2]%nat.

Lemma rw_final_value_witness :
  exists s ts,
    run_sched (rw_step 2) rw_sched_all (rw_main 1 2) = Some (s, ts) /\
    rws_value s = Z.of_nat 2 * 2.
Proof.
  destruct (run_sched (rw_step 2) rw_sched_all (rw_main 1 2)) as [[s ts]|] eqn:E;
    [|vm_compute in E; discriminate].
  exists s, ts. split; [reflexivity|].
  apply (rw_final_value 2 1 2 s ts ltac:(lia)); [by apply (run_sched_rtc _ rw_sched_all)|].
  vm_compute in E. injection E as <- <-.
  intros i t Hi. simpl in Hi.
  destruct i as [|[|[|i]]]; simpl in Hi; simplify_eq; simpl; auto.
Defined.

(** ** Progress *)

(** A bound on the statements a thread still executes. *)
Definition rw_todo (loops : Z) (t : rw_thread) : nat :=
  let round k := Z.to_nat (12 * (loops - rwt_i t) - k) in
  match rwt_pc t with
  | R_loop | W_loop => round (-1)
  | R_lock | W_wait => round 0
  | R_inc | W_load => round 1
  | R_check | W_store => round 2
  | R_wwait | W_print => round 3
  | R_unlock | W_post => round 4
  | R_read => round 5
  | R_rlock => round 6
  | R_dec => round 7
  | R_rcheck => round 8
  | R_wpost => round 9
  | R_runlock => round 10
  | R_done | W_done => 0
  end.

Lemma rw_step_todo loops v s t s' t' :
  rwt_ok loops v t -> rw_step loops s t = Some (s', t') -> (rw_todo loops t' < rw_todo loops t)%nat.
Proof.
  intros Hok Ht. destruct s as [rw v0 out].
  rw_cases Ht; unfold rwt_ok, rw_todo in *; simpl in *; split_tests; lia.
Qed.

(** The statements that can wait. *)
Definition rw_may_wait (t : rw_thread) : bool :=
  match rwt_pc t with R_lock | R_wwait | R_rlock | W_wait | R_done | W_done => true | _ => false end.

(** [value] has room for the increment of a writer that is about to store it. *)
Lemma rw_store_room loops nw s ts i t :
  0 <= loops -> rw_prog_inv loops nw s ts -> ts !! i = Some t -> rwt_pc t = W_store ->
  0 <= rwt_tmp t /\ rwt_tmp t + 1 <= nw * loops.
Proof.
  intros Hl (_ & Hnw & Hok & Hv) Hi Hpc. pose proof (Hok i t Hi) as Hti. unfold rwt_ok in Hti. rewrite Hpc in Hti.
  destruct Hti as [Hlt ->]. pose proof (lsum_insert incs ts i t (mk_rw_thread W_print (rwt_i t) 0) Hi) as Hins.
  assert (He : incs t = rwt_i t) by (unfold incs; by rewrite Hpc).
  assert (Hpt : forall u, u ∈ ts -> 0 <= incs u <= loops * ind is_writer u).
  { intros u (j & Hj)%list_elem_of_lookup. specialize (Hok j u Hj).
    unfold rwt_ok, incs, ind, is_writer in *. destruct (rwt_pc u); simpl; lia. }
  assert (Hle : lsum incs (<[i := mk_rw_thread W_print (rwt_i t) 0]> ts)
    <= lsum (fun u => loops * ind is_writer u) (<[i := mk_rw_thread W_print (rwt_i t) 0]> ts)).
  { apply lsum_le. intros u (j & Hj)%list_elem_of_lookup.
    apply list_lookup_insert_Some in Hj as [(_ & <- & _)|[_ Hj]]; [unfold incs, ind, is_writer; simpl; lia|].
    by apply Hpt, list_elem_of_lookup; eexists. }
  rewrite lsum_scale, (lsum_insert (ind is_writer) _ _ _ _ Hi), Hnw in Hle.
  assert (Hw : ind is_writer t = 1) by (unfold ind, is_writer; by rewrite Hpc).
  assert (Hw' : ind is_writer (mk_rw_thread W_print (rwt_i t) 0) = 1) by done.
  assert (He' : incs (mk_rw_thread W_print (rwt_i t) 0) = rwt_i t + 1) by done.
  rewrite Hw, Hw' in Hle. split; [|rewrite Z.mul_comm; lia]. rewrite Hv. clear - Hpt. induction ts as [|u ts IH]; [simpl; lia|]. rewrite lsum_cons.
  pose proof (Hpt u ltac:(by left)). assert (0 <= lsum incs ts) by (apply IH; intros; apply Hpt; by right). lia.
Qed.

Lemma rw_runnable_step loops s t :
  rw_may_wait t = false -> (rwt_pc t = W_store -> in_s 32 (rwt_tmp t + 1)) -> is_Some (rw_step loops s t).
Proof.
  destruct s as [rw v out], t as [pc i tmp]. unfold rw_may_wait; simpl. intros Hm Hck.
  destruct pc; simpl; try done; unfold rw_step, reader_step, writer_step; simpl; eauto.
  rewrite chk_s_ok by auto. simpl. eauto.
Qed.

Lemma rw_progress loops nw s ts :
  0 <= loops -> nw * loops < 2 ^ 31 -> rw_prog_inv loops nw s ts ->
  rw_finished (s, ts) \/ exists c', sys_step (rw_step loops) (s, ts) c'.
Proof.
  intros Hlp Hroom HP. pose proof HP as ((Hl0 & Hw0 & Hl & Hn & Hw & Hww & Hwp) & _).
  destruct (list_find_dec (fun t => negb (rw_may_wait t)) ts) as [(i & t & Hi & Ht)|Hnone].
  { right. eapply thread_can_step; [done|]. apply rw_runnable_step; [by apply negb_true_iff|].
    intros Hpc. pose proof (rw_store_room _ _ _ _ _ _ Hlp HP Hi Hpc). unfold in_s. lia. }
  clear HP.
  assert (Hz : forall p, (forall t, rwt_pc t = p -> rw_may_wait t = false) -> rwc p ts = 0).
  { intros p Hp. apply at_cnt_zero. intros t (i & Hi)%list_elem_of_lookup E.
    specialize (Hnone i t Hi). specialize (Hp t E). by rewrite Hp in Hnone. }
  destruct s as [[lk wl nr] v out]; simpl in *.
  unfold in_lock, counted_readers, in_write, readers_hold in *.
  rewrite (Hz R_inc), (Hz R_check), (Hz R_unlock), (Hz R_read), (Hz R_dec), (Hz R_rcheck),
    (Hz R_wpost), (Hz R_runlock), (Hz W_load), (Hz W_store), (Hz W_print), (Hz W_post) in *
    by (intros [] E; simpl in E; subst; reflexivity).
  rwc_facts ts.
  assert (Hcan : forall p, 0 < rwc p ts ->
    (forall i tmp, is_Some (rw_step loops (mk_rw_shared (mk_rwlock lk wl nr) v out)
       (mk_rw_thread p i tmp))) ->
    exists c', sys_step (rw_step loops) (mk_rw_shared (mk_rwlock lk wl nr) v out, ts) c').
  { intros p Hp Hs. destruct (at_cnt_exists rwt_pc p ts Hp) as (i & [pc ii tmp] & Hi & Hpc).
    simpl in Hpc; subst pc. eapply thread_can_step; [done|apply Hs]. }
  destruct (decide (0 < rwc R_wwait ts)) as [Hq1|Hq1].
  { right. apply (Hcan R_wwait Hq1). intros. unfold rw_step, reader_step, writer_step; simpl.
    rewrite sem_wait_pos by (split_tests; lia). eauto. }
  destruct (decide (0 < rwc R_lock ts)) as [Hq2|Hq2].
  { right. apply (Hcan R_lock Hq2). intros. unfold rw_step, reader_step, writer_step; simpl. rewrite sem_wait_pos by lia. eauto. }
  destruct (decide (0 < rwc R_rlock ts)) as [Hq3|Hq3].
  { right. apply (Hcan R_rlock Hq3). intros. unfold rw_step, reader_step, writer_step; simpl. rewrite sem_wait_pos by lia. eauto. }
  destruct (decide (0 < rwc W_wait ts)) as [Hq4|Hq4].
  { right. apply (Hcan W_wait Hq4). intros. unfold rw_step, reader_step, writer_step; simpl.
    unfold rwlock_acquire_writelock; simpl. rewrite sem_wait_pos by (split_tests; lia). eauto. }
  left. intros i t Hi. specialize (Hnone i t Hi). simpl in Hi.
  pose proof (at_cnt_lookup rwt_pc _ ts i t Hi eq_refl) as Hc.
  destruct t as [pc ii tmp]; destruct pc; simpl in *; try done; auto; lia.
Qed.

(** As long as [value] does not overflow, the program neither deadlocks nor runs
    forever: an execution has at most [12 * loops + 1] steps per thread, and from every state that some
    schedule reaches all the readers and writers can still return. *)
Theorem rw_terminates (loops : Z) (r w : nat) (s : rw_shared) (ts : list rw_thread) (k : nat)
    (Hl : 0 <= loops) (Hv : Z.of_nat w * loops < 2 ^ 31)
    (Hr : nsteps (sys_step (rw_step loops)) k (rw_main r w) (s, ts)) :
  Z.of_nat k <= Z.of_nat (r + w) * (12 * loops + 1) /\
  exists c', rtc (sys_step (rw_step loops)) (s, ts) c' /\ rw_finished c'.
Proof.
  set (P := fun c : rw_shared * list rw_thread => rw_prog_inv loops (Z.of_nat w) c.1 c.2).
  assert (HP : forall c c', P c -> sys_step (rw_step loops) c c' -> P c').
  { intros c c' Hc Hs. destruct Hs as [i s1 ts1 t s' t' Hi Ht]. by eapply rw_prog_step. }
  assert (Hm : forall s ts i t s' t', P (s, ts) -> ts !! i = Some t ->
    rw_step loops s t = Some (s', t') -> (rw_todo loops t' < rw_todo loops t)%nat).
  { intros s1 ts1 i t s' t' (_ & _ & Hok & _) Hi Ht. eapply rw_step_todo; [by eapply Hok|done]. }
  assert (H0 : P (rw_main r w)) by (by apply rw_prog_init).
  split.
  - pose proof (measure_bounds_runs (rw_step loops) P (rw_todo loops) k _ _ HP Hm H0 Hr) as Hb.
    pose proof (lsum_nonneg (fun t => Z.of_nat (rw_todo loops t)) ts ltac:(intros; simpl; lia)).
    unfold rw_main in Hb; simpl in Hb. rewrite lsum_app, !lsum_replicate in Hb.
    unfold rw_todo in Hb at 2 3; simpl in Hb. lia.
  - apply (progress_reaches (rw_step loops) P (rw_todo loops) rw_finished _ HP Hm).
    + intros [s1 ts1] Hc. by eapply rw_progress.
    + unfold P; simpl. eapply rw_reach; [done|]. by eapply rtc_nsteps_2.
Qed.

Lemma rw_terminates_witness :
  Z.of_nat 0 <= Z.of_nat (2 + 1) * (12 * 5 + 1) /\
  exists c', rtc (sys_step (rw_step 5)) (rw_main 2 1) c' /\ rw_finished c'.
Proof.
  apply (rw_terminates 5 2 1 (rw_main 2 1).1 (rw_main 2 1).2 0 ltac:(lia) ltac:(lia)). apply nsteps_O.
Defined.
