(* ===== verification/Doubles.v ===== *)
(** * Double-precision numbers

    Every finite IEEE 754 double is a multiple of [2^-1074], so it is written here
    as that integer: [x] stands for [x * 2^-1074]. [rnd n d] is the double nearest
    to the rational [n / d], ties to even: the integer nearest to it when it is
    below [2^53], and otherwise the nearest with 53 significant bits, which covers
    the subnormal numbers too. The operations are the exact ones followed by
    [rnd]. Overflow to infinity does not occur for the times and sizes computed
    here; a division by zero, whose result is infinite or not a number, is [None].

    The error model is the usual one: a relative error of at most [2^-53]. *)

From S2P Require Import Prelude.

(** The integer nearest to [n / d], for [0 < d]. *)
Definition rne (n d : Z) : Z :=
  let q := n / d in
  let r := n mod d in
  if (d <? 2 * r) || ((2 * r =? d) && Z.odd q) then q + 1 else q.

(** The exponent of the last of the 53 bits. *)
Definition last_bit (n d : Z) : Z := Z.max 0 (Z.log2 (Z.abs n / d) - 52).

Definition rnd (n d : Z) : Z := let e := last_bit n d in rne n (d * 2 ^ e) * 2 ^ e.

Definition ONE : Z := 2 ^ 1074.

Definition of_int (z : Z) : Z := rnd (z * ONE) 1.
Definition dadd (x y : Z) : Z := rnd (x + y) 1.
Definition dsub (x y : Z) : Z := rnd (x - y) 1.
Definition dmul (x y : Z) : Z := rnd (x * y) ONE.
Definition ddiv (x y : Z) : option Z :=
  if y =? 0 then None else Some (rnd (x * ONE * Z.sgn y) (Z.abs y)).

(** The constants of the programs, as the compiler rounds them. *)
Definition decimal_const (n d : Z) : Z := rnd (n * ONE) d.

(** ** Rounding to integers *)

Lemma rne_spec n d : 0 < d -> Z.abs (rne n d * d - n) * 2 <= d.
Proof.
  intros Hd. unfold rne. pose proof (Z.div_mod n d ltac:(lia)) as E. pose proof (Z.mod_pos_bound n d Hd) as Hr.
  destruct (Z.ltb_spec d (2 * (n mod d))); simpl; [nia|].
  destruct (Z.eqb_spec (2 * (n mod d)) d); simpl; [destruct (Z.odd (n / d)); nia|nia].
Qed.

Lemma rne_exact q d : 0 < d -> rne (q * d) d = q.
Proof.
  intros Hd. unfold rne. rewrite Z.mod_mul, Z.div_mul by lia.
  destruct (Z.ltb_spec d (2 * 0)); [lia|]. destruct (Z.eqb_spec (2 * 0) d); [lia|done].
Qed.

Lemma rne_mono n m d : 0 < d -> n <= m -> rne n d <= rne m d.
Proof.
  intros Hd Hnm. pose proof (Z.div_le_mono n m d Hd Hnm) as Hq. unfold rne.
  destruct (decide (n / d = m / d)) as [E|E].
  - rewrite E. pose proof (Z.div_mod n d ltac:(lia)). pose proof (Z.div_mod m d ltac:(lia)).
    assert (n mod d <= m mod d) by (rewrite E in *; lia).
    destruct (Z.ltb_spec d (2 * (n mod d))), (Z.ltb_spec d (2 * (m mod d))); simpl; try lia;
      destruct (Z.eqb_spec (2 * (n mod d)) d), (Z.eqb_spec (2 * (m mod d)) d); simpl; try lia;
      destruct (Z.odd (m / d)); lia.
  - destruct (_ || _), (_ || _); lia.
Qed.

Lemma rne_opp n d : 0 < d -> rne (- n) d = - rne n d.
Proof.
  intros Hd. unfold rne. pose proof (Z.mod_pos_bound n d Hd) as Hr. destruct (decide (n mod d = 0)) as [E|E].
  - rewrite Z_mod_zero_opp_full, Z_div_zero_opp_full, E by done.
    destruct (Z.ltb_spec d (2 * 0)); [lia|]. destruct (Z.eqb_spec (2 * 0) d); [lia|]. cbn [orb andb]. lia.
  - rewrite (Z_mod_nz_opp_full n d E), (Z_div_nz_opp_full n d) by (done || lia).
    assert (Ho : Z.odd (- (n / d) - 1) = negb (Z.odd (n / d))).
    { rewrite Z.odd_sub, Z.odd_opp. by destruct (Z.odd (n / d)). }
    rewrite Ho. destruct (Z.ltb_spec d (2 * (d - n mod d))), (Z.ltb_spec d (2 * (n mod d))); simpl; try lia;
      destruct (Z.eqb_spec (2 * (d - n mod d)) d), (Z.eqb_spec (2 * (n mod d)) d); simpl; try lia;
      destruct (Z.odd (n / d)); simpl; lia.
Qed.

(** ** The rounding error *)

Lemma last_bit_nonneg n d : 0 <= last_bit n d.
Proof. unfold last_bit. lia. Qed.

(** A number with a last bit above the units has 53 bits. *)
Lemma last_bit_big n d : 0 < d -> 0 < last_bit n d -> d * 2 ^ (last_bit n d) * 2 ^ 52 <= Z.abs n < d * 2 ^ (last_bit n d) * 2 ^ 53.
Proof.
  intros Hd He. unfold last_bit in *. set (q := Z.abs n / d) in *. set (l := Z.log2 q) in *.
  replace (Z.max 0 (l - 52)) with (l - 52) in * by lia.
  assert (Hq : 0 < q) by (destruct (decide (0 < q)); [done|]; unfold l in He; rewrite Z.log2_nonpos in He by lia; lia).
  pose proof (Z.log2_spec q Hq) as Hl. fold l in Hl. unfold Z.succ in Hl.
  rewrite <- !Z.mul_assoc, <- !Z.pow_add_r by lia. replace (l - 52 + 52) with l by lia. replace (l - 52 + 53) with (l + 1) by lia.
  pose proof (Z.div_mod (Z.abs n) d ltac:(lia)) as E. fold q in E. pose proof (Z.mod_pos_bound (Z.abs n) d Hd). nia.
Qed.

(** Rounding moves a value by at most [2^-53] of it, or by half a unit. *)
Lemma rnd_err n d : 0 < d -> Z.abs (rnd n d * d - n) * 2 ^ 53 <= Z.max (Z.abs n) (d * 2 ^ 52).
Proof.
  intros Hd. unfold rnd. set (e := last_bit n d). pose proof (last_bit_nonneg n d) as He. fold e in He.
  assert (H2 : 0 < 2 ^ e) by (apply Z.pow_pos_nonneg; lia).
  pose proof (rne_spec n (d * 2 ^ e) ltac:(nia)) as Hr. set (m := rne n (d * 2 ^ e)) in *.
  replace (m * 2 ^ e * d) with (m * (d * 2 ^ e)) by lia.
  destruct (decide (0 < e)) as [Hp|Hz].
  - pose proof (last_bit_big n d Hd Hp) as Hb. fold e in Hb.
    change (2 ^ 53) with (2 * 2 ^ 52). set (a := Z.abs (m * (d * 2 ^ e) - n)) in *. nia.
  - replace e with 0 in * by lia. rewrite Z.pow_0_r, Z.mul_1_r in *. change (2 ^ 53) with (2 * 2 ^ 52).
    set (a := Z.abs (m * d - n)) in *. nia.
Qed.

Lemma rnd_rel n d : 0 < d -> d * 2 ^ 52 <= Z.abs n -> Z.abs (rnd n d * d - n) * 2 ^ 53 <= Z.abs n.
Proof. intros Hd Hn. pose proof (rnd_err n d Hd). lia. Qed.

(** Numbers of 53 bits are exact. *)
Lemma rnd_exact m k d : 0 < d -> 0 <= k -> Z.abs m < 2 ^ 53 -> rnd (m * 2 ^ k * d) d = m * 2 ^ k.
Proof.
  intros Hd Hk Hm. assert (H2 : 0 < 2 ^ k) by (apply Z.pow_pos_nonneg; lia).
  unfold rnd. set (e := last_bit (m * 2 ^ k * d) d). pose proof (last_bit_nonneg (m * 2 ^ k * d) d) as He. fold e in He.
  assert (Hek : e <= k).
  { destruct (decide (0 < e)) as [Hp|]; [|lia]. pose proof (last_bit_big (m * 2 ^ k * d) d Hd Hp) as [Hb _]. fold e in Hb.
    rewrite !Z.abs_mul, (Z.abs_eq (2 ^ k)), (Z.abs_eq d) in Hb by lia.
    assert (Hc : 2 ^ e * 2 ^ 52 <= Z.abs m * 2 ^ k) by (apply (Z.mul_le_mono_pos_l _ _ d); lia).
    assert (Z.abs m * 2 ^ k < 2 ^ 53 * 2 ^ k) by (by apply Z.mul_lt_mono_pos_r). apply Z.nlt_ge. intros Hlt.
    assert (2 ^ (k + 1) <= 2 ^ e) by (apply Z.pow_le_mono_r; lia). rewrite (Z.pow_add_r 2 k 1) in * by lia. lia. }
  replace (m * 2 ^ k * d) with (m * 2 ^ (k - e) * (d * 2 ^ e)).
  - rewrite rne_exact by (assert (0 < 2 ^ e) by (apply Z.pow_pos_nonneg; lia); nia).
    rewrite <- Z.mul_assoc, <- Z.pow_add_r; [by replace (k - e + e) with k by lia|lia|exact He].
  - replace (2 ^ k) with (2 ^ (k - e) * 2 ^ e); [lia|]. rewrite <- Z.pow_add_r by lia. f_equal. lia.
Qed.

Lemma rnd_nonneg n d : 0 < d -> 0 <= n -> 0 <= rnd n d.
Proof.
  intros Hd Hn. unfold rnd. pose proof (last_bit_nonneg n d).
  assert (H2 : 0 < 2 ^ last_bit n d) by (apply Z.pow_pos_nonneg; lia). apply Z.mul_nonneg_nonneg; [|lia].
  rewrite <- (rne_exact 0 (d * 2 ^ last_bit n d)) by nia. apply rne_mono; nia.
Qed.

Lemma rnd_opp n d : 0 < d -> rnd (- n) d = - rnd n d.
Proof.
  intros Hd. unfold rnd. assert (E : last_bit (- n) d = last_bit n d) by (unfold last_bit; by rewrite Z.abs_opp).
  rewrite E. pose proof (last_bit_nonneg n d). assert (0 < 2 ^ last_bit n d) by (apply Z.pow_pos_nonneg; lia).
  rewrite rne_opp by nia. lia.
Qed.

(** ** Sums of seconds and a fraction *)

Lemma ONE_big : 2 ^ 60 <= ONE.
Proof. by apply Z.pow_le_mono_r. Qed.

Lemma of_int_exact z : Z.abs z < 2 ^ 53 -> of_int z = z * ONE.
Proof.
  intros Hz. pose proof (rnd_exact z 1074 1 ltac:(lia) ltac:(lia) Hz) as H. rewrite Z.mul_1_r in H. exact H.
Qed.

#[global] Opaque ONE.

Lemma dadd_err x y : Z.abs (dadd x y - (x + y)) * 2 ^ 53 <= Z.max (Z.abs (x + y)) (2 ^ 52).
Proof. unfold dadd. pose proof (rnd_err (x + y) 1 ltac:(lia)) as H. by rewrite Z.mul_1_r, Z.mul_1_l in H. Qed.

Lemma dsub_err x y : Z.abs (dsub x y - (x - y)) * 2 ^ 53 <= Z.max (Z.abs (x - y)) (2 ^ 52).
Proof. unfold dsub. pose proof (rnd_err (x - y) 1 ltac:(lia)) as H. by rewrite Z.mul_1_r, Z.mul_1_l in H. Qed.

(** [s + f / D], each operation rounded. *)
Definition seconds (s f D : Z) : option Z := q ← ddiv (of_int f) (of_int D); Some (dadd (of_int s) q).

(** The quotient is off by at most [2^-53], since it is at most 1. *)
Lemma fraction_err f D :
  0 < D < 2 ^ 53 -> Z.abs f <= D ->
  exists q, ddiv (of_int f) (of_int D) = Some q /\ Z.abs (q * D - f * ONE) * 2 ^ 53 <= D * ONE.
Proof.
  intros HD Hf. pose proof ONE_big as HO. unfold ddiv. rewrite !of_int_exact by lia.
  destruct (Z.eqb_spec (D * ONE) 0); [nia|]. eexists. split; [done|].
  rewrite (Z.sgn_pos (D * ONE)), (Z.abs_eq (D * ONE)), Z.mul_1_r by nia.
  pose proof (rnd_err (f * ONE * ONE) (D * ONE) ltac:(nia)) as H. set (q := rnd _ _) in *.
  rewrite !Z.abs_mul, (Z.abs_eq ONE) in H by lia.
  replace (q * (D * ONE) - f * ONE * ONE) with ((q * D - f * ONE) * ONE) in H by lia.
  rewrite Z.abs_mul, (Z.abs_eq ONE) in H by lia. set (a := Z.abs (q * D - f * ONE)) in *.
  assert (Hm : Z.max (Z.abs f * ONE * ONE) (D * ONE * 2 ^ 52) <= D * ONE * ONE) by nia.
  apply (Z.mul_le_mono_pos_r _ _ ONE); nia.
Qed.

Lemma seconds_err s f D :
  0 < D < 2 ^ 53 -> Z.abs f <= D -> Z.abs s < 2 ^ 53 ->
  exists x, seconds s f D = Some x /\ Z.abs (x * D - (s * D + f) * ONE) * 2 ^ 53 <= (Z.abs s + 3) * D * ONE.
Proof.
  intros HD Hf Hs. pose proof ONE_big as HO. destruct (fraction_err f D HD Hf) as (q & Hq & Eq). unfold seconds. rewrite Hq.
  eexists. split; [done|]. rewrite of_int_exact by done. pose proof (dadd_err (s * ONE) q) as Ea. set (x := dadd _ _) in *.
  assert (Hqb : Z.abs q <= 2 * ONE).
  { assert (Hqd : Z.abs (q * D) <= 2 * D * ONE) by nia. rewrite Z.abs_mul, (Z.abs_eq D) in Hqd by lia.
    apply (Z.mul_le_mono_pos_r _ _ D); nia. }
  assert (Hm : Z.max (Z.abs (s * ONE + q)) (2 ^ 52) <= (Z.abs s + 2) * ONE) by nia.
  assert (Hx : Z.abs (x - (s * ONE + q)) * 2 ^ 53 * D <= (Z.abs s + 2) * ONE * D) by (apply Z.mul_le_mono_nonneg_r; lia).
  assert (Ht : Z.abs (x * D - (s * D + f) * ONE) <= Z.abs (x - (s * ONE + q)) * D + Z.abs (q * D - f * ONE)).
  { rewrite <- (Z.abs_eq D) at 3 by lia. rewrite <- Z.abs_mul. lia. }
  lia.
Qed.
