(* ===== verification/Bits.v ===== *)
(** * Registers, bit by bit

    The firmware exercises manipulate 32-bit registers with masks and shifts.
    Their specifications are stated as "bit [n] of the new value is ..."; the
    rewrite database [bits] computes the bit [n] of the code's expressions, and
    [bit_cases] closes what remains by cases on the position of [n]. *)

From S2P Require Import Prelude.

(** A shift of a 32-bit operand by an amount outside [0..31] is undefined. *)
Definition shl32 (x k : Z) : option Z :=
  if bool_decide (0 <= k < 32) then Some (u32 (Z.shiftl x k)) else None.

Lemma testbit_wrap w x n :
  0 <= w -> 0 <= n -> Z.testbit (wrap w x) n = (n <? w) && Z.testbit x n.
Proof.
  intros. unfold wrap. destruct (Z.ltb_spec n w); simpl.
  - apply Z.mod_pow2_bits_low. lia.
  - apply Z.mod_pow2_bits_high. lia.
Qed.

Lemma testbit_high w x n : in_u w x -> 0 <= w <= n -> Z.testbit x n = false.
Proof.
  intros Hx Hn. rewrite <- (wrap_small w x Hx), testbit_wrap by lia.
  by rewrite (proj2 (Z.ltb_ge n w)) by lia.
Qed.

Lemma testbit_ones k n : 0 <= k -> 0 <= n -> Z.testbit (Z.ones k) n = (n <? k).
Proof. intros. rewrite Z.testbit_ones_nonneg by lia. done. Qed.

(** The bit test [reg & (1u << k)] of the C code. *)
Lemma truthy_bit x k : 0 <= k -> truthy (Z.land x (Z.shiftl 1 k)) = Z.testbit x k.
Proof.
  intros Hk. unfold truthy. destruct (Z.testbit x k) eqn:E.
  - apply negb_true_iff, Z.eqb_neq. intros H0.
    apply (f_equal (fun z => Z.testbit z k)) in H0.
    rewrite Z.land_spec, E, Z.shiftl_spec, Z.sub_diag, Z.testbit_0_l in H0 by lia. done.
  - apply negb_false_iff, Z.eqb_eq. apply Z.bits_inj'. intros n Hn.
    rewrite Z.land_spec, Z.shiftl_spec, Z.testbit_0_l by lia.
    destruct (Z.eq_dec n k) as [->|Hne]; [by rewrite E|].
    change 1 with (Z.ones 1). destruct (decide (n < k)).
    + rewrite (Z.testbit_neg_r (Z.ones 1)) by lia. by destruct (Z.testbit x n).
    + rewrite testbit_ones by lia. rewrite (proj2 (Z.ltb_ge (n - k) 1)) by lia.
      by destruct (Z.testbit x n).
Qed.


(** Two values agree when all their bits do. *)
Lemma bits_eq x y : (forall n, 0 <= n -> Z.testbit x n = Z.testbit y n) -> x = y.
Proof. apply Z.bits_inj'. Qed.

Lemma testbit_shiftl_neg x k n : 0 <= n < k -> Z.testbit (Z.shiftl x k) n = false.
Proof. intros. rewrite Z.shiftl_spec by lia. apply Z.testbit_neg_r. lia. Qed.

(** [(x & mask) >> shift] for a mask of [k] ones at [shift]: the field. *)
Lemma field_extract x k s :
  0 <= k -> 0 <= s -> Z.shiftr (Z.land x (Z.shiftl (Z.ones k) s)) s = (Z.shiftr x s) mod 2 ^ k.
Proof.
  intros. rewrite Z.shiftr_land, Z.shiftr_shiftl_l, Z.sub_diag, Z.shiftl_0_r by lia.
  by apply Z.land_ones.
Qed.

#[export] Hint Rewrite Z.land_spec Z.lor_spec Z.lxor_spec Z.ldiff_spec Z.testbit_0_l : bits.
#[export] Hint Rewrite Z.lnot_spec testbit_wrap Z.shiftl_spec Z.shiftr_spec testbit_ones
  using lia : bits.

(** Fields that do not overlap are added by [|]. *)
Lemma lor_shiftl_add a b k : 0 <= k -> in_u k a -> Z.lor a (Z.shiftl b k) = a + b * 2 ^ k.
Proof.
  intros Hk Ha. rewrite <- Z.shiftl_mul_pow2, <- Z.add_lor_land by lia.
  enough (Z.land a (Z.shiftl b k) = 0) by lia. apply bits_eq. intros n Hn. autorewrite with bits.
  destruct (decide (n < k)).
  - rewrite (Z.testbit_neg_r b) by lia. apply Bool.andb_false_r.
  - rewrite (testbit_high k a) by (done || lia). done.
Qed.
