(* ===== verification/Registers.v ===== *)
(** * Register helpers of the firmware exercises

    control_reg_field_update.c, doorbell_command_register.c,
    status_reg_parse_and_w1c.c, capability_register_parser.c,
    pcie_link_status_parser.c, i2c_spi_register_config_helper.c and the lab
    w1c_rmw_bug.c. Registers are 32-bit integers; a function that takes a
    pointer to a register returns its result and the register's new value. *)

From S2P Require Import Prelude Bits.

(** ** control_reg_field_update.c *)

Definition CTRL_ENABLE : Z := Z.shiftl 1 0.
Definition CTRL_RESET_REQ : Z := Z.shiftl 1 1.
Definition CTRL_MODE_MASK : Z := Z.shiftl 0x7 4.
Definition CTRL_MODE_SHIFT : Z := 4.
Definition CTRL_TIMEOUT_MASK : Z := Z.shiftl 0xff 8.
Definition CTRL_TIMEOUT_SHIFT : Z := 8.

Definition ctrl_set_mode (reg mode : Z) : option (Z * Z) :=
  if 7 <? mode then Some (-1, reg)
  else
    let tmp := Z.land reg (~u32 CTRL_MODE_MASK) in
    m ← shl32 mode CTRL_MODE_SHIFT;
    Some (0, Z.lor tmp m).

(** The shift amount is the mask, as in the source. *)
Definition ctrl_set_timeout (reg timeout : Z) : option (Z * Z) :=
  if 255 <? timeout then Some (-1, reg)
  else
    let tmp := Z.land reg (~u32 CTRL_TIMEOUT_MASK) in
    t ← shl32 timeout CTRL_TIMEOUT_MASK;
    Some (0, Z.lor tmp t).

(** ** doorbell_command_register.c *)

Definition DB_QUEUE_MASK : Z := Z.shiftl 0xff 0.
Definition DB_QUEUE_SHIFT : Z := 0.
Definition DB_OPCODE_MASK : Z := Z.shiftl 0xff 8.
Definition DB_OPCODE_SHIFT : Z := 8.
Definition DB_SEQ_MASK : Z := Z.shiftl 0xfff 16.
Definition DB_SEQ_SHIFT : Z := 16.
Definition DB_VALID : Z := Z.shiftl 1 31.

(** The list is the sequence of values written to [*db]. *)
Definition ring_doorbell (queue_id opcode seq : Z) : option (Z * list Z) :=
  if (Z.shiftr DB_QUEUE_MASK DB_QUEUE_SHIFT <? queue_id) ||
     (Z.shiftr DB_OPCODE_MASK DB_OPCODE_SHIFT <? opcode) ||
     (Z.shiftr DB_SEQ_MASK DB_SEQ_SHIFT <? seq)
  then Some (-1, [])
  else
    q ← shl32 queue_id DB_QUEUE_SHIFT;
    o ← shl32 opcode DB_OPCODE_SHIFT;
    s ← shl32 seq DB_SEQ_SHIFT;
    let val := Z.lor (Z.lor (Z.lor (Z.land q DB_QUEUE_MASK) (Z.land o DB_OPCODE_MASK))
                            (Z.land s DB_SEQ_MASK)) DB_VALID in
    Some (0, [val]).

(** ** status_reg_parse_and_w1c.c *)

Definition STAT_READY : Z := Z.shiftl 1 0.
Definition STAT_BUSY : Z := Z.shiftl 1 1.
Definition STAT_DONE : Z := Z.shiftl 1 2.
Definition STAT_ERROR : Z := Z.shiftl 1 3.
Definition STAT_TIMEOUT : Z := Z.shiftl 1 4.
Definition STAT_STATE_MASK : Z := Z.shiftl 0xf 8.
Definition STAT_STATE_SHIFT : Z := 8.

Definition status_ready (status : Z) : bool := truthy (Z.land status STAT_READY).
Definition status_busy (status : Z) : bool := truthy (Z.land status STAT_BUSY).
Definition status_state (status : Z) : Z := Z.shiftr (Z.land status STAT_STATE_MASK) STAT_STATE_SHIFT.

(** The value the function writes to the register. *)
Definition clear_done_error_timeout : Z := Z.lor (Z.lor STAT_DONE STAT_ERROR) STAT_TIMEOUT.

(** What a write of [v] does to a status register whose write-1-to-clear bits
    are [w1c] and whose other bits are read-only, as the comments on the
    registers' bits document it. *)
Definition w1c_write (w1c st v : Z) : Z := Z.ldiff st (Z.land v w1c).

(** ** labs/w1c_rmw_bug.c: bits 0..2 are W1C, bit 3 is read-only *)

Definition LAB_STAT_DONE : Z := Z.shiftl 1 0.
Definition LAB_W1C : Z := Z.lor (Z.lor (Z.shiftl 1 0) (Z.shiftl 1 1)) (Z.shiftl 1 2).

(** The read-modify-write: the register's content after the function. *)
Definition clear_done (status : Z) : Z :=
  let v := Z.land status (~u32 LAB_STAT_DONE) in
  w1c_write LAB_W1C status v.

(** ** capability_register_parser.c *)

Definition CAP_RTOS : Z := Z.shiftl 1 0.
Definition CAP_SECURE_BOOT : Z := Z.shiftl 1 1.
Definition CAP_P2P : Z := Z.shiftl 1 2.
Definition CAP_HBM : Z := Z.shiftl 1 3.
Definition CAP_GEN_MASK : Z := Z.shiftl 0xf 8.
Definition CAP_GEN_SHIFT : Z := 8.
Definition CAP_LINKS_MASK : Z := Z.shiftl 0xff 16.
Definition CAP_LINKS_SHIFT : Z := 16.

Definition DRIVER_SUPPORTED_CAPS : Z :=
  Z.lor (Z.lor (Z.lor (Z.lor (Z.lor CAP_RTOS CAP_SECURE_BOOT) CAP_P2P) CAP_HBM) CAP_GEN_MASK)
    CAP_LINKS_MASK.

Record fw_caps := mk_fw_caps {
  has_rtos : bool; has_secure_boot : bool; has_p2p : bool; has_hbm : bool;
  generation : Z; num_links : Z; reserved_bits_detected : bool
}.

(** The statement [fwc.reserved_bits_detected;] under the test of the reserved
    bits reads the member and discards it, so both branches leave the zero of
    the initialiser. *)
Definition parse_fw_caps (cap_reg : Z) : fw_caps :=
  let reserved := if truthy (Z.land cap_reg (~u32 DRIVER_SUPPORTED_CAPS)) then false else false in
  mk_fw_caps (truthy (Z.land cap_reg CAP_RTOS)) (truthy (Z.land cap_reg CAP_SECURE_BOOT))
    (truthy (Z.land cap_reg CAP_P2P)) (truthy (Z.land cap_reg CAP_HBM))
    (Z.shiftr (Z.land cap_reg CAP_GEN_MASK) CAP_GEN_SHIFT)
    (Z.shiftr (Z.land cap_reg CAP_LINKS_MASK) CAP_LINKS_SHIFT)
    reserved.

(** ** pcie_link_status_parser.c *)

Record pcie_link_info := mk_pcie_link_info {
  speed_gen : Z; width : Z; training : bool; degraded : bool
}.

Section pcie.
(** The masks and offsets are not defined in the repository. *)
Context (LINK_SPEED_GEN_MASK LINK_SPEED_GEN_OFFSET LINK_WIDTH_MASK LINK_WIDTH_OFFSET
         LINK_TRAINING_MASK LINK_TRAINING_OFFSET : Z).

(** [out] is [None] for the null pointer. *)
Definition parse_pcie_link_status (link_status expected_gen expected_width : Z)
    (out : option pcie_link_info) : Z * option pcie_link_info :=
  match out with
  | None => (-1, None)
  | Some _ =>
      let g := u8 (Z.shiftr (Z.land link_status LINK_SPEED_GEN_MASK) LINK_SPEED_GEN_OFFSET) in
      let w := u8 (Z.shiftr (Z.land link_status LINK_WIDTH_MASK) LINK_WIDTH_OFFSET) in
      let t := truthy (Z.shiftr (Z.land link_status LINK_TRAINING_MASK) LINK_TRAINING_OFFSET) in
      let d := negb (g =? expected_gen) || negb (w =? expected_width) in
      (0, Some (mk_pcie_link_info g w t d))
  end.
End pcie.

(** ** i2c_spi_register_config_helper.c *)

Definition BUS_CTRL_ENABLE : Z := Z.shiftl 1 0.
Definition BUS_CTRL_MODE_SPI : Z := Z.shiftl 1 1.
Definition BUS_CTRL_SPI_CPOL : Z := Z.shiftl 1 2.
Definition BUS_CTRL_SPI_CPHA : Z := Z.shiftl 1 3.
Definition BUS_CTRL_I2C_10BIT : Z := Z.shiftl 1 4.
Definition BUS_CTRL_CLKDIV_MASK : Z := Z.shiftl 0xff 8.
Definition BUS_CTRL_CLKDIV_SHIFT : Z := 8.
Definition BUS_CTRL_CS_MASK : Z := Z.shiftl 0xf 16.
Definition BUS_CTRL_CS_SHIFT : Z := 16.

(** [enum bus_mode] as its integer values, since a caller can pass any. *)
Definition BUS_I2C : Z := 0.
Definition BUS_SPI : Z := 1.

Record bus_config := mk_bus_config {
  mode : Z; clock_divider : Z; chip_select : Z;
  spi_cpol : bool; spi_cpha : bool; i2c_10bit_addr : bool; enable : bool
}.

(** [cfg] and [out_reg] are [None] for null pointers; the second component is
    the content of [*out_reg] after the call. [*reg_val] of the source is read
    as [reg_val]. *)
Definition build_bus_ctrl (cfg : option bus_config) (out_reg : option Z) : Z * option Z :=
  match cfg, out_reg with
  | Some c, Some old =>
      if negb (mode c =? BUS_I2C) || negb (mode c =? BUS_SPI) then (-2, out_reg)
      else if (clock_divider c =? 0) || (255 <? clock_divider c) then (-3, out_reg)
      else
        let finish reg_val :=
          let reg_val := if enable c then Z.lor reg_val BUS_CTRL_ENABLE else reg_val in
          let reg_val := Z.land reg_val (~u32 BUS_CTRL_CLKDIV_MASK) in
          (0, Some (Z.lor reg_val (u32 (Z.shiftl (clock_divider c) BUS_CTRL_CLKDIV_SHIFT)))) in
        if mode c =? BUS_I2C then
          if spi_cpol c || spi_cpha c || negb (chip_select c =? 0) then (-2, out_reg)
          else finish (if i2c_10bit_addr c then Z.lor 0 BUS_CTRL_I2C_10BIT else 0)
        else if (Z.shiftr BUS_CTRL_CS_MASK BUS_CTRL_CS_SHIFT <? chip_select c) || i2c_10bit_addr c
        then (-2, out_reg)
        else
          let reg_val := Z.lor 0 BUS_CTRL_MODE_SPI in
          let reg_val := Z.lor reg_val (u32 (Z.shiftl (chip_select c) BUS_CTRL_CS_SHIFT)) in
          let reg_val := if spi_cpol c then Z.lor reg_val BUS_CTRL_SPI_CPOL else reg_val in
          let reg_val := if spi_cpha c then Z.lor reg_val BUS_CTRL_SPI_CPHA else reg_val in
          finish reg_val
  | _, _ => (-1, out_reg)
  end.

(** ** Properties *)

(** Cases on the position of the bit, with what is known of the operands'
    high bits. *)
Ltac bit_cases :=
  split_tests; rewrite ?Bool.andb_true_r, ?Bool.andb_false_r, ?Bool.orb_false_r, ?Bool.orb_true_r;
  try (reflexivity || lia).

Lemma mode_mask_bit n : 0 <= n -> Z.testbit CTRL_MODE_MASK n = (4 <=? n) && (n <? 7).
Proof.
  intros. change CTRL_MODE_MASK with (Z.shiftl (Z.ones 3) 4).
  destruct (Z.leb_spec 4 n); simpl.
  - autorewrite with bits. bit_cases.
  - by apply testbit_shiftl_neg.
Qed.

(** [ctrl_set_mode] writes the field and nothing else: for a mode of three
    bits the result is 0 and bit [n] of the new register is bit [n - 4] of
    [mode] for [n] in [6:4] and the old bit elsewhere; a larger mode is refused
    with -1 and the register is left alone. *)
Theorem ctrl_set_mode_field (reg mode : Z) (Hreg : in_u 32 reg) (Hmode : in_u 32 mode) :
  (7 < mode -> ctrl_set_mode reg mode = Some (-1, reg)) /\
  (mode <= 7 -> exists reg', ctrl_set_mode reg mode = Some (0, reg') /\ in_u 32 reg' /\
     forall n, 0 <= n -> Z.testbit reg' n =
       if (4 <=? n) && (n <? 7) then Z.testbit mode (n - 4) else Z.testbit reg n).
Proof.
  unfold ctrl_set_mode. split; intros Hm.
  { by rewrite (proj2 (Z.ltb_lt 7 mode)). }
  rewrite (proj2 (Z.ltb_ge 7 mode)) by lia. simpl. eexists; split; [reflexivity|].
  assert (Hbits : forall n, 0 <= n ->
    Z.testbit (Z.lor (Z.land reg (~u32 CTRL_MODE_MASK)) (u32 (Z.shiftl mode 4))) n =
    if (4 <=? n) && (n <? 7) then Z.testbit mode (n - 4) else Z.testbit reg n).
  { intros n Hn. autorewrite with bits. rewrite mode_mask_bit by done.
    bit_cases; rewrite ?(testbit_high 3 mode) by (unfold in_u in *; lia);
      rewrite ?(Z.testbit_neg_r mode) by lia; rewrite ?(testbit_high 32 reg) by (done || lia); bit_cases. }
  split; [|done]. change (u32 (Z.shiftl mode 4)) with (wrap 32 (Z.shiftl mode 4)).
  rewrite <- (wrap_small 32 reg Hreg) in Hbits |- *.
  set (v := Z.lor _ _) in *.
  replace v with (wrap 32 v); [apply wrap_range; lia|].
  apply bits_eq. intros n Hn. rewrite testbit_wrap, Hbits by lia.
  rewrite testbit_wrap by lia. bit_cases.
Qed.

Lemma ctrl_set_mode_field_witness :
  (7 < 5 -> ctrl_set_mode 0xdeadbeef 5 = Some (-1, 0xdeadbeef)) /\
  (5 <= 7 -> exists reg', ctrl_set_mode 0xdeadbeef 5 = Some (0, reg') /\ in_u 32 reg' /\
     forall n, 0 <= n -> Z.testbit reg' n =
       if (4 <=? n) && (n <? 7) then Z.testbit 5 (n - 4) else Z.testbit 0xdeadbeef n).
Proof. apply (ctrl_set_mode_field 0xdeadbeef 5); unfold in_u; lia. Defined.

Example ctrl_set_mode_ex : ctrl_set_mode 0xdeadbeef 5 = Some (0, 0xdeadbedf).
Proof. reflexivity. Qed.

(** [ctrl_set_timeout] never sets a timeout: it shifts by the mask
    [0xff00] instead of the shift 8, so for every timeout it accepts the shift
    is undefined behaviour; the only defined result is -1. *)
Theorem ctrl_set_timeout_undefined (reg timeout : Z) (Ht : 0 <= timeout <= 255) :
  ctrl_set_timeout reg timeout = None.
Proof. unfold ctrl_set_timeout. rewrite (proj2 (Z.ltb_ge 255 timeout)) by lia. reflexivity. Qed.

Lemma ctrl_set_timeout_undefined_witness : ctrl_set_timeout 0 16 = None.
Proof. apply (ctrl_set_timeout_undefined 0 16). lia. Defined.

(** A shifted field that fits its mask is unchanged by the mask and by the
    32-bit store. *)
Lemma db_field x k s :
  in_u k x -> 0 <= k -> 0 <= s -> k + s <= 32 ->
  Z.land (u32 (Z.shiftl x s)) (Z.shiftl (Z.ones k) s) = Z.shiftl x s.
Proof.
  intros Hx Hk Hs Hks. apply bits_eq. intros n Hn.
  destruct (decide (n < s)).
  { rewrite Z.land_spec, !testbit_shiftl_neg by lia. apply Bool.andb_false_r. }
  autorewrite with bits. bit_cases; by rewrite (testbit_high k x) by (done || lia).
Qed.

(** C37. [ring_doorbell] composes the command word: when all three fields fit
    it returns 0 after exactly one write, of the word with the queue in bits
    [7:0], the opcode in [15:8], the sequence number in [27:16] and DB_VALID
    in bit 31; when one does not fit it returns -1 and writes nothing. *)
Theorem ring_doorbell_word (queue_id opcode seq : Z)
    (Hq : in_u 32 queue_id) (Ho : in_u 32 opcode) (Hs : in_u 32 seq) :
  ring_doorbell queue_id opcode seq =
    if (queue_id <? 256) && (opcode <? 256) && (seq <? 4096)
    then Some (0, [queue_id + opcode * 2 ^ 8 + seq * 2 ^ 16 + 2 ^ 31])
    else Some (-1, []).
Proof.
  unfold ring_doorbell. change (Z.shiftr DB_QUEUE_MASK DB_QUEUE_SHIFT) with 255.
  change (Z.shiftr DB_OPCODE_MASK DB_OPCODE_SHIFT) with 255.
  change (Z.shiftr DB_SEQ_MASK DB_SEQ_SHIFT) with 4095.
  unfold in_u in *. unfold shl32. simpl. split_tests; try lia; try done.
  change DB_QUEUE_MASK with (Z.shiftl (Z.ones 8) 0).
  change DB_OPCODE_MASK with (Z.shiftl (Z.ones 8) 8).
  change DB_SEQ_MASK with (Z.shiftl (Z.ones 12) 16).
  change DB_VALID with (Z.shiftl 1 31).
  change DB_QUEUE_SHIFT with 0. change DB_OPCODE_SHIFT with 8. change DB_SEQ_SHIFT with 16.
  rewrite !db_field by (unfold in_u; lia). rewrite Z.shiftl_0_r.
  rewrite (lor_shiftl_add queue_id), (lor_shiftl_add _ seq), (lor_shiftl_add _ 1)
    by (unfold in_u; lia).
  reflexivity.
Qed.

Lemma ring_doorbell_word_witness :
  ring_doorbell 3 0x42 0xabc = Some (0, [3 + 0x42 * 2 ^ 8 + 0xabc * 2 ^ 16 + 2 ^ 31]).
Proof. apply (ring_doorbell_word 3 0x42 0xabc); unfold in_u; lia. Defined.

(** The bits of status_reg_parse_and_w1c.c that a write of 1 clears. *)
Definition STAT_W1C : Z := Z.lor (Z.lor STAT_DONE STAT_ERROR) STAT_TIMEOUT.

Lemma bit_of_pow k n : 0 <= k -> 0 <= n -> Z.testbit (Z.shiftl 1 k) n = (n =? k).
Proof.
  intros. rewrite Z.shiftl_1_l. destruct (Z.eqb_spec n k) as [->|].
  - by apply Z.pow2_bits_true.
  - by apply Z.pow2_bits_false.
Qed.

(** Clearing a write-1-to-clear register: the value that
    [clear_done_error_timeout] writes clears DONE, ERROR and TIMEOUT whatever
    was pending and leaves every other bit, whereas the read-modify-write of
    the lab's [clear_done] leaves DONE as it was and clears the pending ERROR
    and FATAL bits instead. *)
Theorem w1c_clears (status : Z) (Hst : in_u 32 status) :
  (forall n, 0 <= n -> Z.testbit (w1c_write STAT_W1C status clear_done_error_timeout) n =
     Z.testbit status n && negb ((n =? 2) || (n =? 3) || (n =? 4))) /\
  (forall n, 0 <= n -> Z.testbit (clear_done status) n =
     Z.testbit status n && negb ((n =? 1) || (n =? 2))).
Proof.
  split; intros n Hn.
  - unfold w1c_write, clear_done_error_timeout, STAT_W1C, STAT_DONE, STAT_ERROR, STAT_TIMEOUT.
    rewrite Z.ldiff_spec, !Z.land_spec, !Z.lor_spec, !bit_of_pow by lia.
    destruct (Z.testbit status n); bit_cases.
  - unfold clear_done, w1c_write, LAB_W1C, LAB_STAT_DONE.
    rewrite Z.ldiff_spec, !Z.land_spec, testbit_wrap, Z.lnot_spec, !Z.lor_spec, !bit_of_pow by lia.
    destruct (Z.testbit status n); bit_cases.
Qed.

Lemma w1c_clears_witness :
  (forall n, 0 <= n -> Z.testbit (w1c_write STAT_W1C 0xff clear_done_error_timeout) n =
     Z.testbit 0xff n && negb ((n =? 2) || (n =? 3) || (n =? 4))) /\
  (forall n, 0 <= n -> Z.testbit (clear_done 0xff) n =
     Z.testbit 0xff n && negb ((n =? 1) || (n =? 2))).
Proof. apply (w1c_clears 0xff). unfold in_u. lia. Defined.

(** [parse_fw_caps] decodes the capability register: the four flags are
    bits 0..3, the generation bits [11:8] and the link count bits [23:16]; but
    [reserved_bits_detected] is false for every register, also for one with
    reserved bits set, because the flag is never assigned. *)
Theorem parse_fw_caps_fields (cap_reg : Z) (Hc : in_u 32 cap_reg) :
  parse_fw_caps cap_reg =
  mk_fw_caps (Z.testbit cap_reg 0) (Z.testbit cap_reg 1) (Z.testbit cap_reg 2) (Z.testbit cap_reg 3)
    ((cap_reg / 2 ^ 8) mod 16) ((cap_reg / 2 ^ 16) mod 256) false.
Proof.
  unfold parse_fw_caps, CAP_RTOS, CAP_SECURE_BOOT, CAP_P2P, CAP_HBM.
  rewrite !truthy_bit by lia.
  change CAP_GEN_MASK with (Z.shiftl (Z.ones 4) 8). change CAP_GEN_SHIFT with 8.
  change CAP_LINKS_MASK with (Z.shiftl (Z.ones 8) 16). change CAP_LINKS_SHIFT with 16.
  rewrite !field_extract, !Z.shiftr_div_pow2 by lia.
  destruct (truthy _); reflexivity.
Qed.

Lemma parse_fw_caps_fields_witness :
  parse_fw_caps 0xff0e030b =
  mk_fw_caps (Z.testbit 0xff0e030b 0) (Z.testbit 0xff0e030b 1) (Z.testbit 0xff0e030b 2)
    (Z.testbit 0xff0e030b 3) ((0xff0e030b / 2 ^ 8) mod 16) ((0xff0e030b / 2 ^ 16) mod 256) false.
Proof. apply (parse_fw_caps_fields 0xff0e030b). unfold in_u. lia. Defined.

(** [build_bus_ctrl] accepts no configuration: its mode test
    [mode != BUS_I2C || mode != BUS_SPI] holds of every mode, so with non-null
    pointers the result is always -2 and [*out_reg] is never written. *)
Theorem build_bus_ctrl_rejects_all (cfg : bus_config) (old : Z) :
  build_bus_ctrl (Some cfg) (Some old) = (-2, Some old) /\
  build_bus_ctrl None (Some old) = (-1, Some old) /\
  build_bus_ctrl (Some cfg) None = (-1, None).
Proof.
  split; [|split; reflexivity]. unfold build_bus_ctrl, BUS_I2C, BUS_SPI.
  destruct (Z.eqb_spec (mode cfg) 0) as [->|]; reflexivity.
Qed.

Section pcie_properties.
Context (LINK_SPEED_GEN_MASK LINK_SPEED_GEN_OFFSET LINK_WIDTH_MASK LINK_WIDTH_OFFSET
         LINK_TRAINING_MASK LINK_TRAINING_OFFSET : Z).
Notation parse := (parse_pcie_link_status LINK_SPEED_GEN_MASK LINK_SPEED_GEN_OFFSET LINK_WIDTH_MASK
  LINK_WIDTH_OFFSET LINK_TRAINING_MASK LINK_TRAINING_OFFSET).

(** Whatever the register layout: a null output is refused with -1, and the
    link is marked degraded exactly when the decoded speed or width differs
    from the expected one (in either direction). *)
Lemma parse_pcie_degraded link_status gen wid (out : pcie_link_info) :
  parse link_status gen wid None = (-1, None) /\
  exists info, parse link_status gen wid (Some out) = (0, Some info) /\
    in_u 8 (speed_gen info) /\ in_u 8 (width info) /\
    (degraded info = true <-> speed_gen info <> gen \/ width info <> wid).
Proof.
  split; [reflexivity|]. eexists; split; [reflexivity|]. simpl.
  split; [apply wrap_range; lia|]. split; [apply wrap_range; lia|].
  split_tests; naive_solver.
Qed.
End pcie_properties.
