(* ===== verification/Interrupts.v ===== *)
(** * Interrupt handlers and register polling

    interrupt_status_handler.c, labs/interrupt_storm_after_error.c,
    poll_hw_ready_with_timeout.c and safe_targeted_reset.c. A device register
    that the hardware changes by itself is given by what successive reads
    return ([reads : nat -> Z]), or by the bits that arrive between two
    accesses; writes to a status register clear its write-1-to-clear bits. *)

From S2P Require Import Prelude Bits Registers.

(** ** interrupt_status_handler.c *)

Definition IRQ_CMD_DONE : Z := Z.shiftl 1 0.
Definition IRQ_ERROR : Z := Z.shiftl 1 1.
Definition IRQ_FATAL : Z := Z.shiftl 1 2.
Definition IRQ_LINK_DOWN : Z := Z.shiftl 1 3.
Definition IRQ_W1C : Z := Z.lor (Z.lor IRQ_CMD_DONE IRQ_ERROR) (Z.lor IRQ_FATAL IRQ_LINK_DOWN).

Record irq_regs := mk_irq_regs { status : Z; mask : Z }.

Record irq_events := mk_irq_events {
  cmd_done_count : Z; error_count : Z; fatal_count : Z; link_down_count : Z;
  needs_recovery : bool
}.

(** The computation on the value read: the events after it and the bits to
    clear. *)
Definition handle_active (active_interrupts : Z) (ev : irq_events) : irq_events * Z :=
  let '(ev, clr) :=
    if truthy (Z.land active_interrupts IRQ_FATAL)
    then (mk_irq_events (cmd_done_count ev) (error_count ev) (fatal_count ev +u32 1)
            (link_down_count ev) true, Z.lor 0 IRQ_FATAL)
    else (ev, 0) in
  let '(ev, clr) :=
    if truthy (Z.land active_interrupts IRQ_LINK_DOWN)
    then (mk_irq_events (cmd_done_count ev) (error_count ev) (fatal_count ev)
            (link_down_count ev +u32 1) true, Z.lor clr IRQ_LINK_DOWN)
    else (ev, clr) in
  let '(ev, clr) :=
    if truthy (Z.land active_interrupts IRQ_ERROR)
    then (mk_irq_events (cmd_done_count ev) (error_count ev +u32 1) (fatal_count ev)
            (link_down_count ev) (needs_recovery ev), Z.lor clr IRQ_ERROR)
    else (ev, clr) in
  if truthy (Z.land active_interrupts IRQ_CMD_DONE)
  then (mk_irq_events (cmd_done_count ev +u32 1) (error_count ev) (fatal_count ev)
          (link_down_count ev) (needs_recovery ev), Z.lor clr IRQ_CMD_DONE)
  else (ev, clr).

(** The handler: one read of [status], one of [mask], one write to [status].
    [arrivals] are the event bits the hardware sets between the read and the
    write. *)
Definition handle_irq (regs : irq_regs) (arrivals : Z) (events : irq_events) : irq_regs * irq_events :=
  let active_interrupts := Z.land (status regs) (mask regs) in
  let '(events, bits_to_clear) := handle_active active_interrupts events in
  let pending := Z.lor (status regs) arrivals in
  (mk_irq_regs (w1c_write IRQ_W1C pending bits_to_clear) (mask regs), events).

(** ** labs/interrupt_storm_after_error.c *)

Definition STORM_IRQ_DONE : Z := Z.shiftl 1 0.
Definition STORM_IRQ_ERROR : Z := Z.shiftl 1 1.
Definition STORM_IRQ_FATAL : Z := Z.shiftl 1 2.
Definition STORM_W1C : Z := Z.lor (Z.lor STORM_IRQ_DONE STORM_IRQ_ERROR) STORM_IRQ_FATAL.

(** [st_wakes] counts the calls of [wake_recovery_task]. *)
Record storm_state := mk_storm_state {
  st_done_count : Z; st_error_count : Z; st_recovery_needed : bool; st_wakes : Z
}.

Definition irq_handler (r : irq_regs) (s : storm_state) : irq_regs * storm_state :=
  let st := status r in
  let s := if truthy (Z.land st STORM_IRQ_DONE)
           then mk_storm_state (st_done_count s +u32 1) (st_error_count s) (st_recovery_needed s)
                  (st_wakes s)
           else s in
  let s := if truthy (Z.land st STORM_IRQ_ERROR)
           then mk_storm_state (st_done_count s) (st_error_count s +u32 1) true (st_wakes s + 1)
           else s in
  let s := if truthy (Z.land st STORM_IRQ_FATAL)
           then mk_storm_state (st_done_count s) (st_error_count s) true (st_wakes s + 1)
           else s in
  (mk_irq_regs (w1c_write STORM_W1C st STORM_IRQ_DONE) (mask r), s).

(** The handler is entered again as long as an enabled bit is pending. *)
Definition irq_pending (r : irq_regs) : bool := truthy (Z.land (status r) (mask r)).

Fixpoint irq_reenter (n : nat) (r : irq_regs) (s : storm_state) : irq_regs * storm_state :=
  match n with
  | O => (r, s)
  | S n => if irq_pending r then let '(r, s) := irq_handler r s in irq_reenter n r s else (r, s)
  end.

(** ** poll_hw_ready_with_timeout.c *)

Definition FW_READY_BIT : Z := Z.shiftl 1 0.
Definition FW_ERROR_BIT : Z := Z.shiftl 1 1.
Definition FW_FATAL_BIT : Z := Z.shiftl 1 2.

(** One iteration: [Some] is the value returned, [None] goes round again. *)
Definition wait_fw_ready_body (val : Z) : option Z :=
  if truthy (Z.land val FW_FATAL_BIT) || truthy (Z.land val FW_ERROR_BIT) then Some (-2)
  else if truthy (Z.land val FW_READY_BIT) then Some 0
  else None.

(** A loop [for (i = 0; i < n; i++)] that reads the register once per round:
    the value returned ([timeout] when the loop ends) and the reads made. *)
Fixpoint poll_loop (body : Z -> option Z) (timeout : Z) (reads : nat -> Z) (i n : nat) : Z * nat :=
  match n with
  | O => (timeout, i)
  | S n => match body (reads i) with
           | Some r => (r, S i)
           | None => poll_loop body timeout reads (S i) n
           end
  end.

Definition wait_fw_ready (reads : nat -> Z) (max_iters : nat) : Z * nat :=
  poll_loop wait_fw_ready_body (-1) reads 0 max_iters.

(** ** safe_targeted_reset.c *)

Definition RST_RESET_REQ : Z := Z.shiftl 1 0.
Definition RST_TARGET_MASK : Z := Z.shiftl 0xff 8.
Definition RST_TARGET_SHIFT : Z := 8.
Definition RST_BUSY : Z := Z.shiftl 1 0.
Definition RST_RESET_DONE : Z := Z.shiftl 1 1.
Definition RST_ERROR : Z := Z.shiftl 1 2.

Definition reset_target_body (st : Z) : option Z :=
  if truthy (Z.land st RST_ERROR) then Some (-2)
  else if truthy (Z.land st RST_RESET_DONE) then Some 0
  else None.

(** [ctrl] is what the read of the control register returns, [status_reads]
    what successive reads of the status register do; the list is the values
    written to the control register. *)
Definition reset_target (ctrl : Z) (status_reads : nat -> Z) (target_id : Z) (max_iters : nat)
  : Z * list Z :=
  if Z.shiftr RST_TARGET_MASK RST_TARGET_SHIFT <? target_id then (-4, [])
  else if truthy (Z.land (status_reads 0%nat) RST_BUSY) then (-1, [])
  else
    let tmp := Z.land ctrl (~u32 (Z.lor RST_TARGET_MASK RST_RESET_REQ)) in
    let tmp := Z.lor tmp (Z.lor (u32 (Z.shiftl target_id RST_TARGET_SHIFT)) RST_RESET_REQ) in
    ((poll_loop reset_target_body (-3) status_reads 1 max_iters).1, [tmp]).

(** ** Properties *)

(** An event is handled when its bit is pending and enabled. *)
Definition irq_active (r : irq_regs) (n : Z) : bool := Z.testbit (status r) n && Z.testbit (mask r) n.

Lemma irq_w1c_bit n : 0 <= n -> Z.testbit IRQ_W1C n = (n <? 4).
Proof. intros. change IRQ_W1C with (Z.ones 4). by apply testbit_ones. Qed.

(** The bits [handle_active] clears are the active ones. *)
Lemma handle_active_clear a ev n :
  0 <= n -> Z.testbit (handle_active a ev).2 n = (n <? 4) && Z.testbit a n.
Proof.
  intros Hn. unfold handle_active, IRQ_FATAL, IRQ_LINK_DOWN, IRQ_ERROR, IRQ_CMD_DONE.
  rewrite !truthy_bit by lia.
  destruct (decide (n < 4)) as [H4|H4].
  - assert (n = 0 \/ n = 1 \/ n = 2 \/ n = 3) as [-> | [-> | [-> | ->]]] by lia;
      destruct (Z.testbit a 0) eqn:?, (Z.testbit a 1) eqn:?, (Z.testbit a 2) eqn:?,
        (Z.testbit a 3) eqn:?; reflexivity.
  - rewrite (proj2 (Z.ltb_ge n 4)) by lia. cbn [andb].
    apply (testbit_high 4); [|lia]. unfold in_u.
    destruct (Z.testbit a 0), (Z.testbit a 1), (Z.testbit a 2), (Z.testbit a 3);
      cbn; (split; [apply Z.leb_le|apply Z.ltb_lt]; reflexivity).
Qed.

(** C36. The interrupt handler counts and clears exactly the enabled pending
    events: each counter goes up by one (modulo [2^32]) when its bit is pending
    and enabled and is unchanged otherwise, recovery is requested on a fatal or
    link-down event and never withdrawn, and after the write a bit is pending
    when it was pending or has arrived meanwhile, except the handled ones: no
    masked event and no other event that arrives during the handler is lost. *)
Theorem handle_irq_exact (regs : irq_regs) (arrivals : Z) (ev : irq_events) :
  let '(regs', ev') := handle_irq regs arrivals ev in
  let count k c := if irq_active regs k then c +u32 1 else c in
  mask regs' = mask regs /\
  (forall n, 0 <= n -> Z.testbit (status regs') n =
     (Z.testbit (status regs) n || Z.testbit arrivals n) && negb ((n <? 4) && irq_active regs n)) /\
  ev' = mk_irq_events (count 0 (cmd_done_count ev)) (count 1 (error_count ev))
          (count 2 (fatal_count ev)) (count 3 (link_down_count ev))
          (needs_recovery ev || irq_active regs 2 || irq_active regs 3).
Proof.
  unfold handle_irq.
  pose proof (fun n => handle_active_clear (Z.land (status regs) (mask regs)) ev n) as Hc.
  destruct (handle_active (Z.land (status regs) (mask regs)) ev) as [ev' clr] eqn:E.
  simpl in Hc. split; [done|]. split.
  - intros n Hn. unfold w1c_write; simpl. rewrite Z.ldiff_spec, Z.lor_spec, Z.land_spec.
    rewrite Hc, irq_w1c_bit, Z.land_spec by done. unfold irq_active.
    destruct (n <? 4), (Z.testbit (status regs) n), (Z.testbit (mask regs) n),
      (Z.testbit arrivals n); reflexivity.
  - unfold handle_active, IRQ_FATAL, IRQ_LINK_DOWN, IRQ_ERROR, IRQ_CMD_DONE in E.
    rewrite !truthy_bit, !Z.land_spec in E by lia. unfold irq_active.
    destruct ev as [c0 c1 c2 c3 nr]. clear Hc.
    destruct (Z.testbit (status regs) 0 && Z.testbit (mask regs) 0),
      (Z.testbit (status regs) 1 && Z.testbit (mask regs) 1),
      (Z.testbit (status regs) 2 && Z.testbit (mask regs) 2),
      (Z.testbit (status regs) 3 && Z.testbit (mask regs) 3);
      simpl in E; injection E as <- <-; simpl; rewrite ?Bool.orb_true_r, ?Bool.orb_false_r; reflexivity.
Qed.

Lemma storm_keeps_error r s :
  Z.testbit (status r) 1 = true ->
  Z.testbit (status (irq_handler r s).1) 1 = true /\
  mask (irq_handler r s).1 = mask r /\
  st_error_count (irq_handler r s).2 = (st_error_count s +u32 1) /\
  st_wakes s + 1 <= st_wakes (irq_handler r s).2.
Proof.
  intros H. unfold irq_handler, STORM_IRQ_DONE, STORM_IRQ_ERROR, STORM_IRQ_FATAL.
  rewrite !truthy_bit, H by lia. cbn [fst snd status mask]. split; [|split; [done|]].
  - unfold w1c_write. rewrite Z.ldiff_spec, H. reflexivity.
  - destruct (Z.testbit (status r) 0), (Z.testbit (status r) 2); simpl; split; (done || lia).
Qed.

(** The lab's handler storms: once an enabled ERROR bit is pending, and
    as long as only the handler touches the registers, the interrupt is still
    pending after any number of entries, each of which counts the same error
    again and wakes the recovery task again. *)
Theorem irq_handler_storms (n : nat) (r : irq_regs) (s : storm_state)
    (Hst : Z.testbit (status r) 1 = true) (Hm : Z.testbit (mask r) 1 = true)
    (He : in_u 32 (st_error_count s)) :
  let '(r', s') := irq_reenter n r s in
  irq_pending r' = true /\
  st_error_count s' = (st_error_count s +u32 Z.of_nat n) /\
  st_wakes s + Z.of_nat n <= st_wakes s'.
Proof.
  assert (Hp : forall r, Z.testbit (status r) 1 = true -> Z.testbit (mask r) 1 = true ->
    irq_pending r = true).
  { intros q Hq1 Hq2. unfold irq_pending, truthy. apply negb_true_iff, Z.eqb_neq. intros E.
    apply (f_equal (fun z => Z.testbit z 1)) in E. rewrite Z.land_spec, Hq1, Hq2 in E. done. }
  revert r s Hst Hm He. induction n as [|n IH]; intros r s Hst Hm He; cbn [irq_reenter].
  - split; [by apply Hp|]. split; [|lia]. rewrite Z.add_0_r. symmetry. by apply wrap_small.
  - rewrite Hp by done. destruct (storm_keeps_error r s Hst) as (Hst' & Hm' & He' & Hw').
    destruct (irq_handler r s) as [r1 s1]; cbn [fst snd] in *.
    specialize (IH r1 s1 Hst' ltac:(congruence)
                  ltac:(rewrite He'; apply wrap_range; lia)).
    destruct (irq_reenter n r1 s1) as [r2 s2]. destruct IH as (IH1 & IH2 & IH3).
    split; [done|]. rewrite IH2, He'. autorewrite with cword. split; [f_equal; lia|lia].
Qed.

Lemma irq_handler_storms_witness :
  let '(r', s') := irq_reenter 3 (mk_irq_regs 2 7) (mk_storm_state 0 0 false 0) in
  irq_pending r' = true /\ st_error_count s' = (0 +u32 Z.of_nat 3) /\ 0 + Z.of_nat 3 <= st_wakes s'.
Proof.
  apply (irq_handler_storms 3 (mk_irq_regs 2 7) (mk_storm_state 0 0 false 0));
    [reflexivity|reflexivity|unfold in_u; simpl; lia].
Defined.

(** The loop returns at its first decisive read, or times out. *)
Lemma poll_loop_timeout body timeout reads i n :
  (forall j, (j < n)%nat -> body (reads (i + j)%nat) = None) ->
  poll_loop body timeout reads i n = (timeout, (i + n)%nat).
Proof.
  revert i. induction n as [|n IH]; intros i H; simpl; [by rewrite Nat.add_0_r|].
  rewrite <- (Nat.add_0_r i) at 1. rewrite (H 0%nat) by lia.
  rewrite IH; [f_equal; lia|]. intros j Hj. rewrite <- (H (S j)) by lia. f_equal. f_equal. lia.
Qed.

Lemma poll_loop_first body timeout reads i n k r :
  (k < n)%nat -> (forall j, (j < k)%nat -> body (reads (i + j)%nat) = None) ->
  body (reads (i + k)%nat) = Some r ->
  poll_loop body timeout reads i n = (r, (i + k + 1)%nat).
Proof.
  revert i k. induction n as [|n IH]; intros i k Hk H Hr; [lia|]. simpl.
  destruct k as [|k].
  - rewrite Nat.add_0_r in Hr. rewrite Hr. f_equal. lia.
  - rewrite <- (Nat.add_0_r i) at 1. rewrite (H 0%nat) by lia.
    rewrite (IH (S i) k); [f_equal; lia|lia|..].
    + intros j Hj. rewrite <- (H (S j)) by lia. f_equal. f_equal. lia.
    + rewrite <- Hr. f_equal. f_equal. lia.
Qed.

Lemma wait_fw_ready_body_bits v :
  wait_fw_ready_body v =
  if Z.testbit v 2 || Z.testbit v 1 then Some (-2) else if Z.testbit v 0 then Some 0 else None.
Proof.
  unfold wait_fw_ready_body, FW_FATAL_BIT, FW_ERROR_BIT, FW_READY_BIT.
  by rewrite !truthy_bit by lia.
Qed.

(** A status value that ends the wait. *)
Definition fw_decisive (v : Z) : bool := Z.testbit v 0 || Z.testbit v 1 || Z.testbit v 2.

(** [wait_fw_ready] answers by the first decisive read: if none of the
    first [max_iters] reads shows READY, ERROR or FATAL it returns -1 after
    exactly [max_iters] reads; otherwise, at the first one that does, it returns
    -2 when ERROR or FATAL is set (also together with READY) and 0 when only
    READY is, having read the register once per round. *)
Theorem wait_fw_ready_first (reads : nat -> Z) (max_iters : nat) :
  ((forall j, (j < max_iters)%nat -> fw_decisive (reads j) = false) ->
   wait_fw_ready reads max_iters = (-1, max_iters)) /\
  (forall k, (k < max_iters)%nat -> (forall j, (j < k)%nat -> fw_decisive (reads j) = false) ->
   fw_decisive (reads k) = true ->
   wait_fw_ready reads max_iters =
     ((if Z.testbit (reads k) 1 || Z.testbit (reads k) 2 then -2 else 0), (k + 1)%nat)).
Proof.
  assert (Hnone : forall v, fw_decisive v = false -> wait_fw_ready_body v = None).
  { intros v Hv. rewrite wait_fw_ready_body_bits. unfold fw_decisive in Hv.
    destruct (Z.testbit v 0), (Z.testbit v 1), (Z.testbit v 2); done. }
  split.
  - intros H. unfold wait_fw_ready. rewrite poll_loop_timeout; [done|]. simpl. auto.
  - intros k Hk Hbefore Hat. unfold wait_fw_ready.
    rewrite (poll_loop_first _ _ _ 0 max_iters k
      (if Z.testbit (reads k) 1 || Z.testbit (reads k) 2 then -2 else 0)); [done|done|simpl; auto|].
    cbn [Nat.add]. rewrite wait_fw_ready_body_bits. unfold fw_decisive in Hat.
    destruct (Z.testbit (reads k) 0), (Z.testbit (reads k) 1), (Z.testbit (reads k) 2); done.
Qed.

Lemma wait_fw_ready_first_witness :
  ((forall j, (j < 4)%nat -> fw_decisive (if Nat.eqb j 2 then 5 else 8) = false) ->
   wait_fw_ready (fun j => if Nat.eqb j 2 then 5 else 8) 4 = (-1, 4%nat)) /\
  (forall k, (k < 4)%nat -> (forall j, (j < k)%nat -> fw_decisive (if Nat.eqb j 2 then 5 else 8) = false) ->
   fw_decisive (if Nat.eqb k 2 then 5 else 8) = true ->
   wait_fw_ready (fun j => if Nat.eqb j 2 then 5 else 8) 4 =
     ((if Z.testbit (if Nat.eqb k 2 then 5 else 8) 1 || Z.testbit (if Nat.eqb k 2 then 5 else 8) 2
       then -2 else 0), (k + 1)%nat)).
Proof. apply (wait_fw_ready_first (fun j => if Nat.eqb j 2 then 5 else 8) 4). Defined.

Example wait_fw_ready_ex : wait_fw_ready (fun j => if Nat.eqb j 2 then 5 else 8) 4 = (-2, 3%nat).
Proof. reflexivity. Qed.

(** [reset_target] validates before it writes and writes once: a target
    of more than 8 bits (-4) or a busy device (-1) leaves the control register
    alone; otherwise exactly one value is written, with the target in bits
    [15:8], the request bit set and every other bit as read, and the result is
    0, -2 or -3. *)
Theorem reset_target_write (ctrl target_id : Z) (status_reads : nat -> Z) (max_iters : nat)
    (Hc : in_u 32 ctrl) (Ht : in_u 32 target_id) :
  (255 < target_id -> reset_target ctrl status_reads target_id max_iters = (-4, [])) /\
  (target_id <= 255 -> Z.testbit (status_reads 0%nat) 0 = true ->
   reset_target ctrl status_reads target_id max_iters = (-1, [])) /\
  (target_id <= 255 -> Z.testbit (status_reads 0%nat) 0 = false ->
   exists r v, reset_target ctrl status_reads target_id max_iters = (r, [v]) /\
     (r = 0 \/ r = -2 \/ r = -3) /\
     forall n, 0 <= n -> Z.testbit v n =
       if n =? 0 then true
       else if (8 <=? n) && (n <? 16) then Z.testbit target_id (n - 8) else Z.testbit ctrl n).
Proof.
  unfold reset_target. change (Z.shiftr RST_TARGET_MASK RST_TARGET_SHIFT) with 255.
  unfold RST_BUSY. rewrite truthy_bit by lia.
  split; [|split].
  - intros H. by rewrite (proj2 (Z.ltb_lt 255 target_id)).
  - intros H ->. by rewrite (proj2 (Z.ltb_ge 255 target_id)).
  - intros H ->. rewrite (proj2 (Z.ltb_ge 255 target_id)) by done.
    eexists _, _; split; [reflexivity|]. split.
    + generalize 1%nat as i. induction max_iters as [|m IH]; intros i; simpl; [auto|].
      unfold reset_target_body. destruct (truthy _); [auto|]. destruct (truthy _); auto.
    + intros n Hn. unfold RST_RESET_REQ, RST_TARGET_SHIFT.
      rewrite !Z.lor_spec, Z.land_spec, !testbit_wrap, Z.lnot_spec, Z.lor_spec, bit_of_pow by lia.
      change RST_TARGET_MASK with (Z.shiftl (Z.ones 8) 8). unfold in_u in *.
      destruct (decide (n < 8)) as [Hlt|Hge].
      * rewrite !testbit_shiftl_neg by lia. bit_cases.
      * autorewrite with bits.
        bit_cases; rewrite ?(testbit_high 8 target_id) by (unfold in_u; lia);
          rewrite ?(testbit_high 32 ctrl) by (unfold in_u; lia); bit_cases.
Qed.

Lemma reset_target_write_witness :
  (255 < 7 -> reset_target 0xf0000000 (fun i => if i is 3%nat then 2 else 0) 7 10 = (-4, [])) /\
  (7 <= 255 -> Z.testbit 0 0 = true ->
   reset_target 0xf0000000 (fun i => if i is 3%nat then 2 else 0) 7 10 = (-1, [])) /\
  (7 <= 255 -> Z.testbit 0 0 = false ->
   exists r v, reset_target 0xf0000000 (fun i => if i is 3%nat then 2 else 0) 7 10 = (r, [v]) /\
     (r = 0 \/ r = -2 \/ r = -3) /\
     forall n, 0 <= n -> Z.testbit v n =
       if n =? 0 then true
       else if (8 <=? n) && (n <? 16) then Z.testbit 7 (n - 8) else Z.testbit 0xf0000000 n).
Proof.
  apply (reset_target_write 0xf0000000 7 (fun i => if i is 3%nat then 2 else 0) 10);
    unfold in_u; lia.
Defined.

Example reset_target_ex :
  reset_target 0xf0000000 (fun i => if i is 3%nat then 2 else 0) 7 10 = (0, [0xf0000701]).
Proof. reflexivity. Qed.
