(* ===== verification/MemBasics.v ===== *)
(** * mem_basics.c: memcpy, memmove and memset by words

    Memory is one flat array of bytes; a pointer is an index into it, [None]
    the null pointer. The routines move 32-bit words and then the remaining
    bytes; a word access is four byte accesses in little-endian order. An access
    outside the array is undefined behaviour ([None]), and so is a word access
    at an address that is not a multiple of 4 when [strict_align] holds (the C
    standard, and many microcontrollers); with [strict_align = false] it is
    allowed, as on x86-64. *)

From S2P Require Import Prelude.

Section mem_basics.
Variable strict_align : bool.

Definition word_ok (a : Z) : bool := negb strict_align || (a mod 4 =? 0).

Definition load32 (m : list Z) (a : Z) : option Z :=
  if word_ok a then
    b0 ← m.[a]; b1 ← m.[a + 1]; b2 ← m.[a + 2]; b3 ← m.[a + 3];
    Some (b0 + b1 * 2 ^ 8 + b2 * 2 ^ 16 + b3 * 2 ^ 24)
  else None.

Definition store32 (m : list Z) (a v : Z) : option (list Z) :=
  if word_ok a then
    m ← m.[a <- v mod 2 ^ 8];
    m ← m.[a + 1 <- (v / 2 ^ 8) mod 2 ^ 8];
    m ← m.[a + 2 <- (v / 2 ^ 16) mod 2 ^ 8];
    m.[a + 3 <- (v / 2 ^ 24) mod 2 ^ 8]
  else None.

(** The loops of the code: [n] rounds from the given pointers. *)
Fixpoint copy_words (n : nat) (dst32 src32 : Z) (m : list Z) : option (list Z) :=
  match n with
  | O => Some m
  | S n => v ← load32 m src32; m ← store32 m dst32 v; copy_words n (dst32 + 4) (src32 + 4) m
  end.

Fixpoint copy_bytes (n : nat) (dst8 src8 : Z) (m : list Z) : option (list Z) :=
  match n with
  | O => Some m
  | S n => v ← m.[src8]; m ← m.[dst8 <- v]; copy_bytes n (dst8 + 1) (src8 + 1) m
  end.

Fixpoint copy_bytes_down (n : nat) (dst_end src_end : Z) (m : list Z) : option (list Z) :=
  match n with
  | O => Some m
  | S n => v ← m.[src_end]; m ← m.[dst_end <- v]; copy_bytes_down n (dst_end - 1) (src_end - 1) m
  end.

Fixpoint set_words (n : nat) (dst32 val32 : Z) (m : list Z) : option (list Z) :=
  match n with
  | O => Some m
  | S n => m ← store32 m dst32 val32; set_words n (dst32 + 4) val32 m
  end.

Fixpoint set_bytes (n : nat) (dst8 val8 : Z) (m : list Z) : option (list Z) :=
  match n with
  | O => Some m
  | S n => m ← m.[dst8 <- val8]; set_bytes n (dst8 + 1) val8 m
  end.

(** The returned pointer and the memory afterwards. *)
Definition my_memcpy (m : list Z) (dst src : option Z) (n : Z) : option (option Z * list Z) :=
  match dst, src with
  | Some d, Some s =>
      if n =? 0 then Some (dst, m)
      else
        let words := Z.shiftr n 2 in
        m ← copy_words (Z.to_nat words) d s m;
        m ← copy_bytes (Z.to_nat (Z.land n 0x3)) (d + 4 * words) (s + 4 * words) m;
        Some (dst, m)
  | _, _ => Some (dst, m)
  end.

Definition my_memmove (m : list Z) (dst src : option Z) (n : Z) : option (option Z * list Z) :=
  match dst, src with
  | Some d, Some s =>
      if (n =? 0) || (s =? d) then Some (dst, m)
      else
        let dst_end := d + (n - 1) in
        let src_end := s + (n - 1) in
        if (s <? d) && (d <=? src_end) then
          m ← copy_bytes_down (Z.to_nat n) dst_end src_end m; Some (dst, m)
        else my_memcpy m dst src n
  | _, _ => Some (dst, m)
  end.

Definition my_memset (m : list Z) (dst : option Z) (value n : Z) : option (option Z * list Z) :=
  match dst with
  | Some d =>
      if (255 <? value) || (n =? 0) then Some (dst, m)
      else
        let val := u32 value in
        let val32 := Z.lor (Z.lor (Z.lor (u32 (Z.shiftl val 24)) (u32 (Z.shiftl val 16)))
                              (u32 (Z.shiftl val 8))) val in
        let words := Z.shiftr n 2 in
        m ← set_words (Z.to_nat words) d val32 m;
        m ← set_bytes (Z.to_nat (Z.land n 0x3)) (d + 4 * words) (u8 value) m;
        Some (dst, m)
  | None => Some (dst, m)
  end.

(** ** Lemmas *)

Definition bytes (m : list Z) : Prop := Forall (in_u 8) m.

(** The [n] bytes at [d] are the ones [f] gives, the rest of the memory is
    as before. *)
Definition filled (f : Z -> option Z) (m m' : list Z) (d n : Z) : Prop :=
  length m' = length m /\
  forall a, m'.[a] = if bool_decide (d <= a < d + n) then f a else m.[a].

(** The bytes at [d] are those that were at [s]. *)
Definition moved (m m' : list Z) (d s n : Z) : Prop := filled (fun a => m.[a - d + s]) m m' d n.

Definition in_range (m : list Z) (a n : Z) : Prop := 0 <= a /\ 0 <= n /\ a + n <= Z.of_nat (length m).

Lemma bytes_get m a b : bytes m -> m.[a] = Some b -> in_u 8 b.
Proof.
  intros H Ha. pose proof (arr_get_Some _ _ _ Ha). rewrite arr_get_nat in Ha by lia.
  eapply Forall_lookup_1; eauto.
Qed.

Lemma filled_bytes f m m' d n :
  bytes m -> (forall a b, f a = Some b -> in_u 8 b) -> filled f m m' d n -> bytes m'.
Proof.
  intros Hm Hf [Hl H]. apply Forall_lookup. intros i x Hx.
  specialize (H (Z.of_nat i)). rewrite arr_get_nat, Nat2Z.id, Hx in H by lia.
  case_bool_decide; [by apply (Hf (Z.of_nat i))|]. by apply (bytes_get m (Z.of_nat i)).
Qed.

Lemma moved_bytes m m' d s n : bytes m -> moved m m' d s n -> bytes m'.
Proof. intros Hm. apply filled_bytes; [done|]. intros a b. by apply bytes_get. Qed.

Lemma filled_one m d v :
  0 <= d < Z.of_nat (length m) ->
  exists m', m.[d <- v] = Some m' /\ filled (fun _ => Some v) m m' d 1.
Proof.
  intros Hd. exists (<[Z.to_nat d := v]> m). split; [by apply arr_set_in|].
  split; [by rewrite length_insert|]. intros a.
  rewrite (arr_get_set m _ d a v) by (by apply arr_set_in).
  split_tests; (done || (exfalso; lia)).
Qed.

(** Adjacent fills compose. *)
Lemma filled_app f g h m m1 m2 d k j :
  0 <= k -> 0 <= j -> filled f m m1 d k -> filled g m1 m2 (d + k) j ->
  (forall a, d <= a < d + k -> f a = h a) -> (forall a, d + k <= a < d + k + j -> g a = h a) ->
  filled h m m2 d (k + j).
Proof.
  intros Hk Hj [L1 F1] [L2 F2] Hf Hg. split; [congruence|]. intros a.
  rewrite F2, F1. split_tests; try (exfalso; lia); auto with lia.
Qed.

Lemma filled_app_down f g h m m1 m2 d k j :
  0 <= k -> 0 <= j -> filled g m m1 (d + k) j -> filled f m1 m2 d k ->
  (forall a, d <= a < d + k -> f a = h a) -> (forall a, d + k <= a < d + k + j -> g a = h a) ->
  filled h m m2 d (k + j).
Proof.
  intros Hk Hj [L1 F1] [L2 F2] Hf Hg. split; [congruence|]. intros a.
  rewrite F2, F1. split_tests; try (exfalso; lia); auto with lia.
Qed.

Lemma filled_nil f m d n : n <= 0 -> filled f m m d n.
Proof. intros. split; [done|]. intros a. split_tests; (done || (exfalso; lia)). Qed.

(** A forward copy is exact when the destination starts first or the two
    ranges are disjoint. *)
Lemma moved_trans m m1 m2 d s k j :
  0 <= k -> 0 <= j -> (d <= s \/ s + k + j <= d) ->
  moved m m1 d s k -> moved m1 m2 (d + k) (s + k) j -> moved m m2 d s (k + j).
Proof.
  intros Hk Hj Hds F1 F2. eapply filled_app; eauto.
  intros a Ha. simpl. destruct F1 as [_ F1]. rewrite F1.
  split_tests; [exfalso; lia|]. f_equal. lia.
Qed.

(** A backward copy is exact when the source starts first. *)
Lemma moved_trans_down m m1 m2 d s k j :
  0 <= k -> 0 <= j -> s <= d ->
  moved m m1 (d + k) (s + k) j -> moved m1 m2 d s k -> moved m m2 d s (k + j).
Proof.
  intros Hk Hj Hds F1 F2. eapply filled_app_down; eauto.
  - intros a Ha. simpl. destruct F1 as [_ F1]. rewrite F1.
    split_tests; [exfalso; lia|]. f_equal.
  - intros a Ha. simpl. f_equal. lia.
Qed.

Lemma bytes_of_word b0 b1 b2 b3 :
  in_u 8 b0 -> in_u 8 b1 -> in_u 8 b2 -> in_u 8 b3 ->
  let v := b0 + b1 * 2 ^ 8 + b2 * 2 ^ 16 + b3 * 2 ^ 24 in
  v mod 2 ^ 8 = b0 /\ (v / 2 ^ 8) mod 2 ^ 8 = b1 /\ (v / 2 ^ 16) mod 2 ^ 8 = b2 /\
  (v / 2 ^ 24) mod 2 ^ 8 = b3.
Proof. unfold in_u. simpl. intros. repeat split; modlia. Qed.

Definition word_byte (v d a : Z) : option Z := Some ((v / 2 ^ (8 * (a - d))) mod 2 ^ 8).

Lemma store32_filled m d v :
  in_range m d 4 -> word_ok d = true ->
  exists m', store32 m d v = Some m' /\ filled (word_byte v d) m m' d 4.
Proof.
  intros (Hd & _ & Hl) Hok. unfold store32. rewrite Hok.
  destruct (filled_one m d (v mod 2 ^ 8)) as (m1 & -> & F1); [lia|]. pose proof (proj1 F1).
  destruct (filled_one m1 (d + 1) ((v / 2 ^ 8) mod 2 ^ 8)) as (m2 & E2 & F2); [lia|].
  simpl. rewrite E2. simpl. pose proof (proj1 F2).
  destruct (filled_one m2 (d + 2) ((v / 2 ^ 16) mod 2 ^ 8)) as (m3 & E3 & F3); [lia|].
  rewrite E3. simpl. pose proof (proj1 F3).
  destruct (filled_one m3 (d + 3) ((v / 2 ^ 24) mod 2 ^ 8)) as (m4 & E4 & F4); [lia|].
  exists m4. split; [done|].
  assert (G : forall a k, a = d + k -> word_byte v d a = Some ((v / 2 ^ (8 * k)) mod 2 ^ 8)).
  { intros a k ->. unfold word_byte. do 4 f_equal. lia. }
  assert (G0 : word_byte v d d = Some (v mod 2 ^ 8)).
  { rewrite (G d 0) by lia. do 2 f_equal. apply Z.div_1_r. }
  refine (filled_app _ _ _ m m3 m4 d 3 1 _ _ _ F4 _ _); [lia|lia| |intros; reflexivity|].
  - refine (filled_app _ _ _ m m2 m3 d 2 1 _ _ _ F3 _ _); [lia|lia| |intros; reflexivity|].
    + refine (filled_app _ _ _ m m1 m2 d 1 1 _ _ F1 F2 _ _); [lia|lia|..].
      * intros a Ha. replace a with d by lia. by rewrite G0.
      * intros a Ha. by rewrite (G a 1) by lia.
    + intros a Ha. by rewrite (G a 2) by lia.
  - intros a Ha. by rewrite (G a 3) by lia.
Qed.

Lemma word_step m d s :
  bytes m -> in_range m d 4 -> in_range m s 4 -> word_ok d = true -> word_ok s = true ->
  exists v m', load32 m s = Some v /\ store32 m d v = Some m' /\ moved m m' d s 4.
Proof.
  intros Hm Hd (Hs & _ & Hsl) Hok Hok'. unfold load32. rewrite Hok'.
  destruct (arr_get_is_Some m s) as [b0 E0]; [lia|].
  destruct (arr_get_is_Some m (s + 1)) as [b1 E1]; [lia|].
  destruct (arr_get_is_Some m (s + 2)) as [b2 E2]; [lia|].
  destruct (arr_get_is_Some m (s + 3)) as [b3 E3]; [lia|].
  rewrite E0, E1, E2, E3. cbn [mbind option_bind].
  destruct (bytes_of_word b0 b1 b2 b3) as (W0 & W1 & W2 & W3); eauto using bytes_get.
  set (v := b0 + b1 * 2 ^ 8 + b2 * 2 ^ 16 + b3 * 2 ^ 24) in *.
  destruct (store32_filled m d v Hd Hok) as (m' & Hst & F).
  exists v, m'. split; [done|]. split; [done|].
  destruct F as [L F]. split; [done|]. intros a. rewrite F.
  case_bool_decide; [|done]. unfold word_byte.
  assert (a = d \/ a = d + 1 \/ a = d + 2 \/ a = d + 3) as [-> | [-> | [-> | ->]]] by lia.
  - rewrite Z.sub_diag, Z.mul_0_r, Z.div_1_r, W0. done.
  - replace (8 * (d + 1 - d)) with 8 by lia. rewrite W1, <- E1. f_equal. lia.
  - replace (8 * (d + 2 - d)) with 16 by lia. rewrite W2, <- E2. f_equal. lia.
  - replace (8 * (d + 3 - d)) with 24 by lia. rewrite W3, <- E3. f_equal. lia.
Qed.

Lemma word_ok_next a : word_ok a = true -> word_ok (a + 4) = true.
Proof.
  unfold word_ok. destruct strict_align; simpl; [|done]. rewrite !Z.eqb_eq. intros. modlia.
Qed.

Lemma copy_words_moved n : forall m d s,
  bytes m -> in_range m d (4 * Z.of_nat n) -> in_range m s (4 * Z.of_nat n) ->
  word_ok d = true -> word_ok s = true -> (d <= s \/ s + 4 * Z.of_nat n <= d) ->
  exists m', copy_words n d s m = Some m' /\ moved m m' d s (4 * Z.of_nat n).
Proof.
  induction n as [|n IH]; intros m d s Hm Hd Hs Hok Hok' Hds; simpl.
  { exists m. split; [done|]. by apply filled_nil. }
  destruct (word_step m d s) as (v & m1 & Hv & Hst & F1); [done|unfold in_range in *; lia..|done|done|].
  rewrite Hv. simpl. rewrite Hst. simpl. pose proof (proj1 F1) as L1.
  destruct (IH m1 (d + 4) (s + 4)) as (m2 & E2 & F2);
    [by eapply moved_bytes|unfold in_range in *; lia|unfold in_range in *; lia
    |by apply word_ok_next|by apply word_ok_next|lia|].
  exists m2. split; [done|].
  replace (4 * Z.of_nat (S n)) with (4 + 4 * Z.of_nat n) by lia.
  eapply moved_trans; eauto; lia.
Qed.

Lemma byte_step m d s :
  in_range m d 1 -> in_range m s 1 ->
  exists v m', m.[s] = Some v /\ m.[d <- v] = Some m' /\ moved m m' d s 1.
Proof.
  intros Hd Hs. unfold in_range in *.
  destruct (arr_get_is_Some m s) as [v Hv]; [lia|].
  destruct (filled_one m d v) as (m1 & Hset & [L F]); [lia|].
  exists v, m1. split; [done|]. split; [done|]. split; [done|].
  intros a. rewrite F. case_bool_decide; [|done]. rewrite <- Hv. f_equal. lia.
Qed.

Lemma copy_bytes_moved n : forall m d s,
  in_range m d (Z.of_nat n) -> in_range m s (Z.of_nat n) -> (d <= s \/ s + Z.of_nat n <= d) ->
  exists m', copy_bytes n d s m = Some m' /\ moved m m' d s (Z.of_nat n).
Proof.
  induction n as [|n IH]; intros m d s Hd Hs Hds; simpl.
  { exists m. split; [done|]. by apply filled_nil. }
  destruct (byte_step m d s) as (v & m1 & Hv & Hst & F1); [unfold in_range in *; lia..|].
  rewrite Hv. simpl. rewrite Hst. simpl. pose proof (proj1 F1) as L1.
  destruct (IH m1 (d + 1) (s + 1)) as (m2 & E2 & F2); [unfold in_range in *; lia..|lia|].
  exists m2. split; [done|]. rewrite Nat2Z.inj_succ, <- Z.add_1_l.
  eapply moved_trans; eauto; lia.
Qed.

Lemma copy_bytes_down_moved n : forall m d s,
  in_range m d (Z.of_nat n) -> in_range m s (Z.of_nat n) -> s <= d ->
  exists m', copy_bytes_down n (d + (Z.of_nat n - 1)) (s + (Z.of_nat n - 1)) m = Some m' /\
    moved m m' d s (Z.of_nat n).
Proof.
  induction n as [|n IH]; intros m d s Hd Hs Hds; cbn [copy_bytes_down].
  { exists m. split; [done|]. by apply filled_nil. }
  replace (d + (Z.of_nat (S n) - 1)) with (d + Z.of_nat n) by lia.
  replace (s + (Z.of_nat (S n) - 1)) with (s + Z.of_nat n) by lia.
  destruct (byte_step m (d + Z.of_nat n) (s + Z.of_nat n)) as (v & m1 & Hv & Hst & F1);
    [unfold in_range in *; lia..|].
  rewrite Hv. simpl. rewrite Hst. simpl. pose proof (proj1 F1) as L1.
  destruct (IH m1 d s) as (m2 & E2 & F2); [unfold in_range in *; lia..|lia|].
  exists m2. rewrite Z.add_sub_assoc in E2. rewrite Z.add_sub_assoc in E2. split; [done|].
  rewrite Nat2Z.inj_succ, <- Z.add_1_r. eapply moved_trans_down; eauto; lia.
Qed.

Lemma words_and_rest n : 0 <= n -> n = 4 * Z.shiftr n 2 + Z.land n 3 /\ 0 <= Z.shiftr n 2 /\ 0 <= Z.land n 3.
Proof.
  intros. rewrite Z.shiftr_div_pow2 by lia. change 3 with (2 ^ 2 - 1).
  rewrite land_mask by lia. simpl. split_and!; modlia.
Qed.

Lemma my_memcpy_moved m d s n :
  bytes m -> in_range m d n -> in_range m s n -> word_ok d = true -> word_ok s = true ->
  (d <= s \/ s + n <= d) ->
  exists m', my_memcpy m (Some d) (Some s) n = Some (Some d, m') /\ moved m m' d s n.
Proof.
  intros Hm Hd Hs Hok Hok' Hds. unfold my_memcpy.
  destruct (Z.eqb_spec n 0) as [->|Hn]; [exists m; split; [done|by apply filled_nil]|].
  destruct (words_and_rest n) as (E & W1 & W2); [unfold in_range in *; lia|].
  set (w := Z.shiftr n 2) in *. set (r := Z.land n 3) in *. unfold in_range in *.
  destruct (copy_words_moved (Z.to_nat w) m d s) as (m1 & E1 & F1);
    [done|unfold in_range; lia..|done|done|lia|].
  rewrite E1. simpl. rewrite Z2Nat.id in F1 by lia. pose proof (proj1 F1).
  destruct (copy_bytes_moved (Z.to_nat r) m1 (d + 4 * w) (s + 4 * w)) as (m2 & E2 & F2);
    [unfold in_range; lia..|lia|].
  rewrite E2. simpl. exists m2. split; [done|]. rewrite Z2Nat.id in F2 by lia.
  rewrite E. eapply moved_trans; eauto; lia.
Qed.

Lemma set_words_filled n : forall m d v h,
  in_range m d (4 * Z.of_nat n) -> word_ok d = true ->
  (forall b a, word_byte v b a = Some h \/ ~ (b <= a < b + 4)) ->
  exists m', set_words n d v m = Some m' /\ filled (fun _ => Some h) m m' d (4 * Z.of_nat n).
Proof.
  induction n as [|n IH]; intros m d v h Hd Hok Hv; simpl.
  { exists m. split; [done|]. by apply filled_nil. }
  destruct (store32_filled m d v) as (m1 & Hst & F1); [unfold in_range in *; lia|done|].
  rewrite Hst. simpl. pose proof (proj1 F1).
  destruct (IH m1 (d + 4) v h) as (m2 & E2 & F2);
    [unfold in_range in *; lia|by apply word_ok_next|done|].
  exists m2. split; [done|]. replace (4 * Z.of_nat (S n)) with (4 + 4 * Z.of_nat n) by lia.
  refine (filled_app _ _ _ _ _ _ _ _ _ _ _ F1 F2 _ _); [lia|lia| |done].
  intros a Ha. destruct (Hv d a); [done|lia].
Qed.

Lemma set_bytes_filled n : forall m d v,
  in_range m d (Z.of_nat n) ->
  exists m', set_bytes n d v m = Some m' /\ filled (fun _ => Some v) m m' d (Z.of_nat n).
Proof.
  induction n as [|n IH]; intros m d v Hd; simpl.
  { exists m. split; [done|]. by apply filled_nil. }
  destruct (filled_one m d v) as (m1 & Hst & F1); [unfold in_range in *; lia|].
  rewrite Hst. simpl. pose proof (proj1 F1).
  destruct (IH m1 (d + 1) v) as (m2 & E2 & F2); [unfold in_range in *; lia|].
  exists m2. split; [done|]. rewrite Nat2Z.inj_succ, <- Z.add_1_l.
  refine (filled_app _ _ _ _ _ _ _ _ _ _ _ F1 F2 _ _); (lia || done).
Qed.

(** The word [my_memset] stores is the value in every byte. *)
Lemma memset_word value b a :
  0 <= value <= 255 ->
  let val := u32 value in
  let val32 := Z.lor (Z.lor (Z.lor (u32 (Z.shiftl val 24)) (u32 (Z.shiftl val 16)))
                              (u32 (Z.shiftl val 8))) val in
  word_byte val32 b a = Some (u8 value) \/ ~ (b <= a < b + 4).
Proof.
  intros Hv. simpl. destruct (decide (b <= a < b + 4)) as [Ha|]; [left|by right].
  assert (Hbv : forallb (fun v =>
    forallb (fun k => bool_decide (word_byte (Z.lor (Z.lor (Z.lor (u32 (Z.shiftl (u32 v) 24))
      (u32 (Z.shiftl (u32 v) 16))) (u32 (Z.shiftl (u32 v) 8))) (u32 v)) 0 k = Some (u8 v)))
      (seqZ 0 4)) (seqZ 0 256) = true) by (vm_compute; reflexivity).
  rewrite forallb_forall in Hbv. specialize (Hbv value).
  rewrite <- list_elem_of_In, elem_of_seqZ, forallb_forall in Hbv.
  specialize (Hbv ltac:(lia) (a - b)). rewrite <- list_elem_of_In, elem_of_seqZ in Hbv.
  specialize (Hbv ltac:(lia)). rewrite bool_decide_eq_true in Hbv. rewrite <- Hbv.
  unfold word_byte. do 4 f_equal. lia.
Qed.

(** ** Properties *)

(** [my_memmove] returns at once, or copies byte by byte from the end. *)
Definition no_words (d s n : Z) : Prop := n = 0 \/ s = d \/ s < d <= s + (n - 1).

(** A copy by words at an address that words may not use is undefined. *)
Lemma my_memcpy_misaligned m d s n :
  4 <= n -> in_range m s n -> word_ok d && word_ok s = false -> my_memcpy m (Some d) (Some s) n = None.
Proof.
  intros Hn (? & ? & ?) Hok. unfold my_memcpy. rewrite (proj2 (Z.eqb_neq n 0)) by lia.
  destruct (Z.to_nat (Z.shiftr n 2)) as [|k] eqn:E.
  { rewrite Z.shiftr_div_pow2 in E by lia. assert (1 <= n / 2 ^ 2) by (apply Z.div_le_lower_bound; lia). lia. }
  cbn [copy_words]. unfold load32. destruct (word_ok s); [|done].
  destruct (arr_get_is_Some m s) as [b0 ->]; [lia|]. destruct (arr_get_is_Some m (s + 1)) as [b1 ->]; [lia|].
  destruct (arr_get_is_Some m (s + 2)) as [b2 ->]; [lia|]. destruct (arr_get_is_Some m (s + 3)) as [b3 ->]; [lia|].
  cbn [mbind option_bind]. unfold store32. by destruct (word_ok d).
Qed.

(** C30. [my_memmove] moves [n] bytes, for two ranges inside memory that overlap in
    either direction or not: when [dst] and [src] are addresses that word
    accesses may use (multiples of 4 with [strict_align], any without), and also
    for any addresses where no words are used ([n] is 0, the ranges are the same,
    or [dst] lies inside the source range behind [src]), it returns [dst], the
    [n] bytes at [dst] are those that were at [src] before the call, and no
    other byte changes. Otherwise, from [n = 4] on, it is undefined. *)
Theorem my_memmove_exact (m : list Z) (d s n : Z)
    (Hm : bytes m) (Hd : in_range m d n) (Hs : in_range m s n) :
  (word_ok d = true /\ word_ok s = true \/ no_words d s n ->
     exists m', my_memmove m (Some d) (Some s) n = Some (Some d, m') /\ moved m m' d s n) /\
  (word_ok d && word_ok s = false -> ~ no_words d s n -> 4 <= n ->
     my_memmove m (Some d) (Some s) n = None).
Proof.
  unfold my_memmove, no_words. split.
  - intros Hok. destruct (Z.eqb_spec n 0) as [->|Hn]; [exists m; split; [done|by apply filled_nil]|].
    destruct (Z.eqb_spec s d) as [->|Hsd].
    { exists m. split; [done|]. split; [done|]. intros a. case_bool_decide; [|done]. f_equal. lia. }
    cbn [orb]. destruct (Z.ltb_spec s d), (Z.leb_spec d (s + (n - 1)));
      try (cbn [andb]; apply my_memcpy_moved; (done || lia || by destruct Hok as [[]|]; (done || lia))).
    cbn [andb]. destruct Hd as (? & ? & ?), Hs as (? & ? & ?).
    destruct (copy_bytes_down_moved (Z.to_nat n) m d s) as (m' & E & F); [unfold in_range; lia..|lia|].
    rewrite Z2Nat.id in E, F by lia. rewrite E. exists m'. split; done.
  - intros Hok Hw Hn. rewrite (proj2 (Z.eqb_neq n 0)), (proj2 (Z.eqb_neq s d)) by lia. cbn [orb].
    destruct (Z.ltb_spec s d), (Z.leb_spec d (s + (n - 1))); try lia; by apply my_memcpy_misaligned.
Qed.

(** [my_memset] of a value in [0..255] sets exactly the [n] bytes at
    [dst] to it, whatever [n] is modulo the word size. *)
Theorem my_memset_fills (m : list Z) (d value n : Z)
    (Hd : in_range m d n) (Hok : word_ok d = true) (Hv : 0 <= value <= 255) :
  exists m', my_memset m (Some d) value n = Some (Some d, m') /\
    filled (fun _ => Some value) m m' d n.
Proof.
  unfold my_memset. rewrite (proj2 (Z.ltb_ge 255 value)) by lia. cbn [orb].
  destruct (Z.eqb_spec n 0) as [->|Hn]; [exists m; split; [done|by apply filled_nil]|].
  destruct (words_and_rest n) as (E & W1 & W2); [unfold in_range in *; lia|].
  assert (U8 : u8 value = value) by (apply wrap_small; unfold in_u; lia).
  set (w := Z.shiftr n 2) in *. set (r := Z.land n 3) in *. unfold in_range in *.
  destruct (set_words_filled (Z.to_nat w) m d _ _ ltac:(unfold in_range; lia) Hok
    (fun b a => memset_word value b a Hv)) as (m1 & E1 & F1).
  cbn zeta. rewrite E1. cbn [mbind option_bind]. pose proof (proj1 F1).
  destruct (set_bytes_filled (Z.to_nat r) m1 (d + 4 * w) (u8 value)) as (m2 & E2 & F2);
    [unfold in_range; lia|].
  rewrite E2. exists m2. split; [done|]. rewrite U8 in *. rewrite Z2Nat.id in F1, F2 by lia.
  rewrite E. refine (filled_app _ _ _ _ _ _ _ _ _ _ _ F1 F2 _ _); (lia || done).
Qed.

(** Null pointers and [n = 0] leave the memory alone. *)
Lemma my_memmove_null m d s n :
  my_memmove m None s n = Some (None, m) /\ my_memmove m d None n = Some (d, m) /\
  my_memmove m d s 0 = Some (d, m).
Proof. by destruct d, s. Qed.

(** A value of more than one byte is ignored, where memset writes its low
    byte. *)
Lemma my_memset_large_ignored m d value n :
  255 < value -> my_memset m d value n = Some (d, m).
Proof. intros H. unfold my_memset. rewrite (proj2 (Z.ltb_lt 255 value)) by done. by destruct d. Qed.
End mem_basics.

Lemma my_memmove_exact_witness :
  exists m', my_memmove true [1; 2; 3; 4; 5; 6; 7; 8; 9; 10; 11; 12] (Some 4) (Some 0) 7
    = Some (Some 4, m') /\ moved [1; 2; 3; 4; 5; 6; 7; 8; 9; 10; 11; 12] m' 4 0 7.
Proof.
  refine (proj1 (my_memmove_exact true _ 4 0 7 _ _ _) _).
  - unfold bytes, in_u. repeat (constructor; [lia|]). constructor.
  - unfold in_range; simpl; lia.
  - unfold in_range; simpl; lia.
  - left. split; reflexivity.
Defined.

Lemma my_memset_fills_witness :
  exists m', my_memset false [1; 2; 3; 4; 5; 6; 7; 8] (Some 1) 0xa5 6 = Some (Some 1, m') /\
    filled (fun _ => Some 0xa5) [1; 2; 3; 4; 5; 6; 7; 8] m' 1 6.
Proof.
  apply (my_memset_fills false); [unfold in_range; simpl; lia|reflexivity|lia].
Defined.

(** A negative value, whose low byte memset writes, fills words with 0xff in
    their upper bytes. *)
Example my_memset_negative :
  my_memset false [0; 0; 0; 0; 0] (Some 0) (-2) 5 = Some (Some 0, [0xfe; 0xff; 0xff; 0xff; 0xfe]).
Proof. reflexivity. Qed.

(** A forward copy of overlapping ranges, as [my_memcpy] does it, is not a
    move: the backward branch of [my_memmove] is needed. *)
Example my_memcpy_overlap :
  my_memcpy false [1; 2; 3; 4; 5; 6; 7; 8; 9; 10] (Some 2) (Some 0) 8
  = Some (Some 2, [1; 2; 1; 2; 3; 4; 3; 4; 7; 8]) /\
  my_memmove false [1; 2; 3; 4; 5; 6; 7; 8; 9; 10] (Some 2) (Some 0) 8
  = Some (Some 2, [1; 2; 1; 2; 3; 4; 5; 6; 7; 8]).
Proof. split; reflexivity. Qed.
