(* ===== verification/Validators.v ===== *)
(** * Validators of host input and bounded copies

    register_offset_validation.c, firmware_command_validator.c,
    safe_ioctl_validator.c, bounded_copy_into_fw_buffer.c and the labs whose
    subject is a missing check: stack_buffer_overflow_in_packet_parser.c,
    signed_unsigned_length_bug.c, integer_overflow_before_allocation.c and
    missing_barrier_before_doorbell.c. Each validator is compared with what its
    requirements say; for each lab the inputs on which it is defined are given
    exactly. *)

From S2P Require Import Prelude Bits.

(** ** register_offset_validation.c *)

Definition valid_mmio_access (offset width region_size : Z) : bool :=
  if negb ((width =? 1) || (width =? 2) || (width =? 4) || (width =? 8)) then false
  else if truthy (Z.land offset (width -u32 1)) then false
  else if region_size <? width then false
  else if (region_size -u32 width) <? offset then false
  else true.

(** ** firmware_command_validator.c *)

Definition CMD_FLAG_ASYNC : Z := Z.shiftl 1 0.
Definition CMD_FLAG_PRIVILEGED : Z := Z.shiftl 1 1.
Definition CMD_FLAG_RESERVED : Z := ~u32 (Z.lor CMD_FLAG_ASYNC CMD_FLAG_PRIVILEGED).
Definition CMD_MAX_PAYLOAD : Z := 256.

Definition CMD_GET_STATUS : Z := 1.
Definition CMD_GET_CAPS : Z := 2.
Definition CMD_RESET : Z := 3.
Definition CMD_PEEK : Z := 4.
Definition CMD_POKE : Z := 5.

Inductive fw_state := FW_BOOTING | FW_READY | FW_ACTIVE | FW_RESETTING | FW_FAULTED.

#[export] Instance fw_state_eq_dec : EqDecision fw_state.
Proof. solve_decision. Defined.

Record fw_cmd_hdr := mk_fw_cmd_hdr { hdr_opcode : Z; hdr_length : Z; hdr_flags : Z }.

Definition validate_fw_cmd (cmd : option fw_cmd_hdr) (state : fw_state) (caller_is_privileged : bool)
  : Z :=
  match cmd with
  | None => -1
  | Some cmd =>
      if (hdr_opcode cmd <? 1) || (5 <? hdr_opcode cmd) then -2
      else if CMD_MAX_PAYLOAD <? hdr_length cmd then -3
      else if truthy (Z.land (hdr_flags cmd) CMD_FLAG_RESERVED) then -4
      else if truthy (Z.land (hdr_flags cmd) CMD_FLAG_PRIVILEGED) && negb caller_is_privileged
      then -5
      else
        let op := hdr_opcode cmd in
        if op =? CMD_GET_STATUS then 0
        else if op =? CMD_GET_CAPS then (if bool_decide (state = FW_BOOTING) then -6 else 0)
        else if op =? CMD_RESET then
          (if bool_decide (state <> FW_READY) || bool_decide (state <> FW_ACTIVE)
              || bool_decide (state <> FW_FAULTED) then -6 else 0)
        else if op =? CMD_PEEK then
          (if bool_decide (state = FW_BOOTING) || negb caller_is_privileged then -6 else 0)
        else if op =? CMD_POKE then
          (if bool_decide (state <> FW_READY) || negb caller_is_privileged then -6 else 0)
        else 0
  end.

(** ** safe_ioctl_validator.c

    [CMD_RESERVED_MASK] and [CMD_OPCODE_MAX] are used by the file and defined
    nowhere in it. *)
Record user_cmd := mk_user_cmd {
  uc_version : Z; uc_opcode : Z; uc_flags : Z; uc_payload_len : Z; uc_user_ptr : Z
}.

Definition CMD_VERSION : Z := 1.

Definition validate_user_cmd (CMD_RESERVED_MASK CMD_OPCODE_MAX : Z) (cmd : option user_cmd) : Z :=
  match cmd with
  | None => -1
  | Some cmd =>
      if negb (uc_version cmd =? CMD_VERSION) then -2
      else if truthy (Z.land (uc_flags cmd) CMD_RESERVED_MASK) then -2
      else if CMD_OPCODE_MAX <? uc_opcode cmd then -2
      else if CMD_MAX_PAYLOAD <? uc_payload_len cmd then -2
      else 0
  end.

(** ** bounded_copy_into_fw_buffer.c *)

Record fw_cmd := mk_fw_cmd { fc_opcode : Z; fc_length : Z; fc_payload : list Z }.

(** The byte loop [dst[i] = src[i]] from [i]. *)
Fixpoint copy_loop (n : nat) (i : Z) (dst src : list Z) : option (list Z) :=
  match n with
  | O => Some dst
  | S n => b ← src.[i]; dst ← dst.[i <- b]; copy_loop n (i + 1) dst src
  end.

(** The result and the command afterwards; a null [src] has no bytes. *)
Definition fw_cmd_set_payload (cmd : option fw_cmd) (src : option (list Z)) (len : Z)
  : option (Z * option fw_cmd) :=
  match cmd with
  | None => Some (-1, None)
  | Some c =>
      if bool_decide (src = None) && (0 <? len) then Some (-2, cmd)
      else if CMD_MAX_PAYLOAD <? len then Some (-3, cmd)
      else
        payload ← copy_loop (Z.to_nat len) 0 (fc_payload c) (default [] src);
        Some (0, Some (mk_fw_cmd (fc_opcode c) (u16 len) payload))
  end.

(** ** The labs

    [memcpy (dst, &src[si], n)] of the C library: undefined when it leaves
    either array. *)
Definition memcpy (dst src : list Z) (si n : Z) : option (list Z) :=
  if bool_decide (0 <= n <= Z.of_nat (length dst) /\ 0 <= si /\ si + n <= Z.of_nat (length src))
  then Some (take (Z.to_nat n) (drop (Z.to_nat si) src) ++ drop (Z.to_nat n) dst)
  else None.

Definition MAX_PAYLOAD : Z := 64.

Record mgmt_msg := mk_mgmt_msg { mm_opcode : Z; mm_len : Z; mm_payload : list Z }.

(** [tmp] is the uninitialised stack buffer. *)
Definition parse_msg (tmp buf : list Z) (buf_len : Z) (out : mgmt_msg) : option (Z * mgmt_msg) :=
  if buf_len <? 2 then Some (-1, out)
  else
    opcode ← buf.[0]; len ← buf.[1];
    tmp ← memcpy tmp buf 2 len;
    payload ← memcpy (mm_payload out) tmp 0 len;
    Some (0, mk_mgmt_msg opcode len payload).

Definition FW_MAX_DATA : Z := 128.

Record fw_packet := mk_fw_packet { fp_len : Z; fp_data : list Z }.

(** [len] is an [int16_t]; the call of [memcpy] converts it to [size_t]. *)
Definition parse_fw_packet (src : list Z) (len : Z) (pkt : fw_packet) : option (Z * fw_packet) :=
  if FW_MAX_DATA <? len then Some (-1, pkt)
  else
    data ← memcpy (fp_data pkt) src 0 (u64 len);
    Some (0, mk_fw_packet len data).

(** [sizeof (struct desc)]: 8 + 4 + 4 bytes. [malloc bytes] gives a block of
    that many bytes, or none. *)
Definition sizeof_desc : Z := 16.

Definition load_descs (malloc : Z -> option (list Z)) (host_buf : list Z) (count : Z) : option Z :=
  let bytes := u32 (count * sizeof_desc) in
  match malloc bytes with
  | None => Some (-1)
  | Some descs =>
      _ ← memcpy descs host_buf 0 (u64 (count * sizeof_desc));
      Some 0
  end.

Record cmd_desc := mk_cmd_desc { cd_opcode : Z; cd_len : Z; cd_addr : Z }.
Record cmd_queue := mk_cmd_queue { cq_descs : list cmd_desc; cq_head : Z }.

(** The queue and the value written to the doorbell. *)
Definition submit_cmd (q : cmd_queue) (cmd : cmd_desc) : option (cmd_queue * Z) :=
  descs ← (cq_descs q).[Z.land (cq_head q) 255 <- cmd];
  let head := cq_head q +u32 1 in
  Some (mk_cmd_queue descs head, head).

(** ** Lemmas *)

Lemma truthy_land_pow2 x k : 0 <= k -> truthy (Z.land x (2 ^ k - 1)) = negb (x mod 2 ^ k =? 0).
Proof. intros. by rewrite land_mask. Qed.

Lemma divide_mod0 a b : 0 < a -> (a | b) <-> b mod a = 0.
Proof. intros. split; [intros; by apply Z.mod_divide; [lia|]|intros; apply Z.mod_divide; [lia|done]]. Qed.

(** [flags & ~3] is zero exactly for the values of two bits. *)
Lemma reserved_flags f : in_u 32 f -> truthy (Z.land f CMD_FLAG_RESERVED) = (4 <=? f).
Proof.
  intros Hf. assert (E : Z.land f CMD_FLAG_RESERVED = Z.shiftl (Z.shiftr f 2) 2).
  { apply bits_eq. intros n Hn. change CMD_FLAG_RESERVED with (~u32 3). autorewrite with bits.
    change 3 with (Z.ones 2). unfold in_u in *. destruct (decide (n < 2)).
    - rewrite (Z.testbit_neg_r (Z.shiftr f 2)) by lia.
      rewrite testbit_ones, (proj2 (Z.ltb_lt n 2)) by lia. simpl. by rewrite !andb_false_r.
    - rewrite testbit_ones, (proj2 (Z.ltb_ge n 2)), Z.shiftr_spec by lia.
      replace (n - 2 + 2) with n by lia. destruct (Z.ltb_spec n 32).
      + cbn [negb andb]. by rewrite andb_true_r.
      + by rewrite (testbit_high 32 f) by (unfold in_u; lia). }
  rewrite E. unfold truthy. rewrite Z.shiftl_mul_pow2, Z.shiftr_div_pow2 by lia.
  unfold in_u in *. change (2 ^ 2) with 4. clear E.
  destruct (Z.eqb_spec (f / 4 * 4) 0), (Z.leb_spec 4 f); (done || (exfalso; modlia)).
Qed.

Lemma copy_loop_spec n : forall i dst src,
  0 <= i -> i + Z.of_nat n <= Z.of_nat (length dst) -> i + Z.of_nat n <= Z.of_nat (length src) ->
  copy_loop n i dst src =
    Some (take (Z.to_nat i) dst ++ take n (drop (Z.to_nat i) src) ++ drop (Z.to_nat i + n) dst).
Proof.
  induction n as [|n IH]; intros i dst src Hi Hd Hs; simpl.
  { rewrite Nat.add_0_r, take_drop. done. }
  destruct (arr_get_is_Some src i) as [b Hb]; [lia|]. rewrite Hb. simpl.
  rewrite arr_set_in by lia. simpl.
  rewrite IH; [|lia|rewrite length_insert; lia|lia].
  rewrite arr_get_nat in Hb by lia. f_equal.
  replace (Z.to_nat (i + 1)) with (S (Z.to_nat i)) by lia.
  rewrite (drop_S src b (Z.to_nat i)) by done. simpl.
  rewrite (take_S_r _ _ b) by (apply list_lookup_insert_eq; lia).
  rewrite take_insert_ge, drop_insert_lt by lia. rewrite <- app_assoc. simpl.
  do 2 f_equal. f_equal. f_equal. lia.
Qed.

(** ** Properties *)

(** [valid_mmio_access] accepts exactly the accesses of 1, 2, 4 or 8
    bytes that are aligned to their width and lie inside the region, for all
    32-bit arguments: no sum wraps around. *)
Theorem valid_mmio_access_iff (offset width region_size : Z)
    (Ho : in_u 32 offset) (Hw : in_u 32 width) (Hr : in_u 32 region_size) :
  valid_mmio_access offset width region_size = true <->
  (width = 1 \/ width = 2 \/ width = 4 \/ width = 8) /\ (width | offset) /\
  offset + width <= region_size.
Proof.
  unfold valid_mmio_access, in_u in *.
  assert (G : forall k, width = 2 ^ k -> 0 <= k < 32 ->
    (if truthy (Z.land offset (width -u32 1)) then false
     else if region_size <? width then false
     else if (region_size -u32 width) <? offset then false else true) = true <->
    (width | offset) /\ offset + width <= region_size).
  { intros k Hk Hk'. rewrite divide_mod0 by lia.
    replace (width -u32 1) with (2 ^ k - 1) by (rewrite wrap_small; unfold in_u; lia).
    rewrite truthy_land_pow2, <- Hk by lia. destruct (Z.eqb_spec (offset mod width) 0); simpl; [|naive_solver].
    destruct (Z.ltb_spec region_size width); [split; [done|lia]|].
    rewrite wrap_small by (unfold in_u; lia). split_tests; split; (done || lia). }
  destruct (decide (width = 1 \/ width = 2 \/ width = 4 \/ width = 8)) as [Hc|Hc].
  - assert (exists k, width = 2 ^ k /\ 0 <= k < 32) as (k & Hk & Hk').
    { destruct Hc as [-> | [-> | [-> | ->]]]; [exists 0|exists 1|exists 2|exists 3]; done. }
    replace (negb _) with false; [|by destruct Hc as [-> | [-> | [-> | ->]]]].
    rewrite (G k Hk Hk'). naive_solver.
  - replace (negb _) with true; [naive_solver|]. split_tests; (done || lia).
Qed.

Lemma valid_mmio_access_iff_witness :
  valid_mmio_access 0xfffffff8 8 0xffffffff = true <->
  (8 = 1 \/ 8 = 2 \/ 8 = 4 \/ 8 = 8) /\ (8 | 0xfffffff8) /\ 0xfffffff8 + 8 <= 0xffffffff.
Proof. apply (valid_mmio_access_iff 0xfffffff8 8 0xffffffff); unfold in_u; lia. Defined.

(** The command policy of the requirements: which opcodes are allowed in which
    state to which callers. *)
Definition cmd_allowed (op : Z) (state : fw_state) (privileged : bool) : bool :=
  match state with
  | FW_BOOTING => op =? CMD_GET_STATUS
  | FW_READY => negb ((op =? CMD_PEEK) || (op =? CMD_POKE)) || privileged
  | FW_ACTIVE | FW_FAULTED => negb (op =? CMD_POKE) && (negb (op =? CMD_PEEK) || privileged)
  | FW_RESETTING => negb (op =? CMD_RESET) && negb (op =? CMD_POKE)
                    && (negb (op =? CMD_PEEK) || privileged)
  end.

Definition cmd_spec (cmd : option fw_cmd_hdr) (state : fw_state) (privileged : bool) : Z :=
  match cmd with
  | None => -1
  | Some c =>
      if bool_decide (~ (1 <= hdr_opcode c <= 5)) then -2
      else if bool_decide (256 < hdr_length c) then -3
      else if bool_decide (4 <= hdr_flags c) then -4
      else if Z.testbit (hdr_flags c) 1 && negb privileged then -5
      else if cmd_allowed (hdr_opcode c) state privileged then 0 else -6
  end.

(** C32. [validate_fw_cmd] decides the command policy of its requirements for
    every header, state and caller, except for RESET: a RESET command whose
    header is well formed is refused in every state, where the requirements
    allow it in READY, ACTIVE and FAULTED. *)
Theorem validate_fw_cmd_policy (cmd : option fw_cmd_hdr) (state : fw_state) (privileged : bool)
    (Hf : forall c, cmd = Some c -> in_u 32 (hdr_flags c)) :
  validate_fw_cmd cmd state privileged =
  if bool_decide (cmd_spec cmd state privileged = 0)
     && bool_decide (hdr_opcode <$> cmd = Some CMD_RESET)
  then -6 else cmd_spec cmd state privileged.
Proof.
  destruct cmd as [[op ln fl]|]; [|done]. specialize (Hf _ eq_refl).
  unfold validate_fw_cmd, cmd_spec, cmd_allowed, CMD_FLAG_PRIVILEGED, CMD_MAX_PAYLOAD,
    CMD_GET_STATUS, CMD_GET_CAPS, CMD_RESET, CMD_PEEK, CMD_POKE in *.
  cbn [hdr_opcode hdr_length hdr_flags fmap option_fmap option_map] in *.
  rewrite reserved_flags, truthy_bit by (done || lia).
  destruct (decide (1 <= op <= 5)) as [Hop|Hop].
  - rewrite (proj2 (Z.ltb_ge op 1)), (proj2 (Z.ltb_ge 5 op)), (bool_decide_eq_false_2 (~ (1 <= op <= 5))) by lia.
    cbn [orb]. destruct (Z.ltb_spec 256 ln).
    { rewrite (bool_decide_eq_true_2 (256 < ln)) by lia. done. }
    rewrite (bool_decide_eq_false_2 (256 < ln)) by lia. destruct (Z.leb_spec 4 fl).
    { rewrite (bool_decide_eq_true_2 (4 <= fl)) by lia. done. }
    rewrite (bool_decide_eq_false_2 (4 <= fl)) by lia.
    destruct (Z.testbit fl 1 && negb privileged); [done|].
    assert (op = 1 \/ op = 2 \/ op = 3 \/ op = 4 \/ op = 5) as [-> | [-> | [-> | [-> | ->]]]] by lia;
      destruct state, privileged; reflexivity.
  - rewrite (bool_decide_eq_true_2 (~ (1 <= op <= 5))) by done.
    replace ((op <? 1) || (5 <? op)) with true; [done|]. split_tests; (done || lia).
Qed.

Lemma validate_fw_cmd_policy_witness :
  validate_fw_cmd (Some (mk_fw_cmd_hdr CMD_PEEK 4 2)) FW_ACTIVE true =
  if bool_decide (cmd_spec (Some (mk_fw_cmd_hdr CMD_PEEK 4 2)) FW_ACTIVE true = 0)
     && bool_decide (hdr_opcode <$> Some (mk_fw_cmd_hdr CMD_PEEK 4 2) = Some CMD_RESET)
  then -6 else cmd_spec (Some (mk_fw_cmd_hdr CMD_PEEK 4 2)) FW_ACTIVE true.
Proof.
  apply (validate_fw_cmd_policy (Some (mk_fw_cmd_hdr CMD_PEEK 4 2)) FW_ACTIVE true).
  intros c [= <-]. unfold in_u. simpl. lia.
Defined.

Example validate_fw_cmd_reset_refused :
  validate_fw_cmd (Some (mk_fw_cmd_hdr CMD_RESET 0 0)) FW_READY true = -6 /\
  cmd_spec (Some (mk_fw_cmd_hdr CMD_RESET 0 0)) FW_READY true = 0.
Proof. split; reflexivity. Qed.

(** The ioctl validator accepts exactly what it should, for any reserved mask
    and opcode limit. *)
Lemma validate_user_cmd_iff mask opmax cmd :
  validate_user_cmd mask opmax cmd = 0 <->
  exists c, cmd = Some c /\ uc_version c = 1 /\ Z.land (uc_flags c) mask = 0 /\
    uc_opcode c <= opmax /\ uc_payload_len c <= 256.
Proof.
  unfold validate_user_cmd, CMD_VERSION, CMD_MAX_PAYLOAD, truthy. destruct cmd as [c|]; [|naive_solver].
  split.
  - intros H. exists c. split; [done|].
    destruct (Z.eqb_spec (uc_version c) 1), (Z.eqb_spec (Z.land (uc_flags c) mask) 0),
      (Z.ltb_spec opmax (uc_opcode c)), (Z.ltb_spec 256 (uc_payload_len c)); done.
  - intros (? & [= <-] & H1 & H2 & H3 & H4). rewrite H1, H2. simpl.
    by rewrite !(proj2 (Z.ltb_ge _ _)) by lia.
Qed.

(** [fw_cmd_set_payload] never leaves its buffers and answers as
    documented on every branch: when the source holds [len] bytes it copies
    exactly those to the front of the payload and records the length, which the
    16-bit field holds; on an error the command is unchanged. *)
Theorem fw_cmd_set_payload_spec (c : fw_cmd) (src : option (list Z)) (len : Z)
    (Hp : length (fc_payload c) = 256%nat) (Hl : in_u 64 len)
    (Hs : forall b, src = Some b -> len <= 256 -> len <= Z.of_nat (length b)) :
  fw_cmd_set_payload (Some c) src len =
  Some (if bool_decide (src = None) && (0 <? len) then (-2, Some c)
        else if 256 <? len then (-3, Some c)
        else (0, Some (mk_fw_cmd (fc_opcode c) len
                (take (Z.to_nat len) (default [] src) ++ drop (Z.to_nat len) (fc_payload c))))).
Proof.
  unfold fw_cmd_set_payload, CMD_MAX_PAYLOAD, in_u in *.
  destruct (bool_decide (src = None) && (0 <? len)) eqn:E; [done|].
  destruct (Z.ltb_spec 256 len); [done|].
  rewrite copy_loop_spec; [|lia|lia|].
  - simpl. rewrite (wrap_small 16) by (unfold in_u; lia). by rewrite drop_0.
  - destruct src as [b|]; simpl in *; [specialize (Hs b eq_refl); lia|].
    destruct (Z.ltb_spec 0 len); [done|lia].
Qed.

Lemma fw_cmd_set_payload_spec_witness :
  fw_cmd_set_payload (Some (mk_fw_cmd 9 0 (replicate 256 0))) (Some [1; 2; 3]) 2 =
  Some (if bool_decide (Some [1; 2; 3] = None) && (0 <? 2) then (-2, Some (mk_fw_cmd 9 0 (replicate 256 0)))
        else if 256 <? 2 then (-3, Some (mk_fw_cmd 9 0 (replicate 256 0)))
        else (0, Some (mk_fw_cmd 9 2 (take (Z.to_nat 2) (default [] (Some [1; 2; 3]))
                                      ++ drop (Z.to_nat 2) (replicate 256 0))))).
Proof.
  apply (fw_cmd_set_payload_spec (mk_fw_cmd 9 0 (replicate 256 0)) (Some [1; 2; 3]) 2);
    [reflexivity|unfold in_u; lia|intros b [= <-] _; simpl; lia].
Defined.

(** The packet-parser lab is safe exactly when the length byte fits the
    temporary buffer and the packet: for a packet of at least 2 bytes the call
    is defined if and only if its length byte is at most 32 and at most
    [buf_len - 2]; the check against [MAX_PAYLOAD] = 64 would not be enough. *)
Theorem parse_msg_defined_iff (tmp buf : list Z) (out : mgmt_msg) (opcode len : Z) (rest : list Z)
    (Ht : length tmp = 32%nat) (Ho : length (mm_payload out) = 64%nat)
    (Hb : buf = opcode :: len :: rest) (Hl : in_u 8 len) :
  parse_msg tmp buf (Z.of_nat (length buf)) out =
  if bool_decide (len <= 32 /\ len + 2 <= Z.of_nat (length buf))
  then Some (0, mk_mgmt_msg opcode len
                  (take (Z.to_nat len) rest ++ drop (Z.to_nat len) (mm_payload out)))
  else None.
Proof.
  subst buf. unfold parse_msg, memcpy, in_u in *. simpl length.
  rewrite (proj2 (Z.ltb_ge _ 2)) by lia.
  change ((opcode :: len :: rest).[0]) with (Some opcode).
  change ((opcode :: len :: rest).[1]) with (Some len). cbn [mbind option_bind].
  destruct (decide (len <= 32 /\ len + 2 <= Z.of_nat (S (S (length rest))))) as [Hc|Hc].
  - rewrite !(bool_decide_eq_true_2 (_ <= _ <= _ /\ _)) by (rewrite ?length_app, ?length_take, ?length_drop; simpl; lia).
    cbn [mbind option_bind]. rewrite (bool_decide_eq_true_2 (len <= 32 /\ _)) by lia.
    rewrite bool_decide_eq_true_2; [|rewrite length_app, length_take, !length_drop; simpl; lia].
    cbn [mbind option_bind]. change (drop (Z.to_nat 2) (opcode :: len :: rest)) with rest.
    change (Z.to_nat 0) with 0%nat. rewrite drop_0.
    rewrite take_app_le by (rewrite length_take; lia). by rewrite take_take, Nat.min_id.
  - rewrite (bool_decide_eq_false_2 (len <= 32 /\ _)) by lia.
    rewrite bool_decide_eq_false_2; [done|]. simpl length. lia.
Qed.

Lemma parse_msg_defined_iff_witness :
  parse_msg (replicate 32 7) [1; 2; 8; 9; 10] (Z.of_nat 5) (mk_mgmt_msg 0 0 (replicate 64 0)) =
  if bool_decide (2 <= 32 /\ 2 + 2 <= Z.of_nat 5)
  then Some (0, mk_mgmt_msg 1 2 (take (Z.to_nat 2) [8; 9; 10] ++ drop (Z.to_nat 2) (replicate 64 0)))
  else None.
Proof.
  apply (parse_msg_defined_iff (replicate 32 7) [1; 2; 8; 9; 10] (mk_mgmt_msg 0 0 (replicate 64 0))
           1 2 [8; 9; 10]); [reflexivity..|unfold in_u; lia].
Defined.

(** A negative length passes the check and copies almost [2^64] bytes. *)
Lemma parse_fw_packet_negative src len pkt :
  - 2 ^ 15 <= len < 0 -> length (fp_data pkt) = 128%nat -> parse_fw_packet src len pkt = None.
Proof.
  intros Hl Hd. unfold parse_fw_packet, memcpy, FW_MAX_DATA.
  rewrite (proj2 (Z.ltb_ge 128 len)) by lia.
  assert (u64 len = 2 ^ 64 + len) as ->.
  { unfold wrap. symmetry. apply (Z.mod_unique_pos len (2 ^ 64) (-1)); lia. }
  rewrite bool_decide_eq_false_2 by lia. done.
Qed.

(** The lengths [0..128] are copied exactly. *)
Lemma parse_fw_packet_ok src len pkt :
  0 <= len <= 128 -> len <= Z.of_nat (length src) -> length (fp_data pkt) = 128%nat ->
  parse_fw_packet src len pkt =
  Some (0, mk_fw_packet len (take (Z.to_nat len) src ++ drop (Z.to_nat len) (fp_data pkt))).
Proof.
  intros Hl Hs Hd. unfold parse_fw_packet, memcpy, FW_MAX_DATA.
  rewrite (proj2 (Z.ltb_ge 128 len)), wrap_small by (unfold in_u; lia).
  rewrite bool_decide_eq_true_2 by lia. done.
Qed.

(** The descriptor-allocation lab overflows its allocation exactly when
    the 32-bit size wraps: with a [malloc] that returns blocks of the requested
    size and a host buffer that holds [count] descriptors, the copy is defined
    if and only if [count < 2^28]. *)
Theorem load_descs_defined_iff (malloc : Z -> option (list Z)) (host_buf : list Z) (count : Z)
    (descs : list Z) (Hc : in_u 32 count)
    (Hm : malloc (u32 (count * 16)) = Some descs)
    (Hlen : Z.of_nat (length descs) = u32 (count * 16))
    (Hh : count * 16 <= Z.of_nat (length host_buf)) :
  load_descs malloc host_buf count = if bool_decide (count < 2 ^ 28) then Some 0 else None.
Proof.
  unfold load_descs, memcpy, sizeof_desc, in_u in *. rewrite Hm.
  rewrite (wrap_small 64) by (unfold in_u; lia).
  destruct (decide (count < 2 ^ 28)) as [Hcount|Hcount];
    [rewrite (bool_decide_eq_true_2 (count < _)) by done
    |rewrite (bool_decide_eq_false_2 (count < _)) by done].
  - rewrite (wrap_small 32) in Hlen by (unfold in_u; lia).
    rewrite bool_decide_eq_true_2 by lia. done.
  - rewrite bool_decide_eq_false_2; [done|].
    pose proof (wrap_range 32 (count * 16) ltac:(lia)). unfold in_u in *. lia.
Qed.

Lemma load_descs_defined_iff_witness :
  load_descs (fun n => Some (replicate (Z.to_nat n) 0)) (replicate 40 1) 2 =
  if bool_decide (2 < 2 ^ 28) then Some 0 else None.
Proof.
  apply (load_descs_defined_iff (fun n => Some (replicate (Z.to_nat n) 0)) (replicate 40 1) 2
           (replicate 32 0)); [unfold in_u; lia|reflexivity|reflexivity|simpl; lia].
Defined.

(** In program order the descriptor is in the queue when the doorbell rings. *)
Lemma submit_cmd_before_doorbell q cmd :
  length (cq_descs q) = 256%nat ->
  exists q' db, submit_cmd q cmd = Some (q', db) /\ db = cq_head q' /\
    (cq_descs q').[cq_head q mod 256] = Some cmd /\ length (cq_descs q') = 256%nat.
Proof.
  intros Hl. unfold submit_cmd. change 255 with (2 ^ 8 - 1). rewrite land_mask by lia.
  change (2 ^ 8) with 256.
  assert (0 <= cq_head q mod 256 < 256) by (apply Z.mod_pos_bound; lia).
  rewrite arr_set_in by lia.
  eexists _, _. split; [reflexivity|]. split; [done|]. simpl.
  rewrite length_insert. split; [|done]. apply arr_get_insert_eq. lia.
Qed.
