(* ===== verification/Logstore.v ===== *)
(** * logstore.c: a log-structured key-value store

    The buffer ("log"), the key-to-offset map [imap] and the head as in the
    source; every access outside an array is undefined behaviour ([None]).
    [malloc]ed memory is not initialised: its contents are an argument
    ([fresh]). The store is specified as a finite map from keys to values with a
    count of the log slots used; [logstore_refines_map] relates the two.

    The [pthread_rwlock_t] makes [logstore_put] and [logstore_get] atomic, and
    the pointer switch of [logstore_clean]; the new buffer is built before the
    lock is taken, so [logstore_clean] is two steps, [clean_build] and
    [clean_switch], and what comes between them is part of the model. *)

From S2P Require Import Prelude Threads.

(** ** The code *)

Record Entry := mk_Entry { e_key : Z; e_value : Z }.

#[export] Instance Entry_eq_dec : EqDecision Entry.
Proof. solve_decision. Defined.

Record LogStore := mk_LogStore {
  buffer : list Entry; imap : list Z; head : Z; capacity : Z; key_range : Z
}.

(** [capacity * 0.8] in IEEE double arithmetic. The constant 0.8 is
    [7205759403792794 / 2^53]; the product is rounded to 53 significant bits,
    ties to even. The result is the numerator over [2^53]. *)
Definition DOUBLE_0_8 : Z := 7205759403792794.

Definition round53 (x : Z) : Z :=
  let e := Z.log2 x - 52 in
  if e <=? 0 then x
  else
    let q := x / 2 ^ e in
    let r := x mod 2 ^ e in
    let half := 2 ^ (e - 1) in
    (if (half <? r) || ((r =? half) && Z.odd q) then q + 1 else q) * 2 ^ e.

Definition below_80_percent (head capacity : Z) : bool :=
  head * 2 ^ 53 <? round53 (capacity * DOUBLE_0_8).

Definition logstore_put (s : LogStore) (key value : Z) : option LogStore :=
  buffer' ← (buffer s).[head s <- mk_Entry key value];
  imap' ← (imap s).[key <- head s];
  Some (mk_LogStore buffer' imap' (head s + 1) (capacity s) (key_range s)).

Definition logstore_get (s : LogStore) (key : Z) : option Z :=
  buffer_offset ← (imap s).[key];
  if buffer_offset <? 0 then Some (-1) else e_value <$> (buffer s).[buffer_offset].

(** The loop of [logstore_clean] from key [i], with the new buffer, map and
    head built so far. *)
Fixpoint clean_loop (n : nat) (i : Z) (s : LogStore) (new_buffer : list Entry)
    (new_imap : list Z) (new_head : Z) : option (list Entry * list Z * Z) :=
  match n with
  | O => Some (new_buffer, new_imap, new_head)
  | S n =>
      off ← (imap s).[i];
      if 0 <=? off then
        e ← (buffer s).[off];
        new_buffer ← new_buffer.[new_head <- e];
        new_imap ← new_imap.[i <- new_head];
        clean_loop n (i + 1) s new_buffer new_imap (new_head + 1)
      else clean_loop n (i + 1) s new_buffer new_imap new_head
  end.

(** The part before the lock; [None] inside when there is nothing to do. *)
Definition clean_build (s : LogStore) (fresh : list Entry)
  : option (option (list Entry * list Z * Z)) :=
  if below_80_percent (head s) (capacity s) then Some None
  else Some <$> clean_loop (Z.to_nat (key_range s)) 0 s fresh
                  (replicate (Z.to_nat (key_range s)) (-1)) 0.

Definition clean_switch (s : LogStore) (new : list Entry * list Z * Z) : LogStore :=
  let '(new_buffer, new_imap, new_head) := new in
  mk_LogStore new_buffer new_imap new_head (capacity s) (key_range s).

Definition logstore_clean (s : LogStore) (fresh : list Entry) : option LogStore :=
  new ← clean_build s fresh;
  Some (match new with None => s | Some new => clean_switch s new end).

Definition logstore_create (capacity key_range : Z) : LogStore :=
  mk_LogStore (replicate (Z.to_nat capacity) (mk_Entry 0 0))
    (replicate (Z.to_nat key_range) (-1)) 0 capacity key_range.

Definition logstore_get_buffer_index (s : LogStore) (index : Z) : option Entry := (buffer s).[index].

(** The pairs that [print_logstore_buffer] prints. *)
Definition print_logstore_buffer (s : LogStore) : option (list (Z * Z)) :=
  mapM (fun i => e ← (buffer s).[Z.of_nat i]; Some (e_key e, e_value e)) (seq 0 (Z.to_nat (capacity s))).

(** ** Invariant and abstraction *)

Record wf (s : LogStore) : Prop := {
  wf_cap : Z.of_nat (length (buffer s)) = capacity s;
  wf_range : Z.of_nat (length (imap s)) = key_range s;
  wf_head : 0 <= head s <= capacity s;
  wf_int : capacity s < 2 ^ 31;
  wf_imap : forall k off, (imap s).[k] = Some off -> 0 <= off ->
    off < head s /\ exists v, (buffer s).[off] = Some (mk_Entry k v)
}.

(** It reads the whole buffer and nothing else. *)
Lemma print_buffer_exact s : wf s -> print_logstore_buffer s = Some ((fun e => (e_key e, e_value e)) <$> buffer s).
Proof.
  intros Hwf. unfold print_logstore_buffer. rewrite <- (wf_cap s Hwf), Nat2Z.id.
  assert (H : forall l2 l1, mapM (fun i => e ← (l1 ++ l2).[Z.of_nat i]; Some (e_key e, e_value e)) (seq (length l1) (length l2))
    = Some ((fun e => (e_key e, e_value e)) <$> l2)); [|exact (H (buffer s) [])].
  induction l2 as [|e l2 IH]; intros l1; [done|]. cbn [length seq mapM]. rewrite arr_get_nat, Nat2Z.id, list_lookup_middle by lia.
  specialize (IH (l1 ++ [e])). rewrite length_app, <- app_assoc in IH. cbn [length app] in IH.
  rewrite Nat.add_1_r in IH. cbn [mbind option_bind]. by rewrite IH.
Qed.

(** What the store holds for key [k]. *)
Definition slot (s : LogStore) (k : Z) : option Entry :=
  off ← (imap s).[k]; if 0 <=? off then (buffer s).[off] else None.

(** The store holds the map [M]. *)
Definition represents (s : LogStore) (M : gmap Z Z) : Prop :=
  forall k, M !! k = e_value <$> slot s k.

(** The entries and offsets of the live keys below [i], in key order. *)
Definition live (s : LogStore) (i : Z) : list Entry := omap (slot s) (seqZ 0 i).

Definition live_off (s : LogStore) (k : Z) : option Z :=
  off ← (imap s).[k]; if 0 <=? off then Some off else None.

Lemma seqZ_snoc i : 0 <= i -> seqZ 0 (i + 1) = seqZ 0 i ++ [i].
Proof. intros. rewrite seqZ_app by lia. f_equal. Qed.

Lemma live_snoc s i : 0 <= i -> live s (i + 1) = live s i ++ option_list (slot s i).
Proof.
  intros. unfold live. rewrite seqZ_snoc, omap_app by done. simpl.
  by destruct (slot s i).
Qed.

Lemma slot_of_off s k off :
  wf s -> (imap s).[k] = Some off -> 0 <= off ->
  exists v, slot s k = Some (mk_Entry k v) /\ (buffer s).[off] = Some (mk_Entry k v).
Proof.
  intros Hs Hk Ho. destruct (wf_imap s Hs k off Hk Ho) as (_ & v & Hv).
  exists v. unfold slot. rewrite Hk. simpl. rewrite (proj2 (Z.leb_le 0 off)) by lia. done.
Qed.

(** Live keys have different offsets below the head, so there are at most
    [head] of them: the new buffer is large enough. *)
Lemma live_length s i : wf s -> 0 <= i -> Z.of_nat (length (live s i)) <= head s.
Proof.
  intros Hs Hi. set (offs := omap (live_off s) (seqZ 0 i)).
  assert (Hin : forall j o, 0 <= j -> o ∈ omap (live_off s) (seqZ 0 j) ->
    0 <= o < head s /\ exists k v, 0 <= k < j /\ (buffer s).[o] = Some (mk_Entry k v)).
  { intros j o Hj. rewrite list_elem_of_omap. intros (k & Hk & Ho). apply elem_of_seqZ in Hk.
    unfold live_off in Ho. destruct ((imap s).[k]) as [o'|] eqn:E; simplify_eq/=.
    destruct (Z.leb_spec 0 o'); simplify_eq.
    destruct (wf_imap s Hs k o E) as (? & v & Hv); [done|].
    split; [lia|]. exists k, v. split; [lia|done]. }
  assert (Hnd : NoDup offs /\ length (live s i) = length offs).
  { subst offs. revert i Hi. apply (natlike_ind (fun i => NoDup (omap (live_off s) (seqZ 0 i)) /\
      length (live s i) = length (omap (live_off s) (seqZ 0 i)))); [split; [constructor|done]|].
    intros i Hi [IH1 IH2]. unfold Z.succ. rewrite live_snoc, seqZ_snoc, omap_app by lia.
    rewrite !length_app, IH2. cbn [omap list_omap].
    destruct (live_off s i) as [o|] eqn:Eo; unfold live_off in Eo;
      destruct ((imap s).[i]) as [o'|] eqn:E; unfold slot; rewrite E; simplify_eq/=;
      try (destruct (Z.leb_spec 0 o'); simplify_eq/=); try (rewrite app_nil_r; auto; fail).
    destruct (wf_imap s Hs i o E) as (? & v & Hv); [done|]. rewrite Hv. simpl.
    split; [|done]. apply NoDup_app. split; [done|]. split; [|apply NoDup_singleton].
    intros o' Ho' Heq%list_elem_of_singleton. subst o'.
    destruct (Hin i o) as (_ & k & v' & Hk & Hkv); [lia|done|]. simplify_eq. lia. }
  destruct Hnd as [Hnd ->].
  assert (Hsub : offs ⊆ seqZ 0 (head s)).
  { intros o Ho. apply elem_of_seqZ. destruct (Hin i o Hi Ho). lia. }
  pose proof (submseteq_length _ _ (NoDup_submseteq _ _ Hnd Hsub)) as Hlen.
  rewrite length_seqZ in Hlen. pose proof (wf_head s Hs). lia.
Qed.

(** *** The loop of [logstore_clean] *)

(** The new buffer, map and head after the keys below [i]. *)
Record cleaned (s : LogStore) (i : Z) (nb : list Entry) (ni : list Z) (nh : Z) : Prop := {
  cl_cap : Z.of_nat (length nb) = capacity s;
  cl_range : Z.of_nat (length ni) = key_range s;
  cl_head : nh = Z.of_nat (length (live s i));
  cl_live : take (length (live s i)) nb = live s i;
  cl_old : forall k, 0 <= k < i -> exists off, ni.[k] = Some off /\
    match slot s k with
    | None => off = -1
    | Some e => 0 <= off < nh /\ nb.[off] = Some e
    end;
  cl_new : forall k, i <= k < key_range s -> ni.[k] = Some (-1)
}.

Lemma cleaned_start s fresh :
  wf s -> Z.of_nat (length fresh) = capacity s ->
  cleaned s 0 fresh (replicate (Z.to_nat (key_range s)) (-1)) 0.
Proof.
  intros Hs Hf. pose proof (wf_range s Hs). split; simpl.
  - done.
  - rewrite length_replicate. lia.
  - done.
  - by rewrite take_0.
  - intros k Hk. lia.
  - intros k Hk. rewrite arr_get_nat by lia. apply lookup_replicate_2. lia.
Qed.

Lemma cleaned_step s i nb ni nh e :
  wf s -> 0 <= i < key_range s -> cleaned s i nb ni nh -> slot s i = Some e ->
  exists nb' ni', nb.[nh <- e] = Some nb' /\ ni.[i <- nh] = Some ni' /\
    cleaned s (i + 1) nb' ni' (nh + 1).
Proof.
  intros Hs Hi [C1 C2 C3 C4 C5 C6] He.
  pose proof (live_length s (i + 1) Hs ltac:(lia)) as Hlen.
  pose proof (live_snoc s i ltac:(lia)) as Hsnoc. rewrite He in Hsnoc. simpl in Hsnoc.
  rewrite Hsnoc, length_app in Hlen. simpl in Hlen. pose proof (wf_head s Hs).
  eexists _, _. split; [apply arr_set_in; lia|]. split; [apply arr_set_in; lia|].
  split; rewrite ?length_insert, ?Hsnoc, ?length_app; simpl; try lia.
  - rewrite Nat.add_1_r.
    assert (Z.to_nat nh = length (live s i)) as -> by lia.
    rewrite (take_S_r _ _ e) by (apply list_lookup_insert_eq; lia).
    by rewrite take_insert_ge, C4 by lia.
  - intros k Hk. destruct (decide (k = i)) as [->|Hne].
    + exists nh. rewrite He. rewrite !arr_get_insert_eq by lia. split; [done|]. split; [lia|done].
    + rewrite arr_get_insert_ne by lia. destruct (C5 k ltac:(lia)) as (off & Hoff & Hk').
      exists off. split; [done|]. destruct (slot s k); [|done].
      destruct Hk' as [? ?]. split; [lia|]. by rewrite arr_get_insert_ne by lia.
  - intros k Hk. rewrite arr_get_insert_ne by lia. apply C6. lia.
Qed.

Lemma cleaned_skip s i nb ni nh :
  wf s -> 0 <= i < key_range s -> cleaned s i nb ni nh -> slot s i = None ->
  cleaned s (i + 1) nb ni nh.
Proof.
  intros Hs Hi [C1 C2 C3 C4 C5 C6] He.
  pose proof (live_snoc s i ltac:(lia)) as Hsnoc. rewrite He, app_nil_r in Hsnoc.
  split; rewrite ?Hsnoc; try done.
  - intros k Hk. destruct (decide (k = i)) as [->|Hne]; [|apply C5; lia].
    exists (-1). rewrite He. split; [apply C6; lia|done].
  - intros k Hk. apply C6. lia.
Qed.

Lemma clean_loop_spec s n : forall i nb ni nh,
  wf s -> 0 <= i -> i + Z.of_nat n = key_range s -> cleaned s i nb ni nh ->
  exists nb' ni' nh', clean_loop n i s nb ni nh = Some (nb', ni', nh') /\
    cleaned s (key_range s) nb' ni' nh'.
Proof.
  induction n as [|n IH]; intros i nb ni nh Hs Hi Hn C; simpl.
  { exists nb, ni, nh. split; [done|]. by replace (key_range s) with i by lia. }
  destruct (arr_get_is_Some (imap s) i) as [off Hoff]; [rewrite (wf_range s Hs); lia|].
  rewrite Hoff. simpl. destruct (Z.leb_spec 0 off) as [Ho|Ho].
  - destruct (slot_of_off s i off Hs Hoff Ho) as (v & Hsl & Hbuf). rewrite Hbuf. simpl.
    destruct (cleaned_step s i nb ni nh _ Hs ltac:(lia) C Hsl) as (nb' & ni' & -> & E2 & C').
    simpl. rewrite E2. simpl. apply IH; (done || lia).
  - apply IH; [done|lia|lia|]. apply cleaned_skip; [done|lia|done|].
    unfold slot. rewrite Hoff. simpl. by rewrite (proj2 (Z.leb_gt 0 off)) by lia.
Qed.

(** The store after the switch holds the same entries. *)
Lemma cleaned_wf s nb ni nh :
  wf s -> cleaned s (key_range s) nb ni nh ->
  wf (clean_switch s (nb, ni, nh)) /\ forall k, slot (clean_switch s (nb, ni, nh)) k = slot s k.
Proof.
  intros Hs [C1 C2 C3 C4 C5 C6].
  pose proof (wf_head s Hs) as Hh. pose proof (wf_range s Hs) as Hr.
  pose proof (live_length s (key_range s) Hs ltac:(lia)) as Hlive.
  assert (Hslot : forall k, slot (clean_switch s (nb, ni, nh)) k = slot s k).
  { intros k. unfold slot at 1. simpl. destruct (decide (0 <= k < key_range s)) as [Hk|Hk].
    - destruct (C5 k Hk) as (off & -> & Hoff). simpl. destruct (slot s k) as [e|].
      + rewrite (proj2 (Z.leb_le 0 off)) by lia. by destruct Hoff.
      + subst off. done.
    - destruct (ni.[k]) as [off|] eqn:E; [apply arr_get_Some in E; lia|]. simpl.
      unfold slot. destruct ((imap s).[k]) as [off|] eqn:E'; [apply arr_get_Some in E'; lia|done]. }
  split; [|done]. split; simpl; try done.
  - lia.
  - apply (wf_int s Hs).
  - intros k off Hk Ho. pose proof (arr_get_Some _ _ _ Hk) as Hkr.
    destruct (C5 k ltac:(lia)) as (off' & Hoff' & Hsl). rewrite Hk in Hoff'. simplify_eq.
    unfold slot in Hsl. destruct ((imap s).[k]) as [o|] eqn:E; simpl in Hsl; [|lia].
    destruct (Z.leb_spec 0 o); [|lia]. destruct (wf_imap s Hs k o E) as (? & v & Hv); [done|].
    rewrite Hv in Hsl. destruct Hsl. split; [lia|eauto].
Qed.

(** *** The 80% threshold *)

(** Rounding moves a value by at most [2^-53] of it. *)
Lemma round53_err x : 0 < x -> Z.abs (round53 x - x) * 2 ^ 53 <= x.
Proof.
  intros Hx. unfold round53. set (e := Z.log2 x - 52).
  destruct (Z.leb_spec e 0) as [He|He]; [rewrite Z.sub_diag; simpl; lia|].
  destruct (Z.log2_spec x Hx) as [Hlo _].
  assert (E : 2 ^ Z.log2 x = 2 ^ (e - 1) * 2 ^ 53) by (rewrite <- Z.pow_add_r by lia; f_equal; lia).
  assert (E2 : 2 ^ e = 2 * 2 ^ (e - 1)) by (rewrite <- Z.pow_succ_r by lia; f_equal; lia).
  set (half := 2 ^ (e - 1)) in *. clearbody half.
  assert (Hp : 0 < 2 ^ e) by (apply Z.pow_pos_nonneg; lia).
  pose proof (Z.div_mod x (2 ^ e) ltac:(lia)). pose proof (Z.mod_pos_bound x (2 ^ e) Hp).
  set (q := x / 2 ^ e) in *. set (r := x mod 2 ^ e) in *. clearbody q r.
  enough (Z.abs ((if (half <? r) || ((r =? half) && Z.odd q) then q + 1 else q) * 2 ^ e - x) <= half)
    by nia.
  destruct (Z.ltb_spec half r); simpl; [lia|].
  destruct (Z.eqb_spec r half), (Z.odd q); simpl; lia.
Qed.

(** [4/5] of a multiple of 5 is computed exactly. *)
Lemma round53_exact k : 0 < k < 2 ^ 29 -> round53 (5 * k * DOUBLE_0_8) = k * 2 ^ 55.
Proof.
  intros Hk. unfold DOUBLE_0_8, round53.
  replace (5 * k * 7205759403792794) with (k * 2 ^ 55 + 2 * k) by lia.
  assert (Hlog : Z.log2 (k * 2 ^ 55 + 2 * k) = Z.log2 k + 55).
  { pose proof (Z.log2_nonneg k). apply Z.log2_unique; [lia|].
    destruct (Z.log2_spec k ltac:(lia)) as [H1 H2].
    rewrite <- Z.add_succ_l, !Z.pow_add_r by lia. lia. }
  rewrite Hlog. assert (Hl : 0 <= Z.log2 k < 29).
  { split; [apply Z.log2_nonneg|]. apply Z.log2_lt_pow2; lia. }
  replace (Z.log2 k + 55 - 52) with (Z.log2 k + 3) by lia.
  rewrite (proj2 (Z.leb_gt (Z.log2 k + 3) 0)) by lia.
  destruct (Z.log2_spec k ltac:(lia)) as [_ Hup].
  set (e := Z.log2 k + 3) in *.
  assert (E1 : 2 ^ 55 = 2 ^ (55 - e) * 2 ^ e) by (rewrite <- Z.pow_add_r by lia; f_equal; lia).
  assert (E2 : 2 ^ (e - 1) = 2 * 2 ^ Z.succ (Z.log2 k))
    by (rewrite <- Z.pow_succ_r by lia; f_equal; lia).
  assert (E3 : 2 ^ e = 2 * 2 ^ (e - 1)) by (rewrite <- Z.pow_succ_r by lia; f_equal; lia).
  rewrite E1, Z.mul_assoc. set (A := k * 2 ^ (55 - e)).
  rewrite (Z.add_comm (A * 2 ^ e)), Z.div_add, Z.mod_add by lia.
  rewrite Z.div_small, Z.mod_small by lia.
  rewrite (proj2 (Z.ltb_ge _ _)), (proj2 (Z.eqb_neq _ _)) by lia. done.
Qed.

(** The comparison [head < capacity * 0.8] in double arithmetic is exact for
    all [int] capacities. *)
Lemma below_80_exact h n : 0 <= h -> 0 <= n < 2 ^ 31 -> below_80_percent h n = (5 * h <? 4 * n).
Proof.
  intros Hh Hn. unfold below_80_percent.
  destruct (decide (n = 0)) as [->|Hn0].
  { rewrite (proj2 (Z.ltb_ge (5 * h) _)) by lia. apply Z.ltb_ge.
    change (round53 (0 * DOUBLE_0_8)) with 0. lia. }
  destruct (decide (5 * h = 4 * n)) as [Heq|Hne].
  - assert (exists k, n = 5 * k /\ h = 4 * k) as (k & -> & ->).
    { exists (n - h). lia. }
    rewrite round53_exact by lia.
    rewrite !(proj2 (Z.ltb_ge _ _)) by lia. done.
  - pose proof (round53_err (n * DOUBLE_0_8)) as Herr. unfold DOUBLE_0_8 in *.
    specialize (Herr ltac:(lia)). set (R := round53 _) in *. clearbody R.
    destruct (Z.ltb_spec (5 * h) (4 * n)).
    + apply Z.ltb_lt. lia.
    + apply Z.ltb_ge. lia.
Qed.

(** ** The specification: a finite map and the number of log slots used *)

Inductive ls_op := Put (k v : Z) | Get (k : Z) | Clean (junk : Z -> Entry).

(** One call of the store: its state afterwards and what it returns. *)
Definition ls_step (s : LogStore) (o : ls_op) : option (LogStore * option Z) :=
  match o with
  | Put k v => s' ← logstore_put s k v; Some (s', None)
  | Get k => v ← logstore_get s k; Some (s, Some v)
  | Clean junk => s' ← logstore_clean s (junk <$> seqZ 0 (capacity s)); Some (s', None)
  end.

Record kv := mk_kv { kv_map : gmap Z Z; kv_used : Z }.

Definition kv_step (cap range : Z) (st : kv) (o : ls_op) : option (kv * option Z) :=
  match o with
  | Put k v =>
      if bool_decide (0 <= k < range /\ kv_used st < cap)
      then Some (mk_kv (<[k := v]> (kv_map st)) (kv_used st + 1), None) else None
  | Get k =>
      if bool_decide (0 <= k < range) then Some (st, Some (default (-1) (kv_map st !! k))) else None
  | Clean _ =>
      Some (if 5 * kv_used st <? 4 * cap then st
            else mk_kv (kv_map st) (Z.of_nat (size (kv_map st))), None)
  end.

(** The store implements the abstract state. *)
Definition implements (s : LogStore) (st : kv) : Prop :=
  wf s /\ represents s (kv_map st) /\ head s = kv_used st.

Lemma slot_key s k e : wf s -> slot s k = Some e -> e_key e = k /\ 0 <= k < key_range s.
Proof.
  intros Hs. unfold slot. destruct ((imap s).[k]) as [o|] eqn:E; simpl; [|done].
  pose proof (arr_get_Some _ _ _ E). rewrite (wf_range s Hs) in *.
  destruct (Z.leb_spec 0 o); [|done].
  destruct (wf_imap s Hs k o E) as (_ & v & Hv); [done|]. rewrite Hv. intros [= <-]. done.
Qed.

Lemma live_keys s i : wf s -> 0 <= i -> NoDup (e_key <$> live s i) /\
  forall e, e ∈ live s i <-> 0 <= e_key e < i /\ slot s (e_key e) = Some e.
Proof.
  intros Hs Hi.
  assert (Hel : forall j e, e ∈ live s j <-> 0 <= e_key e < j /\ slot s (e_key e) = Some e).
  { intros j e. unfold live. rewrite list_elem_of_omap. split.
    - intros (k & Hk%elem_of_seqZ & He). destruct (slot_key s k e Hs He) as [<- _].
      split; [lia|done].
    - intros [Hk He]. exists (e_key e). rewrite elem_of_seqZ. split; [lia|done]. }
  split; [|done]. revert i Hi.
  apply (natlike_ind (fun i => NoDup (e_key <$> live s i))); [constructor|].
  intros i Hi IH. unfold Z.succ. rewrite live_snoc, fmap_app by done.
  destruct (slot s i) as [e|] eqn:E; simpl; [|by rewrite app_nil_r].
  apply NoDup_app. split; [done|]. split; [|apply NoDup_singleton].
  intros k Hk Hk2%list_elem_of_singleton. subst k.
  apply list_elem_of_fmap in Hk as (e' & He1 & He2%Hel).
  destruct (slot_key s i e Hs E) as [He _]. lia.
Qed.

(** The map a store holds. *)
Definition store_map (s : LogStore) : gmap Z Z :=
  list_to_map ((fun e => (e_key e, e_value e)) <$> live s (key_range s)).

Lemma store_map_keys s :
  ((fun e => (e_key e, e_value e)) <$> live s (key_range s)).*1 = e_key <$> live s (key_range s).
Proof. by rewrite <- list_fmap_compose. Qed.

Lemma wf_represents s : wf s -> represents s (store_map s).
Proof.
  intros Hs k. pose proof (wf_range s Hs). destruct (live_keys s (key_range s) Hs ltac:(lia)) as [Hnd Hel].
  unfold store_map. destruct (slot s k) as [e|] eqn:E; simpl.
  - destruct (slot_key s k e Hs E) as [<- Hk]. apply elem_of_list_to_map_1; [by rewrite store_map_keys|].
    apply list_elem_of_fmap. exists e. split; [done|]. by apply Hel.
  - apply not_elem_of_list_to_map_1. rewrite store_map_keys, list_elem_of_fmap.
    intros (e & -> & [_ He]%Hel). congruence.
Qed.

(** As many live entries as keys of the map. *)
Lemma live_size s M : wf s -> represents s M -> length (live s (key_range s)) = size M.
Proof.
  intros Hs HM. pose proof (wf_range s Hs).
  destruct (live_keys s (key_range s) Hs ltac:(lia)) as [Hnd _].
  assert (M = store_map s) as ->. { apply map_eq. intros k. by rewrite HM, (wf_represents s Hs k). }
  unfold store_map. rewrite map_size_list_to_map by (by rewrite store_map_keys). by rewrite length_fmap.
Qed.

Lemma get_correct s M k :
  wf s -> represents s M -> 0 <= k < key_range s -> logstore_get s k = Some (default (-1) (M !! k)).
Proof.
  intros Hs HM Hk. rewrite HM. unfold logstore_get, slot.
  destruct (arr_get_is_Some (imap s) k) as [o Ho]; [rewrite (wf_range s Hs); lia|].
  rewrite Ho. simpl. destruct (Z.ltb_spec o 0), (Z.leb_spec 0 o); try lia; [done|].
  destruct (wf_imap s Hs k o Ho) as (_ & v & Hv); [done|]. by rewrite Hv.
Qed.

Lemma put_correct s M k v :
  wf s -> represents s M -> 0 <= k < key_range s -> head s < capacity s ->
  exists s', logstore_put s k v = Some s' /\ wf s' /\ represents s' (<[k := v]> M) /\
    head s' = head s + 1 /\ capacity s' = capacity s /\ key_range s' = key_range s.
Proof.
  intros Hs HM Hk Hh. unfold logstore_put. pose proof (wf_head s Hs).
  pose proof (wf_cap s Hs). pose proof (wf_range s Hs).
  rewrite arr_set_in by lia. simpl. rewrite arr_set_in by lia. simpl.
  eexists. split; [done|]. split; [|split; [|done]].
  - split; simpl; rewrite ?length_insert; try (done || lia); [apply (wf_int s Hs)|].
    intros k' o Ho Ho0. destruct (decide (k' = k)) as [->|Hne].
    + rewrite arr_get_insert_eq in Ho by lia. simplify_eq. split; [lia|].
      exists v. by rewrite arr_get_insert_eq by lia.
    + rewrite arr_get_insert_ne in Ho by lia. destruct (wf_imap s Hs k' o Ho Ho0) as (? & v' & Hv').
      split; [lia|]. exists v'. by rewrite arr_get_insert_ne by lia.
  - intros k'. unfold slot. simpl. destruct (decide (k' = k)) as [->|Hne].
    + rewrite lookup_insert_eq, arr_get_insert_eq by lia. simpl.
      rewrite (proj2 (Z.leb_le 0 (head s))), arr_get_insert_eq by lia. done.
    + rewrite lookup_insert_ne, HM, arr_get_insert_ne by (done || lia). unfold slot.
      destruct ((imap s).[k']) as [o|] eqn:E; simpl; [|done].
      destruct (Z.leb_spec 0 o); [|done]. destruct (wf_imap s Hs k' o E) as (? & _); [done|].
      by rewrite arr_get_insert_ne by lia.
Qed.

Lemma clean_correct s M fresh :
  wf s -> represents s M -> Z.of_nat (length fresh) = capacity s ->
  exists s', logstore_clean s fresh = Some s' /\ wf s' /\ represents s' M /\
    (if 5 * head s <? 4 * capacity s then s' = s
     else head s' = Z.of_nat (size M) /\
          take (size M) (buffer s') = live s (key_range s)) /\
    capacity s' = capacity s /\ key_range s' = key_range s.
Proof.
  intros Hs HM Hf. unfold logstore_clean, clean_build.
  pose proof (wf_head s Hs). pose proof (wf_int s Hs). pose proof (wf_range s Hs).
  rewrite below_80_exact by lia. destruct (Z.ltb_spec (5 * head s) (4 * capacity s)).
  { exists s. done. }
  destruct (clean_loop_spec s (Z.to_nat (key_range s)) 0 fresh _ 0 Hs ltac:(lia) ltac:(lia)
              (cleaned_start s fresh Hs Hf)) as (nb & ni & nh & -> & C).
  simpl. eexists. split; [done|]. destruct (cleaned_wf s nb ni nh Hs C) as [Hw Hsl].
  split; [done|]. split; [|split; [|done]].
  - intros k. rewrite Hsl. apply HM.
  - simpl. rewrite <- (live_size s M Hs HM). by destruct C.
Qed.

Lemma step_simulates s st o :
  implements s st ->
  match ls_step s o, kv_step (capacity s) (key_range s) st o with
  | Some (s', r), Some (st', r') =>
      r = r' /\ implements s' st' /\ capacity s' = capacity s /\ key_range s' = key_range s
  | None, None => True
  | _, _ => False
  end.
Proof.
  intros (Hs & HM & Hh). destruct o as [k v|k|junk]; simpl.
  - case_bool_decide as Hc.
    + destruct (put_correct s (kv_map st) k v Hs HM ltac:(lia) ltac:(lia))
        as (s' & -> & ? & ? & ? & ? & ?). simpl.
      split; [done|]. split; [|done]. split; [done|]. split; [done|]. simpl. lia.
    + unfold logstore_put. pose proof (wf_cap s Hs). pose proof (wf_range s Hs).
      pose proof (wf_head s Hs). destruct (decide (head s < capacity s)).
      * rewrite (arr_set_in (buffer s)) by lia. simpl. rewrite (arr_set_out (imap s)) by lia. done.
      * rewrite (arr_set_out (buffer s)) by lia. done.
  - case_bool_decide as Hc.
    + rewrite (get_correct s (kv_map st)) by done. done.
    + unfold logstore_get. destruct ((imap s).[k]) as [o|] eqn:E; [|done].
      apply arr_get_Some in E. rewrite (wf_range s Hs) in E. lia.
  - pose proof (wf_head s Hs).
    destruct (clean_correct s (kv_map st) (junk <$> seqZ 0 (capacity s)) Hs HM)
      as (s' & -> & ? & ? & Hh' & ? & ?); [rewrite length_fmap, length_seqZ; lia|].
    simpl. split; [done|]. split; [|done]. split; [done|]. rewrite Hh in Hh'.
    destruct (5 * kv_used st <? 4 * capacity s); [subst s'; done|]. by destruct Hh'.
Qed.

Lemma create_implements cap range :
  0 <= cap < 2 ^ 31 -> 0 <= range -> implements (logstore_create cap range) (mk_kv ∅ 0).
Proof.
  intros Hc Hr. split; [|split; [|done]].
  - split; simpl; rewrite ?length_replicate; try lia. intros k o Hk Ho.
    pose proof (arr_get_Some _ _ _ Hk). rewrite arr_get_nat in Hk by lia.
    apply lookup_replicate in Hk. lia.
  - intros k. cbn [kv_map]. rewrite lookup_empty. unfold slot. simpl.
    destruct ((replicate (Z.to_nat range) (-1)).[k]) as [o|] eqn:E; [|done].
    pose proof (arr_get_Some _ _ _ E). rewrite arr_get_nat in E by lia.
    apply lookup_replicate in E as [-> _]. done.
Qed.

(** ** Properties *)

(** C1. The store is a finite map with a log of [capacity] slots: from every
    store that implements an abstract state, every sequence of puts, gets and
    cleans, with any contents of the memory [malloc] returns, gives the answers
    of the map (the last value put, -1 for a key never put) and ends in a store
    that implements the map's final state; and it is undefined exactly when the
    abstract sequence is: at a key outside [key_range] or a put into a full
    log. *)
Theorem logstore_refines_map (s : LogStore) (st : kv) (ops : list ls_op) (H : implements s st) :
  match run_ops ls_step s ops, run_ops (kv_step (capacity s) (key_range s)) st ops with
  | Some (s', rs), Some (st', rs') => rs = rs' /\ implements s' st'
  | None, None => True
  | _, _ => False
  end.
Proof.
  revert s st H. induction ops as [|o ops IH]; intros s st H; simpl; [done|].
  pose proof (step_simulates s st o H) as Hsim.
  destruct (ls_step s o) as [[s1 r]|], (kv_step _ _ st o) as [[st1 r']|]; try done.
  destruct Hsim as (-> & Hi & Hc & Hk). simpl. specialize (IH s1 st1 Hi). rewrite Hc, Hk in IH.
  destruct (run_ops ls_step s1 ops) as [[s2 rs]|], (run_ops _ st1 ops) as [[st2 rs']|]; try done.
  destruct IH as [-> ?]. done.
Qed.

Lemma logstore_refines_map_witness :
  match run_ops ls_step (logstore_create 5 3) [Put 1 7; Put 2 8; Put 1 9; Put 0 4; Clean (fun _ => mk_Entry 0 0); Get 1],
        run_ops (kv_step 5 3) (mk_kv ∅ 0) [Put 1 7; Put 2 8; Put 1 9; Put 0 4; Clean (fun _ => mk_Entry 0 0); Get 1] with
  | Some (s', rs), Some (st', rs') => rs = rs' /\ implements s' st'
  | None, None => True
  | _, _ => False
  end.
Proof.
  apply (logstore_refines_map (logstore_create 5 3) (mk_kv ∅ 0)
    [Put 1 7; Put 2 8; Put 1 9; Put 0 4; Clean (fun _ => mk_Entry 0 0); Get 1]).
  apply create_implements; lia.
Defined.

(** A client that cleans after every put. *)
Inductive client_call := PutThenClean (k v : Z) (junk : Z -> Entry) | JustGet (k : Z).

Definition client_key (c : client_call) : Z :=
  match c with PutThenClean k _ _ => k | JustGet k => k end.

Definition client_ops (c : client_call) : list ls_op :=
  match c with PutThenClean k v junk => [Put k v; Clean junk] | JustGet k => [Get k] end.

Definition client_map (M : gmap Z Z) (c : client_call) : gmap Z Z :=
  match c with PutThenClean k v _ => <[k := v]> M | JustGet _ => M end.

Lemma omap_length_le {A B} (f : A -> option B) l : (length (omap f l) <= length l)%nat.
Proof. induction l as [|x l IH]; [done|]. unfold omap in *. simpl. destruct (f x); simpl; lia. Qed.

Lemma live_le_range s : wf s -> Z.of_nat (length (live s (key_range s))) <= key_range s.
Proof.
  intros Hs. pose proof (wf_range s Hs). unfold live.
  pose proof (omap_length_le (slot s) (seqZ 0 (key_range s))) as G. rewrite length_seqZ in G. lia.
Qed.

(** Cleaning after every put keeps the log from ever filling up: with more
    slots than keys, every such client, however long it runs, never leaves the
    arrays, and the store then holds the last value put for each key. *)
Theorem logstore_put_clean_total (cap range : Z) (calls : list client_call)
    (Hc : 0 <= range < cap) (Hi : cap < 2 ^ 31)
    (Hk : Forall (fun c => 0 <= client_key c < range) calls) :
  exists s rs, run_ops ls_step (logstore_create cap range) (calls ≫= client_ops) = Some (s, rs) /\
    implements s (mk_kv (foldl client_map ∅ calls) (head s)) /\ head s < cap.
Proof.
  assert (G : forall s M, implements s (mk_kv M (head s)) -> head s < cap -> capacity s = cap ->
    key_range s = range -> exists s' rs, run_ops ls_step s (calls ≫= client_ops) = Some (s', rs) /\
      implements s' (mk_kv (foldl client_map M calls) (head s')) /\ head s' < cap).
  2:{ destruct (create_implements cap range ltac:(lia) ltac:(lia)) as (? & ? & ?).
      apply G; try done. simpl. lia. }
  induction Hk as [|c calls Hk _ IH]; intros s M (Hs & HM & _) Hh Hcap Hr; [by exists s, []|].
  rewrite bind_cons, run_ops_app. set (rest := calls ≫= client_ops) in *. clearbody rest.
  destruct c as [k v junk|k]; simpl in *.
  - destruct (put_correct s M k v Hs HM ltac:(lia) ltac:(lia))
      as (s1 & -> & Hw1 & HM1 & Hh1 & Hc1 & Hr1). simpl.
    destruct (clean_correct s1 (<[k := v]> M) (junk <$> seqZ 0 (capacity s1)) Hw1 HM1)
      as (s2 & -> & Hw2 & HM2 & Hh2 & Hc2 & Hr2);
      [rewrite length_fmap, length_seqZ; lia|]. simpl.
    destruct (IH s2 (<[k := v]> M)) as (s' & rs & -> & Hfin); [done| |lia|lia|by simpl; eauto].
    destruct (Z.ltb_spec (5 * head s1) (4 * capacity s1)); [subst s2; lia|].
    destruct Hh2 as [-> _]. rewrite <- (live_size s1 _ Hw1 HM1).
    pose proof (live_le_range s1 Hw1). lia.
  - rewrite (get_correct s M) by (done || lia). simpl.
    destruct (IH s M) as (s' & rs & -> & Hfin); [done..|]. simpl. eauto.
Qed.

Lemma logstore_put_clean_total_witness :
  exists s rs, run_ops ls_step (logstore_create 3 2)
    ([PutThenClean 1 7 (fun _ => mk_Entry 9 9); JustGet 1; PutThenClean 1 8 (fun _ => mk_Entry 9 9);
      PutThenClean 0 5 (fun _ => mk_Entry 9 9)] ≫= client_ops) = Some (s, rs) /\
    implements s (mk_kv (foldl client_map ∅
      [PutThenClean 1 7 (fun _ => mk_Entry 9 9); JustGet 1; PutThenClean 1 8 (fun _ => mk_Entry 9 9);
      PutThenClean 0 5 (fun _ => mk_Entry 9 9)]) (head s)) /\ head s < 3.
Proof.
  apply (logstore_put_clean_total 3 2); [lia|lia|]. repeat (constructor; [simpl; lia|]). constructor.
Defined.

(** Cleaning at 80% or more compacts the log exactly: the head becomes the
    number of keys the store holds, and the first slots of the log are their
    entries in increasing key order; [below_80_exact] shows that the comparison
    with [capacity * 0.8] in floating point decides [5 * head < 4 * capacity]. *)
Theorem logstore_clean_compacts (s : LogStore) (M : gmap Z Z) (fresh : list Entry)
    (Hs : wf s) (HM : represents s M) (Hf : Z.of_nat (length fresh) = capacity s)
    (Hfull : 4 * capacity s <= 5 * head s) :
  exists s', logstore_clean s fresh = Some s' /\ represents s' M /\
    head s' = Z.of_nat (size M) /\
    (forall j e, live s (key_range s) !! j = Some e ->
       logstore_get_buffer_index s' (Z.of_nat j) = Some e) /\
    length (live s (key_range s)) = size M /\
    forall k v, M !! k = Some v <-> mk_Entry k v ∈ live s (key_range s).
Proof.
  destruct (clean_correct s M fresh Hs HM Hf) as (s' & E & Hw & HM' & Hh & _ & _).
  rewrite (proj2 (Z.ltb_ge _ _)) in Hh by lia. destruct Hh as [Hh Ht].
  exists s'. split; [done|]. split; [done|]. split; [done|].
  split; [|split; [by apply live_size|]].
  - intros j e Hj. unfold logstore_get_buffer_index. rewrite arr_get_nat, Nat2Z.id by lia.
    rewrite <- Ht in Hj. pose proof (lookup_lt_Some _ _ _ Hj) as Hlt. rewrite length_take in Hlt.
    by rewrite lookup_take_lt in Hj by lia.
  - intros k v. rewrite HM. pose proof (wf_range s Hs).
    destruct (live_keys s (key_range s) Hs ltac:(lia)) as [_ Hel]. rewrite Hel. simpl. split.
    + intros ([k' v'] & He & [= <-])%fmap_Some. simpl.
      destruct (slot_key s k _ Hs He) as [Hk ?]. simpl in Hk. subst k'. done.
    + intros [_ ->]. done.
Qed.

Lemma logstore_clean_compacts_witness :
  exists s', logstore_clean (mk_LogStore [mk_Entry 1 5; mk_Entry 0 6; mk_Entry 1 7; mk_Entry 0 0]
                             [1; 2] 4 4 2) (replicate 4 (mk_Entry 8 8)) = Some s' /\
    represents s' (<[0 := 6]> {[1 := 7]}) /\ head s' = Z.of_nat 2 /\
    (forall j e, live (mk_LogStore [mk_Entry 1 5; mk_Entry 0 6; mk_Entry 1 7; mk_Entry 0 0]
                        [1; 2] 4 4 2) 2 !! j = Some e ->
       logstore_get_buffer_index s' (Z.of_nat j) = Some e) /\
    length (live (mk_LogStore [mk_Entry 1 5; mk_Entry 0 6; mk_Entry 1 7; mk_Entry 0 0]
                        [1; 2] 4 4 2) 2) = 2%nat /\
    forall k v, (<[0 := 6]> {[1 := 7]} : gmap Z Z) !! k = Some v <->
      mk_Entry k v ∈ live (mk_LogStore [mk_Entry 1 5; mk_Entry 0 6; mk_Entry 1 7; mk_Entry 0 0]
                        [1; 2] 4 4 2) 2.
Proof.
  assert (Hslot : forall k off, [1; 2].[k] = Some off -> (k = 0 /\ off = 1) \/ (k = 1 /\ off = 2)).
  { intros k off Hk. pose proof (arr_get_Some _ _ _ Hk) as Hr. simpl in Hr.
    assert (k = 0 \/ k = 1) as [-> | ->] by lia; vm_compute in Hk; simplify_eq; auto. }
  refine (logstore_clean_compacts (mk_LogStore [mk_Entry 1 5; mk_Entry 0 6; mk_Entry 1 7; mk_Entry 0 0]
                        [1; 2] 4 4 2) (<[0 := 6]> {[1 := 7]}) (replicate 4 (mk_Entry 8 8)) _ _ _ _);
    [split; simpl; try lia| |reflexivity|simpl; lia].
  - intros k off Hk _. destruct (Hslot k off Hk) as [[-> ->] | [-> ->]];
      (split; [lia|]); [exists 6|exists 7]; reflexivity.
  - intros k. unfold slot. simpl. destruct ([1; 2].[k]) as [off|] eqn:E.
    + destruct (Hslot k off E) as [[-> ->] | [-> ->]]; reflexivity.
    + simpl. rewrite lookup_insert_ne, lookup_singleton_ne; [done|..]; intros <-; discriminate.
Defined.

(** ** Concurrent clients

    Under the lock a put or a get is one atomic step, so an execution of several
    threads is an [interleaving] of their calls. *)

(** logstore_test.c: the calls of its threads. *)
Definition put_thread (reps range : Z) : list ls_op := (fun i => Put (i mod range) i) <$> seqZ 0 reps.
Definition get_thread (reps range : Z) : list ls_op := (fun i => Get (i mod range)) <$> seqZ 0 reps.

(** The comparison loop at the end of the two tests. *)
Definition test_values (s : LogStore) (range : Z) (expected : Z -> Z) : option bool :=
  es ← mapM (fun j => logstore_get_buffer_index s j) (seqZ 0 range);
  Some (forallb (fun '(j, e) => e_value e =? expected j) (zip (seqZ 0 range) es)).

Definition simple_put_clean_test (junk : Z -> Entry) : option bool :=
  '(s, _) ← run_ops ls_step (logstore_create 20 10)
     (((fun j => Put j (0 * j)) <$> seqZ 0 10) ++ ((fun j => Put j (1 * j)) <$> seqZ 0 10)
      ++ [Clean junk]);
  test_values s 10 (fun j => j).

(** The part of the second test after the joins. *)
Definition multi_put_get_clean_check (s : LogStore) (junk : Z -> Entry) (reps range : Z) : option bool :=
  '(s, _) ← ls_step s (Clean junk);
  test_values s range (fun j => reps - range + j).

(** The last value the calls put for [k]. *)
Fixpoint last_put (k : Z) (l : list ls_op) : option Z :=
  match l with
  | [] => None
  | Put k' v :: l => match last_put k l with
                     | Some w => Some w
                     | None => if k' =? k then Some v else None
                     end
  | _ :: l => last_put k l
  end.

Definition is_put (o : ls_op) : bool := match o with Put _ _ => true | _ => false end.
Definition op_key (o : ls_op) : Z := match o with Put k _ => k | Get k => k | Clean _ => -1 end.

Lemma last_put_cons k x l :
  last_put k (x :: l) = match last_put k l with Some w => Some w | None => last_put k [x] end.
Proof. by destruct x; simpl; destruct (last_put k l). Qed.

Lemma last_put_app k l1 l2 :
  last_put k (l1 ++ l2) = match last_put k l2 with Some w => Some w | None => last_put k l1 end.
Proof.
  induction l1 as [|x l1 IH]; simpl app; [by destruct (last_put k l2)|].
  rewrite last_put_cons, (last_put_cons k x l1), IH. by destruct (last_put k l2).
Qed.

(** The last put of an interleaving is the last put of one of its threads. *)
Lemma interleaving_last_put k tss l :
  interleaving tss l ->
  (last_put k l = None /\ Forall (fun ts => last_put k ts = None) tss) \/
  (exists w i ts, last_put k l = Some w /\ tss !! i = Some ts /\ last_put k ts = Some w).
Proof.
  induction 1 as [tss Hnil|tss i x ts l Hi _ IH].
  - left. split; [done|]. eapply Forall_impl; [exact Hnil|]. by intros ? ->.
  - rewrite last_put_cons.
    assert (Hlt : (i < length tss)%nat) by (by eapply lookup_lt_Some).
    destruct IH as [[-> Hall]|(w & j & ts' & -> & Hj & Hw)].
    + assert (Hts : last_put k ts = None).
      { apply (Forall_lookup_1 _ _ i ts Hall). by apply list_lookup_insert_eq. }
      destruct (last_put k [x]) as [w|] eqn:Ex.
      * right. exists w, i, (x :: ts). split; [done|]. split; [done|].
        by rewrite last_put_cons, Hts, Ex.
      * left. split; [done|]. rewrite <- (list_insert_id tss i (x :: ts)) by done.
        rewrite <- (list_insert_insert_eq tss i (x :: ts) ts).
        apply Forall_insert; [done|]. by rewrite last_put_cons, Hts, Ex.
    + right. destruct (decide (j = i)) as [->|Hne].
      * rewrite list_lookup_insert_eq in Hj by done. simplify_eq.
        exists w, i, (x :: ts'). split; [done|]. split; [done|]. by rewrite last_put_cons, Hw.
      * rewrite list_lookup_insert_ne in Hj by done. by exists w, j, ts'.
Qed.

(** Puts and gets that fit in the log leave the last value put for each key. *)
Lemma run_puts_gets l : forall s M,
  implements s (mk_kv M (head s)) ->
  Forall (fun o => 0 <= op_key o < key_range s) l ->
  head s + lsum (ind is_put) l <= capacity s ->
  exists s' rs M', run_ops ls_step s l = Some (s', rs) /\ implements s' (mk_kv M' (head s')) /\
    head s' = head s + lsum (ind is_put) l /\
    capacity s' = capacity s /\ key_range s' = key_range s /\
    forall k, M' !! k = match last_put k l with Some v => Some v | None => M !! k end.
Proof.
  induction l as [|o l IH]; intros s M (Hs & HM & _) Hk Hroom.
  { exists s, [], M. simpl. split; [done|]. split; [done|]. split; [lia|]. done. }
  inversion Hk as [|? ? Ho Hl]; subst. pose proof (lsum_nonneg (ind is_put) l (ind_nonneg is_put)).
  destruct o as [k v|k|]; simpl in Ho; [..|lia].
  - simpl in Hroom. unfold ind in Hroom at 1. simpl in Hroom.
    destruct (put_correct s M k v Hs HM ltac:(lia) ltac:(lia)) as (s1 & E1 & Hw1 & HM1 & Hh1 & Hc1 & Hr1).
    destruct (IH s1 (<[k := v]> M)) as (s' & rs & M' & E & Hi & Hh & Hc & Hr & Hlook);
      [done|by rewrite Hr1|lia|].
    exists s', (None :: rs), M'. cbn [run_ops ls_step]. rewrite E1. simpl. rewrite E. simpl.
    split; [done|]. split; [done|]. unfold ind at 1. simpl.
    split; [lia|]. split; [lia|]. split; [lia|]. intros k'. rewrite Hlook.
    destruct (last_put k' l); [done|]. destruct (Z.eqb_spec k k') as [->|Hne].
    + by rewrite lookup_insert_eq.
    + by rewrite lookup_insert_ne.
  - simpl in Hroom. unfold ind in Hroom at 1. simpl in Hroom.
    destruct (IH s M) as (s' & rs & M' & E & Hi & Hh & Hc & Hr & Hlook); [done|done|lia|].
    eexists s', (_ :: rs), M'. cbn [run_ops ls_step]. rewrite (get_correct s M) by done. simpl.
    rewrite E. simpl. split; [done|]. split; [done|]. unfold ind at 1. simpl.
    split; [lia|]. split; [lia|]. split; [lia|]. intros k'. by rewrite Hlook.
Qed.

(** The last put of a put thread to key [k] is in its last round. *)
Lemma put_thread_last reps range k :
  0 <= k < range -> range <= reps -> (range | reps) ->
  last_put k (put_thread reps range) = Some (reps - range + k).
Proof.
  intros Hk Hr [m Hm]. unfold put_thread.
  assert (Hmod : forall j, 0 <= j < range -> (reps - range + j) mod range = j).
  { intros j Hj. replace (reps - range + j) with (j + (m - 1) * range) by lia.
    rewrite Z.mod_add by lia. apply Z.mod_small. lia. }
  replace reps with ((reps - range + k) + (1 + (range - k - 1))) at 1 by lia.
  rewrite seqZ_app, (seqZ_app _ 1 (range - k - 1)), !fmap_app, !last_put_app by lia.
  assert (Hnone : forall n d, 0 <= d -> k < d -> d + n <= range ->
    last_put k ((fun i => Put (i mod range) i) <$> seqZ (reps - range + d) n) = None).
  { intros n d Hd Hkd Hdn. destruct (decide (0 <= n)) as [Hn|]; [|by rewrite seqZ_nil by lia].
    revert n Hn d Hd Hkd Hdn.
    apply (natlike_ind (fun n => forall d, 0 <= d -> k < d -> d + n <= range ->
      last_put k ((fun i => Put (i mod range) i) <$> seqZ (reps - range + d) n) = None)); [done|].
    intros n Hn IH d Hd Hkd Hdn. rewrite seqZ_cons by lia.
    rewrite fmap_cons, last_put_cons. replace (Z.succ (reps - range + d)) with (reps - range + (d + 1)) by lia.
    replace (Z.pred (Z.succ n)) with n by lia. rewrite IH by lia. simpl.
    rewrite Hmod by lia. by rewrite (proj2 (Z.eqb_neq d k)) by lia. }
  replace (0 + (reps - range + k) + 1) with (reps - range + (k + 1)) by lia.
  rewrite Hnone by lia. rewrite Z.add_0_l.
  rewrite (seqZ_cons (reps - range + k) 1) by lia. simpl.
  by rewrite Hmod, Z.eqb_refl by lia.
Qed.

(** The compacted log holds the expected values, when the store has every key. *)
Lemma test_values_passes s s' M range expected :
  wf s -> represents s M -> key_range s = range ->
  (forall k, 0 <= k < range -> M !! k = Some (expected k)) ->
  take (size M) (buffer s') = live s range ->
  test_values s' range expected = Some true.
Proof.
  intros Hs HM Hr Hall Ht.
  assert (Hlive : live s range = (fun k => mk_Entry k (expected k)) <$> seqZ 0 range).
  { unfold live. assert (G : forall l : list Z, (forall k, k ∈ l -> 0 <= k < range) ->
      omap (slot s) l = (fun k => mk_Entry k (expected k)) <$> l).
    { induction l as [|k l IH]; intros Hl; [done|]. unfold omap in *. cbn [list_omap].
      rewrite IH by (intros; apply Hl; set_solver).
      specialize (HM k). rewrite Hall in HM by (apply Hl; set_solver).
      destruct (slot s k) as [[k' v']|] eqn:E; simplify_eq/=.
      destruct (slot_key s k _ Hs E) as [Hkey _]. simpl in Hkey. by subst k'. }
    apply G. intros k Hk%elem_of_seqZ. lia. }
  unfold test_values.
  assert (mapM (fun j => logstore_get_buffer_index s' j) (seqZ 0 range) =
          Some ((fun k => mk_Entry k (expected k)) <$> seqZ 0 range)) as ->.
  { apply mapM_Some. apply Forall2_fmap_r, Forall_Forall2_diag, Forall_lookup.
    intros i k Hk. apply lookup_seqZ in Hk as [-> Hi].
    unfold logstore_get_buffer_index. rewrite Z.add_0_l, arr_get_nat, Nat2Z.id by lia.
    assert (Hi' : live s range !! i = Some (mk_Entry (Z.of_nat i) (expected (Z.of_nat i)))).
    { rewrite Hlive, list_lookup_fmap, (proj2 (lookup_seqZ 0 range i (Z.of_nat i))); [done|lia]. }
    rewrite <- Ht in Hi'. pose proof (lookup_lt_Some _ _ _ Hi') as Hlt. rewrite length_take in Hlt.
    by rewrite lookup_take_lt in Hi' by lia. }
  simpl. f_equal. apply forallb_forall. intros [j e] Hj%list_elem_of_In.
  apply elem_of_lookup_zip_with_1 in Hj as (i & x & y & [= -> ->] & Hx & Hy).
  rewrite list_lookup_fmap, Hx in Hy. simplify_eq/=. apply Z.eqb_refl.
Qed.

Lemma thread_keys reps range :
  0 < range ->
  Forall (fun o => 0 <= op_key o < range) (put_thread reps range) /\
  Forall (fun o => 0 <= op_key o < range) (get_thread reps range).
Proof.
  intros Hr. unfold put_thread, get_thread.
  split; apply Forall_fmap, Forall_true; intros i; simpl; apply Z.mod_pos_bound; lia.
Qed.

Lemma thread_puts reps range :
  0 <= reps -> lsum (ind is_put) (put_thread reps range) = reps /\
  lsum (ind is_put) (get_thread reps range) = 0.
Proof.
  intros Hr. unfold put_thread, get_thread.
  assert (Hl : length (seqZ 0 reps) = Z.to_nat reps) by apply length_seqZ.
  split; [rewrite (lsum_const _ 1)|rewrite (lsum_const _ 0)]; rewrite ?length_fmap, ?Hl; try lia;
    intros o (i & -> & _)%list_elem_of_fmap; done.
Qed.

Lemma get_thread_last reps range k : last_put k (get_thread reps range) = None.
Proof. unfold get_thread. by induction (seqZ 0 reps). Qed.

(** The concurrent test of logstore_test.c passes on every schedule: for
    every interleaving of two put threads and two get threads of [reps] calls
    each, with at least [2 * reps] slots of which [2 * reps] are at least 80%,
    all calls stay inside the arrays and, after the final clean, slot [j] of the
    log holds [reps - range + j]. (The test has [reps = 2000], [range = 10] and
    5000 slots: exactly 80%.) *)
Theorem multi_put_get_clean_test_passes (cap reps range : Z) (junk : Z -> Entry) (l : list ls_op)
    (Hr : 0 < range <= reps) (Hd : (range | reps)) (Hcap : 2 * reps <= cap < 2 ^ 31)
    (Hfull : 4 * cap <= 5 * (2 * reps))
    (Hl : interleaving [put_thread reps range; put_thread reps range;
                        get_thread reps range; get_thread reps range] l) :
  exists s rs, run_ops ls_step (logstore_create cap range) l = Some (s, rs) /\
    multi_put_get_clean_check s junk reps range = Some true.
Proof.
  destruct (thread_keys reps range) as [Kp Kg]; [lia|].
  destruct (thread_puts reps range) as [Np Ng]; [lia|].
  pose proof (create_implements cap range ltac:(lia) ltac:(lia)) as Hi.
  assert (Hsum : lsum (ind is_put) l = 2 * reps).
  { rewrite (interleaving_sum _ _ _ Hl). simpl. lia. }
  destruct (run_puts_gets l (logstore_create cap range) ∅ Hi)
    as (s & rs & M & E & (Hs & HM & _) & Hh & Hc & Hk & Hlook).
  { apply (interleaving_Forall _ _ _ Hl). repeat constructor; done. }
  { simpl. lia. }
  exists s, rs. split; [done|]. unfold multi_put_get_clean_check. simpl in *.
  assert (Hall : forall k, 0 <= k < range -> M !! k = Some (reps - range + k)).
  { intros k Hkr. pose proof (put_thread_last reps range k ltac:(lia) ltac:(lia) Hd) as Hlast.
    rewrite Hlook. destruct (interleaving_last_put k _ _ Hl) as [[_ Hnone]|(w & i & ts & -> & Hts & Hw)].
    - inversion Hnone. congruence.
    - pose proof (get_thread_last reps range k).
      destruct i as [|[|[|[|]]]]; simplify_eq/=; congruence. }
  destruct (clean_correct s M (junk <$> seqZ 0 (capacity s)) Hs HM)
    as (s' & -> & Hw' & HM' & Hcomp & _ & _);
    [rewrite length_fmap, length_seqZ; lia|].
  rewrite (proj2 (Z.ltb_ge _ _)) in Hcomp by lia. destruct Hcomp as [_ Ht]. simpl.
  rewrite Hk in Ht. by apply (test_values_passes s s' M range (fun j => reps - range + j)).
Qed.

Lemma multi_put_get_clean_test_passes_witness :
  exists s rs, run_ops ls_step (logstore_create 5 2)
    [Put 0 0; Put 0 0; Get 0; Put 1 1; Get 0; Get 1; Put 1 1; Get 1] = Some (s, rs) /\
    multi_put_get_clean_check s (fun _ => mk_Entry 9 9) 2 2 = Some true.
Proof.
  apply (multi_put_get_clean_test_passes 5 2 2 (fun _ => mk_Entry 9 9)); [lia|by exists 1|lia|lia|].
  eapply (il_cons _ 1); [reflexivity|]. eapply (il_cons _ 0); [reflexivity|].
  eapply (il_cons _ 2); [reflexivity|]. eapply (il_cons _ 0); [reflexivity|].
  eapply (il_cons _ 3); [reflexivity|]. eapply (il_cons _ 2); [reflexivity|].
  eapply (il_cons _ 1); [reflexivity|]. eapply (il_cons _ 3); [reflexivity|].
  constructor. repeat constructor.
Defined.

(** The single-threaded test passes, whatever [malloc] returns. *)
Example simple_put_clean_test_passes : simple_put_clean_test (fun i => mk_Entry (-5) i) = Some true.
Proof. vm_compute. reflexivity. Qed.

(** A put that runs while [logstore_clean] builds its new buffer, before
    it takes the lock, is lost: after the switch the key has the value it had
    when the clean started, although the put has returned. *)
Theorem clean_loses_concurrent_put (s s1 : LogStore) (M : gmap Z Z) (fresh : list Entry)
    (new : list Entry * list Z * Z) (k v : Z)
    (Hs : wf s) (HM : represents s M) (Hf : Z.of_nat (length fresh) = capacity s)
    (Hb : clean_build s fresh = Some (Some new))
    (Hp : logstore_put s k v = Some s1) :
  logstore_get s1 k = Some v /\
  logstore_get (clean_switch s1 new) k = Some (default (-1) (M !! k)).
Proof.
  assert (Hk : 0 <= k < key_range s /\ head s < capacity s).
  { unfold logstore_put in Hp. pose proof (wf_cap s Hs). pose proof (wf_range s Hs).
    destruct ((buffer s).[head s <- _]) as [b|] eqn:E1; [|done]. apply arr_set_Some in E1.
    simpl in Hp. destruct ((imap s).[k <- head s]) as [m|] eqn:E2; [|done].
    apply arr_set_Some in E2. lia. }
  destruct (put_correct s M k v Hs HM) as (s1' & E & Hw1 & HM1 & _ & Hc1 & Hr1); [lia|lia|].
  rewrite Hp in E. simplify_eq. split.
  { rewrite (get_correct s1' (<[k := v]> M)) by (done || lia). by rewrite lookup_insert_eq. }
  destruct (clean_correct s M fresh Hs HM Hf) as (s2 & Hcl & Hw2 & HM2 & _ & _ & Hr2).
  unfold logstore_clean in Hcl. rewrite Hb in Hcl. simpl in Hcl. simplify_eq.
  destruct new as [[nb ni] nh]. simpl in *. unfold logstore_get. simpl.
  pose proof (get_correct _ M k Hw2 HM2 ltac:(simpl; lia)) as Hg. exact Hg.
Qed.

Lemma clean_loses_concurrent_put_witness :
  logstore_get (mk_LogStore [mk_Entry 0 1; mk_Entry 0 2; mk_Entry 0 3; mk_Entry 0 5; mk_Entry 0 6]
                  [4] 5 5 1) 0 = Some 6 /\
  logstore_get (clean_switch
    (mk_LogStore [mk_Entry 0 1; mk_Entry 0 2; mk_Entry 0 3; mk_Entry 0 5; mk_Entry 0 6] [4] 5 5 1)
    (mk_Entry 0 5 :: replicate 4 (mk_Entry 9 9), [0], 1)) 0
  = Some (default (-1) (({[0 := 5]} : gmap Z Z) !! 0)).
Proof.
  assert (Hslot : forall k off, [3].[k] = Some off -> k = 0 /\ off = 3).
  { intros k off Hk. pose proof (arr_get_Some _ _ _ Hk) as Hr. simpl in Hr.
    assert (k = 0) as -> by lia. vm_compute in Hk. by simplify_eq. }
  refine (clean_loses_concurrent_put
    (mk_LogStore [mk_Entry 0 1; mk_Entry 0 2; mk_Entry 0 3; mk_Entry 0 5; mk_Entry 0 0] [3] 4 5 1)
    (mk_LogStore [mk_Entry 0 1; mk_Entry 0 2; mk_Entry 0 3; mk_Entry 0 5; mk_Entry 0 6] [4] 5 5 1)
    {[0 := 5]} (replicate 5 (mk_Entry 9 9)) (mk_Entry 0 5 :: replicate 4 (mk_Entry 9 9), [0], 1)
    0 6 _ _ _ _ _); [split; simpl; try lia| |reflexivity|reflexivity|reflexivity].
  - intros k off Hk _. destruct (Hslot k off Hk) as [-> ->]. split; [lia|]. by exists 5.
  - intros k. unfold slot. simpl. destruct ([3].[k]) as [off|] eqn:E.
    + destruct (Hslot k off E) as [-> ->]. reflexivity.
    + simpl. rewrite lookup_singleton_ne; [done|]. intros <-. discriminate.
Defined.
