(* ===== verification/Spsc.v ===== *)
(** * spsc.c: a lock-free single-producer single-consumer ring

    The parent writes 0, 1, ..., [max_count - 1] into a shared ring of 10
    integers, the child adds them up. The two processes are threads of
    [Threads.v] whose steps are their accesses to the shared memory in program
    order; the release stores and acquire loads of the code order the buffer
    accesses as program order does here. A test of the ring that fails changes
    nothing and is made again: it is a thread that cannot move. *)

From S2P Require Import Prelude Threads.

Definition RB_LEN : Z := 10.

Record rb_t := mk_rb { rb_buff : list Z; rb_head : Z; rb_tail : Z }.

(** Where a process is in its loop: at the [while] test and the test of the
    ring, at the access to the buffer, at the store of its index. *)
Inductive sp_pc := Sp_test | Sp_access | Sp_publish.

Inductive sp_proc :=
  | Parent (pc : sp_pc) (parent_counter local_head : Z)
  | Child (pc : sp_pc) (child_counter local_tail entry_sum : Z).

Definition spsc_step (max_count : Z) (rb : rb_t) (p : sp_proc) : option (rb_t * sp_proc) :=
  match p with
  | Child Sp_test child_counter local_tail entry_sum =>
      if child_counter <? max_count then
        if negb (local_tail =? rb_head rb)
        then Some (rb, Child Sp_access child_counter local_tail entry_sum) else None
      else None
  | Child Sp_access child_counter local_tail entry_sum =>
      v ← (rb_buff rb).[local_tail];
      Some (rb, Child Sp_publish (child_counter + 1) (Z.rem (local_tail + 1) RB_LEN) (entry_sum +u64 v))
  | Child Sp_publish child_counter local_tail entry_sum =>
      Some (mk_rb (rb_buff rb) (rb_head rb) local_tail, Child Sp_test child_counter local_tail entry_sum)
  | Parent Sp_test parent_counter local_head =>
      if parent_counter <? max_count then
        if negb (Z.rem (local_head + 1) RB_LEN =? rb_tail rb)
        then Some (rb, Parent Sp_access parent_counter local_head) else None
      else None
  | Parent Sp_access parent_counter local_head =>
      buff ← (rb_buff rb).[local_head <- parent_counter];
      Some (mk_rb buff (rb_head rb) (rb_tail rb),
            Parent Sp_publish (parent_counter + 1) (Z.rem (local_head + 1) RB_LEN))
  | Parent Sp_publish parent_counter local_head =>
      Some (mk_rb (rb_buff rb) local_head (rb_tail rb), Parent Sp_test parent_counter local_head)
  end.

(** The shared mapping is zero-filled; then the fork. *)
Definition spsc_main : rb_t * list sp_proc :=
  (mk_rb (replicate 10 0) 0 0, [Parent Sp_test 0 0; Child Sp_test 0 0 0]).

(** ** Invariant *)

(** How many entries a process has published: all it has handled, but the one
    whose index it is about to store. *)
Definition published (pc : sp_pc) (n : Z) : Z := match pc with Sp_publish => n - 1 | _ => n end.

Record spsc_inv (max : Z) (rb : rb_t) (pc : sp_pc) (p lh : Z) (pc' : sp_pc) (c lt sum : Z) : Prop := {
  si_len : length (rb_buff rb) = 10%nat;
  si_p : 0 <= published pc p /\ p <= max;
  si_c : 0 <= published pc' c /\ c <= max;
  si_lh : lh = p mod 10;
  si_lt : lt = c mod 10;
  si_head : rb_head rb = published pc p mod 10;
  si_tail : rb_tail rb = published pc' c mod 10;
  si_order : c <= published pc p;
  si_room : p - published pc' c <= 9;
  si_access : pc = Sp_access -> p - published pc' c <= 8 /\ p < max;
  si_access' : pc' = Sp_access -> c < published pc p /\ c < max;
  si_buff : forall i, c <= i < p -> (rb_buff rb).[i mod 10] = Some i;
  si_sum : 2 * sum = c * (c - 1)
}.

Definition spsc_I (max : Z) (rb : rb_t) (ls : list sp_proc) : Prop :=
  exists pc p lh pc' c lt sum,
    ls = [Parent pc p lh; Child pc' c lt sum] /\ spsc_inv max rb pc p lh pc' c lt sum.

Lemma mod10_next a : 0 <= a -> Z.rem (a mod 10 + 1) RB_LEN = (a + 1) mod 10.
Proof. intros. unfold RB_LEN. rewrite Z.rem_mod_nonneg by modlia. modlia. Qed.

Lemma mod10_differ a b : 0 <= a - b <= 9 -> a mod 10 = b mod 10 -> a = b.
Proof. intros. modlia. Qed.

Lemma spsc_parent_step max rb pc p lh pc' c lt sum rb' t :
  max <= 2 ^ 31 - 1 -> spsc_inv max rb pc p lh pc' c lt sum ->
  spsc_step max rb (Parent pc p lh) = Some (rb', t) ->
  exists pc2 p2 lh2, t = Parent pc2 p2 lh2 /\ spsc_inv max rb' pc2 p2 lh2 pc' c lt sum.
Proof.
  intros Hmax [Hlen Hp Hc Hlh Hlt Hh Ht Ho Hr Ha Ha' Hb Hs] E. destruct pc; simpl in *.
  - destruct (Z.ltb_spec p max) as [Hlt'|]; [|done].
    destruct (Z.eqb_spec (Z.rem (lh + 1) RB_LEN) (rb_tail rb)) as [|Hne]; simplify_eq/=.
    eexists _, _, _; split; [done|]. split; simpl; try done. intros _. split; [|done].
    rewrite mod10_next, Ht in Hne by lia.
    destruct (decide (p - published pc' c = 9)) as [H9|]; [|lia].
    exfalso. apply Hne. replace (p + 1) with (published pc' c + 1 * 10) by lia.
    apply Z.mod_add. lia.
  - destruct (Ha eq_refl) as [H8 Hpm]. subst lh.
    assert (0 <= p mod 10 < 10) by (apply Z.mod_pos_bound; lia).
    rewrite arr_set_in in E by lia. simplify_eq/=.
    eexists _, _, _; split; [done|]. split; simpl; try (done || lia).
    + by rewrite length_insert.
    + apply mod10_next. lia.
    + rewrite Hh. f_equal. lia.
    + intros Hpc. specialize (Ha' Hpc). lia.
    + intros i Hi. destruct (decide (i = p)) as [->|Hne].
      * apply arr_get_insert_eq. lia.
      * rewrite arr_get_insert_ne; [apply Hb; lia|lia|].
        intros Heq. apply Hne. symmetry. apply (mod10_differ p i); [|done].
        unfold published in *. destruct pc'; lia.
  - simplify_eq/=. eexists _, _, _; split; [done|]. split; simpl; done || lia.
Qed.

Lemma spsc_child_step max rb pc p lh pc' c lt sum rb' t :
  max <= 2 ^ 31 - 1 -> spsc_inv max rb pc p lh pc' c lt sum ->
  spsc_step max rb (Child pc' c lt sum) = Some (rb', t) ->
  exists pc2 c2 lt2 sum2, t = Child pc2 c2 lt2 sum2 /\ spsc_inv max rb' pc p lh pc2 c2 lt2 sum2.
Proof.
  intros Hmax [Hlen Hp Hc Hlh Hlt Hh Ht Ho Hr Ha Ha' Hb Hs] E. destruct pc'; simpl in *.
  - destruct (Z.ltb_spec c max) as [Hlt'|]; [|done].
    destruct (Z.eqb_spec lt (rb_head rb)) as [|Hne]; simplify_eq/=.
    eexists _, _, _, _; split; [done|]. split; simpl; try done. intros _. split; [|done].
    destruct (decide (c = published pc p)) as [Heq|]; [|lia]. exfalso. congruence.
  - destruct (Ha' eq_refl) as [Hcp Hcm]. subst lt.
    assert (published pc p <= p) by (destruct pc; simpl; lia).
    rewrite (Hb c) in E by lia. simplify_eq/=.
    eexists _, _, _, _; split; [done|]. split; simpl; try (done || lia).
    + apply mod10_next. lia.
    + rewrite Ht. f_equal. lia.
    + intros Hpc. specialize (Ha Hpc). lia.
    + intros i Hi. apply Hb. lia.
    + rewrite wrap_small; [lia|]. unfold in_u. nia.
  - simplify_eq/=. eexists _, _, _, _; split; [done|]. split; simpl; try (done || lia).
    intros Hpc. specialize (Ha Hpc). lia.
Qed.

Lemma spsc_I_step max i rb ls l rb' l' :
  max <= 2 ^ 31 - 1 -> spsc_I max rb ls -> ls !! i = Some l ->
  spsc_step max rb l = Some (rb', l') -> spsc_I max rb' (<[i := l']> ls).
Proof.
  intros Hmax (pc & p & lh & pc' & c & lt & sum & -> & HI) Hi E.
  destruct i as [|[|i]]; simplify_eq/=.
  - destruct (spsc_parent_step _ _ _ _ _ _ _ _ _ _ _ Hmax HI E) as (pc2 & p2 & lh2 & -> & HI').
    by exists pc2, p2, lh2, pc', c, lt, sum.
  - destruct (spsc_child_step _ _ _ _ _ _ _ _ _ _ _ Hmax HI E) as (pc2 & c2 & lt2 & s2 & -> & HI').
    by exists pc, p, lh, pc2, c2, lt2, s2.
Qed.

Lemma spsc_I_init max : 0 <= max -> spsc_I max spsc_main.1 spsc_main.2.
Proof.
  intros. exists Sp_test, 0, 0, Sp_test, 0, 0, 0. split; [done|]. split; simpl; try (done || lia).
Qed.

Lemma spsc_reach max rb ls :
  0 <= max <= 2 ^ 31 - 1 -> rtc (sys_step (spsc_step max)) spsc_main (rb, ls) -> spsc_I max rb ls.
Proof.
  intros Hmax. apply thread_invariant; [apply spsc_I_init; lia|].
  intros. eapply spsc_I_step; (done || lia).
Qed.

(** ** Progress *)

Definition sp_todo (max : Z) (p : sp_proc) : nat :=
  let left pc n :=
    (Z.to_nat (3 * (max - n)) + match pc with Sp_test => 0 | Sp_access => 0 | Sp_publish => 1 end)%nat in
  match p with
  | Parent pc n _ => match pc with Sp_access => (left pc n - 1)%nat | _ => left pc n end
  | Child pc n _ _ => match pc with Sp_access => (left pc n - 1)%nat | _ => left pc n end
  end.

(** The parent has written everything and the child has read everything. *)
Definition spsc_done (max : Z) (c : rb_t * list sp_proc) : Prop :=
  exists lh lt sum, c.2 = [Parent Sp_test max lh; Child Sp_test max lt sum].

Lemma spsc_progress max rb ls :
  spsc_I max rb ls -> spsc_done max (rb, ls) \/ exists c', sys_step (spsc_step max) (rb, ls) c'.
Proof.
  intros (pc & p & lh & pc' & c & lt & sum & -> & [Hlen Hp Hc Hlh Hlt Hh Ht Ho Hr Ha Ha' Hb Hs]).
  destruct pc.
  - destruct (decide (p < max /\ p - published pc' c <= 8)) as [[Hpm Hroom]|Hno].
    { right. apply (thread_can_step _ _ _ 0 (Parent Sp_test p lh)); [done|]. simpl.
      rewrite (proj2 (Z.ltb_lt p max)) by done.
      rewrite (proj2 (Z.eqb_neq _ _)); [eauto|]. rewrite Hlh, Ht, mod10_next by (simpl in *; lia).
      intros Heq%mod10_differ; simpl in *; [|destruct pc'; simpl in *; lia]. destruct pc'; simpl in *; lia. }
    destruct pc'.
    + destruct (decide (c < p)) as [Hcp|].
      { right. apply (thread_can_step _ _ _ 1 (Child Sp_test c lt sum)); [done|]. simpl in *.
        rewrite (proj2 (Z.ltb_lt c max)) by lia.
        rewrite (proj2 (Z.eqb_neq _ _)); [eauto|]. rewrite Hh, Hlt.
        intros Heq. symmetry in Heq. apply mod10_differ in Heq; lia. }
      left. simpl in *. assert (c = max) as -> by lia. assert (p = max) as -> by lia.
      by eexists _, _, _.
    + right. apply (thread_can_step _ _ _ 1 (Child Sp_access c lt sum)); [done|]. simpl in *.
      rewrite Hlt, (Hb c) by (specialize (Ha' eq_refl); lia). eauto.
    + right. apply (thread_can_step _ _ _ 1 (Child Sp_publish c lt sum)); [done|]. simpl. eauto.
  - right. apply (thread_can_step _ _ _ 0 (Parent Sp_access p lh)); [done|]. simpl in *.
    assert (0 <= p mod 10 < 10) by (apply Z.mod_pos_bound; lia).
    rewrite Hlh, arr_set_in by lia. simpl. eauto.
  - right. apply (thread_can_step _ _ _ 0 (Parent Sp_publish p lh)); [done|]. simpl. eauto.
Qed.

Lemma sp_step_todo max rb ls i l rb' l' :
  spsc_I max rb ls -> ls !! i = Some l -> spsc_step max rb l = Some (rb', l') ->
  (sp_todo max l' < sp_todo max l)%nat.
Proof.
  intros (pc & p & lh & pc' & c & lt & sum & -> & HI) Hi E.
  pose proof (si_p _ _ _ _ _ _ _ _ _ HI). pose proof (si_c _ _ _ _ _ _ _ _ _ HI).
  pose proof (si_access _ _ _ _ _ _ _ _ _ HI) as Ha. pose proof (si_access' _ _ _ _ _ _ _ _ _ HI) as Ha'.
  destruct i as [|[|i]]; simplify_eq/=.
  - destruct pc; simpl in *.
    + destruct (Z.ltb_spec p max); [|done]. destruct (negb _); simplify_eq/=. lia.
    + specialize (Ha eq_refl). destruct ((rb_buff rb).[lh <- p]); simplify_eq/=. lia.
    + simplify_eq/=. lia.
  - destruct pc'; simpl in *.
    + destruct (Z.ltb_spec c max); [|done]. destruct (negb _); simplify_eq/=. lia.
    + specialize (Ha' eq_refl). destruct ((rb_buff rb).[lt]); simplify_eq/=. lia.
    + simplify_eq/=. lia.
Qed.

(** ** Properties *)

(** C27. The child never adds a wrong entry: in every reachable state of every
    schedule the entries it has consumed are exactly the first [child_counter]
    numbers, so its sum is [child_counter * (child_counter - 1) / 2], and when
    it leaves its loop the sum it prints is the one it announces. *)
Theorem spsc_sum_exact (max_count : Z) (rb : rb_t) (ls : list sp_proc) (pc : sp_pc) (c lt sum : Z)
    (Hm : 0 <= max_count <= 2 ^ 31 - 1)
    (Hr : rtc (sys_step (spsc_step max_count)) spsc_main (rb, ls))
    (Hc : ls !! 1%nat = Some (Child pc c lt sum)) :
  sum = c * (c - 1) / 2 /\ c <= max_count /\
  (c = max_count -> sum = (max_count - 1) * ((max_count - 1) + 1) / 2).
Proof.
  destruct (spsc_reach _ _ _ Hm Hr) as (pc0 & p & lh & pc' & c' & lt' & sum' & -> & HI).
  simpl in Hc. simplify_eq. pose proof (si_sum _ _ _ _ _ _ _ _ _ HI) as Hs.
  pose proof (si_c _ _ _ _ _ _ _ _ _ HI).
  assert (Hsum : sum = c * (c - 1) / 2) by (rewrite <- Hs, Z.mul_comm, Z.div_mul; lia).
  split; [done|]. split; [lia|]. intros ->. rewrite Hsum. f_equal. lia.
Qed.

Lemma spsc_sum_exact_witness :
  exists rb ls pc lt sum,
    run_sched (spsc_step 2) [0; 0; 0; 1; 0; 1; 0; 1; 0; 1; 1; 1]%nat spsc_main = Some (rb, ls) /\
    ls !! 1%nat = Some (Child pc 2 lt sum) /\
    sum = 2 * (2 - 1) / 2 /\ 2 <= 2 /\ (2 = 2 -> sum = (2 - 1) * ((2 - 1) + 1) / 2).
Proof.
  destruct (run_sched (spsc_step 2) [0; 0; 0; 1; 0; 1; 0; 1; 0; 1; 1; 1]%nat spsc_main)
    as [[rb ls]|] eqn:E; [|vm_compute in E; discriminate].
  assert (Hl : ls !! 1%nat = Some (Child Sp_test 2 2 1))
    by (vm_compute in E; injection E as <- <-; reflexivity).
  exists rb, ls, Sp_test, 2, 1. split; [reflexivity|]. split; [exact Hl|].
  apply (spsc_sum_exact 2 rb ls Sp_test 2 2 1 ltac:(lia)); [|exact Hl].
  by apply (run_sched_rtc _ [0; 0; 0; 1; 0; 1; 0; 1; 0; 1; 1; 1]%nat).
Defined.

(** The ring neither deadlocks nor loses an entry: from every reachable
    state of every schedule the two processes can reach the end, with everything
    written and read; a successful step is made at most [6 * max_count] times. *)
Theorem spsc_terminates (max_count : Z) (rb : rb_t) (ls : list sp_proc) (k : nat)
    (Hm : 0 <= max_count <= 2 ^ 31 - 1)
    (Hr : nsteps (sys_step (spsc_step max_count)) k spsc_main (rb, ls)) :
  Z.of_nat k <= 6 * max_count /\
  exists c', rtc (sys_step (spsc_step max_count)) (rb, ls) c' /\ spsc_done max_count c'.
Proof.
  set (P := fun c : rb_t * list sp_proc => spsc_I max_count c.1 c.2).
  assert (HP : forall c c', P c -> sys_step (spsc_step max_count) c c' -> P c').
  { intros c c' Hc Hs. destruct Hs as [i s ts l s' l' Hi Ht]. eapply spsc_I_step; (done || lia). }
  assert (Hd : forall s ts i t s' t', P (s, ts) -> ts !! i = Some t ->
    spsc_step max_count s t = Some (s', t') -> (sp_todo max_count t' < sp_todo max_count t)%nat).
  { intros s ts i t s' t' Hc. by apply sp_step_todo. }
  split.
  - pose proof (measure_bounds_runs _ P (sp_todo max_count) k _ _ HP Hd
      (spsc_I_init max_count ltac:(lia)) Hr) as Hb.
    pose proof (lsum_nonneg (fun t => Z.of_nat (sp_todo max_count t)) ls ltac:(intros; simpl; lia)).
    unfold spsc_main in Hb. simpl in Hb. lia.
  - apply (progress_reaches _ P (sp_todo max_count) _ _ HP Hd).
    + intros [s ts] Hc. by apply spsc_progress.
    + apply spsc_reach; [done|]. by eapply rtc_nsteps_2.
Qed.

Lemma spsc_terminates_witness :
  Z.of_nat 0 <= 6 * 10000000 /\
  exists c', rtc (sys_step (spsc_step 10000000)) spsc_main c' /\ spsc_done 10000000 c'.
Proof.
  apply (spsc_terminates 10000000 spsc_main.1 spsc_main.2 0 ltac:(lia)). apply nsteps_O.
Defined.
