(* ===== verification/PacketProc.v ===== *)
(** * packet_proc.c: a zero-copy packet processor

    A producer process reads packets from a file into a pool of 128 packet
    buffers and a consumer process adds up their payload bytes in place. The
    indices of the buffers travel through two lock-free rings, [free_ring] and
    [ready_ring]; the payloads are never copied after the producer has written
    them. The two processes are threads of [Threads.v] whose steps are their
    accesses to the shared memory in program order (each test of a ring is one
    step, as it loads one index the other process writes). The file is the list
    of its records, [clock] what [current_nanoseconds] returns for each packet. *)

From S2P Require Import Prelude Fifo Threads.

Definition MAX_PAYLOAD_DATA_SIZE : Z := 48.
Definition BUFFER_SIZE : Z := 128.
Definition HIGH_PRIORITY : Z := 0.
Definition EXPECTED_PACKET_COUNT : Z := 1000000.
Definition DUMMY_DATA : Z := 0xDEADBEEFBABA.

Record packet_payload_t := mk_payload { pl_len : Z; pl_data : list Z }.

Record packet_t := mk_packet {
  pk_timestamp : Z; pk_length : Z; pk_priority : Z; pk_payload : list Z
}.

Record ringbuf_t := mk_ringbuf { rb_head : Z; rb_tail : Z; rb_mask : Z; rb_buffer : list Z }.

Definition ring_is_full (rb : ringbuf_t) : bool := rb_head rb =? Z.lxor (rb_tail rb) BUFFER_SIZE.
Definition ring_is_empty (rb : ringbuf_t) : bool := rb_head rb =? rb_tail rb.

(** The loop over the payload bytes, from [i]. *)
Fixpoint process_loop (n : nat) (i : Z) (payload : list Z) (checksum : Z) : option Z :=
  match n with
  | O => Some checksum
  | S n => b ← payload.[i]; process_loop n (i + 1) payload (checksum +u64 b)
  end.

Definition process_packet (curr : packet_t) (checksum : Z) : option Z :=
  process_loop (Z.to_nat (MAX_PAYLOAD_DATA_SIZE / 8)) 0 (pk_payload curr) checksum.

Fixpoint expected_loop (n : nat) (dummy_val expected : Z) : Z :=
  match n with
  | O => expected
  | S n => expected_loop n (Z.shiftr dummy_val 8) (expected +u64 Z.land dummy_val 0xff)
  end.

Definition calc_expected_checksum : Z :=
  u64 (expected_loop (Z.to_nat (MAX_PAYLOAD_DATA_SIZE / 8)) DUMMY_DATA 0 * EXPECTED_PACKET_COUNT).

(** [memcpy] of as many bytes as the record says: undefined when that is more
    than the record or the packet has. *)
Definition read_next_packet_from_file (r : packet_payload_t) (p : packet_t) : option (Z * packet_t) :=
  if bool_decide (0 <= pl_len r <= Z.of_nat (length (pl_data r)) /\
                  pl_len r <= Z.of_nat (length (pk_payload p)))
  then Some (pl_len r,
             mk_packet (pk_timestamp p) (pk_length p) (pk_priority p)
               (take (Z.to_nat (pl_len r)) (pl_data r) ++ drop (Z.to_nat (pl_len r)) (pk_payload p)))
  else None.

(** The inner loop of [create_packet_file], [for (j = 0; j <= pp[i].len; j++)],
    on one record: a shift by a negative amount is undefined, and so is a write
    past [data]. *)
Fixpoint create_record_loop (n : nat) (j : Z) (data : list Z) : option (list Z) :=
  match n with
  | O => Some data
  | S n =>
      if (5 - j) * 8 <? 0 then None
      else data ← data.[j <- Z.land (Z.shiftr DUMMY_DATA ((5 - j) * 8)) 0xff];
           create_record_loop n (j + 1) data
  end.

Definition create_record (data : list Z) : option packet_payload_t :=
  let len := MAX_PAYLOAD_DATA_SIZE / 8 in
  data ← create_record_loop (Z.to_nat (len + 1)) 0 data;
  Some (mk_payload len data).

(** The write loop of [create_packet_file] for the return values [ws] of
    [write]: [pp + total_written] counts records of [size_rec] bytes, and a
    write reads [buffer_size - total_written] bytes from there, which is
    undefined past the end of the buffer. [wlen] is unsigned, so the test
    [wlen < 0] is never true. *)
Fixpoint write_loop (size_rec buffer_size : Z) (ws : list Z) (total_written : Z) : option Z :=
  match ws with
  | [] => Some total_written
  | w :: ws =>
      if total_written <? buffer_size then
        if bool_decide (size_rec * total_written + (buffer_size - total_written) <= buffer_size)
        then write_loop size_rec buffer_size ws (u64 (total_written + u64 w))
        else None
      else Some total_written
  end.

Record pp_shared := mk_pp_shared {
  packet_buf : list packet_t; ready_ring : ringbuf_t; free_ring : ringbuf_t
}.

(** The statements of the two loops; [i] is [packet_idx]. *)
Inductive pp_pc :=
  | Pk_empty | Pk_full | Pk_read | Pk_tail (i : Z) | Pk_work (i : Z) | Pk_slot (i : Z) | Pk_pub (i : Z).

(** [curr] counts records from the start of the file. *)
Inductive pp_proc :=
  | Producer (pc : pp_pc) (curr : Z)
  | Consumer (pc : pp_pc) (packet_count checksum : Z).

Definition ring_take (rb : ringbuf_t) : option Z := (rb_buffer rb).[Z.land (rb_tail rb) (rb_mask rb)].
Definition ring_advance (rb : ringbuf_t) : ringbuf_t :=
  mk_ringbuf (rb_head rb) (rb_tail rb +u32 1) (rb_mask rb) (rb_buffer rb).
Definition ring_put (rb : ringbuf_t) (i : Z) : option ringbuf_t :=
  b ← (rb_buffer rb).[Z.land (rb_head rb) (rb_mask rb) <- i];
  Some (mk_ringbuf (rb_head rb) (rb_tail rb) (rb_mask rb) b).
Definition ring_publish (rb : ringbuf_t) : ringbuf_t :=
  mk_ringbuf (rb_head rb +u32 1) (rb_tail rb) (rb_mask rb) (rb_buffer rb).

Section processes.
Variable clock : Z -> Z.
Variable file : list packet_payload_t.
Variable expected_count : Z.

Definition producer_step (s : pp_shared) (pc : pp_pc) (curr : Z) : option (pp_shared * pp_proc) :=
  match pc with
  | Pk_empty =>
      if curr <? Z.of_nat (length file) then
        if ring_is_empty (free_ring s) then None else Some (s, Producer Pk_full curr)
      else None
  | Pk_full => Some (s, Producer (if ring_is_full (ready_ring s) then Pk_empty else Pk_read) curr)
  | Pk_read => i ← ring_take (free_ring s); Some (s, Producer (Pk_tail i) curr)
  | Pk_tail i =>
      Some (mk_pp_shared (packet_buf s) (ready_ring s) (ring_advance (free_ring s)),
            Producer (Pk_work i) curr)
  | Pk_work i =>
      new ← (packet_buf s).[i]; r ← file.[curr];
      '(payload_sz, new) ← read_next_packet_from_file r new;
      buf ← (packet_buf s).[i <- mk_packet (clock curr) payload_sz HIGH_PRIORITY (pk_payload new)];
      Some (mk_pp_shared buf (ready_ring s) (free_ring s), Producer (Pk_slot i) (curr + 1))
  | Pk_slot i =>
      rr ← ring_put (ready_ring s) i;
      Some (mk_pp_shared (packet_buf s) rr (free_ring s), Producer (Pk_pub i) curr)
  | Pk_pub _ =>
      Some (mk_pp_shared (packet_buf s) (ring_publish (ready_ring s)) (free_ring s),
            Producer Pk_empty curr)
  end.

Definition consumer_step (s : pp_shared) (pc : pp_pc) (packet_count checksum : Z)
  : option (pp_shared * pp_proc) :=
  match pc with
  | Pk_empty =>
      if packet_count <? expected_count then
        if ring_is_empty (ready_ring s) then None else Some (s, Consumer Pk_full packet_count checksum)
      else None
  | Pk_full =>
      Some (s, Consumer (if ring_is_full (free_ring s) then Pk_empty else Pk_read) packet_count checksum)
  | Pk_read => i ← ring_take (ready_ring s); Some (s, Consumer (Pk_tail i) packet_count checksum)
  | Pk_tail i =>
      Some (mk_pp_shared (packet_buf s) (ring_advance (ready_ring s)) (free_ring s),
            Consumer (Pk_work i) packet_count checksum)
  | Pk_work i =>
      p ← (packet_buf s).[i]; checksum ← process_packet p checksum;
      Some (s, Consumer (Pk_slot i) (packet_count +u32 1) checksum)
  | Pk_slot i =>
      fr ← ring_put (free_ring s) i;
      Some (mk_pp_shared (packet_buf s) (ready_ring s) fr, Consumer (Pk_pub i) packet_count checksum)
  | Pk_pub _ =>
      Some (mk_pp_shared (packet_buf s) (ready_ring s) (ring_publish (free_ring s)),
            Consumer Pk_empty packet_count checksum)
  end.

Definition pp_step (s : pp_shared) (p : pp_proc) : option (pp_shared * pp_proc) :=
  match p with
  | Producer pc curr => producer_step s pc curr
  | Consumer pc packet_count checksum => consumer_step s pc packet_count checksum
  end.

(** [main] up to the fork: the mappings are zero-filled. *)
Definition pp_main : pp_shared * list pp_proc :=
  (mk_pp_shared (replicate 128 (mk_packet 0 0 0 (replicate 6 0)))
     (mk_ringbuf 0 0 (BUFFER_SIZE - 1) (replicate 128 0))
     (mk_ringbuf BUFFER_SIZE 0 (BUFFER_SIZE - 1) (seqZ 0 128)),
   [Producer Pk_empty 0; Consumer Pk_empty 0 0]).

(** ** Invariant *)

(** The index a process owns: it has left a ring and is not yet in the other. *)
Definition held (pc : pp_pc) : list Z :=
  match pc with Pk_work i | Pk_slot i | Pk_pub i => [i] | _ => [] end.
(** Written into the slot of a ring, not yet published. *)
Definition pending (pc : pp_pc) : list Z := match pc with Pk_pub i => [i] | _ => [] end.
(** Past its work on the packet. *)
Definition worked (pc : pp_pc) : list Z := match pc with Pk_slot i | Pk_pub i => [i] | _ => [] end.
Definition working (pc : pp_pc) : list Z := match pc with Pk_work i => [i] | _ => [] end.

Notation len l := (Z.of_nat (length l)).

(** A ring whose contents are [xs], with [pend] written beyond its head. *)
Record ring_holds (rb : ringbuf_t) (xs pend : list Z) : Prop := {
  rh_mask : rb_mask rb = 127;
  rh_slice : cslice 128 (rb_buffer rb) (rb_tail rb) (xs ++ pend);
  rh_range : 0 <= rb_tail rb /\ rb_head rb = rb_tail rb + len xs /\ rb_head rb < 2 ^ 32
}.

(** What the position in the loop says about the ring read from. *)
Definition sees (pc : pp_pc) (xs : list Z) : Prop :=
  match pc with Pk_full | Pk_read => xs <> [] | Pk_tail i => exists ys, xs = i :: ys | _ => True end.

Definition busy (pc : pp_pc) : bool :=
  match pc with Pk_full | Pk_read | Pk_tail _ | Pk_work _ => true | _ => false end.

Definition payload_sum (r : packet_payload_t) : Z := lsum id (pl_data r).

Record pp_inv (s : pp_shared) (pc : pp_pc) (k : Z) (pc' : pp_pc) (m sum : Z) (fl rl : list Z) : Prop := {
  pi_free : ring_holds (free_ring s) fl (pending pc');
  pi_ready : ring_holds (ready_ring s) rl (pending pc);
  pi_perm : fl ++ held pc ++ rl ++ held pc' ≡ₚ seqZ 0 128;
  pi_sees : sees pc fl;
  pi_sees' : sees pc' rl;
  pi_ft : rb_tail (free_ring s) = k + len (working pc);
  pi_rh : rb_head (ready_ring s) = k - len (worked pc);
  pi_rt : rb_tail (ready_ring s) = m + len (working pc');
  pi_fh : rb_head (free_ring s) = 128 + m - len (worked pc');
  pi_k : 0 <= k <= len file /\ (busy pc = true -> k < len file);
  pi_m : 0 <= m <= len file /\ (busy pc' = true -> m < len file);
  pi_buf : length (packet_buf s) = 128%nat;
  pi_len : forall i p, (packet_buf s).[i] = Some p -> length (pk_payload p) = 6%nat;
  pi_data : forall j i, (working pc' ++ rl ++ worked pc) !! j = Some i ->
    exists p r, (packet_buf s).[i] = Some p /\ file.[m + Z.of_nat j] = Some r /\
      pk_payload p = pl_data r;
  pi_sum : sum = u64 (lsum payload_sum (take (Z.to_nat m) file))
}.

Definition pp_I (s : pp_shared) (ls : list pp_proc) : Prop :=
  exists pc k pc' m sum fl rl,
    ls = [Producer pc k; Consumer pc' m sum] /\ pp_inv s pc k pc' m sum fl rl.

(** The records that [create_packet_file] means to write: 6 bytes each. *)
Definition file_ok : Prop :=
  Forall (fun r => pl_len r = 6 /\ length (pl_data r) = 6%nat /\ Forall (in_u 8) (pl_data r)) file.

(** *** Rings *)

(** [x ^ 128] adds or subtracts 128: it adds only when bit 7 is clear. *)
Lemma lxor_128 x : Z.lxor x 128 = x + 128 \/ Z.lxor x 128 = x - 128.
Proof.
  assert (Hb : forall y n, Z.testbit (Z.land y 128) n = (n =? 7) && Z.testbit y n).
  { intros y n. rewrite Z.land_spec. change 128 with (2 ^ 7). rewrite (Z.pow2_bits_eqb 7) by lia.
    rewrite (Z.eqb_sym 7). apply Bool.andb_comm. }
  destruct (Z.testbit x 7) eqn:E; [right|left].
  - assert (Z.land (Z.lxor x 128) 128 = 0).
    { apply Z.bits_inj'. intros n Hn. rewrite Hb, Z.lxor_spec, Z.testbit_0_l.
      destruct (Z.eqb_spec n 7) as [->|]; [|done]. by rewrite E. }
    pose proof (Z.add_nocarry_lxor _ _ H) as Hadd.
    rewrite Z.lxor_assoc, Z.lxor_nilpotent, Z.lxor_0_r in Hadd. lia.
  - assert (Z.land x 128 = 0).
    { apply Z.bits_inj'. intros n Hn. rewrite Hb, Z.testbit_0_l.
      destruct (Z.eqb_spec n 7) as [->|]; [|done]. by rewrite E. }
    by rewrite <- (Z.add_nocarry_lxor _ _ H).
Qed.

(** The mirror-bit test is never true of a ring that is not full. *)
Lemma ring_not_full rb xs pend :
  ring_holds rb xs pend -> len xs < 128 -> ring_is_full rb = false.
Proof.
  intros [_ _ (? & Hh & ?)] Hlt. unfold ring_is_full, BUFFER_SIZE. apply Z.eqb_neq.
  destruct (lxor_128 (rb_tail rb)); lia.
Qed.

Lemma ring_empty_iff rb xs pend : ring_holds rb xs pend -> ring_is_empty rb = true <-> xs = [].
Proof.
  intros [_ _ (? & Hh & ?)]. unfold ring_is_empty. rewrite Z.eqb_eq. split.
  - intros E. apply length_zero_iff_nil. lia.
  - intros ->. simpl in *. lia.
Qed.

Lemma land_127 x : Z.land x 127 = x mod 128.
Proof. apply (land_mask 7). lia. Qed.

Lemma ring_take_holds rb x xs pend : ring_holds rb (x :: xs) pend -> ring_take rb = Some x.
Proof.
  intros [Hm Hs _]. unfold ring_take. rewrite Hm, land_127. by eapply cslice_head.
Qed.

Lemma ring_advance_holds rb x xs pend : ring_holds rb (x :: xs) pend -> ring_holds (ring_advance rb) xs pend.
Proof.
  intros [Hm Hs (? & Hh & ?)]. simpl in Hh.
  assert (E : rb_tail rb +u32 1 = rb_tail rb + 1) by (apply wrap_small; unfold in_u; lia).
  split; simpl; [done| |lia]. rewrite E. by eapply cslice_tail.
Qed.

Lemma ring_put_holds rb xs i :
  ring_holds rb xs [] -> len xs < 128 ->
  exists rb', ring_put rb i = Some rb' /\ ring_holds rb' xs [i] /\
    rb_head rb' = rb_head rb /\ rb_tail rb' = rb_tail rb.
Proof.
  intros [Hm Hs (Ht & Hh & Hr)] Hlt. unfold ring_put. rewrite Hm, land_127. rewrite app_nil_r in Hs.
  destruct (cslice_push 128 (rb_buffer rb) (rb_tail rb) xs i (rb_head rb mod 128) Hs Hlt
    ltac:(by rewrite Hh)) as [-> Hs']. simpl.
  eexists. split; [done|]. split; [|done]. by split.
Qed.

Lemma ring_publish_holds rb xs i :
  ring_holds rb xs [i] -> rb_head rb + 1 < 2 ^ 32 -> ring_holds (ring_publish rb) (xs ++ [i]) [].
Proof.
  intros [Hm Hs (Ht & Hh & Hr)] Hlt.
  assert (E : rb_head rb +u32 1 = rb_head rb + 1) by (apply wrap_small; unfold in_u; lia).
  split; simpl; [done|by rewrite app_nil_r|]. rewrite length_app. simpl. lia.
Qed.

(** *** Payloads *)

Lemma process_loop_spec n : forall i payload c,
  0 <= i -> i + Z.of_nat n = len payload -> in_u 64 c ->
  process_loop n i payload c = Some (u64 (c + lsum id (drop (Z.to_nat i) payload))).
Proof.
  induction n as [|n IH]; intros i payload c Hi Hn Hc; simpl.
  - rewrite drop_ge by lia. simpl. by rewrite Z.add_0_r, wrap_small.
  - destruct (arr_get_is_Some payload i) as [b Hb]; [lia|]. rewrite Hb. simpl.
    rewrite IH; [|lia|lia|apply wrap_range; lia].
    rewrite arr_get_nat in Hb by lia. rewrite (drop_S payload b (Z.to_nat i)) by done. simpl.
    replace (Z.to_nat (i + 1)) with (S (Z.to_nat i)) by lia.
    autorewrite with cword. do 2 f_equal. unfold id. lia.
Qed.

Lemma process_packet_spec p c :
  length (pk_payload p) = 6%nat -> in_u 64 c ->
  process_packet p c = Some (u64 (c + lsum id (pk_payload p))).
Proof.
  intros Hl Hc. unfold process_packet.
  change (Z.to_nat (MAX_PAYLOAD_DATA_SIZE / 8)) with 6%nat.
  rewrite process_loop_spec; [done|lia|lia|done].
Qed.

Lemma file_get k r : file_ok -> file.[k] = Some r ->
  pl_len r = 6 /\ length (pl_data r) = 6%nat.
Proof.
  intros Hok Hk. pose proof (arr_get_Some _ _ _ Hk). rewrite arr_get_nat in Hk by lia.
  destruct (Forall_lookup_1 _ _ _ _ Hok Hk) as (? & ? & _). done.
Qed.

Lemma read_next_packet_ok r p :
  pl_len r = 6 -> length (pl_data r) = 6%nat -> length (pk_payload p) = 6%nat ->
  read_next_packet_from_file r p =
  Some (6, mk_packet (pk_timestamp p) (pk_length p) (pk_priority p) (pl_data r)).
Proof.
  intros Hr Hd Hp. unfold read_next_packet_from_file. rewrite Hr.
  rewrite bool_decide_eq_true_2 by lia.
  rewrite (drop_ge (pk_payload p)), app_nil_r, take_ge by (simpl; lia). done.
Qed.

(** *** Ownership *)

Lemma own_facts {fl hp rl hc : list Z} :
  fl ++ hp ++ rl ++ hc ≡ₚ seqZ 0 128 ->
  NoDup (fl ++ hp ++ rl ++ hc) /\ (forall i, i ∈ fl ++ hp ++ rl ++ hc -> 0 <= i < 128) /\
  len fl + len hp + len rl + len hc = 128.
Proof.
  intros Hp. split; [|split].
  - rewrite Hp. apply NoDup_seqZ.
  - intros i Hi. rewrite Hp in Hi. apply elem_of_seqZ in Hi. lia.
  - apply Permutation_length in Hp. rewrite !length_app, length_seqZ in Hp. lia.
Qed.

Context (Hfile : file_ok) (Hsize : len file + 128 < 2 ^ 32) (Hcount : expected_count = len file).

Ltac pp_split := split; simpl; rewrite ?app_nil_r in *; try (done || lia).

Lemma producer_work s i k pc' m sum fl rl :
  pp_inv s (Pk_work i) k pc' m sum fl rl ->
  exists s', producer_step s (Pk_work i) k = Some (s', Producer (Pk_slot i) (k + 1)) /\
    pp_inv s' (Pk_slot i) (k + 1) pc' m sum fl rl.
Proof.
  intros [Hf Hr Hp Hsp Hsc Hft Hrh Hrt Hfh Hk Hm Hbl Hpl Hd Hs].
  destruct (own_facts Hp) as (Hnd & Hin & Hlen). simpl in *.
  assert (Hi : 0 <= i < 128) by (apply Hin; set_solver).
  destruct (arr_get_is_Some (packet_buf s) i) as [p Hpi]; [lia|].
  destruct (arr_get_is_Some file k) as [r Hr']; [lia|].
  destruct (file_get k r Hfile Hr') as [Hl6 Hd6].
  rewrite Hpi, Hr'. simpl. rewrite read_next_packet_ok by eauto. simpl.
  rewrite arr_set_in by lia. simpl. eexists. split; [done|].
  assert (Hother : forall j i', (working pc' ++ rl ++ []) !! j = Some i' -> i' <> i).
  { intros j i' Hj ->. rewrite app_nil_r in Hj. apply list_elem_of_lookup_2 in Hj.
    apply NoDup_app in Hnd as (_ & _ & Hnd). apply NoDup_cons in Hnd as [Hnd _]. apply Hnd.
    destruct pc'; simpl in *; set_solver. }
  pose proof (rh_range _ _ _ Hr) as (_ & Hrr & _).
  pp_split.
  - by rewrite length_insert.
  - intros j q. destruct (decide (j = i)) as [->|Hne].
    + rewrite arr_get_insert_eq by lia. intros [= <-]. done.
    + rewrite arr_get_insert_ne by lia. apply Hpl.
  - intros j i' Hj. rewrite app_assoc in Hj. apply lookup_app_Some in Hj as [Hj|[Hge Hj]].
    + assert (i' <> i) by (by apply (Hother j)). destruct (Hd j i') as (q & r' & Hq & ? & ?); [done|].
      exists q, r'. rewrite arr_get_insert_ne by lia. done.
    + pose proof (lookup_lt_Some _ _ _ Hj) as Hj0. simpl in Hj0. destruct (j - _)%nat eqn:Ej; [|lia].
      simplify_eq/=. eexists _, r. rewrite arr_get_insert_eq by lia. split; [done|]. split; [|done].
      rewrite <- Hr'. f_equal. rewrite length_app in *. lia.
Qed.

Lemma producer_step_inv s pc k pc' m sum fl rl s' t :
  pp_inv s pc k pc' m sum fl rl -> producer_step s pc k = Some (s', t) ->
  exists pc2 k2 fl2 rl2, t = Producer pc2 k2 /\ pp_inv s' pc2 k2 pc' m sum fl2 rl2.
Proof.
  intros HI E. destruct pc as [| | |i|i|i|i].
  5:{ destruct (producer_work _ _ _ _ _ _ _ _ HI) as (s1 & E1 & HI1). rewrite E1 in E. simplify_eq.
      by eexists _, _, _, _. }
  all: destruct HI as [Hf Hr Hp Hsp Hsc Hft Hrh Hrt Hfh Hk Hm Hbl Hpl Hd Hs];
    destruct (own_facts Hp) as (Hnd & Hin & Hlen); simpl in *.
  - destruct (Z.ltb_spec k (len file)); [|done].
    destruct (ring_is_empty (free_ring s)) eqn:Ee; simplify_eq.
    eexists Pk_full, k, fl, rl. split; [done|]. pp_split.
    intros ->. by rewrite (proj2 (ring_empty_iff _ _ _ Hf)) in Ee.
  - rewrite (ring_not_full _ _ _ Hr) in E by (destruct fl; [by destruct Hsp|simpl in *; lia]). simplify_eq.
    eexists Pk_read, k, fl, rl. split; [done|]. by pp_split.
  - destruct fl as [|x fl]; [done|]. rewrite (ring_take_holds _ _ _ _ Hf) in E. simplify_eq/=.
    eexists (Pk_tail x), k, (x :: fl), rl. split; [done|]. pp_split. by eexists.
  - destruct Hsp as [ys ->]. simplify_eq. pose proof (ring_advance_holds _ _ _ _ Hf) as Hf'.
    pose proof (rh_range _ _ _ Hf). pose proof (rh_range _ _ _ Hf') as (_ & Hh' & _).
    eexists (Pk_work i), k, ys, rl. split; [done|]. simpl in Hh'. pp_split.
    + rewrite <- Hp. symmetry. apply Permutation_middle.
    + rewrite wrap_small; [lia|]. unfold in_u. simpl in *. lia.
  - destruct (ring_put_holds _ rl i Hr) as (rr & Err & Hr' & Hh' & Ht'); [simpl in Hlen; lia|].
    rewrite Err in E. simplify_eq/=. eexists (Pk_pub i), k, fl, rl. split; [done|]. pp_split.
  - simplify_eq. pose proof (ring_publish_holds _ _ _ Hr ltac:(lia)) as Hr'.
    pose proof (rh_range _ _ _ Hr') as (_ & Hh' & _). pose proof (rh_range _ _ _ Hr) as (_ & Hh & _).
    rewrite length_app in Hh'. simpl in Hh'.
    eexists Pk_empty, k, fl, (rl ++ [i]). split; [done|]. pp_split.
    + rewrite <- Hp, <- (app_assoc rl). apply Permutation_app_head. symmetry.
      apply Permutation_middle.
    + destruct pc'; simpl in *; try done; try (by destruct rl). by destruct Hsc as [ys ->]; eexists.
Qed.

Lemma consumer_work s pc k i m sum fl rl :
  pp_inv s pc k (Pk_work i) m sum fl rl ->
  exists sum', consumer_step s (Pk_work i) m sum = Some (s, Consumer (Pk_slot i) (m + 1) sum') /\
    pp_inv s pc k (Pk_slot i) (m + 1) sum' fl rl.
Proof.
  intros [Hf Hr Hp Hsp Hsc Hft Hrh Hrt Hfh Hk Hm Hbl Hpl Hd Hs]. simpl in *.
  destruct (Hd 0%nat i eq_refl) as (p & r & Hpi & Hr' & Hpay).
  rewrite Z.add_0_r in Hr'. destruct (file_get m r Hfile Hr') as [Hl6 Hd6].
  rewrite Hpi. simpl. rewrite process_packet_spec by (eauto || (subst sum; apply wrap_range; lia)).
  simpl. rewrite (wrap_small 32) by (unfold in_u; lia). eexists. split; [done|]. pp_split.
  - intros j i' Hj. destruct (Hd (S j) i' Hj) as (q & r' & ? & Hq & ?). exists q, r'.
    split; [done|]. split; [|done]. rewrite <- Hq. f_equal. lia.
  - subst sum. replace (Z.to_nat (m + 1)) with (S (Z.to_nat m)) by lia.
    rewrite arr_get_nat in Hr' by lia. rewrite (take_S_r _ _ r) by done.
    rewrite lsum_app. simpl. unfold payload_sum at 3. rewrite Hpay. autorewrite with cword.
    f_equal. lia.
Qed.

Lemma consumer_step_inv s pc k pc' m sum fl rl s' t :
  pp_inv s pc k pc' m sum fl rl -> consumer_step s pc' m sum = Some (s', t) ->
  exists pc2 m2 sum2 fl2 rl2, t = Consumer pc2 m2 sum2 /\ pp_inv s' pc k pc2 m2 sum2 fl2 rl2.
Proof.
  intros HI E. destruct pc' as [| | |i|i|i|i].
  5:{ destruct (consumer_work _ _ _ _ _ _ _ _ HI) as (s1 & E1 & HI1). rewrite E1 in E. simplify_eq.
      by eexists _, _, _, _, _. }
  all: destruct HI as [Hf Hr Hp Hsp Hsc Hft Hrh Hrt Hfh Hk Hm Hbl Hpl Hd Hs];
    destruct (own_facts Hp) as (Hnd & Hin & Hlen); simpl in *.
  - destruct (Z.ltb_spec m expected_count); [|done].
    destruct (ring_is_empty (ready_ring s)) eqn:Ee; simplify_eq.
    eexists Pk_full, m, _, fl, rl. split; [done|]. pp_split.
    intros ->. by rewrite (proj2 (ring_empty_iff _ _ _ Hr)) in Ee.
  - rewrite (ring_not_full _ _ _ Hf) in E by (destruct rl; [by destruct Hsc|simpl in *; lia]).
    simplify_eq. eexists Pk_read, m, _, fl, rl. split; [done|]. by pp_split.
  - destruct rl as [|x rl]; [done|]. rewrite (ring_take_holds _ _ _ _ Hr) in E. simplify_eq/=.
    eexists (Pk_tail x), m, _, fl, (x :: rl). split; [done|]. pp_split. by eexists.
  - destruct Hsc as [ys ->]. simplify_eq. pose proof (ring_advance_holds _ _ _ _ Hr) as Hr'.
    pose proof (rh_range _ _ _ Hr). pose proof (rh_range _ _ _ Hr') as (_ & Hh' & _).
    eexists (Pk_work i), m, _, fl, ys. split; [done|]. simpl in Hh'. pp_split.
    + rewrite <- Hp. do 2 apply Permutation_app_head. simpl. symmetry. apply Permutation_cons_append.
    + rewrite wrap_small; [lia|]. unfold in_u. simpl in *. lia.
  - destruct (ring_put_holds _ fl i Hf) as (fr & Efr & Hf' & Hh' & Ht'); [simpl in Hlen; lia|].
    rewrite Efr in E. simplify_eq/=. eexists (Pk_pub i), m, _, fl, rl. split; [done|]. pp_split.
  - simplify_eq. pose proof (ring_publish_holds _ _ _ Hf ltac:(lia)) as Hf'.
    pose proof (rh_range _ _ _ Hf') as (_ & Hh' & _). pose proof (rh_range _ _ _ Hf) as (_ & Hh & _).
    rewrite length_app in Hh'. simpl in Hh'.
    eexists Pk_empty, m, _, (fl ++ [i]), rl. split; [done|]. pp_split.
    + rewrite <- Hp, <- (app_assoc fl). apply Permutation_app_head. simpl.
      rewrite (app_assoc (held pc)). apply Permutation_cons_append.
    + destruct pc; simpl in *; try done; try (by destruct fl). by destruct Hsp as [ys ->]; eexists.
Qed.

Lemma pp_I_step i s ls l s' l' :
  pp_I s ls -> ls !! i = Some l -> pp_step s l = Some (s', l') -> pp_I s' (<[i := l']> ls).
Proof.
  intros (pc & k & pc' & m & sum & fl & rl & -> & HI) Hi E.
  destruct i as [|[|i]]; simplify_eq/=.
  - destruct (producer_step_inv _ _ _ _ _ _ _ _ _ _ HI E) as (pc2 & k2 & fl2 & rl2 & -> & HI').
    by exists pc2, k2, pc', m, sum, fl2, rl2.
  - destruct (consumer_step_inv _ _ _ _ _ _ _ _ _ _ HI E) as (pc2 & m2 & s2 & fl2 & rl2 & -> & HI').
    by exists pc, k, pc2, m2, s2, fl2, rl2.
Qed.

Lemma pp_I_init : pp_I pp_main.1 pp_main.2.
Proof.
  exists Pk_empty, 0, Pk_empty, 0, 0, (seqZ 0 128), []. split; [done|].
  split; try (done || (simpl; lia)).
  - split; [done| |].
    + cbn [pending]. rewrite app_nil_r. split_and!; [lia|done|done|].
      intros j x Hj. apply lookup_seqZ in Hj as [-> Hj].
      change (rb_tail _) with 0. rewrite Z.mod_small by lia.
      rewrite arr_get_nat by lia. apply lookup_seqZ. lia.
    + rewrite length_seqZ. change (rb_tail _) with 0. change (rb_head _) with 128. lia.
  - intros i p Hp. pose proof (arr_get_Some _ _ _ Hp). rewrite arr_get_nat in Hp by lia.
    apply (lookup_replicate 128) in Hp as [-> _]. done.
Qed.

Lemma pp_reach s ls : rtc (sys_step pp_step) pp_main (s, ls) -> pp_I s ls.
Proof.
  apply thread_invariant; [apply pp_I_init|]. intros. by eapply pp_I_step.
Qed.

(** *** Progress *)

Definition pp_done (c : pp_shared * list pp_proc) : Prop :=
  exists sum, c.2 = [Producer Pk_empty (len file); Consumer Pk_empty (len file) sum].

Lemma pp_progress s ls : pp_I s ls -> pp_done (s, ls) \/ exists c', sys_step pp_step (s, ls) c'.
Proof.
  intros (pc & k & pc' & m & sum & fl & rl & -> & HI).
  assert (HP : is_Some (producer_step s pc k) \/ pc = Pk_empty /\ (k = len file \/ fl = [])).
  { destruct pc as [| | |i|i|i|i]; simpl; eauto.
    - destruct HI as [Hf _ _ _ _ _ _ _ _ Hk _ _ _ _ _].
      destruct (Z.ltb_spec k (len file)); [|right; split; [done|left; lia]].
      destruct (ring_is_empty (free_ring s)) eqn:Ee; [|eauto].
      right. split; [done|right]. by apply (ring_empty_iff _ _ _ Hf).
    - left. destruct HI as [Hf _ _ Hs _ _ _ _ _ _ _ _ _ _ _]. destruct fl as [|x fl]; [done|].
      rewrite (ring_take_holds _ _ _ _ Hf). simpl. eauto.
    - left. destruct (producer_work _ _ _ _ _ _ _ _ HI) as (s1 & E1 & _). simpl in E1. rewrite E1. eauto.
    - left. destruct HI as [_ Hr Hp _ _ _ _ _ _ _ _ _ _ _ _]. destruct (own_facts Hp) as (_ & _ & Hl).
      destruct (ring_put_holds _ rl i Hr) as (rr & -> & _); [simpl in Hl; lia|]. simpl. eauto. }
  destruct HP as [HP|[-> Hkfl]];
    [right; by apply (thread_can_step _ _ _ 0 (Producer pc k))|].
  assert (HC : is_Some (consumer_step s pc' m sum) \/ pc' = Pk_empty /\ (m = len file \/ rl = [])).
  { destruct pc' as [| | |i|i|i|i]; simpl; eauto.
    - destruct HI as [_ Hr _ _ _ _ _ _ _ _ Hm _ _ _ _].
      destruct (Z.ltb_spec m expected_count); [|right; split; [done|left; lia]].
      destruct (ring_is_empty (ready_ring s)) eqn:Ee; [|eauto].
      right. split; [done|right]. by apply (ring_empty_iff _ _ _ Hr).
    - left. destruct HI as [_ Hr _ _ Hs _ _ _ _ _ _ _ _ _ _]. destruct rl as [|x rl]; [done|].
      rewrite (ring_take_holds _ _ _ _ Hr). simpl. eauto.
    - left. destruct (consumer_work _ _ _ _ _ _ _ _ HI) as (s1 & E1 & _). simpl in E1. rewrite E1. eauto.
    - left. destruct HI as [Hf _ Hp _ _ _ _ _ _ _ _ _ _ _ _]. destruct (own_facts Hp) as (_ & _ & Hl).
      destruct (ring_put_holds _ fl i Hf) as (fr & -> & _); [simpl in Hl; lia|]. simpl. eauto. }
  destruct HC as [HC|[-> Hmrl]];
    [right; by apply (thread_can_step _ _ _ 1 (Consumer pc' m sum))|].
  destruct HI as [Hf Hr Hp _ _ Hft Hrh Hrt Hfh Hk Hm _ _ _ _]. simpl in *.
  destruct (own_facts (hp := []) (hc := []) Hp) as (_ & _ & Hl). simpl in Hl.
  pose proof (rh_range _ _ _ Hr) as (_ & Hrr & _).
  assert (k = len file /\ m = len file) as [-> ->].
  { destruct Hkfl as [-> | ->], Hmrl as [-> | ->]; simpl in *; lia. }
  left. by exists sum.
Qed.

(** Steps a process still has to make. *)
Definition pp_todo (p : pp_proc) : nat :=
  let left pc n := match pc with
    | Pk_empty => 7 * n | Pk_full => 7 * n - 1 | Pk_read => 7 * n - 2 | Pk_tail _ => 7 * n - 3
    | Pk_work _ => 7 * n - 4 | Pk_slot _ => 7 * n + 2 | Pk_pub _ => 7 * n + 1
    end%nat in
  match p with
  | Producer pc k => left pc (Z.to_nat (len file - k))
  | Consumer pc m _ => left pc (Z.to_nat (len file - m))
  end.

Lemma pp_step_todo s ls i l s' l' :
  pp_I s ls -> ls !! i = Some l -> pp_step s l = Some (s', l') -> (pp_todo l' < pp_todo l)%nat.
Proof.
  intros (pc & k & pc' & m & sum & fl & rl & -> & HI) Hi E.
  pose proof (pi_k _ _ _ _ _ _ _ _ HI) as [Hk Hkb]. pose proof (pi_m _ _ _ _ _ _ _ _ HI) as [Hm Hmb].
  destruct (own_facts (pi_perm _ _ _ _ _ _ _ _ HI)) as (_ & _ & Hl).
  destruct i as [|[|i]]; simplify_eq/=.
  - destruct pc as [| | |j|j|j|j]; simpl in *.
    + destruct (Z.ltb_spec k (len file)); [|done]. destruct (ring_is_empty _); simplify_eq/=. lia.
    + rewrite (ring_not_full _ rl []) in E;
        [simplify_eq/=; specialize (Hkb eq_refl); lia|apply (pi_ready _ _ _ _ _ _ _ _ HI)|].
      pose proof (pi_sees _ _ _ _ _ _ _ _ HI) as Hs. simpl in Hs. destruct fl; [done|simpl in *; lia].
    + specialize (Hkb eq_refl). destruct (ring_take _); simplify_eq/=. lia.
    + specialize (Hkb eq_refl). simplify_eq/=. lia.
    + specialize (Hkb eq_refl).
      destruct (producer_work _ _ _ _ _ _ _ _ HI) as (s1 & E1 & _). simpl in E1.
      rewrite E1 in E. simplify_eq/=. lia.
    + destruct (ring_put _ _); simplify_eq/=. lia.
    + simplify_eq/=. lia.
  - destruct pc' as [| | |j|j|j|j]; simpl in *.
    + destruct (Z.ltb_spec m expected_count); [|done]. destruct (ring_is_empty _); simplify_eq/=. lia.
    + rewrite (ring_not_full _ fl []) in E;
        [simplify_eq/=; specialize (Hmb eq_refl); lia|apply (pi_free _ _ _ _ _ _ _ _ HI)|].
      pose proof (pi_sees' _ _ _ _ _ _ _ _ HI) as Hs. simpl in Hs. destruct rl; [done|simpl in *; lia].
    + specialize (Hmb eq_refl). destruct (ring_take _); simplify_eq/=. lia.
    + specialize (Hmb eq_refl). simplify_eq/=. lia.
    + specialize (Hmb eq_refl).
      destruct (consumer_work _ _ _ _ _ _ _ _ HI) as (s1 & E1 & _). simpl in E1.
      rewrite E1 in E. simplify_eq/=. lia.
    + destruct (ring_put _ _); simplify_eq/=. lia.
    + simplify_eq/=. lia.
Qed.

(** ** Properties *)

(** C3. Every packet is delivered, intact and once: for a file of well-formed
    records, in every reachable state of every schedule the consumer's checksum
    is the sum of the payload bytes of the first [packet_count] records of the
    file (modulo [2^64]), so after its loop it is that of the whole file. *)
Theorem packet_checksum_exact (s : pp_shared) (ls : list pp_proc) (pc : pp_pc) (m sum : Z)
    (Hr : rtc (sys_step pp_step) pp_main (s, ls))
    (Hc : ls !! 1%nat = Some (Consumer pc m sum)) :
  sum = u64 (lsum payload_sum (take (Z.to_nat m) file)) /\
  (m = expected_count -> sum = u64 (lsum payload_sum file)).
Proof.
  destruct (pp_reach s ls Hr) as (pc0 & k & pc' & m' & sum' & fl & rl & -> & HI).
  simpl in Hc. simplify_eq. pose proof (pi_sum _ _ _ _ _ _ _ _ HI) as Hs.
  split; [done|]. intros ->. rewrite Hs, take_ge by lia. done.
Qed.

(** C25. Buffers are never shared: in every reachable state each of the 128
    buffer indices is in exactly one place, the free ring, the producer's hands,
    the ready ring or the consumer's hands; so the producer never writes a
    packet that the consumer reads, the rings never overflow, and the mirror-bit
    test [head == (tail ^ 128)], which misses a full ring when bit 7 of [tail] is
    set, is never relied on. *)
Theorem packet_ownership (s : pp_shared) (pc pc' : pp_pc) (k m sum : Z)
    (Hr : rtc (sys_step pp_step) pp_main (s, [Producer pc k; Consumer pc' m sum])) :
  exists fl rl,
    ring_holds (free_ring s) fl (pending pc') /\ ring_holds (ready_ring s) rl (pending pc) /\
    fl ++ held pc ++ rl ++ held pc' ≡ₚ seqZ 0 128 /\
    forall i j, pc = Pk_work i -> pc' = Pk_work j -> 0 <= i < 128 /\ 0 <= j < 128 /\ i <> j.
Proof.
  destruct (pp_reach _ _ Hr) as (pc0 & k0 & pc1 & m' & sum' & fl & rl & Heq & HI). simplify_eq.
  pose proof (pi_perm _ _ _ _ _ _ _ _ HI) as Hp. exists fl, rl.
  split; [by apply (pi_free _ _ _ _ _ _ _ _ HI)|]. split; [by apply (pi_ready _ _ _ _ _ _ _ _ HI)|].
  split; [done|]. destruct (own_facts Hp) as (Hnd & Hin & _). intros i j -> ->. simpl in *.
  split; [apply Hin; set_solver|]. split; [apply Hin; set_solver|]. intros ->.
  apply NoDup_app in Hnd as (_ & _ & Hnd). apply NoDup_cons in Hnd as [Hnd _]. apply Hnd. set_solver.
Qed.

(** C26. The two processes cannot deadlock: from every reachable state of every
    schedule both loops can run to their end, with all the records sent and
    processed, and a process makes at most 7 steps per packet that change
    something. *)
Theorem packet_terminates (s : pp_shared) (ls : list pp_proc) (n : nat)
    (Hr : nsteps (sys_step pp_step) n pp_main (s, ls)) :
  Z.of_nat n <= 14 * len file /\ exists c', rtc (sys_step pp_step) (s, ls) c' /\ pp_done c'.
Proof.
  set (P := fun c : pp_shared * list pp_proc => pp_I c.1 c.2).
  assert (HP : forall c c', P c -> sys_step pp_step c c' -> P c').
  { intros c c' Hc Hs. destruct Hs as [i s1 ts l s' l' Hi Ht]. by eapply pp_I_step. }
  assert (Hd : forall s ts i t s' t', P (s, ts) -> ts !! i = Some t ->
    pp_step s t = Some (s', t') -> (pp_todo t' < pp_todo t)%nat).
  { intros s1 ts i t s' t' Hc. by apply pp_step_todo. }
  split.
  - pose proof (measure_bounds_runs _ P pp_todo n _ _ HP Hd pp_I_init Hr) as Hb.
    pose proof (lsum_nonneg (fun t => Z.of_nat (pp_todo t)) ls ltac:(intros; simpl; lia)).
    unfold pp_main in Hb. cbn [snd] in Hb. unfold lsum in Hb at 2. simpl in Hb. lia.
  - apply (progress_reaches _ P pp_todo _ _ HP Hd).
    + intros [s1 ts] Hc. by apply pp_progress.
    + apply pp_reach. by eapply rtc_nsteps_2.
Qed.
End processes.

(** The record [create_packet_file] means to write. *)
Definition dummy_record : packet_payload_t := mk_payload 6 [0xde; 0xad; 0xbe; 0xef; 0xba; 0xba].

Example dummy_record_bytes :
  pl_data dummy_record = (fun j => Z.land (Z.shiftr DUMMY_DATA ((5 - j) * 8)) 0xff) <$> seqZ 0 6.
Proof. reflexivity. Qed.

(** The checksum of the intended file is the announced one. *)
Lemma expected_checksum_matches :
  u64 (lsum payload_sum (replicate (Z.to_nat EXPECTED_PACKET_COUNT) dummy_record))
  = calc_expected_checksum.
Proof. rewrite lsum_replicate, Z2Nat.id by (unfold EXPECTED_PACKET_COUNT; lia). reflexivity. Qed.

(** The loop bound [j <= pp[i].len] makes a seventh round, whose shift is by -8
    and whose write is past [data]. *)
Lemma create_record_undefined data : length data = 6%nat -> create_record data = None.
Proof. intros H. do 7 (destruct data as [|? data]; try discriminate H). reflexivity. Qed.

(** After a partial write the next one starts [size_rec] times too far. *)
Lemma write_loop_partial size_rec buffer_size w w' ws :
  1 < size_rec -> 0 < w < buffer_size -> buffer_size < 2 ^ 63 ->
  write_loop size_rec buffer_size (w :: w' :: ws) 0 = None.
Proof.
  intros Hs Hw Hb. cbn [write_loop]. rewrite (proj2 (Z.ltb_lt 0 buffer_size)) by lia.
  rewrite bool_decide_eq_true_2 by lia.
  rewrite Z.add_0_l, !(wrap_small 64) by (rewrite ?wrap_small; unfold in_u; lia).
  rewrite (proj2 (Z.ltb_lt w buffer_size)) by lia. rewrite bool_decide_eq_false_2; [done|nia].
Qed.

(** The full test misses a full ring when bit 7 of [tail] is set. *)
Example ring_is_full_misses : ring_is_full (mk_ringbuf 256 128 127 (replicate 128 0)) = false.
Proof. reflexivity. Qed.

Definition pp_sched : list nat := [0; 0; 0; 0; 0; 0; 0; 1; 1; 1; 0; 1; 1; 0; 0; 0; 0; 0; 0; 1; 1; 1; 1; 1; 1; 1; 1; 1]%nat.

Lemma file_ok_dummy n : file_ok (replicate n dummy_record).
Proof. apply Forall_replicate. split_and!; [done|done|]. repeat (constructor; [unfold in_u; lia|]). constructor. Qed.

Lemma packet_checksum_exact_witness :
  exists s ls pc sum,
    run_sched (pp_step (fun k => k) (replicate 2 dummy_record) 2) pp_sched pp_main = Some (s, ls) /\
    ls !! 1%nat = Some (Consumer pc 2 sum) /\
    sum = u64 (lsum payload_sum (take (Z.to_nat 2) (replicate 2 dummy_record))) /\
    (2 = 2 -> sum = u64 (lsum payload_sum (replicate 2 dummy_record))).
Proof.
  destruct (run_sched (pp_step (fun k => k) (replicate 2 dummy_record) 2) pp_sched pp_main)
    as [[s ls]|] eqn:E; [|vm_compute in E; discriminate].
  assert (Hl : ls !! 1%nat = Some (Consumer Pk_empty 2 2392))
    by (vm_compute in E; injection E as <- <-; reflexivity).
  exists s, ls, Pk_empty, 2392. split; [reflexivity|]. split; [exact Hl|].
  apply (packet_checksum_exact (fun k => k) (replicate 2 dummy_record) 2
           (file_ok_dummy 2) ltac:(simpl; lia) eq_refl s ls Pk_empty 2 2392); [|exact Hl].
  by apply (run_sched_rtc _ pp_sched).
Defined.

Lemma packet_ownership_witness :
  exists fl rl,
    ring_holds (free_ring (pp_main).1) fl (pending Pk_empty) /\
    ring_holds (ready_ring (pp_main).1) rl (pending Pk_empty) /\
    fl ++ held Pk_empty ++ rl ++ held Pk_empty ≡ₚ seqZ 0 128 /\
    forall i j, Pk_empty = Pk_work i -> Pk_empty = Pk_work j -> 0 <= i < 128 /\ 0 <= j < 128 /\ i <> j.
Proof.
  apply (packet_ownership (fun k => k) (replicate 2 dummy_record) 2
           (file_ok_dummy 2) ltac:(simpl; lia) eq_refl _ Pk_empty Pk_empty 0 0 0).
  apply rtc_refl.
Defined.

Lemma packet_terminates_witness :
  Z.of_nat 0 <= 14 * Z.of_nat (length (replicate 5 dummy_record)) /\
  exists c', rtc (sys_step (pp_step (fun k => k) (replicate 5 dummy_record) 5)) pp_main c' /\
    pp_done (replicate 5 dummy_record) c'.
Proof.
  apply (packet_terminates (fun k => k) (replicate 5 dummy_record) 5
           (file_ok_dummy 5) ltac:(simpl; lia) eq_refl pp_main.1 pp_main.2 0).
  apply nsteps_O.
Defined.
