(* ===== verification/SparseSet.v ===== *)
(** * sparse_set_for_huge_domain_ids.c: a set of 32-bit identifiers

    Active values are packed in [dense]; a two-level table [sparse] maps a value
    to its position there, [UINT32_MAX] for "absent"; a second level is allocated
    on the first use of its 2^16 values and freed with the last. The abstract
    specification is a finite set of integers with a capacity. Pages are lists of
    their entries, [None] the null pointer; memory that [malloc] returns and that
    the code does not initialise is an argument. *)

From S2P Require Import Prelude.

Definition LEVEL_SIZE : Z := Z.shiftl 1 16.
Definition UINT32_MAX : Z := 2 ^ 32 - 1.

Record sparse_set := mk_sparse_set {
  dense : list Z; sparse : list (option (list Z)); level2_counts : list Z;
  count : Z; max_active : Z; universe_size : Z
}.

Definition get_lvl1_idx (value : Z) : Z := Z.shiftr value 16.
Definition get_lvl2_idx (value : Z) : Z := Z.land value 0xffff.

(** [dense0] is the uninitialised memory of [dense]. *)
Definition ss_create (dense0 : list Z) (universe_size max_active : Z) : sparse_set :=
  mk_sparse_set dense0 (replicate (Z.to_nat LEVEL_SIZE) None)
    (replicate (Z.to_nat LEVEL_SIZE) 0) 0 max_active universe_size.

Definition ss_contains (s : sparse_set) (value : Z) : option bool :=
  page ← (sparse s).[get_lvl1_idx value];
  match page with
  | None => Some false
  | Some page =>
      idx ← page.[get_lvl2_idx value];
      Some (negb (idx =? UINT32_MAX))
  end.

(** [sparse[lvl1][lvl2] = x]: undefined when the page is null. *)
Definition sparse_set_entry (sp : list (option (list Z))) (value x : Z)
  : option (list (option (list Z))) :=
  page ← sp.[get_lvl1_idx value];
  page ← page;
  page ← page.[get_lvl2_idx value <- x];
  sp.[get_lvl1_idx value <- Some page].

(** A new second level, all [UINT32_MAX], where there is none. *)
Definition ensure_page (sp : list (option (list Z))) (lvl1_idx : Z) : option (list (option (list Z))) :=
  page ← sp.[lvl1_idx];
  match page with
  | None => sp.[lvl1_idx <- Some (replicate (Z.to_nat LEVEL_SIZE) UINT32_MAX)]
  | Some _ => Some sp
  end.

Definition ss_add (s : sparse_set) (value : Z) : option (Z * sparse_set) :=
  present ← ss_contains s value;
  if present : bool then Some (0, s)
  else if (max_active s <=? count s) || (universe_size s <? value) then Some (-1, s)
  else
    sp ← ensure_page (sparse s) (get_lvl1_idx value);
    sp ← sparse_set_entry sp value (count s);
    dn ← (dense s).[count s <- value];
    n ← (level2_counts s).[get_lvl1_idx value];
    cs ← (level2_counts s).[get_lvl1_idx value <- n +u32 1];
    Some (0, mk_sparse_set dn sp cs (count s +u32 1) (max_active s) (universe_size s)).

Definition ss_remove (s : sparse_set) (value : Z) : option (Z * sparse_set) :=
  present ← ss_contains s value;
  if negb present then Some (-1, s)
  else
    page ← (sparse s).[get_lvl1_idx value];
    page ← page;
    dense_idx ← page.[get_lvl2_idx value];
    last ← (dense s).[count s -u32 1];
    dn ← (dense s).[dense_idx <- last];
    moved_val ← dn.[dense_idx];
    sp ← sparse_set_entry (sparse s) moved_val dense_idx;
    sp ← sparse_set_entry sp value UINT32_MAX;
    n ← (level2_counts s).[get_lvl1_idx value];
    cs ← (level2_counts s).[get_lvl1_idx value <- n -u32 1];
    sp ← (if (n -u32 1) =? 0 then sp.[get_lvl1_idx value <- None] else Some sp);
    Some (0, mk_sparse_set dn sp cs (count s -u32 1) (max_active s) (universe_size s)).

(** [memset(level2_counts, 0, LEVEL_SIZE)] zeroes [LEVEL_SIZE] bytes, which are
    [LEVEL_SIZE / 4] counters. *)
Definition ss_clear (s : sparse_set) : sparse_set :=
  mk_sparse_set (dense s) ((fun _ => None) <$> sparse s)
    (replicate (Z.to_nat (LEVEL_SIZE / 4)) 0 ++ drop (Z.to_nat (LEVEL_SIZE / 4)) (level2_counts s))
    0 (max_active s) (universe_size s).

(** ** Invariant *)

Definition slot (s : sparse_set) (v : Z) : option Z :=
  page ← (sparse s).[get_lvl1_idx v];
  match page with None => Some UINT32_MAX | Some p => p.[get_lvl2_idx v] end.

Definition in_page (h : Z) (v : Z) : bool := get_lvl1_idx v =? h.

(** [xs] are the active values. A page counter is at least the number of active
    values of its page; it is more after a clear that did not reach it, but at
    most [n], the number of calls made so far. *)
Record wf (n : Z) (s : sparse_set) (xs : list Z) : Prop := {
  wf_dense : Z.of_nat (length (dense s)) = max_active s;
  wf_max : max_active s < 2 ^ 32;
  wf_count : count s = Z.of_nat (length xs);
  wf_prefix : take (length xs) (dense s) = xs;
  wf_nodup : NoDup xs;
  wf_u32 : Forall (in_u 32) xs;
  wf_sparse : Z.of_nat (length (sparse s)) = LEVEL_SIZE;
  wf_pages : forall h p, (sparse s).[h] = Some (Some p) -> Z.of_nat (length p) = LEVEL_SIZE;
  wf_in : forall i v, xs !! i = Some v -> slot s v = Some (Z.of_nat i);
  wf_out : forall v, in_u 32 v -> v ∉ xs -> slot s v = Some UINT32_MAX;
  wf_counts_len : Z.of_nat (length (level2_counts s)) = LEVEL_SIZE;
  wf_counts : forall h, 0 <= h < LEVEL_SIZE ->
    exists c, (level2_counts s).[h] = Some c /\ lsum (ind (in_page h)) xs <= c <= n
}.

(** ** Lemmas *)

Lemma LEVEL_SIZE_eq : LEVEL_SIZE = 65536.
Proof. reflexivity. Qed.

Lemma lvl_range v : in_u 32 v -> 0 <= get_lvl1_idx v < LEVEL_SIZE /\ 0 <= get_lvl2_idx v < LEVEL_SIZE.
Proof.
  intros Hv. unfold get_lvl1_idx, get_lvl2_idx, in_u in *. rewrite LEVEL_SIZE_eq.
  rewrite Z.shiftr_div_pow2 by lia. change 0xffff with (2 ^ 16 - 1). rewrite land_mask by lia.
  change (2 ^ 16) with 65536. split; modlia.
Qed.

(** The two indices determine the value. *)
Lemma lvl_inj v w :
  in_u 32 v -> in_u 32 w -> get_lvl1_idx v = get_lvl1_idx w -> get_lvl2_idx v = get_lvl2_idx w -> v = w.
Proof.
  unfold get_lvl1_idx, get_lvl2_idx. rewrite !Z.shiftr_div_pow2 by lia.
  change 0xffff with (2 ^ 16 - 1). rewrite !land_mask by lia. intros _ _ E1 E2.
  rewrite (Z.div_mod v (2 ^ 16)), (Z.div_mod w (2 ^ 16)) by lia. congruence.
Qed.

Lemma UINT32_MAX_eq : UINT32_MAX = 2 ^ 32 - 1.
Proof. reflexivity. Qed.

#[local] Opaque LEVEL_SIZE UINT32_MAX get_lvl1_idx get_lvl2_idx.

(** Entries of a table: what [slot] reads. *)
Definition entry (sp : list (option (list Z))) (v : Z) : option Z :=
  page ← sp.[get_lvl1_idx v];
  match page with None => Some UINT32_MAX | Some p => p.[get_lvl2_idx v] end.

Definition table_ok (sp : list (option (list Z))) : Prop :=
  Z.of_nat (length sp) = LEVEL_SIZE /\
  forall h p, sp.[h] = Some (Some p) -> Z.of_nat (length p) = LEVEL_SIZE.

Lemma wf_table n s xs : wf n s xs -> table_ok (sparse s).
Proof. intros H. split; [apply H|apply H]. Qed.

Lemma entry_set sp v x :
  table_ok sp -> in_u 32 v -> (exists p, sp.[get_lvl1_idx v] = Some (Some p)) ->
  exists sp', sparse_set_entry sp v x = Some sp' /\ table_ok sp' /\
    (forall w, in_u 32 w -> entry sp' w = if decide (w = v) then Some x else entry sp w) /\
    (forall h, is_Some (mjoin (sp'.[h])) <-> is_Some (mjoin (sp.[h]))).
Proof.
  intros [Hl Hp] Hv [p Hpv]. destruct (lvl_range v Hv) as [H1 H2].
  pose proof (Hp _ _ Hpv) as Hpl. unfold sparse_set_entry. rewrite Hpv. simpl.
  rewrite arr_set_in by lia. simpl. rewrite arr_set_in by lia.
  eexists. split; [done|]. split; [split|split].
  - by rewrite length_insert.
  - intros h q. destruct (decide (h = get_lvl1_idx v)) as [->|Hne].
    + rewrite arr_get_insert_eq by lia. intros [= <-]. by rewrite length_insert.
    + rewrite arr_get_insert_ne by lia. apply Hp.
  - intros w Hw. unfold entry. destruct (decide (get_lvl1_idx w = get_lvl1_idx v)) as [E|E].
    + rewrite E, arr_get_insert_eq, Hpv by lia. simpl.
      destruct (decide (w = v)) as [->|Hne]; [by rewrite arr_get_insert_eq by lia|].
      rewrite arr_get_insert_ne; [done|lia|]. intros E2. by apply Hne, lvl_inj.
    + rewrite arr_get_insert_ne by lia. destruct (decide (w = v)) as [->|]; [done|done].
  - intros h. destruct (decide (h = get_lvl1_idx v)) as [->|Hne].
    + rewrite arr_get_insert_eq, Hpv by lia. simpl. split; eauto.
    + by rewrite arr_get_insert_ne by lia.
Qed.

Lemma ensure_page_spec sp v :
  table_ok sp -> in_u 32 v ->
  exists sp', ensure_page sp (get_lvl1_idx v) = Some sp' /\ table_ok sp' /\
    (forall w, in_u 32 w -> entry sp' w = entry sp w) /\
    (exists p, sp'.[get_lvl1_idx v] = Some (Some p)).
Proof.
  intros [Hl Hp] Hv. destruct (lvl_range v Hv) as [H1 H2]. unfold ensure_page.
  destruct (arr_get_is_Some sp (get_lvl1_idx v)) as [[p|] E]; [lia|rewrite E; simpl..].
  { exists sp. split; [done|]. split; [done|]. eauto. }
  rewrite arr_set_in by lia. eexists. split; [done|]. split; [split|split].
  - by rewrite length_insert.
  - intros h q. destruct (decide (h = get_lvl1_idx v)) as [->|Hne].
    + rewrite arr_get_insert_eq by lia. intros [= <-]. rewrite length_replicate. lia.
    + rewrite arr_get_insert_ne by lia. apply Hp.
  - intros w Hw. destruct (lvl_range w Hw) as [_ H2']. unfold entry.
    destruct (decide (get_lvl1_idx w = get_lvl1_idx v)) as [E'|E'].
    + rewrite E', arr_get_insert_eq, E by lia. simpl.
      rewrite arr_get_nat by lia. apply lookup_replicate_2. lia.
    + by rewrite arr_get_insert_ne by lia.
  - exists (replicate (Z.to_nat LEVEL_SIZE) UINT32_MAX). by rewrite arr_get_insert_eq by lia.
Qed.

Lemma entry_page sp v x :
  table_ok sp -> entry sp v = Some x -> x <> UINT32_MAX ->
  exists p, sp.[get_lvl1_idx v] = Some (Some p) /\ p.[get_lvl2_idx v] = Some x.
Proof.
  intros _ He Hx. unfold entry in He. destruct (sp.[get_lvl1_idx v]) as [[p|]|]; simplify_eq/=.
  eauto.
Qed.

Lemma wf_len n s xs : wf n s xs -> Z.of_nat (length xs) <= max_active s.
Proof.
  intros H. rewrite <- (wf_dense n s xs H), <- (wf_prefix n s xs H) at 1. rewrite length_take. lia.
Qed.

Lemma contains_spec n s xs v :
  wf n s xs -> in_u 32 v -> ss_contains s v = Some (bool_decide (v ∈ xs)).
Proof.
  intros H Hv. pose proof (wf_len n s xs H). pose proof (wf_max n s xs H).
  assert (Hslot : ss_contains s v = (fun x => negb (x =? UINT32_MAX)) <$> slot s v).
  { unfold ss_contains, slot. destruct ((sparse s).[get_lvl1_idx v]) as [[p|]|]; simpl; [|done..].
    by destruct (p.[get_lvl2_idx v]). }
  rewrite Hslot. destruct (decide (v ∈ xs)) as [Hin|Hout].
  - rewrite bool_decide_eq_true_2 by done. apply list_elem_of_lookup in Hin as [i Hi].
    rewrite (wf_in n s xs H i v Hi). simpl. apply lookup_lt_Some in Hi.
    rewrite (proj2 (Z.eqb_neq _ _)); [done|]. rewrite UINT32_MAX_eq. lia.
  - rewrite bool_decide_eq_false_2, (wf_out n s xs H) by done. done.
Qed.

Lemma add_new n s xs v :
  wf n s xs -> n + 1 < 2 ^ 32 ->
  in_u 32 v -> v ∉ xs -> Z.of_nat (length xs) < max_active s -> v <= universe_size s ->
  exists s', ss_add s v = Some (0, s') /\ wf (n + 1) s' (xs ++ [v]) /\
    max_active s' = max_active s /\ universe_size s' = universe_size s.
Proof.
  intros H Hn Hv Hnin Hroom Huni. unfold ss_add. rewrite (contains_spec n s xs), bool_decide_eq_false_2 by done.
  simpl. rewrite (wf_count n s xs H). pose proof (wf_max n s xs H).
  rewrite (proj2 (Z.leb_gt _ _)), (proj2 (Z.ltb_ge _ _)) by lia. simpl.
  destruct (ensure_page_spec (sparse s) v (wf_table n s xs H) Hv) as (sp1 & -> & T1 & E1 & Hp1). simpl.
  destruct (entry_set sp1 v (Z.of_nat (length xs)) T1 Hv Hp1) as (sp2 & Es & T2 & E2 & _).
  rewrite Es. simpl. rewrite arr_set_in by (rewrite (wf_dense n s xs H); lia). simpl.
  destruct (lvl_range v Hv) as [H1 H2]. destruct (wf_counts n s xs H _ H1) as (c & Ec & Hcn).
  rewrite Ec. simpl.
  rewrite arr_set_in by (rewrite (wf_counts_len n s xs H); lia). simpl.
  pose proof (wf_dense n s xs H) as Hd. pose proof (wf_counts_len n s xs H) as Hcl.
  assert (Hc : 0 <= lsum (ind (in_page (get_lvl1_idx v))) xs <= Z.of_nat (length xs)).
  { split; [apply lsum_nonneg; auto with carr|apply ind_le_length]. }
  eexists. split; [done|]. split; [|done].
  split; simpl; rewrite ?length_insert, ?length_app; simpl; try done.
  - rewrite wrap_small; [lia|]. unfold in_u. lia.
  - rewrite Nat.add_1_r, Nat2Z.id.
    rewrite (take_S_r _ _ v) by (apply list_lookup_insert_eq; lia).
    by rewrite take_insert_ge, (wf_prefix n s xs H) by lia.
  - apply NoDup_app. split; [apply H|]. split; [set_solver|apply NoDup_singleton].
  - apply Forall_app. split; [apply H|by constructor].
  - apply T2.
  - apply T2.
  - intros i w Hw. change (entry sp2 w = Some (Z.of_nat i)).
    apply lookup_app_Some in Hw as [Hw|[Hge Hw]].
    + assert (Hwu : in_u 32 w) by (eapply Forall_lookup_1; [apply (wf_u32 n s xs H)|done]).
      rewrite E2, decide_False, E1 by (done || (intros ->; apply Hnin; by eapply list_elem_of_lookup_2)).
      by apply (wf_in n s xs H).
    + destruct (i - length xs)%nat as [|k] eqn:Ei; [|by destruct k]. simplify_eq/=.
      rewrite E2, decide_True by done. do 2 f_equal. lia.
  - intros w Hwu Hw. change (entry sp2 w = Some UINT32_MAX).
    rewrite E2, decide_False, E1 by (done || set_solver). apply (wf_out n s xs H); set_solver.
  - intros h Hh. rewrite lsum_app.
    assert (lsum (ind (in_page h)) [v] = if in_page h v then 1 else 0) as ->
      by (simpl; unfold ind; destruct (in_page h v); lia).
    destruct (in_page h v) eqn:Ep; unfold in_page in Ep;
      [apply Z.eqb_eq in Ep as <-|apply Z.eqb_neq in Ep].
    + exists (c + 1). rewrite arr_get_insert_eq, wrap_small by (unfold in_u; lia). split; [done|lia].
    + destruct (wf_counts n s xs H h Hh) as (c' & Ec' & Hc'). exists c'.
      rewrite arr_get_insert_ne by lia. split; [done|lia].
Qed.

(** *** Removal: swap with the last value *)

Lemma insert_swap_perm (l : list Z) i x y : l !! i = Some x -> x :: <[i := y]> l ≡ₚ y :: l.
Proof.
  revert i. induction l as [|z l IH]; intros [|i] Hi; simplify_eq/=; [apply perm_swap|].
  rewrite perm_swap, (IH i Hi). apply perm_swap.
Qed.

Definition swap_out (xs : list Z) (i : nat) (last : Z) : list Z :=
  take (length xs - 1) (<[i := last]> xs).

Lemma swap_out_perm xs i x last :
  xs !! i = Some x -> xs !! (length xs - 1)%nat = Some last -> x :: swap_out xs i last ≡ₚ xs.
Proof.
  intros Hi Hlast. pose proof (lookup_lt_Some _ _ _ Hi). unfold swap_out.
  destruct xs as [|y ys _] using rev_ind; [done|]. rewrite length_app in *. simpl in *.
  replace (length ys + 1 - 1)%nat with (length ys) in * by lia.
  rewrite lookup_app_r, Nat.sub_diag in Hlast by lia. simplify_eq/=.
  destruct (decide (i = length ys)) as [->|Hne].
  - rewrite lookup_app_r, Nat.sub_diag in Hi by lia. simplify_eq/=.
    rewrite take_insert_ge, take_app_length by lia. apply Permutation_cons_append.
  - rewrite lookup_app_l in Hi by lia. rewrite insert_app_l by lia.
    rewrite take_app_le, take_ge by (rewrite length_insert; lia).
    rewrite (insert_swap_perm ys i x last Hi). apply Permutation_cons_append.
Qed.

Lemma swap_out_lookup xs i last j v :
  swap_out xs i last !! j = Some v ->
  (j < length xs - 1)%nat /\ (j = i /\ v = last \/ j <> i /\ xs !! j = Some v).
Proof.
  unfold swap_out. intros H. pose proof (lookup_lt_Some _ _ _ H) as Hlt.
  rewrite length_take, length_insert in Hlt. rewrite lookup_take_lt in H by lia.
  split; [lia|]. destruct (decide (j = i)) as [->|Hne].
  - rewrite list_lookup_insert_eq in H by lia. simplify_eq. auto.
  - rewrite list_lookup_insert_ne in H by done. auto.
Qed.

(** Freeing a page none of whose values is present changes no entry. *)
Lemma entry_free sp h :
  table_ok sp -> 0 <= h < LEVEL_SIZE ->
  (forall w, in_u 32 w -> get_lvl1_idx w = h -> entry sp w = Some UINT32_MAX) ->
  exists sp', sp.[h <- None] = Some sp' /\ table_ok sp' /\
    forall w, in_u 32 w -> entry sp' w = entry sp w.
Proof.
  intros [Hl Hp] Hh Hall. rewrite arr_set_in by lia. eexists. split; [done|]. split; [split|].
  - by rewrite length_insert.
  - intros h' q. destruct (decide (h' = h)) as [->|Hne].
    + by rewrite arr_get_insert_eq by lia.
    + rewrite arr_get_insert_ne by lia. apply Hp.
  - intros w Hw. destruct (decide (get_lvl1_idx w = h)) as [E|E].
    + rewrite (Hall w Hw E). unfold entry. by rewrite E, arr_get_insert_eq by lia.
    + unfold entry. by rewrite arr_get_insert_ne by lia.
Qed.

Lemma wf_dense_lookup n s xs j w : wf n s xs -> xs !! j = Some w -> dense s !! j = Some w.
Proof.
  intros H Hj. pose proof (lookup_lt_Some _ _ _ Hj).
  rewrite <- (wf_prefix n s xs H) in Hj. by rewrite lookup_take_lt in Hj by lia.
Qed.

Lemma wf_elem n s xs w : wf n s xs -> w ∈ xs -> in_u 32 w.
Proof. intros H. apply Forall_forall, (wf_u32 n s xs H). Qed.

Lemma wf_page n s xs j w :
  wf n s xs -> xs !! j = Some w ->
  exists p, (sparse s).[get_lvl1_idx w] = Some (Some p) /\ p.[get_lvl2_idx w] = Some (Z.of_nat j).
Proof.
  intros H Hj. pose proof (lookup_lt_Some _ _ _ Hj). pose proof (wf_len n s xs H). pose proof (wf_max n s xs H).
  apply entry_page; [by eapply wf_table|by apply (wf_in n s xs H)|]. rewrite UINT32_MAX_eq. lia.
Qed.

Lemma swap_out_facts xs i v last :
  NoDup xs -> xs !! i = Some v -> xs !! (length xs - 1)%nat = Some last ->
  NoDup (swap_out xs i last) /\ v ∉ swap_out xs i last /\
  (forall w, w ∈ xs <-> w = v \/ w ∈ swap_out xs i last) /\
  length (swap_out xs i last) = (length xs - 1)%nat.
Proof.
  intros Hnd Hi Hlast. pose proof (swap_out_perm xs i v last Hi Hlast) as Hperm.
  rewrite <- Hperm in Hnd. apply NoDup_cons in Hnd as [Hvn Hnd]. split; [done|]. split; [done|].
  split; [intros w; rewrite <- Hperm at 1; set_solver|].
  apply Permutation_length in Hperm. simpl in Hperm. lia.
Qed.

(** The two updates of the table. *)
Lemma remove_entries n s xs v i last :
  wf n s xs -> xs !! i = Some v -> xs !! (length xs - 1)%nat = Some last ->
  exists sp1 sp2, sparse_set_entry (sparse s) last (Z.of_nat i) = Some sp1 /\
    sparse_set_entry sp1 v UINT32_MAX = Some sp2 /\ table_ok sp2 /\
    (forall j w, swap_out xs i last !! j = Some w -> entry sp2 w = Some (Z.of_nat j)) /\
    (forall w, in_u 32 w -> w ∉ swap_out xs i last -> entry sp2 w = Some UINT32_MAX).
Proof.
  intros H Hi Hlast. pose proof (wf_table n s xs H) as T.
  assert (Hv : in_u 32 v) by (eapply wf_elem, list_elem_of_lookup_2; done).
  assert (Hlu : in_u 32 last) by (eapply wf_elem, list_elem_of_lookup_2; done).
  destruct (swap_out_facts xs i v last (wf_nodup n s xs H) Hi Hlast) as (_ & Hvn & Hin & _).
  destruct (wf_page n s xs i v H Hi) as (p & Hp & _). destruct (wf_page n s xs _ last H Hlast) as (q & Hq & _).
  destruct (entry_set (sparse s) last (Z.of_nat i) T Hlu ltac:(eauto)) as (sp1 & Es1 & T1 & E1 & P1).
  destruct (entry_set sp1 v UINT32_MAX T1 Hv) as (sp2 & Es2 & T2 & E2 & _).
  { destruct (proj2 (P1 (get_lvl1_idx v))) as [r Hr]; [rewrite Hp; eauto|].
    exists r. by destruct (sp1.[get_lvl1_idx v]) as [[]|]; simplify_eq/=. }
  exists sp1, sp2. split; [done|]. split; [done|]. split; [done|]. split.
  - intros j w Hj. assert (Hwx : w ∈ swap_out xs i last) by (by eapply list_elem_of_lookup_2).
    assert (Hwu : in_u 32 w) by (eapply wf_elem; [done|apply Hin; by right]).
    rewrite E2, decide_False, E1 by (done || (intros ->; done)).
    destruct (swap_out_lookup xs i last j w Hj) as [Hjl [[-> ->]|[Hne Hjx]]]; [by rewrite decide_True|].
    rewrite decide_False; [by apply (wf_in n s xs H)|]. intros ->.
    pose proof (NoDup_lookup xs j _ last (wf_nodup n s xs H) Hjx Hlast). lia.
  - intros w Hw Hwn. rewrite E2 by done. destruct (decide (w = v)); [done|]. rewrite E1 by done.
    rewrite decide_False; [apply (wf_out n s xs H); [done|]; rewrite Hin; naive_solver|].
    intros ->. assert (last ∈ xs) as [?|?]%Hin by (by eapply list_elem_of_lookup_2); done.
Qed.

(** A page whose counter reaches zero has no active value left. *)
Lemma remove_free sp xs' v c :
  table_ok sp -> in_u 32 v -> 1 + lsum (ind (in_page (get_lvl1_idx v))) xs' <= c < 2 ^ 32 ->
  (forall w, in_u 32 w -> w ∉ xs' -> entry sp w = Some UINT32_MAX) ->
  exists sp', (if (c -u32 1) =? 0 then sp.[get_lvl1_idx v <- None] else Some sp) = Some sp' /\
    table_ok sp' /\ forall w, in_u 32 w -> entry sp' w = entry sp w.
Proof.
  intros T Hv Hc Hout.
  assert (0 <= lsum (ind (in_page (get_lvl1_idx v))) xs') by (apply lsum_nonneg; auto with carr).
  rewrite wrap_small by (unfold in_u; lia). destruct (Z.eqb_spec (c - 1) 0) as [Hz|]; [|by exists sp].
  apply entry_free; [done|by apply lvl_range|]. intros w Hw Hwp. apply Hout; [done|].
  intros [j Hj]%list_elem_of_lookup.
  assert (Hzero : lsum (ind (in_page (get_lvl1_idx v))) xs' = 0) by lia.
  pose proof (lsum_zero_inv _ _ j w ltac:(auto with carr) Hzero Hj) as Hind.
  unfold ind, in_page in Hind. by rewrite Hwp, Z.eqb_refl in Hind.
Qed.

(** What [ss_remove] computes for a value that is present. *)
Lemma remove_run n s xs v i last sp1 sp2 sp3 c :
  wf n s xs -> xs !! i = Some v -> xs !! (length xs - 1)%nat = Some last ->
  sparse_set_entry (sparse s) last (Z.of_nat i) = Some sp1 ->
  sparse_set_entry sp1 v UINT32_MAX = Some sp2 ->
  (level2_counts s).[get_lvl1_idx v] = Some c ->
  (if (c -u32 1) =? 0 then sp2.[get_lvl1_idx v <- None] else Some sp2) = Some sp3 ->
  ss_remove s v = Some (0,
    mk_sparse_set (<[i := last]> (dense s)) sp3 (<[Z.to_nat (get_lvl1_idx v) := c -u32 1]> (level2_counts s))
      (count s - 1) (max_active s) (universe_size s)).
Proof.
  intros H Hi Hlast Es1 Es2 En Es3. pose proof (lookup_lt_Some _ _ _ Hi) as Hlt.
  assert (Hv : in_u 32 v) by (eapply wf_elem, list_elem_of_lookup_2; done).
  pose proof (wf_len n s xs H). pose proof (wf_max n s xs H). pose proof (wf_dense n s xs H).
  pose proof (arr_get_Some _ _ _ En). destruct (wf_page n s xs i v H Hi) as (p & Hp1 & Hp2).
  unfold ss_remove. rewrite (contains_spec n s xs), bool_decide_eq_true_2
    by (done || by eapply list_elem_of_lookup_2). cbn [mbind option_bind negb].
  rewrite Hp1. cbn [mbind option_bind]. rewrite Hp2. cbn [mbind option_bind].
  rewrite (wf_count n s xs H), wrap_small by (unfold in_u; lia).
  rewrite (arr_get_nat (dense s)) by lia.
  replace (Z.to_nat (Z.of_nat (length xs) - 1)) with (length xs - 1)%nat by lia.
  rewrite (wf_dense_lookup n s xs _ _ H Hlast). cbn [mbind option_bind].
  rewrite (arr_set_in (dense s)) by lia. cbn [mbind option_bind].
  rewrite arr_get_insert_eq by lia. cbn [mbind option_bind].
  rewrite Es1. cbn [mbind option_bind]. rewrite Es2. cbn [mbind option_bind].
  rewrite En. cbn [mbind option_bind].
  rewrite (arr_set_in (level2_counts s)) by lia. cbn [mbind option_bind]. rewrite Es3. cbn [mbind option_bind].
  by rewrite Nat2Z.id.
Qed.

Lemma remove_present n s xs v i :
  wf n s xs -> n < 2 ^ 32 -> xs !! i = Some v ->
  exists s' xs', ss_remove s v = Some (0, s') /\ wf n s' xs' /\ v :: xs' ≡ₚ xs /\
    max_active s' = max_active s /\ universe_size s' = universe_size s.
Proof.
  intros H Hn Hi. pose proof (lookup_lt_Some _ _ _ Hi) as Hlt.
  assert (Hv : in_u 32 v) by (eapply wf_elem, list_elem_of_lookup_2; done).
  pose proof (wf_len n s xs H). pose proof (wf_max n s xs H). pose proof (wf_dense n s xs H).
  pose proof (wf_counts_len n s xs H). destruct (lvl_range v Hv) as [Hl1 _].
  destruct (lookup_lt_is_Some_2 xs (length xs - 1)) as [last Hlast]; [lia|].
  pose proof (swap_out_perm xs i v last Hi Hlast) as Hperm.
  destruct (swap_out_facts xs i v last (wf_nodup n s xs H) Hi Hlast) as (Hnd & _ & Hin & Hlen).
  destruct (remove_entries n s xs v i last H Hi Hlast) as (sp1 & sp2 & Es1 & Es2 & T2 & Hin2 & Hout2).
  set (xs' := swap_out xs i last) in *. destruct (wf_counts n s xs H _ Hl1) as (c & Ec & Hc).
  assert (Hsum : lsum (ind (in_page (get_lvl1_idx v))) xs = 1 + lsum (ind (in_page (get_lvl1_idx v))) xs').
  { rewrite <- Hperm. simpl. unfold ind at 1, in_page at 1. by rewrite Z.eqb_refl. }
  assert (0 <= lsum (ind (in_page (get_lvl1_idx v))) xs') by (apply lsum_nonneg; auto with carr).
  destruct (remove_free sp2 xs' v c T2 Hv ltac:(lia) Hout2) as (sp3 & Es3 & T3 & E3).
  rewrite (remove_run n s xs v i last sp1 sp2 sp3 c H Hi Hlast Es1 Es2 Ec Es3).
  eexists _, xs'. split; [done|]. split; [|done].
  split; cbn [dense sparse level2_counts count max_active universe_size];
    rewrite ?length_insert; try done.
  - rewrite (wf_count n s xs H), Hlen. lia.
  - rewrite Hlen. unfold xs', swap_out. rewrite <- (wf_prefix n s xs H) at 3.
    destruct (decide (i < length xs - 1)%nat).
    + rewrite (take_insert_lt (take _ _)), (take_insert_lt (dense s)), take_take by lia. do 2 f_equal. lia.
    + rewrite (take_insert_ge (take _ _)), (take_insert_ge (dense s)), take_take by lia. f_equal. lia.
  - apply Forall_forall. intros w Hw. eapply wf_elem; [done|]. apply Hin. by right.
  - apply T3.
  - apply T3.
  - intros j w Hj. change (entry sp3 w = Some (Z.of_nat j)). rewrite E3; [by apply Hin2|].
    eapply wf_elem; [done|]. apply Hin. right. by eapply list_elem_of_lookup_2.
  - intros w Hw Hwn. change (entry sp3 w = Some UINT32_MAX). rewrite E3 by done. by apply Hout2.
  - intros h Hh. destruct (decide (h = get_lvl1_idx v)) as [->|Hne].
    + exists (c - 1). rewrite arr_get_insert_eq, wrap_small by (unfold in_u; lia). split; [done|lia].
    + destruct (wf_counts n s xs H h Hh) as (c' & Ec' & Hc'). exists c'.
      rewrite arr_get_insert_ne by lia. split; [done|]. rewrite <- Hperm in Hc'. simpl in Hc'.
      unfold ind at 1, in_page at 1 in Hc'. rewrite (proj2 (Z.eqb_neq _ _)) in Hc' by done. lia.
Qed.

Lemma wf_mono n m s xs : wf n s xs -> n <= m -> wf m s xs.
Proof.
  intros [] Hnm. split; try done. intros h Hh. destruct (wf_counts0 h Hh) as (c & ? & ?).
  exists c. split; [done|lia].
Qed.

(** ** The specification: a finite set with a capacity *)

Inductive ss_op := Add (v : Z) | Remove (v : Z) | Contains (v : Z) | Clear.

(** The arguments are of their type, [uint32_t]. *)
Definition op_u32 (o : ss_op) : Prop :=
  match o with Add v | Remove v | Contains v => in_u 32 v | Clear => True end.

Definition ss_step (s : sparse_set) (o : ss_op) : option (sparse_set * Z) :=
  match o with
  | Add v => '(r, s) ← ss_add s v; Some (s, r)
  | Remove v => '(r, s) ← ss_remove s v; Some (s, r)
  | Contains v => b ← ss_contains s v; Some (s, if (b : bool) then 1 else 0)
  | Clear => Some (ss_clear s, 0)
  end.

Definition set_step (max universe : Z) (A : gset Z) (o : ss_op) : gset Z * Z :=
  match o with
  | Add v => if decide (v ∈ A) then (A, 0)
             else if decide (max <= Z.of_nat (size A) \/ universe < v) then (A, -1)
             else ({[v]} ∪ A, 0)
  | Remove v => if decide (v ∈ A) then (A ∖ {[v]}, 0) else (A, -1)
  | Contains v => (A, if decide (v ∈ A) then 1 else 0)
  | Clear => (∅, 0)
  end.

(** After [n] calls the packed prefix of [dense] lists the set, without repetition. *)
Definition implements (n : Z) (s : sparse_set) (A : gset Z) : Prop :=
  exists xs, wf n s xs /\ Forall (fun v => v <= universe_size s) xs /\ A = list_to_set xs.

Lemma clear_wf n s xs :
  wf n s xs -> wf n (ss_clear s) [].
Proof.
  intros H. pose proof (wf_sparse n s xs H) as Hsp. pose proof (wf_counts_len n s xs H) as Hcl.
  pose proof LEVEL_SIZE_eq as HL.
  assert (Hnone : forall h, 0 <= h < LEVEL_SIZE -> (sparse (ss_clear s)).[h] = Some None).
  { intros h Hh. simpl. rewrite arr_get_nat, list_lookup_fmap by lia.
    destruct (lookup_lt_is_Some_2 (sparse s) (Z.to_nat h)) as [x ->]; [lia|done]. }
  split; [apply (wf_dense n s xs H)|apply (wf_max n s xs H)|done|done|constructor|constructor|..].
  - cbn [sparse ss_clear]. by rewrite length_fmap.
  - intros h p Hp. destruct (decide (0 <= h < LEVEL_SIZE)) as [Hh|Hh]; [by rewrite Hnone in Hp|].
    apply arr_get_Some in Hp. simpl in Hp. rewrite length_fmap in Hp. lia.
  - done.
  - intros v Hv _. unfold slot. destruct (lvl_range v Hv) as [Hl1 _]. by rewrite Hnone.
  - cbn [level2_counts ss_clear]. rewrite length_app, length_replicate, length_drop, HL in *.
    change (65536 / 4) with 16384. lia.
  - intros h Hh. destruct (wf_counts n s xs H h Hh) as (c & Ec & Hc).
    assert (0 <= lsum (ind (in_page h)) xs) by (apply lsum_nonneg; auto with carr).
    cbn [level2_counts ss_clear]. rewrite arr_get_nat in * by lia. rewrite HL in *.
    change (65536 / 4) with 16384. destruct (decide (h < 16384)) as [Hlt|Hge].
    + exists 0. rewrite lookup_app_l by (rewrite length_replicate; lia).
      split; [apply lookup_replicate_2; lia|simpl; lia].
    + exists c. rewrite lookup_app_r by (rewrite length_replicate; lia).
      rewrite length_replicate, lookup_drop.
      replace (Z.to_nat 16384 + (Z.to_nat h - Z.to_nat 16384))%nat with (Z.to_nat h) by lia.
      split; [done|simpl; lia].
Qed.

Lemma ss_step_simulates n s A o :
  implements n s A -> n + 1 < 2 ^ 32 -> op_u32 o ->
  exists s', ss_step s o = Some (s', (set_step (max_active s) (universe_size s) A o).2) /\
    implements (n + 1) s' (set_step (max_active s) (universe_size s) A o).1 /\
    max_active s' = max_active s /\ universe_size s' = universe_size s.
Proof.
  intros (xs & H & Hu & ->) Hn Ho. pose proof (wf_mono n (n + 1) s xs H ltac:(lia)) as H1. pose proof (wf_nodup n s xs H) as Hnd.
  assert (Hmem : forall v, v ∈ (list_to_set xs : gset Z) <-> v ∈ xs) by set_solver.
  destruct o as [v|v|v|]; simpl in *.
  - destruct (decide (v ∈ list_to_set xs)) as [Hin|Hnin]; rewrite Hmem in *.
    + unfold ss_add. rewrite (contains_spec n s xs), bool_decide_eq_true_2 by done. simpl.
      exists s. split; [done|]. split; [by exists xs|done].
    + rewrite size_list_to_set by done. destruct (decide (_ \/ _)) as [Hno|Hyes].
      * unfold ss_add. rewrite (contains_spec n s xs), bool_decide_eq_false_2 by done. simpl.
        rewrite (wf_count n s xs H). replace (_ || _) with true.
        { exists s. split; [done|]. split; [by exists xs|done]. }
        destruct (Z.leb_spec (max_active s) (Z.of_nat (length xs))), (Z.ltb_spec (universe_size s) v);
          (done || lia).
      * destruct (add_new n s xs v) as (s' & -> & H' & Hm & Hun); [done|done|done|done|lia|lia|].
        exists s'. split; [done|]. split; [|done]. exists (xs ++ [v]). split; [done|].
        split; [rewrite Hun; apply Forall_app; split; [done|constructor; [lia|constructor]]|].
        rewrite list_to_set_app_L. set_solver.
  - destruct (decide (v ∈ list_to_set xs)) as [Hin|Hnin]; rewrite Hmem in *.
    + apply list_elem_of_lookup in Hin as [i Hi].
      destruct (remove_present (n + 1) s xs v i H1 ltac:(lia) Hi) as (s' & xs' & -> & H' & Hp & Hm & Hun).
      exists s'. split; [done|]. split; [|done]. exists xs'. split; [done|].
      rewrite <- Hp in Hu, Hnd. apply Forall_cons in Hu as [_ Hu]. apply NoDup_cons in Hnd as [Hvn _].
      split; [by rewrite Hun|]. simpl. rewrite <- Hp. set_solver.
    + unfold ss_remove. rewrite (contains_spec n s xs), bool_decide_eq_false_2 by done. simpl.
      exists s. split; [done|]. split; [by exists xs|done].
  - rewrite (contains_spec n s xs) by done. simpl. exists s. split; [|split; [by exists xs|done]].
    do 2 f_equal. destruct (decide (v ∈ list_to_set xs)) as [Hin|Hin]; rewrite Hmem in Hin.
    + by rewrite bool_decide_eq_true_2.
    + by rewrite bool_decide_eq_false_2.
  - exists (ss_clear s). split; [done|]. split; [|done]. exists []. split; [|done]. by eapply clear_wf.
Qed.

Lemma ss_create_implements dense0 universe max :
  Z.of_nat (length dense0) = max -> max < 2 ^ 32 -> implements 0 (ss_create dense0 universe max) ∅.
Proof.
  intros Hd Hm. exists []. split; [|done].
  assert (Hnone : forall {A} (x : A) h, 0 <= h < LEVEL_SIZE ->
    (replicate (Z.to_nat LEVEL_SIZE) x).[h] = Some x).
  { intros A x h Hh. rewrite arr_get_nat by lia. apply lookup_replicate_2. lia. }
  assert (HL : 0 <= LEVEL_SIZE) by (rewrite LEVEL_SIZE_eq; lia).
  split; cbn [ss_create dense sparse level2_counts count max_active universe_size];
    rewrite ?length_replicate; [done|done|done|done|constructor|constructor|lia|..].
  - intros h p Hp. pose proof (arr_get_Some _ _ _ Hp) as Hh. rewrite length_replicate in Hh.
    by rewrite Hnone in Hp by lia.
  - intros i v Hi. by rewrite lookup_nil in Hi.
  - intros v Hv _. unfold slot. cbn [ss_create sparse]. destruct (lvl_range v Hv) as [Hl1 _].
    by rewrite Hnone.
  - lia.
  - intros h Hh. exists 0. by rewrite Hnone.
Qed.

(** ** Properties *)

(** C2. The sparse set is a finite set of 32-bit identifiers: from a state that
    implements a set after [n] calls, every sequence of add, remove, contains and
    clear, for every universe, answers as the set does, never leaves its arrays
    and never follows a null or freed page, and ends in a state that implements
    the set's final state, the packed prefix of [dense] listing it without
    repetition. The set is the one the code has, not the one of its requirements
    comment: adding a value that is present answers 0, and the value
    [universe_size] is accepted; a new value is refused when [max_active] are
    present or it is greater than [universe_size]. The calls are fewer than
    [2^32] in all: [ss_clear] zeroes only the first quarter of the page
    counters, the others only grow until they wrap, and until then a page that
    should be freed is kept. *)
Theorem sparse_set_refines (n : Z) (s : sparse_set) (A : gset Z) (ops : list ss_op)
    (H : implements n s A) (Ho : Forall op_u32 ops) (Hn : n + Z.of_nat (length ops) < 2 ^ 32) :
  match run_ops ss_step s ops,
        run_ops (fun A o => Some (set_step (max_active s) (universe_size s) A o)) A ops with
  | Some (s', rs), Some (A', rs') => rs = rs' /\ implements (n + Z.of_nat (length ops)) s' A'
  | _, _ => False
  end.
Proof.
  revert n s A H Ho Hn. induction ops as [|o ops IH]; intros n s A H Ho Hn; simpl.
  { by rewrite Z.add_0_r. }
  inversion Ho as [|? ? Ho1 Ho2]; subst. cbn [length] in Hn.
  destruct (ss_step_simulates n s A o H ltac:(lia) Ho1) as (s1 & -> & Hi & Hm & Hu). simpl.
  specialize (IH (n + 1) s1 _ Hi Ho2 ltac:(lia)). rewrite Hm, Hu in IH.
  destruct (set_step (max_active s) (universe_size s) A o) as [A1 r]. simpl in *.
  replace (n + Z.of_nat (S (length ops))) with (n + 1 + Z.of_nat (length ops)) by lia.
  destruct (run_ops ss_step s1 ops) as [[s2 rs]|], (run_ops _ A1 ops) as [[A2 rs']|]; try done.
  destruct IH as [-> ?]. done.
Qed.

Lemma sparse_set_refines_witness :
  match run_ops ss_step (ss_create [7; 7] (2 ^ 31) 2)
          [Add (2 ^ 31); Add 5; Add 6; Clear; Add (2 ^ 31); Remove (2 ^ 31); Add 5; Contains (2 ^ 31)],
        run_ops (fun A o => Some (set_step 2 (2 ^ 31) A o)) ∅
          [Add (2 ^ 31); Add 5; Add 6; Clear; Add (2 ^ 31); Remove (2 ^ 31); Add 5; Contains (2 ^ 31)] with
  | Some (s', rs), Some (A', rs') => rs = rs' /\ implements 8 s' A'
  | _, _ => False
  end.
Proof.
  apply (sparse_set_refines 0 (ss_create [7; 7] (2 ^ 31) 2) ∅
    [Add (2 ^ 31); Add 5; Add 6; Clear; Add (2 ^ 31); Remove (2 ^ 31); Add 5; Contains (2 ^ 31)]).
  - apply ss_create_implements; simpl; lia.
  - repeat (constructor; [simpl; unfold in_u; lia || done|]). constructor.
  - simpl. lia.
Defined.

#[local] Transparent LEVEL_SIZE UINT32_MAX get_lvl1_idx get_lvl2_idx.

(** The value [universe_size] itself is accepted. *)
Example ss_add_universe_size :
  (fun '(r, s) => (r, count s)) <$> ss_add (ss_create [0] 10 1) 10 = Some (0, 1).
Proof. vm_compute. reflexivity. Qed.

(** After a clear the counter of a page beyond the first quarter keeps its old
    value, so the page is not freed with its last value. *)
Example ss_clear_stale :
  ('(s, _) ← run_ops ss_step (ss_create [0] (2 ^ 31) 1) [Add (2 ^ 30); Clear; Add (2 ^ 30); Remove (2 ^ 30)];
   n ← (level2_counts s).[16384]; page ← (sparse s).[16384];
   Some (count s, n, bool_decide (page = None))) = Some (0, 1, false).
Proof. vm_compute. reflexivity. Qed.
