(* ===== verification/Heap.v ===== *)
(** * The heap of [malloc] and [free]

    Blocks with their contents, by address; addresses are not used again. A
    computation on the heap is undefined when it touches a block that is not
    live (never allocated, or freed). *)

From S2P Require Import Prelude.

Record heap (B : Type) := mk_heap { blocks : gmap nat B; next : nat }.
Arguments mk_heap {B} _ _.
Arguments blocks {B} _.
Arguments next {B} _.

Definition hm (B A : Type) : Type := heap B -> option (A * heap B).

Section heap.
Context {B : Type}.
Implicit Types (h : heap B) (p : nat).

Definition hret {A} (a : A) : hm B A := fun h => Some (a, h).
Definition hbind {A C} (m : hm B A) (k : A -> hm B C) : hm B C := fun h => '(a, h) ← m h; k a h.
Definition hlift {A} (o : option A) : hm B A := fun h => a ← o; Some (a, h).

Definition halloc (b : B) : hm B nat := fun h => Some (next h, mk_heap (<[next h := b]> (blocks h)) (S (next h))).
Definition hload p : hm B B := fun h => b ← blocks h !! p; Some (b, h).
Definition hstore p (b : B) : hm B unit := fun h => _ ← blocks h !! p; Some (tt, mk_heap (<[p := b]> (blocks h)) (next h)).
Definition hfree p : hm B unit := fun h => _ ← blocks h !! p; Some (tt, mk_heap (delete p (blocks h)) (next h)).

(** Nothing is live from [next] on. *)
Definition heap_ok h : Prop := forall p, (next h <= p)%nat -> blocks h !! p = None.

(** [owned] are live blocks of [h], pairwise distinct; the others are as in [fr]. *)
Record owns (fr : gmap nat B) h (owned : list nat) : Prop := {
  owns_ok : heap_ok h;
  owns_nodup : NoDup owned;
  owns_live : forall p, p ∈ owned -> is_Some (blocks h !! p);
  owns_frame : forall p, p ∉ owned -> blocks h !! p = fr !! p;
  owns_apart : forall p, p ∈ owned -> fr !! p = None
}.

Lemma owns_nil h : heap_ok h -> owns (blocks h) h [].
Proof. intros H. split; [done|constructor|by intros p Hp%not_elem_of_nil|done|by intros p Hp%not_elem_of_nil]. Qed.

Lemma owns_perm fr h l l' : l ≡ₚ l' -> owns fr h l -> owns fr h l'.
Proof. intros Hp [H1 H2 H3 H4 H5]. split; [done|by rewrite <- Hp|intros p; rewrite <- Hp; auto..]. Qed.

Lemma owns_fresh fr h l : owns fr h l -> next h ∉ l.
Proof. intros H Hin. apply (owns_live fr h l H) in Hin as [b Hb]. by rewrite (owns_ok fr h l H) in Hb. Qed.

Lemma owns_alloc fr h l b :
  owns fr h l -> owns fr (mk_heap (<[next h := b]> (blocks h)) (S (next h))) (next h :: l).
Proof.
  intros H. pose proof (owns_fresh fr h l H) as Hn. pose proof (owns_ok fr h l H) as Hok. split; simpl.
  - intros p Hp. simpl in *. rewrite lookup_insert_ne by lia. apply Hok. lia.
  - constructor; [done|apply H].
  - intros p Hp. destruct (decide (p = next h)) as [->|Hne]; [by rewrite lookup_insert_eq|].
    rewrite lookup_insert_ne by done. apply H. by apply elem_of_cons in Hp as [|].
  - intros p [Hne Hp]%not_elem_of_cons. rewrite lookup_insert_ne by done. by apply H.
  - intros p [->|Hp]%elem_of_cons; [|by apply H]. rewrite <- (owns_frame fr h l H) by done. by apply Hok.
Qed.

Lemma owns_store fr h l p b : owns fr h l -> p ∈ l -> owns fr (mk_heap (<[p := b]> (blocks h)) (next h)) l.
Proof.
  intros H Hp. pose proof (owns_live fr h l H p Hp) as [b0 Hb0]. split; simpl.
  - intros q Hq. simpl in *. destruct (decide (q = p)) as [->|]; [by rewrite (owns_ok fr h l H) in Hb0|].
    rewrite lookup_insert_ne by done. by apply (owns_ok fr h l H).
  - apply H.
  - intros q Hq. destruct (decide (q = p)) as [->|]; [by rewrite lookup_insert_eq|].
    rewrite lookup_insert_ne by done. by apply H.
  - intros q Hq. rewrite lookup_insert_ne by (intros ->; done). by apply H.
  - apply H.
Qed.

Lemma owns_free fr h l p : owns fr h (p :: l) -> owns fr (mk_heap (delete p (blocks h)) (next h)) l.
Proof.
  intros H. pose proof (owns_nodup _ _ _ H) as [Hn Hnd]%NoDup_cons. split; simpl.
  - intros q Hq. simpl in *. apply lookup_delete_None. right. by apply (owns_ok _ _ _ H).
  - done.
  - intros q Hq. rewrite lookup_delete_ne by (intros ->; done). apply H. by right.
  - intros q Hq. destruct (decide (q = p)) as [->|].
    + rewrite lookup_delete_eq. symmetry. apply H. by left.
    + rewrite lookup_delete_ne by done. apply H. by apply not_elem_of_cons.
  - intros q Hq. apply H. by right.
Qed.

(** Nothing owned any more: the heap is the frame. *)
Lemma owns_done fr h : owns fr h [] -> blocks h = fr.
Proof. intros H. apply map_eq. intros p. apply H. by apply not_elem_of_nil. Qed.

(** Steps of a computation. *)
Lemma hbind_run {A C} (m : hm B A) (k : A -> hm B C) h a h' : m h = Some (a, h') -> hbind m k h = k a h'.
Proof. intros H. unfold hbind. by rewrite H. Qed.

Lemma store_at h p b b' : blocks h !! p = Some b -> hstore p b' h = Some (tt, mk_heap (<[p := b']> (blocks h)) (next h)).
Proof. intros H. unfold hstore. by rewrite H. Qed.

(** [free] of a block that is owned. *)
Lemma free_owned fr h p l :
  owns fr h (p :: l) -> hfree p h = Some (tt, mk_heap (delete p (blocks h)) (next h)) /\
  owns fr (mk_heap (delete p (blocks h)) (next h)) l.
Proof.
  intros H. destruct (owns_live _ _ _ H p) as [b Hb]; [by left|]. unfold hfree. rewrite Hb. split; [done|].
  by apply owns_free.
Qed.
End heap.

Notation "'let!' x := m 'in' k" := (hbind m (fun x => k)) (at level 200, x pattern, m at level 100, k at level 200).

(** Runs the first step of a sequence. *)
Ltac hrun E := rewrite (hbind_run _ _ _ _ _ E).
