(* ===== verification/SparseHeap.v ===== *)
(** * sparse_set_for_huge_domain_ids.c on the heap

    SparseSet.v takes the second-level pages as values inside the table. Here the
    set is what it is in memory: a struct with three pointers, a table of
    pointers to pages, and [malloc], [calloc] and [free] where the code calls
    them; every operation is translated again, statement by statement, on the
    heap of Heap.v. The theorems: each operation computes what its counterpart in
    SparseSet.v computes, never touches a block that is not live, and
    [ss_destroy] gives back exactly the blocks that the set had taken. The
    [malloc] of the struct may fail, which [ss_create] reports; the other
    allocations succeed, as the code does not look at their results. *)

From S2P Require Import Prelude SparseSet Heap.

(** struct sparse_set, with the addresses of its arrays. *)
Record ss_struct := mk_struct {
  p_dense : nat; p_sparse : nat; p_level2_counts : nat; p_count : Z; p_max_active : Z; p_universe_size : Z }.

Inductive block := Uninit | Words (l : list Z) | Ptrs (l : list (option nat)) | Struct (st : ss_struct).

Notation mem := (hm block).

Definition get_words (p : nat) : mem (list Z) :=
  let! b := hload p in hlift match b with Words l => Some l | _ => None end.
Definition get_ptrs (p : nat) : mem (list (option nat)) :=
  let! b := hload p in hlift match b with Ptrs l => Some l | _ => None end.
Definition get_struct (p : nat) : mem ss_struct :=
  let! b := hload p in hlift match b with Struct st => Some st | _ => None end.

Definition get_word (p : nat) (i : Z) : mem Z := let! l := get_words p in hlift l.[i].
Definition set_word (p : nat) (i x : Z) : mem unit :=
  let! l := get_words p in let! l := hlift l.[i <- x] in hstore p (Words l).
Definition get_ptr (p : nat) (i : Z) : mem (option nat) := let! l := get_ptrs p in hlift l.[i].
Definition set_ptr (p : nat) (i : Z) (q : option nat) : mem unit :=
  let! l := get_ptrs p in let! l := hlift l.[i <- q] in hstore p (Ptrs l).

Definition set_count (self : nat) (n : Z) : mem unit :=
  let! st := get_struct self in
  hstore self (Struct (mk_struct (p_dense st) (p_sparse st) (p_level2_counts st) n (p_max_active st) (p_universe_size st))).

(** [junk] is the uninitialised memory of [dense]; [ok] says whether the
    [malloc] of the struct succeeds, [NULL] is returned when it does not. *)
Definition h_create (ok : bool) (junk : list Z) (universe_size max_active : Z) : mem (option nat) :=
  if negb ok then hret None
  else
    let! self := halloc Uninit in
    let! d := halloc (Words junk) in
    let! sp := halloc (Ptrs (replicate (Z.to_nat LEVEL_SIZE) None)) in
    let! cs := halloc (Words (replicate (Z.to_nat LEVEL_SIZE) 0)) in
    let! _ := hstore self (Struct (mk_struct d sp cs 0 max_active universe_size)) in
    hret (Some self).

Definition h_contains (self : nat) (value : Z) : mem bool :=
  let! st := get_struct self in
  let! page := get_ptr (p_sparse st) (get_lvl1_idx value) in
  match page with
  | None => hret false
  | Some page => let! idx := get_word page (get_lvl2_idx value) in hret (negb (idx =? UINT32_MAX))
  end.

(** [s->sparse[lvl1][lvl2]], read and written through the pointer. *)
Definition h_entry (st : ss_struct) (value : Z) : mem Z :=
  let! page := get_ptr (p_sparse st) (get_lvl1_idx value) in
  let! page := hlift page in get_word page (get_lvl2_idx value).
Definition h_set_entry (st : ss_struct) (value x : Z) : mem unit :=
  let! page := get_ptr (p_sparse st) (get_lvl1_idx value) in
  let! page := hlift page in set_word page (get_lvl2_idx value) x.

Definition h_ensure_page (st : ss_struct) (lvl1_idx : Z) : mem unit :=
  let! page := get_ptr (p_sparse st) lvl1_idx in
  match page with
  | None =>
      let! p := halloc Uninit in
      let! _ := set_ptr (p_sparse st) lvl1_idx (Some p) in
      hstore p (Words (replicate (Z.to_nat LEVEL_SIZE) UINT32_MAX))
  | Some _ => hret tt
  end.

Definition h_add (self : nat) (value : Z) : mem Z :=
  let! present := h_contains self value in
  if present : bool then hret 0
  else
    let! st := get_struct self in
    if (p_max_active st <=? p_count st) || (p_universe_size st <? value) then hret (-1)
    else
      let! _ := h_ensure_page st (get_lvl1_idx value) in
      let! _ := h_set_entry st value (p_count st) in
      let! _ := set_word (p_dense st) (p_count st) value in
      let! _ := set_count self (p_count st +u32 1) in
      let! n := get_word (p_level2_counts st) (get_lvl1_idx value) in
      let! _ := set_word (p_level2_counts st) (get_lvl1_idx value) (n +u32 1) in
      hret 0.

(** [free(s->sparse[i]); s->sparse[i] = NULL]. *)
Definition h_free_page (st : ss_struct) (i : Z) : mem unit :=
  let! page := get_ptr (p_sparse st) i in
  let! _ := match page with Some p => hfree p | None => hret tt end in
  set_ptr (p_sparse st) i None.

Definition h_remove (self : nat) (value : Z) : mem Z :=
  let! present := h_contains self value in
  if negb present then hret (-1)
  else
    let! st := get_struct self in
    let! dense_idx := h_entry st value in
    let! last := get_word (p_dense st) (p_count st -u32 1) in
    let! _ := set_word (p_dense st) dense_idx last in
    let! moved_val := get_word (p_dense st) dense_idx in
    let! _ := h_set_entry st moved_val dense_idx in
    let! _ := h_set_entry st value UINT32_MAX in
    let! n := get_word (p_level2_counts st) (get_lvl1_idx value) in
    let! _ := set_word (p_level2_counts st) (get_lvl1_idx value) (n -u32 1) in
    let! _ := set_count self (p_count st -u32 1) in
    let! n := get_word (p_level2_counts st) (get_lvl1_idx value) in
    let! _ := (if n =? 0 then h_free_page st (get_lvl1_idx value) else hret tt) in
    hret 0.

(** The loop over [n] table entries, from [i]. *)
Fixpoint h_clear_loop (n : nat) (st : ss_struct) (i : Z) : mem unit :=
  match n with
  | O => hret tt
  | S n =>
      let! page := get_ptr (p_sparse st) i in
      let! _ := match page with Some _ => h_free_page st i | None => hret tt end in
      h_clear_loop n st (i + 1)
  end.

Definition h_clear (self : nat) : mem unit :=
  let! st := get_struct self in
  let! _ := h_clear_loop (Z.to_nat LEVEL_SIZE) st 0 in
  let! cs := get_words (p_level2_counts st) in
  let! _ := hstore (p_level2_counts st)
              (Words (replicate (Z.to_nat (LEVEL_SIZE / 4)) 0 ++ drop (Z.to_nat (LEVEL_SIZE / 4)) cs)) in
  set_count self 0.

Definition h_destroy (self : nat) : mem unit :=
  let! _ := h_clear self in
  let! st := get_struct self in
  let! _ := hfree (p_dense st) in
  let! _ := hfree (p_sparse st) in
  let! _ := hfree (p_level2_counts st) in
  hfree self.

(** ** What the heap holds for a set *)

Definition page_rep (m : gmap nat block) (p : option nat) (page : option (list Z)) : Prop :=
  match p, page with
  | None, None => True
  | Some p, Some page => m !! p = Some (Words page)
  | _, _ => False
  end.

Definition owned (self : nat) (st : ss_struct) (pt : list (option nat)) : list nat :=
  self :: p_dense st :: p_sparse st :: p_level2_counts st :: omap id pt.

(** The struct [st] at [self], the table [pt] of page pointers, and the contents:
    [dn] in [dense], [sp] in the pages, [cs] in [level2_counts]. *)
Record rep (fr : gmap nat block) (h : heap block) (self : nat) (st : ss_struct) (pt : list (option nat))
    (dn : list Z) (sp : list (option (list Z))) (cs : list Z) : Prop := {
  rep_owns : owns fr h (owned self st pt);
  rep_self : blocks h !! self = Some (Struct st);
  rep_dense : blocks h !! p_dense st = Some (Words dn);
  rep_sparse : blocks h !! p_sparse st = Some (Ptrs pt);
  rep_counts : blocks h !! p_level2_counts st = Some (Words cs);
  rep_pages : Forall2 (page_rep (blocks h)) pt sp
}.

(** The set [s] of SparseSet.v, at [self]. *)
Definition in_heap (fr : gmap nat block) (h : heap block) (self : nat) (s : sparse_set) : Prop :=
  exists st pt, rep fr h self st pt (dense s) (sparse s) (level2_counts s) /\
    p_count st = count s /\ p_max_active st = max_active s /\ p_universe_size st = universe_size s.

#[local] Opaque LEVEL_SIZE UINT32_MAX get_lvl1_idx get_lvl2_idx.

Implicit Types (h : heap block) (p q self : nat) (fr : gmap nat block).

(** *** Steps of a computation *)

Lemma get_words_at h p l : blocks h !! p = Some (Words l) -> get_words p h = Some (l, h).
Proof. intros H. unfold get_words, hbind, hload. by rewrite H. Qed.

Lemma get_ptrs_at h p l : blocks h !! p = Some (Ptrs l) -> get_ptrs p h = Some (l, h).
Proof. intros H. unfold get_ptrs, hbind, hload. by rewrite H. Qed.

Lemma get_struct_at h p st : blocks h !! p = Some (Struct st) -> get_struct p h = Some (st, h).
Proof. intros H. unfold get_struct, hbind, hload. by rewrite H. Qed.

Lemma get_word_at h p l i x : blocks h !! p = Some (Words l) -> l.[i] = Some x -> get_word p i h = Some (x, h).
Proof. intros H Hx. unfold get_word. rewrite (hbind_run _ _ _ _ _ (get_words_at _ _ _ H)). unfold hlift. by rewrite Hx. Qed.

Lemma get_ptr_at h p l i x : blocks h !! p = Some (Ptrs l) -> l.[i] = Some x -> get_ptr p i h = Some (x, h).
Proof. intros H Hx. unfold get_ptr. rewrite (hbind_run _ _ _ _ _ (get_ptrs_at _ _ _ H)). unfold hlift. by rewrite Hx. Qed.

Lemma set_word_at h p l l' i x :
  blocks h !! p = Some (Words l) -> l.[i <- x] = Some l' ->
  set_word p i x h = Some (tt, mk_heap (<[p := Words l']> (blocks h)) (next h)).
Proof.
  intros H Hx. unfold set_word. rewrite (hbind_run _ _ _ _ _ (get_words_at _ _ _ H)).
  unfold hbind, hlift. rewrite Hx. simpl. by apply (store_at _ _ _ _ H).
Qed.

Lemma set_ptr_at h p l l' i x :
  blocks h !! p = Some (Ptrs l) -> l.[i <- x] = Some l' ->
  set_ptr p i x h = Some (tt, mk_heap (<[p := Ptrs l']> (blocks h)) (next h)).
Proof.
  intros H Hx. unfold set_ptr. rewrite (hbind_run _ _ _ _ _ (get_ptrs_at _ _ _ H)).
  unfold hbind, hlift. rewrite Hx. simpl. by apply (store_at _ _ _ _ H).
Qed.

(** *** The pointers of a table *)

Lemma omap_take_out (pt : list (option nat)) i p :
  pt !! i = Some (Some p) -> omap id pt ≡ₚ p :: omap id (<[i := None]> pt).
Proof.
  revert i. induction pt as [|q pt IH]; intros [|i] H; simplify_eq/=; [done|].
  destruct q as [q|]; simpl; [|by apply IH]. rewrite (IH i H). apply Permutation_swap.
Qed.

Lemma omap_put_in (pt : list (option nat)) i p :
  pt !! i = Some None -> omap id (<[i := Some p]> pt) ≡ₚ p :: omap id pt.
Proof.
  intros H. rewrite (omap_take_out _ i p) by (apply list_lookup_insert_eq; by eapply lookup_lt_Some).
  by rewrite list_insert_insert_eq, (list_insert_id pt i None).
Qed.

Lemma omap_elem (pt : list (option nat)) i p : pt !! i = Some (Some p) -> p ∈ omap id pt.
Proof. intros H. rewrite (omap_take_out pt i p H). by left. Qed.

Lemma pages_keep m pt sp q b :
  Forall2 (page_rep m) pt sp -> q ∉ omap id pt -> Forall2 (page_rep (<[q := b]> m)) pt sp.
Proof.
  rewrite !Forall2_same_length_lookup. intros [Hl Hp] Hq. split; [done|]. intros i [p|] c Hi Hc; [|by apply (Hp i None)].
  specialize (Hp i _ c Hi Hc). destruct c as [c|]; [|done]. simpl in *.
  rewrite lookup_insert_ne; [done|]. intros ->. by apply Hq, (omap_elem _ i).
Qed.

Lemma pages_drop m pt sp q :
  Forall2 (page_rep m) pt sp -> q ∉ omap id pt -> Forall2 (page_rep (delete q m)) pt sp.
Proof.
  rewrite !Forall2_same_length_lookup. intros [Hl Hp] Hq. split; [done|]. intros i [p|] c Hi Hc; [|by apply (Hp i None)].
  specialize (Hp i _ c Hi Hc). destruct c as [c|]; [|done]. simpl in *.
  rewrite lookup_delete_ne; [done|]. intros ->. by apply Hq, (omap_elem _ i).
Qed.

(** *** Writing to the blocks of a set *)

Lemma owned_facts fr h self st pt dn sp cs (H : rep fr h self st pt dn sp cs) :
  NoDup [self; p_dense st; p_sparse st; p_level2_counts st] /\
  self ∉ omap id pt /\ p_dense st ∉ omap id pt /\ p_sparse st ∉ omap id pt /\ p_level2_counts st ∉ omap id pt.
Proof.
  pose proof (owns_nodup _ _ _ (rep_owns _ _ _ _ _ _ _ _ H)) as Hnd.
  change (owned self st pt) with ([self; p_dense st; p_sparse st; p_level2_counts st] ++ omap id pt) in Hnd.
  apply NoDup_app in Hnd as (H1 & H2 & _). split; [done|]. repeat split; apply H2; set_solver.
Qed.

(** Opens the distinctness facts of [rep] and looks a block up beside a write. *)
Ltac rep_facts H :=
  let Hnd := fresh "Hnd" in
  pose proof (owned_facts _ _ _ _ _ _ _ _ H) as (Hnd & ? & ? & ? & ?);
  rewrite !NoDup_cons, !not_elem_of_cons in Hnd; destruct Hnd as ((? & ? & ? & _) & (? & ? & _) & (? & _) & _).
Ltac beside := rewrite lookup_insert_ne by done.

Lemma rep_write_dense fr h self st pt dn sp cs dn' :
  rep fr h self st pt dn sp cs ->
  rep fr (mk_heap (<[p_dense st := Words dn']> (blocks h)) (next h)) self st pt dn' sp cs.
Proof.
  intros H. rep_facts H. destruct H as [Ho Hself Hdn Hsp Hcs Hpg]. split; simpl; try (by beside).
  - apply owns_store; [done|set_solver].
  - by rewrite lookup_insert_eq.
  - by apply pages_keep.
Qed.

Lemma rep_write_counts fr h self st pt dn sp cs cs' :
  rep fr h self st pt dn sp cs ->
  rep fr (mk_heap (<[p_level2_counts st := Words cs']> (blocks h)) (next h)) self st pt dn sp cs'.
Proof.
  intros H. rep_facts H. destruct H as [Ho Hself Hdn Hsp Hcs Hpg]. split; simpl; try (by beside).
  - apply owns_store; [done|set_solver].
  - by rewrite lookup_insert_eq.
  - by apply pages_keep.
Qed.

(** The scalar fields; the pointers stay. *)
Lemma rep_write_struct fr h self st st' pt dn sp cs :
  rep fr h self st pt dn sp cs ->
  p_dense st' = p_dense st -> p_sparse st' = p_sparse st -> p_level2_counts st' = p_level2_counts st ->
  rep fr (mk_heap (<[self := Struct st']> (blocks h)) (next h)) self st' pt dn sp cs.
Proof.
  intros H E1 E2 E3. rep_facts H. destruct H as [Ho Hself Hdn Hsp Hcs Hpg].
  split; simpl; rewrite ?E1, ?E2, ?E3; try (by beside).
  - unfold owned. rewrite E1, E2, E3. apply owns_store; [done|set_solver].
  - by rewrite lookup_insert_eq.
  - by apply pages_keep.
Qed.

(** A word of a page. *)
Lemma rep_write_page fr h self st pt dn sp cs i p page' :
  rep fr h self st pt dn sp cs -> pt !! i = Some (Some p) ->
  rep fr (mk_heap (<[p := Words page']> (blocks h)) (next h)) self st pt dn (<[i := Some page']> sp) cs.
Proof.
  intros H Hi. rep_facts H. destruct H as [Ho Hself Hdn Hsp Hcs Hpg]. pose proof (omap_elem _ _ _ Hi) as Hin.
  assert (Hne : forall q, q ∉ omap id pt -> p <> q) by (by intros q Hq ->).
  split; simpl; try (by rewrite lookup_insert_ne by (by apply Hne)).
  - apply owns_store; [done|]. unfold owned. rewrite !elem_of_cons. tauto.
  - rewrite Forall2_same_length_lookup in Hpg |- *.
    destruct Hpg as [Hl Hp]. split; [by rewrite length_insert|]. intros j q c Hq Hc.
    pose proof (lookup_lt_Some _ _ _ Hi) as Hlt.
    destruct (decide (j = i)) as [->|Hj].
    + rewrite list_lookup_insert_eq in Hc by lia. simplify_eq. simpl. by rewrite lookup_insert_eq.
    + rewrite list_lookup_insert_ne in Hc by done. specialize (Hp j q c Hq Hc).
      destruct q as [q|], c as [c|]; try done. simpl in *. rewrite lookup_insert_ne; [done|]. intros <-.
      pose proof (owns_nodup _ _ _ Ho) as Hnd. do 4 apply NoDup_cons in Hnd as [_ Hnd].
      rewrite (omap_take_out pt i p Hi) in Hnd. apply NoDup_cons in Hnd as [Hnd _]. apply Hnd.
      apply (omap_elem _ j). by rewrite list_lookup_insert_ne.
Qed.

(** The block a new page gets is not one of the set's. *)
Lemma rep_fresh fr h self st pt dn sp cs :
  rep fr h self st pt dn sp cs -> next h ∉ owned self st pt.
Proof. intros H. by eapply owns_fresh, H. Qed.

(** [malloc] of a page for an empty table entry, and the store of its address. *)
Lemma rep_new_page fr h self st pt dn sp cs i page b0 :
  rep fr h self st pt dn sp cs -> pt !! i = Some None ->
  rep fr (mk_heap (<[next h := Words page]> (<[p_sparse st := Ptrs (<[i := Some (next h)]> pt)]>
            (<[next h := b0]> (blocks h)))) (S (next h)))
    self st (<[i := Some (next h)]> pt) dn (<[i := Some page]> sp) cs.
Proof.
  intros H Hi. rep_facts H. pose proof (rep_fresh _ _ _ _ _ _ _ _ H) as Hf.
  unfold owned in Hf. rewrite !not_elem_of_cons in Hf. destruct Hf as (? & ? & ? & ? & Hf).
  destruct H as [Ho Hself Hdn Hsp Hcs Hpg]. split; simpl; try (by rewrite !lookup_insert_ne by done).
  - apply (owns_perm _ _ (next h :: owned self st pt)).
    + unfold owned. rewrite omap_put_in by done.
      apply (Permutation_middle [self; p_dense st; p_sparse st; p_level2_counts st]).
    + apply (owns_alloc fr h _ b0) in Ho. apply (owns_store _ _ _ (p_sparse st) (Ptrs (<[i:=Some (next h)]> pt))) in Ho;
        [|set_solver]. apply (owns_store _ _ _ (next h) (Words page)) in Ho; [done|by left].
  - rewrite lookup_insert_ne by done. by rewrite lookup_insert_eq.
  - apply Forall2_insert; [|by apply lookup_insert_eq]. apply pages_keep; [|done]. apply pages_keep; [|done].
    by apply pages_keep.
Qed.

(** [free] of a page, and the store of NULL. *)
Lemma rep_free_page fr h self st pt dn sp cs i p :
  rep fr h self st pt dn sp cs -> pt !! i = Some (Some p) ->
  rep fr (mk_heap (<[p_sparse st := Ptrs (<[i := None]> pt)]> (delete p (blocks h))) (next h))
    self st (<[i := None]> pt) dn (<[i := None]> sp) cs.
Proof.
  intros H Hi. rep_facts H. destruct H as [Ho Hself Hdn Hsp Hcs Hpg]. pose proof (omap_elem _ _ _ Hi) as Hin.
  assert (Hne : forall q, q ∉ omap id pt -> p <> q) by (by intros q Hq ->).
  pose proof (omap_take_out pt i p Hi) as Hperm.
  assert (Hsub : forall q, q ∉ omap id pt -> q ∉ omap id (<[i := None]> pt)).
  { intros q Hq Hq'. apply Hq. rewrite Hperm. by right. }
  apply (owns_perm _ _ _ (p :: owned self st (<[i := None]> pt))) in Ho.
  2: { unfold owned. rewrite Hperm. symmetry.
       apply (Permutation_middle [self; p_dense st; p_sparse st; p_level2_counts st]). }
  assert (Hp : p ∉ omap id (<[i := None]> pt)).
  { apply owns_nodup in Ho. apply NoDup_cons in Ho as [Ho _]. intros Hp. apply Ho. unfold owned. rewrite !elem_of_cons. tauto. }
  split; simpl; try (by rewrite lookup_insert_ne, lookup_delete_ne by (done || by apply Hne)).
  - apply owns_free in Ho. apply (owns_store _ _ _ (p_sparse st) (Ptrs (<[i:=None]> pt))) in Ho; [done|set_solver].
  - by rewrite lookup_insert_eq.
  - apply pages_keep; [|by apply Hsub]. apply pages_drop; [|done]. by apply Forall2_insert.
Qed.

(** ** The operations *)

(** Reading a table entry. *)
Lemma rep_table fr h self st pt dn sp cs i c :
  rep fr h self st pt dn sp cs -> sp.[i] = Some c ->
  exists q : option nat, get_ptr (p_sparse st) i h = Some (q, h) /\ pt !! Z.to_nat i = Some q /\ sp !! Z.to_nat i = Some c /\
    page_rep (blocks h) q c /\ 0 <= i < Z.of_nat (length pt).
Proof.
  intros H Hc. pose proof (arr_get_Some _ _ _ Hc) as Hi. pose proof (rep_pages _ _ _ _ _ _ _ _ H) as Hp.
  pose proof (Forall2_length _ _ _ Hp) as Hl. rewrite arr_get_nat in Hc by lia.
  destruct (lookup_lt_is_Some_2 pt (Z.to_nat i)) as [q Hq]; [lia|]. exists q. split_and!; [|done|done| |lia..].
  - eapply get_ptr_at; [apply H|]. rewrite arr_get_nat by lia. done.
  - by apply (Forall2_lookup_lr _ _ _ _ _ _ Hp Hq Hc).
Qed.

Lemma rep_table_page fr h self st pt dn sp cs i page :
  rep fr h self st pt dn sp cs -> sp.[i] = Some (Some page) ->
  exists p, get_ptr (p_sparse st) i h = Some (Some p, h) /\ pt !! Z.to_nat i = Some (Some p) /\
    blocks h !! p = Some (Words page) /\ 0 <= i < Z.of_nat (length pt).
Proof.
  intros H Hc. destruct (rep_table _ _ _ _ _ _ _ _ _ _ H Hc) as ([p|] & Hg & Hq & _ & Hp & Hi); [|done].
  by exists p.
Qed.

Lemma h_contains_sim fr h self s v b :
  in_heap fr h self s -> ss_contains s v = Some b -> h_contains self v h = Some (b, h).
Proof.
  intros (st & pt & H & _) Hb. unfold ss_contains in Hb. apply bind_Some in Hb as (c & Hc & Hb).
  unfold h_contains. hrun (get_struct_at _ _ _ (rep_self _ _ _ _ _ _ _ _ H)).
  destruct (rep_table _ _ _ _ _ _ _ _ _ _ H Hc) as (q & Hg & _ & _ & Hp & _).
  hrun Hg. destruct q as [p|], c as [page|]; try done; [|by simplify_eq].
  apply bind_Some in Hb as (x & Hx & [= <-]). by hrun (get_word_at _ _ _ _ _ Hp Hx).
Qed.

Lemma h_set_entry_sim fr h self st pt dn sp cs v x sp' :
  rep fr h self st pt dn sp cs -> sparse_set_entry sp v x = Some sp' ->
  exists h', h_set_entry st v x h = Some (tt, h') /\ rep fr h' self st pt dn sp' cs.
Proof.
  intros H Hs. unfold sparse_set_entry in Hs.
  apply bind_Some in Hs as (c & Hc & Hs). apply bind_Some in Hs as (page & -> & Hs).
  apply bind_Some in Hs as (page' & Hw & [Hi ->]%arr_set_Some).
  destruct (rep_table_page _ _ _ _ _ _ _ _ _ _ H Hc) as (p & Hg & Hq & Hp & _).
  unfold h_set_entry. hrun Hg. unfold hbind, hlift; simpl.
  rewrite (set_word_at _ _ _ _ _ _ Hp Hw). eexists. split; [done|]. by apply rep_write_page.
Qed.

Lemma entry_written_page sp v x sp' :
  sparse_set_entry sp v x = Some sp' -> exists page, sp'.[get_lvl1_idx v] = Some (Some page).
Proof.
  unfold sparse_set_entry. intros Hs. apply bind_Some in Hs as (c & _ & Hs). apply bind_Some in Hs as (pg & -> & Hs).
  apply bind_Some in Hs as (pg' & _ & [Hi ->]%arr_set_Some). exists pg'. by rewrite arr_get_insert_eq.
Qed.

Lemma h_ensure_page_sim fr h self st pt dn sp cs i sp' :
  rep fr h self st pt dn sp cs -> ensure_page sp i = Some sp' ->
  exists h' pt', h_ensure_page st i h = Some (tt, h') /\ rep fr h' self st pt' dn sp' cs.
Proof.
  intros H Hs. unfold ensure_page in Hs. apply bind_Some in Hs as (c & Hc & Hs).
  destruct (rep_table _ _ _ _ _ _ _ _ _ _ H Hc) as (q & Hg & Hq & _ & Hp & Hi).
  unfold h_ensure_page. hrun Hg.
  destruct q as [p|], c as [page|]; try done; [simplify_eq; by eexists _, _|].
  apply arr_set_Some in Hs as [_ ->]. pose proof (rep_fresh _ _ _ _ _ _ _ _ H) as Hf.
  erewrite hbind_run by reflexivity. erewrite hbind_run.
  2: { apply (set_ptr_at _ _ pt (<[Z.to_nat i := Some (next h)]> pt)); simpl.
       - rewrite lookup_insert_ne; [apply H|]. intros E. apply Hf. rewrite E. unfold owned. set_solver.
       - by apply arr_set_in. }
  erewrite store_at.
  2: { simpl. rewrite lookup_insert_ne, lookup_insert_eq; [done|]. intros E. apply Hf. rewrite <- E. unfold owned. set_solver. }
  eexists _, _. split; [done|]. by apply rep_new_page.
Qed.

Lemma set_count_sim fr h self st pt dn sp cs n :
  rep fr h self st pt dn sp cs ->
  let st' := mk_struct (p_dense st) (p_sparse st) (p_level2_counts st) n (p_max_active st) (p_universe_size st) in
  exists h', set_count self n h = Some (tt, h') /\ rep fr h' self st' pt dn sp cs.
Proof.
  intros H st'. unfold set_count. pose proof (rep_self _ _ _ _ _ _ _ _ H) as Hs.
  rewrite (hbind_run _ _ _ _ _ (get_struct_at _ _ _ Hs)), (store_at _ _ _ _ Hs).
  eexists. split; [done|]. by apply (rep_write_struct _ _ _ st).
Qed.

Lemma set_dense_sim fr h self st pt dn sp cs i x dn' :
  rep fr h self st pt dn sp cs -> dn.[i <- x] = Some dn' ->
  exists h', set_word (p_dense st) i x h = Some (tt, h') /\ rep fr h' self st pt dn' sp cs.
Proof.
  intros H Hw. rewrite (set_word_at _ _ _ _ _ _ (rep_dense _ _ _ _ _ _ _ _ H) Hw).
  eexists. split; [done|]. by eapply rep_write_dense.
Qed.

Lemma set_counts_sim fr h self st pt dn sp cs i x cs' :
  rep fr h self st pt dn sp cs -> cs.[i <- x] = Some cs' ->
  exists h', set_word (p_level2_counts st) i x h = Some (tt, h') /\ rep fr h' self st pt dn sp cs'.
Proof.
  intros H Hw. rewrite (set_word_at _ _ _ _ _ _ (rep_counts _ _ _ _ _ _ _ _ H) Hw).
  eexists. split; [done|]. by eapply rep_write_counts.
Qed.

Lemma h_free_page_sim fr h self st pt dn sp cs i page :
  rep fr h self st pt dn sp cs -> sp.[i] = Some (Some page) ->
  exists h', h_free_page st i h = Some (tt, h') /\
    rep fr h' self st (<[Z.to_nat i := None]> pt) dn (<[Z.to_nat i := None]> sp) cs.
Proof.
  intros H Hc. destruct (rep_table_page _ _ _ _ _ _ _ _ _ _ H Hc) as (p & Hg & Hq & Hp & Hi).
  unfold h_free_page. hrun Hg. erewrite hbind_run.
  2: { unfold hfree. rewrite Hp. reflexivity. }
  rewrite (set_ptr_at _ _ pt (<[Z.to_nat i := None]> pt)).
  - eexists. split; [done|]. by apply (rep_free_page fr h _ _ pt _ sp _ _ p).
  - simpl. rewrite lookup_delete_ne; [apply H|]. intros ->. rep_facts H. by apply omap_elem in Hq.
  - by apply arr_set_in.
Qed.

Lemma h_add_sim fr h self s v r s' :
  in_heap fr h self s -> ss_add s v = Some (r, s') ->
  exists h', h_add self v h = Some (r, h') /\ in_heap fr h' self s'.
Proof.
  intros Hin Hs. unfold ss_add in Hs. apply bind_Some in Hs as (b & Hb & Hs).
  unfold h_add. hrun (h_contains_sim _ _ _ _ _ _ Hin Hb).
  destruct b; [simplify_eq; by exists h|]. pose proof Hin as (st & pt & H & Ec & Em & Eu).
  hrun (get_struct_at _ _ _ (rep_self _ _ _ _ _ _ _ _ H)). rewrite Ec, Em, Eu.
  destruct (_ || _); [simplify_eq; by exists h|].
  apply bind_Some in Hs as (sp1 & H1 & Hs). apply bind_Some in Hs as (sp2 & H2 & Hs).
  apply bind_Some in Hs as (dn & H3 & Hs). apply bind_Some in Hs as (n & H4 & Hs).
  apply bind_Some in Hs as (cs & H5 & [= <- <-]).
  destruct (h_ensure_page_sim _ _ _ _ _ _ _ _ _ _ H H1) as (h1 & pt1 & E1 & R1). hrun E1.
  destruct (h_set_entry_sim _ _ _ _ _ _ _ _ _ _ _ R1 H2) as (h2 & E2 & R2). hrun E2.
  destruct (set_dense_sim _ _ _ _ _ _ _ _ _ _ _ R2 H3) as (h3 & E3 & R3). hrun E3.
  destruct (set_count_sim _ _ _ _ _ _ _ _ (count s +u32 1) R3) as (h4 & E4 & R4). hrun E4.
  hrun (get_word_at _ _ _ _ _ (rep_counts _ _ _ _ _ _ _ _ R4) H4).
  destruct (set_counts_sim _ _ _ _ _ _ _ _ _ _ _ R4 H5) as (h5 & E5 & R5). hrun E5.
  exists h5. split; [done|]. by eexists _, _.
Qed.

Lemma h_remove_sim fr h self s v r s' :
  in_heap fr h self s -> ss_remove s v = Some (r, s') ->
  exists h', h_remove self v h = Some (r, h') /\ in_heap fr h' self s'.
Proof.
  intros Hin Hs. unfold ss_remove in Hs. apply bind_Some in Hs as (b & Hb & Hs).
  unfold h_remove. hrun (h_contains_sim _ _ _ _ _ _ Hin Hb).
  destruct b; simpl in *; [|simplify_eq; by exists h]. pose proof Hin as (st & pt & H & Ec & Em & Eu).
  hrun (get_struct_at _ _ _ (rep_self _ _ _ _ _ _ _ _ H)). rewrite Ec.
  apply bind_Some in Hs as (c & H1 & Hs). apply bind_Some in Hs as (page & -> & Hs).
  apply bind_Some in Hs as (di & H2 & Hs). apply bind_Some in Hs as (last & H3 & Hs).
  apply bind_Some in Hs as (dn & H4 & Hs). apply bind_Some in Hs as (mv & H5 & Hs).
  apply bind_Some in Hs as (sp1 & H6 & Hs). apply bind_Some in Hs as (sp2 & H7 & Hs).
  apply bind_Some in Hs as (n & H8 & Hs). apply bind_Some in Hs as (cs & H9 & Hs).
  apply bind_Some in Hs as (sp3 & H10 & [= <- <-]).
  destruct (rep_table_page _ _ _ _ _ _ _ _ _ _ H H1) as (p & Hg & _ & Hp & _).
  erewrite hbind_run.
  2: { unfold h_entry. hrun Hg. unfold hbind at 1, hlift; simpl. by apply (get_word_at _ _ _ _ _ Hp H2). }
  hrun (get_word_at _ _ _ _ _ (rep_dense _ _ _ _ _ _ _ _ H) H3).
  destruct (set_dense_sim _ _ _ _ _ _ _ _ _ _ _ H H4) as (h1 & E1 & R1). hrun E1.
  hrun (get_word_at _ _ _ _ _ (rep_dense _ _ _ _ _ _ _ _ R1) H5).
  destruct (h_set_entry_sim _ _ _ _ _ _ _ _ _ _ _ R1 H6) as (h2 & E2 & R2). hrun E2.
  destruct (h_set_entry_sim _ _ _ _ _ _ _ _ _ _ _ R2 H7) as (h3 & E3 & R3). hrun E3.
  hrun (get_word_at _ _ _ _ _ (rep_counts _ _ _ _ _ _ _ _ R3) H8).
  destruct (set_counts_sim _ _ _ _ _ _ _ _ _ _ _ R3 H9) as (h4 & E4 & R4). hrun E4.
  destruct (set_count_sim _ _ _ _ _ _ _ _ (count s -u32 1) R4) as (h5 & E5 & R5). hrun E5.
  assert (Hn : cs.[get_lvl1_idx v] = Some (n -u32 1)).
  { apply arr_set_Some in H9 as [Hi ->]. by rewrite arr_get_insert_eq. }
  hrun (get_word_at _ _ _ _ _ (rep_counts _ _ _ _ _ _ _ _ R5) Hn).
  destruct (n -u32 1 =? 0); [|simplify_eq; exists h5; split; [done|by eexists _, _]].
  destruct (entry_written_page _ _ _ _ H7) as [page' Hpg]. apply arr_set_Some in H10 as [_ ->].
  destruct (h_free_page_sim _ _ _ _ _ _ _ _ _ _ R5 Hpg) as (h6 & E6 & R6).
  change (h_free_page st (get_lvl1_idx v) h5 = Some (tt, h6)) in E6. hrun E6.
  exists h6. split; [done|]. by eexists _, _.
Qed.

Lemma take_S_insert {A} (l : list A) i x : (i < length l)%nat -> take (S i) (<[i := x]> l) = take i l ++ [x].
Proof.
  intros Hi. rewrite (take_S_r _ _ x) by (by apply list_lookup_insert_eq). f_equal.
  rewrite take_insert. by rewrite decide_False by lia.
Qed.

Lemma h_clear_loop_sim n fr h self st pt dn sp cs i :
  rep fr h self st pt dn sp cs -> 0 <= i -> Z.of_nat (length pt) = i + Z.of_nat n ->
  exists h', h_clear_loop n st i h = Some (tt, h') /\
    rep fr h' self st (take (Z.to_nat i) pt ++ replicate n None) dn (take (Z.to_nat i) sp ++ replicate n None) cs.
Proof.
  revert h pt sp i. induction n as [|n IH]; intros h pt sp i H Hi Hl.
  - pose proof (Forall2_length _ _ _ (rep_pages _ _ _ _ _ _ _ _ H)). exists h. split; [done|].
    simpl. rewrite !app_nil_r, !take_ge by lia. done.
  - pose proof (Forall2_length _ _ _ (rep_pages _ _ _ _ _ _ _ _ H)) as Hls. cbn [h_clear_loop].
    destruct (arr_get_is_Some sp i) as [c Hc]; [lia|].
    destruct (rep_table _ _ _ _ _ _ _ _ _ _ H Hc) as (q & Hg & Hq & Hs & Hp & _). hrun Hg.
    assert (Hstep : exists h1, (match q with Some _ => h_free_page st i | None => hret tt end) h = Some (tt, h1) /\
      rep fr h1 self st (<[Z.to_nat i := None]> pt) dn (<[Z.to_nat i := None]> sp) cs).
    { destruct q as [p|], c as [page|]; try done; [by eapply h_free_page_sim|].
      exists h. split; [done|]. by rewrite !list_insert_id. }
    destruct Hstep as (h1 & E1 & R1). hrun E1.
    destruct (IH _ _ _ (i + 1) R1) as (h2 & E2 & R2); [lia|rewrite length_insert; lia|].
    exists h2. split; [done|]. replace (Z.to_nat (i + 1)) with (S (Z.to_nat i)) in R2 by lia.
    rewrite !take_S_insert in R2 by lia. by rewrite <- !app_assoc in R2.
Qed.

Lemma h_clear_sim fr h self s :
  in_heap fr h self s -> Z.of_nat (length (sparse s)) = LEVEL_SIZE ->
  exists h', h_clear self h = Some (tt, h') /\ in_heap fr h' self (ss_clear s).
Proof.
  intros (st & pt & H & Ec & Em & Eu) Hl.
  pose proof (Forall2_length _ _ _ (rep_pages _ _ _ _ _ _ _ _ H)) as Hls.
  unfold h_clear. hrun (get_struct_at _ _ _ (rep_self _ _ _ _ _ _ _ _ H)).
  destruct (h_clear_loop_sim (Z.to_nat LEVEL_SIZE) _ _ _ _ _ _ _ _ 0 H) as (h1 & E1 & R1); [lia|lia|]. hrun E1.
  hrun (get_words_at _ _ _ (rep_counts _ _ _ _ _ _ _ _ R1)).
  hrun (store_at _ _ _ (Words (replicate (Z.to_nat (LEVEL_SIZE / 4)) 0 ++
    drop (Z.to_nat (LEVEL_SIZE / 4)) (level2_counts s))) (rep_counts _ _ _ _ _ _ _ _ R1)).
  apply rep_write_counts with (cs' := replicate (Z.to_nat (LEVEL_SIZE / 4)) 0 ++
    drop (Z.to_nat (LEVEL_SIZE / 4)) (level2_counts s)) in R1.
  destruct (set_count_sim _ _ _ _ _ _ _ _ 0 R1) as (h2 & E2 & R2). rewrite E2.
  assert (Hnone : replicate (Z.to_nat LEVEL_SIZE) (@None (list Z)) = (fun _ => None) <$> sparse s).
  { rewrite <- Hl, Nat2Z.id. clear. induction (sparse s) as [|c sp IH]; [done|]. simpl. by f_equal. }
  cbn [Z.to_nat take app] in R2. rewrite Hnone in R2. exists h2. split; [done|]. eexists _, _. split; [exact R2|done].
Qed.

Lemma no_pages (m : gmap nat block) pt (sp : list (option (list Z))) :
  Forall2 (page_rep m) pt ((fun _ => None) <$> sp) -> omap id pt = [].
Proof.
  revert pt. induction sp as [|c sp IH]; intros pt H; simpl in H; inversion H as [|q ? pt' ? Hq Hr]; subst; [done|].
  destruct q; [done|]. simpl. by apply IH.
Qed.

Lemma omap_nones n : omap id (replicate n (@None nat)) = [].
Proof. by induction n. Qed.

Lemma h_destroy_sim fr h self s :
  in_heap fr h self s -> Z.of_nat (length (sparse s)) = LEVEL_SIZE ->
  exists h', h_destroy self h = Some (tt, h') /\ blocks h' = fr.
Proof.
  intros Hin Hl. destruct (h_clear_sim _ _ _ _ Hin Hl) as (h1 & E1 & st & pt & R & _).
  unfold h_destroy. hrun E1. hrun (get_struct_at _ _ _ (rep_self _ _ _ _ _ _ _ _ R)).
  pose proof (rep_owns _ _ _ _ _ _ _ _ R) as Ho. unfold owned in Ho.
  rewrite (no_pages _ _ _ (rep_pages _ _ _ _ _ _ _ _ R)) in Ho.
  apply (owns_perm _ _ _ [p_dense st; p_sparse st; p_level2_counts st; self]) in Ho;
    [|by rewrite (Permutation_cons_append _ self)].
  destruct (free_owned _ _ _ _ Ho) as [F1 O1]. hrun F1. destruct (free_owned _ _ _ _ O1) as [F2 O2]. hrun F2.
  destruct (free_owned _ _ _ _ O2) as [F3 O3]. hrun F3. destruct (free_owned _ _ _ _ O3) as [F4 O4]. rewrite F4.
  eexists. split; [done|]. by apply owns_done.
Qed.

Lemma h_create_sim h junk universe max :
  heap_ok h ->
  exists h', h_create true junk universe max h = Some (Some (next h), h') /\
    in_heap (blocks h) h' (next h) (ss_create junk universe max).
Proof.
  intros Hok. pose proof (owns_nil h Hok) as O0. unfold h_create. cbn [negb].
  erewrite !hbind_run by reflexivity. cbn [blocks next].
  erewrite hbind_run; [|apply (store_at _ _ Uninit); simpl; by rewrite !lookup_insert_ne, lookup_insert_eq by lia].
  eexists. split; [done|]. eexists (mk_struct _ _ _ _ _ _), _. split; [|split_and!; reflexivity].
  apply (owns_alloc _ _ _ Uninit) in O0. apply (owns_alloc _ _ _ (Words junk)) in O0.
  apply (owns_alloc _ _ _ (Ptrs (replicate (Z.to_nat LEVEL_SIZE) None))) in O0.
  apply (owns_alloc _ _ _ (Words (replicate (Z.to_nat LEVEL_SIZE) 0))) in O0. cbn [blocks next] in O0.
  split; cbn [blocks next p_dense p_sparse p_level2_counts ss_create dense sparse level2_counts].
  - eapply owns_perm; [|exact (owns_store _ _ _ (next h) _ O0 ltac:(set_solver))].
    unfold owned. rewrite omap_nones. cbn [p_dense p_sparse p_level2_counts].
    apply (Permutation_rev [S (S (S (next h))); S (S (next h)); S (next h); next h]).
  - by rewrite lookup_insert_eq.
  - by rewrite !lookup_insert_ne, lookup_insert_eq by lia.
  - by rewrite !lookup_insert_ne, lookup_insert_eq by lia.
  - by rewrite !lookup_insert_ne, lookup_insert_eq by lia.
  - apply Forall2_replicate. done.
Qed.

(** ** Properties *)

(** The calls of a client. *)
Definition h_step (self : nat) (o : ss_op) : mem Z :=
  match o with
  | Add v => h_add self v
  | Remove v => h_remove self v
  | Contains v => let! b := h_contains self v in hret (if b : bool then 1 else 0)
  | Clear => let! _ := h_clear self in hret 0
  end.

Fixpoint h_run (self : nat) (ops : list ss_op) : mem (list Z) :=
  match ops with
  | [] => hret []
  | o :: ops => let! r := h_step self o in let! rs := h_run self ops in hret (r :: rs)
  end.

(** From [ss_create] to [ss_destroy]; a client that got [NULL] makes no call. *)
Definition h_session (ok : bool) (junk : list Z) (universe max : Z) (ops : list ss_op) : mem (option (list Z)) :=
  let! created := h_create ok junk universe max in
  match created with
  | None => hret None
  | Some self =>
      let! rs := h_run self ops in
      let! _ := h_destroy self in
      hret (Some rs)
  end.

Lemma h_step_sim fr h self s o s' r :
  in_heap fr h self s -> Z.of_nat (length (sparse s)) = LEVEL_SIZE -> ss_step s o = Some (s', r) ->
  exists h', h_step self o h = Some (r, h') /\ in_heap fr h' self s'.
Proof.
  intros Hin Hl Hs. destruct o as [v|v|v|]; cbn [ss_step h_step] in *.
  - apply bind_Some in Hs as ([r0 s0] & Hs & [= <- <-]). by eapply h_add_sim.
  - apply bind_Some in Hs as ([r0 s0] & Hs & [= <- <-]). by eapply h_remove_sim.
  - apply bind_Some in Hs as (b & Hb & [= <- <-]). exists h. split; [|done]. by hrun (h_contains_sim _ _ _ _ _ _ Hin Hb).
  - injection Hs as <- <-. destruct (h_clear_sim _ _ _ _ Hin Hl) as (h' & E & R). exists h'. split; [by hrun E|done].
Qed.

Lemma h_run_sim fr h self n s A ops :
  in_heap fr h self s -> implements n s A -> Forall op_u32 ops -> n + Z.of_nat (length ops) < 2 ^ 32 ->
  exists h' s' A' rs, h_run self ops h = Some (rs, h') /\ in_heap fr h' self s' /\
    implements (n + Z.of_nat (length ops)) s' A' /\
    run_ops (fun A o => Some (set_step (max_active s) (universe_size s) A o)) A ops = Some (A', rs).
Proof.
  revert h n s A. induction ops as [|o ops IH]; intros h n s A Hin Hi Ho Hn.
  { exists h, s, A, []. by rewrite Z.add_0_r. }
  inversion Ho as [|? ? Ho1 Ho2]; subst. cbn [length] in *.
  destruct (ss_step_simulates n s A o Hi ltac:(lia) Ho1) as (s1 & Hs & Hi1 & Hm & Hu).
  assert (Hl : Z.of_nat (length (sparse s)) = LEVEL_SIZE) by (destruct Hi as (xs & Hw & _); apply Hw).
  destruct (h_step_sim _ _ _ _ _ _ _ Hin Hl Hs) as (h1 & E1 & R1).
  destruct (IH h1 (n + 1) s1 _ R1 Hi1 Ho2) as (h2 & s2 & A2 & rs & E2 & R2 & Hi2 & Hrun); [lia|].
  replace (n + Z.of_nat (S (length ops))) with (n + 1 + Z.of_nat (length ops)) by lia.
  eexists h2, s2, A2, _. split_and!; [|done|done|].
  - cbn [h_run]. hrun E1. by hrun E2.
  - cbn [run_ops]. rewrite Hm, Hu in Hrun. destruct (set_step _ _ A o) as [A1 r]. simpl in *. by rewrite Hrun.
Qed.

(** C5. The sparse set on the heap, over its whole life: [ss_create], any sequence of
    fewer than [2^32] calls of add, remove, contains and clear, for any universe,
    and [ss_destroy], on any heap. No call touches a block that is not live (no
    use after free, no double free, no null page), every call answers as the
    finite set does, and at the end the heap is what it was: all blocks of the
    set are freed, no other is touched. When the [malloc] of the struct fails,
    [ss_create] returns [NULL] and the heap is unchanged; the other allocations,
    whose results the code does not check, succeed. *)
Theorem sparse_set_heap_safe h ok junk universe max ops :
  heap_ok h -> Z.of_nat (length junk) = max -> max < 2 ^ 32 ->
  Forall op_u32 ops -> Z.of_nat (length ops) < 2 ^ 32 ->
  exists h' A' rs, h_session ok junk universe max ops h = Some (if ok then Some rs else None, h') /\
    blocks h' = blocks h /\
    run_ops (fun A o => Some (set_step max universe A o)) ∅ ops = Some (A', rs).
Proof.
  intros Hok Hj Hm Ho Hn. destruct (h_create_sim h junk universe max Hok) as (h1 & E1 & R1).
  pose proof (ss_create_implements junk universe max Hj Hm) as Hi.
  destruct (h_run_sim _ _ _ _ _ _ ops R1 Hi Ho Hn) as (h2 & s2 & A2 & rs & E2 & R2 & Hi2 & Hrun).
  destruct ok; [|by exists h, A2, rs].
  destruct (h_destroy_sim _ _ _ _ R2) as (h3 & E3 & Hl). { destruct Hi2 as (xs & Hw & _). apply Hw. }
  exists h3, A2, rs. split_and!; [|done|exact Hrun]. unfold h_session. hrun E1. hrun E2. by hrun E3.
Qed.

Lemma sparse_set_heap_safe_witness :
  exists h' A' rs, h_session true [7; 7] (2 ^ 31) 2 [Add (2 ^ 31); Add 5; Clear; Add (2 ^ 31); Remove (2 ^ 31)]
      (mk_heap ∅ 0) = Some (Some rs, h') /\
    blocks h' = ∅ /\
    run_ops (fun A o => Some (set_step 2 (2 ^ 31) A o)) ∅
      [Add (2 ^ 31); Add 5; Clear; Add (2 ^ 31); Remove (2 ^ 31)] = Some (A', rs).
Proof.
  apply (sparse_set_heap_safe (mk_heap ∅ 0) true [7; 7] (2 ^ 31) 2).
  - intros p _. apply lookup_empty.
  - reflexivity.
  - lia.
  - repeat (constructor; [simpl; unfold in_u; lia || done|]). constructor.
  - simpl. lia.
Defined.
