(* ===== verification/LogHeap.v ===== *)
(** * logstore.c on the heap, with a concurrent clean

    Logstore.v takes the buffer and the map of the store as values. Here they are
    blocks of the heap of Heap.v, and [logstore_clean] runs statement by
    statement: it reads the store without the lock, switches the two pointers
    under the lock, and frees the old blocks after it. A step is undefined when
    it touches a block that is not live or leaves an array.

    The thread system of this file takes the bodies of [logstore_put] and
    [logstore_get] and the switch, which are under the lock, as one step each,
    and is used for one writing thread, which is also the one that cleans: with
    it the gets of all others see its puts, also during a clean. LogThreads.v
    cuts puts and gets into their accesses, for puts of other threads beside a
    clean. *)

From S2P Require Import Prelude Threads Heap Logstore.

(** struct LogStore, with the addresses of its arrays. *)
Record ls_struct := mk_ls { lp_buffer : nat; lp_imap : nat; l_head : Z; l_capacity : Z; l_key_range : Z }.

Inductive lblock := LUninit | LEntries (l : list Entry) | LInts (l : list Z) | LStruct (st : ls_struct).

Notation lmem := (hm lblock).

Definition lget_struct (p : nat) : lmem ls_struct :=
  let! b := hload p in hlift match b with LStruct st => Some st | _ => None end.
Definition lget_entries (p : nat) : lmem (list Entry) :=
  let! b := hload p in hlift match b with LEntries l => Some l | _ => None end.
Definition lget_ints (p : nat) : lmem (list Z) :=
  let! b := hload p in hlift match b with LInts l => Some l | _ => None end.

Definition l_entry (p : nat) (i : Z) : lmem Entry := let! l := lget_entries p in hlift l.[i].
Definition l_set_entry (p : nat) (i : Z) (e : Entry) : lmem unit :=
  let! l := lget_entries p in let! l := hlift l.[i <- e] in hstore p (LEntries l).
Definition l_int (p : nat) (i : Z) : lmem Z := let! l := lget_ints p in hlift l.[i].
Definition l_set_int (p : nat) (i x : Z) : lmem unit :=
  let! l := lget_ints p in let! l := hlift l.[i <- x] in hstore p (LInts l).

Definition l_create (capacity key_range : Z) : lmem nat :=
  let! ls := halloc LUninit in
  let! b := halloc (LEntries (replicate (Z.to_nat capacity) (mk_Entry 0 0))) in
  let! m := halloc (LInts (replicate (Z.to_nat key_range) (-1))) in
  let! _ := hstore ls (LStruct (mk_ls b m 0 capacity key_range)) in
  hret ls.

Definition l_put (store : nat) (key value : Z) : lmem unit :=
  let! st := lget_struct store in
  let! _ := l_set_entry (lp_buffer st) (l_head st) (mk_Entry key value) in
  let! _ := l_set_int (lp_imap st) key (l_head st) in
  hstore store (LStruct (mk_ls (lp_buffer st) (lp_imap st) (l_head st + 1) (l_capacity st) (l_key_range st))).

Definition l_get (store : nat) (key : Z) : lmem Z :=
  let! st := lget_struct store in
  let! off := l_int (lp_imap st) key in
  if off <? 0 then hret (-1) else let! e := l_entry (lp_buffer st) off in hret (e_value e).

Definition l_destroy (store : nat) : lmem unit :=
  let! st := lget_struct store in
  let! _ := hfree (lp_buffer st) in
  let! _ := hfree (lp_imap st) in
  hfree store.

(** Where a thread is in [logstore_clean]; [junk] is the contents of the memory
    that [malloc] returns for the new buffer. *)
Inductive clean_pc :=
  | K_idle
  | K_check (junk : list Entry)
  | K_malloc (junk : list Entry)
  | K_loop (nb ni : nat) (i nh : Z)
  | K_copy (nb ni : nat) (i nh : Z)
  | K_old (nb ni : nat) (nh : Z)
  | K_switch (nb ni : nat) (nh : Z) (ob oi : nat)
  | K_free1 (ob oi : nat)
  | K_free2 (oi : nat).

Definition clean_step (store : nat) (pc : clean_pc) : lmem clean_pc :=
  match pc with
  | K_idle => hlift None
  | K_check junk =>
      let! st := lget_struct store in
      hret (if below_80_percent (l_head st) (l_capacity st) then K_idle else K_malloc junk)
  | K_malloc junk =>
      let! st := lget_struct store in
      let! nb := halloc (LEntries junk) in
      let! ni := halloc (LInts (replicate (Z.to_nat (l_key_range st)) (-1))) in
      hret (K_loop nb ni 0 0)
  | K_loop nb ni i nh =>
      let! st := lget_struct store in
      if i <? l_key_range st then
        let! off := l_int (lp_imap st) i in
        hret (if 0 <=? off then K_copy nb ni i nh else K_loop nb ni (i + 1) nh)
      else hret (K_old nb ni nh)
  | K_copy nb ni i nh =>
      let! st := lget_struct store in
      let! off := l_int (lp_imap st) i in
      let! e := l_entry (lp_buffer st) off in
      let! _ := l_set_entry nb nh e in
      let! _ := l_set_int ni i nh in
      hret (K_loop nb ni (i + 1) (nh + 1))
  | K_old nb ni nh =>
      let! st := lget_struct store in
      hret (K_switch nb ni nh (lp_buffer st) (lp_imap st))
  | K_switch nb ni nh ob oi =>
      let! st := lget_struct store in
      let! _ := hstore store (LStruct (mk_ls nb ni nh (l_capacity st) (l_key_range st))) in
      hret (K_free1 ob oi)
  | K_free1 ob oi => let! _ := hfree ob in hret (K_free2 oi)
  | K_free2 oi => let! _ := hfree oi in hret K_idle
  end.

Definition is_switch (pc : clean_pc) : bool := match pc with K_switch _ _ _ _ _ => true | _ => false end.

(** ** Threads *)

Inductive lcall := LPut (k v : Z) | LGet (k : Z) | LClean (junk : list Entry).

Record lthread := mk_lt { lt_pc : clean_pc; lt_calls : list lcall }.

(** Puts and gets as one step each: enough as long as the thread that cleans is
    the only one that puts, since the accesses of others are then all reads. *)
Definition l_tstep (store : nat) (h : heap lblock) (t : lthread) : option (heap lblock * lthread) :=
  match lt_pc t, lt_calls t with
  | K_idle, [] => None
  | K_idle, LPut k v :: cs => '(_, h) ← l_put store k v h; Some (h, mk_lt K_idle cs)
  | K_idle, LGet k :: cs => '(_, h) ← l_get store k h; Some (h, mk_lt K_idle cs)
  | K_idle, LClean junk :: cs => Some (h, mk_lt (K_check junk) cs)
  | pc, cs => '(pc, h) ← clean_step store pc h; Some (h, mk_lt pc cs)
  end.

(** ** What the heap holds *)

(** The store [s] of Logstore.v at [self], beside the blocks [extra] of a clean;
    [head] apart, which lags behind in the middle of a put. *)
Record lrep (fr : gmap nat lblock) (h : heap lblock) (self : nat) (st : ls_struct) (s : LogStore) (extra : list nat)
  : Prop := {
  lr_owns : owns fr h (self :: lp_buffer st :: lp_imap st :: extra);
  lr_self : blocks h !! self = Some (LStruct st);
  lr_buffer : blocks h !! lp_buffer st = Some (LEntries (buffer s));
  lr_imap : blocks h !! lp_imap st = Some (LInts (imap s));
  lr_cap : l_capacity st = capacity s;
  lr_range : l_key_range st = key_range s;
  lr_wf : wf s
}.

Definition clean_owned (pc : clean_pc) : list nat :=
  match pc with
  | K_idle | K_check _ | K_malloc _ => []
  | K_loop nb ni _ _ | K_copy nb ni _ _ | K_old nb ni _ | K_switch nb ni _ _ _ => [nb; ni]
  | K_free1 ob oi => [ob; oi]
  | K_free2 oi => [oi]
  end.

(** The new buffer, map and head so far: once switched to, they are a store. *)
Record new_ok (s : LogStore) (h : heap lblock) (nb ni : nat) (nh : Z) : Prop := {
  nk_entries : exists l, blocks h !! nb = Some (LEntries l) /\ Z.of_nat (length l) = capacity s /\
    exists m, blocks h !! ni = Some (LInts m) /\ Z.of_nat (length m) = key_range s /\
      forall k off, m.[k] = Some off -> 0 <= off -> off < nh /\ exists v, l.[off] = Some (mk_Entry k v);
  nk_head : 0 <= nh <= capacity s
}.

Definition clean_inv (s : LogStore) (st : ls_struct) (h : heap lblock) (pc : clean_pc) : Prop :=
  match pc with
  | K_idle | K_free1 _ _ | K_free2 _ => True
  | K_check junk | K_malloc junk => Z.of_nat (length junk) = capacity s
  | K_loop nb ni i nh =>
      new_ok s h nb ni nh /\ 0 <= i <= key_range s /\ nh <= Z.of_nat (length (live s i))
  | K_copy nb ni i nh =>
      new_ok s h nb ni nh /\ 0 <= i < key_range s /\ nh <= Z.of_nat (length (live s i)) /\ is_Some (slot s i)
  | K_old nb ni nh => new_ok s h nb ni nh
  | K_switch nb ni nh ob oi => new_ok s h nb ni nh /\ ob = lp_buffer st /\ oi = lp_imap st
  end.

(** As long as nobody puts, the new blocks hold exactly what the old ones do, for
    the keys seen so far. *)
Definition clean_exact (s : LogStore) (h : heap lblock) (pc : clean_pc) : Prop :=
  match pc with
  | K_loop nb ni i nh | K_copy nb ni i nh =>
      exists l m, blocks h !! nb = Some (LEntries l) /\ blocks h !! ni = Some (LInts m) /\ cleaned s i l m nh
  | K_old nb ni nh | K_switch nb ni nh _ _ =>
      exists l m, blocks h !! nb = Some (LEntries l) /\ blocks h !! ni = Some (LInts m) /\ cleaned s (key_range s) l m nh
  | _ => True
  end.

Implicit Types (h : heap lblock) (fr : gmap nat lblock) (s : LogStore) (st : ls_struct).

Lemma lstruct_at h p st : blocks h !! p = Some (LStruct st) -> lget_struct p h = Some (st, h).
Proof. intros H. unfold lget_struct, hbind, hload. by rewrite H. Qed.

Lemma l_int_at h p l i x : blocks h !! p = Some (LInts l) -> l.[i] = Some x -> l_int p i h = Some (x, h).
Proof. intros H Hx. unfold l_int, lget_ints, hbind, hload, hlift. rewrite H. simpl. by rewrite Hx. Qed.

Lemma l_entry_at h p l i x : blocks h !! p = Some (LEntries l) -> l.[i] = Some x -> l_entry p i h = Some (x, h).
Proof. intros H Hx. unfold l_entry, lget_entries, hbind, hload, hlift. rewrite H. simpl. by rewrite Hx. Qed.

Lemma l_set_int_at h p l i x l' :
  blocks h !! p = Some (LInts l) -> l.[i <- x] = Some l' ->
  l_set_int p i x h = Some (tt, mk_heap (<[p := LInts l']> (blocks h)) (next h)).
Proof.
  intros H Hx. unfold l_set_int, lget_ints, hbind, hload, hlift. rewrite H. simpl. rewrite Hx. simpl. by eapply store_at.
Qed.

Lemma l_set_entry_at h p l i x l' :
  blocks h !! p = Some (LEntries l) -> l.[i <- x] = Some l' ->
  l_set_entry p i x h = Some (tt, mk_heap (<[p := LEntries l']> (blocks h)) (next h)).
Proof.
  intros H Hx. unfold l_set_entry, lget_entries, hbind, hload, hlift. rewrite H. simpl. rewrite Hx. simpl. by eapply store_at.
Qed.

(** Keys that have an entry keep one, so there are not fewer of them. *)
Lemma live_mono s s' i :
  (forall k, is_Some (slot s k) -> is_Some (slot s' k)) -> (length (live s i) <= length (live s' i))%nat.
Proof.
  intros Hm. unfold live. induction (seqZ 0 i) as [|k ks IH]; [done|]. csimpl.
  pose proof (Hm k) as Hk. destruct (slot s k), (slot s' k); simpl; try lia.
  destruct Hk as [? [=]]. by eexists.
Qed.

(** *** A put *)

Lemma lput_spec fr h self st s extra k v :
  lrep fr h self st s extra -> l_head st = head s -> 0 <= k < key_range s -> head s < capacity s ->
  exists h' st' s', l_put self k v h = Some (tt, h') /\ lrep fr h' self st' s' extra /\ l_head st' = head s' /\
    lp_buffer st' = lp_buffer st /\ lp_imap st' = lp_imap st /\
    (forall p, p ∈ extra -> blocks h' !! p = blocks h !! p) /\
    (forall j, is_Some (slot s j) -> is_Some (slot s' j)) /\ capacity s' = capacity s /\ key_range s' = key_range s /\
    (forall M, represents s M -> represents s' (<[k := v]> M)).
Proof.
  intros [Ho Hs Hb Hm Ec Er Hw] Eh Hk Hh.
  destruct (put_correct s (store_map s) k v Hw (wf_represents s Hw) Hk Hh) as (s' & Hp & Hw' & HM' & Hh' & Hc' & Hr').
  unfold logstore_put in Hp. apply bind_Some in Hp as (b' & Hb' & Hp). apply bind_Some in Hp as (m' & Hm' & [= <-]).
  pose proof (owns_nodup _ _ _ Ho) as Hnd. rewrite !NoDup_cons, !not_elem_of_cons in Hnd.
  destruct Hnd as ((N1 & N2 & N3) & (N4 & N5) & N6 & _).
  unfold l_put. hrun (lstruct_at _ _ _ Hs). rewrite Eh.
  hrun (l_set_entry_at _ _ _ _ _ _ Hb Hb'). erewrite hbind_run.
  2: { eapply l_set_int_at; [|exact Hm']. simpl. rewrite lookup_insert_ne by done. exact Hm. }
  simpl. erewrite store_at by (simpl; rewrite !lookup_insert_ne by done; exact Hs).
  eexists _, (mk_ls (lp_buffer st) (lp_imap st) (head s + 1) (l_capacity st) (l_key_range st)), _.
  split; [done|]. split_and!; [|done|done|done| |clear Hh'|done|done|].
  - split; cbn [lp_buffer lp_imap l_head l_capacity l_key_range blocks next buffer imap head capacity key_range]; try done.
    + apply (owns_store _ (mk_heap _ _)); [|by left]. apply (owns_store _ (mk_heap _ _)); [|set_solver].
      apply owns_store; [done|set_solver].
    + by rewrite lookup_insert_eq.
    + rewrite !lookup_insert_ne by done. by rewrite lookup_insert_eq.
    + rewrite lookup_insert_ne by done. by rewrite lookup_insert_eq.
  - intros p Hp. simpl. rewrite !lookup_insert_ne; [done|intros E; by rewrite <- E in Hp..].
  - intros j Hj. specialize (HM' j). apply (fmap_is_Some e_value). rewrite <- HM'.
    destruct (decide (j = k)) as [->|]; [by rewrite lookup_insert_eq|]. rewrite lookup_insert_ne by done.
    rewrite (wf_represents s Hw j). by apply fmap_is_Some.
  - intros M HM. replace M with (store_map s); [done|]. apply map_eq. intros j. by rewrite HM, (wf_represents s Hw j).
Qed.

Lemma new_ok_keep s s' h h' nb ni nh :
  new_ok s h nb ni nh -> blocks h' !! nb = blocks h !! nb -> blocks h' !! ni = blocks h !! ni ->
  capacity s' = capacity s -> key_range s' = key_range s -> new_ok s' h' nb ni nh.
Proof.
  intros [(l & Hl & Hll & m & Hm & Hml & Hnew) Hh] E1 E2 Ec Er. split; [|by rewrite Ec].
  exists l. rewrite E1, Ec. split_and!; [done|done|]. exists m. rewrite E2, Er. done.
Qed.

(** A put beside a clean leaves the clean where it can go on. *)
Lemma clean_inv_put s s' st st' h h' pc :
  clean_inv s st h pc -> (forall p, p ∈ clean_owned pc -> blocks h' !! p = blocks h !! p) ->
  (forall j, is_Some (slot s j) -> is_Some (slot s' j)) -> capacity s' = capacity s -> key_range s' = key_range s ->
  lp_buffer st' = lp_buffer st -> lp_imap st' = lp_imap st -> clean_inv s' st' h' pc.
Proof.
  intros Hc Hb Hm Ec Er Eb Ei.
  destruct pc; cbn [clean_inv clean_owned] in *; rewrite ?Ec, ?Er, ?Eb, ?Ei; try done.
  - destruct Hc as (Hn & Hi & Hl). pose proof (live_mono s s' i Hm). split_and!; [|lia..].
    eapply new_ok_keep; [done|apply Hb; set_solver..|done|done].
  - destruct Hc as (Hn & Hi & Hl & Hs). pose proof (live_mono s s' i Hm). split_and!; [|lia..|by apply Hm].
    eapply new_ok_keep; [done|apply Hb; set_solver..|done|done].
  - eapply new_ok_keep; [done|apply Hb; set_solver..|done|done].
  - destruct Hc as (Hn & -> & ->). split; [|done]. eapply new_ok_keep; [done|apply Hb; set_solver..|done|done].
Qed.

(** *** The steps of a clean *)

Lemma clean_malloc fr h self st s junk :
  lrep fr h self st s [] -> Z.of_nat (length junk) = capacity s ->
  exists h' nb ni, clean_step self (K_malloc junk) h = Some (K_loop nb ni 0 0, h') /\
    lrep fr h' self st s [nb; ni] /\ clean_inv s st h' (K_loop nb ni 0 0) /\ clean_exact s h' (K_loop nb ni 0 0).
Proof.
  intros [Ho Hs Hb Hm Ec Er Hw] Hj. pose proof (owns_fresh _ _ _ Ho) as Hf.
  rewrite !not_elem_of_cons in Hf. destruct Hf as (F1 & F2 & F3 & _).
  pose proof (owns_alloc _ _ _ (LEntries junk) Ho) as O1.
  pose proof (owns_alloc _ _ _ (LInts (replicate (Z.to_nat (l_key_range st)) (-1))) O1) as O2.
  pose proof (owns_fresh _ _ _ O1) as Hf2. rewrite !not_elem_of_cons in Hf2. destruct Hf2 as (G0 & G1 & G2 & G3 & _).
  cbn [blocks next] in *. unfold clean_step. hrun (lstruct_at _ _ _ Hs). erewrite !hbind_run by reflexivity. cbn [blocks next].
  eexists _, _, _. split; [done|]. split_and!.
  - split; cbn [blocks next]; try done; try (by rewrite !lookup_insert_ne by done).
    eapply owns_perm; [|exact O2]. set (a := next h). set (b := S (next h)).
    change (b :: [a; self; lp_buffer st; lp_imap st] ≡ₚ [self; lp_buffer st; lp_imap st] ++ [a; b]).
    rewrite (Permutation_app_comm _ [a; b]). apply Permutation_swap.
  - pose proof (wf_head s Hw). pose proof (wf_range s Hw). cbn [clean_inv]. split_and!; [|lia|lia|simpl; lia]. split; [|lia].
    eexists. cbn [blocks]. rewrite lookup_insert_ne, lookup_insert_eq by lia. split_and!; [done|done|].
    eexists. rewrite lookup_insert_eq. split_and!; [done|rewrite length_replicate, Er; lia|].
    intros k off Hk Hoff. pose proof (arr_get_Some _ _ _ Hk) as Hr. rewrite arr_get_nat in Hk by lia.
    apply lookup_replicate in Hk as [-> _]. lia.
  - eexists _, _. cbn [blocks]. rewrite lookup_insert_ne, !lookup_insert_eq by lia. split_and!; [done|done|].
    rewrite Er. by apply cleaned_start.
Qed.

Lemma clean_loop_step fr h self st s nb ni i nh :
  lrep fr h self st s [nb; ni] -> clean_inv s st h (K_loop nb ni i nh) ->
  exists pc', clean_step self (K_loop nb ni i nh) h = Some (pc', h) /\ clean_owned pc' = [nb; ni] /\ clean_inv s st h pc' /\
    (clean_exact s h (K_loop nb ni i nh) -> clean_exact s h pc').
Proof.
  intros [Ho Hs Hb Hm Ec Er Hw] (Hn & Hi & Hl). unfold clean_step. hrun (lstruct_at _ _ _ Hs). rewrite Er.
  destruct (Z.ltb_spec i (key_range s)) as [Hlt|Hge]; [|eexists; split; [done|]; split_and!; [done|done|]; cbn [clean_exact]; by replace (key_range s) with i by lia].
  destruct (arr_get_is_Some (imap s) i) as [off Hoff]; [rewrite (wf_range s Hw); lia|].
  hrun (l_int_at _ _ _ _ _ Hm Hoff). eexists. split; [done|]. destruct (Z.leb_spec 0 off).
  - split; [done|]. cbn [clean_inv]. split_and!; [done|lia..| |done].
    destruct (slot_of_off s i off Hw Hoff) as (v & Hv & _); [done|]. by rewrite Hv.
  - split; [done|]. cbn [clean_inv]. split_and!; [done|lia..| |].
    + rewrite live_snoc, length_app by lia. lia.
    + intros (l & m & El & Em & C). exists l, m. split_and!; [done|done|]. apply cleaned_skip; [done|lia|done|].
      unfold slot. rewrite Hoff. simpl. by rewrite (proj2 (Z.leb_gt 0 off)) by lia.
Qed.

(** The writes of one copied entry: the copy is of key [i], which has an entry. *)
Lemma copy_write fr h self st s nb ni i nh e :
  lrep fr h self st s [nb; ni] -> clean_inv s st h (K_copy nb ni i nh) -> e_key e = i ->
  exists h', (let! _ := l_set_entry nb nh e in l_set_int ni i nh) h = Some (tt, h') /\
    lrep fr h' self st s [nb; ni] /\ clean_inv s st h' (K_loop nb ni (i + 1) (nh + 1)) /\
    (clean_exact s h (K_copy nb ni i nh) -> slot s i = Some e -> clean_exact s h' (K_loop nb ni (i + 1) (nh + 1))).
Proof.
  intros [Ho Hs Hb Hm Ec Er Hw] (Hn & Hi & Hl & [e0 He]) Hke.
  pose proof (live_length s (i + 1) Hw ltac:(lia)) as Hlen. pose proof (live_snoc s i ltac:(lia)) as Hsn.
  rewrite He in Hsn. rewrite Hsn, length_app in Hlen. simpl in Hlen.
  pose proof (wf_head s Hw) as Hhd. pose proof Hn as [(l & El & Ll & m & Em & Lm & Hnew) Hnh].
  pose proof (owns_nodup _ _ _ Ho) as Hnd. rewrite !NoDup_cons, !not_elem_of_cons in Hnd.
  destruct Hnd as ((N1 & N2 & N3 & N4 & _) & (N5 & N6 & N7 & _) & (N8 & N9 & _) & (N10 & _) & _).
  assert (Hset : l.[nh <- e] = Some (<[Z.to_nat nh := e]> l)) by (apply arr_set_in; lia).
  assert (Hset' : m.[i <- nh] = Some (<[Z.to_nat i := nh]> m)) by (apply arr_set_in; lia).
  hrun (l_set_entry_at _ _ _ _ _ _ El Hset). erewrite l_set_int_at;
    [|simpl; rewrite lookup_insert_ne by done; exact Em|exact Hset'].
  eexists. split; [done|]. split_and!.
  - split; cbn [blocks next]; try done; try (by rewrite !lookup_insert_ne by done).
    apply (owns_store _ (mk_heap _ _)); [|set_solver]. apply owns_store; [done|set_solver].
  - cbn [clean_inv]. split_and!; [|lia|lia|rewrite Hsn, length_app; simpl; lia]. split; [|lia].
    eexists. cbn [blocks]. rewrite lookup_insert_ne, lookup_insert_eq by done.
    split_and!; [done|by rewrite length_insert|]. eexists. rewrite lookup_insert_eq.
    split_and!; [done|by rewrite length_insert|]. intros k o Hk Hko. destruct (decide (k = i)) as [->|Hne].
    + rewrite arr_get_insert_eq in Hk by lia. injection Hk as <-. split; [lia|].
      rewrite arr_get_insert_eq by lia. destruct e as [ek ev]. simpl in Hke. subst ek. by eexists.
    + rewrite arr_get_insert_ne in Hk by lia. destruct (Hnew k o Hk Hko) as (? & v & Hv). split; [lia|].
      exists v. by rewrite arr_get_insert_ne by lia.
  - intros (l2 & m2 & E1 & E2 & C) Hslot. rewrite El in E1. rewrite Em in E2. injection E1 as <-. injection E2 as <-.
    destruct (cleaned_step s i l m nh e Hw Hi C Hslot) as (l' & m' & S1 & S2 & C').
    rewrite Hset in S1. rewrite Hset' in S2. injection S1 as <-. injection S2 as <-.
    eexists _, _. cbn [blocks]. rewrite lookup_insert_ne, !lookup_insert_eq by done. by split_and!.
Qed.

(** A key that has an entry: its offset, below the head, and the entry. *)
Lemma slot_off s i e :
  wf s -> slot s i = Some e ->
  exists off, (imap s).[i] = Some off /\ 0 <= off < head s /\ (buffer s).[off] = Some e /\ e_key e = i.
Proof.
  intros Hw He. destruct (slot_key s i e Hw He) as [Hke _]. unfold slot in He.
  apply bind_Some in He as (off & Hoff & He). destruct (Z.leb_spec 0 off) as [Ho0|]; [|done].
  exists off. split_and!; [done|done|by eapply wf_imap|done|done].
Qed.

Lemma clean_copy_step fr h self st s nb ni i nh :
  lrep fr h self st s [nb; ni] -> clean_inv s st h (K_copy nb ni i nh) ->
  exists h', clean_step self (K_copy nb ni i nh) h = Some (K_loop nb ni (i + 1) (nh + 1), h') /\
    lrep fr h' self st s [nb; ni] /\ clean_inv s st h' (K_loop nb ni (i + 1) (nh + 1)) /\
    (clean_exact s h (K_copy nb ni i nh) -> clean_exact s h' (K_loop nb ni (i + 1) (nh + 1))).
Proof.
  intros R Hc. pose proof Hc as (_ & _ & _ & [e He]).
  destruct (slot_off s i e (lr_wf _ _ _ _ _ _ R) He) as (off & Hoff & _ & Hb & Hke).
  destruct (copy_write _ _ _ _ _ _ _ _ _ _ R Hc Hke) as (h' & Ew & R' & Hc' & Hx).
  exists h'. split_and!; [|done|done|by intros C; apply Hx].
  unfold clean_step. hrun (lstruct_at _ _ _ (lr_self _ _ _ _ _ _ R)).
  hrun (l_int_at _ _ _ _ _ (lr_imap _ _ _ _ _ _ R) Hoff). hrun (l_entry_at _ _ _ _ _ (lr_buffer _ _ _ _ _ _ R) Hb).
  unfold hbind in Ew |- *. destruct (l_set_entry nb nh e h) as [[? h1]|]; simpl in *; [|done]. by rewrite Ew.
Qed.

Lemma clean_switch_step fr h self st s nb ni nh :
  lrep fr h self st s [nb; ni] -> new_ok s h nb ni nh ->
  exists h' st' s', clean_step self (K_switch nb ni nh (lp_buffer st) (lp_imap st)) h =
      Some (K_free1 (lp_buffer st) (lp_imap st), h') /\
    lrep fr h' self st' s' [lp_buffer st; lp_imap st] /\ l_head st' = head s' /\ capacity s' = capacity s /\ key_range s' = key_range s /\
    (clean_exact s h (K_old nb ni nh) -> forall k, slot s' k = slot s k).
Proof.
  intros [Ho Hs Hb Hm Ec Er Hw] [(l & El & Ll & m & Em & Lm & Hnew) Hnh].
  pose proof (owns_nodup _ _ _ Ho) as Hnd. rewrite !NoDup_cons, !not_elem_of_cons in Hnd.
  destruct Hnd as ((N1 & N2 & N3 & N4 & _) & (N5 & N6 & N7 & _) & (N8 & N9 & _) & (N10 & _) & _).
  unfold clean_step. hrun (lstruct_at _ _ _ Hs). hrun (store_at _ _ _ (LStruct (mk_ls nb ni nh (l_capacity st) (l_key_range st))) Hs).
  eexists _, (mk_ls nb ni nh (l_capacity st) (l_key_range st)), (mk_LogStore l m nh (capacity s) (key_range s)).
  split; [done|]. split_and!; [|done|done|done|].
  2: { intros (l2 & m2 & E1 & E2 & C). rewrite El in E1. rewrite Em in E2. injection E1 as <-. injection E2 as <-.
       apply (cleaned_wf s l m nh Hw C). }
  split; cbn [blocks next lp_buffer lp_imap l_head l_capacity l_key_range buffer imap head capacity key_range]; try done.
  - apply (owns_perm _ _ (self :: lp_buffer st :: lp_imap st :: [nb; ni])).
    + constructor. apply (Permutation_app_comm [lp_buffer st; lp_imap st] [nb; ni]).
    + apply owns_store; [done|by left].
  - by rewrite lookup_insert_eq.
  - by rewrite lookup_insert_ne.
  - by rewrite lookup_insert_ne.
  - pose proof (wf_int s Hw). split; cbn [buffer imap head capacity key_range]; done.
Qed.

(** [free] of a block that the store does not use. *)
Lemma lrep_free fr h self st s p extra :
  lrep fr h self st s (p :: extra) ->
  exists h', hfree p h = Some (tt, h') /\ lrep fr h' self st s extra.
Proof.
  intros [Ho Hs Hb Hm Ec Er Hw]. pose proof (owns_nodup _ _ _ Ho) as Hnd.
  rewrite !NoDup_cons, !not_elem_of_cons in Hnd. destruct Hnd as ((_ & _ & N1 & _) & (_ & N2 & _) & (N3 & _) & _).
  apply (owns_perm _ _ _ (p :: [self; lp_buffer st; lp_imap st] ++ extra)) in Ho;
    [|symmetry; apply (Permutation_middle [self; lp_buffer st; lp_imap st])].
  destruct (free_owned _ _ _ _ Ho) as [E O]. eexists. split; [exact E|].
  split; cbn [blocks]; try done; by rewrite lookup_delete_ne.
Qed.

Lemma clean_step_spec fr h self st s pc :
  lrep fr h self st s (clean_owned pc) -> clean_inv s st h pc -> pc <> K_idle ->
  exists pc' h' st' s', clean_step self pc h = Some (pc', h') /\ lrep fr h' self st' s' (clean_owned pc') /\
    clean_inv s' st' h' pc' /\ capacity s' = capacity s /\ key_range s' = key_range s /\
    (l_head st = head s -> l_head st' = head s') /\ (is_switch pc = false -> st' = st /\ s' = s) /\
    (clean_exact s h pc -> clean_exact s' h' pc' /\ forall k, slot s' k = slot s k).
Proof.
  intros R Hc Hi. pose proof (lstruct_at _ _ _ (lr_self _ _ _ _ _ _ R)) as Hs.
  destruct pc as [|junk|junk|nb ni i nh|nb ni i nh|nb ni nh|nb ni nh ob oi|ob oi|oi]; [done|..].
  - eexists _, h, st, s. split; [unfold clean_step; by hrun Hs|]. by destruct (below_80_percent _ _).
  - destruct (clean_malloc _ _ _ _ _ _ R Hc) as (h' & nb & ni & E & R' & Hc' & Hx). by eexists _, h', st, s.
  - destruct (clean_loop_step _ _ _ _ _ _ _ _ _ R Hc) as (pc' & E & Eo & Hc' & Hx). exists pc', h, st, s.
    rewrite Eo. split_and!; [done..|]. by intros H%Hx.
  - destruct (clean_copy_step _ _ _ _ _ _ _ _ _ R Hc) as (h' & E & R' & Hc' & Hx).
    eexists _, h', st, s. split_and!; [done..|]. by intros H%Hx.
  - eexists _, h, st, s. split; [unfold clean_step; by hrun Hs|]. done.
  - destruct Hc as (Hn & -> & ->). destruct (clean_switch_step _ _ _ _ _ _ _ _ R Hn) as (h' & st' & s' & E & R' & Eh & Ec & Er & Hx).
    eexists _, h', st', s'. split_and!; [done..|]. intros H. split; [done|by apply Hx].
  - destruct (lrep_free _ _ _ _ _ _ _ R) as (h' & E & R'). eexists _, h', st, s. split; [unfold clean_step; by hrun E|]. done.
  - destruct (lrep_free _ _ _ _ _ _ _ R) as (h' & E & R'). eexists _, h', st, s. split; [unfold clean_step; by hrun E|]. done.
Qed.

Lemma lget_spec fr h self st s extra k :
  lrep fr h self st s extra -> 0 <= k < key_range s ->
  exists v, l_get self k h = Some (v, h) /\ logstore_get s k = Some v.
Proof.
  intros [Ho Hs Hb Hm Ec Er Hw] Hk. unfold l_get. hrun (lstruct_at _ _ _ Hs).
  destruct (arr_get_is_Some (imap s) k) as [off Hoff]; [rewrite (wf_range s Hw); lia|].
  unfold logstore_get. rewrite Hoff. simpl. hrun (l_int_at _ _ _ _ _ Hm Hoff).
  destruct (Z.ltb_spec off 0); [by eexists|]. destruct (wf_imap s Hw k off Hoff) as (_ & v & Hv); [done|].
  hrun (l_entry_at _ _ _ _ _ Hb Hv). rewrite Hv. by eexists.
Qed.

(** ** The calls of a client *)

#[export] Instance clean_pc_idle_dec (pc : clean_pc) : Decision (pc = K_idle).
Proof. destruct pc; [by left|by right..]. Defined.

Definition call_ok (cap range : Z) (c : lcall) : Prop :=
  match c with LPut k _ | LGet k => 0 <= k < range | LClean junk => Z.of_nat (length junk) = cap end.

Lemma tstep_clean self h pc cs :
  pc <> K_idle -> l_tstep self h (mk_lt pc cs) = ('(pc, h) ← clean_step self pc h; Some (h, mk_lt pc cs)).
Proof. by destruct pc. Qed.

(** A put that succeeds found room. *)
Lemma lput_room fr self h st s extra k v r :
  lrep fr h self st s extra -> l_head st = head s -> l_put self k v h = Some r -> head s < capacity s.
Proof.
  intros [Ho Hs Hb Hm Ec Er Hw] Eh Hp. unfold l_put in Hp. rewrite (hbind_run _ _ _ _ _ (lstruct_at _ _ _ Hs)), Eh in Hp.
  pose proof (wf_head s Hw). pose proof (wf_cap s Hw). destruct (decide (head s < capacity s)) as [|Hn]; [done|exfalso].
  assert (Hnone : l_set_entry (lp_buffer st) (head s) (mk_Entry k v) h = None).
  { unfold l_set_entry, lget_entries, hbind, hload, hlift. rewrite Hb. simpl. by rewrite arr_set_out by lia. }
  unfold hbind at 1 in Hp. by rewrite Hnone in Hp.
Qed.

Lemma l_create_spec h cap range :
  heap_ok h -> 0 <= cap < 2 ^ 31 -> 0 <= range ->
  exists h' st, l_create cap range h = Some (next h, h') /\
    lrep (blocks h) h' (next h) st (logstore_create cap range) [] /\ l_head st = 0.
Proof.
  intros Hok Hc Hr. pose proof (owns_nil h Hok) as O0. unfold l_create.
  erewrite !hbind_run by reflexivity. cbn [blocks next].
  erewrite hbind_run; [|apply (store_at _ _ LUninit); simpl; by rewrite !lookup_insert_ne, lookup_insert_eq by lia].
  eexists _, (mk_ls _ _ _ _ _). split; [done|]. split; [|done].
  apply (owns_alloc _ _ _ LUninit) in O0.
  apply (owns_alloc _ _ _ (LEntries (replicate (Z.to_nat cap) (mk_Entry 0 0)))) in O0.
  apply (owns_alloc _ _ _ (LInts (replicate (Z.to_nat range) (-1)))) in O0. cbn [blocks next] in O0.
  split; cbn [blocks next lp_buffer lp_imap l_head l_capacity l_key_range logstore_create buffer imap head capacity key_range].
  - eapply owns_perm; [|exact (owns_store _ _ _ (next h) _ O0 ltac:(set_solver))].
    apply (Permutation_rev [S (S (next h)); S (next h); next h]).
  - by rewrite lookup_insert_eq.
  - by rewrite !lookup_insert_ne, lookup_insert_eq by lia.
  - by rewrite !lookup_insert_ne, lookup_insert_eq by lia.
  - done.
  - done.
  - by apply create_implements.
Qed.

Lemma l_destroy_spec fr h self st s :
  lrep fr h self st s [] -> exists h', l_destroy self h = Some (tt, h') /\ blocks h' = fr.
Proof.
  intros [Ho Hs _ _ _ _ _]. unfold l_destroy. hrun (lstruct_at _ _ _ Hs).
  apply (owns_perm _ _ _ [lp_buffer st; lp_imap st; self]) in Ho; [|by rewrite (Permutation_cons_append _ self)].
  destruct (free_owned _ _ _ _ Ho) as [F1 O1]. hrun F1. destruct (free_owned _ _ _ _ O1) as [F2 O2]. hrun F2.
  destruct (free_owned _ _ _ _ O2) as [F3 O3]. rewrite F3. eexists. split; [done|]. by apply owns_done.
Qed.

(** ** One writing thread *)

(** The map after the puts of a sequence of calls. *)
Definition puts (cs : list lcall) : gmap Z Z :=
  foldl (fun M c => match c with LPut k v => <[k := v]> M | _ => M end) ∅ cs.

Lemma puts_snoc cs c : puts (cs ++ [c]) = match c with LPut k v => <[k := v]> (puts cs) | _ => puts cs end.
Proof. unfold puts. by rewrite foldl_app. Qed.

Section one_writer.
Context (cap range : Z) (fr : gmap nat lblock) (self : nat) (calls0 : list lcall).

Definition reads (t : lthread) : Prop :=
  lt_pc t = K_idle /\ Forall (fun c => match c with LGet k => 0 <= k < range | _ => False end) (lt_calls t).

(** The store holds the puts that thread 0 has made, also in the middle of a clean. *)
Definition w_inv (h : heap lblock) (ts : list lthread) : Prop :=
  exists st s pc rest done, ts !! 0%nat = Some (mk_lt pc rest) /\ calls0 = done ++ rest /\
    lrep fr h self st s (clean_owned pc) /\ l_head st = head s /\ clean_inv s st h pc /\ clean_exact s h pc /\
    represents s (puts done) /\ capacity s = cap /\ key_range s = range /\ Forall (call_ok cap range) rest /\
    (forall i t, ts !! i = Some t -> i <> 0%nat -> reads t).

Lemma w_inv_other h ts i t t' :
  i <> 0%nat -> reads t' -> w_inv h ts -> ts !! i = Some t -> w_inv h (<[i := t']> ts).
Proof.
  intros Hne Hr (st & s & pc & rest & dn & H0 & E & R & Eh & Hc & Hx & HM & Ec & Er & Hok & Hoth) Hi.
  exists st, s, pc, rest, dn. split_and!; try done; [by rewrite list_lookup_insert_ne|].
  intros j tj [(-> & -> & _)|[_ Hj]]%list_lookup_insert_Some Hj0; [done|by eapply Hoth].
Qed.

Lemma w_inv_step i h ts t h' t' :
  w_inv h ts -> ts !! i = Some t -> l_tstep self h t = Some (h', t') -> w_inv h' (<[i := t']> ts).
Proof.
  intros I Hi Ht. pose proof I as (st & s & pc & rest & dn & H0 & E & R & Eh & Hc & Hx & HM & Ec & Er & Hok & Hoth).
  destruct (decide (i = 0%nat)) as [->|Hne].
  2: { destruct (Hoth i t Hi Hne) as [Hpc Hgets]. destruct t as [pc' cs]. cbn [lt_pc lt_calls] in *. subst pc'.
       unfold l_tstep in Ht; cbn [lt_pc lt_calls] in Ht. destruct cs as [|[k v|k|junk] cs]; try done;
         apply Forall_cons in Hgets as [Hk Hgets]; try done.
       apply bind_Some in Ht as ([r h1] & Hg & [= <- <-]). destruct (lget_spec _ _ _ _ _ _ k R) as (v & E' & _); [lia|].
       rewrite Hg in E'. injection E' as -> ->. by eapply w_inv_other. }
  rewrite H0 in Hi. injection Hi as <-. pose proof (lookup_lt_Some _ _ _ H0) as Hlen.
  assert (Hback : forall h' st' s' pc' rest' dn', calls0 = dn' ++ rest' -> lrep fr h' self st' s' (clean_owned pc') -> l_head st' = head s' ->
    clean_inv s' st' h' pc' -> clean_exact s' h' pc' -> represents s' (puts dn') -> capacity s' = cap -> key_range s' = range ->
    Forall (call_ok cap range) rest' -> w_inv h' (<[0%nat := mk_lt pc' rest']> ts)).
  { intros h2 st' s' pc' rest' dn' E' R' Eh' Hc' Hx' HM' Ec' Er' Hok'. exists st', s', pc', rest', dn'.
    split_and!; try done; [by rewrite list_lookup_insert_eq|].
    intros j tj [(-> & _)|[_ Hj]]%list_lookup_insert_Some Hj0; [done|by eapply Hoth]. }
  destruct (decide (pc = K_idle)) as [->|Hpc].
  - unfold l_tstep in Ht; cbn [lt_pc lt_calls] in Ht. destruct rest as [|c rest]; [done|].
    apply Forall_cons in Hok as [Hk Hok]. assert (E' : calls0 = (dn ++ [c]) ++ rest) by (by rewrite <- app_assoc).
    pose proof (puts_snoc dn c) as Hsn. destruct c as [k v|k|junk]; simpl in Hk.
    + apply bind_Some in Ht as ([[] h1] & Hp & [= <- <-]).
      pose proof (lput_room _ _ _ _ _ _ _ _ _ R Eh Hp) as Hroom.
      destruct (lput_spec _ _ _ _ _ _ k v R Eh) as (h2 & st' & s' & Ep & R' & Eh' & _ & _ & _ & _ & Ec' & Er' & HM'); [lia|done|].
      rewrite Hp in Ep. injection Ep as <-. eapply Hback; rewrite ?Ec', ?Er'; try done. rewrite Hsn. by apply HM'.
    + apply bind_Some in Ht as ([r h1] & Hg & [= <- <-]). destruct (lget_spec _ _ _ _ _ _ k R) as (v & Eg & _); [lia|].
      rewrite Hg in Eg. injection Eg as -> ->. eapply Hback; try done. by rewrite Hsn.
    + injection Ht as <- <-. eapply Hback; try done; [simpl; lia|by rewrite Hsn].
  - rewrite tstep_clean in Ht by done.
    destruct (clean_step_spec _ _ _ _ _ _ R Hc Hpc) as (pc' & h1 & st' & s' & Es & R' & Hc' & Ec' & Er' & Eh' & _ & Hx').
    specialize (Eh' Eh).
    rewrite Es in Ht. injection Ht as <- <-. destruct (Hx' Hx) as [Hx1 Hsl].
    eapply Hback; rewrite ?Ec', ?Er'; try done. intros k. rewrite Hsl. apply HM.
Qed.
End one_writer.

(** C7. The log store with one writing thread is a map on every schedule: thread 0
    puts, gets and cleans, the others get. At any moment, also in the
    middle of a clean, a get of any key, by whatever thread, returns the value that
    thread 0 has put last, or -1. (A put of another thread during a clean can be
    lost: [clean_loses_concurrent_put].) *)
Theorem logstore_single_writer h cap range calls0 readers :
  heap_ok h -> 0 <= cap < 2 ^ 31 -> 0 <= range -> Forall (call_ok cap range) calls0 -> Forall (reads range) readers ->
  exists store h0, l_create cap range h = Some (store, h0) /\
  forall h1 ts1, rtc (sys_step (l_tstep store)) (h0, mk_lt K_idle calls0 :: readers) (h1, ts1) ->
    exists done rest pc, ts1 !! 0%nat = Some (mk_lt pc rest) /\ calls0 = done ++ rest /\
      forall k, 0 <= k < range -> l_get store k h1 = Some (default (-1) (puts done !! k), h1).
Proof.
  intros Hok Hc Hr Hcalls Hread. destruct (l_create_spec h cap range Hok Hc Hr) as (h0 & st & E & R & Eh).
  exists (next h), h0. split; [done|]. intros h1 ts1 Hreach.
  assert (I : w_inv cap range (blocks h) (next h) calls0 h1 ts1).
  { refine (thread_invariant (l_tstep (next h)) (w_inv cap range (blocks h) (next h) calls0) h0 _ _ _ h1 ts1 Hreach).
    - exists st, (logstore_create cap range), K_idle, calls0, []. split_and!; try done.
      + by apply create_implements.
      + intros [|i] t Hi Hi0; [done|]. by apply (Forall_lookup_1 _ _ _ _ Hread Hi).
    - intros i s ls l s' l' HI Hi Ht. by eapply w_inv_step. }
  destruct I as (st1 & s1 & pc & rest & dn & H0 & E1 & R1 & _ & _ & _ & HM & _ & Er & _ & _).
  exists dn, rest, pc. split_and!; [done|done|]. intros k Hk.
  destruct (lget_spec _ _ _ _ _ _ k R1) as (v & Eg & Ev); [lia|]. rewrite Eg.
  rewrite (get_correct s1 _ k (lr_wf _ _ _ _ _ _ R1) HM) in Ev by lia. by injection Ev as <-.
Qed.

Lemma logstore_single_writer_witness :
  exists store h0, l_create 5 2 (mk_heap ∅ 0) = Some (store, h0) /\
  forall h1 ts1, rtc (sys_step (l_tstep store))
      (h0, mk_lt K_idle [LPut 0 7; LClean (replicate 5 (mk_Entry 0 0)); LPut 1 3] :: [mk_lt K_idle [LGet 0; LGet 1]]) (h1, ts1) ->
    exists done rest pc, ts1 !! 0%nat = Some (mk_lt pc rest) /\
      [LPut 0 7; LClean (replicate 5 (mk_Entry 0 0)); LPut 1 3] = done ++ rest /\
      forall k, 0 <= k < 2 -> l_get store k h1 = Some (default (-1) (puts done !! k), h1).
Proof.
  apply (logstore_single_writer (mk_heap ∅ 0) 5 2).
  - intros p _. apply lookup_empty.
  - lia.
  - lia.
  - repeat (constructor; [simpl; lia|]). constructor.
  - constructor; [|constructor]. split; [done|]. repeat (constructor; [lia|]). constructor.
Defined.
