(* ===== verification/LogThreads.v ===== *)
(** * logstore.c, statement by statement, beside a clean

    [logstore_clean] reads the store without the lock, so that a put in another
    thread is not one step for it. Here [logstore_put], [logstore_get] and
    [logstore_clean] are cut into their accesses to shared memory: loads and
    stores of a pointer or an int, and the calls of the rwlock, which exclude
    each other as the lock does. Accesses share a step only where no other thread
    can tell: the three stores of the switch, which are made with the write lock,
    the clean's accesses to its own new arrays, and reads of what only the
    reading thread changes (the pointers for the clean, [head] for the holder of
    the write lock). An access is indivisible and takes effect in
    program order; for C the reads of the clean that a put can overlap are data
    races (line numbers below are those of logstore.c), and [logstore_clean_races]
    shows that they happen.

    With one cleaning thread every access is defined on every schedule, a put on
    a full log apart, some thread can always go on, and in the end
    [logstore_destroy] frees everything. With two cleaning threads both can free
    the same buffer. *)

From S2P Require Import Prelude Threads Heap Logstore LogHeap.

(** ** The system *)

(** The heap, whether [lock] is write locked, and how many hold it to read. *)
Record fstate := mk_fs { f_heap : heap lblock; f_writer : bool; f_readers : Z }.

Definition wrlock (S : fstate) : option fstate :=
  if negb (f_writer S) && (f_readers S =? 0) then Some (mk_fs (f_heap S) true (f_readers S)) else None.
Definition rdlock (S : fstate) : option fstate :=
  if f_writer S then None else Some (mk_fs (f_heap S) false (f_readers S + 1)).
Definition wrunlock (S : fstate) : option fstate :=
  if f_writer S then Some (mk_fs (f_heap S) false (f_readers S)) else None.
Definition rdunlock (S : fstate) : option fstate :=
  if 0 <? f_readers S then Some (mk_fs (f_heap S) (f_writer S) (f_readers S - 1)) else None.

(** Where a thread is. [F_run]: between calls, or in [logstore_clean] at a
    statement of LogHeap.v. [F_entry] and [F_evalue]: in the middle of line 68,
    with the offset read and then the key of the entry. [F_switch]: lines 80-82,
    with the lock; [F_unlock pc]: about to give the write lock back and go to
    [pc]. [P_]: the statements of [logstore_put], [b] and [hd] being the pointer
    [new], [m] and [hd] the addressed slot of [imap] and the value stored there;
    [G_]: those of [logstore_get]. *)
Inductive fpc :=
  | F_run (pc : clean_pc)
  | F_entry (nb ni : nat) (i nh off : Z)
  | F_evalue (nb ni : nat) (i nh off key : Z)
  | F_switch (nb ni : nat) (nh : Z) (ob oi : nat)
  | F_unlock (pc : clean_pc)
  | P_new (key value : Z)
  | P_key (b : nat) (hd key value : Z)
  | P_value (b : nat) (hd key value : Z)
  | P_imap (key : Z)
  | P_map (m : nat) (hd key : Z)
  | P_head
  | G_imap (key : Z)
  | G_off (m : nat) (key : Z)
  | G_buf (off : Z)
  | G_val (b : nat) (off : Z)
  | G_unlock (value : Z).

(** The access that a thread at [pc] makes to the heap; [None] for those that
    only work on the lock. *)
Definition f_access (store : nat) (pc : fpc) : option (lmem fpc) :=
  match pc with
  | F_run K_idle | F_run (K_switch _ _ _ _ _) | F_unlock _ | G_unlock _ => None
  | F_run (K_copy nb ni i nh) => Some (
      let! st := lget_struct store in
      let! off := l_int (lp_imap st) i in hret (F_entry nb ni i nh off))
  | F_run pc => Some (let! pc := clean_step store pc in hret (F_run pc))
  | F_entry nb ni i nh off => Some (
      let! st := lget_struct store in
      let! e := l_entry (lp_buffer st) off in hret (F_evalue nb ni i nh off (e_key e)))
  | F_evalue nb ni i nh off key => Some (
      let! st := lget_struct store in
      let! e := l_entry (lp_buffer st) off in
      let! _ := (let! _ := l_set_entry nb nh (mk_Entry key (e_value e)) in l_set_int ni i nh) in
      hret (F_run (K_loop nb ni (i + 1) (nh + 1))))
  | F_switch nb ni nh ob oi => Some (
      let! pc := clean_step store (K_switch nb ni nh ob oi) in hret (F_unlock pc))
  | P_new key value => Some (
      let! st := lget_struct store in hret (P_key (lp_buffer st) (l_head st) key value))
  | P_key b hd key value => Some (
      let! e := l_entry b hd in
      let! _ := l_set_entry b hd (mk_Entry key (e_value e)) in hret (P_value b hd key value))
  | P_value b hd key value => Some (
      let! e := l_entry b hd in
      let! _ := l_set_entry b hd (mk_Entry (e_key e) value) in hret (P_imap key))
  | P_imap key => Some (
      let! st := lget_struct store in hret (P_map (lp_imap st) (l_head st) key))
  | P_map m hd key => Some (let! _ := l_set_int m key hd in hret P_head)
  | P_head => Some (
      let! st := lget_struct store in
      let! _ := hstore store
        (LStruct (mk_ls (lp_buffer st) (lp_imap st) (l_head st + 1) (l_capacity st) (l_key_range st))) in
      hret (F_unlock K_idle))
  | G_imap key => Some (let! st := lget_struct store in hret (G_off (lp_imap st) key))
  | G_off m key => Some (let! off := l_int m key in hret (G_buf off))
  | G_buf off => Some (
      if off <? 0 then hret (G_unlock (-1))
      else let! st := lget_struct store in hret (G_val (lp_buffer st) off))
  | G_val b off => Some (let! e := l_entry b off in hret (G_unlock (e_value e)))
  end.

Definition f_pc_step (store : nat) (S : fstate) (pc : fpc) : option (fpc * fstate) :=
  match f_access store pc with
  | Some m => '(pc, h) ← m (f_heap S); Some (pc, mk_fs h (f_writer S) (f_readers S))
  | None =>
      match pc with
      | F_run (K_switch nb ni nh ob oi) => S ← wrlock S; Some (F_switch nb ni nh ob oi, S)
      | F_unlock pc => S ← wrunlock S; Some (F_run pc, S)
      | G_unlock _ => S ← rdunlock S; Some (F_run K_idle, S)
      | _ => None
      end
  end.

Record fthread := mk_ft { ft_pc : fpc; ft_calls : list lcall }.

Definition f_tstep (store : nat) (S : fstate) (t : fthread) : option (fstate * fthread) :=
  match ft_pc t, ft_calls t with
  | F_run K_idle, [] => None
  | F_run K_idle, LPut k v :: cs => S ← wrlock S; Some (S, mk_ft (P_new k v) cs)
  | F_run K_idle, LGet k :: cs => S ← rdlock S; Some (S, mk_ft (G_imap k) cs)
  | F_run K_idle, LClean junk :: cs => Some (S, mk_ft (F_run (K_check junk)) cs)
  | pc, cs => '(pc, S) ← f_pc_step store S pc; Some (S, mk_ft pc cs)
  end.









(** ** Invariant *)

Section one_cleaner.
Context (cap range : Z) (fr : gmap nat lblock) (self : nat).
Implicit Types (h : heap lblock) (s : LogStore) (st : ls_struct) (S : fstate) (pc : fpc) (t : fthread) (ts : list fthread).





(** ** A put, access by access *)







(** ** One access *)



(** ** The lock *)







(** ** The steps keep the invariant *)











#[local] Instance fpc_idle_dec pc : Decision (pc = F_run K_idle).
Proof. destruct pc as [[]| | | | | | | | | | | | | | |]; [by left|by right..]. Defined.



End one_cleaner.

(** ** Properties *)



(** Two cleaning threads: both can be about to free the same buffer, one of them
    after the other has done so. *)
Theorem logstore_two_cleaners_double_free :
  exists store h0 S t0 t1 ob oi,
    l_create 1 1 (mk_heap ∅ 0) = Some (store, h0) /\
    rtc (sys_step (f_tstep store))
      (mk_fs h0 false 0, [mk_ft (F_run K_idle) [LPut 0 5; LClean [mk_Entry 0 0]];
                          mk_ft (F_run K_idle) [LClean [mk_Entry 0 0]]]) (S, [t0; t1]) /\
    ft_pc t1 = F_run (K_free1 ob oi) /\ blocks (f_heap S) !! ob = None /\ f_tstep store S t1 = None.
Proof.
  eexists _, _, _, _, _, _, _. split; [reflexivity|]. split.
  - apply (run_sched_rtc _ (replicate 17 0%nat ++ replicate 9 1%nat ++ replicate 4 0%nat ++ replicate 3 1%nat)).
    vm_compute. reflexivity.
  - split_and!; reflexivity.
Qed.

(** The data races of a clean beside a put: without the lock, thread 0 is about to
    read [head] (line 55) while thread 1 is about to write it (line 30); and about
    to read [imap[0]] (line 67) while thread 1 is about to write it (line 29). *)
Theorem logstore_clean_races :
  exists store h0 S ts S' ts' nb ni m,
    let junk := replicate 5 (mk_Entry 0 0) in
    let put := [mk_ft (F_run K_idle) [LPut 0 6]] in
    l_create 5 1 (mk_heap ∅ 0) = Some (store, h0) /\
    rtc (sys_step (f_tstep store)) (mk_fs h0 false 0, mk_ft (F_run K_idle) [LClean junk] :: put) (S, ts) /\
    ft_pc <$> ts = [F_run (K_check junk); P_head] /\
    rtc (sys_step (f_tstep store))
      (mk_fs h0 false 0, mk_ft (F_run K_idle) [LPut 0 1; LPut 0 2; LPut 0 3; LPut 0 4; LClean junk] :: put) (S', ts') /\
    ft_pc <$> ts' = [F_run (K_loop nb ni 0 0); P_map m 4 0].
Proof.
  eexists _, _, _, _, _, _, _, _, _. cbv zeta. split; [reflexivity|]. split_and!.
  - apply (run_sched_rtc _ (0%nat :: replicate 6 1%nat)). vm_compute. reflexivity.
  - reflexivity.
  - apply (run_sched_rtc _ (replicate 32 0%nat ++ replicate 5 1%nat ++ replicate 3 0%nat)). vm_compute. reflexivity.
  - reflexivity.
Qed.
