(* ===== verification/Submasks.v ===== *)
(** * bitmask_backtracking.c: all submasks of a mask

    [generate_submasks] counts the bits of the mask by clearing the lowest one
    until none is left, and then enumerates the submasks downwards with
    [s = (s - 1) & mask]. Both loops are given fuel here (33 rounds, and one more
    than the array has elements); the theorems show that it is never used up.
    [1 << k] is an [int] shift, undefined from [k = 31] on. *)

From S2P Require Import Prelude.

Fixpoint count_bits (fuel : nat) (i k : Z) : option Z :=
  match fuel with
  | O => None
  | S fuel => if i =? 0 then Some k else count_bits fuel (Z.land i (i -u32 1)) (k + 1)
  end.

Fixpoint submask_loop (fuel : nat) (mask s idx : Z) (out : list Z) : option (Z * list Z) :=
  match fuel with
  | O => None
  | S fuel =>
      if s =? 0 then Some (idx, out)
      else out ← out.[idx <- s]; submask_loop fuel mask (Z.land (s -u32 1) mask) (idx + 1) out
  end.

(** The result, [*out_count] and the array; [None] arguments are null pointers. *)
Definition generate_submasks (mask : Z) (out : option (list Z)) (out_cap : Z) (out_count : option Z)
  : option (Z * option Z * option (list Z)) :=
  match out_count with
  | None => Some (-1, None, out)
  | Some _ =>
      match out with
      | None => Some (if negb (mask =? 0) then (-2, Some 0, None) else (0, Some 1, None))
      | Some o =>
          k ← count_bits 33 mask 0;
          if 31 <=? k then None
          else if out_cap <? 2 ^ k then Some (-3, Some 0, out)
          else
            o ← o.[0 <- 0];
            '(idx, o) ← submask_loop (S (length o)) mask mask 1 o;
            Some (0, Some idx, Some o)
      end
  end.

(** ** Lemmas *)

Definition submask (x mask : Z) : Prop := 0 <= x /\ Z.land x mask = x.

Fixpoint popcount (p : positive) : Z :=
  match p with xH => 1 | xO p => popcount p | xI p => popcount p + 1 end.

Lemma land_00 a b : Z.land (2 * a) (2 * b) = 2 * Z.land a b.
Proof.
  rewrite !(Z.mul_comm 2), <- !(Z.shiftl_mul_pow2 _ 1) by lia. symmetry. apply Z.shiftl_land.
Qed.

Lemma lor_1 a : 2 * a + 1 = Z.lor (2 * a) 1.
Proof.
  symmetry. rewrite <- Z.add_lor_land. enough (Z.land (2 * a) 1 = 0) by lia.
  change 1 with (Z.ones 1). rewrite Z.land_ones by lia. rewrite Z.mul_comm. apply Z.mod_mul. lia.
Qed.

Lemma land_even_1 a : Z.land (2 * a) 1 = 0.
Proof. change 1 with (Z.ones 1). rewrite Z.land_ones, Z.mul_comm by lia. apply Z.mod_mul. lia. Qed.

Lemma land_01 a b : Z.land (2 * a) (2 * b + 1) = 2 * Z.land a b.
Proof. rewrite lor_1, Z.land_lor_distr_r, land_even_1, land_00. apply Z.lor_0_r. Qed.

Lemma land_10 a b : Z.land (2 * a + 1) (2 * b) = 2 * Z.land a b.
Proof. rewrite Z.land_comm, land_01. by rewrite Z.land_comm. Qed.

Lemma land_11 a b : Z.land (2 * a + 1) (2 * b + 1) = 2 * Z.land a b + 1.
Proof.
  rewrite (lor_1 a), (lor_1 b), lor_1, Z.land_lor_distr_r, !Z.land_lor_distr_l.
  rewrite land_00, land_even_1, (Z.land_comm 1 (2 * b)), land_even_1. simpl.
  rewrite Z.lor_0_r. done.
Qed.

(** Clearing the lowest bit of a number removes one bit. *)
Lemma count_bits_spec p : forall fuel k,
  (Z.to_nat (popcount p) < fuel)%nat -> Z.pos p < 2 ^ 32 ->
  count_bits fuel (Z.pos p) k = Some (k + popcount p).
Proof.
  assert (Hstep : forall p, exists q, Z.land (Z.pos p) (Z.pos p - 1) = q /\
    (q = 0 /\ popcount p = 1 \/ exists p', q = Z.pos p' /\ popcount p = popcount p' + 1 /\ (p' < p)%positive)).
  { clear p. induction p as [p IH|p IH|]; eexists; (split; [reflexivity|]); simpl popcount.
    - right. exists (xO p). split; [|split; [done|lia]].
      rewrite Pos2Z.inj_xI. replace (2 * Z.pos p + 1 - 1) with (2 * Z.pos p) by lia.
      by rewrite land_10, Z.land_diag.
    - destruct IH as (q & Hq & Hcase). rewrite Pos2Z.inj_xO.
      replace (2 * Z.pos p - 1) with (2 * (Z.pos p - 1) + 1) by lia. rewrite land_01, Hq.
      destruct Hcase as [[-> Hp]|(p' & -> & Hp & Hlt)]; [left; split; [done|lia]|].
      right. exists (xO p'). split; [done|]. split; [done|lia].
    - by left. }
  induction p as [p IH] using (well_founded_induction (well_founded_ltof _ Pos.to_nat)). intros fuel k Hf Hp.
  destruct fuel as [|fuel]; [lia|]. cbn [count_bits].
  rewrite (proj2 (Z.eqb_neq (Z.pos p) 0)), wrap_small by (unfold in_u; lia).
  destruct (Hstep p) as (q & -> & [[-> Hone]|(p' & -> & Hpc & Hlt)]).
  - destruct fuel; [lia|]. cbn [count_bits]. rewrite Z.eqb_refl. f_equal. lia.
  - rewrite IH; [f_equal; lia|by apply Pos2Nat.inj_lt|..]; [|lia].
    assert (forall r, 0 < popcount r) by (induction r; simpl; lia). specialize (H p'). lia.
Qed.

Lemma popcount_bound p n : Z.pos p < 2 ^ n -> 0 <= n -> popcount p <= n.
Proof.
  revert n. induction p as [p IH|p IH|]; intros n Hp Hn; simpl.
  - assert (n <> 0) by (intros ->; lia).
    assert (E : 2 ^ n = 2 * 2 ^ (n - 1)) by (rewrite <- Z.pow_succ_r by lia; f_equal; lia).
    specialize (IH (n - 1)). lia.
  - assert (n <> 0) by (intros ->; lia).
    assert (E : 2 ^ n = 2 * 2 ^ (n - 1)) by (rewrite <- Z.pow_succ_r by lia; f_equal; lia).
    specialize (IH (n - 1)). lia.
  - assert (n <> 0) by (intros ->; lia). lia.
Qed.

(** The values [s] goes through, down to but without 0. *)
Inductive descent (mask : Z) : Z -> list Z -> Prop :=
  | descent_0 : descent mask 0 []
  | descent_S s l : 0 < s -> descent mask (Z.land (s - 1) mask) l -> descent mask s (s :: l).

Lemma descent_even m s l : descent m s l -> descent (2 * m) (2 * s) ((fun x => 2 * x) <$> l).
Proof.
  induction 1 as [|s l Hs _ IH]; [constructor|]. rewrite fmap_cons. constructor; [lia|].
  replace (2 * s - 1) with (2 * (s - 1) + 1) by lia. by rewrite land_10.
Qed.

Definition double_all (l : list Z) : list Z := l ≫= fun x => [2 * x + 1; 2 * x].

Lemma double_all_length l : length (double_all l) = (2 * length l)%nat.
Proof.
  induction l as [|x l IH]; [done|].
  change (double_all (x :: l)) with (2 * x + 1 :: 2 * x :: double_all l). cbn [length]. lia.
Qed.

Lemma descent_odd m s l :
  descent m s l -> Forall (fun x => submask x m) l ->
  descent (2 * m + 1) (2 * s + 1) (double_all l ++ [1]).
Proof.
  induction 1 as [|s l Hs _ IH]; intros Hall.
  - constructor; [lia|]. constructor.
  - inversion Hall as [|? ? [_ Hsub] Hall']; subst. constructor; [lia|].
    replace (2 * s + 1 - 1) with (2 * s) by lia. rewrite land_01, Hsub. constructor; [lia|].
    replace (2 * s - 1) with (2 * (s - 1) + 1) by lia. rewrite land_11. by apply IH.
Qed.

(** The descent from the mask visits every non-zero submask. *)
Lemma descent_mask p :
  exists l, descent (Z.pos p) (Z.pos p) l /\ Z.of_nat (length l) = 2 ^ popcount p - 1 /\
    (forall x, x ∈ l <-> 0 < x /\ submask x (Z.pos p)).
Proof.
  assert (Hpc : forall p, 0 <= popcount p) by (induction p0; simpl; lia).
  induction p as [p (l & D & Hlen & Hin)|p (l & D & Hlen & Hin)|]; simpl popcount.
  - exists (double_all l ++ [1]). rewrite Pos2Z.inj_xI. split; [|split].
    + apply descent_odd; [done|]. apply Forall_forall. intros x Hx. by apply Hin.
    + rewrite length_app, double_all_length.
      specialize (Hpc p). rewrite Z.pow_add_r by lia. simpl. lia.
    + intros x. rewrite elem_of_app, list_elem_of_singleton. unfold double_all.
      rewrite list_elem_of_bind. split.
      * intros [(y & [-> | [-> | []%not_elem_of_nil]%elem_of_cons]%elem_of_cons & Hy)| ->].
        -- apply Hin in Hy as (? & ? & Hs). split; [lia|]. split; [lia|]. by rewrite land_11, Hs.
        -- apply Hin in Hy as (? & ? & Hs). split; [lia|]. split; [lia|]. by rewrite land_01, Hs.
        -- split; [lia|]. split; [lia|]. change 1 with (2 * 0 + 1) at 1. by rewrite land_11.
      * intros (Hx & _ & Hs). destruct (Z.Even_or_Odd x) as [[y ->]|[y ->]].
        -- left. exists y. rewrite land_01 in Hs. split; [right; left|]. apply Hin. split; [lia|].
           split; lia.
        -- destruct (decide (y = 0)) as [->|Hy]; [by right|].
           left. exists y. rewrite land_11 in Hs. split; [left|]. apply Hin. split; [lia|]. split; lia.
  - exists ((fun x => 2 * x) <$> l). rewrite Pos2Z.inj_xO. split; [by apply descent_even|].
    split; [by rewrite length_fmap|]. intros x. rewrite list_elem_of_fmap. split.
    + intros (y & -> & Hy). apply Hin in Hy as (? & ? & Hs). split; [lia|]. split; [lia|].
      by rewrite land_00, Hs.
    + intros (Hx & _ & Hs). destruct (Z.Even_or_Odd x) as [[y ->]|[y ->]].
      * exists y. rewrite land_00 in Hs. split; [done|]. apply Hin. split; [lia|]. split; lia.
      * rewrite land_10 in Hs. lia.
  - exists [1]. split; [constructor; [lia|constructor]|]. split; [done|].
    intros x. rewrite list_elem_of_singleton. split; [by intros ->; split; [lia|split; [lia|]]|].
    intros (Hx & _ & Hs). change 1 with (Z.ones 1) in Hs. rewrite Z.land_ones in Hs by lia.
    pose proof (Z.mod_pos_bound x (2 ^ 1) ltac:(lia)). lia.
Qed.

Lemma descent_sorted mask s l : 0 <= mask -> descent mask s l -> NoDup l /\ Forall (fun x => x <= s) l.
Proof.
  intros Hm. induction 1 as [|s l Hs _ [IH1 IH2]]; [by split; constructor|].
  assert (Z.land (s - 1) mask <= s - 1).
  { assert (0 <= Z.ldiff (s - 1) mask) by (apply Z.ldiff_nonneg; left; lia).
    pose proof (Z.add_lor_land (Z.ldiff (s - 1) mask) (Z.land (s - 1) mask)) as E.
    rewrite Z.lor_ldiff_and in E.
    assert (0 <= Z.land (Z.ldiff (s - 1) mask) (Z.land (s - 1) mask)) by (apply Z.land_nonneg; by left).
    assert (Z.land (Z.ldiff (s - 1) mask) (Z.land (s - 1) mask) = 0); [|lia].
    apply Z.bits_inj'. intros n Hn. rewrite !Z.land_spec, Z.ldiff_spec, Z.testbit_0_l.
    by destruct (Z.testbit (s - 1) n), (Z.testbit mask n). }
  assert (Hall : Forall (fun x => x <= s - 1) l) by (eapply Forall_impl; [exact IH2|]; simpl; lia).
  split.
  - constructor; [|done]. intros Hin. rewrite Forall_forall in Hall. specialize (Hall s Hin). lia.
  - constructor; [lia|]. eapply Forall_impl; [exact Hall|]. simpl. lia.
Qed.

(** The loop stores the descent. *)
Lemma submask_loop_spec mask s l : forall fuel idx out,
  descent mask s l -> s < 2 ^ 32 -> (length l < fuel)%nat -> 0 <= mask ->
  0 <= idx -> idx + Z.of_nat (length l) <= Z.of_nat (length out) ->
  submask_loop fuel mask s idx out =
  Some (idx + Z.of_nat (length l),
        take (Z.to_nat idx) out ++ l ++ drop (Z.to_nat idx + length l) out).
Proof.
  intros fuel idx out D. revert fuel idx out.
  induction D as [|s l Hs D IH]; intros fuel idx out Hs32 Hf Hm Hi Hroom; (destruct fuel as [|fuel]; [simpl in *; lia|]).
  - simpl. rewrite Z.add_0_r, Nat.add_0_r, take_drop. done.
  - cbn [submask_loop]. rewrite (proj2 (Z.eqb_neq s 0)), wrap_small by (unfold in_u; lia).
    simpl in Hroom, Hf. rewrite arr_set_in by lia. cbn [mbind option_bind].
    assert (Z.land (s - 1) mask <= s).
    { inversion D; subst; [lia|]. destruct (descent_sorted mask s (s :: Z.land (s - 1) mask :: l0) Hm) as [_ Hall];
        [by constructor|]. inversion Hall as [|? ? _ Hall']; subst. by inversion Hall'. }
    rewrite IH; [|lia|lia|done|lia|rewrite length_insert; lia]. f_equal. f_equal; [simpl; lia|].
    replace (Z.to_nat (idx + 1)) with (S (Z.to_nat idx)) by lia.
    rewrite (take_S_r _ _ s) by (apply list_lookup_insert_eq; lia).
    rewrite take_insert_ge, drop_insert_lt by lia. rewrite <- app_assoc. simpl.
    do 4 f_equal. lia.
Qed.

Definition bits_set (mask : Z) : Z := match mask with Zpos p => popcount p | _ => 0 end.

Lemma count_bits_mask mask : in_u 32 mask -> count_bits 33 mask 0 = Some (bits_set mask).
Proof.
  unfold in_u. intros Hm. destruct mask as [|p|p]; [done| |lia].
  pose proof (popcount_bound p 32 ltac:(lia) ltac:(lia)). rewrite count_bits_spec; [done|lia|lia].
Qed.

Lemma descent_all mask :
  0 <= mask -> exists l, descent mask mask l /\ Z.of_nat (length l) = 2 ^ bits_set mask - 1 /\
    (forall x, x ∈ l <-> 0 < x /\ submask x mask).
Proof.
  intros Hm. destruct mask as [|p|p]; [|apply descent_mask|lia].
  exists []. split; [constructor|]. split; [done|]. intros x.
  split; [by intros ?%not_elem_of_nil|]. intros (Hx & _ & Hs). rewrite Z.land_0_r in Hs. lia.
Qed.

(** C29. [generate_submasks] returns every submask of the mask exactly once: for
    a mask of at most 30 bits and an array with room for them it terminates,
    stays inside the array, sets [*out_count] to [2^bits], and the first
    [2^bits] elements are the submasks, 0 and the mask included, without
    repetition; with less room it returns -3 and leaves the array alone; a mask
    of 31 or 32 bits makes the shift [1 << k] undefined. *)
Theorem generate_submasks_complete (mask cnt : Z) (o : list Z)
    (Hm : in_u 32 mask) (Ho : (0 < length o)%nat) :
  let cap := Z.of_nat (length o) in
  let n := 2 ^ bits_set mask in
  if 31 <=? bits_set mask then generate_submasks mask (Some o) cap (Some cnt) = None
  else if cap <? n then generate_submasks mask (Some o) cap (Some cnt) = Some (-3, Some 0, Some o)
  else exists o', generate_submasks mask (Some o) cap (Some cnt) = Some (0, Some n, Some o') /\
    length o' = length o /\ NoDup (take (Z.to_nat n) o') /\
    forall x, x ∈ take (Z.to_nat n) o' <-> submask x mask.
Proof.
  intros cap n. unfold generate_submasks. rewrite count_bits_mask by done. cbn [mbind option_bind].
  destruct (Z.leb_spec 31 (bits_set mask)); [done|]. fold n.
  destruct (Z.ltb_spec cap n) as [|Hroom]; [done|]. unfold in_u in Hm.
  destruct (descent_all mask ltac:(lia)) as (l & D & Hlen & Hin). fold n in Hlen.
  destruct (descent_sorted mask mask l ltac:(lia) D) as [Hnd _].
  rewrite arr_set_in by lia. cbn [mbind option_bind].
  rewrite (submask_loop_spec mask mask l) by (rewrite ?length_insert; done || lia).
  cbn [mbind option_bind]. destruct o as [|x0 o]; [simpl in Ho; lia|].
  change (Z.to_nat 0) with 0%nat. change (Z.to_nat 1) with 1%nat. cbn [insert list_insert firstn app].
  eexists. split; [do 4 f_equal; lia|].
  replace (Z.to_nat n) with (S (length l)) by lia. cbn [firstn length app].
  rewrite take_0, app_nil_l, take_app_length.
  split; [|split].
  - rewrite length_app, length_drop. subst cap. simpl in *. lia.
  - constructor; [|done]. intros Hx%Hin. lia.
  - intros x. rewrite elem_of_cons, Hin. unfold submask. split.
    + intros [-> | ?]; [|tauto]. split; [lia|apply Z.land_0_l].
    + intros [Hx Hs]. destruct (decide (x = 0)); [by left|right]. split; [lia|done].
Qed.

Lemma generate_submasks_complete_witness :
  exists o', generate_submasks 0xa1 (Some (replicate 9 7)) 9 (Some 5) = Some (0, Some 8, Some o') /\
    length o' = length (replicate 9 7) /\ NoDup (take (Z.to_nat 8) o') /\
    forall x, x ∈ take (Z.to_nat 8) o' <-> submask x 0xa1.
Proof.
  apply (generate_submasks_complete 0xa1 5 (replicate 9 7)); [unfold in_u; lia|simpl; lia].
Defined.

Example generate_submasks_ex :
  generate_submasks 0xa1 (Some (replicate 9 7)) 9 (Some 5)
  = Some (0, Some 8, Some [0; 0xa1; 0xa0; 0x81; 0x80; 0x21; 0x20; 1; 7]).
Proof. reflexivity. Qed.
