(* ===== verification/IntParser.v ===== *)
(** * interger_parser_with_overflow_checks.c: parsing a signed 32-bit integer

    A string is the list of its characters (as integers) without the
    terminating 0, which [char_at] supplies. The accumulator and the multiplier
    are [int64_t]: a result outside their range is undefined. *)

From S2P Require Import Prelude.

Definition INT32_MAX : Z := 2 ^ 31 - 1.
Definition INT32_MIN : Z := - 2 ^ 31.

Definition what_digit (s : Z) : Z :=
  if (48 <=? s) && (s <=? 57) then s - 48 else -1.

Definition char_at (s : list Z) (i : Z) : option Z :=
  if i =? Z.of_nat (length s) then Some 0 else s.[i].

(** The loop [for (; i > 0; i--)]: [Some None] is the return of -4. *)
Fixpoint parse_loop (i : nat) (s : list Z) (rv multiplier : Z) : option (option Z) :=
  match i with
  | O => Some (Some rv)
  | S i' =>
      c ← char_at s (Z.of_nat i);
      let curr := what_digit c in
      if curr <? 0 then Some None
      else
        t ← chk_s 64 (curr * multiplier);
        rv ← chk_s 64 (rv + t);
        multiplier ← chk_s 64 (multiplier * 10);
        parse_loop i' s rv multiplier
  end.

(** The result and [*out_value]. *)
Definition parse_i32 (s : option (list Z)) (out_value : option Z) : option (Z * option Z) :=
  match out_value, s with
  | None, _ => Some (-1, None)
  | Some _, None => Some (-2, out_value)
  | Some _, Some s =>
      c ← char_at s 0;
      let signed := (c =? 45) || (c =? 43) in
      if negb signed && (what_digit c <? 0) then Some (-3, out_value)
      else
        c1 ← (if signed then char_at s 1 else Some 1);
        if signed && (c1 =? 0) then Some (-3, out_value)
        else
          let i := if signed then Z.of_nat (length s) - 1 else Z.of_nat (length s) in
          r ← parse_loop (Z.to_nat i) s 0 1;
          match r with
          | None => Some (-4, out_value)
          | Some rv => if (INT32_MAX <? rv) || (rv <? INT32_MIN) then Some (-5, out_value)
                       else Some (0, Some rv)
          end
  end.

(** ** Lemmas *)

Definition is_digit (c : Z) : Prop := 48 <= c <= 57.

(** The decimal value of a string of digits. *)
Fixpoint decimal (ds : list Z) : Z :=
  match ds with [] => 0 | d :: ds => (d - 48) * 10 ^ Z.of_nat (length ds) + decimal ds end.

Lemma what_digit_spec c : is_digit c -> what_digit c = c - 48.
Proof.
  unfold is_digit, what_digit. intros. rewrite (proj2 (Z.leb_le 48 c)), (proj2 (Z.leb_le c 57)) by lia.
  done.
Qed.

Lemma decimal_bounds ds : Forall is_digit ds -> 0 <= decimal ds < 10 ^ Z.of_nat (length ds).
Proof.
  induction 1 as [|d ds Hd _ IH]; simpl; [lia|]. unfold is_digit in Hd.
  rewrite Nat2Z.inj_succ, Z.pow_succ_r by lia. nia.
Qed.

(** The loop adds the digits from the right. *)
Lemma parse_loop_spec c pre : forall suf,
  Forall is_digit (pre ++ suf) -> (length pre + length suf <= 18)%nat ->
  parse_loop (length pre) (c :: pre ++ suf) (decimal suf) (10 ^ Z.of_nat (length suf))
  = Some (Some (decimal (pre ++ suf))).
Proof.
  induction pre as [|d pre IH] using rev_ind; intros suf Hd Hlen; [done|].
  rewrite length_app in *. simpl length in *. rewrite Nat.add_1_r in *. cbn [parse_loop].
  assert (Hc : char_at (c :: (pre ++ [d]) ++ suf) (Z.of_nat (S (length pre))) = Some d).
  { unfold char_at. rewrite (proj2 (Z.eqb_neq _ _)) by (simpl; rewrite !length_app; simpl; lia).
    rewrite arr_get_nat, Nat2Z.id by lia. simpl. rewrite <- app_assoc, lookup_app_r by lia.
    by rewrite Nat.sub_diag. }
  rewrite Hc. cbn [mbind option_bind].
  rewrite <- app_assoc in Hd. apply Forall_app in Hd as Hd'. destruct Hd' as [_ Hd'].
  inversion Hd' as [|? ? Hdd Hsuf]; subst. rewrite what_digit_spec by done.
  pose proof (decimal_bounds suf Hsuf). unfold is_digit in Hdd.
  assert (10 ^ Z.of_nat (length suf) <= 10 ^ 17) by (apply Z.pow_le_mono_r; lia).
  assert (0 < 10 ^ Z.of_nat (length suf)) by (apply Z.pow_pos_nonneg; lia).
  rewrite (proj2 (Z.ltb_ge _ _)) by lia.
  rewrite !chk_s_ok by (unfold in_s; simpl in *; nia). cbn [mbind option_bind].
  rewrite !chk_s_ok by (unfold in_s; simpl in *; nia). cbn [mbind option_bind].
  rewrite <- app_assoc. specialize (IH (d :: suf) Hd ltac:(simpl; lia)). simpl in IH. simpl app.
  rewrite <- IH. f_equal; [lia|]. rewrite Nat2Z.inj_succ, Z.pow_succ_r by lia. lia.
Qed.

(** ** Properties *)

(** [parse_i32] on a sign followed by 1 to 18 digits: it returns 0 and the
    decimal value of the digits when that is at most [INT32_MAX] and otherwise -5
    with the output unchanged; the sign does not matter, so a negative number is
    parsed as its absolute value. *)
Theorem parse_i32_signed (sign old : Z) (ds : list Z)
    (Hs : sign = 43 \/ sign = 45) (Hd : Forall is_digit ds) (Hl : (1 <= length ds <= 18)%nat) :
  parse_i32 (Some (sign :: ds)) (Some old) =
  Some (if INT32_MAX <? decimal ds then (-5, Some old) else (0, Some (decimal ds))).
Proof.
  unfold parse_i32. change (char_at (sign :: ds) 0) with (Some sign). cbn [mbind option_bind].
  replace ((sign =? 45) || (sign =? 43)) with true by (by destruct Hs as [-> | ->]). cbn [negb andb].
  destruct ds as [|d ds]; [simpl in Hl; lia|].
  assert (Hc1 : char_at (sign :: d :: ds) 1 = Some d).
  { unfold char_at. by rewrite (proj2 (Z.eqb_neq _ _)) by (simpl; lia). }
  rewrite Hc1. cbn [mbind option_bind]. inversion Hd as [|? ? Hdd _]; subst.
  unfold is_digit in Hdd. rewrite (proj2 (Z.eqb_neq d 0)) by lia.
  replace (Z.to_nat _) with (length (d :: ds)) by (simpl length; lia).
  pose proof (parse_loop_spec sign (d :: ds) []) as HL. rewrite app_nil_r in HL.
  change (10 ^ Z.of_nat (length [])) with 1 in HL.
  change (decimal []) with 0 in HL. rewrite HL by (done || (simpl in *; lia)).
  cbn [mbind option_bind]. pose proof (decimal_bounds _ Hd).
  rewrite (proj2 (Z.ltb_ge _ INT32_MIN)) by (unfold INT32_MIN; lia). rewrite orb_false_r.
  by destruct (INT32_MAX <? decimal (d :: ds)).
Qed.

Lemma parse_i32_signed_witness :
  parse_i32 (Some (45 :: [50; 49; 52; 55; 52; 56; 51; 54; 52; 55])) (Some 0) =
  Some (if INT32_MAX <? decimal [50; 49; 52; 55; 52; 56; 51; 54; 52; 55] then (-5, Some 0)
        else (0, Some (decimal [50; 49; 52; 55; 52; 56; 51; 54; 52; 55]))).
Proof.
  apply (parse_i32_signed 45 0 [50; 49; 52; 55; 52; 56; 51; 54; 52; 55]); [by right| |simpl; lia].
  repeat (constructor; [unfold is_digit; lia|]). constructor.
Defined.

(** A number without a sign is always refused: the loop starts at the
    terminating 0. *)
Lemma parse_i32_unsigned d ds old :
  is_digit d -> parse_i32 (Some (d :: ds)) (Some old) = Some (-4, Some old).
Proof.
  intros Hd. unfold parse_i32. change (char_at (d :: ds) 0) with (Some d). cbn [mbind option_bind].
  unfold is_digit in Hd. rewrite (proj2 (Z.eqb_neq d 45)), (proj2 (Z.eqb_neq d 43)) by lia.
  rewrite what_digit_spec, (proj2 (Z.ltb_ge _ _)) by (unfold is_digit; lia). cbn [negb orb andb mbind option_bind].
  rewrite Nat2Z.id. simpl length. cbn [parse_loop].
  assert (char_at (d :: ds) (Z.of_nat (S (length ds))) = Some 0) as ->
    by (unfold char_at; by rewrite Z.eqb_refl).
  done.
Qed.

(** The accepted minimum is refused, the empty string is -3 and not -2, and 19
    digits overflow the multiplier. *)
Example parse_i32_int_min :
  parse_i32 (Some [45; 50; 49; 52; 55; 52; 56; 51; 54; 52; 56]) (Some 0) = Some (-5, Some 0) /\
  parse_i32 (Some []) (Some 0) = Some (-3, Some 0) /\
  parse_i32 (Some (43 :: replicate 19 49)) (Some 0) = None.
Proof. split_and!; reflexivity. Qed.
