(* ===== verification/BufferPool.v ===== *)
(** * bare_metal_packet_buffer_pool_allocation: a fixed-size block allocator

    The pool is a range of memory [raw_memory, raw_memory + pool_size); a free
    block holds the address of the next one in its first 8 bytes. The code
    accesses memory through [uintptr_t *] only, so an access is to a word of 8
    bytes at an address that is a multiple of 8: at another address, and outside
    the pool, it is undefined ([None]). Such words do not overlap, and memory is
    the map from their addresses to the values written so far. Addresses are
    64-bit. *)

From S2P Require Import Prelude.

Definition INVALID_ADDR : Z := 2 ^ 64 - 1.

Record pool := mk_pool { head : Z; mem : gmap Z Z }.

Section pool.
Variables raw_memory pool_size : Z.

(** A word of the pool: aligned for [uintptr_t], and inside. *)
Definition in_pool (a : Z) : bool :=
  (a mod 8 =? 0) && ((raw_memory <=? a) && (a + 8 <=? raw_memory + pool_size)).

Definition store (m : gmap Z Z) (a v : Z) : option (gmap Z Z) :=
  if in_pool a then Some (<[a := v]> m) else None.

Definition load (m : gmap Z Z) (a : Z) : option Z := if in_pool a then m !! a else None.

(** [(x + 63) & ~63] *)
Definition align64 (x : Z) : Z := Z.land (x +u64 63) (wrap 64 (Z.lnot 63)).

(** The loop of [buffer_pool_init]; [fuel] bounds its rounds. *)
Fixpoint init_loop (fuel : nat) (curr block_size pool_end : Z) (m : gmap Z Z) : option (gmap Z Z) :=
  match fuel with
  | O => None
  | S fuel =>
      if curr <? pool_end then
        m ← store m curr (if (curr +u64 block_size) <=? pool_end then curr +u64 block_size
                          else INVALID_ADDR);
        init_loop fuel (curr +u64 block_size) block_size pool_end m
      else Some m
  end.

Definition round_block (block_size : Z) : Z := align64 (if block_size <? 8 then 8 else block_size).

Definition buffer_pool_init (block_size : Z) : option pool :=
  let head := align64 raw_memory in
  let pool_end := raw_memory +u64 pool_size in
  m ← init_loop (S (S (Z.to_nat pool_size))) head (round_block block_size) pool_end ∅;
  Some (mk_pool head m).

Definition buffer_pool_alloc (p : pool) : option (option Z * pool) :=
  if head p =? INVALID_ADDR then Some (None, p)
  else next ← load (mem p) (head p); Some (Some (head p), mk_pool next (mem p)).

Definition buffer_pool_free (p : pool) (ptr : Z) : option pool :=
  m ← store (mem p) ptr (head p); Some (mk_pool ptr m).

(** [n] allocations in a row. *)
Fixpoint alloc_many (n : nat) (p : pool) : option (list (option Z) * pool) :=
  match n with
  | O => Some ([], p)
  | S n => '(b, p) ← buffer_pool_alloc p; '(bs, p) ← alloc_many n p; Some (b :: bs, p)
  end.

(** ** Lemmas *)

Lemma align64_spec x : 0 <= x -> x + 63 < 2 ^ 64 -> align64 x = 64 * ((x + 63) / 64).
Proof.
  intros Hx Hw. unfold align64. rewrite wrap_small by (unfold in_u; lia). apply Z.bits_inj'. intros n Hn.
  rewrite Z.land_spec. unfold wrap.
  replace (64 * ((x + 63) / 64)) with (Z.shiftl (Z.shiftr (x + 63) 6) 6)
    by (rewrite Z.shiftl_mul_pow2, Z.shiftr_div_pow2 by lia; change (2 ^ 6) with 64; lia).
  change 63 with (Z.ones 6) at 2.
  destruct (decide (n < 64)) as [Hlt|Hge].
  - rewrite Z.mod_pow2_bits_low, Z.lnot_spec, Z.testbit_ones_nonneg, Z.shiftl_spec by lia.
    destruct (Z.ltb_spec n 6).
    + rewrite (Z.testbit_neg_r (Z.shiftr _ _)) by lia. apply andb_false_r.
    + rewrite Z.shiftr_spec by lia. rewrite andb_true_r. f_equal. lia.
  - rewrite Z.mod_pow2_bits_high, Z.shiftl_spec, Z.shiftr_spec by lia. rewrite andb_false_r.
    replace (n - 6 + 6) with n by lia. rewrite <- (Z.mod_small (x + 63) (2 ^ 64)) by lia.
    by rewrite Z.mod_pow2_bits_high by lia.
Qed.

(** The free list from [h]: the blocks [l], then [e]. *)
Fixpoint chain (m : gmap Z Z) (h : Z) (l : list Z) (e : Z) : Prop :=
  match l with
  | [] => h = e
  | b :: l => h = b /\ b <> INVALID_ADDR /\ exists next, load m b = Some next /\ chain m next l e
  end.

Lemma load_insert m a v b : in_pool b = true ->
  load (<[b := v]> m) a = if decide (a = b) then Some v else load m a.
Proof.
  intros Hb. unfold load. destruct (decide (a = b)) as [->|Hne].
  - by rewrite Hb, lookup_insert_eq.
  - by rewrite lookup_insert_ne.
Qed.

Lemma chain_insert m h l e b v : in_pool b = true -> b ∉ l -> chain m h l e -> chain (<[b := v]> m) h l e.
Proof.
  revert h. induction l as [|c l IH]; intros h Hb Hn; simpl; [done|].
  intros (-> & Hi & next & Hl & Hc). split; [done|]. split; [done|]. exists next.
  rewrite load_insert, decide_False by (done || set_solver). split; [done|]. apply IH; set_solver.
Qed.

Lemma alloc_many_chain l : forall p e,
  chain (mem p) (head p) l e ->
  alloc_many (length l) p = Some (Some <$> l, mk_pool e (mem p)).
Proof.
  induction l as [|b l IH]; intros [h m] e Hc; simpl in *; [by subst|].
  destruct Hc as (-> & Hi & next & Hl & Hc). unfold buffer_pool_alloc. simpl.
  rewrite (proj2 (Z.eqb_neq b INVALID_ADDR)) by done. rewrite Hl. simpl.
  by rewrite (IH (mk_pool next m) e Hc).
Qed.

Section init.
Variable block_size : Z.
Let bs := round_block block_size.
Let head0 := align64 raw_memory.
Let pool_end := raw_memory + pool_size.

Hypotheses (Hraw : 0 <= raw_memory) (Hsize : 0 <= pool_size) (Hblock : 0 <= block_size)
  (Hroom : raw_memory + pool_size + block_size + 128 < 2 ^ 64).

Lemma bs_spec : 64 <= bs /\ (64 | bs) /\ block_size <= bs < block_size + 72.
Proof.
  unfold bs, round_block. destruct (Z.ltb_spec block_size 8); rewrite align64_spec by lia;
    (split_and!; [modlia|eexists; apply Z.mul_comm|modlia|modlia]).
Qed.

Lemma head0_spec : raw_memory <= head0 < raw_memory + 64 /\ (64 | head0).
Proof.
  unfold head0. rewrite align64_spec by lia. split; [modlia|eexists; apply Z.mul_comm].
Qed.

Lemma in_pool_at a : (8 | a) -> raw_memory <= a -> in_pool a = (a + 8 <=? pool_end).
Proof.
  intros H8%Z.mod_divide Ha; [|lia]. unfold in_pool. by rewrite H8, (proj2 (Z.leb_le raw_memory a)) by done.
Qed.

(** The loop from a block: the blocks that fit, and the end of the chain. *)
Lemma init_loop_spec n : forall fuel curr m,
  raw_memory <= curr -> (8 | curr) -> curr + Z.of_nat n * bs <= pool_end < curr + (Z.of_nat n + 1) * bs ->
  (n + 1 < fuel)%nat ->
  let e := curr + Z.of_nat n * bs in
  let l := (fun i => curr + Z.of_nat i * bs) <$> seq 0 n in
  if decide (e = pool_end) then
    exists m', init_loop fuel curr bs pool_end m = Some m' /\ chain m' curr l e /\
      forall a, a < curr -> load m' a = load m a
  else if decide (e + 8 <= pool_end) then
    exists m', init_loop fuel curr bs pool_end m = Some m' /\ chain m' curr (l ++ [e]) INVALID_ADDR /\
      forall a, a < curr -> load m' a = load m a
  else init_loop fuel curr bs pool_end m = None.
Proof.
  destruct bs_spec as (Hbs & Hdb & Hbs').
  assert (H8 : (8 | bs)) by (apply (Z.divide_trans _ 64); [by exists 8|done]).
  induction n as [|n IH]; intros fuel curr m Hc H8c Hn Hf e l; (destruct fuel as [|fuel]; [lia|]);
    cbn [init_loop].
  - subst e l. rewrite Z.mul_0_l, Z.add_0_r in *. simpl fmap. destruct (decide (curr = pool_end)) as [E|E].
    + rewrite (proj2 (Z.ltb_ge curr pool_end)) by lia. exists m. done.
    + rewrite (proj2 (Z.ltb_lt curr pool_end)), wrap_small by (unfold in_u, pool_end in *; lia).
      rewrite (proj2 (Z.leb_gt _ pool_end)) by lia. unfold store. pose proof (in_pool_at curr H8c Hc) as Hin. rewrite Hin.
      destruct (decide (curr + 8 <= pool_end)) as [Hle|Hle]; [|by rewrite (proj2 (Z.leb_gt _ _)) by lia].
      rewrite (proj2 (Z.leb_le _ _)) in Hin |- * by done. cbn [mbind option_bind].
      destruct fuel as [|fuel]; [lia|]. cbn [init_loop]. rewrite (proj2 (Z.ltb_ge _ pool_end)) by lia.
      eexists. split; [done|]. split.
      * split; [done|]. split; [unfold INVALID_ADDR, pool_end in *; lia|].
        exists INVALID_ADDR. by rewrite load_insert, decide_True.
      * intros a Ha. by rewrite load_insert, decide_False by (done || lia).
  - rewrite (proj2 (Z.ltb_lt curr pool_end)), !wrap_small by (unfold in_u, pool_end in *; nia).
    rewrite (proj2 (Z.leb_le _ pool_end)) by nia.
    assert (Hin : in_pool curr = true).
    { rewrite in_pool_at by done. apply Z.leb_le. nia. }
    unfold store. rewrite Hin. cbn [mbind option_bind].
    specialize (IH fuel (curr + bs) (<[curr := curr + bs]> m) ltac:(lia) ltac:(by apply Z.divide_add_r) ltac:(lia) ltac:(lia)).
    cbv zeta in IH. replace (curr + bs + Z.of_nat n * bs) with e in IH by (subst e; lia).
    assert (Hl : l = curr :: ((fun i => curr + bs + Z.of_nat i * bs) <$> seq 0 n)).
    { subst l. simpl. f_equal; [lia|]. rewrite <- fmap_S_seq, <- list_fmap_compose.
      apply list_fmap_ext. intros ? x _. simpl. lia. }
    assert (Hcons : forall m' l' f, chain m' (curr + bs) l' f ->
      (forall a, a < curr + bs -> load m' a = load (<[curr := curr + bs]> m) a) ->
      chain m' curr (curr :: l') f /\ forall a, a < curr -> load m' a = load m a).
    { intros m' l' f Hch Hold. split.
      - split; [done|]. split; [unfold INVALID_ADDR, pool_end in *; nia|]. exists (curr + bs).
        split; [|done]. rewrite Hold, load_insert, decide_True by (done || lia). done.
      - intros a Ha. by rewrite Hold, load_insert, decide_False by (done || lia). }
    rewrite Hl. destruct (decide (e = pool_end)).
    + destruct IH as (m' & E & Hch & Hold). exists m'. split; [done|]. by apply Hcons.
    + destruct (decide (e + 8 <= pool_end)); [|done].
      destruct IH as (m' & E & Hch & Hold). exists m'. split; [done|]. by apply Hcons.
Qed.
End init.

(** ** Properties *)

(** What [buffer_pool_init] makes of a pool: with [N] blocks of the rounded
    size between the first aligned address and the end of the pool, the first
    [N] allocations return those blocks, aligned to 64 and inside the pool. The
    code goes wrong at the end of the chain: a remainder of less than 8 bytes is
    written past the pool, a larger one is handed out as one more block that does
    not fit, and with no remainder the next allocation reads at the end address. *)
Theorem buffer_pool_init_blocks (block_size : Z)
    (Hraw : 0 <= raw_memory) (Hsize : 0 <= pool_size) (Hblock : 0 <= block_size)
    (Hroom : raw_memory + pool_size + block_size + 128 < 2 ^ 64)
    (Hfit : align64 raw_memory <= raw_memory + pool_size) :
  let bs := round_block block_size in
  let head0 := align64 raw_memory in
  let pool_end := raw_memory + pool_size in
  let n := Z.to_nat ((pool_end - head0) / bs) in
  let e := head0 + Z.of_nat n * bs in
  let blocks := (fun i => head0 + Z.of_nat i * bs) <$> seq 0 n in
  Forall (fun b => (64 | b) /\ raw_memory <= b /\ b + block_size <= b + bs <= pool_end) blocks /\
  if decide (e = pool_end) then
    exists p, buffer_pool_init block_size = Some p /\
      alloc_many n p = Some (Some <$> blocks, mk_pool e (mem p)) /\
      buffer_pool_alloc (mk_pool e (mem p)) = None
  else if decide (e + 8 <= pool_end) then
    exists p, buffer_pool_init block_size = Some p /\
      alloc_many (S n) p = Some (Some <$> (blocks ++ [e]), mk_pool INVALID_ADDR (mem p)) /\
      pool_end < e + bs
  else buffer_pool_init block_size = None.
Proof.
  cbv zeta. destruct (bs_spec block_size Hraw Hsize Hblock Hroom) as (Hbs & Hdb & Hbs').
  destruct (head0_spec block_size Hraw Hsize Hblock Hroom) as (Hh & Hdh).
  set (bs := round_block block_size) in *. set (head0 := align64 raw_memory) in *.
  set (pool_end := raw_memory + pool_size) in *. set (n := Z.to_nat ((pool_end - head0) / bs)).
  assert (Hn : head0 + Z.of_nat n * bs <= pool_end < head0 + (Z.of_nat n + 1) * bs).
  { subst n. rewrite Z2Nat.id by (apply Z.div_pos; lia).
    pose proof (Z.div_mod (pool_end - head0) bs ltac:(lia)).
    pose proof (Z.mod_pos_bound (pool_end - head0) bs ltac:(lia)). lia. }
  assert (Hfuel : (n + 1 < S (S (Z.to_nat pool_size)))%nat) by (unfold pool_end in *; nia).
  pose proof (init_loop_spec block_size Hraw Hsize Hblock Hroom n _ head0 ∅ ltac:(lia)
    ltac:(apply (Z.divide_trans _ 64); [by exists 8|done]) Hn Hfuel) as HI.
  cbv zeta in HI. fold bs in HI. fold pool_end in HI. set (e := head0 + Z.of_nat n * bs) in *.
  split.
  { apply Forall_fmap, Forall_seq. intros i Hi. simpl. split; [|nia].
    apply Z.divide_add_r; [done|]. by apply Z.divide_mul_r. }
  unfold buffer_pool_init. rewrite (wrap_small 64 (raw_memory + pool_size)) by (unfold in_u; lia).
  fold pool_end. fold bs. fold head0. destruct (decide (e = pool_end)) as [He|He].
  - destruct HI as (m' & -> & Hch & _). eexists. split; [done|]. split.
    + rewrite <- (alloc_many_chain _ (mk_pool head0 m') e Hch). by rewrite length_fmap, length_seq.
    + unfold buffer_pool_alloc. simpl.
      rewrite (proj2 (Z.eqb_neq _ _)) by (unfold INVALID_ADDR, pool_end in *; lia).
      unfold load, in_pool. fold pool_end. rewrite (proj2 (Z.leb_gt (e + 8) pool_end)) by lia.
      by rewrite !andb_false_r.
  - destruct (decide (e + 8 <= pool_end)); [|by rewrite HI].
    destruct HI as (m' & -> & Hch & _). eexists. split; [done|]. split; [|lia].
    rewrite <- (alloc_many_chain _ (mk_pool head0 m') INVALID_ADDR Hch).
    rewrite length_app, length_fmap, length_seq. simpl. by rewrite Nat.add_1_r.
Qed.

(** The calls of a client, and its writes of a word into a block. *)
Inductive pool_op := Alloc | Free (b : Z) | Write (a v : Z).

Definition pool_step (p : pool) (o : pool_op) : option (pool * option Z) :=
  match o with
  | Alloc => '(b, p) ← buffer_pool_alloc p; Some (p, b)
  | Free b => p ← buffer_pool_free p b; Some (p, None)
  | Write a v => m ← store (mem p) a v; Some (mk_pool (head p) m, None)
  end.

(** The abstract pool is a stack [l] of free blocks over [e]; [e] is
    [INVALID_ADDR] when the pool ends with a block that is marked as the last. A
    client frees aligned blocks of the pool that are not free, and does not write
    to the first word of a free block. *)
Definition stack_step (e : Z) (l : list Z) (o : pool_op) : option (list Z * option Z) :=
  match o, l with
  | Alloc, b :: l => Some (l, Some b)
  | Alloc, [] => if e =? INVALID_ADDR then Some ([], None) else None
  | Free b, l => if in_pool b && bool_decide (b ∉ l) then Some (b :: l, None) else None
  | Write a _, l => if in_pool a && bool_decide (a ∉ l) then Some (l, None) else None
  end.

Lemma in_pool_valid b : in_pool b = true -> b <> INVALID_ADDR.
Proof. unfold in_pool. intros H ->. by vm_compute in H. Qed.

Lemma pool_step_stack p l e o l' r :
  chain (mem p) (head p) l e -> stack_step e l o = Some (l', r) ->
  exists p', pool_step p o = Some (p', r) /\ chain (mem p') (head p') l' e.
Proof.
  destruct p as [h m]. cbn [mem head]. intros Hc Hs. destruct o as [|b|a v]; simpl in *.
  - unfold buffer_pool_alloc. cbn [mem head]. destruct l as [|b l]; simpl in *.
    + subst h. destruct (e =? INVALID_ADDR); [|done]. simplify_eq. by eexists.
    + destruct Hc as (-> & Hi & next & Hl & Hc). simplify_eq. rewrite (proj2 (Z.eqb_neq b INVALID_ADDR)) by done.
      rewrite Hl. by eexists.
  - destruct (in_pool b) eqn:Hb; [|done]. case_bool_decide as Hn; [|done]. simplify_eq/=.
    unfold buffer_pool_free, store. cbn [mem head]. rewrite Hb. eexists. split; [done|].
    cbn [mem head chain]. split; [done|]. split; [by apply in_pool_valid|]. exists h.
    rewrite load_insert, decide_True by done. split; [done|]. by apply chain_insert.
  - destruct (in_pool a) eqn:Hb; [|done]. case_bool_decide as Hn; [|done]. simplify_eq/=.
    unfold store. rewrite Hb. eexists. split; [done|]. by apply chain_insert.
Qed.

(** C31. The pool is a stack of free blocks. The client frees addresses that are
    aligned to 8, in the pool and not free, and writes words to its blocks
    anywhere but at the first word of a free block. Then every sequence of
    allocations, frees and writes is defined and answers as the stack, most
    recently freed block first, so that no block is handed out twice; when the
    stack is empty, a chain that ends in [INVALID_ADDR] answers NULL (for another
    end, which [buffer_pool_init] makes of an exactly filled pool, the theorem
    does not speak of an allocation from the empty stack). *)
Theorem buffer_pool_refines_stack (p : pool) (l l' : list Z) (e : Z) (ops : list pool_op)
    (rs : list (option Z)) (Hc : chain (mem p) (head p) l e)
    (Hr : run_ops (stack_step e) l ops = Some (l', rs)) :
  exists p', run_ops pool_step p ops = Some (p', rs) /\ chain (mem p') (head p') l' e.
Proof.
  revert p l rs Hc Hr. induction ops as [|o ops IH]; intros p l rs Hc Hr; cbn [run_ops] in *.
  { simplify_eq. by exists p. }
  destruct (stack_step e l o) as [[l1 r]|] eqn:E1; [|done]. simpl in Hr.
  destruct (run_ops (stack_step e) l1 ops) as [[l2 rs1]|] eqn:E; simplify_eq/=.
  destruct (pool_step_stack p l e o l1 r Hc E1) as (p1 & -> & Hc1). simpl.
  destruct (IH p1 l1 rs1 Hc1 E) as (p' & -> & Hc'). by exists p'.
Qed.
End pool.

Lemma buffer_pool_init_blocks_witness :
  Forall (fun b => (64 | b) /\ 1000 <= b /\ b + 100 <= b + round_block 100 <= 1000 + 400)
    ((fun i => align64 1000 + Z.of_nat i * round_block 100) <$> seq 0 2) /\
  exists p, buffer_pool_init 1000 400 100 = Some p /\
    alloc_many 1000 400 3 p =
      Some (Some <$> (((fun i => align64 1000 + Z.of_nat i * round_block 100) <$> seq 0 2) ++ [1280]),
            mk_pool INVALID_ADDR (mem p)) /\
    1000 + 400 < 1280 + round_block 100.
Proof.
  apply (buffer_pool_init_blocks 1000 400 100); [lia|lia|lia|lia|vm_compute; discriminate].
Defined.

Lemma buffer_pool_refines_stack_witness :
  exists p', run_ops (pool_step 0 1024) (mk_pool 64 {[64 := 128; 128 := INVALID_ADDR]})
               [Alloc; Alloc; Alloc; Write 64 7; Free 64; Write 72 5; Free 128; Alloc] =
               Some (p', [Some 64; Some 128; None; None; None; None; None; Some 128]) /\
    chain 0 1024 (mem p') (head p') [64] INVALID_ADDR.
Proof.
  apply (buffer_pool_refines_stack 0 1024 (mk_pool 64 {[64 := 128; 128 := INVALID_ADDR]}) [64; 128] [64] INVALID_ADDR
           [Alloc; Alloc; Alloc; Write 64 7; Free 64; Write 72 5; Free 128; Alloc]); [|vm_compute; reflexivity].
  split; [reflexivity|]. split; [discriminate|]. exists 128. split; [reflexivity|].
  split; [reflexivity|]. split; [discriminate|]. exists INVALID_ADDR. split; reflexivity.
Defined.
