(* ===== verification/Counters.v ===== *)
(** * Locked counters: simple_counter.c and approx_counter.c behind counter.h

    counter.h is an interface with two implementations: a counter behind one
    lock, and an approximate counter with a counter per thread that is added to
    the global one when it reaches a threshold. The class [Counter] states what
    the interface promises (an increment counts, a read is behind the true count
    by at most a known error), each implementation is an instance, and the
    client, main.c, is proved against the class.

    An increment is one atomic step: the simple counter's is one critical section
    of [glock]; the approximate counter's changes the thread's own local counter
    under its own lock and makes at most one change to the global value, under
    [glock], which is all a concurrent [counter_get] can see. [int] overflow is
    undefined ([None]). *)

From S2P Require Import Prelude Threads.

(** ** The interface *)

(** [cnt_repr c ns]: thread [i] has incremented the counter [ns !! i] times. *)
Class Counter (C : Type) := {
  cnt_increment : C -> Z -> option C;
  cnt_get : C -> Z;
  cnt_error : Z;
  cnt_repr : C -> list Z -> Prop;
  cnt_increment_ok c ns i n :
    cnt_repr c ns -> ns !! i = Some n -> lsum id ns < 2 ^ 31 - 1 ->
    exists c', cnt_increment c (Z.of_nat i) = Some c' /\ cnt_repr c' (<[i := n + 1]> ns);
  cnt_get_bounds c ns :
    cnt_repr c ns ->
    cnt_get c <= lsum id ns <= cnt_get c + Z.of_nat (length ns) * cnt_error
}.

(** ** simple_counter.c *)

Module Simple.
Record counter_t := mk_counter { value : Z }.

Definition counter_init (num_threads : Z) : counter_t := mk_counter 0.

Definition counter_increment (c : counter_t) (thread_id : Z) : option counter_t :=
  v ← chk_s 32 (value c + 1); Some (mk_counter v).

Definition counter_get (c : counter_t) : Z := value c.

(** Every increment is in the value. *)
Definition repr (c : counter_t) (ns : list Z) : Prop :=
  value c = lsum id ns /\ Forall (Z.le 0) ns.
End Simple.

(** ** approx_counter.c *)

Module Approx.
Definition threshold : Z := 10000.

Record counter_t := mk_counter { value : Z; num_threads : Z; local_value : list Z }.

(** [locals] is the memory [malloc] returns for [local_value]: it is not
    initialised. *)
Definition counter_init (locals : list Z) (num_threads : Z) : counter_t :=
  mk_counter 0 num_threads locals.

Definition counter_increment (c : counter_t) (thread_id : Z) : option counter_t :=
  l ← (local_value c).[thread_id];
  l ← chk_s 32 (l + 1);
  if threshold <=? l then
    v ← chk_s 32 (value c + l);
    ls ← (local_value c).[thread_id <- 0];
    Some (mk_counter v (num_threads c) ls)
  else
    ls ← (local_value c).[thread_id <- l];
    Some (mk_counter (value c) (num_threads c) ls).

Definition counter_get (c : counter_t) : Z := value c.

(** The full thousands are in the value, the rest in the local counters. *)
Definition repr (c : counter_t) (ns : list Z) : Prop :=
  Forall (Z.le 0) ns /\
  local_value c = (fun n => n mod threshold) <$> ns /\
  value c = lsum (fun n => threshold * (n / threshold)) ns.
End Approx.

(** ** main.c *)

(** The calls of one thread of [increase_counter], and all of them. *)
Definition increase_counter (per_thread : nat) (thread_id : nat) : list nat := replicate per_thread thread_id.

Definition main_threads (num_cores per_thread : nat) : list (list nat) :=
  increase_counter per_thread <$> seq 0 num_cores.

Definition run_increments {C} `{Counter C} (c : C) (calls : list nat) : option C :=
  foldl (fun c i => c ← c; cnt_increment c (Z.of_nat i)) (Some c) calls.

(** ** The implementations satisfy the interface *)

Lemma lsum_ge_lookup (ns : list Z) i n : Forall (Z.le 0) ns -> ns !! i = Some n -> 0 <= n <= lsum id ns.
Proof.
  intros Hp. revert i. induction Hp as [|x ns Hx Hp IH]; intros i Hi; [done|].
  assert (0 <= lsum id ns) by (clear - Hp; induction Hp; simpl; unfold id in *; lia).
  rewrite lsum_cons. change (id x) with x.
  destruct i as [|i]; simpl in Hi; [simplify_eq; lia|]. specialize (IH i Hi). lia.
Qed.

#[export] Program Instance simple_counter : Counter Simple.counter_t := {
  cnt_increment := Simple.counter_increment;
  cnt_get := Simple.counter_get;
  cnt_error := 0;
  cnt_repr := Simple.repr
}.
Next Obligation.
  intros c ns i n [Hv Hp] Hi Hroom. destruct (lsum_ge_lookup ns i n Hp Hi) as [Hn Hle].
  unfold Simple.counter_increment. rewrite chk_s_ok by (unfold in_s; lia). simpl.
  eexists. split; [done|]. split; simpl.
  - rewrite (lsum_insert id ns i n (n + 1) Hi). unfold id in *. lia.
  - apply Forall_insert; [done|lia].
Qed.
Next Obligation. intros c ns [Hv _]. unfold Simple.counter_get. lia. Qed.

Lemma approx_value_le ns :
  Forall (Z.le 0) ns ->
  lsum (fun n => Approx.threshold * (n / Approx.threshold)) ns <= lsum id ns /\
  lsum id ns <= lsum (fun n => Approx.threshold * (n / Approx.threshold)) ns
                + Z.of_nat (length ns) * (Approx.threshold - 1).
Proof.
  unfold Approx.threshold. induction 1 as [|n ns Hn _ IH]; [simpl; lia|].
  rewrite !lsum_cons. cbn [length]. rewrite Nat2Z.inj_succ. change (id n) with n.
  assert (10000 * (n / 10000) <= n <= 10000 * (n / 10000) + 9999) by modlia. lia.
Qed.

(** The part of the value that is not thread [i]'s. *)
Lemma approx_value_at ns i n :
  Forall (Z.le 0) ns -> ns !! i = Some n ->
  let v := lsum (fun n => Approx.threshold * (n / Approx.threshold)) ns in
  0 <= v - Approx.threshold * (n / Approx.threshold) /\
  v - Approx.threshold * (n / Approx.threshold) + n <= lsum id ns.
Proof.
  intros Hp. revert i. induction Hp as [|x ns Hx Hp IH]; intros i Hi; [done|]. cbv zeta in *.
  rewrite !lsum_cons. change (id x) with x. unfold Approx.threshold in *.
  assert (0 <= 10000 * (x / 10000) <= x) by modlia.
  destruct i as [|i]; simpl in Hi; [|specialize (IH i Hi); lia].
  simplify_eq. destruct (approx_value_le ns Hp) as [Hb _]. unfold Approx.threshold in Hb.
  enough (0 <= lsum (fun n => 10000 * (n / 10000)) ns) by lia.
  clear - Hp. induction Hp as [|y ns Hy _ IH]; [done|].
  rewrite lsum_cons. modlia.
Qed.

Lemma approx_increment c ns i n :
  Approx.repr c ns -> ns !! i = Some n -> lsum id ns < 2 ^ 31 - 1 ->
  exists c', Approx.counter_increment c (Z.of_nat i) = Some c' /\ Approx.repr c' (<[i := n + 1]> ns).
Proof.
  intros (Hp & Hl & Hv) Hi Hroom. destruct (lsum_ge_lookup ns i n Hp Hi) as [Hn Hle].
  destruct (approx_value_le ns Hp) as [Hb _]. pose proof (lookup_lt_Some _ _ _ Hi) as Hlt.
  destruct (approx_value_at ns i n Hp Hi) as [Hv0 Hv1].
  unfold Approx.counter_increment. rewrite Hl.
  assert (Hget : ((fun n => n mod Approx.threshold) <$> ns).[Z.of_nat i] = Some (n mod Approx.threshold)).
  { rewrite arr_get_nat, Nat2Z.id by lia. by rewrite list_lookup_fmap, Hi. }
  rewrite Hget. cbn [mbind option_bind]. unfold Approx.threshold in *.
  assert (0 <= n mod 10000 < 10000) by (apply Z.mod_pos_bound; lia).
  rewrite chk_s_ok by (unfold in_s; lia). cbn [mbind option_bind].
  assert (Hsum : lsum (fun n => 10000 * (n / 10000)) (<[i := n + 1]> ns)
    = Approx.value c - 10000 * (n / 10000) + 10000 * ((n + 1) / 10000)).
  { rewrite (lsum_insert _ ns i n) by done. lia. }
  assert (Hp' : Forall (Z.le 0) (<[i := n + 1]> ns)) by (apply Forall_insert; [done|lia]).
  destruct (Z.leb_spec 10000 (n mod 10000 + 1)) as [Hfull|Hnot].
  - assert (E1 : n mod 10000 = 9999) by lia. assert (E2 : (n + 1) mod 10000 = 0) by modlia.
    assert (E3 : (n + 1) / 10000 = n / 10000 + 1) by modlia.
    rewrite chk_s_ok by (unfold in_s; modlia). cbn [mbind option_bind].
    rewrite arr_set_in by (rewrite length_fmap; lia). cbn [mbind option_bind]. rewrite Nat2Z.id.
    eexists. split; [done|]. split; [done|]. cbn [Approx.value Approx.local_value].
    split; [rewrite list_fmap_insert; unfold Approx.threshold; by rewrite E2|]. unfold Approx.threshold. rewrite Hsum. lia.
  - assert (E2 : (n + 1) mod 10000 = n mod 10000 + 1) by modlia.
    assert (E3 : (n + 1) / 10000 = n / 10000) by modlia.
    rewrite arr_set_in by (rewrite length_fmap; lia). cbn [mbind option_bind]. rewrite Nat2Z.id.
    eexists. split; [done|]. split; [done|]. cbn [Approx.value Approx.local_value].
    split; [rewrite list_fmap_insert; unfold Approx.threshold; by rewrite E2|]. unfold Approx.threshold. rewrite Hsum. lia.
Qed.

#[export] Program Instance approx_counter : Counter Approx.counter_t := {
  cnt_increment := Approx.counter_increment;
  cnt_get := Approx.counter_get;
  cnt_error := Approx.threshold - 1;
  cnt_repr := Approx.repr
}.
Next Obligation. apply approx_increment. Qed.
Next Obligation.
  intros c ns (Hp & _ & Hv). unfold Approx.counter_get. rewrite Hv.
  destruct (approx_value_le ns Hp). lia.
Qed.

(** ** Properties *)

Section client.
Context {C : Type} `{Counter C}.

(** Each call of thread [i] counts in [ns !! i]. *)
Lemma run_increments_repr calls : forall c ns,
  cnt_repr c ns -> Forall (fun i => (i < length ns)%nat) calls ->
  lsum id ns + Z.of_nat (length calls) < 2 ^ 31 ->
  exists c' ns', run_increments c calls = Some c' /\ cnt_repr c' ns' /\ length ns' = length ns /\
    forall i n, ns !! i = Some n -> ns' !! i = Some (n + lsum (ind (Nat.eqb i)) calls).
Proof.
  induction calls as [|k calls IH]; intros c ns Hc Hk Hroom.
  { exists c, ns. split; [done|]. split; [done|]. split; [done|]. intros i n Hi. by rewrite Z.add_0_r. }
  inversion Hk as [|? ? Hk1 Hk2]; subst. cbn [length] in Hroom.
  destruct (lookup_lt_is_Some_2 ns k Hk1) as [n Hn].
  destruct (cnt_increment_ok c ns k n Hc Hn) as (c1 & E1 & Hc1); [lia|].
  destruct (IH c1 (<[k := n + 1]> ns) Hc1) as (c' & ns' & E & Hc' & Hl & Hlook).
  - by rewrite length_insert.
  - rewrite (lsum_insert id ns k n) by done. unfold id in *. lia.
  - exists c', ns'. split; [unfold run_increments; cbn [foldl mbind option_bind]; by rewrite E1|].
    split; [done|]. rewrite length_insert in Hl. split; [done|]. intros i m Hi. rewrite lsum_cons.
    unfold ind at 1. destruct (Nat.eqb_spec i k) as [->|Hne].
    + rewrite (Hlook k (n + 1)) by (by apply list_lookup_insert_eq). simplify_eq. f_equal. lia.
    + rewrite (Hlook i m) by (by rewrite list_lookup_insert_ne). done.
Qed.

Lemma main_threads_calls cores per calls :
  interleaving (main_threads cores per) calls ->
  Forall (fun i => (i < cores)%nat) calls /\
  Z.of_nat (length calls) = Z.of_nat cores * Z.of_nat per /\
  forall i, (i < cores)%nat -> lsum (ind (Nat.eqb i)) calls = Z.of_nat per.
Proof.
  intros Hi. split; [|split].
  - apply (interleaving_Forall _ _ _ Hi). apply Forall_fmap, Forall_seq. intros i Hlt.
    apply Forall_replicate. lia.
  - pose proof (interleaving_sum (fun _ => 1) _ _ Hi) as Hs.
    rewrite (lsum_const (fun _ => 1) 1) in Hs by done.
    rewrite (lsum_const (lsum (fun _ => 1)) (Z.of_nat per)) in Hs.
    + unfold main_threads in Hs. rewrite length_fmap, length_seq in Hs. lia.
    + intros ts (i & -> & _)%list_elem_of_fmap. unfold increase_counter. rewrite lsum_replicate. lia.
  - intros i Hlt. rewrite (interleaving_sum _ _ _ Hi). unfold main_threads. clear Hi calls.
    assert (G : forall a n, lsum (lsum (ind (Nat.eqb i))) (increase_counter per <$> seq a n)
      = if decide (a <= i < a + n)%nat then Z.of_nat per else 0).
    { intros a n. revert a. induction n as [|n IHn]; intros a; simpl.
      - by rewrite decide_False by lia.
      - rewrite IHn. unfold increase_counter. rewrite lsum_replicate. unfold ind.
        destruct (Nat.eqb_spec i a), (decide (S a <= i < S a + n)%nat), (decide (a <= i < a + S n)%nat); lia. }
    rewrite G, decide_True by lia. done.
Qed.

Lemma run_main (cores per : nat) (calls : list nat) (c : C) :
  cnt_repr c (replicate cores 0) -> Z.of_nat cores * Z.of_nat per < 2 ^ 31 ->
  interleaving (main_threads cores per) calls ->
  exists c', run_increments c calls = Some c' /\ cnt_repr c' (replicate cores (Z.of_nat per)).
Proof.
  intros Hc Hroom Hi. destruct (main_threads_calls cores per calls Hi) as (Hk & Hlen & Hcnt).
  assert (H0 : lsum id (replicate cores 0) = 0) by (rewrite lsum_replicate; unfold id; lia).
  destruct (run_increments_repr calls c (replicate cores 0) Hc) as (c' & ns & E & Hr & Hl & Hlook).
  { by rewrite length_replicate. }
  { lia. }
  exists c'. split; [done|]. enough (ns = replicate cores (Z.of_nat per)) as <- by done.
  rewrite length_replicate in Hl.
  apply (list_eq_same_length _ _ cores); [by rewrite length_replicate|done|].
  intros i x y Hlt Hx Hy. rewrite (Hlook i 0) in Hx by (by apply lookup_replicate_2).
  rewrite Hcnt in Hx by done. apply lookup_replicate in Hy as [-> _]. simplify_eq. lia.
Qed.

(** The counter interface delivers what main.c needs: for every
    implementation of the interface and every interleaving of the increments of
    [num_cores] threads, no increment overflows and the final [counter_get] is
    at most the number of increments made and behind it by at most
    [num_cores] times the implementation's error. *)
Theorem counter_main_bounds (cores per : nat) (calls : list nat) (c : C)
    (Hc : cnt_repr c (replicate cores 0))
    (Hroom : Z.of_nat cores * Z.of_nat per < 2 ^ 31)
    (Hi : interleaving (main_threads cores per) calls) :
  exists c', run_increments c calls = Some c' /\
    cnt_get c' <= Z.of_nat cores * Z.of_nat per <= cnt_get c' + Z.of_nat cores * cnt_error.
Proof.
  destruct (run_main cores per calls c Hc Hroom Hi) as (c' & E & Hr). exists c'. split; [done|].
  pose proof (cnt_get_bounds c' _ Hr) as Hb. rewrite lsum_replicate, length_replicate in Hb. exact Hb.
Qed.
End client.

Lemma simple_init_repr cores : Simple.repr (Simple.counter_init (Z.of_nat cores)) (replicate cores 0).
Proof. split; [rewrite lsum_replicate; unfold id; simpl; lia|by apply Forall_replicate]. Qed.

(** Only when [malloc] happens to return zeroes. *)
Lemma approx_init_repr cores :
  Approx.repr (Approx.counter_init (replicate cores 0) (Z.of_nat cores)) (replicate cores 0).
Proof.
  split; [by apply Forall_replicate|]. split; [by rewrite fmap_replicate|].
  rewrite lsum_replicate, Z.div_0_l by (unfold Approx.threshold; lia). cbn [Approx.value Approx.counter_init]. lia.
Qed.

(** Both counters of the exercise end exact: on every interleaving the
    simple counter ends at the number of increments, and so does the approximate
    one when the local counters start at zero and each thread's number of
    increments is a multiple of the threshold, as the 10,000,000 of main.c are. *)
Theorem counters_exact (cores per : nat) (calls : list nat)
    (Hroom : Z.of_nat cores * Z.of_nat per < 2 ^ 31)
    (Hi : interleaving (main_threads cores per) calls) :
  (exists c, run_increments (Simple.counter_init (Z.of_nat cores)) calls = Some c /\
     Simple.counter_get c = Z.of_nat cores * Z.of_nat per) /\
  ((Approx.threshold | Z.of_nat per) ->
   exists c, run_increments (Approx.counter_init (replicate cores 0) (Z.of_nat cores)) calls = Some c /\
     Approx.counter_get c = Z.of_nat cores * Z.of_nat per).
Proof.
  split.
  - destruct (run_main (H := simple_counter) cores per calls _ (simple_init_repr cores) Hroom Hi) as (c & E & Hv & _).
    exists c. split; [done|]. rewrite lsum_replicate in Hv. exact Hv.
  - intros [m Hm].
    destruct (run_main (H := approx_counter) cores per calls _ (approx_init_repr cores) Hroom Hi) as (c & E & _ & _ & Hv).
    exists c. split; [done|]. unfold Approx.counter_get. rewrite Hv, lsum_replicate, Hm.
    rewrite Z.div_mul by (unfold Approx.threshold; lia). lia.
Qed.

Lemma counter_main_bounds_witness :
  exists c', run_increments (Approx.counter_init [0; 0] 2) [0; 1; 1; 0]%nat = Some c' /\
    cnt_get c' <= Z.of_nat 2 * Z.of_nat 2 <= cnt_get c' + Z.of_nat 2 * cnt_error.
Proof.
  apply (counter_main_bounds 2 2 [0; 1; 1; 0]%nat (Approx.counter_init [0; 0] 2));
    [apply (approx_init_repr 2)|lia|].
  eapply (il_cons _ 0); [reflexivity|]. eapply (il_cons _ 1); [reflexivity|].
  eapply (il_cons _ 1); [reflexivity|]. eapply (il_cons _ 0); [reflexivity|].
  constructor. repeat constructor.
Defined.

Lemma counters_exact_witness :
  (exists c, run_increments (Simple.counter_init 2) [0; 1; 1; 0]%nat = Some c /\
     Simple.counter_get c = Z.of_nat 2 * Z.of_nat 2) /\
  ((Approx.threshold | Z.of_nat 2) ->
   exists c, run_increments (Approx.counter_init [0; 0] 2) [0; 1; 1; 0]%nat = Some c /\
     Approx.counter_get c = Z.of_nat 2 * Z.of_nat 2).
Proof.
  apply (counters_exact 2 2 [0; 1; 1; 0]%nat); [lia|].
  eapply (il_cons _ 0); [reflexivity|]. eapply (il_cons _ 1); [reflexivity|].
  eapply (il_cons _ 1); [reflexivity|]. eapply (il_cons _ 0); [reflexivity|].
  constructor. repeat constructor.
Defined.

(** With whatever [malloc] left in [local_value], one increment can show a
    count that was never made. *)
Example approx_uninitialised :
  Approx.counter_get <$> Approx.counter_increment (Approx.counter_init [123456] 1) 0 = Some 123457.
Proof. reflexivity. Qed.
