(* ===== verification/CounterThreads.v ===== *)
(** * The counters, access by access

    Counters.v takes an increment as one step. Here the threads of
    29_LockedDataStructures/main.c run [counter_increment] of simple_counter.c
    and of approx_counter.c statement by statement: the locks, the loads and the
    stores are steps of their own, so that the result rests on the locks.
    [SimpleThreads] has the counter behind one lock, [ApproxThreads] the one
    with local counters and locks. Undefined operations ([int] overflow, an access outside
    an array) do not move; the lemmas on progress show that there are none. *)

From S2P Require Import Prelude Threads Heap Counters.

(** ** simple_counter.c *)
Module SimpleThreads.

Record shared := mk_shared { value : Z; glock : bool }.

Inductive pc := Loop | Lock | Load | Store | Unlock | Done.
#[export] Instance pc_eq : EqDecision pc.
Proof. solve_decision. Defined.

Record thread := mk_thread { at_pc : pc; i : Z; tmp : Z }.

(** [increase_counter] with [counter_increment] inlined. *)
Definition tstep (per : Z) (s : shared) (t : thread) : option (shared * thread) :=
  match at_pc t with
  | Loop => Some (s, mk_thread (if i t <? per then Lock else Done) (i t) (tmp t))
  | Lock => l ← mutex_lock (glock s); Some (mk_shared (value s) l, mk_thread Load (i t) (tmp t))
  | Load => Some (s, mk_thread Store (i t) (value s))
  | Store => v ← chk_s 32 (tmp t + 1); Some (mk_shared v (glock s), mk_thread Unlock (i t) (tmp t))
  | Unlock => Some (mk_shared (value s) (mutex_unlock (glock s)), mk_thread Loop (i t + 1) (tmp t))
  | Done => None
  end.

Definition init (cores : nat) : shared * list thread := (mk_shared 0 false, replicate cores (mk_thread Loop 0 0)).

Definition returned (t : thread) : bool := bool_decide (at_pc t = Done).

Section proofs.
Variable per : Z.
Variable cores : nat.
Hypothesis per_nonneg : 0 <= per.
Hypothesis room : Z.of_nat cores * per < 2 ^ 31.

(** The increments a thread has stored. *)
Definition incs (t : thread) : Z := match at_pc t with Unlock => i t + 1 | _ => i t end.
Definition in_crit (t : thread) : bool := match at_pc t with Load | Store | Unlock => true | _ => false end.

Definition thread_ok (s : shared) (t : thread) : Prop :=
  0 <= i t <= per /\ (at_pc t = Store -> tmp t = value s) /\ (at_pc t = Done -> i t = per) /\
  (at_pc t <> Loop -> at_pc t <> Done -> i t < per).

Definition inv (s : shared) (ts : list thread) : Prop :=
  length ts = cores /\ value s = lsum incs ts /\ lsum (ind in_crit) ts = (if glock s then 1 else 0) /\
  forall k t, ts !! k = Some t -> thread_ok s t.

Lemma simple_inv_init : inv (init cores).1 (init cores).2.
Proof.
  unfold inv, init; simpl. rewrite length_replicate, !lsum_replicate. split_and!; [done|unfold incs; simpl; lia|unfold ind; simpl; lia|].
  intros k t [-> _]%lookup_replicate. unfold thread_ok; simpl. split_and!; try done; lia.
Qed.

(** Only the thread in the critical section changes the value. *)
Lemma others_ok s s' ts k t :
  inv s ts -> ts !! k = Some t -> (in_crit t = true \/ value s' = value s) ->
  forall j u, j <> k -> ts !! j = Some u -> thread_ok s' u.
Proof.
  intros (_ & _ & Hc & Hok) Hk Hv j u Hne Hj. destruct (Hok j u Hj) as (H1 & H2 & H3 & H4).
  split; [done|]. split; [|done]. intros Hst. destruct Hv as [Hv| ->]; [|by apply H2].
  pose proof (lsum_lookup2_le (ind in_crit) ts k j t u ltac:(auto with carr) ltac:(done) Hk Hj) as Hle.
  assert (Hu : in_crit u = true) by (unfold in_crit; by rewrite Hst).
  assert (ind in_crit t = 1 /\ ind in_crit u = 1) by (unfold ind; by rewrite Hv, Hu). destruct (glock s); lia.
Qed.

Lemma incs_bound s ts k t : inv s ts -> ts !! k = Some t -> lsum incs ts <= Z.of_nat cores * per - per + incs t.
Proof.
  intros (Hl & _ & _ & Hok) Hk.
  assert (Hle : lsum incs (<[k := mk_thread Done per 0]> ts) <= lsum (fun _ => per) (<[k := mk_thread Done per 0]> ts)).
  { apply lsum_le. intros u (j & Hj)%list_elem_of_lookup. apply list_lookup_insert_Some in Hj as [(-> & <- & _)|[_ Hj]].
    - unfold incs; simpl. lia.
    - destruct (Hok j u Hj) as (H1 & _ & _ & H4). unfold incs. destruct (at_pc u) eqn:E; try lia. specialize (H4 ltac:(done) ltac:(done)). lia. }
  rewrite (lsum_insert incs _ _ _ _ Hk), (lsum_const (fun _ => per) per), length_insert, Hl in Hle by done.
  unfold incs at 3 in Hle. simpl in Hle. lia.
Qed.

Lemma simple_inv_step k s ts t s' t' :
  inv s ts -> ts !! k = Some t -> tstep per s t = Some (s', t') -> inv s' (<[k := t']> ts).
Proof.
  intros HI Hk Ht. pose proof HI as (Hl & Hv & Hc & Hok). pose proof (Hok k t Hk) as (H1 & H2 & H3 & H4).
  pose proof (lsum_lookup_le (ind in_crit) ts k t ltac:(auto with carr) Hk) as Hcr.
  assert (Hoth : in_crit t = true \/ value s' = value s).
  { unfold tstep in Ht. unfold in_crit. destruct (at_pc t); simpl in *; inv_sync; simplify_eq/=; auto. }
  assert (Hme : thread_ok s' t' /\ value s' = value s - incs t + incs t' /\
                (if glock s' then 1 else 0) = (if glock s then 1 else 0) - ind in_crit t + ind in_crit t').
  { unfold tstep in Ht. unfold thread_ok, incs, ind, in_crit in *. destruct t as [p n v], s as [val g]; simpl in *.
    destruct p; simpl in *; inv_sync; simplify_eq/=.
    - destruct (Z.ltb_spec n per); simpl; split_and!; try done; try lia; intros; lia.
    - specialize (H4 ltac:(done) ltac:(done)). split_and!; try done; lia.
    - specialize (H4 ltac:(done) ltac:(done)). split_and!; try done; lia.
    - destruct (chk_s 32 (v + 1)) as [v'|] eqn:E; simplify_eq/=. apply chk_s_Some in E as [-> _].
      specialize (H2 eq_refl). specialize (H4 ltac:(done) ltac:(done)). subst v. split_and!; try done; try lia.
    - specialize (H4 ltac:(done) ltac:(done)). destruct g; split_and!; try done; try lia. }
  destruct Hme as (Hme & Hval & Hcrit). split; [by rewrite length_insert|].
  rewrite (lsum_insert incs _ _ _ _ Hk), (lsum_insert (ind in_crit) _ _ _ _ Hk). split_and!; [lia|lia|].
  intros j u Hj. apply list_lookup_insert_Some in Hj as [(-> & <- & _)|[Hne Hj]]; [done|].
  by apply (others_ok s s' ts k t HI Hk Hoth j u).
Qed.

Lemma simple_inv_reach s ts : rtc (sys_step (tstep per)) (init cores) (s, ts) -> inv s ts.
Proof. apply thread_invariant; [exact simple_inv_init|]. intros. by eapply simple_inv_step. Qed.

Definition todo (t : thread) : nat :=
  Z.to_nat (5 * (per - i t) + match at_pc t with Loop => 1 | Lock => 0 | Load => -1 | Store => -2 | Unlock => -3 | Done => 0 end).

Lemma simple_step_todo s t s' t' : thread_ok s t -> tstep per s t = Some (s', t') -> (todo t' < todo t)%nat.
Proof.
  intros (H1 & _ & H3 & H4) Ht. unfold tstep, todo in *. destruct t as [p n v], s as [val g]; cbn [at_pc i tmp] in *.
  destruct p; cbn [mutex_lock glock] in *; inv_sync; simplify_eq; cbn [at_pc i]; try specialize (H4 ltac:(done) ltac:(done)).
  - destruct (Z.ltb_spec n per); lia.
  - lia.
  - lia.
  - destruct (chk_s 32 (v + 1)); simplify_eq/=. lia.
  - lia.
Qed.

Lemma simple_progress s ts :
  inv s ts -> (forall k t, ts !! k = Some t -> returned t = true) \/ exists c', sys_step (tstep per) (s, ts) c'.
Proof.
  intros HI. pose proof HI as (Hl & Hv & Hc & Hok).
  destruct (list_find_dec in_crit ts) as [(k & t & Hk & Ht)|Hnone].
  { right. apply (thread_can_step _ _ _ _ _ Hk). pose proof (incs_bound _ _ _ _ HI Hk) as Hb.
    destruct (Hok k t Hk) as (H1 & H2 & _ & H4).
    unfold in_crit in Ht. unfold tstep. unfold incs in Hb at 2. destruct (at_pc t) eqn:E; try done.
    - rewrite chk_s_ok; [by eexists|]. rewrite (H2 eq_refl). specialize (H4 ltac:(done) ltac:(done)).
      assert (0 <= lsum incs ts).
      { rewrite <- (Z.mul_0_r (Z.of_nat (length ts))), <- (lsum_const (fun _ : thread => 0) 0) by done. apply lsum_le.
        intros u (j & Hj)%list_elem_of_lookup. destruct (Hok j u Hj) as (? & _). unfold incs. destruct (at_pc u); lia. }
      unfold in_s. lia. }
  assert (Hg : glock s = false).
  { destruct (glock s); [|done]. destruct (lsum_pos_inv (ind in_crit) ts ltac:(auto with carr) ltac:(lia)) as (k & t & Hk & Ht).
    unfold ind in Ht. by rewrite (Hnone k t Hk) in Ht. }
  destruct (list_find_dec (fun t => negb (returned t)) ts) as [(k & t & Hk & Ht)|Hall].
  - right. apply (thread_can_step _ _ _ _ _ Hk). specialize (Hnone k t Hk). unfold in_crit, returned, tstep in *.
    destruct (at_pc t); try done; try (by eexists). rewrite Hg. by eexists.
  - left. intros k t Hk. specialize (Hall k t Hk). by apply negb_false_iff in Hall.
Qed.

Lemma simple_terminates :
  (forall k c, nsteps (sys_step (tstep per)) k (init cores) c -> Z.of_nat k <= Z.of_nat cores * (5 * per + 1)) /\
  (forall c, rtc (sys_step (tstep per)) (init cores) c ->
     exists c', rtc (sys_step (tstep per)) c c' /\ forall k t, c'.2 !! k = Some t -> returned t = true).
Proof.
  destruct (system_terminates (tstep per) inv todo (fun c => forall k t, c.2 !! k = Some t -> returned t = true)
    (init cores).1 (init cores).2 simple_inv_init) as [Hb Hf].
  - intros k s ts t s' t' HI Hk Ht. split; [by eapply simple_inv_step|]. pose proof HI as (_ & _ & _ & Hok).
    eapply simple_step_todo; [by eapply Hok|done].
  - exact simple_progress.
  - split; [|exact Hf]. intros k c Hk. specialize (Hb k c Hk). simpl in Hb. rewrite lsum_replicate in Hb.
    unfold todo in Hb. cbn [at_pc i] in Hb. rewrite Z2Nat.id in Hb by lia. lia.
Qed.

Lemma simple_final_value s ts :
  rtc (sys_step (tstep per)) (init cores) (s, ts) -> (forall k t, ts !! k = Some t -> returned t = true) ->
  value s = Z.of_nat cores * per.
Proof.
  intros Hr Hall. destruct (simple_inv_reach s ts Hr) as (<- & -> & _ & Hok). apply lsum_const.
  intros t (k & Hk)%list_elem_of_lookup. specialize (Hall k t Hk). unfold returned in Hall.
  apply bool_decide_eq_true_1 in Hall. unfold incs. rewrite Hall. by apply (Hok k t Hk).
Qed.
End proofs.
End SimpleThreads.

(** ** approx_counter.c *)
Module ApproxThreads.

Record shared := mk_shared { value : Z; local_value : list Z; glock : bool; llock : list bool }.

Inductive pc :=
  | Loop | LLock | LLoad | LStore | Test | GLock | GLoad | GStore | GUnlock | Reset | LUnlock | Done.
#[export] Instance pc_eq : EqDecision pc.
Proof. solve_decision. Defined.

Record thread := mk_thread { thread_id : nat; at_pc : pc; i : Z; tmp : Z }.

Notation threshold := Approx.threshold.

(** [increase_counter] with [counter_increment] inlined; [local_value[id] += 1]
    and [value += local_value[id]] are a load and a store each. *)
Definition tstep (per : Z) (s : shared) (t : thread) : option (shared * thread) :=
  let id := thread_id t in
  let go p := mk_thread id p (i t) (tmp t) in
  match at_pc t with
  | Loop => Some (s, go (if i t <? per then LLock else Done))
  | LLock =>
      b ← llock s !! id; l ← mutex_lock b;
      Some (mk_shared (value s) (local_value s) (glock s) (<[id := l]> (llock s)), go LLoad)
  | LLoad => v ← local_value s !! id; Some (s, mk_thread id LStore (i t) v)
  | LStore =>
      v ← chk_s 32 (tmp t + 1); _ ← local_value s !! id;
      Some (mk_shared (value s) (<[id := v]> (local_value s)) (glock s) (llock s), go Test)
  | Test => v ← local_value s !! id; Some (s, go (if threshold <=? v then GLock else LUnlock))
  | GLock => l ← mutex_lock (glock s); Some (mk_shared (value s) (local_value s) l (llock s), go GLoad)
  | GLoad =>
      v ← local_value s !! id; w ← chk_s 32 (value s + v); Some (s, mk_thread id GStore (i t) w)
  | GStore => Some (mk_shared (tmp t) (local_value s) (glock s) (llock s), go GUnlock)
  | GUnlock => Some (mk_shared (value s) (local_value s) (mutex_unlock (glock s)) (llock s), go Reset)
  | Reset =>
      _ ← local_value s !! id;
      Some (mk_shared (value s) (<[id := 0]> (local_value s)) (glock s) (llock s), go LUnlock)
  | LUnlock =>
      b ← llock s !! id;
      Some (mk_shared (value s) (local_value s) (glock s) (<[id := mutex_unlock b]> (llock s)),
            mk_thread id Loop (i t + 1) (tmp t))
  | Done => None
  end.

(** [counter_init] and the threads of main; [mem] is what the memory that
    [malloc] returns for [local_value] holds, which is never initialised. *)
Definition init (mem : list Z) (cores : nat) : shared * list thread :=
  (mk_shared 0 mem false (replicate cores false),
   (fun id => mk_thread id Loop 0 0) <$> seq 0 cores).

Definition returned (t : thread) : bool := bool_decide (at_pc t = Done).

(** ** What a thread's position says of the shared state *)

(** Its local counter, what of its increments is in the global value, whether it
    holds its own lock and the global one, and the increments it has made. *)
Definition local_of (t : thread) : Z :=
  match at_pc t with
  | Test => i t mod threshold + 1
  | GLock | GLoad | GStore | GUnlock | Reset => threshold
  | LUnlock => (i t + 1) mod threshold
  | _ => i t mod threshold
  end.

Definition flushed (t : thread) : Z :=
  match at_pc t with
  | GUnlock | Reset => threshold * (i t / threshold) + threshold
  | LUnlock => threshold * ((i t + 1) / threshold)
  | _ => threshold * (i t / threshold)
  end.

Definition holds_l (t : thread) : bool := match at_pc t with Loop | LLock | Done => false | _ => true end.
Definition holds_g (t : thread) : bool := match at_pc t with GLoad | GStore | GUnlock => true | _ => false end.

Definition made (t : thread) : Z :=
  match at_pc t with
  | Test | GLock | GLoad | GStore | GUnlock | Reset | LUnlock => i t + 1
  | _ => i t
  end.

Section proofs.
Variable per : Z.
Variable cores : nat.
Hypothesis per_nonneg : 0 <= per.
Hypothesis room : Z.of_nat cores * per < 2 ^ 31.

(** A thread past its test is at a full local counter. *)
Definition full (t : thread) : bool := match at_pc t with GLock | GLoad | GStore | GUnlock | Reset => true | _ => false end.

Definition thread_ok (s : shared) (t : thread) : Prop :=
  0 <= i t <= per /\ (at_pc t = Done -> i t = per) /\ (at_pc t <> Loop -> at_pc t <> Done -> i t < per) /\
  (full t = true -> i t mod threshold = threshold - 1) /\
  (at_pc t = LStore -> tmp t = i t mod threshold) /\ (at_pc t = GStore -> tmp t = value s + threshold).

Definition inv (s : shared) (ts : list thread) : Prop :=
  length ts = cores /\ (forall k t, ts !! k = Some t -> thread_id t = k) /\
  local_value s = local_of <$> ts /\ llock s = holds_l <$> ts /\
  value s = lsum flushed ts /\ lsum (ind holds_g) ts = (if glock s then 1 else 0) /\
  forall k t, ts !! k = Some t -> thread_ok s t.

Lemma approx_inv_init : inv (init (replicate cores 0) cores).1 (init (replicate cores 0) cores).2.
Proof.
  assert (Hid : forall k t, ((fun id => mk_thread id Loop 0 0) <$> seq 0 cores) !! k = Some t -> t = mk_thread k Loop 0 0).
  { intros k t Hk. apply list_lookup_fmap_Some in Hk as (j & -> & Hj). by apply lookup_seq in Hj as [-> _]. }
  assert (Hrep : forall {A} (f : thread -> A) a, (forall k, f (mk_thread k Loop 0 0) = a) ->
    replicate cores a = f <$> ((fun id => mk_thread id Loop 0 0) <$> seq 0 cores)).
  { intros A f a Hf. rewrite <- list_fmap_compose. apply replicate_as_elem_of. split; [by rewrite length_fmap, length_seq|].
    intros x (j & -> & _)%list_elem_of_fmap. apply Hf. }
  unfold inv, init; simpl. split_and!.
  - by rewrite length_fmap, length_seq.
  - intros k t Hk. by rewrite (Hid k t Hk).
  - by apply Hrep.
  - by apply Hrep.
  - rewrite (lsum_const _ 0); [lia|]. intros t (k & Hk)%list_elem_of_lookup. by rewrite (Hid k t Hk).
  - rewrite (lsum_const _ 0); [lia|]. intros t (k & Hk)%list_elem_of_lookup. by rewrite (Hid k t Hk).
  - intros k t Hk. rewrite (Hid k t Hk). unfold thread_ok; simpl. split_and!; try done; lia.
Qed.

Lemma threshold_val : threshold = 10000.
Proof. done. Qed.

(** A step of one thread, as seen from its position alone. *)
Lemma step_local s ts k t s' t' :
  inv s ts -> ts !! k = Some t -> tstep per s t = Some (s', t') ->
  thread_id t' = k /\ thread_ok s' t' /\
  local_value s' = <[k := local_of t']> (local_value s) /\ llock s' = <[k := holds_l t']> (llock s) /\
  value s' = value s - flushed t + flushed t' /\
  (if glock s' then 1 else 0) = (if glock s then 1 else 0) - ind holds_g t + ind holds_g t' /\
  (holds_g t = true \/ value s' = value s).
Proof.
  intros (Hl & Hid & Hlv & Hll & Hv & Hg & Hok) Hk Ht. pose proof (Hok k t Hk) as (H1 & H2 & H3 & H4 & H5 & H6).
  pose proof (Hid k t Hk) as Hidk.
  assert (Hloc : local_value s !! k = Some (local_of t)) by (rewrite Hlv, list_lookup_fmap, Hk; done).
  assert (Hlck : llock s !! k = Some (holds_l t)) by (rewrite Hll, list_lookup_fmap, Hk; done).
  assert (Hsame : <[k := local_of t]> (local_value s) = local_value s /\ <[k := holds_l t]> (llock s) = llock s)
    by (split; by apply list_insert_id). destruct Hsame as [Hsl Hsh].
  pose proof (lsum_lookup_le (ind holds_g) ts k t ltac:(auto with carr) Hk) as Hgt.
  destruct s as [val lv g ll], t as [id p n v]; simpl in *; subst id.
  unfold tstep in Ht; simpl in Ht. unfold thread_ok, full, local_of, flushed, holds_l, holds_g, ind in *; simpl in *.
  rewrite threshold_val in *.
  destruct p; simpl in *; rewrite ?Hloc, ?Hlck in Ht; simpl in Ht; inv_sync; simplify_eq/=;
    try specialize (H3 ltac:(done) ltac:(done)).
  - destruct (Z.ltb_spec n per); simplify_eq/=; split_and!; try done; try (by right); try lia; intros; lia.
  - split_and!; try done; try (by right); lia.
  - split_and!; try done; try (by right); lia.
  - destruct (chk_s 32 (v + 1)) as [w|] eqn:E; simplify_eq/=.
    apply chk_s_Some in E as [-> _]. rewrite (H5 eq_refl). split_and!; try done; try (by right); lia.
  - destruct (Z.leb_spec 10000 (n mod 10000 + 1)); simplify_eq/=; split_and!; try done; try (by right); try lia; try modlia.
    + rewrite <- Hsl at 1. f_equal. modlia.
    + rewrite <- Hsl at 1. f_equal. modlia.
  - split_and!; try done; try (by right); lia.
  - destruct (chk_s 32 _) as [w|] eqn:E; simplify_eq/=. apply chk_s_Some in E as [-> _].
    split_and!; try done; try (by right); lia.
  - specialize (H6 eq_refl). split_and!; try done; try (by left); lia.
  - destruct g; split_and!; try done; try (by left); lia.
  - specialize (H4 eq_refl). split_and!; try done; try (by right); try lia; try modlia.
    f_equal. modlia.
  - split_and!; try done; try (by right); lia.
Qed.

Lemma approx_inv_step k s ts t s' t' :
  inv s ts -> ts !! k = Some t -> tstep per s t = Some (s', t') -> inv s' (<[k := t']> ts).
Proof.
  intros HI Hk Ht. destruct (step_local s ts k t s' t' HI Hk Ht) as (Hid' & Hme & Hlv' & Hll' & Hv' & Hg' & Hsame).
  destruct HI as (Hl & Hid & Hlv & Hll & Hv & Hg & Hok).
  split; [by rewrite length_insert|]. rewrite (lsum_insert flushed _ _ _ _ Hk), (lsum_insert (ind holds_g) _ _ _ _ Hk).
  split_and!.
  - intros j u [(-> & <- & _)|[_ Hj]]%list_lookup_insert_Some; [done|by apply Hid].
  - by rewrite list_fmap_insert, <- Hlv.
  - by rewrite list_fmap_insert, <- Hll.
  - lia.
  - lia.
  - intros j u [(-> & <- & _)|[Hne Hj]]%list_lookup_insert_Some; [done|].
    destruct (Hok j u Hj) as (H1 & H2 & H3 & H4 & H5 & H6). do 5 (split; [done|]). intros Hst.
    destruct Hsame as [Ht1| ->]; [|by apply H6].
    pose proof (lsum_lookup2_le (ind holds_g) ts k j t u ltac:(auto with carr) Hne Hk Hj) as Hle.
    assert (Hu : holds_g u = true) by (unfold holds_g; by rewrite Hst).
    assert (ind holds_g t = 1 /\ ind holds_g u = 1) by (unfold ind; by rewrite Ht1, Hu). destruct (glock s); lia.
Qed.

Lemma approx_inv_reach s ts : rtc (sys_step (tstep per)) (init (replicate cores 0) cores) (s, ts) -> inv s ts.
Proof. apply thread_invariant; [exact approx_inv_init|]. intros. by eapply approx_inv_step. Qed.

(** ** The approximation *)

(** What a thread has made is in the global value or in its local counter, but
    for the moment between the two stores of a flush. *)
Lemma flushed_made s t :
  thread_ok s t -> 0 <= flushed t <= made t /\ made t <= flushed t + threshold /\ made t <= per.
Proof.
  intros (H1 & H2 & H3 & H4 & _ & _). unfold flushed, made, full in *. rewrite threshold_val in *.
  destruct (at_pc t); try specialize (H3 ltac:(done) ltac:(done)); try specialize (H4 eq_refl); modlia.
Qed.

Lemma value_bounds s ts :
  inv s ts -> 0 <= value s <= lsum made ts /\ lsum made ts <= value s + Z.of_nat cores * threshold /\
              lsum made ts <= Z.of_nat cores * per.
Proof.
  intros (Hl & _ & _ & _ & -> & _ & Hok).
  assert (Hall : forall t, t ∈ ts -> exists s, thread_ok s t).
  { intros t (k & Hk)%list_elem_of_lookup. exists s. by eapply Hok. }
  assert (0 <= lsum flushed ts).
  { rewrite <- (Z.mul_0_r (Z.of_nat (length ts))), <- (lsum_const (fun _ : thread => 0) 0) by done.
    apply lsum_le. intros t Ht. destruct (Hall t Ht) as [s' Hs]. apply (flushed_made s' t Hs). }
  assert (lsum flushed ts <= lsum made ts).
  { apply lsum_le. intros t Ht. destruct (Hall t Ht) as [s' Hs]. apply (flushed_made s' t Hs). }
  assert (lsum made ts <= lsum (fun t => flushed t + threshold) ts).
  { apply lsum_le. intros t Ht. destruct (Hall t Ht) as [s' Hs]. apply (flushed_made s' t Hs). }
  assert (lsum made ts <= lsum (fun _ => per) ts).
  { apply lsum_le. intros t Ht. destruct (Hall t Ht) as [s' Hs]. apply (flushed_made s' t Hs). }
  assert (Hadd : lsum (fun t => flushed t + threshold) ts = lsum flushed ts + Z.of_nat (length ts) * threshold).
  { clear. induction ts as [|t ts IH]; [done|]. rewrite !lsum_cons, IH. cbn [length]. lia. }
  rewrite (lsum_const (fun _ : thread => per) per) in * by done. subst cores. lia.
Qed.

(** ** Progress *)

Definition todo (t : thread) : nat :=
  Z.to_nat (11 * (per - i t) +
    match at_pc t with
    | Loop => 1 | LLock => 0 | LLoad => -1 | LStore => -2 | Test => -3 | GLock => -4 | GLoad => -5 | GStore => -6
    | GUnlock => -7 | Reset => -8 | LUnlock => -9 | Done => 0
    end).

Lemma approx_step_todo s ts k t s' t' :
  inv s ts -> ts !! k = Some t -> tstep per s t = Some (s', t') -> (todo t' < todo t)%nat.
Proof.
  intros HI Hk Ht. destruct HI as (_ & _ & _ & _ & _ & _ & Hok). destruct (Hok k t Hk) as (H1 & H2 & H3 & _).
  unfold tstep, todo in *. destruct s as [val lv g ll], t as [id p n v]; cbn [at_pc i tmp thread_id] in *.
  destruct p; cbn [llock local_value glock] in Ht; try specialize (H3 ltac:(done) ltac:(done));
    repeat match type of Ht with
    | context [mbind _ ?o] => destruct o eqn:?; cbn [mbind option_bind] in Ht; [|discriminate Ht]
    end; try discriminate Ht; injection Ht as <- <-; cbn [at_pc i]; try lia.
  - destruct (Z.ltb_spec n per); lia.
  - destruct (threshold <=? z); lia.
Qed.

(** A thread that is not at the global lock, or finds it free, can move. *)
Lemma can_move s ts k t :
  inv s ts -> ts !! k = Some t -> returned t = false -> (at_pc t = GLock -> glock s = false) ->
  is_Some (tstep per s t).
Proof.
  intros HI Hk Hr Hg. pose proof (value_bounds s ts HI) as (Hv1 & _ & Hv3).
  pose proof HI as (Hl & Hid & Hlv & Hll & _ & _ & Hok). pose proof (Hok k t Hk) as Hokt.
  assert (Hloc : local_value s !! thread_id t = Some (local_of t)) by (rewrite (Hid k t Hk), Hlv, list_lookup_fmap, Hk; done).
  assert (Hlck : llock s !! thread_id t = Some (holds_l t)) by (rewrite (Hid k t Hk), Hll, list_lookup_fmap, Hk; done).
  pose proof Hokt as (H1 & H2 & H3 & H4 & H5 & H6).
  unfold tstep, returned, holds_l, local_of in *. rewrite threshold_val in *.
  destruct (at_pc t) eqn:E; rewrite ?Hloc, ?Hlck; cbn [mbind option_bind mutex_lock];
    try (exfalso; by rewrite bool_decide_eq_true_2 in Hr); try (by eexists);
    try specialize (H3 ltac:(done) ltac:(done)).
  - rewrite (H5 eq_refl), chk_s_ok; [by eexists|]. unfold in_s. assert (0 <= i t mod 10000 < 10000) by (apply Z.mod_pos_bound; lia). lia.
  - rewrite (Hg eq_refl). by eexists.
  - rewrite chk_s_ok; [by eexists|]. unfold in_s.
    set (u := mk_thread k GUnlock (i t) 0).
    assert (Hu : flushed u = flushed t + 10000 /\ made u = made t /\ flushed u <= made u).
    { specialize (H4 ltac:(unfold full; by rewrite E)). unfold u, flushed, made; simpl. rewrite E, threshold_val. modlia. }
    assert (HI' : lsum flushed (<[k := u]> ts) <= lsum made (<[k := u]> ts)).
    { apply lsum_le. intros w (j & [(-> & <- & _)|[_ Hj]]%list_lookup_insert_Some)%list_elem_of_lookup; [lia|].
      apply (flushed_made s w (Hok j w Hj)). }
    rewrite (lsum_insert made ts k t _ Hk), (lsum_insert flushed ts k t _ Hk) in HI'.
    destruct HI as (_ & _ & _ & _ & Hval & _). lia.
Qed.

Lemma approx_progress s ts :
  inv s ts -> (forall k t, ts !! k = Some t -> returned t = true) \/ exists c', sys_step (tstep per) (s, ts) c'.
Proof.
  intros HI. destruct (list_find_dec holds_g ts) as [(k & t & Hk & Ht)|Hnone].
  { right. apply (thread_can_step _ _ _ _ _ Hk), (can_move s ts k t HI Hk); unfold holds_g, returned in *; by destruct (at_pc t). }
  assert (Hg : glock s = false).
  { destruct HI as (_ & _ & _ & _ & _ & Hg & _). destruct (glock s); [|done].
    destruct (lsum_pos_inv (ind holds_g) ts ltac:(auto with carr) ltac:(lia)) as (k & t & Hk & Ht).
    unfold ind in Ht. by rewrite (Hnone k t Hk) in Ht. }
  destruct (list_find_dec (fun t => negb (returned t)) ts) as [(k & t & Hk & Ht)|Hall].
  - right. apply (thread_can_step _ _ _ _ _ Hk), (can_move s ts k t HI Hk); [by apply negb_true_iff in Ht|done].
  - left. intros k t Hk. specialize (Hall k t Hk). by apply negb_false_iff in Hall.
Qed.

Lemma approx_terminates :
  (forall k c, nsteps (sys_step (tstep per)) k (init (replicate cores 0) cores) c -> Z.of_nat k <= Z.of_nat cores * (11 * per + 1)) /\
  (forall c, rtc (sys_step (tstep per)) (init (replicate cores 0) cores) c ->
     exists c', rtc (sys_step (tstep per)) c c' /\ forall k t, c'.2 !! k = Some t -> returned t = true).
Proof.
  destruct (system_terminates (tstep per) inv todo (fun c => forall k t, c.2 !! k = Some t -> returned t = true)
    (init (replicate cores 0) cores).1 (init (replicate cores 0) cores).2 approx_inv_init) as [Hb Hf].
  - intros k s ts t s' t' HI Hk Ht. split; [by eapply approx_inv_step|by eapply approx_step_todo].
  - exact approx_progress.
  - split; [|exact Hf]. intros k c Hk. specialize (Hb k c Hk). cbn [init snd] in Hb.
    rewrite (lsum_const _ (11 * per + 1)), length_fmap, length_seq in Hb; [lia|].
    intros t (j & -> & _)%list_elem_of_fmap. unfold todo. cbn [at_pc i]. lia.
Qed.

Lemma approx_final_value s ts :
  rtc (sys_step (tstep per)) (init (replicate cores 0) cores) (s, ts) -> (forall k t, ts !! k = Some t -> returned t = true) ->
  value s = Z.of_nat cores * (threshold * (per / threshold)).
Proof.
  intros Hr Hall. destruct (approx_inv_reach s ts Hr) as (<- & _ & _ & _ & -> & _ & Hok). apply lsum_const.
  intros t (k & Hk)%list_elem_of_lookup. specialize (Hall k t Hk). unfold returned in Hall.
  apply bool_decide_eq_true_1 in Hall. unfold flushed. rewrite Hall. destruct (Hok k t Hk) as (_ & H2 & _). by rewrite (H2 Hall).
Qed.
End proofs.
End ApproxThreads.

(** ** counter_init and counter_destroy on the heap *)
Module CounterHeap.

Inductive cblock :=
  | CUninit
  | CSimple (value : Z) (glock : bool)
  | CApprox (value num_threads : Z) (local_value : nat) (glock : bool) (llock : nat)
  | CLocals (l : list Z)
  | CLocks (l : list bool).

Definition simple_init (num_threads : Z) : hm cblock nat :=
  let! c := halloc CUninit in
  let! _ := hstore c (CSimple 0 false) in
  hret c.

Definition simple_destroy (c : nat) : hm cblock unit := hfree c.

(** [junk] is the uninitialised memory of [local_value]. *)
Definition approx_init (junk : list Z) (num_threads : Z) : hm cblock nat :=
  let! c := halloc CUninit in
  let! lv := halloc (CLocals junk) in
  let! ll := halloc (CLocks (replicate (Z.to_nat num_threads) false)) in
  let! _ := hstore c (CApprox 0 num_threads lv false ll) in
  hret c.

Definition approx_destroy (c : nat) : hm cblock unit :=
  let! b := hload c in
  match b with
  | CApprox _ _ lv _ ll => let! _ := hfree lv in let! _ := hfree ll in hfree c
  | _ => hlift None
  end.

(** The memory of a counter: as many blocks as it takes, all different from those
    in use; and destroying it gives back these and no others. *)
Theorem counters_no_leak (h : heap cblock) junk n :
  heap_ok h ->
  (exists h1 h2, simple_init n h = Some (next h, h1) /\ simple_destroy (next h) h1 = Some (tt, h2) /\ blocks h2 = blocks h) /\
  (exists h1 h2, approx_init junk n h = Some (next h, h1) /\ approx_destroy (next h) h1 = Some (tt, h2) /\ blocks h2 = blocks h).
Proof.
  intros Hok. pose proof (owns_alloc _ _ _ CUninit (owns_nil h Hok)) as O1. split.
  - apply (owns_store _ _ _ (next h) (CSimple 0 false)) in O1; [|by left].
    destruct (free_owned _ _ _ _ O1) as [F O2]. eexists _, _. unfold simple_init. erewrite hbind_run by reflexivity.
    split; [erewrite hbind_run; [reflexivity|apply (store_at _ _ CUninit); simpl; by rewrite lookup_insert_eq]|].
    split; [exact F|]. by apply owns_done.
  - pose proof (owns_alloc _ _ _ (CLocals junk) O1) as O2.
    pose proof (owns_alloc _ _ _ (CLocks (replicate (Z.to_nat n) false)) O2) as O3. cbn [blocks next] in *.
    apply (owns_store _ _ _ (next h) (CApprox 0 n (S (next h)) false (S (S (next h))))) in O3; [|set_solver].
    apply (owns_perm _ _ _ [S (next h); S (S (next h)); next h]) in O3; [|apply Permutation_swap]. cbn [blocks next] in O3.
    destruct (free_owned _ _ _ _ O3) as [F1 P1]. destruct (free_owned _ _ _ _ P1) as [F2 P2].
    destruct (free_owned _ _ _ _ P2) as [F3 P3]. eexists _, _. unfold approx_init. erewrite !hbind_run by reflexivity.
    split; [erewrite hbind_run; [reflexivity|apply (store_at _ _ CUninit); simpl; by rewrite !lookup_insert_ne, lookup_insert_eq by lia]|].
    split; [|by apply owns_done]. unfold approx_destroy. erewrite hbind_run.
    2: { unfold hload. cbn [blocks]. by rewrite lookup_insert_eq. }
    cbn [blocks next] in F1, F2, F3. cbn [blocks next]. hrun F1. hrun F2. exact F3.
Qed.

Lemma counters_no_leak_witness :
  exists h1 h2, approx_init [3; 4] 2 (mk_heap ∅ 0) = Some (0%nat, h1) /\
    approx_destroy 0 h1 = Some (tt, h2) /\ blocks h2 = ∅.
Proof. apply (counters_no_leak (mk_heap ∅ 0)). intros p _. apply lookup_empty. Defined.
End CounterHeap.
