(* ===== verification/BoundedQueue.v ===== *)
(** * thread_safe_bounded_queue.c

    The blocking queue of 8 words: [bq_push], [bq_pop] and [bq_close] as the
    critical sections of a monitor, run by any number of threads. A [NULL]
    pointer is [None]. The theorems: whatever the schedule (and with spurious
    wake-ups), the calls take effect one after the other as on a FIFO list that
    can be closed; no wake-up is lost, although [bq_push] and [bq_pop] signal
    one thread only: when nothing moves any more, either all calls have
    returned, or the queue is open and full and only pushes sleep, or it is open
    and empty and only pops sleep. *)

From S2P Require Import Prelude Fifo Threads Monitor.

Definition BQ_CAPACITY : Z := 8.

Record blocking_queue := mk_bq {
  bq_data : list Z;         (* uint32_t data[BQ_CAPACITY] *)
  bq_head : Z;              (* size_t: where the next push writes *)
  bq_tail : Z;              (* size_t: where the next pop reads *)
  bq_count : Z;             (* size_t *)
  bq_closed : bool
}.

Inductive bq_cv := not_empty | not_full.

#[export] Instance bq_cv_eq_dec : EqDecision bq_cv.
Proof. solve_decision. Defined.

(** The calls of the interface; [CPop false] passes a NULL [out_value]. *)
Inductive bq_call :=
| CPush (value : Z)
| CPop (out_value : bool)
| CClose.

(** The return code, and what was stored in [*out_value]. *)
Record bq_ret := mk_ret { ret_code : Z; ret_out : option Z }.

Notation bq_outcome := (option (outcome (option blocking_queue) bq_call bq_ret bq_cv)).

Definition bq_push (q : option blocking_queue) (value : Z) : bq_outcome :=
  match q with
  | None => Some (Done None (mk_ret (-1) None) [])
  | Some q =>
      if (bq_count q =? BQ_CAPACITY) && negb (bq_closed q) then Some (Wait not_full (CPush value))
      else if bq_closed q then Some (Done (Some q) (mk_ret (-2) None) [])
      else
        data ← (bq_data q).[bq_head q <- value];
        Some (Done (Some (mk_bq data ((bq_head q +u64 1) mod BQ_CAPACITY) (bq_tail q)
                            (bq_count q +u64 1) (bq_closed q)))
                (mk_ret 0 None) [Signal not_empty])
  end.

Definition bq_pop (q : option blocking_queue) (out_value : bool) : bq_outcome :=
  match q, out_value with
  | Some q, true =>
      if (bq_count q =? 0) && negb (bq_closed q) then Some (Wait not_empty (CPop out_value))
      else if bq_closed q && (bq_count q =? 0) then Some (Done (Some q) (mk_ret (-2) None) [])
      else
        v ← (bq_data q).[bq_tail q];
        Some (Done (Some (mk_bq (bq_data q) (bq_head q) ((bq_tail q +u64 1) mod BQ_CAPACITY)
                            (bq_count q -u64 1) (bq_closed q)))
                (mk_ret 0 (Some v)) [Signal not_full])
  | _, _ => Some (Done q (mk_ret (-1) None) [])
  end.

Definition bq_close (q : option blocking_queue) : bq_outcome :=
  match q with
  | None => Some (Done None (mk_ret (-1) None) [])
  | Some q =>
      Some (Done (Some (mk_bq (bq_data q) (bq_head q) (bq_tail q) (bq_count q) true))
              (mk_ret 0 None) [Broadcast not_full; Broadcast not_empty])
  end.

Definition bq_mcall (q : option blocking_queue) (c : bq_call) : bq_outcome :=
  match c with
  | CPush value => bq_push q value
  | CPop out_value => bq_pop q out_value
  | CClose => bq_close q
  end.

(** ** Specification: a closable FIFO list *)

(** One returned call against the specification's state (the list and the
    closed flag): [None] when the specification would not give this answer at
    this moment. In particular no call is answered in a state in which it would
    have to sleep. *)
Definition bq_spec (st : list Z * bool) (e : bq_call * bq_ret) : option (list Z * bool) :=
  let '(xs, closed) := st in
  match e.1, ret_code e.2, ret_out e.2 with
  | CPush v, 0, None => if negb closed && bool_decide (length xs < 8)%nat then Some (xs ++ [v], closed) else None
  | CPush v, -2, None => if closed then Some (xs, closed) else None
  | CPop true, 0, Some x =>
      match xs with
      | y :: ys => if x =? y then Some (ys, closed) else None
      | [] => None
      end
  | CPop true, -2, None => if closed && bool_decide (xs = []) then Some (xs, closed) else None
  | CPop false, -1, None => Some (xs, closed)
  | CClose, 0, None => Some (xs, true)
  | _, _, _ => None
  end.

Fixpoint bq_spec_run (st : list Z * bool) (log : list (bq_call * bq_ret)) : option (list Z * bool) :=
  match log with
  | [] => Some st
  | e :: log => st' ← bq_spec st e; bq_spec_run st' log
  end.

(** The queue holds [xs], oldest first. *)
Definition bq_repr (q : blocking_queue) (xs : list Z) : Prop :=
  cslice BQ_CAPACITY (bq_data q) (bq_tail q) xs /\ 0 <= bq_tail q < BQ_CAPACITY /\
  bq_count q = Z.of_nat (length xs) /\
  bq_head q = (bq_tail q + Z.of_nat (length xs)) mod BQ_CAPACITY.

Definition bq_init : blocking_queue := mk_bq (replicate 8 0) 0 0 0 false.

Lemma bq_repr_len q xs : bq_repr q xs -> Z.of_nat (length xs) <= 8.
Proof. intros ((_ & _ & H & _) & _). exact H. Qed.

Lemma bq_push_full q xs v :
  bq_repr q xs -> bq_closed q = false -> Z.of_nat (length xs) = 8 ->
  bq_push (Some q) v = Some (Wait not_full (CPush v)).
Proof. intros (_ & _ & Hc & _) Ho Hl. simpl. by rewrite Hc, Hl, Ho. Qed.

Lemma bq_push_closed q v :
  bq_closed q = true -> bq_push (Some q) v = Some (Done (Some q) (mk_ret (-2) None) []).
Proof. intros Hc. simpl. by rewrite Hc, andb_false_r. Qed.

Lemma bq_push_open q xs v :
  bq_repr q xs -> bq_closed q = false -> Z.of_nat (length xs) < 8 ->
  exists q', bq_push (Some q) v = Some (Done (Some q') (mk_ret 0 None) [Signal not_empty]) /\
    bq_repr q' (xs ++ [v]) /\ bq_closed q' = false.
Proof.
  intros (Hs & Ht & Hc & Hh) Ho Hl. simpl. rewrite Ho, andb_true_r. unfold BQ_CAPACITY in *.
  destruct (Z.eqb_spec (bq_count q) 8) as [|_]; [lia|].
  destruct (cslice_push 8 _ _ _ v _ Hs Hl Hh) as [-> Hs'].
  assert (Hw : forall x, 0 <= x <= 8 -> (x +u64 1) = x + 1).
  { intros x Hx. apply wrap_small. unfold in_u. lia. }
  assert (0 <= bq_head q < 8) by (rewrite Hh; apply Z.mod_pos_bound; lia).
  eexists. split_and!; [done| |done]. split_and!; simpl; [done|lia|unfold BQ_CAPACITY; lia|..].
  - rewrite Hc, Hw, length_app by lia. simpl. lia.
  - rewrite Hw by lia. rewrite Hh, length_app. cbn [length]. rewrite Zplus_mod_idemp_l.
    f_equal. lia.
Qed.

Lemma bq_pop_empty q :
  bq_repr q [] -> bq_closed q = false -> bq_pop (Some q) true = Some (Wait not_empty (CPop true)).
Proof. intros (_ & _ & Hc & _) Ho. simpl. by rewrite Hc, Ho. Qed.

Lemma bq_pop_closed q :
  bq_repr q [] -> bq_closed q = true ->
  bq_pop (Some q) true = Some (Done (Some q) (mk_ret (-2) None) []).
Proof. intros (_ & _ & Hc & _) Ho. simpl. by rewrite Hc, Ho. Qed.

Lemma bq_pop_some q x xs :
  bq_repr q (x :: xs) ->
  exists q', bq_pop (Some q) true = Some (Done (Some q') (mk_ret 0 (Some x)) [Signal not_full]) /\
    bq_repr q' xs /\ bq_closed q' = bq_closed q.
Proof.
  intros Hr. pose proof (bq_repr_len q _ Hr) as Hl. destruct Hr as (Hs & Ht & Hc & Hh). simpl.
  simpl length in *. destruct (Z.eqb_spec (bq_count q) 0) as [|_]; [lia|]. rewrite andb_false_r.
  cbn [andb]. unfold BQ_CAPACITY in *.
  pose proof (cslice_head _ _ _ _ _ Hs) as Hx. rewrite Z.mod_small in Hx by done. rewrite Hx.
  assert (Hw : (bq_tail q +u64 1) = bq_tail q + 1) by (apply wrap_small; unfold in_u; lia).
  eexists. split_and!; [done| |done]. split_and!; simpl.
  - rewrite Hw. eapply cslice_congr, cslice_tail, Hs. by rewrite Zmod_mod.
  - apply Z.mod_pos_bound; done.
  - apply Z.mod_pos_bound; done.
  - rewrite Hc. rewrite wrap_small; [lia|]. unfold in_u. lia.
  - rewrite Hh, Hw. rewrite Zplus_mod_idemp_l. f_equal. lia.
Qed.

Lemma bq_spec_run_snoc st log e :
  bq_spec_run st (log ++ [e]) = st' ← bq_spec_run st log; bq_spec st' e.
Proof.
  revert st. induction log as [|e' log IH]; intros st; simpl.
  - by destruct (bq_spec st e).
  - destruct (bq_spec st e'); simpl; [apply IH|done].
Qed.

(** What one critical section does to a queue that holds [xs]: it sleeps only
    in a state in which the specification has no answer, and otherwise returns
    the specification's answer. *)
Inductive bq_effect (q : blocking_queue) (xs : list Z)
  : bq_call -> outcome (option blocking_queue) bq_call bq_ret bq_cv -> Prop :=
| eff_push_wait v :
    bq_closed q = false -> Z.of_nat (length xs) = 8 -> bq_effect q xs (CPush v) (Wait not_full (CPush v))
| eff_push_closed v :
    bq_closed q = true -> bq_effect q xs (CPush v) (Done (Some q) (mk_ret (-2) None) [])
| eff_push v q' :
    bq_closed q = false -> Z.of_nat (length xs) < 8 -> bq_repr q' (xs ++ [v]) -> bq_closed q' = false ->
    bq_effect q xs (CPush v) (Done (Some q') (mk_ret 0 None) [Signal not_empty])
| eff_pop_wait :
    bq_closed q = false -> xs = [] -> bq_effect q xs (CPop true) (Wait not_empty (CPop true))
| eff_pop_closed :
    bq_closed q = true -> xs = [] ->
    bq_effect q xs (CPop true) (Done (Some q) (mk_ret (-2) None) [])
| eff_pop x ys q' :
    xs = x :: ys -> bq_repr q' ys -> bq_closed q' = bq_closed q ->
    bq_effect q xs (CPop true) (Done (Some q') (mk_ret 0 (Some x)) [Signal not_full])
| eff_pop_null :
    bq_effect q xs (CPop false) (Done (Some q) (mk_ret (-1) None) [])
| eff_close q' :
    bq_repr q' xs -> bq_closed q' = true ->
    bq_effect q xs CClose (Done (Some q') (mk_ret 0 None) [Broadcast not_full; Broadcast not_empty]).

Lemma bq_mcall_effect q xs c :
  bq_repr q xs -> exists o, bq_mcall (Some q) c = Some o /\ bq_effect q xs c o.
Proof.
  intros Hr. pose proof (bq_repr_len q xs Hr) as Hl. destruct c as [v|[]|]; cbn [bq_mcall].
  - destruct (bq_closed q) eqn:Hc.
    { eexists. split; [by apply bq_push_closed|by constructor]. }
    destruct (decide (Z.of_nat (length xs) = 8)).
    { eexists. split; [by eapply bq_push_full|by constructor]. }
    destruct (bq_push_open q xs v Hr Hc) as (q' & -> & ? & ?); [lia|].
    eexists. split; [done|]. constructor; (done || lia).
  - destruct xs as [|x ys].
    + destruct (bq_closed q) eqn:Hc; eexists.
      * split; [by apply bq_pop_closed|by constructor].
      * split; [by apply bq_pop_empty|by constructor].
    + destruct (bq_pop_some q x ys Hr) as (q' & -> & ? & ?).
      eexists. split; [done|by econstructor].
  - eexists. split; [done|constructor].
  - eexists. split; [done|]. by constructor.
Qed.

Lemma bq_effect_done q xs c o s r ws :
  bq_repr q xs -> bq_effect q xs c o -> o = Done s r ws ->
  exists q' xs', s = Some q' /\ bq_repr q' xs' /\ bq_spec (xs, bq_closed q) (c, r) = Some (xs', bq_closed q').
Proof.
  intros Hr He ->. inversion He; subst; simplify_eq; do 2 eexists; split_and!; try done.
  all: unfold bq_spec; cbn.
  all: repeat match goal with H : bq_closed _ = _ |- _ => rewrite H; clear H end; try done.
  - rewrite bool_decide_eq_true_2 by lia. done.
  - by rewrite Z.eqb_refl.
Qed.

Lemma bq_mcall_no_next q c s' c' ws : bq_mcall q c <> Some (Next s' c' ws).
Proof.
  destruct c as [v|out|], q as [q|]; simpl; try done.
  - destruct (_ && _); [done|]. destruct (bq_closed q); [done|]. by destruct (arr_set _ _ _).
  - destruct out; [|done]. destruct (_ && _); [done|]. destruct (_ && _); [done|].
    by destruct (arr_get _ _).
Qed.

(** C8. thread_safe_bounded_queue.c is linearizable: start from a queue that
    holds [xs0] and let any number of threads make any calls of [bq_push],
    [bq_pop] and [bq_close]. In every state of every execution (every schedule,
    every choice of the threads that the signals wake, spurious wake-ups
    included) the returned calls, in the order of their critical sections, got
    the answers of one FIFO list of capacity 8 with a closed flag: a push
    succeeds only if the queue is open and has room, a pop returns the oldest
    element, also after the close, and [-2] means closed (and, for a pop,
    drained). The queue's array holds what the list does. *)
Theorem bq_linearizable (q : blocking_queue) (xs0 : list Z) (progs : list (list bq_call)) k :
  bq_repr q xs0 ->
  rtc (any_step bq_mcall) (init (Some q) progs) k ->
  exists q' xs, mc_state k = Some q' /\ bq_repr q' xs /\
    bq_spec_run (xs0, bq_closed q) (mc_log k) = Some (xs, bq_closed q').
Proof.
  intros Hq Hr.
  apply (mon_state_invariant bq_mcall (fun s log => exists q' xs, s = Some q' /\ bq_repr q' xs /\
           bq_spec_run (xs0, bq_closed q) log = Some (xs, bq_closed q')) (init (Some q) progs)); [..|done].
  - intros s log c s' c' ws _ Hn. by apply bq_mcall_no_next in Hn.
  - intros s log c s' r ws (q1 & xs & -> & Hq1 & Hrun) Hc.
    destruct (bq_mcall_effect q1 xs c Hq1) as (o & Ho & He). rewrite Ho in Hc. simplify_eq.
    destruct (bq_effect_done q1 xs c _ _ _ _ Hq1 He eq_refl) as (q2 & xs2 & -> & Hq2 & Hs).
    exists q2, xs2. split_and!; [done|done|]. rewrite bq_spec_run_snoc, Hrun. exact Hs.
  - exists q, xs0. by split_and!.
Qed.

(** ** No lost wake-ups *)

Definition is_push (c : bq_call) : bool := match c with CPush _ => true | _ => false end.
Definition is_pop (c : bq_call) : bool := match c with CPop out => out | _ => false end.

(** The calls that sleep on a condition variable. *)
Definition waiting_call (v : bq_cv) : bq_call -> bool :=
  match v with not_full => is_push | not_empty => is_pop end.

(** A sleeper is inside a call that waits on its condition variable. *)
Definition cv_ok (t : mthread bq_call bq_cv) : Prop :=
  match mt_cv t with
  | None => True
  | Some v => exists c cs, mt_calls t = c :: cs /\ waiting_call v c = true
  end.

Definition all_cv_ok (ls : list (mthread bq_call bq_cv)) : Prop :=
  forall i t, ls !! i = Some t -> cv_ok t.

(** The invariant behind signalling one thread at a time. While pops sleep, at
    least as many pops are awake and about to test the queue again as it has
    elements; while pushes sleep, at least as many pushes are awake as it has
    free places. [n] is the number of elements. *)
Definition live (closed : bool) (n : Z) (ls : list (mthread bq_call bq_cv)) : Prop :=
  all_cv_ok ls /\
  (closed = true -> sleepers not_empty ls = 0 /\ sleepers not_full ls = 0) /\
  (0 < sleepers not_empty ls -> n <= ready_cnt is_pop ls) /\
  (0 < sleepers not_full ls -> BQ_CAPACITY - n <= ready_cnt is_push ls).

Lemma cv_ok_insert ls i t : all_cv_ok ls -> cv_ok t -> all_cv_ok (<[i := t]> ls).
Proof.
  intros Hall Ht j t' Hj. apply list_lookup_insert_Some in Hj as [(-> & -> & _)|[_ Hj]]; eauto.
Qed.

Lemma is_push_pop c : is_push c = true -> is_pop c = false.
Proof. by destruct c. Qed.

(** A wake-up moves one thread from the sleepers of [v] to the ready ones. *)
Lemma awaken_counts ls j t v :
  all_cv_ok ls -> ls !! j = Some t -> mt_cv t = Some v ->
  let ls' := <[j := awaken t]> ls in
  all_cv_ok ls' /\ forall u,
    sleepers u ls' = sleepers u ls - (if decide (u = v) then 1 else 0) /\
    ready_cnt (waiting_call u) ls' = ready_cnt (waiting_call u) ls + (if decide (u = v) then 1 else 0).
Proof.
  intros Hok Hj Ht. simpl. pose proof (Hok j t Hj) as Hcv. split; [by apply cv_ok_insert|]. intros u.
  rewrite (sleepers_insert _ _ _ _ _ Hj), (ready_cnt_insert _ _ _ _ _ Hj).
  destruct t as [calls cv]; simpl in Ht; subst cv. destruct Hcv as (c & cs & Hcs & Hc).
  simpl in Hcs; subst calls. unfold awaken, waits_on, ind; simpl.
  destruct u, v, c as [|[]|]; simpl in *; split; done || lia.
Qed.

Lemma signal_counts ls ls' v :
  all_cv_ok ls -> woken [Signal v] ls ls' ->
  all_cv_ok ls' /\ exists d, (d = 1 \/ d = 0 /\ sleepers v ls = 0) /\ forall u,
    sleepers u ls' = sleepers u ls - (if decide (u = v) then d else 0) /\
    ready_cnt (waiting_call u) ls' = ready_cnt (waiting_call u) ls + (if decide (u = v) then d else 0).
Proof.
  intros Hok [[-> H0]|(j & t & Hj & Ht & ->)]%woken_one.
  - split; [done|]. exists 0. split; [by right|]. intros u. destruct (decide (u = v)); lia.
  - destruct (awaken_counts ls j t v Hok Hj Ht) as [Hok' Hc]. split; [done|]. exists 1.
    split; [by left|exact Hc].
Qed.

Lemma live_awaken closed n ls j t :
  live closed n ls -> ls !! j = Some t -> mt_cv t <> None -> live closed n (<[j := awaken t]> ls).
Proof.
  intros (Hok & Hcl & He & Hf) Hj Ht. destruct (mt_cv t) as [v|] eqn:Hv; [|done].
  destruct (awaken_counts ls j t v Hok Hj Hv) as [Hok' Hc]. split; [done|].
  pose proof (sleepers_lookup v ls j t Hj Hv).
  destruct (Hc not_empty) as [H1 H2], (Hc not_full) as [H3 H4]. simpl in *. rewrite H1, H2, H3, H4.
  destruct v; simpl; split_and!; lia || (intros Hcl'; specialize (Hcl Hcl'); lia).
Qed.

Lemma live_wait n ls i c cs v :
  live false n ls -> ls !! i = Some (mk_mthread (c :: cs) None) ->
  waiting_call v c = true -> n = match v with not_full => BQ_CAPACITY | not_empty => 0 end ->
  live false n (<[i := mk_mthread (c :: cs) (Some v)]> ls).
Proof.
  intros (Hok & _ & He & Hf) Hi Hc Hn.
  pose proof (ready_cnt_nonneg is_push (<[i := mk_mthread (c :: cs) (Some v)]> ls)).
  pose proof (ready_cnt_nonneg is_pop (<[i := mk_mthread (c :: cs) (Some v)]> ls)).
  split; [apply cv_ok_insert; [done|by exists c, cs]|]. split; [done|].
  rewrite !(sleepers_insert _ _ _ _ _ Hi), !(ready_cnt_insert _ _ _ _ _ Hi) in *.
  destruct v, c as [|[]|]; try done; unfold ind, waits_on in *; simpl in *; lia.
Qed.

(** A call that returns without changing the elements. *)
Lemma live_same closed n ls i c cs :
  live closed n ls -> ls !! i = Some (mk_mthread (c :: cs) None) ->
  closed = true \/ (is_push c = false /\ is_pop c = false) ->
  live closed n (<[i := mk_mthread cs None]> ls).
Proof.
  intros (Hok & Hcl & He & Hf) Hi Hc. split; [by apply cv_ok_insert|].
  rewrite !(return_sleepers _ _ _ _ _ Hi).
  pose proof (return_ready is_pop _ _ _ _ cs Hi). pose proof (return_ready is_push _ _ _ _ cs Hi).
  destruct Hc as [->|[H1 H2]]; [destruct (Hcl eq_refl); split_and!; lia|].
  unfold ind in *. rewrite H1, H2 in *. split_and!; [done|lia..].
Qed.

(** A call that adds ([v = not_empty]) or removes ([v = not_full]) an element
    and signals [v]. *)
Lemma live_signal closed n n' ls i c cs ls' v :
  live closed n ls -> ls !! i = Some (mk_mthread (c :: cs) None) ->
  match v with
  | not_empty => closed = false /\ is_push c = true /\ n' = n + 1
  | not_full => is_pop c = true /\ n' = n - 1
  end ->
  woken [Signal v] (<[i := mk_mthread cs None]> ls) ls' -> live closed n' ls'.
Proof.
  intros (Hok & Hcl & He & Hf) Hi Hv Hw.
  pose proof (return_ready is_pop _ _ _ _ cs Hi) as H1.
  pose proof (return_ready is_push _ _ _ _ cs Hi) as H2.
  pose proof (cv_ok_insert ls i (mk_mthread cs None) Hok ltac:(done)) as Hok1.
  destruct (signal_counts _ _ _ Hok1 Hw) as (Hok' & d & Hd & Hu). split; [done|].
  destruct (Hu not_empty) as [H3 H4], (Hu not_full) as [H5 H6]. simpl in H4, H6.
  rewrite H3, H4, H5, H6, !(return_sleepers _ _ _ _ _ Hi) in *.
  destruct v, c as [|[]|]; try (by destruct_and! Hv); unfold ind in H1, H2; simpl in *.
  - destruct Hv as (-> & _ & ->). split_and!; [done|lia..].
  - destruct Hv as (_ & ->). pose proof (sleepers_nonneg not_full ls'). split_and!; [|lia..].
    intros Hcl'. specialize (Hcl Hcl'). lia.
Qed.

Lemma live_close n ls i c cs ls' :
  live false n ls \/ live true n ls -> ls !! i = Some (mk_mthread (c :: cs) None) ->
  woken [Broadcast not_full; Broadcast not_empty] (<[i := mk_mthread cs None]> ls) ls' ->
  live true n ls'.
Proof.
  intros Hl Hi Hw.
  assert (sleepers not_empty ls' = 0) by (eapply woken_broadcast_none; [done|set_solver]).
  assert (sleepers not_full ls' = 0) by (eapply woken_broadcast_none; [done|set_solver]).
  assert (Hok : all_cv_ok ls) by (by destruct Hl as [[??]|[??]]).
  split_and!; [|done|lia..]. intros j t' Hj.
  destruct (woken_lookup _ _ _ _ _ Hw Hj) as (t & Ht & [-> | ->]); [|done].
  by eapply (cv_ok_insert ls i (mk_mthread cs None)).
Qed.

Notation bq_cfg := (mcfg (option blocking_queue) bq_call bq_ret bq_cv).

Definition bq_live (k : bq_cfg) : Prop :=
  exists q xs, mc_state k = Some q /\ bq_repr q xs /\
    live (bq_closed q) (Z.of_nat (length xs)) (mc_threads k).

Lemma bq_live_init q xs progs : bq_repr q xs -> bq_live (init (Some q) progs).
Proof.
  intros Hq. exists q, xs. split_and!; [done..|]. simpl.
  assert (H0 : forall v, sleepers v (start (V := bq_cv) <$> progs) = 0).
  { intros v. apply sleepers_none. intros j t Hj. rewrite list_lookup_fmap in Hj.
    by destruct (progs !! j); simplify_eq/=. }
  split_and!; rewrite ?H0; try lia. intros j t Hj. rewrite list_lookup_fmap in Hj.
  by destruct (progs !! j); simplify_eq/=.
Qed.

Lemma bq_live_step k k' : bq_live k -> any_step bq_mcall k k' -> bq_live k'.
Proof.
  intros HL [Hstep|Hstep].
  2: { destruct Hstep as [s ls log i t Hi Ht], HL as (q & xs & Hs & Hq & Hl).
       exists q, xs. split_and!; [done..|]. by apply live_awaken. }
  destruct Hstep as
    [s ls log i c cs v c' Hi Hc|s ls log i c cs s' c' ws ls' Hi Hc Hw|s ls log i c cs s' r ws ls' Hi Hc Hw];
    destruct HL as (q & xs & Hs & Hq & Hl); simpl in *; subst.
  2: by apply bq_mcall_no_next in Hc.
  1,2: destruct (bq_mcall_effect q xs c Hq) as (o & Ho & He); rewrite Ho in Hc; simplify_eq.
  - exists q, xs. split_and!; [done..|]. simpl.
    inversion He as [? Hop Hn| | |Hop Hn| | | |]; subst; rewrite Hop in *; by eapply live_wait.
  - inversion He as [|? Hcl|? q' Hop Hn Hq' Hop'| |Hcl ?|x ys q' ? Hq' Hop'| |q' Hq' Hcl]; subst.
    + inversion Hw; subst. exists q, xs. split_and!; [done..|]. simpl. rewrite Hcl in *.
      eapply live_same; eauto.
    + exists q', (xs ++ [v]). split_and!; [done..|]. simpl. rewrite Hop, Hop' in *.
      eapply live_signal; [done..| |done]. simpl. split_and!; [done..|]. rewrite length_app. simpl. lia.
    + inversion Hw; subst. exists q, []. split_and!; [done..|]. rewrite Hcl in *.
      eapply live_same; eauto.
    + exists q', ys. split_and!; [done..|]. simpl. rewrite Hop' in *.
      eapply live_signal; [done..| |done]. simpl. split_and!; [done..|]. lia.
    + inversion Hw; subst. exists q, xs. split_and!; [done..|]. eapply live_same; eauto.
    + exists q', xs. split_and!; [done..|]. rewrite Hcl. eapply live_close; [|done|done].
      destruct (bq_closed q); auto.
Qed.

(** Nothing moves any more for a good reason: all calls have returned, or the
    queue is open and full and the others sleep in [bq_push], or it is open and
    empty and they sleep in [bq_pop]. *)
Definition bq_settled (k : bq_cfg) : Prop :=
  all_returned k \/
  exists q xs v, mc_state k = Some q /\ bq_repr q xs /\ bq_closed q = false /\
    Z.of_nat (length xs) = match v with not_full => BQ_CAPACITY | not_empty => 0 end /\
    forall t, t ∈ mc_threads k ->
      mt_calls t = [] \/
      (mt_cv t = Some v /\ exists c cs, mt_calls t = c :: cs /\ waiting_call v c = true).

Lemma bq_live_progress k : bq_live k -> bq_settled k \/ exists k', mon_step bq_mcall k k'.
Proof.
  intros (q & xs & Hs & Hq & Hok & Hcl & He & Hf). destruct k as [s ls log]; simpl in *; subst s.
  destruct (list_find_dec (ready (fun _ => true)) ls) as [(i & t & Hi & Ht)|Hno].
  { right. destruct t as [[|c cs] []]; try done.
    destruct (bq_mcall_effect q xs c Hq) as (o & Ho & Hbe).
    eapply mon_can_step; [done|done|]. by inversion Hbe. }
  left. assert (Hst : forall t, t ∈ ls -> mt_calls t = [] \/ exists v, mt_cv t = Some v).
  { intros t [i Hi]%list_elem_of_lookup. specialize (Hno i t Hi).
    destruct t as [[|c cs] [v|]]; simpl in *; [by left..|by right; exists v|done]. }
  assert (Hr0 : forall p, ready_cnt p ls = 0).
  { intros p. unfold ready_cnt. rewrite (lsum_const _ 0); [lia|].
    intros t [i Hi]%list_elem_of_lookup. specialize (Hno i t Hi).
    destruct t as [[|c cs] [v|]]; done. }
  pose proof (bq_repr_len q xs Hq) as Hlen. rewrite !Hr0 in *. unfold BQ_CAPACITY in *.
  pose proof (sleepers_nonneg not_empty ls). pose proof (sleepers_nonneg not_full ls).
  assert (Hall : forall v t, sleepers (match v with not_full => not_empty | not_empty => not_full end) ls = 0 ->
            t ∈ ls -> mt_calls t = [] \/
            (mt_cv t = Some v /\ exists c cs, mt_calls t = c :: cs /\ waiting_call v c = true)).
  { intros v t Hnone Ht. destruct (Hst t Ht) as [|[u Hu]]; [by left|right].
    apply list_elem_of_lookup in Ht as [i Hi]. pose proof (Hok i t Hi) as Hcv. unfold cv_ok in Hcv.
    rewrite Hu in Hcv. destruct u, v; try done; exfalso; by eapply sleepers_zero. }
  destruct (decide (0 < sleepers not_empty ls)) as [HE|HE], (decide (0 < sleepers not_full ls)) as [HF|HF];
    [lia|..].
  - right. exists q, xs, not_empty. split_and!; [done..| |lia|].
    { destruct (bq_closed q); [|done]. specialize (Hcl eq_refl). lia. }
    intros t. apply (Hall not_empty). lia.
  - right. exists q, xs, not_full. split_and!; [done..| |simpl; unfold BQ_CAPACITY; lia|].
    { destruct (bq_closed q); [|done]. specialize (Hcl eq_refl). lia. }
    intros t. apply (Hall not_full). lia.
  - left. intros t Ht. simpl in Ht. destruct (Hall not_full t ltac:(lia) Ht) as [|[Hu _]]; [done|].
    apply list_elem_of_lookup in Ht as [i Hi]. exfalso. eapply (sleepers_zero not_full); [|done..]. lia.
Qed.

Lemma bq_live_reach q xs progs k :
  bq_repr q xs -> rtc (any_step bq_mcall) (init (Some q) progs) k -> bq_live k.
Proof.
  intros Hq Hr. pose proof (bq_live_init q xs progs Hq) as H0.
  induction Hr; eauto using bq_live_step.
Qed.

Lemma bq_settles (P : bq_cfg -> Prop) k :
  (forall k, P k -> bq_live k) -> (forall k k', P k -> mon_step bq_mcall k k' -> P k') ->
  P k -> exists k', rtc (mon_step bq_mcall) k k' /\ P k' /\ bq_settled k'.
Proof.
  intros Hlive Hstep Hk.
  apply (mon_reaches bq_mcall (fun _ => 1%nat)) with (P := P) (fin := fun k => P k /\ bq_settled k); [lia|lia|..].
  - intros s c s' c' ws Hn. by apply bq_mcall_no_next in Hn.
  - exact Hstep.
  - intros k1 Hk1. destruct (bq_live_progress k1 (Hlive k1 Hk1)); [left; by split|by right].
  - exact Hk.
Qed.

(** The number of calls that the threads have still to return from. *)
Definition calls_left (k : bq_cfg) : Z := lsum (fun t => Z.of_nat (length (mt_calls t))) (mc_threads k).

Lemma calls_cost_1 k : lsum (calls_cost (fun _ => 1%nat)) (mc_threads k) = calls_left k.
Proof.
  unfold calls_left. apply lsum_ext. intros t _. unfold calls_cost.
  rewrite (lsum_const _ 1); [lia|done].
Qed.

(** C9. No wake-up of thread_safe_bounded_queue.c is lost, although [bq_push]
    and [bq_pop] signal one sleeper only. From every state that the threads can
    reach (on any schedule, with spurious wake-ups): without further spurious
    wake-ups the threads make at most [(T + 1) * calls + T] more steps, [T]
    being the number of threads; and they can always run on to a state in which
    all calls have returned, or the queue is open and full and every thread that
    has not finished sleeps in [bq_push], or it is open and empty and every such
    thread sleeps in [bq_pop]. After a [bq_close] only the first is possible. *)
Theorem bq_no_lost_wakeups (q : blocking_queue) (xs : list Z) (progs : list (list bq_call)) k :
  bq_repr q xs ->
  rtc (any_step bq_mcall) (init (Some q) progs) k ->
  (forall n k', nsteps (mon_step bq_mcall) n k k' ->
     Z.of_nat n <= (Z.of_nat (length (mc_threads k)) + 1) * calls_left k + Z.of_nat (length (mc_threads k))) /\
  exists k', rtc (mon_step bq_mcall) k k' /\ bq_settled k'.
Proof.
  intros Hq Hr. split.
  - intros n k' Hn.
    pose proof (mon_steps_bounded bq_mcall (fun _ => 1%nat) ltac:(intros; simpl; lia) ltac:(intros; simpl; lia)
      ltac:(intros ? ? ? ? ? Hx; by apply bq_mcall_no_next in Hx) n k k' Hn) as Hb.
    unfold mon_measure in Hb. rewrite calls_cost_1 in Hb.
    pose proof (ind_le_length awake (mc_threads k)). lia.
  - destruct (bq_settles bq_live k ltac:(done)) as (k' & ? & _ & ?); [| |by exists k'].
    + intros k1 k2 H1 H2. eapply bq_live_step; [done|by left].
    + by eapply bq_live_reach.
Qed.

(** ** Producers and consumers *)

Definition pushes_left (ls : list (mthread bq_call bq_cv)) : Z := lsum (fun t => lsum (ind is_push) (mt_calls t)) ls.
Definition pops_left (ls : list (mthread bq_call bq_cv)) : Z := lsum (fun t => lsum (ind is_pop) (mt_calls t)) ls.

(** A producer only pushes, a consumer only pops. *)
Definition one_role (calls : list bq_call) : Prop :=
  Forall (fun c => is_push c = true) calls \/ Forall (fun c => is_pop c = true) calls.

(** What producers and consumers keep: the queue open, and as many elements as
    there are more pops than pushes left. *)
Definition bq_balanced (k : bq_cfg) : Prop :=
  bq_live k /\ Forall one_role (mt_calls <$> mc_threads k) /\
  exists q xs, mc_state k = Some q /\ bq_repr q xs /\ bq_closed q = false /\
    Z.of_nat (length xs) = pops_left (mc_threads k) - pushes_left (mc_threads k).

Lemma one_role_cons c cs : one_role (c :: cs) -> one_role cs /\ (is_push c = true \/ is_pop c = true).
Proof.
  intros [[Hc Hcs]%Forall_cons|[Hc Hcs]%Forall_cons].
  - split; [by left|by left].
  - split; [by right|by right].
Qed.

Lemma one_role_return ls i c cs ls' ws :
  Forall one_role (mt_calls <$> ls) -> ls !! i = Some (mk_mthread (c :: cs) None) ->
  woken ws (<[i := mk_mthread cs None]> ls) ls' ->
  Forall one_role (mt_calls <$> ls') /\ (is_push c = true \/ is_pop c = true) /\
  pops_left ls' = pops_left ls - ind is_pop c /\ pushes_left ls' = pushes_left ls - ind is_push c.
Proof.
  intros Hall Hi Hw. unfold pops_left, pushes_left.
  rewrite !(woken_calls_sum (lsum _) _ _ _ Hw), !(lsum_insert _ _ _ _ _ Hi). cbn [mt_calls].
  rewrite !lsum_cons. assert (Hc : one_role (c :: cs)).
  { eapply Forall_lookup_1; [exact Hall|]. by rewrite list_lookup_fmap, Hi. }
  apply one_role_cons in Hc as [Hcs Hc]. split_and!; [|done|lia..].
  rewrite (woken_calls _ _ _ Hw), list_fmap_insert. by apply Forall_insert.
Qed.

Lemma bq_balanced_step k k' : bq_balanced k -> any_step bq_mcall k k' -> bq_balanced k'.
Proof.
  intros (Hl & Hall & q & xs & Hs & Hq & Hop & Hn) Hstep.
  split; [by eapply bq_live_step|]. destruct Hstep as [Hstep|Hstep].
  2: { destruct Hstep as [s ls log i t Hi Ht]; simpl in *. split.
       - rewrite list_fmap_insert, list_insert_id; [done|]. by rewrite list_lookup_fmap, Hi.
       - exists q, xs. split_and!; [done..|]. unfold pops_left, pushes_left in *.
         rewrite !(lsum_insert _ _ _ _ _ Hi). simpl. lia. }
  destruct Hstep as [s ls log i c cs v c' Hi Hc|s ls log i c cs s' c' ws ls' Hi Hc Hw
                    |s ls log i c cs s' r ws ls' Hi Hc Hw]; simpl in *; subst.
  - assert (c' = c) as -> by (destruct (bq_mcall_effect q xs c Hq) as (o & Ho & He); rewrite Ho in Hc;
      simplify_eq; by inversion He).
    split; [rewrite list_fmap_insert, list_insert_id; [done|]; by rewrite list_lookup_fmap, Hi|].
    exists q, xs. split_and!; [done..|]. unfold pops_left, pushes_left in *.
    rewrite !(lsum_insert _ _ _ _ _ Hi). simpl. lia.
  - by apply bq_mcall_no_next in Hc.
  - destruct (one_role_return ls i c cs ls' ws Hall Hi Hw) as (Hall' & Hrole & H1 & H2).
    split; [done|]. destruct (bq_mcall_effect q xs c Hq) as (o & Ho & He).
    rewrite Ho in Hc. simplify_eq. unfold ind in H1, H2.
    inversion He as [|? Hcl|? q' _ Hl8 Hq' Hop'| |Hcl ?|x ys q' ? Hq' Hop'| |q' Hq' Hcl];
      subst; try congruence; simpl in *.
    + exists q', (xs ++ [v]). split_and!; [done..|]. rewrite length_app; simpl. lia.
    + exists q', ys. split_and!; [done..|congruence|]. lia.
    + by destruct Hrole.
    + by destruct Hrole.
Qed.

Lemma bq_repr_inj_len q xs ys : bq_repr q xs -> bq_repr q ys -> length xs = length ys.
Proof. intros (_ & _ & H1 & _) (_ & _ & H2 & _). lia. Qed.

(** The threads that have calls left all sleep on the same condition, so they
    have the same role. *)
Lemma settled_left (k : bq_cfg) v :
  Forall one_role (mt_calls <$> mc_threads k) ->
  (forall t, t ∈ mc_threads k -> mt_calls t = [] \/
     (mt_cv t = Some v /\ exists c cs, mt_calls t = c :: cs /\ waiting_call v c = true)) ->
  match v with
  | not_full => pops_left (mc_threads k) = 0
  | not_empty => pushes_left (mc_threads k) = 0
  end.
Proof.
  intros Hall Hsl.
  assert (Hz : forall t, t ∈ mc_threads k -> match v with
            | not_full => lsum (ind is_pop) (mt_calls t) = 0
            | not_empty => lsum (ind is_push) (mt_calls t) = 0 end).
  { intros t Ht. destruct (Hsl t Ht) as [->|(_ & c & cs & Hcs & Hc)]; [by destruct v|].
    assert (Hr : one_role (mt_calls t)).
    { rewrite Forall_fmap, Forall_forall in Hall. by apply Hall. }
    assert (Hz : forall p p' : bq_call -> bool, (forall c, p c = true -> p' c = false) ->
              Forall (fun c => p c = true) (mt_calls t) -> lsum (ind p') (mt_calls t) = 0).
    { intros p p' Hpp Hp. rewrite (lsum_const _ 0); [lia|]. intros x Hx.
      rewrite Forall_forall in Hp. unfold ind. by rewrite (Hpp x (Hp x Hx)). }
    rewrite Hcs in Hr. destruct Hr as [Hr|Hr]; rewrite <- Hcs in Hr;
      pose proof (Forall_inv (eq_rect _ (Forall _) Hr _ Hcs)) as Hc2; simpl in Hc2; destruct v; simpl in Hc.
    - apply is_push_pop in Hc2. congruence.
    - eapply Hz; [|done]. apply is_push_pop.
    - eapply (Hz is_pop); [|done]. intros x Hx. by destruct x as [|[]|].
    - apply is_push_pop in Hc. congruence. }
  unfold pops_left, pushes_left. destruct v; (rewrite (lsum_const _ 0); [lia|done]).
Qed.

(** Producers and consumers always finish: let any number of threads share
    an empty open queue of thread_safe_bounded_queue.c, each either only pushing
    or only popping, with as many pops as pushes in all. From every state they
    can reach (any schedule, any choice of the threads that signals wake,
    spurious wake-ups included) they can run on to a state in which every call
    has returned, and the queue is empty again: no deadlock, no lost wake-up. *)
Theorem bq_producers_consumers_finish (q : blocking_queue) (progs : list (list bq_call)) k :
  bq_repr q [] -> bq_closed q = false ->
  Forall one_role progs ->
  lsum (lsum (ind is_push)) progs = lsum (lsum (ind is_pop)) progs ->
  rtc (any_step bq_mcall) (init (Some q) progs) k ->
  exists k' q', rtc (mon_step bq_mcall) k k' /\ all_returned k' /\
    mc_state k' = Some q' /\ bq_repr q' [].
Proof.
  intros Hq Hop Hrole Hbal Hr.
  assert (Hk : bq_balanced k).
  { assert (H0 : bq_balanced (init (Some q) progs)).
    { split; [by eapply bq_live_init|]. simpl.
      assert (Hc : mt_calls <$> (start (V := bq_cv) <$> progs) = progs).
      { rewrite <- list_fmap_compose. apply list_fmap_id. }
      rewrite Hc. split; [done|]. exists q, []. split_and!; [done..|].
      unfold pops_left, pushes_left. rewrite !lsum_fmap.
      transitivity (lsum (lsum (ind is_pop)) progs - lsum (lsum (ind is_push)) progs); [simpl; lia|done]. }
    clear -Hr H0. induction Hr; eauto using bq_balanced_step. }
  destruct (bq_settles bq_balanced k) as (k' & Hk' & Hb & Hset);
    [by intros ? []|by intros; eapply bq_balanced_step; [|left]|done|].
  pose proof Hb as (_ & Hall & q' & xs & Hs & Hq' & Hop' & Hn).
  assert (Hret : all_returned k').
  { destruct Hset as [|(q2 & ys & v & Hs2 & Hq2 & _ & Hlen & Hsl)]; [done|].
    pose proof (settled_left k' v Hall Hsl) as Hz. rewrite Hs in Hs2. simplify_eq.
    pose proof (bq_repr_inj_len q2 _ _ Hq' Hq2) as Hlen2. unfold BQ_CAPACITY in *.
    assert (0 <= pushes_left (mc_threads k')) by (apply lsum_nonneg; intros; apply lsum_nonneg; auto with carr).
    destruct v; [|lia]. intros t Ht. destruct (Hsl t Ht) as [|(_ & c & cs & Hcs & Hc)]; [done|].
    apply list_elem_of_lookup in Ht as [i Hi].
    pose proof (lsum_lookup_le (fun t => lsum (ind is_pop) (mt_calls t)) (mc_threads k') i t
      ltac:(intros; apply lsum_nonneg; auto with carr) Hi) as Hle. simpl in Hle, Hc.
    rewrite Hcs, lsum_cons in Hle. unfold ind at 1 in Hle. rewrite Hc in Hle.
    pose proof (lsum_nonneg (ind is_pop) cs ltac:(auto with carr)). unfold pops_left in *. lia. }
  exists k', q'. split_and!; [done..|].
  assert (Hz : forall p, lsum (fun t => lsum (ind p) (mt_calls t)) (mc_threads k') = 0).
  { intros p. rewrite (lsum_const _ 0); [lia|]. intros t Ht. by rewrite (Hret t Ht). }
  unfold pops_left, pushes_left in Hn. rewrite !Hz in Hn. destruct xs; [done|simpl in Hn; lia].
Qed.

(** ** A run: two consumers sleep on the empty queue before the producer comes *)

Lemma bq_init_repr : bq_repr bq_init [].
Proof. split_and!; [by apply cslice_nil|done..]. Qed.

Definition bq_demo : list (list bq_call) := [[CPop true]; [CPop true]; [CPush 5; CPush 6]].

(** Both consumers sleep, the producer pushes twice (each push wakes one), and
    the second consumer gets to the queue first. *)
Definition bq_demo_end : bq_cfg :=
  default (init (Some bq_init) bq_demo)
    (mon_run bq_mcall [0; 1; 2; 2; 1]%nat (init (Some bq_init) bq_demo)).

Lemma bq_demo_run : rtc (any_step bq_mcall) (init (Some bq_init) bq_demo) bq_demo_end.
Proof. apply rtc_mon_any, (mon_run_rtc bq_mcall [0; 1; 2; 2; 1]%nat). vm_compute. reflexivity. Qed.

Example bq_demo_log :
  mc_log bq_demo_end = [(CPush 5, mk_ret 0 None); (CPush 6, mk_ret 0 None);
                        (CPop true, mk_ret 0 (Some 5))].
Proof. vm_compute. reflexivity. Qed.

Lemma bq_linearizable_witness :
  bq_repr bq_init [] /\
  exists q' xs, mc_state bq_demo_end = Some q' /\ bq_repr q' xs /\
    bq_spec_run ([], bq_closed bq_init) (mc_log bq_demo_end) = Some (xs, bq_closed q').
Proof.
  split; [exact bq_init_repr|].
  exact (bq_linearizable bq_init [] bq_demo bq_demo_end bq_init_repr bq_demo_run).
Defined.

Lemma bq_no_lost_wakeups_witness :
  bq_repr bq_init [] /\ exists k', rtc (mon_step bq_mcall) bq_demo_end k' /\ bq_settled k'.
Proof.
  split; [exact bq_init_repr|].
  exact (proj2 (bq_no_lost_wakeups bq_init [] bq_demo bq_demo_end bq_init_repr bq_demo_run)).
Defined.

Lemma bq_producers_consumers_finish_witness :
  exists k' q', rtc (mon_step bq_mcall) bq_demo_end k' /\ all_returned k' /\
    mc_state k' = Some q' /\ bq_repr q' [].
Proof.
  apply (bq_producers_consumers_finish bq_init bq_demo bq_demo_end bq_init_repr eq_refl).
  - repeat constructor; (left; repeat constructor) || (right; repeat constructor).
  - reflexivity.
  - exact bq_demo_run.
Defined.

(** After a close the elements are still popped, then [-2] is returned. *)
Example bq_close_drains :
  mc_log <$> mon_run bq_mcall [0; 0; 0; 0; 0]%nat
    (init (Some bq_init) [[CPush 1; CClose; CPush 2; CPop true; CPop true]])
  = Some [(CPush 1, mk_ret 0 None); (CClose, mk_ret 0 None); (CPush 2, mk_ret (-2) None);
          (CPop true, mk_ret 0 (Some 1)); (CPop true, mk_ret (-2) None)].
Proof. vm_compute. reflexivity. Qed.
