(* ===== verification/WorkerQueue.v ===== *)
(** * worker_queue_shutdown.c

    The worker pool: [submit_job] puts jobs in a ring of 16, the threads of
    [worker_main] take and run them, [request_stop] stops the pool. Each call is
    cut at its lock and unlock operations (see Monitor.v): [submit_job] reads
    [stopping] once without the mutex, then runs its critical section;
    [worker_main] alternates its critical section with the call of the job,
    outside the mutex. The jobs that have been run are recorded in order.

    Line 92 tests the function [get_queue_count] instead of calling it, so that
    a worker never leaves its loop: the theorems say what holds until the pool is
    stopped (no job is lost, none is run twice, none is made up), that later
    submissions are refused, and what the missing call makes of the shutdown. *)

From S2P Require Import Prelude Fifo Threads Monitor.

Definition Q_MAX : Z := 16.
Definition Q_MASK : Z := Q_MAX - 1.

(** Function and argument are addresses, [0] is NULL. *)
Record job := mk_job { job_fn : Z; job_arg : Z }.

#[export] Instance job_eq_dec : EqDecision job.
Proof. solve_decision. Defined.

Record worker_pool := mk_pool {
  wp_queue : list job;      (* struct job queue[16] *)
  wp_head : Z;              (* size_t, free running *)
  wp_tail : Z;              (* size_t, free running *)
  wp_count : Z;             (* never used *)
  wp_stopping : bool
}.

(** The pool and the jobs run so far. *)
Record wq_state := mk_wq { wq_pool : worker_pool; wq_ran : list job }.

Inductive wq_cv := wq_not_empty | wq_not_full.

#[export] Instance wq_cv_eq_dec : EqDecision wq_cv.
Proof. solve_decision. Defined.

(** Where a thread is: before the unlocked test of [submit_job], before its
    lock, in [request_stop], at the start of [worker_main], before its lock,
    before the call of the job it has taken. The booleans say whether the
    pointer to the pool that the caller passed is not NULL. *)
Inductive wq_call :=
| SubmitEntry (p : bool) (fn arg : Z)
| SubmitLocked (fn arg : Z)
| RequestStop (p : bool)
| WorkerEntry (arg : bool)
| WorkerMain
| WorkerRun (curr : job).

(** [None] as a return value: the function returns none. [submit_job] is
    declared to return an [int], but ends without a return statement after it
    has queued the job. *)
Notation wq_ret := (option Z).
Notation wq_outcome := (option (outcome wq_state wq_call wq_ret wq_cv)).

(** The function has no declared return type: it returns an [int]. *)
Definition get_queue_count (p : worker_pool) : Z := swrap 32 (wp_tail p -u64 wp_head p).

Definition submit_job_entry (s : wq_state) (p : bool) (fn arg : Z) : wq_outcome :=
  if negb p || (fn =? 0) || (arg =? 0) then Some (Done s (Some (-1)) [])
  else if wp_stopping (wq_pool s) then Some (Done s (Some (-2)) [])
  else Some (Next s (SubmitLocked fn arg) []).

Definition submit_job_locked (s : wq_state) (fn arg : Z) : wq_outcome :=
  let p := wq_pool s in
  if (u32 (get_queue_count p) =? Q_MAX) && negb (wp_stopping p) then Some (Wait wq_not_full (SubmitLocked fn arg))
  else if wp_stopping p then Some (Done s (Some (-2)) [])
  else
    old ← (wp_queue p).[Z.land (wp_tail p) Q_MASK];
    queue ← (wp_queue p).[Z.land (wp_tail p) Q_MASK <- mk_job fn (job_arg old)];
    queue ← queue.[Z.land (wp_tail p) Q_MASK <- mk_job fn arg];
    Some (Done (mk_wq (mk_pool queue (wp_head p) (wp_tail p +u64 1) (wp_count p) (wp_stopping p)) (wq_ran s))
            None [Signal wq_not_empty]).

Definition request_stop (s : wq_state) (p : bool) : wq_outcome :=
  if negb p then Some (Done s None [])
  else
    let p := wq_pool s in
    Some (Done (mk_wq (mk_pool (wp_queue p) (wp_head p) (wp_tail p) (wp_count p) true) (wq_ran s))
            None [Broadcast wq_not_empty; Broadcast wq_not_full]).

(** [get_queue_count == 0] without the parentheses of a call compares the
    address of the function with NULL. *)
Definition get_queue_count_is_null : bool := false.

Definition worker_main_entry (s : wq_state) (arg : bool) : wq_outcome :=
  if negb arg then Some (Done s None []) else Some (Next s WorkerMain []).

Definition worker_main_locked (s : wq_state) : wq_outcome :=
  let p := wq_pool s in
  if (get_queue_count p =? 0) && negb (wp_stopping p) then Some (Wait wq_not_empty WorkerMain)
  else if wp_stopping p && get_queue_count_is_null then Some (Done s None [])
  else
    curr ← (wp_queue p).[Z.land (wp_head p) Q_MASK];
    Some (Next (mk_wq (mk_pool (wp_queue p) (wp_head p +u64 1) (wp_tail p) (wp_count p) (wp_stopping p)) (wq_ran s))
            (WorkerRun curr) [Signal wq_not_full]).

(** [curr.fn(curr.arg)], then the next turn of the loop. *)
Definition worker_main_run (s : wq_state) (curr : job) : wq_outcome :=
  if job_fn curr =? 0 then None
  else Some (Next (mk_wq (wq_pool s) (wq_ran s ++ [curr])) WorkerMain []).

Definition wq_mcall (s : wq_state) (c : wq_call) : wq_outcome :=
  match c with
  | SubmitEntry p fn arg => submit_job_entry s p fn arg
  | SubmitLocked fn arg => submit_job_locked s fn arg
  | RequestStop p => request_stop s p
  | WorkerEntry arg => worker_main_entry s arg
  | WorkerMain => worker_main_locked s
  | WorkerRun curr => worker_main_run s curr
  end.

(** ** The queue *)

(** The ring holds [xs]; as in the other rings only the counters' difference
    matters. *)
Definition wq_repr (p : worker_pool) (xs : list job) : Prop :=
  in_u 64 (wp_head p) /\
  wp_tail p = (wp_head p +u64 Z.of_nat (length xs)) /\
  cslice Q_MAX (wp_queue p) (wp_head p) xs.

Lemma wq_mask_mod x : Z.land x Q_MASK = x mod Q_MAX.
Proof. exact (land_mask 4 x ltac:(lia)). Qed.

Lemma wq_count_repr p xs : wq_repr p xs -> get_queue_count p = Z.of_nat (length xs) /\ Z.of_nat (length xs) <= 16.
Proof.
  intros (Hh & Ht & Hs). assert (Hl : Z.of_nat (length xs) <= 16) by (destruct Hs as (_ & _ & H & _); exact H).
  split; [|done]. unfold get_queue_count. rewrite Ht. autorewrite with cword. rewrite Z.add_simpl_l.
  rewrite (wrap_small 64) by (unfold in_u; lia). apply swrap_small; unfold in_s; lia.
Qed.

(** What a critical section of an unstopped pool that holds [xs] does. *)
Lemma submit_locked_effect s xs fn arg :
  wq_repr (wq_pool s) xs -> wp_stopping (wq_pool s) = false ->
  (Z.of_nat (length xs) = 16 /\ submit_job_locked s fn arg = Some (Wait wq_not_full (SubmitLocked fn arg))) \/
  (Z.of_nat (length xs) < 16 /\ exists p', submit_job_locked s fn arg
       = Some (Done (mk_wq p' (wq_ran s)) None [Signal wq_not_empty]) /\
     wq_repr p' (xs ++ [mk_job fn arg]) /\ wp_stopping p' = false).
Proof.
  intros Hr Hst. destruct (wq_count_repr _ _ Hr) as [Hc Hl]. unfold submit_job_locked.
  rewrite Hc, Hst, (wrap_small 32) by (unfold in_u; lia). unfold Q_MAX. cbn [negb]. rewrite andb_true_r.
  destruct (Z.eqb_spec (Z.of_nat (length xs)) 16); [by left|right]. split; [lia|].
  destruct Hr as (Hh & Ht & Hs). rewrite !wq_mask_mod. unfold Q_MAX in *.
  assert (Hp : wp_tail (wq_pool s) mod 16 = (wp_head (wq_pool s) + Z.of_nat (length xs)) mod 16).
  { rewrite Ht. change 16 with (2 ^ 4). apply wrap_mod_pow2. lia. }
  destruct (cslice_push 16 _ _ _ (mk_job fn arg) _ Hs ltac:(lia) Hp) as [_ Hs'].
  pose proof (Z.mod_pos_bound (wp_tail (wq_pool s)) 16 ltac:(lia)) as Hb.
  assert (Hlen : Z.of_nat (length (wp_queue (wq_pool s))) = 16) by (by destruct Hs as (_ & ? & _)).
  destruct (arr_get_is_Some (wp_queue (wq_pool s)) (wp_tail (wq_pool s) mod 16)) as [old ->]; [lia|].
  cbn [mbind option_bind]. rewrite arr_set_in by lia. cbn [mbind option_bind].
  rewrite arr_set_in by (rewrite length_insert; lia). cbn [mbind option_bind].
  rewrite list_insert_insert_eq. eexists. split_and!; [done| |done].
  split_and!; simpl; [done| |done]. rewrite Ht, length_app. autorewrite with cword. f_equal. simpl. lia.
Qed.

Lemma worker_locked_effect s xs :
  wq_repr (wq_pool s) xs -> wp_stopping (wq_pool s) = false ->
  (xs = [] /\ worker_main_locked s = Some (Wait wq_not_empty WorkerMain)) \/
  (exists curr ys p', xs = curr :: ys /\ worker_main_locked s
       = Some (Next (mk_wq p' (wq_ran s)) (WorkerRun curr) [Signal wq_not_full]) /\
     wq_repr p' ys /\ wp_stopping p' = false).
Proof.
  intros Hr Hst. destruct (wq_count_repr _ _ Hr) as [Hc Hl]. unfold worker_main_locked.
  rewrite Hc, Hst. cbn [negb andb]. rewrite andb_true_r.
  destruct xs as [|curr ys]; [by left|right]. destruct (Z.eqb_spec (Z.of_nat (length (curr :: ys))) 0); [done|].
  destruct Hr as (Hh & Ht & Hs). rewrite wq_mask_mod, (cslice_head _ _ _ _ _ Hs).
  exists curr, ys. eexists. split_and!; [done|done| |done]. split_and!; simpl.
  - apply (wrap_range 64). lia.
  - rewrite Ht. autorewrite with cword. f_equal. simpl length. lia.
  - eapply cslice_congr, cslice_tail, Hs. symmetry. change Q_MAX with (2 ^ 4). apply wrap_mod_pow2. lia.
Qed.

(** ** Accounting: where a job is *)

Definition cnt (j : job) (l : list job) : Z := lsum (ind (fun x => bool_decide (x = j))) l.

(** The job a thread has taken from the queue and not yet run. *)
Definition hand (j : job) (c : wq_call) : Z :=
  match c with
  | WorkerRun curr => ind (fun x => bool_decide (x = j)) curr
  | _ => 0
  end.

Definition in_hand (j : job) (t : mthread wq_call wq_cv) : Z := lsum (hand j) (mt_calls t).

(** The jobs whose submission has succeeded. *)
Definition submitted (log : list (wq_call * wq_ret)) : list job :=
  omap (fun e => match e with (SubmitLocked fn arg, None) => Some (mk_job fn arg) | _ => None end) log.

Notation wq_cfg := (mcfg wq_state wq_call wq_ret wq_cv).

Definition wq_stopped (k : wq_cfg) : bool := wp_stopping (wq_pool (mc_state k)).

Definition wq_inv (k : wq_cfg) : Prop :=
  wq_stopped k = false ->
  exists xs, wq_repr (wq_pool (mc_state k)) xs /\
    forall j, cnt j (submitted (mc_log k))
      = cnt j (wq_ran (mc_state k)) + lsum (in_hand j) (mc_threads k) + cnt j xs.

Lemma submitted_app log1 log2 : submitted (log1 ++ log2) = submitted log1 ++ submitted log2.
Proof. apply omap_app. Qed.

Lemma cnt_app j l1 l2 : cnt j (l1 ++ l2) = cnt j l1 + cnt j l2.
Proof. apply lsum_app. Qed.

Lemma cnt_cons j x l : cnt j (x :: l) = ind (fun x => bool_decide (x = j)) x + cnt j l.
Proof. apply lsum_cons. Qed.

(** Go through the calls, and through the branches of one. *)
Ltac unfold_call c Hc :=
  destruct c; simpl in Hc; unfold submit_job_entry, submit_job_locked, request_stop,
    worker_main_entry, worker_main_locked, worker_main_run in Hc.

Ltac branches Hc :=
  repeat match type of Hc with
  | (if ?b then _ else _) = _ => destruct b eqn:?
  | (x ← ?m; _) = _ => destruct m; simpl in Hc
  end.

(** [stopping] is never reset. *)
Lemma wq_stopping_monotone s c o :
  wq_mcall s c = Some o -> wp_stopping (wq_pool s) = true ->
  match o with
  | Next s' _ _ | Done s' _ _ => wp_stopping (wq_pool s') = true
  | _ => True
  end.
Proof.
  intros Hc Hst. unfold_call c Hc.
  all: branches Hc; simplify_eq/=; try done; congruence.
Qed.

Lemma in_hand_woken j ws ls ls' : woken ws ls ls' -> lsum (in_hand j) ls' = lsum (in_hand j) ls.
Proof. by apply woken_sum. Qed.

(** A critical section of the pool before it is stopped, job by job: what it
    submits, has run, has in hand and leaves in the queue. *)
Lemma wq_next_effect s c xs s' c' ws :
  wq_repr (wq_pool s) xs -> wp_stopping (wq_pool s) = false ->
  wq_mcall s c = Some (Next s' c' ws) ->
  exists xs', wq_repr (wq_pool s') xs' /\ forall j,
    cnt j (wq_ran s) + hand j c + cnt j xs = cnt j (wq_ran s') + hand j c' + cnt j xs'.
Proof.
  intros Hr Hst Hc. destruct c as [p fn arg|fn arg|p|arg| |curr]; simpl in Hc.
  - unfold submit_job_entry in Hc. rewrite Hst in Hc. destruct (_ || _); simplify_eq.
    exists xs. split; [done|]. intros j. simpl. lia.
  - destruct (submit_locked_effect s xs fn arg Hr Hst) as [[_ E]|(_ & p' & E & _)]; congruence.
  - unfold request_stop in Hc. destruct p; done.
  - unfold worker_main_entry in Hc. destruct arg; simplify_eq/=. exists xs. split; [done|]. intros j. simpl. lia.
  - destruct (worker_locked_effect s xs Hr Hst) as [[_ E]|(curr & ys & p' & -> & E & Hr' & _)]; [congruence|].
    rewrite E in Hc. simplify_eq. exists ys. split; [done|]. intros j.
    cbn [hand wq_ran]. rewrite cnt_cons. lia.
  - unfold worker_main_run in Hc. destruct (_ =? _); simplify_eq. exists xs. split; [done|]. intros j.
    cbn [hand wq_ran]. rewrite cnt_app, cnt_cons. change (cnt j []) with 0. lia.
Qed.

Lemma wq_done_effect s c xs s' r ws :
  wq_repr (wq_pool s) xs -> wp_stopping (wq_pool s) = false -> wp_stopping (wq_pool s') = false ->
  wq_mcall s c = Some (Done s' r ws) ->
  exists xs', wq_repr (wq_pool s') xs' /\ forall j,
    cnt j (submitted [(c, r)]) + cnt j (wq_ran s) + hand j c + cnt j xs = cnt j (wq_ran s') + cnt j xs'.
Proof.
  intros Hr Hst Hst' Hc. destruct c as [p fn arg|fn arg|p|arg| |curr]; simpl in Hc.
  - unfold submit_job_entry in Hc. rewrite Hst in Hc. destruct (_ || _); simplify_eq.
    exists xs. split; [done|]. intros j. change (cnt j (submitted _)) with 0. simpl. lia.
  - destruct (submit_locked_effect s xs fn arg Hr Hst) as [[_ E]|(_ & p' & E & Hr' & _)]; [congruence|].
    rewrite E in Hc. simplify_eq. exists (xs ++ [mk_job fn arg]). split; [done|]. intros j.
    cbn [hand wq_ran]. change (submitted [(SubmitLocked fn arg, None)]) with [mk_job fn arg]. rewrite cnt_app. lia.
  - unfold request_stop in Hc. destruct p; simplify_eq/=. exists xs. split; [done|]. intros j.
    change (cnt j (submitted _)) with 0. lia.
  - unfold worker_main_entry in Hc. destruct arg; simplify_eq/=. exists xs. split; [done|]. intros j.
    change (cnt j (submitted _)) with 0. lia.
  - destruct (worker_locked_effect s xs Hr Hst) as [[_ E]|(curr & ys & p' & -> & E & Hr' & _)]; congruence.
  - unfold worker_main_run in Hc. destruct (_ =? _); simplify_eq.
Qed.

(** Nobody goes to sleep with a job in hand. *)
Lemma wq_wait_hand j s c v c' : wq_mcall s c = Some (Wait v c') -> hand j c = hand j c'.
Proof.
  intros Hc. unfold_call c Hc.
  all: branches Hc; by simplify_eq/=.
Qed.

Lemma wq_inv_step k k' : wq_inv k -> any_step wq_mcall k k' -> wq_inv k'.
Proof.
  intros HI Hstep Hst'. unfold wq_inv, wq_stopped in *. destruct Hstep as [Hstep|Hstep].
  2: { destruct Hstep as [s ls log i t Hi Ht]; simpl in *. destruct (HI Hst') as (xs & Hr & Hj).
       exists xs. split; [done|]. intros j. rewrite (Hj j), (lsum_insert _ _ _ _ _ Hi).
       change (in_hand j (awaken t)) with (in_hand j t). lia. }
  destruct Hstep as [s ls log i c cs v c' Hi Hc|s ls log i c cs s' c' ws ls' Hi Hc Hw
                    |s ls log i c cs s' r ws ls' Hi Hc Hw]; simpl in *.
  - destruct (HI Hst') as (xs & Hr & Hj). exists xs. split; [done|]. intros j.
    rewrite (Hj j), (lsum_insert _ _ _ _ _ Hi). unfold in_hand at 3 4. cbn [mt_calls].
    rewrite !lsum_cons, (wq_wait_hand j _ _ _ _ Hc). lia.
  - destruct (wp_stopping (wq_pool s)) eqn:Hst.
    { pose proof (wq_stopping_monotone _ _ _ Hc Hst). simpl in *. congruence. }
    destruct (HI eq_refl) as (xs & Hr & Hj).
    destruct (wq_next_effect _ _ _ _ _ _ Hr Hst Hc) as (xs' & Hr' & He). exists xs'. split; [done|].
    intros j. specialize (Hj j). specialize (He j).
    rewrite (in_hand_woken j _ _ _ Hw), (lsum_insert _ _ _ _ _ Hi).
    unfold in_hand at 2 3. cbn [mt_calls]. rewrite !lsum_cons. lia.
  - destruct (wp_stopping (wq_pool s)) eqn:Hst.
    { pose proof (wq_stopping_monotone _ _ _ Hc Hst). simpl in *. congruence. }
    destruct (HI eq_refl) as (xs & Hr & Hj).
    destruct (wq_done_effect _ _ _ _ _ _ Hr Hst Hst' Hc) as (xs' & Hr' & He). exists xs'. split; [done|].
    intros j. specialize (Hj j). specialize (He j).
    rewrite submitted_app, cnt_app, (in_hand_woken j _ _ _ Hw), (lsum_insert _ _ _ _ _ Hi).
    unfold in_hand at 2 3. cbn [mt_calls]. rewrite lsum_cons. lia.
Qed.

Definition no_job_in_hand (calls : list wq_call) : Prop :=
  Forall (fun c => match c with WorkerRun _ => False | _ => True end) calls.

Definition wq_fresh (queue : list job) (head : Z) : wq_state :=
  mk_wq (mk_pool queue head head 0 false) [].

(** C22. Until worker_queue_shutdown.c's pool is stopped no job is lost, run
    twice or made up: any threads submit jobs and run as workers on an empty
    pool, whatever its counters and the contents of its array. In every state
    before the stop (every schedule, spurious wake-ups included) each job was
    successfully submitted exactly as often as it has been run, is in the hand
    of a worker about to run it, or is among the at most 16 jobs of the queue. *)
Theorem wq_jobs_accounted queue head (progs : list (list wq_call)) k :
  length queue = 16%nat -> in_u 64 head -> Forall no_job_in_hand progs ->
  rtc (any_step wq_mcall) (init (wq_fresh queue head) progs) k ->
  wq_stopped k = false ->
  exists xs, wq_repr (wq_pool (mc_state k)) xs /\ Z.of_nat (length xs) <= Q_MAX /\
    forall j, cnt j (submitted (mc_log k))
      = cnt j (wq_ran (mc_state k)) + lsum (in_hand j) (mc_threads k) + cnt j xs.
Proof.
  intros Hq Hh Hp Hr Hst.
  assert (HI : wq_inv k).
  { assert (H0 : wq_inv (init (wq_fresh queue head) progs)).
    { intros _. exists []. split.
      - split_and!; [done| |apply cslice_nil; [done|simpl; by rewrite Hq]]. simpl. rewrite Z.add_0_r.
        symmetry. by apply wrap_small.
      - intros j. simpl. rewrite lsum_fmap, (lsum_const _ 0); [lia|]. intros calls Hc.
        rewrite Forall_forall in Hp. specialize (Hp _ Hc). unfold in_hand; simpl.
        rewrite (lsum_const _ 0); [lia|]. intros c Hcc. red in Hp. rewrite Forall_forall in Hp.
        specialize (Hp c Hcc). by destruct c. }
    clear -Hr H0. induction Hr; eauto using wq_inv_step. }
  destruct (HI Hst) as (xs & Hx & Hj). exists xs. split_and!; [done| |done].
  by destruct (wq_count_repr _ _ Hx).
Qed.

(** ** Shutdown *)

(** Nothing is queued once the pool is stopped. *)
Lemma wq_stopped_effect s c o :
  wq_mcall s c = Some o -> wp_stopping (wq_pool s) = true ->
  match o with
  | Blocked | Wait _ _ => False
  | Next s' _ _ => wp_tail (wq_pool s') = wp_tail (wq_pool s)
  | Done s' r _ => wp_tail (wq_pool s') = wp_tail (wq_pool s) /\ submitted [(c, r)] = []
  end.
Proof.
  intros Hc Hst. unfold_call c Hc.
  all: rewrite ?Hst, ?andb_false_r in Hc; cbn [negb andb] in Hc.
  all: branches Hc; simplify_eq/=; done.
Qed.

(** After [request_stop] no submission of worker_queue_shutdown.c succeeds:
    in every continuation of a stopped state the pool stays stopped, its [tail]
    never moves and the list of the successful submissions does not grow. *)
Theorem wq_stop_refuses (k k' : wq_cfg) :
  wq_stopped k = true -> rtc (any_step wq_mcall) k k' ->
  wq_stopped k' = true /\
  wp_tail (wq_pool (mc_state k')) = wp_tail (wq_pool (mc_state k)) /\
  submitted (mc_log k') = submitted (mc_log k).
Proof.
  intros Hst Hr. unfold wq_stopped in *. apply (mon_state_invariant wq_mcall
    (fun s log => wp_stopping (wq_pool s) = true /\ wp_tail (wq_pool s) = wp_tail (wq_pool (mc_state k)) /\
                  submitted log = submitted (mc_log k)) k); [..|done|done].
  - intros s log c s' c' ws (H1 & H2 & H3) Hc.
    pose proof (wq_stopping_monotone _ _ _ Hc H1). pose proof (wq_stopped_effect _ _ _ Hc H1) as He.
    simpl in *. split_and!; [done|congruence|done].
  - intros s log c s' r ws (H1 & H2 & H3) Hc.
    pose proof (wq_stopping_monotone _ _ _ Hc H1) as Hm. pose proof (wq_stopped_effect _ _ _ Hc H1) as [He1 He2].
    split_and!; [exact Hm|congruence|]. by rewrite submitted_app, He2, app_nil_r.
Qed.

(** The places inside [worker_main]. *)
Definition in_worker (c : wq_call) : bool :=
  match c with WorkerEntry arg => arg | WorkerMain | WorkerRun _ => true | _ => false end.

Lemma in_worker_stays s c o :
  in_worker c = true -> wq_mcall s c = Some o ->
  match o with Blocked => False | Wait _ c' | Next _ c' _ => in_worker c' = true | Done _ _ _ => False end.
Proof.
  intros Hin Hc. destruct c as [| | |arg| |curr]; simpl in *; try done; unfold worker_main_entry,
    worker_main_locked, worker_main_run, get_queue_count_is_null in Hc.
  - destruct arg; simplify_eq/=; done.
  - rewrite andb_false_r in Hc. destruct (_ && _); simplify_eq/=; [done|].
    destruct (arr_get _ _); simplify_eq/=; done.
  - destruct (_ =? _); simplify_eq/=; done.
Qed.

(** Thread [i] is inside [worker_main], with the calls [cs] to follow. *)
Definition working (i : nat) (cs : list wq_call) (ls : list (mthread wq_call wq_cv)) : Prop :=
  exists c cv, ls !! i = Some (mk_mthread (c :: cs) cv) /\ in_worker c = true.

Lemma working_insert_eq i cs ls c cv :
  (i < length ls)%nat -> in_worker c = true -> working i cs (<[i := mk_mthread (c :: cs) cv]> ls).
Proof. intros Hi Hc. exists c, cv. by rewrite list_lookup_insert_eq. Qed.

Lemma working_insert_ne i j cs ls t : j <> i -> working i cs ls -> working i cs (<[j := t]> ls).
Proof. intros Hj (c & cv & Hi & Hc). exists c, cv. by rewrite list_lookup_insert_ne. Qed.

Lemma working_woken i cs ws ls ls' : woken ws ls ls' -> working i cs ls -> working i cs ls'.
Proof.
  intros Hw (c & cv & Hi & Hc). destruct (lookup_lt_is_Some_2 ls' i) as [t' Ht'].
  { rewrite (woken_length _ _ _ Hw). by eapply lookup_lt_Some. }
  destruct (woken_lookup _ _ _ _ _ Hw Ht') as (t & Ht & Htt). rewrite Hi in Ht. simplify_eq.
  destruct Htt as [-> | ->]; [by exists c, cv|by exists c, None].
Qed.

Lemma working_step i cs k k' :
  any_step wq_mcall k k' -> working i cs (mc_threads k) -> working i cs (mc_threads k').
Proof.
  intros Hs Hwk. assert (Hlt : (i < length (mc_threads k))%nat).
  { destruct Hwk as (c & cv & Hi & _). by eapply lookup_lt_Some. }
  destruct Hs as [Hs|Hs].
  2: { destruct Hs as [s ls log j t Hj Ht]; simpl in *. destruct (decide (j = i)) as [->|];
         [|by apply working_insert_ne]. destruct Hwk as (c & cv & Hi & Hc). rewrite Hi in Hj. simplify_eq.
       by apply working_insert_eq. }
  destruct Hs as [s ls log j d ds v d' Hj Hc|s ls log j d ds s' d' ws ls' Hj Hc Hw
                 |s ls log j d ds s' r ws ls' Hj Hc Hw]; simpl in *;
    try (eapply working_woken; [exact Hw|]).
  all: destruct (decide (j = i)) as [->|]; [|by apply working_insert_ne].
  all: destruct Hwk as (c & cv & Hi & Hin); rewrite Hi in Hj; simplify_eq;
    pose proof (in_worker_stays _ _ _ Hin Hc) as Hst; try done; by apply working_insert_eq.
Qed.

(** C23. A worker of worker_queue_shutdown.c never returns: because line 92
    tests the function [get_queue_count] and not its result, a thread that has
    entered [worker_main] is still in it in every later state of every
    execution, also after [request_stop] and with the queue drained, so an owner
    that joins its workers waits for ever. *)
Theorem worker_main_never_returns (k k' : wq_cfg) i cs :
  working i cs (mc_threads k) -> rtc (any_step wq_mcall) k k' -> working i cs (mc_threads k').
Proof. intros Hw Hr. induction Hr; eauto using working_step. Qed.

(** A run: 16 jobs are submitted and run, the pool is stopped, and the worker
    goes on: it runs the first job a second time. *)
Definition demo_jobs : list job := (fun i => mk_job 1 (Z.of_nat i)) <$> seq 1 16.
Definition demo_progs : list (list wq_call) :=
  [[WorkerEntry true]; ((fun j => SubmitEntry true (job_fn j) (job_arg j)) <$> demo_jobs) ++ [RequestStop true]].
Definition demo_sched : list nat := replicate 32 1%nat ++ replicate 33 0%nat ++ [1; 0; 0]%nat.
Definition demo_init : wq_cfg := init (wq_fresh (replicate 16 (mk_job 0 0)) 0) demo_progs.

Theorem stopped_worker_reruns_job :
  (fun k => (wq_stopped k, submitted (mc_log k), wq_ran (mc_state k))) <$> mon_run wq_mcall demo_sched demo_init
  = Some (true, demo_jobs, demo_jobs ++ [mk_job 1 1]).
Proof. vm_compute. reflexivity. Qed.

Definition demo_mid : wq_cfg := default demo_init (mon_run wq_mcall (take 40 demo_sched) demo_init).
Definition demo_end : wq_cfg := default demo_init (mon_run wq_mcall demo_sched demo_init).

Lemma demo_mid_run : rtc (any_step wq_mcall) demo_init demo_mid.
Proof. apply rtc_mon_any, (mon_run_rtc wq_mcall (take 40 demo_sched)). vm_compute. reflexivity. Qed.

Lemma demo_end_run : rtc (any_step wq_mcall) demo_init demo_end.
Proof. apply rtc_mon_any, (mon_run_rtc wq_mcall demo_sched). vm_compute. reflexivity. Qed.

Lemma wq_jobs_accounted_witness :
  wq_stopped demo_mid = false /\
  exists xs, wq_repr (wq_pool (mc_state demo_mid)) xs /\ Z.of_nat (length xs) <= Q_MAX /\
    forall j, cnt j (submitted (mc_log demo_mid))
      = cnt j (wq_ran (mc_state demo_mid)) + lsum (in_hand j) (mc_threads demo_mid) + cnt j xs.
Proof.
  split; [vm_compute; reflexivity|].
  apply (wq_jobs_accounted (replicate 16 (mk_job 0 0)) 0 demo_progs demo_mid).
  - reflexivity.
  - vm_compute. split; congruence.
  - repeat constructor.
  - exact demo_mid_run.
  - vm_compute. reflexivity.
Defined.

Lemma wq_stop_refuses_witness :
  wq_stopped demo_end = true /\
  wp_tail (wq_pool (mc_state demo_end)) = wp_tail (wq_pool (mc_state demo_end)).
Proof.
  split; [vm_compute; reflexivity|].
  apply (wq_stop_refuses demo_end demo_end); [vm_compute; reflexivity|apply rtc_refl].
Defined.

Lemma worker_main_never_returns_witness : wq_stopped demo_end = true /\ working 0 [] (mc_threads demo_end).
Proof.
  split; [vm_compute; reflexivity|].
  apply (worker_main_never_returns demo_init demo_end 0 []).
  - exists (WorkerEntry true), None. split; reflexivity.
  - exact demo_end_run.
Defined.
