(* ===== verification/ThreadPool.v ===== *)
(** * thread_pool_shutdown.c

    The thread pool with a state ([TP_RUNNING], ...): [tp_submit] and
    [tp_worker_main] as the critical sections of a monitor; [tp_shutdown] is an
    empty function in the source. Two of the returns of [tp_submit] leave the
    mutex locked, so the mutex is a field of the model, and a call that finds it
    locked is [Blocked]. The jobs run are recorded with the argument they get.

    The source is unfinished (line 108 is not C: the condition of the wait loop
    ends in [&& )]; it is read without its missing operand). The theorems say
    what a running pool keeps: the queue, its counters and the accounting of the
    jobs are right, but every job is called with its own function pointer for an
    argument (line 147); a refused submission blocks all threads for ever; a
    worker of a draining pool takes jobs from the empty queue. *)

From S2P Require Import Prelude Fifo Threads Monitor.

Definition TP_CAP : Z := 16.

Inductive tp_state := TP_RUNNING | TP_DRAINING | TP_CANCELING | TP_STOPPED.

#[export] Instance tp_state_eq_dec : EqDecision tp_state.
Proof. solve_decision. Defined.

Inductive tp_shutdown_mode := TP_SHUTDOWN_DRAIN | TP_SHUTDOWN_CANCEL_PENDING.

(** Functions and arguments are addresses, [0] is NULL. *)
Record tp_job := mk_tpjob { tj_fn : Z; tj_arg : Z; tj_destroy : Z }.

Record thread_pool := mk_tp {
  tp_queue : list tp_job;   (* struct tp_job queue[TP_CAP] *)
  tp_head : Z;              (* size_t *)
  tp_tail : Z;              (* size_t *)
  tp_count : Z;             (* size_t *)
  tp_active : Z;            (* size_t *)
  tp_st : tp_state;
  tp_mu : bool;             (* the mutex was left locked *)
  tp_ran : list (Z * Z)     (* the calls fn(arg) made so far *)
}.

Inductive tp_cv := tp_not_empty | tp_not_full.

#[export] Instance tp_cv_eq_dec : EqDecision tp_cv.
Proof. solve_decision. Defined.

(** Where a thread is: at the start of [tp_submit], in its wait loop, at the
    start of [tp_worker_main] (before its lock and in its wait loop), before the
    call of the job, before the second lock, in [tp_shutdown]. *)
Inductive tp_call :=
| TpSubmit (p : bool) (fn arg destroy : Z)
| TpSubmitLoop (fn arg destroy : Z)
| TpWorker (arg : bool)
| TpWorkerRun (curr : tp_job)
| TpWorkerEnd
| TpShutdown (mode : tp_shutdown_mode).

Notation tp_outcome := (option (outcome thread_pool tp_call (option Z) tp_cv)).

Definition tp_hold (s : thread_pool) : thread_pool :=
  mk_tp (tp_queue s) (tp_head s) (tp_tail s) (tp_count s) (tp_active s) (tp_st s) true (tp_ran s).

Definition tp_submit_loop (s : thread_pool) (fn arg destroy : Z) : tp_outcome :=
  if tp_mu s then Some Blocked
  else if tp_count s =? TP_CAP then Some (Wait tp_not_full (TpSubmitLoop fn arg destroy))
  else if negb (bool_decide (tp_st s = TP_RUNNING)) then Some (Done (tp_hold s) (Some (-2)) [])
  else
    queue ← (tp_queue s).[tp_tail s <- mk_tpjob fn arg destroy];
    Some (Done (mk_tp queue (tp_head s) ((tp_tail s +u64 1) mod TP_CAP) (tp_count s +u64 1)
                  (tp_active s) (tp_st s) (tp_mu s) (tp_ran s))
            (Some 0) [Signal tp_not_empty]).

Definition tp_submit (s : thread_pool) (p : bool) (fn arg destroy : Z) : tp_outcome :=
  if negb p || (fn =? 0) || (arg =? 0) || (destroy =? 0) then Some (Done s (Some (-1)) [])
  else if tp_mu s then Some Blocked
  else if negb (bool_decide (tp_st s = TP_RUNNING)) then Some (Done (tp_hold s) (Some (-2)) [])
  else tp_submit_loop s fn arg destroy.

Definition tp_worker_take (s : thread_pool) (arg : bool) : tp_outcome :=
  if negb arg then Some (Done s (Some (-1)) [])
  else if tp_mu s then Some Blocked
  else if (tp_count s =? 0) && bool_decide (tp_st s = TP_RUNNING) then Some (Wait tp_not_empty (TpWorker arg))
  else if bool_decide (tp_st s = TP_CANCELING) then Some (Done s None [])
  else
    j ← (tp_queue s).[tp_head s];
    Some (Next (mk_tp (tp_queue s) ((tp_head s +u64 1) mod TP_CAP) (tp_tail s) (tp_count s -u64 1)
                  (tp_active s +u64 1) (tp_st s) (tp_mu s) (tp_ran s))
            (TpWorkerRun (mk_tpjob (tj_fn j) (tj_fn j) (tj_destroy j))) [Signal tp_not_full]).

Definition tp_worker_run (s : thread_pool) (curr : tp_job) : tp_outcome :=
  if tj_fn curr =? 0 then None
  else Some (Next (mk_tp (tp_queue s) (tp_head s) (tp_tail s) (tp_count s) (tp_active s) (tp_st s) (tp_mu s)
                     (tp_ran s ++ [(tj_fn curr, tj_arg curr)])) TpWorkerEnd []).

Definition tp_worker_end (s : thread_pool) : tp_outcome :=
  if tp_mu s then Some Blocked
  else Some (Done (mk_tp (tp_queue s) (tp_head s) (tp_tail s) (tp_count s) (tp_active s -u64 1) (tp_st s)
                     (tp_mu s) (tp_ran s)) None []).

Definition tp_shutdown (s : thread_pool) (mode : tp_shutdown_mode) : tp_outcome := Some (Done s None []).

Definition tp_mcall (s : thread_pool) (c : tp_call) : tp_outcome :=
  match c with
  | TpSubmit p fn arg destroy => tp_submit s p fn arg destroy
  | TpSubmitLoop fn arg destroy => tp_submit_loop s fn arg destroy
  | TpWorker arg => tp_worker_take s arg
  | TpWorkerRun curr => tp_worker_run s curr
  | TpWorkerEnd => tp_worker_end s
  | TpShutdown mode => tp_shutdown s mode
  end.

(** ** A running pool *)

Definition tp_repr (s : thread_pool) (xs : list tp_job) : Prop :=
  cslice TP_CAP (tp_queue s) (tp_head s) xs /\ 0 <= tp_head s < TP_CAP /\
  tp_count s = Z.of_nat (length xs) /\
  tp_tail s = (tp_head s + Z.of_nat (length xs)) mod TP_CAP /\
  tp_st s = TP_RUNNING /\ tp_mu s = false.

Lemma tp_repr_len s xs : tp_repr s xs -> Z.of_nat (length xs) <= 16.
Proof. intros ((_ & _ & H & _) & _). exact H. Qed.

Lemma tp_submit_loop_effect s xs fn arg destroy :
  tp_repr s xs ->
  tp_submit_loop s fn arg destroy = Some (Wait tp_not_full (TpSubmitLoop fn arg destroy)) \/
  exists s', tp_submit_loop s fn arg destroy = Some (Done s' (Some 0) [Signal tp_not_empty]) /\
    tp_repr s' (xs ++ [mk_tpjob fn arg destroy]) /\ tp_ran s' = tp_ran s /\ tp_active s' = tp_active s.
Proof.
  intros Hr. pose proof (tp_repr_len s xs Hr) as Hl. destruct Hr as (Hs & Hh & Hc & Ht & Hst & Hm).
  unfold tp_submit_loop. rewrite Hm, Hst. unfold TP_CAP in *.
  destruct (Z.eqb_spec (tp_count s) 16); [by left|right]. rewrite bool_decide_eq_true_2 by done. simpl.
  destruct (cslice_push 16 _ _ _ (mk_tpjob fn arg destroy) _ Hs ltac:(lia) Ht) as [-> Hs'].
  assert (Hw : forall x, 0 <= x <= 16 -> (x +u64 1) = x + 1).
  { intros x Hx. apply wrap_small. unfold in_u. lia. }
  assert (0 <= tp_tail s < 16) by (rewrite Ht; apply Z.mod_pos_bound; lia).
  eexists. split_and!; [done| |done..]. split_and!; simpl; [done|lia|unfold TP_CAP; lia|..|done|done].
  - rewrite Hc, Hw, length_app by lia. simpl. lia.
  - rewrite Hw by lia. rewrite Ht, length_app. cbn [length]. rewrite Zplus_mod_idemp_l. f_equal. lia.
Qed.

Lemma tp_worker_effect s xs :
  tp_repr s xs ->
  (xs = [] /\ tp_worker_take s true = Some (Wait tp_not_empty (TpWorker true))) \/
  exists j ys s', xs = j :: ys /\
    tp_worker_take s true
      = Some (Next s' (TpWorkerRun (mk_tpjob (tj_fn j) (tj_fn j) (tj_destroy j))) [Signal tp_not_full]) /\
    tp_repr s' ys /\ tp_ran s' = tp_ran s /\ tp_active s' = (tp_active s +u64 1).
Proof.
  intros Hr. pose proof (tp_repr_len s xs Hr) as Hl. destruct Hr as (Hs & Hh & Hc & Ht & Hst & Hm).
  unfold tp_worker_take. rewrite Hm, Hst, Hc. cbn [negb]. unfold TP_CAP in *.
  rewrite (bool_decide_eq_true_2 (TP_RUNNING = TP_RUNNING)) by done. rewrite andb_true_r.
  destruct xs as [|j ys]; [by left|right].
  destruct (Z.eqb_spec (Z.of_nat (length (j :: ys))) 0) as [|_]; [done|].
  pose proof (cslice_head _ _ _ _ _ Hs) as Hx. rewrite Z.mod_small in Hx by done. rewrite Hx.
  assert (Hw : (tp_head s +u64 1) = tp_head s + 1) by (apply wrap_small; unfold in_u; lia).
  exists j, ys. eexists. simpl length in *. split_and!; [done|done| |done..]. split_and!; simpl.
  - rewrite Hw. eapply cslice_congr, cslice_tail, Hs. by rewrite Zmod_mod.
  - apply Z.mod_pos_bound. done.
  - apply Z.mod_pos_bound. done.
  - rewrite wrap_small; [lia|]. unfold in_u. lia.
  - rewrite Ht, Hw. rewrite Zplus_mod_idemp_l. f_equal. lia.
  - done.
  - done.
Qed.

(** ** Accounting, by job function *)

Definition is_fn (f : Z) (x : Z) : bool := x =? f.
Definition cnt_fn (f : Z) (l : list Z) : Z := lsum (ind (is_fn f)) l.

(** The job a call has in hand, and whether the call is counted in [active]. *)
Definition tp_hand (f : Z) (c : tp_call) : Z :=
  match c with TpWorkerRun curr => ind (is_fn f) (tj_fn curr) | _ => 0 end.
Definition tp_busy (c : tp_call) : Z :=
  match c with TpWorkerRun _ | TpWorkerEnd => 1 | _ => 0 end.

(** The jobs in hand, and those run, have their function for an argument. *)
Definition arg_is_fn (c : tp_call) : Prop :=
  match c with TpWorkerRun curr => tj_arg curr = tj_fn curr | _ => True end.
Definition ran_arg_is_fn (s : thread_pool) : Prop := Forall (fun '(f, a) => a = f) (tp_ran s).

Definition tp_submitted (log : list (tp_call * option Z)) : list Z :=
  omap (fun e => match e with
                 | (TpSubmit _ fn _ _, Some 0) | (TpSubmitLoop fn _ _, Some 0) => Some fn
                 | _ => None end) log.

(** From [s], holding [xs], with the call [c], to [s'], holding [xs'], with the
    remaining call [cs']; [subm] are the functions submitted by the step. *)
Definition tp_moves (s : thread_pool) xs c (s' : thread_pool) xs' cs' subm : Prop :=
  tp_repr s' xs' /\
  tp_active s' = u64 (tp_active s + lsum tp_busy cs' - tp_busy c) /\
  (arg_is_fn c -> ran_arg_is_fn s -> Forall arg_is_fn cs' /\ ran_arg_is_fn s') /\
  forall f, cnt_fn f subm + cnt_fn f (tp_ran s).*1 + tp_hand f c + cnt_fn f (tj_fn <$> xs)
          = cnt_fn f (tp_ran s').*1 + lsum (tp_hand f) cs' + cnt_fn f (tj_fn <$> xs').

Definition tp_wf (s : thread_pool) xs : Prop := tp_repr s xs /\ in_u 64 (tp_active s).

Lemma cnt_fn_app f l1 l2 : cnt_fn f (l1 ++ l2) = cnt_fn f l1 + cnt_fn f l2.
Proof. apply lsum_app. Qed.

Lemma tp_moves_refl s xs c : tp_wf s xs -> (forall f, tp_hand f c = 0) -> tp_busy c = 0 -> tp_moves s xs c s xs [] [].
Proof.
  intros [Hr Ha] Hh Hb. split_and!; [done| |by intros; split; [constructor|]|].
  - simpl. rewrite Hb, Z.add_0_r, Z.sub_0_r. symmetry. by apply wrap_small.
  - intros f. rewrite Hh. simpl. unfold cnt_fn. simpl. lia.
Qed.

Lemma tp_submit_loop_moves s xs c fn arg destroy o :
  tp_wf s xs -> tp_submit_loop s fn arg destroy = Some o ->
  (forall f, tp_hand f c = 0) -> tp_busy c = 0 ->
  match o with
  | Blocked | Next _ _ _ => False
  | Wait _ c' => c' = TpSubmitLoop fn arg destroy
  | Done s' r _ => r = Some 0 /\ exists xs', tp_moves s xs c s' xs' [] [fn]
  end.
Proof.
  intros [Hr Ha] Ho Hh Hb.
  destruct (tp_submit_loop_effect s xs fn arg destroy Hr) as [E|(s' & E & Hr' & Hran & Hact)];
    rewrite E in Ho; simplify_eq; [done|]. split; [done|].
  exists (xs ++ [mk_tpjob fn arg destroy]). unfold tp_moves, ran_arg_is_fn. rewrite Hran, Hact, Hb.
  split_and!; [done| |done|].
  - simpl. rewrite Z.add_0_r, Z.sub_0_r. symmetry. by apply wrap_small.
  - intros f. rewrite Hh, fmap_app, cnt_fn_app. cbn [fmap list_fmap tj_fn].
    change (lsum (tp_hand f) []) with 0. lia.
Qed.

Lemma tp_mcall_moves s xs c o :
  tp_wf s xs -> tp_mcall s c = Some o ->
  match o with
  | Blocked => False
  | Wait _ c' => (forall f, tp_hand f c = 0 /\ tp_hand f c' = 0) /\ tp_busy c = 0 /\ tp_busy c' = 0 /\ arg_is_fn c'
  | Next s' c' _ => exists xs', tp_moves s xs c s' xs' [c'] []
  | Done s' r _ => exists xs', tp_moves s xs c s' xs' [] (tp_submitted [(c, r)])
  end.
Proof.
  intros Hwf Hc. pose proof Hwf as [Hr Ha]. pose proof Hr as (_ & _ & _ & _ & Hst & Hm).
  destruct c as [p fn arg destroy|fn arg destroy|arg|curr| |mode]; simpl in Hc.
  - unfold tp_submit in Hc. destruct (_ || _ || _ || _); simplify_eq; [exists xs; by apply tp_moves_refl|].
    rewrite Hm, Hst in Hc. rewrite bool_decide_eq_true_2 in Hc by done. cbn [negb] in Hc.
    pose proof (tp_submit_loop_moves s xs (TpSubmit p fn arg destroy) fn arg destroy o Hwf Hc) as Ho.
    destruct o as [|v c'|s' c' ws|s' r ws]; [by apply Ho| |by exfalso; apply Ho|].
    + rewrite (Ho ltac:(done) eq_refl). by split_and!.
    + by destruct (Ho ltac:(done) eq_refl) as [-> Hx].
  - pose proof (tp_submit_loop_moves s xs (TpSubmitLoop fn arg destroy) fn arg destroy o Hwf Hc) as Ho.
    destruct o as [|v c'|s' c' ws|s' r ws]; [by apply Ho| |by exfalso; apply Ho|].
    + rewrite (Ho ltac:(done) eq_refl). by split_and!.
    + by destruct (Ho ltac:(done) eq_refl) as [-> Hx].
  - destruct arg; [|unfold tp_worker_take in Hc; simplify_eq/=; exists xs; by apply tp_moves_refl].
    destruct (tp_worker_effect s xs Hr) as [[_ E]|(j & ys & s' & -> & E & Hr' & Hran & Hact)];
      rewrite E in Hc; simplify_eq; [by split_and!|].
    exists ys. unfold tp_moves, ran_arg_is_fn. rewrite Hran, Hact. split_and!; [done| | |].
    + simpl. f_equal. lia.
    + intros _ Hok. split; [by repeat constructor|done].
    + intros f. rewrite lsum_cons, fmap_cons. unfold cnt_fn. rewrite lsum_cons. simpl. lia.
  - unfold tp_worker_run in Hc. destruct (_ =? _); simplify_eq. exists xs. split_and!; [exact Hr| | |].
    + simpl. rewrite Z.add_0_r, Z.add_simpl_r. symmetry. by apply wrap_small.
    + intros Hcur Hok. split; [by repeat constructor|]. unfold ran_arg_is_fn. simpl.
      apply Forall_app. split; [done|]. by repeat constructor.
    + intros f. cbn [tp_ran]. rewrite fmap_app, cnt_fn_app. unfold cnt_fn. simpl. lia.
  - unfold tp_worker_end in Hc. rewrite Hm in Hc. simplify_eq. exists xs. split_and!; [rewrite <- Hm; exact Hr| |..].
    + simpl. f_equal. lia.
    + intros _ Hok. split; [constructor|exact Hok].
    + intros f. unfold cnt_fn. simpl. lia.
  - unfold tp_shutdown in Hc. simplify_eq. exists xs. by apply tp_moves_refl.
Qed.

Notation tp_cfg := (mcfg thread_pool tp_call (option Z) tp_cv).
Notation tp_thread := (mthread tp_call tp_cv).

Definition tp_in_hand (f : Z) (t : tp_thread) : Z := lsum (tp_hand f) (mt_calls t).
Definition tp_running_jobs (t : tp_thread) : Z := lsum tp_busy (mt_calls t).

(** What a running pool keeps. *)
Definition tp_inv (k : tp_cfg) : Prop :=
  exists xs, tp_repr (mc_state k) xs /\
    tp_active (mc_state k) = u64 (lsum tp_running_jobs (mc_threads k)) /\
    ran_arg_is_fn (mc_state k) /\ Forall (fun calls => Forall arg_is_fn calls) (mt_calls <$> mc_threads k) /\
    forall f, cnt_fn f (tp_submitted (mc_log k))
      = cnt_fn f (tp_ran (mc_state k)).*1 + lsum (tp_in_hand f) (mc_threads k) + cnt_fn f (tj_fn <$> xs).

Lemma tp_submitted_app l1 l2 : tp_submitted (l1 ++ l2) = tp_submitted l1 ++ tp_submitted l2.
Proof. apply omap_app. Qed.

(** One step of a running pool, whichever the kind. *)
Lemma tp_inv_moves s ls log c cs i s' cs' subm xs xs' ls' ws log' :
  ls !! i = Some (mk_mthread (c :: cs) None) ->
  tp_inv (mk_mcfg s ls log) -> tp_repr s xs ->
  (forall f, cnt_fn f (tp_submitted log)
      = cnt_fn f (tp_ran s).*1 + lsum (tp_in_hand f) ls + cnt_fn f (tj_fn <$> xs)) ->
  tp_moves s xs c s' xs' cs' subm ->
  woken ws (<[i := mk_mthread (cs' ++ cs) None]> ls) ls' ->
  tp_submitted log' = tp_submitted log ++ subm ->
  tp_inv (mk_mcfg s' ls' log').
Proof.
  intros Hi (_ & _ & Hact & Hran & Hargs & _) Hr Hcnt (Hr' & Hact' & Hok & Hcnt') Hw Hlog. simpl in *.
  assert (Hc : Forall arg_is_fn (c :: cs)).
  { eapply (Forall_lookup_1 (fun calls => Forall arg_is_fn calls)); [exact Hargs|].
    by rewrite list_lookup_fmap, Hi. }
  apply Forall_cons in Hc as [Hc Hcs]. destruct (Hok Hc Hran) as [Hcs' Hran'].
  exists xs'. simpl. split_and!; [done| |done| |].
  - unfold tp_running_jobs. rewrite (woken_calls_sum (lsum tp_busy) _ _ _ Hw), (lsum_insert _ _ _ _ _ Hi).
    cbn [mt_calls]. rewrite Hact', Hact, lsum_app, lsum_cons. unfold tp_running_jobs.
    rewrite <- Z.add_sub_assoc, wrap_add_l by lia. f_equal. lia.
  - rewrite (woken_calls _ _ _ Hw), list_fmap_insert. apply Forall_insert; [done|].
    by apply Forall_app.
  - intros f. specialize (Hcnt f). specialize (Hcnt' f). rewrite Hlog, cnt_fn_app.
    unfold tp_in_hand in *. rewrite (woken_calls_sum (lsum (tp_hand f)) _ _ _ Hw), (lsum_insert _ _ _ _ _ Hi).
    cbn [mt_calls]. rewrite lsum_app, lsum_cons. lia.
Qed.

Lemma tp_inv_step k k' : tp_inv k -> any_step tp_mcall k k' -> tp_inv k'.
Proof.
  intros HI [Hs|Hs]; pose proof HI as (xs & Hr & Hact & Hran & Hargs & Hcnt).
  2: { destruct Hs as [s ls log i t Hi Ht]; simpl in *. exists xs. simpl. split_and!; [done| |done| |].
       - rewrite (lsum_insert _ _ _ _ _ Hi), Z.sub_add. exact Hact.
       - rewrite list_fmap_insert, list_insert_id; [done|]. by rewrite list_lookup_fmap, Hi.
       - intros f. rewrite (lsum_insert _ _ _ _ _ Hi), (Hcnt f).
         change (tp_in_hand f (awaken t)) with (tp_in_hand f t). lia. }
  assert (Hwf : tp_wf (mc_state k) xs).
  { split; [done|]. rewrite Hact. apply (wrap_range 64). lia. }
  destruct Hs as [s ls log i c cs v c' Hi Hc|s ls log i c cs s' c' ws ls' Hi Hc Hw
                 |s ls log i c cs s' r ws ls' Hi Hc Hw]; simpl in *;
    pose proof (tp_mcall_moves _ _ _ _ Hwf Hc) as Hm; simpl in Hm.
  - destruct Hm as (Hh & Hb & Hb' & Ha'). exists xs. simpl. split_and!; [done| |done| |].
    + rewrite (lsum_insert _ _ _ _ _ Hi), Hact. unfold tp_running_jobs at 3 4. cbn [mt_calls].
      rewrite !lsum_cons, Hb, Hb'. f_equal. lia.
    + rewrite list_fmap_insert. apply Forall_insert; [done|].
      assert (Hcc : Forall arg_is_fn (c :: cs)).
      { eapply (Forall_lookup_1 (fun calls => Forall arg_is_fn calls)); [exact Hargs|].
        by rewrite list_lookup_fmap, Hi. }
      apply Forall_cons in Hcc as [_ ?]. by constructor.
    + intros f. rewrite (lsum_insert _ _ _ _ _ Hi), (Hcnt f). unfold tp_in_hand at 3 4. cbn [mt_calls].
      rewrite !lsum_cons. destruct (Hh f) as [-> ->]. lia.
  - destruct Hm as (xs' & Hm). eapply (tp_inv_moves _ _ _ _ _ _ _ [c']); [done..|].
    by rewrite app_nil_r.
  - destruct Hm as (xs' & Hm). eapply (tp_inv_moves _ _ _ _ _ _ _ []); [done..|].
    apply tp_submitted_app.
Qed.

Definition tp_fresh (queue : list tp_job) (st : tp_state) : thread_pool := mk_tp queue 0 0 0 0 st false [].

Definition no_jobs (calls : list tp_call) : Prop :=
  Forall (fun c => match c with TpWorkerRun _ | TpWorkerEnd => False | _ => True end) calls.

(** C24. The running pool of thread_pool_shutdown.c keeps its books: whatever
    threads submit jobs, work and call [tp_shutdown] (which is empty), in every
    reachable state (every schedule, spurious wake-ups included) the mutex is
    free between critical sections, [count] is the number of jobs queued, at
    most 16, [active] the number of workers with a job, and each function was
    submitted exactly as often as it has been run, is in a worker's hand, or is
    queued. But every job run was called with its own function pointer as its
    argument, whatever [arg] was submitted (line 147 copies [fn]). *)
Theorem tp_running_accounts queue (progs : list (list tp_call)) k :
  length queue = 16%nat -> Forall no_jobs progs ->
  rtc (any_step tp_mcall) (init (tp_fresh queue TP_RUNNING) progs) k ->
  exists xs, cslice TP_CAP (tp_queue (mc_state k)) (tp_head (mc_state k)) xs /\
    tp_mu (mc_state k) = false /\ tp_count (mc_state k) = Z.of_nat (length xs) /\ Z.of_nat (length xs) <= TP_CAP /\
    tp_active (mc_state k) = u64 (lsum tp_running_jobs (mc_threads k)) /\
    (forall f, cnt_fn f (tp_submitted (mc_log k))
      = cnt_fn f (tp_ran (mc_state k)).*1 + lsum (tp_in_hand f) (mc_threads k) + cnt_fn f (tj_fn <$> xs)) /\
    Forall (fun '(f, a) => a = f) (tp_ran (mc_state k)).
Proof.
  intros Hq Hp Hr. assert (HI : tp_inv k).
  { assert (Hz : forall g, (forall calls, no_jobs calls -> lsum g calls = 0) ->
              lsum (fun t : tp_thread => lsum g (mt_calls t)) (start <$> progs) = 0).
    { intros g Hg. rewrite lsum_fmap, (lsum_const _ 0); [lia|]. intros calls Hin. apply Hg.
      rewrite Forall_forall in Hp. by apply Hp. }
    assert (H0 : tp_inv (init (tp_fresh queue TP_RUNNING) progs)).
    { exists []. simpl. split_and!; [|..|constructor| |].
      - split_and!; simpl; try done. apply cslice_nil; [done|]. by rewrite Hq.
      - unfold tp_running_jobs. rewrite Hz; [done|]. clear. induction 1 as [|c cs Hc _ IH]; [done|].
        rewrite lsum_cons, IH. by destruct c.
      - rewrite <- list_fmap_compose. rewrite Forall_fmap. eapply Forall_impl; [exact Hp|]. simpl.
        intros calls Hc. eapply Forall_impl; [exact Hc|]. by intros [].
      - intros f. unfold tp_in_hand. rewrite Hz; [done|]. clear. induction 1 as [|c cs Hc _ IH]; [done|].
        rewrite lsum_cons, IH. by destruct c. }
    clear -Hr H0. induction Hr; eauto using tp_inv_step. }
  destruct HI as (xs & Hx & Hact & Hran & _ & Hcnt). exists xs.
  pose proof (tp_repr_len _ _ Hx). destruct Hx as (Hs & _ & Hc & _ & _ & Hm). by split_and!.
Qed.

(** ** Refused submissions *)

(** With the mutex left locked only [TpWorkerRun] and calls that return at once
    can still move: no critical section of the pool ever runs again. *)
Lemma tp_locked_effect s c o :
  tp_mu s = true -> tp_mcall s c = Some o ->
  match o with
  | Blocked => True
  | Wait _ _ => False
  | Next s' _ _ => tp_mu s' = true /\ tp_queue s' = tp_queue s /\ tp_count s' = tp_count s /\
                   tp_active s' = tp_active s
  | Done s' r _ => s' = s /\ r <> Some 0 /\ r <> Some (-2)
  end.
Proof.
  intros Hm Hc. destruct c as [p fn arg destroy|fn arg destroy|arg|curr| |mode]; simpl in Hc;
    unfold tp_submit, tp_submit_loop, tp_worker_take, tp_worker_run, tp_worker_end, tp_shutdown in Hc;
    rewrite ?Hm in Hc.
  all: repeat match type of Hc with (if ?b then _ else _) = _ => destruct b end; by simplify_eq/=.
Qed.

(** A refused submission of thread_pool_shutdown.c stops the whole pool: in
    a pool that is not running a [tp_submit] with valid arguments returns [-2]
    with the mutex locked (lines 103-105), and in every continuation of every
    schedule the mutex stays locked, the queue and its counters stay as they
    are and no submission is accepted or refused again: all later callers wait
    for ever. *)
Theorem tp_refused_submit_blocks_pool s ls log i fn arg destroy cs :
  tp_mu s = false -> tp_st s <> TP_RUNNING ->
  fn <> 0 -> arg <> 0 -> destroy <> 0 ->
  ls !! i = Some (mk_mthread (TpSubmit true fn arg destroy :: cs) None) ->
  let k1 := mk_mcfg (tp_hold s) (<[i := mk_mthread cs None]> ls)
                    (log ++ [(TpSubmit true fn arg destroy, Some (-2))]) in
  mon_step tp_mcall (mk_mcfg s ls log) k1 /\
  forall k', rtc (any_step tp_mcall) k1 k' ->
    tp_mu (mc_state k') = true /\ tp_queue (mc_state k') = tp_queue s /\
    tp_count (mc_state k') = tp_count s /\ tp_active (mc_state k') = tp_active s /\
    exists log', mc_log k' = mc_log k1 ++ log' /\ Forall (fun e => e.2 <> Some 0 /\ e.2 <> Some (-2)) log'.
Proof.
  intros Hm Hst Hf Ha Hd Hi k1. split.
  - eapply mon_done; [done| |constructor]. unfold tp_mcall, tp_submit. rewrite Hm.
    rewrite bool_decide_eq_false_2 by done. destruct (Z.eqb_spec fn 0); [done|].
    destruct (Z.eqb_spec arg 0); [done|]. by destruct (Z.eqb_spec destroy 0).
  - intros k' Hr. apply (mon_state_invariant tp_mcall (fun s' log' =>
      tp_mu s' = true /\ tp_queue s' = tp_queue s /\ tp_count s' = tp_count s /\ tp_active s' = tp_active s /\
      exists log'', log' = mc_log k1 ++ log'' /\ Forall (fun e => e.2 <> Some 0 /\ e.2 <> Some (-2)) log'') k1);
      [..|done].
    + intros s1 l c s2 c' ws (H1 & H2 & H3 & H4 & H5) Hc.
      destruct (tp_locked_effect _ _ _ H1 Hc) as (-> & -> & -> & ->). by split_and!.
    + intros s1 l c s2 r ws (H1 & H2 & H3 & H4 & l'' & -> & H6) Hc.
      destruct (tp_locked_effect _ _ _ H1 Hc) as (-> & Hr0 & Hr2). split_and!; try done.
      exists (l'' ++ [(c, r)]). split; [by rewrite app_assoc|]. apply Forall_app. split; [done|]. by repeat constructor.
    + split_and!; try done. exists []. split; [by rewrite app_nil_r|constructor].
Qed.

(** A worker that comes to an empty pool that is draining takes a job that was
    never submitted, here whatever the first slot of the array holds, and
    [count] wraps around. *)
Theorem draining_worker_takes_garbage (g : tp_job) :
  (fun k => (mt_calls <$> mc_threads k, tp_count (mc_state k))) <$>
    mon_run tp_mcall [0]%nat (init (tp_fresh (replicate 16 g) TP_DRAINING) [[TpWorker true]])
  = Some ([[TpWorkerRun (mk_tpjob (tj_fn g) (tj_fn g) (tj_destroy g))]], 2 ^ 64 - 1).
Proof. reflexivity. Qed.

(** ** A run *)

Definition tp_demo : list (list tp_call) :=
  [[TpWorker true]; [TpSubmit true 4096 77 8192; TpSubmit true 4097 78 8192]].

Definition tp_demo_init : tp_cfg := init (tp_fresh (replicate 16 (mk_tpjob 0 0 0)) TP_RUNNING) tp_demo.

(** The worker sleeps, both jobs are queued, the worker runs the first. *)
Definition tp_demo_end : tp_cfg := default tp_demo_init (mon_run tp_mcall [0; 1; 1; 0; 0]%nat tp_demo_init).

Lemma tp_demo_run : rtc (any_step tp_mcall) tp_demo_init tp_demo_end.
Proof. apply rtc_mon_any, (mon_run_rtc tp_mcall [0; 1; 1; 0; 0]%nat). vm_compute. reflexivity. Qed.

Example tp_demo_ran : tp_ran (mc_state tp_demo_end) = [(4096, 4096)].
Proof. vm_compute. reflexivity. Qed.

Lemma tp_running_accounts_witness :
  exists xs, cslice TP_CAP (tp_queue (mc_state tp_demo_end)) (tp_head (mc_state tp_demo_end)) xs /\
    tp_mu (mc_state tp_demo_end) = false /\ tp_count (mc_state tp_demo_end) = Z.of_nat (length xs) /\
    Z.of_nat (length xs) <= TP_CAP /\
    tp_active (mc_state tp_demo_end) = u64 (lsum tp_running_jobs (mc_threads tp_demo_end)) /\
    (forall f, cnt_fn f (tp_submitted (mc_log tp_demo_end))
      = cnt_fn f (tp_ran (mc_state tp_demo_end)).*1 + lsum (tp_in_hand f) (mc_threads tp_demo_end)
        + cnt_fn f (tj_fn <$> xs)) /\
    Forall (fun '(f, a) => a = f) (tp_ran (mc_state tp_demo_end)).
Proof.
  apply (tp_running_accounts (replicate 16 (mk_tpjob 0 0 0)) tp_demo tp_demo_end).
  - reflexivity.
  - repeat constructor.
  - exact tp_demo_run.
Defined.

Lemma tp_refused_submit_blocks_pool_witness :
  let s := tp_fresh (replicate 16 (mk_tpjob 0 0 0)) TP_DRAINING in
  let k1 := mk_mcfg (tp_hold s) [mk_mthread [] None; start [TpWorker true]]
              [(TpSubmit true 1 2 3, Some (-2))] in
  mon_step tp_mcall (init s [[TpSubmit true 1 2 3]; [TpWorker true]]) k1 /\
  forall k', rtc (any_step tp_mcall) k1 k' -> tp_mu (mc_state k') = true.
Proof.
  intros s k1.
  destruct (tp_refused_submit_blocks_pool s (start <$> [[TpSubmit true 1 2 3]; [TpWorker true]]) []
              0 1 2 3 []) as [Hs Hr]; try reflexivity; try discriminate.
  split; [exact Hs|]. intros k' Hk. apply (Hr k' Hk).
Defined.
