(* ===== verification/ResourcePool.v ===== *)
(** * semaphore_resource_pool.c

    A pool of 8 resources: the semaphore [available] counts the permits, the
    mutex protects the table [in_use]. [rp_acquire] and [rp_release] are cut at
    their semaphore and mutex operations. The clients of the theorems call
    [rp_acquire], hold the id they got, and call [rp_release] with it, any number
    of times, while others call [rp_close]. One return of [rp_release] (for an
    unknown id) leaves the mutex locked, so the mutex is a field of the model. *)

From S2P Require Import Prelude Threads Monitor.

Definition RP_CAP : Z := 8.

Record resource_pool := mk_rp {
  rp_ids : list Z;          (* uint32_t ids[RP_CAP] *)
  rp_in_use : list bool;    (* bool in_use[RP_CAP] *)
  rp_closed : bool;
  rp_mu : bool;             (* the mutex was left locked *)
  rp_available : Z          (* sem_t *)
}.

Definition rp_set_available (p : resource_pool) (v : Z) : resource_pool :=
  mk_rp (rp_ids p) (rp_in_use p) (rp_closed p) (rp_mu p) v.

Definition rp_set_in_use (p : resource_pool) (l : list bool) : resource_pool :=
  mk_rp (rp_ids p) l (rp_closed p) (rp_mu p) (rp_available p).

(** The loop of [rp_acquire], from index [i] with [n] indices left: the new
    [free_idx] and table. *)
Fixpoint rp_find_free (n : nat) (i : Z) (in_use : list bool) (free_idx : Z) : option (Z * list bool) :=
  match n with
  | O => Some (free_idx, in_use)
  | S n =>
      b ← in_use.[i];
      if negb b then in_use' ← in_use.[i <- true]; Some (i, in_use')
      else rp_find_free n (i + 1) in_use free_idx
  end.

(** [sem_wait(&p->available)]: [None] for a caller that waits. *)
Definition rp_acquire_wait (p : resource_pool) : option resource_pool :=
  rp_set_available p <$> sem_wait (rp_available p).

(** The critical section: [inl] when the pool is closed, [inr] with the id. *)
Definition rp_acquire_locked (p : resource_pool) : option (resource_pool + resource_pool * Z) :=
  if rp_closed p then Some (inl p)
  else
    '(free_idx, in_use) ← rp_find_free (Z.to_nat RP_CAP) 0 (rp_in_use p) 0;
    out_id ← (rp_ids p).[free_idx];
    Some (inr (rp_set_in_use p in_use, out_id)).

(** [sem_post(&p->available)], on the closed path of [rp_acquire] and at the end
    of [rp_release]. *)
Definition rp_post (p : resource_pool) : resource_pool := rp_set_available p (sem_post (rp_available p)).

(** The loop of [rp_release]. *)
Fixpoint rp_find_id (n : nat) (i : Z) (ids : list Z) (id : Z) : option Z :=
  match n with
  | O => Some (-1)
  | S n =>
      x ← ids.[i];
      if id =? x then Some i else rp_find_id n (i + 1) ids id
  end.

(** The critical section of [rp_release]: [inl] for the return of line 78, which
    keeps the mutex. *)
Definition rp_release_locked (p : resource_pool) (id : Z) : option (resource_pool + resource_pool) :=
  release_idx ← rp_find_id (Z.to_nat RP_CAP) 0 (rp_ids p) id;
  if release_idx =? -1
  then Some (inl (mk_rp (rp_ids p) (rp_in_use p) (rp_closed p) true (rp_available p)))
  else
    in_use ← (rp_in_use p).[release_idx <- false];
    Some (inr (rp_set_in_use p in_use)).

Definition rp_close (p : resource_pool) : resource_pool :=
  mk_rp (rp_ids p) (rp_in_use p) true (rp_mu p) (rp_available p).

(** ** Clients *)

(** [RpUse]: about to call [rp_acquire] (the booleans: the pointers are not NULL); [RpLocked]: past its [sem_wait];
    [RpBack]: past the unlock of its closed path; [RpHold id]: holds the id and
    is about to call [rp_release]; [RpReleased]: past the unlock of
    [rp_release]; [RpClose]: about to call [rp_close]. *)
Inductive rp_call :=
| RpUse (p out_id : bool)
| RpLocked
| RpBack
| RpHold (id : Z)
| RpReleased
| RpClose (p : bool).

(** No condition variables: the type of their names is empty. *)
Notation rp_outcome := (option (outcome resource_pool rp_call Z Empty_set)).

Definition rp_mcall (p : resource_pool) (c : rp_call) : rp_outcome :=
  match c with
  | RpUse ptr out_id =>
      if negb ptr || negb out_id then Some (Done p (-1) [])
      else Some (match rp_acquire_wait p with Some p => Next p RpLocked [] | None => Blocked end)
  | RpLocked =>
      if rp_mu p then Some Blocked
      else r ← rp_acquire_locked p;
           Some (match r with inl p => Next p RpBack [] | inr (p, id) => Next p (RpHold id) [] end)
  | RpBack => Some (Done (rp_post p) (-2) [])
  | RpHold id =>
      if rp_mu p then Some Blocked
      else r ← rp_release_locked p id;
           Some (match r with inl p => Done p (-1) [] | inr p => Next p RpReleased [] end)
  | RpReleased => Some (Done (rp_post p) 0 [])
  | RpClose ptr =>
      if negb ptr then Some (Done p 0 [])
      else if rp_mu p then Some Blocked else Some (Done (rp_close p) 0 [])
  end.

(** ** The loops *)



(** ** Exclusive use *)

Notation rp_cfg := (mcfg resource_pool rp_call Z Empty_set).
Notation rp_thread := (mthread rp_call Empty_set).






















Definition rp_fresh (ids : list Z) : resource_pool := mk_rp ids (replicate 8 false) false false RP_CAP.



(** ** All clients finish *)



Lemma rp_no_wait p c v c' : rp_mcall p c <> Some (Wait v c').
Proof. destruct v. Qed.





(** ** Runs *)

Definition rp_demo_ids : list Z := [10; 11; 12; 13; 14; 15; 16; 17].
Definition rp_demo_init : rp_cfg :=
  init (rp_fresh rp_demo_ids) [[RpUse true true]; [RpUse true true]; [RpClose true]].
(** Both clients hold an id, then the pool is closed. *)
Definition rp_demo_end : rp_cfg := default rp_demo_init (mon_run rp_mcall [0; 1; 1; 0; 2]%nat rp_demo_init).



Example rp_demo_holds :
  mt_calls <$> mc_threads rp_demo_end = [[RpHold 11]; [RpHold 10]; []].
Proof. vm_compute. reflexivity. Qed.



(** An id that the pool does not have: [rp_release] returns [-1] and keeps the
    mutex (line 78), so that every later call waits for ever. *)
Theorem rp_release_unknown_keeps_mutex :
  exists p', rp_release_locked (rp_fresh rp_demo_ids) 99 = Some (inl p') /\ rp_mu p' = true /\
    rp_mcall p' RpLocked = Some Blocked /\ rp_mcall p' (RpClose true) = Some Blocked.
Proof. eexists. split; [vm_compute; reflexivity|done]. Qed.

(** A release of an id that nobody holds posts a ninth permit, and the pool
    hands out an id twice: the loop of [rp_acquire] finds nothing free and leaves
    [free_idx] at 0. *)
Theorem rp_double_release_duplicates :
  let p9 := rp_set_available (mk_rp rp_demo_ids (replicate 8 true) false false 0) 1 in
  (p ← rp_acquire_wait p9; rp_acquire_locked p)
  = Some (inr (mk_rp rp_demo_ids (replicate 8 true) false false 0, 10)).
Proof. vm_compute. reflexivity. Qed.
