(* ===== verification/PubSub.v ===== *)
(** * thread_safe_pub_sub_dispatcher.c

    The table of 16 subscribers. Each of [subscribe], [unsubscribe] and
    [publish] touches the table in one critical section, so an execution of
    several threads is a sequence of these sections; [publish] makes its calls
    after the unlock, from the copies it took. The theorem: the table is a bag of
    subscriptions of at most 16, and a publication calls each subscriber of the
    topic exactly once. *)

From S2P Require Import Prelude.

Definition MAX_SUBS : nat := 16.

Record subscriber := mk_sub {
  active : bool;
  topic : Z;                (* uint32_t *)
  cb : Z;                   (* event_cb, an address *)
  ctx : Z                   (* void *, an address *)
}.

(** [struct dispatcher]; a pointer to one is [None] when NULL. *)
Notation dispatcher := (list subscriber).

(** The loop of [subscribe], from index [i] with [n] indices left: the table and
    [found_slot]. *)
Fixpoint subscribe_loop (n : nat) (i : Z) (d : dispatcher) (s : subscriber) : option (dispatcher * bool) :=
  match n with
  | O => Some (d, false)
  | S n =>
      x ← d.[i];
      if negb (active x) then d' ← d.[i <- s]; Some (d', true)
      else subscribe_loop n (i + 1) d s
  end.

(** The result, and the dispatcher after the call. *)
Definition subscribe (d : option dispatcher) (tp cbk cx : Z) : option (Z * option dispatcher) :=
  match d with
  | Some d =>
      if (cx =? 0) || (cbk =? 0) then Some (-1, Some d)
      else '(d, found) ← subscribe_loop MAX_SUBS 0 d (mk_sub true tp cbk cx);
           Some (if (found : bool) then 0 else -2, Some d)
  | None => Some (-1, None)
  end.

(** The loop of [unsubscribe], which does not stop at the first match. *)
Fixpoint unsubscribe_loop (n : nat) (i : Z) (d : dispatcher) (cbk cx : Z) (found : bool)
  : option (dispatcher * bool) :=
  match n with
  | O => Some (d, found)
  | S n =>
      x ← d.[i];
      if (cb x =? cbk) && (ctx x =? cx) && active x
      then d' ← d.[i <- mk_sub false (topic x) (cb x) (ctx x)]; unsubscribe_loop n (i + 1) d' cbk cx true
      else unsubscribe_loop n (i + 1) d cbk cx found
  end.

Definition unsubscribe (d : option dispatcher) (cbk cx : Z) : option (Z * option dispatcher) :=
  match d with
  | Some d =>
      if (cx =? 0) || (cbk =? 0) then Some (-1, Some d)
      else '(d, found) ← unsubscribe_loop MAX_SUBS 0 d cbk cx false;
           Some (if (found : bool) then 0 else -2, Some d)
  | None => Some (-1, None)
  end.

(** The local arrays of [publish] ([None]: not written yet) and [cb_idx]. *)
Record pub_locals := mk_pl { pl_cbs : list (option Z); pl_ctxs : list (option Z); pl_idx : Z }.

Fixpoint collect_loop (n : nat) (i : Z) (d : dispatcher) (tp : Z) (l : pub_locals) : option pub_locals :=
  match n with
  | O => Some l
  | S n =>
      x ← d.[i];
      if active x && (topic x =? tp)
      then
        cbs ← (pl_cbs l).[pl_idx l <- Some (cb x)];
        ctxs ← (pl_ctxs l).[pl_idx l <- Some (ctx x)];
        collect_loop n (i + 1) d tp (mk_pl cbs ctxs (pl_idx l +u64 1))
      else collect_loop n (i + 1) d tp l
  end.

(** The calls [cbs[i](event_id, ctxs[i])], with [n] of them left. *)
Fixpoint call_loop (n : nat) (i : Z) (l : pub_locals) (event_id : Z) : option (list (Z * Z * Z)) :=
  match n with
  | O => Some []
  | S n =>
      f ← (pl_cbs l).[i]; f ← f; a ← (pl_ctxs l).[i]; a ← a;
      rest ← call_loop n (i + 1) l event_id;
      Some ((f, event_id, a) :: rest)
  end.

(** The result and the calls made. *)
Definition publish (d : option dispatcher) (tp event_id : Z) : option (Z * list (Z * Z * Z)) :=
  match d with
  | None => Some (-1, [])
  | Some d =>
      l ← collect_loop MAX_SUBS 0 d tp (mk_pl (replicate MAX_SUBS None) (replicate MAX_SUBS None) 0);
      calls ← call_loop (Z.to_nat (pl_idx l)) 0 l event_id;
      Some (0, calls)
  end.

(** ** Specification: a bag of subscriptions *)

Notation subscription := (Z * Z * Z)%type.   (* topic, callback, context *)

(** The active subscriptions of a table, in the order of their slots. *)
Definition subs_of (d : dispatcher) : list subscription :=
  omap (fun s => if active s then Some (topic s, cb s, ctx s) else None) d.

Inductive ps_op :=
| OSubscribe (tp cbk cx : Z)
| OUnsubscribe (cbk cx : Z)
| OPublish (tp event_id : Z).

(** What the caller sees: the result and the calls made. *)
Notation ps_ans := (Z * list (Z * Z * Z))%type.

Definition ps_step (d : option dispatcher) (o : ps_op) : option (option dispatcher * ps_ans) :=
  match o with
  | OSubscribe tp cbk cx => '(r, d) ← subscribe d tp cbk cx; Some (d, (r, []))
  | OUnsubscribe cbk cx => '(r, d) ← unsubscribe d cbk cx; Some (d, (r, []))
  | OPublish tp event_id => '(r, calls) ← publish d tp event_id; Some (d, (r, calls))
  end.

Definition is_of (cbk cx : Z) (s : subscription) : bool := (s.1.2 =? cbk) && (s.2 =? cx).
Definition on_topic (tp : Z) (s : subscription) : bool := s.1.1 =? tp.

Definition spec_step (l : list subscription) (o : ps_op) : list subscription * ps_ans :=
  match o with
  | OSubscribe tp cbk cx =>
      if (cx =? 0) || (cbk =? 0) then (l, (-1, []))
      else if bool_decide (length l < MAX_SUBS)%nat then ((tp, cbk, cx) :: l, (0, [])) else (l, (-2, []))
  | OUnsubscribe cbk cx =>
      if (cx =? 0) || (cbk =? 0) then (l, (-1, []))
      else (filter (fun s => negb (is_of cbk cx s)) l,
            (if existsb (is_of cbk cx) l then 0 else -2, []))
  | OPublish tp event_id =>
      (l, (0, (fun s => (s.1.2, event_id, s.2)) <$> filter (on_topic tp) l))
  end.

Fixpoint spec_run (l : list subscription) (ops : list ps_op) : list subscription * list ps_ans :=
  match ops with
  | [] => (l, [])
  | o :: ops => let '(l, a) := spec_step l o in let '(l, rs) := spec_run l ops in (l, a :: rs)
  end.

(** Answers that differ only in the order of the calls of a publication. *)
Definition same_ans (a b : ps_ans) : Prop := a.1 = b.1 /\ a.2 ≡ₚ b.2.

(** ** The loops, on the part of the table that is left *)

Lemma arr_mid {A} (pre post : list A) x i : i = Z.of_nat (length pre) -> (pre ++ x :: post).[i] = Some x.
Proof. intros ->. rewrite arr_get_nat, Nat2Z.id by lia. by apply list_lookup_middle. Qed.

Lemma arr_set_mid {A} (pre post : list A) x y i :
  i = Z.of_nat (length pre) -> (pre ++ x :: post).[i <- y] = Some (pre ++ y :: post).
Proof.
  intros ->. rewrite arr_set_in by (rewrite length_app; simpl; lia). rewrite Nat2Z.id.
  rewrite insert_app_r_alt, Nat.sub_diag by lia. done.
Qed.

Lemma subs_of_app d1 d2 : subs_of (d1 ++ d2) = subs_of d1 ++ subs_of d2.
Proof. apply omap_app. Qed.

Lemma subs_of_cons x d :
  subs_of (x :: d) = (if active x then [(topic x, cb x, ctx x)] else []) ++ subs_of d.
Proof. unfold subs_of. simpl. by destruct (active x). Qed.

Lemma subs_of_length d : (length (subs_of d) <= length d)%nat.
Proof.
  induction d as [|x d IH]; [done|]. rewrite subs_of_cons, length_app. cbn [length].
  destruct (active x); cbn [length]; lia.
Qed.

Lemma subscribe_loop_spec pre suf i s :
  i = Z.of_nat (length pre) -> active s = true ->
  (length (subs_of suf) < length suf)%nat /\
  (exists d', subscribe_loop (length suf) i (pre ++ suf) s = Some (d', true) /\ length d' = length (pre ++ suf) /\
     subs_of d' ≡ₚ (topic s, cb s, ctx s) :: subs_of (pre ++ suf)) \/
  length (subs_of suf) = length suf /\
  subscribe_loop (length suf) i (pre ++ suf) s = Some (pre ++ suf, false).
Proof.
  intros Hi Hs. revert pre i Hi. induction suf as [|x suf IH]; intros pre i Hi; [by right|].
  cbn [subscribe_loop length]. rewrite (arr_mid pre suf x i Hi). cbn [mbind option_bind].
  rewrite subs_of_cons. destruct (active x) eqn:Ha; simpl.
  - destruct (IH (pre ++ [x]) (i + 1)) as [[Hlt Hd]|[Heq Hd]]; [rewrite length_app; simpl; lia|left|right];
      rewrite <- app_assoc in Hd; simpl in Hd; (split; [lia|done]).
  - left. rewrite (arr_set_mid pre suf x s i Hi). split.
    { pose proof (subs_of_length suf). lia. }
    eexists. split_and!; [done|rewrite !length_app; simpl; lia|].
    rewrite !subs_of_app, !subs_of_cons, Hs, Ha. simpl. by rewrite Permutation_middle.
Qed.

(** What [unsubscribe] makes of one slot. *)
Definition drop_sub (cbk cx : Z) (x : subscriber) : subscriber :=
  if (cb x =? cbk) && (ctx x =? cx) && active x then mk_sub false (topic x) (cb x) (ctx x) else x.

Lemma unsubscribe_loop_spec pre suf i cbk cx found :
  i = Z.of_nat (length pre) ->
  unsubscribe_loop (length suf) i (pre ++ suf) cbk cx found
  = Some (pre ++ (drop_sub cbk cx <$> suf), found || existsb (is_of cbk cx) (subs_of suf)).
Proof.
  revert pre i found. induction suf as [|x suf IH]; intros pre i found Hi; [simpl; by rewrite orb_false_r|].
  cbn [unsubscribe_loop length]. rewrite (arr_mid pre suf x i Hi). cbn [mbind option_bind].
  rewrite (arr_set_mid pre suf x _ i Hi). cbn [mbind option_bind].
  assert (Hx : forall y found', unsubscribe_loop (length suf) (i + 1) (pre ++ y :: suf) cbk cx found'
            = Some (pre ++ y :: (drop_sub cbk cx <$> suf), found' || existsb (is_of cbk cx) (subs_of suf))).
  { intros y found'. pose proof (IH (pre ++ [y]) (i + 1) found') as H. rewrite <- !app_assoc in H. apply H.
    rewrite length_app. simpl. lia. }
  rewrite fmap_cons, subs_of_cons, existsb_app. unfold drop_sub at 1.
  destruct (active x) eqn:Ha; rewrite ?andb_true_r, ?andb_false_r; [|rewrite Hx; by destruct x].
  destruct ((cb x =? cbk) && (ctx x =? cx)) eqn:E; rewrite Hx; do 2 f_equal;
    change (existsb (is_of cbk cx) [(topic x, cb x, ctx x)]) with (((cb x =? cbk) && (ctx x =? cx)) || false);
    rewrite E; by destruct found.
Qed.

Lemma subs_of_drop cbk cx d :
  subs_of (drop_sub cbk cx <$> d) = filter (fun s => negb (is_of cbk cx s)) (subs_of d).
Proof.
  induction d as [|x d IH]; [done|]. rewrite fmap_cons, !subs_of_cons, filter_app, IH. f_equal. unfold drop_sub.
  destruct (active x) eqn:Ha; rewrite ?andb_true_r, ?andb_false_r; [|by rewrite Ha].
  destruct ((cb x =? cbk) && (ctx x =? cx)) eqn:E; cbn [active]; rewrite ?Ha.
  - rewrite filter_cons_False; [done|]. unfold is_of; simpl. rewrite E. by intros [].
  - rewrite filter_cons_True; [done|]. unfold is_of; simpl. by rewrite E.
Qed.

(** The local arrays of [publish] with the callbacks and contexts [ms] in them. *)
Definition locals_of (ms : list (Z * Z)) : pub_locals :=
  mk_pl ((Some <$> ms.*1) ++ replicate (MAX_SUBS - length ms) None)
        ((Some <$> ms.*2) ++ replicate (MAX_SUBS - length ms) None) (Z.of_nat (length ms)).

Definition matches (tp : Z) (d : dispatcher) : list (Z * Z) :=
  (fun s : subscription => (s.1.2, s.2)) <$> filter (on_topic tp) (subs_of d).

Lemma matches_cons tp x d :
  matches tp (x :: d) = (if active x && (topic x =? tp) then [(cb x, ctx x)] else []) ++ matches tp d.
Proof.
  unfold matches. rewrite subs_of_cons, filter_app, fmap_app. f_equal.
  destruct (active x); [|done]. cbn [andb]. destruct (topic x =? tp) eqn:E.
  - rewrite filter_cons_True; [done|]. unfold on_topic; simpl. by rewrite E.
  - rewrite filter_cons_False; [done|]. unfold on_topic; simpl. rewrite E. by intros [].
Qed.

(** One more element in a partly filled local array. *)
Lemma fill_next (xs : list Z) y :
  (length xs < MAX_SUBS)%nat ->
  ((Some <$> xs) ++ replicate (MAX_SUBS - length xs) None).[Z.of_nat (length xs) <- Some y]
  = Some ((Some <$> xs ++ [y]) ++ replicate (MAX_SUBS - length (xs ++ [y])) None).
Proof.
  intros Hl. replace (MAX_SUBS - length xs)%nat with (S (MAX_SUBS - length (xs ++ [y])))
    by (rewrite length_app; simpl; lia).
  cbn [replicate]. rewrite arr_set_mid by (by rewrite length_fmap).
  rewrite fmap_app, <- app_assoc. done.
Qed.

Lemma collect_loop_spec pre suf i tp ms :
  i = Z.of_nat (length pre) -> (length ms + length suf <= MAX_SUBS)%nat ->
  collect_loop (length suf) i (pre ++ suf) tp (locals_of ms) = Some (locals_of (ms ++ matches tp suf)).
Proof.
  revert pre i ms. induction suf as [|x suf IH]; intros pre i ms Hi Hl; [change (matches tp []) with (@nil (Z * Z)); by rewrite !app_nil_r|].
  cbn [collect_loop length] in *. rewrite (arr_mid pre suf x i Hi). cbn [mbind option_bind].
  assert (Hx : forall ms', (length ms' + length suf <= MAX_SUBS)%nat ->
            collect_loop (length suf) (i + 1) (pre ++ x :: suf) tp (locals_of ms')
            = Some (locals_of (ms' ++ matches tp suf))).
  { intros ms' Hms'. pose proof (IH (pre ++ [x]) (i + 1) ms') as H. rewrite <- app_assoc in H. apply H; [|lia].
    rewrite length_app. simpl. lia. }
  rewrite matches_cons. destruct (active x && (topic x =? tp)); [|apply Hx; lia].
  unfold locals_of at 1 2 3 4 5; cbn [pl_cbs pl_ctxs pl_idx].
  pose proof (fill_next ms.*1 (cb x)) as H1. pose proof (fill_next ms.*2 (ctx x)) as H2.
  rewrite !length_fmap in H1, H2. rewrite H1, H2 by lia. cbn [mbind option_bind].
  rewrite wrap_small by (unfold in_u, MAX_SUBS in *; lia).
  rewrite app_assoc, <- Hx by (rewrite length_app; simpl; lia). do 2 f_equal. unfold locals_of.
  rewrite !fmap_app, !length_app, !length_fmap. simpl. f_equal. lia.
Qed.

Lemma call_loop_spec ms e n k :
  (k + n = length ms)%nat -> (length ms <= MAX_SUBS)%nat ->
  call_loop n (Z.of_nat k) (locals_of ms) e = Some ((fun m => (m.1, e, m.2)) <$> drop k ms).
Proof.
  revert k. induction n as [|n IH]; intros k Hk Hl; [by rewrite drop_ge by lia|].
  cbn [call_loop]. destruct (lookup_lt_is_Some_2 ms k) as [[f a] Hm]; [lia|].
  assert (Hget : forall l : list Z, l !! k = Some f \/ l !! k = Some a ->
            ((Some <$> l) ++ replicate (MAX_SUBS - length ms) None).[Z.of_nat k] = Some (l !! k)).
  { intros l Hl'. rewrite arr_get_nat, Nat2Z.id by lia. rewrite lookup_app_l.
    - rewrite list_lookup_fmap. destruct Hl' as [-> | ->]; done.
    - rewrite length_fmap. destruct Hl' as [H|H]; by eapply lookup_lt_Some. }
  change (pl_cbs (locals_of ms)) with ((Some <$> ms.*1) ++ replicate (MAX_SUBS - length ms) None).
  change (pl_ctxs (locals_of ms)) with ((Some <$> ms.*2) ++ replicate (MAX_SUBS - length ms) None).
  assert (H1 : ms.*1 !! k = Some f) by (by rewrite list_lookup_fmap, Hm).
  assert (H2 : ms.*2 !! k = Some a) by (by rewrite list_lookup_fmap, Hm).
  rewrite (Hget ms.*1), (Hget ms.*2), H1, H2 by auto. cbn [mbind option_bind].
  replace (Z.of_nat k + 1) with (Z.of_nat (S k)) by lia. rewrite IH by lia. cbn [mbind option_bind].
  rewrite (drop_S _ _ _ Hm). done.
Qed.

Lemma publish_spec d tp e :
  length d = MAX_SUBS ->
  publish (Some d) tp e
  = Some (0, (fun s : subscription => (s.1.2, e, s.2)) <$> filter (on_topic tp) (subs_of d)).
Proof.
  intros Hd. unfold publish. rewrite <- Hd at 1.
  change (mk_pl (replicate MAX_SUBS None) (replicate MAX_SUBS None) 0) with (locals_of []).
  pose proof (collect_loop_spec [] d 0 tp [] eq_refl ltac:(simpl; lia)) as Hc. simpl app in Hc. rewrite Hc.
  cbn [mbind option_bind].
  assert (Hl : (length (matches tp d) <= MAX_SUBS)%nat).
  { unfold matches. rewrite length_fmap. pose proof (length_filter (fun s => on_topic tp s) (subs_of d)).
    pose proof (subs_of_length d). lia. }
  change (pl_idx (locals_of (matches tp d))) with (Z.of_nat (length (matches tp d))). rewrite Nat2Z.id.
  pose proof (call_loop_spec (matches tp d) e (length (matches tp d)) 0 eq_refl Hl) as Hcall.
  change (Z.of_nat 0) with 0 in Hcall. rewrite Hcall. cbn [mbind option_bind].
  unfold matches. rewrite drop_0, <- list_fmap_compose. done.
Qed.

(** ** Refinement *)

#[export] Instance filter_sub_perm (f : subscription -> bool) :
  Proper ((≡ₚ) ==> (≡ₚ)) (filter (fun s : subscription => Is_true (f s))).
Proof. intros l l' H. by rewrite H. Qed.

Lemma existsb_perm {A} (f : A -> bool) l l' : l ≡ₚ l' -> existsb f l = existsb f l'.
Proof. induction 1; simpl; try congruence. by destruct (f x), (f y). Qed.

(** One operation on a table that holds the bag [l]. *)
Lemma ps_step_refines d l o :
  length d = MAX_SUBS -> subs_of d ≡ₚ l ->
  exists d' a, ps_step (Some d) o = Some (Some d', a) /\ length d' = MAX_SUBS /\
    subs_of d' ≡ₚ (spec_step l o).1 /\ same_ans a (spec_step l o).2.
Proof.
  intros Hd Hl. destruct o as [tp cbk cx|cbk cx|tp e]; unfold ps_step, spec_step.
  - unfold subscribe. destruct ((cx =? 0) || (cbk =? 0)); [by exists d; eexists; split_and!|].
    pose proof (subscribe_loop_spec [] d 0 (mk_sub true tp cbk cx) eq_refl eq_refl) as Hs.
    cbn [app] in Hs. rewrite Hd in Hs. rewrite <- (Permutation_length Hl).
    destruct Hs as [[Hlt (d' & -> & Hd' & Hp)]|[Heq ->]]; cbn [mbind option_bind].
    + rewrite bool_decide_eq_true_2 by done. exists d'. eexists. split_and!; [done|congruence| |done].
      by rewrite Hp, Hl.
    + rewrite bool_decide_eq_false_2 by lia. exists d. eexists. by split_and!.
  - unfold unsubscribe. destruct ((cx =? 0) || (cbk =? 0)); [by exists d; eexists; split_and!|].
    pose proof (unsubscribe_loop_spec [] d 0 cbk cx false eq_refl) as Hu. cbn [app] in Hu.
    rewrite Hd in Hu. rewrite Hu. cbn [mbind option_bind orb]. eexists _, _. split_and!; [done|by rewrite length_fmap| |].
    + rewrite subs_of_drop. by apply filter_sub_perm.
    + split; [|done]. simpl. by rewrite (existsb_perm _ _ _ Hl).
  - rewrite publish_spec by done. cbn [mbind option_bind]. exists d. eexists. split_and!; [done..|].
    split; [done|]. simpl. apply fmap_Permutation. by apply filter_sub_perm.
Qed.

(** C20. thread_safe_pub_sub_dispatcher.c is a bag of subscriptions: from any
    table of 16 slots every sequence of [subscribe], [unsubscribe] and [publish]
    calls (the order of the critical sections of any number of threads) is
    answered as the bag [l] of the table's active subscriptions answers it: a
    17th subscription is refused with [-2], [unsubscribe] removes all
    subscriptions with the callback and context and returns [-2] if there is
    none, and [publish] calls every subscriber of the topic exactly once per
    subscription, with its context, and nobody else, never leaving its arrays. *)
Theorem pub_sub_refines_bag (d : dispatcher) (l : list subscription) (ops : list ps_op) :
  length d = MAX_SUBS -> subs_of d ≡ₚ l ->
  exists d' rs, run_ops ps_step (Some d) ops = Some (Some d', rs) /\
    subs_of d' ≡ₚ (spec_run l ops).1 /\ Forall2 same_ans rs (spec_run l ops).2.
Proof.
  revert d l. induction ops as [|o ops IH]; intros d l Hd Hl; [by exists d, []|]. cbn [run_ops spec_run].
  destruct (ps_step_refines d l o Hd Hl) as (d1 & a & -> & Hd1 & Hl1 & Ha).
  destruct (spec_step l o) as [l1 b]; simpl in Hl1, Ha. destruct (IH d1 l1 Hd1 Hl1) as (d2 & rs & Hr & Hl2 & Hrs).
  cbn [mbind option_bind]. rewrite Hr. cbn [mbind option_bind]. destruct (spec_run l1 ops) as [l2 bs]; simpl in *.
  exists d2, (a :: rs). split_and!; [done|done|by constructor].
Qed.

Definition empty_table : dispatcher := replicate MAX_SUBS (mk_sub false 0 0 0).

Lemma pub_sub_refines_bag_witness :
  let ops := [OSubscribe 1 10 100; OSubscribe 2 11 101; OSubscribe 1 12 102; OPublish 1 7; OUnsubscribe 10 100; OPublish 1 8] in
  length empty_table = MAX_SUBS /\
  exists d' rs, run_ops ps_step (Some empty_table) ops = Some (Some d', rs) /\
    subs_of d' ≡ₚ (spec_run [] ops).1 /\ Forall2 same_ans rs (spec_run [] ops).2.
Proof. intros ops. split; [reflexivity|]. apply (pub_sub_refines_bag empty_table [] ops); reflexivity. Defined.

Example pub_sub_run :
  snd <$> run_ops ps_step (Some empty_table)
    [OSubscribe 1 10 100; OSubscribe 2 11 101; OSubscribe 1 12 102; OPublish 1 7; OUnsubscribe 10 100; OPublish 1 8]
  = Some [(0, []); (0, []); (0, []); (0, [(10, 7, 100); (12, 7, 102)]); (0, []); (0, [(12, 8, 102)])].
Proof. vm_compute. reflexivity. Qed.
