(* ===== verification/StatTable.v ===== *)
(** * thread_safe_stat_table.c

    The table of 32 saturating counters. Every function takes the read-write
    lock around its whole access to the table, so an execution of several threads
    is a sequence of calls. The theorem compares the table with exact sums: a
    counter holds the sum of what was added since the last reset, or
    [UINT64_MAX] when that is more than fits. *)

From S2P Require Import Prelude.

Definition STAT_COUNT : nat := 32.
Definition UINT64_MAX : Z := 2 ^ 64 - 1.

(** [struct stats_table]; a pointer to one is [None] when NULL. *)
Notation stats_table := (list Z).

(** The result and what was stored in [*out]; [out = false] is a NULL pointer. *)
Definition stats_read (t : option stats_table) (idx : Z) (out : bool) : option (Z * option Z) :=
  match t with
  | Some t =>
      if (Z.of_nat STAT_COUNT <=? idx) || negb out then Some (-1, None)
      else v ← t.[idx]; Some (0, Some v)
  | None => Some (-1, None)
  end.

Definition stats_add (t : option stats_table) (idx delta : Z) : option (Z * option stats_table) :=
  match t with
  | Some t =>
      if Z.of_nat STAT_COUNT <=? idx then Some (-1, Some t)
      else
        v ← t.[idx];
        if (UINT64_MAX -u64 v) <? delta
        then t' ← t.[idx <- UINT64_MAX]; Some (0, Some t')
        else t' ← t.[idx <- v +u64 delta]; Some (0, Some t')
  | None => Some (-1, None)
  end.

(** The loops, from index [i] with [n] indices left. *)
Fixpoint snapshot_loop (n : nat) (i : Z) (t : stats_table) (out : list Z) : option (list Z) :=
  match n with
  | O => Some out
  | S n => v ← t.[i]; out' ← out.[i <- v]; snapshot_loop n (i + 1) t out'
  end.

Definition stats_snapshot (t : option stats_table) (out : option (list Z)) (out_count : Z)
  : option (Z * option (list Z)) :=
  match t, out with
  | Some t, Some out =>
      if out_count <? Z.of_nat STAT_COUNT then Some (-1, Some out)
      else out' ← snapshot_loop STAT_COUNT 0 t out; Some (0, Some out')
  | _, _ => Some (-1, out)
  end.

Fixpoint reset_loop (n : nat) (i : Z) (t : stats_table) : option stats_table :=
  match n with
  | O => Some t
  | S n => t' ← t.[i <- 0]; reset_loop n (i + 1) t'
  end.

Definition stats_reset_all (t : option stats_table) : option (Z * option stats_table) :=
  match t with
  | Some t => t' ← reset_loop STAT_COUNT 0 t; Some (0, Some t')
  | None => Some (-1, None)
  end.

(** ** Specification: exact sums *)

Definition saturate (z : Z) : Z := Z.min z UINT64_MAX.

Inductive st_op :=
| SRead (idx : Z)
| SAdd (idx delta : Z)
| SSnapshot (out : list Z)
| SReset.

(** The result, and what the caller's buffer holds. *)
Notation st_ans := (Z * list Z)%type.

Definition st_step (t : option stats_table) (o : st_op) : option (option stats_table * st_ans) :=
  match o with
  | SRead idx => '(r, v) ← stats_read t idx true; Some (t, (r, option_list v))
  | SAdd idx delta => '(r, t) ← stats_add t idx delta; Some (t, (r, []))
  | SSnapshot out => '(r, out) ← stats_snapshot t (Some out) (Z.of_nat (length out)); Some (t, (r, default [] out))
  | SReset => '(r, t) ← stats_reset_all t; Some (t, (r, []))
  end.

(** The sums are kept exactly, and saturate only when they are looked at. *)
Definition spec_st (sums : list Z) (o : st_op) : list Z * st_ans :=
  match o with
  | SRead idx =>
      (sums, match sums !! Z.to_nat idx with Some z => (0, [saturate z]) | None => (-1, []) end)
  | SAdd idx delta =>
      match sums !! Z.to_nat idx with
      | Some z => (<[Z.to_nat idx := z + delta]> sums, (0, []))
      | None => (sums, (-1, []))
      end
  | SSnapshot out =>
      (sums, if bool_decide (length out < STAT_COUNT)%nat then (-1, out)
             else (0, (saturate <$> sums) ++ drop STAT_COUNT out))
  | SReset => (replicate STAT_COUNT 0, (0, []))
  end.

Fixpoint spec_st_run (sums : list Z) (ops : list st_op) : list Z * list st_ans :=
  match ops with
  | [] => (sums, [])
  | o :: ops => let '(sums, a) := spec_st sums o in let '(sums, rs) := spec_st_run sums ops in (sums, a :: rs)
  end.

(** The arguments are values of their C types. *)
Definition st_typed (o : st_op) : Prop :=
  match o with
  | SRead idx => in_u 64 idx
  | SAdd idx delta => in_u 64 idx /\ in_u 64 delta
  | SSnapshot out => in_u 64 (Z.of_nat (length out))
  | SReset => True
  end.

(** ** The loops *)

Lemma reset_loop_spec pre suf i :
  i = Z.of_nat (length pre) ->
  reset_loop (length suf) i (pre ++ suf) = Some (pre ++ replicate (length suf) 0).
Proof.
  revert pre i. induction suf as [|x suf IH]; intros pre i ->; [done|]. cbn [reset_loop length].
  rewrite arr_set_in by (rewrite length_app; simpl; lia). rewrite Nat2Z.id, insert_app_r_alt, Nat.sub_diag by lia.
  cbn [mbind option_bind]. change (<[0%nat := 0]> (x :: suf)) with ([0] ++ suf). rewrite app_assoc, IH.
  - by rewrite <- app_assoc.
  - rewrite length_app. simpl. lia.
Qed.

Lemma snapshot_loop_spec tpre tsuf opre osuf i :
  i = Z.of_nat (length tpre) -> length opre = length tpre -> (length tsuf <= length osuf)%nat ->
  snapshot_loop (length tsuf) i (tpre ++ tsuf) (opre ++ osuf)
  = Some (opre ++ tsuf ++ drop (length tsuf) osuf).
Proof.
  revert tpre opre osuf i. induction tsuf as [|x tsuf IH]; intros tpre opre osuf i -> Ho Hl; [done|].
  destruct osuf as [|y osuf]; [simpl in Hl; lia|]. cbn [snapshot_loop length drop].
  rewrite arr_get_nat, Nat2Z.id, list_lookup_middle by (done || lia). cbn [mbind option_bind].
  rewrite arr_set_in by (rewrite length_app; simpl; lia).
  rewrite Nat2Z.id, insert_app_r_alt by lia. replace (length tpre - length opre)%nat with 0%nat by lia.
  cbn [mbind option_bind]. change (<[0%nat := x]> (y :: osuf)) with ([x] ++ osuf).
  rewrite (app_assoc opre). replace (tpre ++ x :: tsuf) with ((tpre ++ [x]) ++ tsuf) by (by rewrite <- app_assoc).
  rewrite IH.
  - by rewrite <- app_assoc.
  - rewrite length_app. simpl. lia.
  - rewrite !length_app. simpl. lia.
  - simpl in Hl. lia.
Qed.

(** ** Refinement *)

Definition st_repr (t : stats_table) (sums : list Z) : Prop :=
  t = saturate <$> sums /\ length sums = STAT_COUNT /\ Forall (fun z => 0 <= z) sums.

Lemma saturate_range z : 0 <= z -> in_u 64 (saturate z).
Proof. unfold saturate, in_u, UINT64_MAX. lia. Qed.

Lemma stats_add_saturates t sums idx delta z :
  st_repr t sums -> 0 <= idx -> in_u 64 delta -> sums !! Z.to_nat idx = Some z ->
  stats_add (Some t) idx delta = Some (0, Some (<[Z.to_nat idx := saturate (z + delta)]> t)).
Proof.
  intros (-> & Hl & Hnn) Hi Hd Hz. pose proof (lookup_lt_Some _ _ _ Hz) as Hlt.
  pose proof (Forall_lookup_1 _ _ _ _ Hnn Hz) as Hz0. simpl in Hz0. unfold stats_add, STAT_COUNT in *.
  destruct (Z.leb_spec (Z.of_nat 32) idx); [lia|].
  rewrite arr_get_nat, list_lookup_fmap, Hz by lia. cbn [mbind option_bind fmap option_fmap option_map].
  pose proof (saturate_range z Hz0) as Hr. unfold in_u in Hr, Hd.
  rewrite (wrap_small 64 (UINT64_MAX - saturate z)) by (unfold in_u, UINT64_MAX; lia).
  rewrite !arr_set_in by (rewrite length_fmap; lia).
  destruct (Z.ltb_spec (UINT64_MAX - saturate z) delta) as [H1|H1]; cbn [mbind option_bind]; do 4 f_equal.
  - unfold saturate, UINT64_MAX in *. lia.
  - rewrite wrap_small; unfold in_u, saturate, UINT64_MAX in *; lia.
Qed.

Lemma st_step_refines t sums o :
  st_repr t sums -> st_typed o ->
  exists t', st_step (Some t) o = Some (Some t', (spec_st sums o).2) /\ st_repr t' (spec_st sums o).1.
Proof.
  intros Hr Ht. pose proof Hr as (Ht0 & Hl & Hnn). destruct o as [idx|idx delta|out|]; unfold st_step, spec_st.
  - simpl in Ht. unfold stats_read. cbn [negb]. rewrite orb_false_r.
    destruct (Z.leb_spec (Z.of_nat STAT_COUNT) idx).
    + exists t. rewrite (lookup_ge_None_2 sums) by (unfold in_u in Ht; lia). by split.
    + unfold in_u in Ht. destruct (lookup_lt_is_Some_2 sums (Z.to_nat idx)) as [z Hz]; [lia|].
      exists t. rewrite Hz, arr_get_nat, Ht0, list_lookup_fmap, Hz by lia. by rewrite <- Ht0.
  - destruct Ht as [Hi Hd]. unfold in_u in Hi. destruct (sums !! Z.to_nat idx) as [z|] eqn:Hz.
    + rewrite (stats_add_saturates t sums idx delta z) by (done || lia).
      eexists. split; [done|]. cbn [fst]. split_and!; [by rewrite Ht0, list_fmap_insert|by rewrite length_insert|].
      apply Forall_insert; [done|]. pose proof (Forall_lookup_1 _ _ _ _ Hnn Hz). unfold in_u in Hd. simpl in *. lia.
    + apply lookup_ge_None_1 in Hz. unfold stats_add.
      destruct (Z.leb_spec (Z.of_nat STAT_COUNT) idx); [|lia]. exists t. by split.
  - unfold stats_snapshot. exists t. split; [|done].
    destruct (Z.ltb_spec (Z.of_nat (length out)) (Z.of_nat STAT_COUNT)).
    + by rewrite bool_decide_eq_true_2 by lia.
    + rewrite bool_decide_eq_false_2 by lia.
      assert (Hlt : length t = STAT_COUNT) by (by rewrite Ht0, length_fmap).
      pose proof (snapshot_loop_spec [] t [] out 0 eq_refl eq_refl ltac:(lia)) as Hs. simpl app in Hs.
      rewrite Hlt in Hs. rewrite Hs. cbn [mbind option_bind default]. by rewrite Ht0.
  - unfold stats_reset_all. assert (Hlt : length t = STAT_COUNT) by (by rewrite Ht0, length_fmap).
    pose proof (reset_loop_spec [] t 0 eq_refl) as Hs. simpl app in Hs. rewrite Hlt in Hs. rewrite Hs.
    cbn [mbind option_bind]. eexists. split; [done|]. cbn [fst]. split_and!; [by rewrite fmap_replicate|done|].
    by apply Forall_replicate.
Qed.

(** C21. thread_safe_stat_table.c keeps saturating sums: from a table that holds
    the sums [sums], every sequence of calls (the order in which any threads get
    the read-write lock) is answered as by exact, unbounded sums that saturate at
    [UINT64_MAX] when they are read: additions never wrap around, an index out
    of range is refused with [-1] and changes nothing, a snapshot is the whole
    table at one moment and leaves the rest of the caller's buffer alone, a
    buffer that is too short is refused, a reset clears all counters; the code
    never leaves its arrays. *)
Theorem stats_saturating_sums (t : stats_table) (sums : list Z) (ops : list st_op) :
  st_repr t sums -> Forall st_typed ops ->
  exists t', run_ops st_step (Some t) ops = Some (Some t', (spec_st_run sums ops).2) /\
    st_repr t' (spec_st_run sums ops).1.
Proof.
  intros Hr Ht. revert t sums Hr. induction Ht as [|o ops Ho _ IH]; intros t sums Hr; [by exists t|].
  cbn [run_ops spec_st_run]. destruct (st_step_refines t sums o Hr Ho) as (t1 & -> & Hr1).
  destruct (spec_st sums o) as [sums1 a]; simpl in Hr1. destruct (IH t1 sums1 Hr1) as (t2 & Hs & Hr2).
  cbn [mbind option_bind]. rewrite Hs. cbn [mbind option_bind].
  destruct (spec_st_run sums1 ops) as [sums2 rs]; simpl in *. by exists t2.
Qed.

Lemma stats_zero_repr : st_repr (replicate STAT_COUNT 0) (replicate STAT_COUNT 0).
Proof. split_and!; [reflexivity|reflexivity|]. by apply Forall_replicate. Qed.

Lemma stats_saturating_sums_witness :
  let ops := [SAdd 3 5; SAdd 3 (2 ^ 64 - 2); SRead 3; SAdd 40 1; SReset; SRead 3] in
  exists t', run_ops st_step (Some (replicate STAT_COUNT 0)) ops
    = Some (Some t', (spec_st_run (replicate STAT_COUNT 0) ops).2) /\
    st_repr t' (spec_st_run (replicate STAT_COUNT 0) ops).1.
Proof.
  intros ops. apply (stats_saturating_sums (replicate STAT_COUNT 0) (replicate STAT_COUNT 0) ops stats_zero_repr).
  repeat constructor; vm_compute; congruence.
Defined.

Example stats_run :
  snd <$> run_ops st_step (Some (replicate STAT_COUNT 0))
    [SAdd 3 5; SAdd 3 (2 ^ 64 - 2); SRead 3; SAdd 40 1; SReset; SRead 3]
  = Some [(0, []); (0, []); (0, [2 ^ 64 - 1]); (-1, []); (0, []); (0, [0])].
Proof. vm_compute. reflexivity. Qed.
