(* ===== verification/SmallSync.v ===== *)
(** * Three small synchronisation exercises

    - [ResetGuard]: reset_race_state_guard.c, the spinlocked module state;
    - [RwLock]: implement_rdwrlock.c, a read-write lock from a mutex and a
      condition variable (the file has no unlock functions);
    - [Completion]: completion_vs_timeout_race.c, whose [comp_complete] is empty
      and whose [comp_cancel] is only declared. *)

From S2P Require Import Prelude Threads Monitor.

Module ResetGuard.

Inductive module_state := MOD_READY | MOD_ACTIVE | MOD_RESETTING | MOD_FAULTED.

#[export] Instance module_state_eq_dec : EqDecision module_state.
Proof. solve_decision. Defined.

Record module := mk_module { state : module_state; inflight : Z (* uint32_t *) }.

Definition try_submit_command (m : module) : bool * module :=
  if bool_decide (state m = MOD_READY) || bool_decide (state m = MOD_ACTIVE)
  then (true, mk_module (state m) (inflight m +u32 1))
  else (false, m).

(** The branch for the last command of a pending reset is empty. *)
Definition command_completed (m : module) : module := mk_module (state m) (inflight m -u32 1).

Definition begin_reset (m : module) : bool * module :=
  if 0 <? inflight m then (false, mk_module MOD_RESETTING (inflight m)) else (true, m).

Inductive rg_op := Submit | Complete | Reset.

(** The state after a call, and the boolean it returns. *)
Definition rg_step (m : module) (o : rg_op) : module * bool :=
  match o with
  | Submit => let '(b, m) := try_submit_command m in (m, b)
  | Complete => (command_completed m, true)
  | Reset => let '(b, m) := begin_reset m in (m, b)
  end.

Fixpoint rg_run (m : module) (ops : list rg_op) : module * list (rg_op * bool) :=
  match ops with
  | [] => (m, [])
  | o :: ops => let '(m, b) := rg_step m o in let '(m, log) := rg_run m ops in (m, (o, b) :: log)
  end.

(** Accepted commands less completed ones. *)
Definition balance (log : list (rg_op * bool)) : Z :=
  lsum (fun e => match e with (Submit, true) => 1 | (Complete, _) => -1 | _ => 0 end) log.

#[global] Arguments balance : simpl never.

Lemma balance_cons e log : balance (e :: log) = balance [e] + balance log.
Proof. unfold balance. rewrite !lsum_cons. simpl. lia. Qed.

Lemma rg_step_inflight m o :
  inflight (rg_step m o).1 = u32 (inflight m + balance [(o, (rg_step m o).2)]) \/
  (inflight (rg_step m o).1 = inflight m /\ balance [(o, (rg_step m o).2)] = 0).
Proof.
  destruct o; simpl.
  - unfold try_submit_command. destruct (_ || _); simpl; [left; f_equal; unfold balance; simpl; lia|right; done].
  - left. f_equal; unfold balance; simpl; lia.
  - unfold begin_reset. destruct (0 <? inflight m); right; done.
Qed.

(** reset_race_state_guard.c: in every sequence of calls (the order in which
    the spinlock was taken) [inflight] is the number of accepted commands less
    the completed ones, as a [uint32_t]; and once [begin_reset] has found
    commands in flight, and returned false, no command is accepted ever again:
    the module stays in [MOD_RESETTING], also when the last command completes
    (the reset of line 47 is a comment). *)
Theorem reset_guard_counts (m : module) (ops : list rg_op) (Hm : in_u 32 (inflight m)) :
  inflight (rg_run m ops).1 = u32 (inflight m + balance (rg_run m ops).2) /\
  (state m = MOD_RESETTING ->
     state (rg_run m ops).1 = MOD_RESETTING /\ Forall (fun e => e.1 = Submit -> e.2 = false) (rg_run m ops).2).
Proof.
  revert m Hm. induction ops as [|o ops IH]; intros m Hm.
  { simpl. split; [|done]. unfold balance; simpl. rewrite Z.add_0_r. symmetry. by apply wrap_small. }
  cbn [rg_run]. pose proof (rg_step_inflight m o) as Hi. destruct (rg_step m o) as [m1 b] eqn:Hs.
  assert (Hm1 : in_u 32 (inflight m1)).
  { simpl in Hi. destruct Hi as [->|[-> _]]; [apply (wrap_range 32); lia|done]. }
  specialize (IH m1 Hm1). destruct (rg_run m1 ops) as [m2 log]; simpl in *. destruct IH as [IH1 IH2]. split.
  - rewrite IH1, balance_cons. destruct Hi as [Hi|[Hi1 Hi2]].
    + rewrite Hi, wrap_add_l by lia. f_equal. lia.
    + rewrite Hi1, Hi2. done.
  - intros Hst. assert (Hst1 : state m1 = MOD_RESETTING /\ (o = Submit -> b = false)).
    { destruct o; simpl in Hs; unfold try_submit_command, begin_reset, command_completed in Hs; try rewrite Hst in Hs;
        simpl in Hs; [|..|destruct (0 <? inflight m)]; by simplify_eq/=. }
    destruct Hst1 as [Hst1 Hb]. destruct (IH2 Hst1) as [? ?]. split; [done|by constructor].
Qed.

Lemma reset_guard_counts_witness :
  let m := mk_module MOD_RESETTING 2 in
  in_u 32 (inflight m) /\
  inflight (rg_run m [Submit; Complete; Submit; Complete]).1 = 0 /\
  state (rg_run m [Submit; Complete; Submit; Complete]).1 = MOD_RESETTING.
Proof.
  intros m. assert (Hm : in_u 32 (inflight m)) by (vm_compute; split; congruence).
  destruct (reset_guard_counts m [Submit; Complete; Submit; Complete] Hm) as [H1 H2].
  split; [exact Hm|]. split; [exact H1|]. apply H2. reflexivity.
Defined.

(** [begin_reset] with nothing in flight returns true and leaves the module
    ready: the next command is accepted, although the reset has begun. *)
Theorem begin_reset_admits_commands m :
  inflight m = 0 -> state m = MOD_READY \/ state m = MOD_ACTIVE ->
  let '(ok, m1) := begin_reset m in ok = true /\ (try_submit_command m1).1 = true.
Proof.
  intros H0 Hs. unfold begin_reset. rewrite H0. simpl. split; [done|]. unfold try_submit_command.
  by destruct Hs as [-> | ->].
Qed.
End ResetGuard.

Module RwLock.

Record rwlock := mk_rwlock { num_readers : Z (* size_t *); locked : bool }.

(** The one condition variable. *)
Inductive rwl_cv := lock_is_free.

#[export] Instance rwl_cv_eq_dec : EqDecision rwl_cv.
Proof. solve_decision. Defined.

(** [RdLock]: at the start of [pthread_rwlock_rdlock]; [RdLoop]: woken in its
    loop; the boolean: the pointer is not NULL. *)
Inductive rwl_call := RdLock (p : bool) | RdLoop | WrLock (p : bool).

Notation rwl_outcome := (option (outcome rwlock rwl_call Z rwl_cv)).

Definition rdlock_loop (l : rwlock) : rwl_outcome :=
  if locked l then Some (Wait lock_is_free RdLoop)
  else Some (Done (mk_rwlock (num_readers l +u64 1) true) 0 []).

Definition pthread_rwlock_rdlock (l : rwlock) (p : bool) : rwl_outcome :=
  if negb p then Some (Done l (-1) [])
  else if 0 <? num_readers l then Some (Done (mk_rwlock (num_readers l +u64 1) (locked l)) 0 [])
  else rdlock_loop l.

Definition pthread_rwlock_wrlock (l : rwlock) (p : bool) : rwl_outcome :=
  if negb p then Some (Done l (-1) [])
  else if locked l then Some (Wait lock_is_free (WrLock p))
  else Some (Done (mk_rwlock (num_readers l) true) 0 []).

Definition rwl_mcall (l : rwlock) (c : rwl_call) : rwl_outcome :=
  match c with
  | RdLock p => pthread_rwlock_rdlock l p
  | RdLoop => rdlock_loop l
  | WrLock p => pthread_rwlock_wrlock l p
  end.

(** The read and write locks granted. *)
Definition reads (log : list (rwl_call * Z)) : Z :=
  lsum (fun e => match e with (RdLock _, 0) | (RdLoop, 0) => 1 | _ => 0 end) log.
Definition writes (log : list (rwl_call * Z)) : Z :=
  lsum (fun e => match e with (WrLock _, 0) => 1 | _ => 0 end) log.

#[global] Arguments reads : simpl never.
#[global] Arguments writes : simpl never.

(** The state counts the locks granted; a write lock excludes all others. *)
Definition rwl_inv (l : rwlock) (log : list (rwl_call * Z)) : Prop :=
  reads log < 2 ^ 63 ->
  num_readers l = reads log /\ locked l = bool_decide (0 < reads log + writes log) /\
  0 <= reads log /\ 0 <= writes log <= 1 /\ (0 < writes log -> reads log = 0).

Lemma rwl_inv_done l log c l' r ws :
  rwl_inv l log -> rwl_mcall l c = Some (Done l' r ws) -> rwl_inv l' (log ++ [(c, r)]).
Proof.
  intros HI Hc. unfold rwl_inv in *.
  assert (Hr : reads (log ++ [(c, r)]) = reads log + reads [(c, r)]) by apply lsum_app.
  assert (Hw : writes (log ++ [(c, r)]) = writes log + writes [(c, r)]) by apply lsum_app.
  rewrite Hr, Hw. intros Hb.
  assert (H01 : 0 <= reads [(c, r)]).
  { apply lsum_nonneg. intros [[] [| |]]; lia. }
  specialize (HI ltac:(lia)). destruct HI as (Hn & Hl & Hr0 & Hw0 & Hex).
  assert (Hinc : 0 <= reads log -> reads log + 1 < 2 ^ 63 -> (num_readers l +u64 1) = reads log + 1).
  { intros. rewrite Hn. apply wrap_small. unfold in_u. lia. }
  destruct c as [p| |p]; simpl in Hc; unfold pthread_rwlock_rdlock, rdlock_loop, pthread_rwlock_wrlock in Hc.
  - destruct p; simplify_eq/=; [|split_and!; try done; unfold reads, writes in *; simpl in *; rewrite ?Z.add_0_r; try done; lia].
    destruct (Z.ltb_spec 0 (num_readers l)); [|destruct (locked l) eqn:E; [done|]]; simplify_eq/=.
    all: change (reads [(RdLock true, 0)]) with 1 in *; change (writes [(RdLock true, 0)]) with 0.
    all: rewrite Hinc by lia; split_tests; split_and!; try lia; try done.
    all: rewrite Hl; by rewrite bool_decide_eq_true_2 by lia.
  - destruct (locked l) eqn:E; simplify_eq/=.
    change (reads [(RdLoop, 0)]) with 1 in *; change (writes [(RdLoop, 0)]) with 0.
    rewrite Hinc by lia. split_tests; split_and!; try lia; done.
  - destruct p; simplify_eq/=; [|split_and!; try done; unfold reads, writes in *; simpl in *; rewrite ?Z.add_0_r; try done; lia].
    destruct (locked l) eqn:E; simplify_eq/=.
    change (reads [(WrLock true, 0)]) with 0 in *; change (writes [(WrLock true, 0)]) with 1.
    rewrite Hn. split_tests; split_and!; try lia; done.
Qed.

(** The lock of implement_rdwrlock.c excludes: whatever threads call
    [pthread_rwlock_rdlock] and [pthread_rwlock_wrlock] on a free lock, in every
    state of every schedule (spurious wake-ups included) either one write lock
    and no read lock has been granted, or no write lock; [num_readers] is the
    number of read locks granted and [locked] says whether any lock was. There
    being no unlock functions, none of them is ever given back. *)
Theorem rdwrlock_excludes (progs : list (list rwl_call)) k :
  rtc (any_step rwl_mcall) (init (mk_rwlock 0 false) progs) k ->
  reads (mc_log k) < 2 ^ 63 ->
  num_readers (mc_state k) = reads (mc_log k) /\
  locked (mc_state k) = bool_decide (0 < reads (mc_log k) + writes (mc_log k)) /\
  (writes (mc_log k) = 0 \/ (writes (mc_log k) = 1 /\ reads (mc_log k) = 0)).
Proof.
  intros Hr Hb. assert (HI : rwl_inv (mc_state k) (mc_log k)).
  { apply (mon_state_invariant rwl_mcall rwl_inv (init (mk_rwlock 0 false) progs)); [..|done].
    - intros l log c l' c' ws _ Hc. destruct c as [p| |p]; simpl in Hc;
        unfold pthread_rwlock_rdlock, rdlock_loop, pthread_rwlock_wrlock in Hc.
      + destruct p; simpl in Hc; [|done]. destruct (0 <? num_readers l), (locked l); done.
      + by destruct (locked l).
      + destruct p; simpl in Hc; [|done]. by destruct (locked l).
    - intros. by eapply rwl_inv_done.
    - intros _. by split_and!. }
  destruct (HI Hb) as (H1 & H2 & H3 & H4 & H5). split_and!; [done|done|].
  destruct (decide (writes (mc_log k) = 0)); [by left|right]. lia.
Qed.

Definition rwl_demo : list (list rwl_call) := [[RdLock true]; [WrLock true]; [RdLock true]].
Definition rwl_demo_init : mcfg rwlock rwl_call Z rwl_cv := init (mk_rwlock 0 false) rwl_demo.
(** The writer goes to sleep behind two readers. *)
Definition rwl_demo_end := default rwl_demo_init (mon_run rwl_mcall [0; 1; 2]%nat rwl_demo_init).

Lemma rdwrlock_excludes_witness :
  num_readers (mc_state rwl_demo_end) = 2 /\
  (writes (mc_log rwl_demo_end) = 0 \/ (writes (mc_log rwl_demo_end) = 1 /\ reads (mc_log rwl_demo_end) = 0)).
Proof.
  destruct (rdwrlock_excludes rwl_demo rwl_demo_end) as (H1 & _ & H3).
  - apply rtc_mon_any, (mon_run_rtc rwl_mcall [0; 1; 2]%nat). vm_compute. reflexivity.
  - vm_compute. reflexivity.
  - split; [exact H1|exact H3].
Defined.
End RwLock.

Module Completion.

Inductive completion_state := COMP_IDLE | COMP_PENDING | COMP_DONE | COMP_TIMED_OUT | COMP_CANCELED.

#[export] Instance completion_state_eq_dec : EqDecision completion_state.
Proof. solve_decision. Defined.

Record completion := mk_comp {
  comp_state : completion_state;
  generation : Z;           (* uint64_t *)
  comp_mu : bool            (* the mutex was left locked *)
}.

Inductive comp_cv := cv.

#[export] Instance comp_cv_eq_dec : EqDecision comp_cv.
Proof. solve_decision. Defined.

(** [CompLoop]: back in the loop of [comp_wait_timeout] from
    [pthread_cond_timedwait], by a wake-up or by the timeout. *)
Inductive comp_call := CompArm | CompWait (gen : Z) | CompLoop | CompComplete (gen : Z).

(** [None] as a return value: none is returned. *)
Notation comp_outcome := (option (outcome completion comp_call (option Z) comp_cv)).

Definition comp_hold (c : completion) : completion := mk_comp (comp_state c) (generation c) true.

Definition comp_arm (c : completion) : comp_outcome :=
  if comp_mu c then Some Blocked
  else
    let gen := generation c +u64 1 in
    Some (Done (mk_comp COMP_PENDING gen (comp_mu c)) (Some gen) []).

(** From line 67 on. A timeout of the wait does not leave the loop; after the
    loop the state is not [COMP_PENDING], so the test of line 81 fails and the
    function ends with the mutex locked. *)
Definition comp_wait_loop (c : completion) : comp_outcome :=
  if comp_mu c then Some Blocked
  else match comp_state c with
       | COMP_PENDING => Some (Wait cv CompLoop)
       | COMP_DONE => Some (Done c (Some 0) [])
       | COMP_CANCELED => Some (Done c (Some (-3)) [])
       | COMP_IDLE | COMP_TIMED_OUT => Some (Done (comp_hold c) None [])
       end.

Definition comp_wait_timeout (c : completion) (gen : Z) : comp_outcome :=
  if comp_mu c then Some Blocked
  else if negb (generation c =? gen) || negb (bool_decide (comp_state c = COMP_PENDING))
  then Some (Done (comp_hold c) (Some (-1)) [])
  else comp_wait_loop c.

(** The function is empty. *)
Definition comp_complete (c : completion) (gen : Z) : comp_outcome := Some (Done c None []).

Definition comp_mcall (c : completion) (call : comp_call) : comp_outcome :=
  match call with
  | CompArm => comp_arm c
  | CompWait gen => comp_wait_timeout c gen
  | CompLoop => comp_wait_loop c
  | CompComplete gen => comp_complete c gen
  end.

(** A wait that returned said "not pending". *)
Definition wait_failed (e : comp_call * option Z) : Prop :=
  match e with (CompWait _, r) => r = Some (-1) | (CompLoop, _) => False | _ => True end.

(** An armed completion stays pending. *)
Definition comp_inv (c : completion) (log : list (comp_call * option Z)) : Prop :=
  comp_state c = COMP_PENDING /\ Forall wait_failed log.

Lemma comp_inv_done c log call c' r ws :
  comp_inv c log -> comp_mcall c call = Some (Done c' r ws) -> comp_inv c' (log ++ [(call, r)]).
Proof.
  intros [Hs Hl] Hc. destruct call as [|gen| |gen]; simpl in Hc;
    unfold comp_arm, comp_wait_timeout, comp_wait_loop, comp_complete in Hc;
    rewrite ?Hs in Hc; repeat match type of Hc with (if ?b then _ else _) = _ => destruct b end; simplify_eq.
  all: split; [done|]; apply Forall_app; split; [done|]; by repeat constructor.
Qed.

(** Nobody's wait in completion_vs_timeout_race.c ever ends: once a
    completion is armed, whatever threads arm, wait for and complete it, and
    however often waits time out ([spurious]), in every state of every schedule
    the state is still [COMP_PENDING]; the only [comp_wait_timeout] calls that
    have returned are those for another generation, with [-1]: the results [0],
    [-2] (timed out) and [-3] of the header's requirements do not occur. *)
Theorem comp_wait_never_ends (gen : Z) (progs : list (list comp_call)) k :
  rtc (any_step comp_mcall) (init (mk_comp COMP_PENDING gen false) progs) k ->
  comp_state (mc_state k) = COMP_PENDING /\ Forall wait_failed (mc_log k).
Proof.
  intros Hr. apply (mon_state_invariant comp_mcall comp_inv (init (mk_comp COMP_PENDING gen false) progs)); [..|done].
  - intros c log call c' call' ws _ Hc. destruct call as [|g| |g]; simpl in Hc;
      unfold comp_arm, comp_wait_timeout, comp_wait_loop, comp_complete in Hc; try done;
      destruct (comp_mu c); try done; destruct (comp_state c); try done; by destruct (negb (generation c =? g) || _).
  - intros. by eapply comp_inv_done.
  - split; [done|constructor].
Qed.

Definition comp_demo : list (list comp_call) := [[CompWait 4]; [CompComplete 4; CompArm]].
Definition comp_demo_init : mcfg completion comp_call (option Z) comp_cv := init (mk_comp COMP_PENDING 4 false) comp_demo.
Definition comp_demo_end := default comp_demo_init (mon_run comp_mcall [0; 1; 1]%nat comp_demo_init).

Lemma comp_wait_never_ends_witness :
  comp_state (mc_state comp_demo_end) = COMP_PENDING /\ Forall wait_failed (mc_log comp_demo_end).
Proof.
  apply (comp_wait_never_ends 4 comp_demo). apply rtc_mon_any, (mon_run_rtc comp_mcall [0; 1; 1]%nat).
  vm_compute. reflexivity.
Defined.

(** A wait for an old generation returns [-1] with the mutex locked (line 64):
    the next [comp_arm] waits for ever. *)
Theorem stale_wait_keeps_mutex :
  (fun k => (comp_mu (mc_state k), comp_mcall (mc_state k) CompArm)) <$>
    mon_run comp_mcall [0]%nat (init (mk_comp COMP_PENDING 4 false) [[CompWait 3]])
  = Some (true, Some Blocked).
Proof. vm_compute. reflexivity. Qed.
End Completion.
