(* ===== verification/SemPrograms.v ===== *)
(** * Small programs of two threads

    - [ForkJoin]: 31_Semaphores/fork-join.c, a parent that waits for its child
      with a semaphore;
    - [Rendezvous]: 31_Semaphores/rendezvous.c, two children that wait for each
      other;
    - [MainRace]: 27_ThreadAPI/main-race.c, two increments under a mutex;
    - [Blackboard]: practiceQs/blackboard_040226/blackboard.c, a parent process
      that increments a shared integer that the child prints.

    The first three have a fixed number of threads and few states: their
    theorems are proved by exploring all reachable configurations (Threads.v,
    [verify_sound]). In all of them [sleep] is no step: a sleeping thread is one
    that is not scheduled. *)

From Stdlib Require Import Sorted.
From S2P Require Import Prelude Threads.

(** ** fork-join.c *)
Module ForkJoin.

Inductive msg := MBegin | MChild | MEnd.
#[export] Instance msg_eq : EqDecision msg.
Proof. solve_decision. Defined.

(** The semaphore ([None] before [sem_init]), whether the child was created,
    whether main has returned, which ends the process and so the child too, and
    the output. *)
Record shared := Shared { s : option Z; created : bool; exited : bool; out : list msg }.
#[export] Instance shared_eq : EqDecision shared.
Proof. solve_decision. Defined.

Inductive pc :=
  | CPrint | CPost | CDone
  | MPrint | MInit | MCreate | MWait | MEndPrint | MReturn | MDone.
#[export] Instance pc_eq : EqDecision pc.
Proof. solve_decision. Defined.

Definition say (m : msg) (st : shared) : shared := Shared (s st) (created st) (exited st) (out st ++ [m]).
Definition set_s (v : option Z) (st : shared) : shared := Shared v (created st) (exited st) (out st).

Definition child (st : shared) (p : pc) : option (shared * pc) :=
  match p with
  | CPrint => Some (say MChild st, CPost)
  | CPost => v ← s st; Some (set_s (Some (sem_post v)) st, CDone)
  | _ => None
  end.

Definition main (st : shared) (p : pc) : option (shared * pc) :=
  match p with
  | MPrint => Some (say MBegin st, MInit)
  | MInit => Some (set_s (Some 0) st, MCreate)
  | MCreate => Some (Shared (s st) true (exited st) (out st), MWait)
  | MWait => v ← s st; v' ← sem_wait v; Some (set_s (Some v') st, MEndPrint)
  | MEndPrint => Some (say MEnd st, MReturn)
  | MReturn => Some (Shared (s st) (created st) true (out st), MDone)
  | _ => None
  end.

(** The child runs between [pthread_create] and the end of the process. *)
Definition tstep (st : shared) (p : pc) : option (shared * pc) :=
  match p with
  | CPrint | CPost | CDone => if created st && negb (exited st) then child st p else None
  | _ => main st p
  end.

Definition init : shared * list pc := (Shared None false false [], [MPrint; CPrint]).

Definition left_pc (p : pc) : nat :=
  match p with
  | CPrint => 2 | CPost => 1 | CDone => 0
  | MPrint => 6 | MInit => 5 | MCreate => 4 | MWait => 3 | MEndPrint => 2 | MReturn => 1 | MDone => 0
  end.
Definition steps_left (c : shared * list pc) : nat := sum_list_with left_pc c.2.

Definition main_done (c : shared * list pc) : bool := exited c.1.

(** What the program prints, up to any point. *)
Definition script : list msg := [MBegin; MChild; MEnd].

Definition test (c : shared * list pc) : bool :=
  bool_decide (out c.1 = take (length (out c.1)) script) &&
  (negb (exited c.1) || bool_decide (out c.1 = script)).

(** The parent waits for its child: in every execution of fork-join.c the
    output is a prefix of "parent: begin", "child", "parent: end", a schedule
    has at most 8 steps, no reachable state is stuck before main returns, and
    when main has returned all three lines are out, in this order. *)
Theorem fork_join_prints_in_order :
  (forall c, rtc (sys_step tstep) init c ->
     out c.1 = take (length (out c.1)) script /\
     (exited c.1 = true -> out c.1 = script) /\
     (exited c.1 = true \/ exists c', sys_step tstep c c')) /\
  (forall n c, nsteps (sys_step tstep) n init c -> (n <= 8)%nat).
Proof.
  assert (Hv : verify tstep steps_left test main_done 200 init = true) by (vm_compute; reflexivity).
  destruct (verify_sound _ _ _ _ _ _ Hv) as [Hall Hn]. split; [|exact Hn].
  intros c Hc. destruct (Hall c Hc) as [Ht Hf]. unfold test in Ht.
  apply andb_true_iff in Ht as [Ht%bool_decide_eq_true_1 He]. split_and!; [done| |done].
  intros Hx. rewrite Hx in He. by apply bool_decide_eq_true_1 in He.
Qed.
End ForkJoin.

(** ** rendezvous.c *)
Module Rendezvous.

Inductive msg := MBegin | MBefore1 | MBefore2 | MAfter1 | MAfter2 | MEnd.
#[export] Instance msg_eq : EqDecision msg.
Proof. solve_decision. Defined.

(** The semaphores after [sem_init], which threads were created, which have
    returned, and the output. *)
Record shared := Shared {
  s1 : Z; s2 : Z; created1 : bool; created2 : bool; done1 : bool; done2 : bool; out : list msg }.
#[export] Instance shared_eq : EqDecision shared.
Proof. solve_decision. Defined.

Inductive pc :=
  | C1Before | C1Wait | C1Post | C1After | C1Return | C1Done
  | C2Before | C2Post | C2Wait | C2After | C2Return | C2Done
  | MPrint | MInit1 | MInit2 | MCreate1 | MCreate2 | MJoin1 | MJoin2 | MEndPrint | MDone.
#[export] Instance pc_eq : EqDecision pc.
Proof. solve_decision. Defined.

Definition say (m : msg) (st : shared) : shared :=
  Shared (s1 st) (s2 st) (created1 st) (created2 st) (done1 st) (done2 st) (out st ++ [m]).
Definition set_s1 (v : Z) (st : shared) : shared :=
  Shared v (s2 st) (created1 st) (created2 st) (done1 st) (done2 st) (out st).
Definition set_s2 (v : Z) (st : shared) : shared :=
  Shared (s1 st) v (created1 st) (created2 st) (done1 st) (done2 st) (out st).

Definition child_1 (st : shared) (p : pc) : option (shared * pc) :=
  match p with
  | C1Before => Some (say MBefore1 st, C1Wait)
  | C1Wait => v ← sem_wait (s2 st); Some (set_s2 v st, C1Post)
  | C1Post => Some (set_s1 (sem_post (s1 st)) st, C1After)
  | C1After => Some (say MAfter1 st, C1Return)
  | C1Return => Some (Shared (s1 st) (s2 st) (created1 st) (created2 st) true (done2 st) (out st), C1Done)
  | _ => None
  end.

Definition child_2 (st : shared) (p : pc) : option (shared * pc) :=
  match p with
  | C2Before => Some (say MBefore2 st, C2Post)
  | C2Post => Some (set_s2 (sem_post (s2 st)) st, C2Wait)
  | C2Wait => v ← sem_wait (s1 st); Some (set_s1 v st, C2After)
  | C2After => Some (say MAfter2 st, C2Return)
  | C2Return => Some (Shared (s1 st) (s2 st) (created1 st) (created2 st) (done1 st) true (out st), C2Done)
  | _ => None
  end.

Definition main (st : shared) (p : pc) : option (shared * pc) :=
  match p with
  | MPrint => Some (say MBegin st, MInit1)
  | MInit1 => Some (set_s1 0 st, MInit2)
  | MInit2 => Some (set_s2 0 st, MCreate1)
  | MCreate1 => Some (Shared (s1 st) (s2 st) true (created2 st) (done1 st) (done2 st) (out st), MCreate2)
  | MCreate2 => Some (Shared (s1 st) (s2 st) (created1 st) true (done1 st) (done2 st) (out st), MJoin1)
  | MJoin1 => if done1 st then Some (st, MJoin2) else None
  | MJoin2 => if done2 st then Some (st, MEndPrint) else None
  | MEndPrint => Some (say MEnd st, MDone)
  | _ => None
  end.

Definition tstep (st : shared) (p : pc) : option (shared * pc) :=
  match p with
  | C1Before | C1Wait | C1Post | C1After | C1Return | C1Done => if created1 st then child_1 st p else None
  | C2Before | C2Post | C2Wait | C2After | C2Return | C2Done => if created2 st then child_2 st p else None
  | _ => main st p
  end.

(** Static semaphores are zero-initialised. *)
Definition init : shared * list pc :=
  (Shared 0 0 false false false false [], [MPrint; C1Before; C2Before]).

Definition left_pc (p : pc) : nat :=
  match p with
  | C1Before | C2Before => 5 | C1Wait | C2Post => 4 | C1Post | C2Wait => 3 | C1After | C2After => 2
  | C1Return | C2Return => 1 | C1Done | C2Done => 0
  | MPrint => 8 | MInit1 => 7 | MInit2 => 6 | MCreate1 => 5 | MCreate2 => 4 | MJoin1 => 3 | MJoin2 => 2
  | MEndPrint => 1 | MDone => 0
  end.
Definition steps_left (c : shared * list pc) : nat := sum_list_with left_pc c.2.

Definition all_done (c : shared * list pc) : bool := bool_decide (c.2 = [MDone; C1Done; C2Done]).

Definition befores : list msg := [MBefore1; MBefore2].
Definition afters : list msg := [MAfter1; MAfter2].

Definition test (c : shared * list pc) : bool :=
  forallb (fun a => forallb (fun b => prints_first a b (out c.1)) befores) afters.

(** Each child prints its "before" line before either prints its "after" line,
    under every schedule; the program has no deadlock and every schedule stops
    within 18 steps. *)
Theorem rendezvous_before_after :
  (forall c, rtc (sys_step tstep) init c ->
     (forall a b, a ∈ afters -> b ∈ befores -> printed_before a b (out c.1)) /\
     (c.2 = [MDone; C1Done; C2Done] \/ exists c', sys_step tstep c c')) /\
  (forall n c, nsteps (sys_step tstep) n init c -> (n <= 18)%nat).
Proof.
  assert (Hv : verify tstep steps_left test all_done 1000 init = true) by (vm_compute; reflexivity).
  destruct (verify_sound _ _ _ _ _ _ Hv) as [Hall Hn].
  split; [|exact Hn]. intros c Hc. destruct (Hall c Hc) as [Ht Hf]. split.
  - intros a b Ha Hb. unfold test in Ht. rewrite forallb_forall in Ht.
    specialize (Ht a (proj1 (list_elem_of_In _ _) Ha)). rewrite forallb_forall in Ht.
    specialize (Ht b (proj1 (list_elem_of_In _ _) Hb)). apply prints_first_before; [|done].
    unfold afters, befores in Ha, Hb. rewrite !elem_of_cons in Ha, Hb. clear -Ha Hb.
    destruct Ha as [->|[->|[]%not_elem_of_nil]], Hb as [->|[->|[]%not_elem_of_nil]]; done.
  - destruct Hf as [Hf|Hf]; [left|by right]. by apply bool_decide_eq_true_1 in Hf.
Qed.
End Rendezvous.

(** ** main-race.c *)
Module MainRace.

Record shared := Shared { balance : Z; lock : bool; created : bool; returned : bool }.
#[export] Instance shared_eq : EqDecision shared.
Proof. solve_decision. Defined.

(** [balance++] is a load and a store; both threads run the same four
    statements, the worker then returns and main joins it. *)
Inductive pc :=
  | Create | Lock (is_main : bool) | Load (is_main : bool) | Store (is_main : bool) (v : Z)
  | Unlock (is_main : bool) | Return | Join | Done.
#[export] Instance pc_eq : EqDecision pc.
Proof. solve_decision. Defined.

Definition set_lock (b : bool) (st : shared) : shared := Shared (balance st) b (created st) (returned st).

(** The statements "lock; balance++; unlock". *)
Definition increment (st : shared) (p : pc) (next : pc) : option (shared * pc) :=
  match p with
  | Lock m => l ← mutex_lock (lock st); Some (set_lock l st, Load m)
  | Load m => Some (st, Store m (balance st))
  | Store m v => Some (Shared (v + 1) (lock st) (created st) (returned st), Unlock m)
  | Unlock m => Some (set_lock (mutex_unlock (lock st)) st, next)
  | _ => None
  end.

Definition worker (st : shared) (p : pc) : option (shared * pc) :=
  if created st then
    match p with
    | Return => Some (Shared (balance st) (lock st) (created st) true, Done)
    | _ => increment st p Return
    end
  else None.

Definition main (st : shared) (p : pc) : option (shared * pc) :=
  match p with
  | Create => Some (Shared (balance st) (lock st) true (returned st), Lock true)
  | Join => if returned st then Some (st, Done) else None
  | _ => increment st p Join
  end.

Definition tstep (st : shared) (p : pc) : option (shared * pc) :=
  match p with
  | Lock false | Load false | Store false _ | Unlock false | Return => worker st p
  | _ => main st p
  end.

Definition init : shared * list pc := (Shared 0 false false false, [Create; Lock false]).

Definition left_pc (p : pc) : nat :=
  match p with
  | Create => 6 | Lock _ => 5 | Load _ => 4 | Store _ _ => 3 | Unlock _ => 2 | Return | Join => 1 | Done => 0
  end.
Definition steps_left (c : shared * list pc) : nat := sum_list_with left_pc c.2.

Definition touches_balance (p : pc) : bool :=
  match p with Load _ | Store _ _ => true | _ => false end.

Definition both_done (c : shared * list pc) : bool := bool_decide (c.2 = [Done; Done]).

Definition test (c : shared * list pc) : bool :=
  (length (filter (fun p => touches_balance p = true) c.2) <=? 1)%nat &&
  (negb (both_done c) || (balance c.1 =? 2)).

(** No two threads are ever at an access to [balance] (the race the comments
    of main-race.c speak of is removed by its lock), and when both have ended
    the balance is 2; every schedule ends within 11 steps. *)
Theorem main_race_is_locked :
  (forall c, rtc (sys_step tstep) init c ->
     (length (filter (fun p => touches_balance p = true) c.2) <= 1)%nat /\
     (c.2 = [Done; Done] -> balance c.1 = 2) /\
     (c.2 = [Done; Done] \/ exists c', sys_step tstep c c')) /\
  (forall n c, nsteps (sys_step tstep) n init c -> (n <= 11)%nat).
Proof.
  assert (Hv : verify tstep steps_left test both_done 200 init = true) by (vm_compute; reflexivity).
  destruct (verify_sound _ _ _ _ _ _ Hv) as [Hall Hn].
  split; [|exact Hn]. intros c Hc. destruct (Hall c Hc) as [Ht Hf]. unfold test in Ht.
  apply andb_true_iff in Ht as [Ht%Nat.leb_le He]. split_and!; [done| |].
  - intros Hd. unfold both_done in He. rewrite bool_decide_eq_true_2 in He by done. by apply Z.eqb_eq.
  - destruct Hf as [Hf|Hf]; [left|by right]. by apply bool_decide_eq_true_1 in Hf.
Qed.
End MainRace.

(** ** blackboard.c *)
Module Blackboard.

(** The page that parent and child share, [None] when [mmap] failed (its result
    is not checked, so both processes then fault), the lines the child printed,
    the exit code that [waitpid] reports (outer [None] while the child runs,
    inner [None] when a signal killed it), and the code the parent printed. *)
Record shared := Shared {
  board : option Z; out : list Z; status : option (option Z); reported : option Z }.

(** The parent is at [*blackboard += 1] (a load, then a store) for the given
    [i], in [waitpid], at the final print, or done; the child at its print. *)
Inductive proc :=
  | PLoad (i : nat) | PStore (i : nat) (v : Z) | PWait | PReport (st : option Z) | PDone
  | Child (i : nat) | ChildDone
  | Killed.

Section program.
Variable num_seconds : nat.

Definition next_parent (i : nat) : proc := if (i <? num_seconds)%nat then PLoad i else PWait.

Definition parent (sh : shared) (p : proc) : option (shared * proc) :=
  match p with
  | PLoad i => match board sh with Some v => Some (sh, PStore i v) | None => Some (sh, Killed) end
  | PStore i v => Some (Shared (Some (v + 1)) (out sh) (status sh) (reported sh), next_parent (S i))
  | PWait => st ← status sh; Some (sh, PReport st)
  | PReport (Some code) => Some (Shared (board sh) (out sh) (status sh) (Some code), PDone)
  | PReport None => Some (sh, PDone)
  | _ => None
  end.

Definition child (sh : shared) (p : proc) : option (shared * proc) :=
  match p with
  | Child i =>
      if (i <? num_seconds)%nat then
        match board sh with
        | Some v => Some (Shared (board sh) (out sh ++ [v]) (status sh) (reported sh), Child (S i))
        | None => Some (Shared (board sh) (out sh) (Some None) (reported sh), Killed)
        end
      else Some (Shared (board sh) (out sh) (Some (Some 0)) (reported sh), ChildDone)
  | _ => None
  end.

Definition tstep (sh : shared) (p : proc) : option (shared * proc) :=
  match p with
  | Child _ | ChildDone => child sh p
  | _ => parent sh p
  end.

(** main: the mapping, then [fork]. [None] is the "Fork failed" exit. *)
Definition main (page : option Z) (forked : bool) : option (shared * list proc) :=
  if forked then Some (Shared page [] None None, [next_parent 0; Child 0]) else None.

(** ** The invariant of the shared page *)

(** The page holds the number of increments the parent has stored. *)
Definition parent_ok (sh : shared) (p : proc) : Prop :=
  match p with
  | PLoad i => (i < num_seconds)%nat /\ board sh = Some (Z.of_nat i) /\ reported sh = None
  | PStore i v => (i < num_seconds)%nat /\ v = Z.of_nat i /\ board sh = Some v /\ reported sh = None
  | PWait => board sh = Some (Z.of_nat num_seconds) /\ reported sh = None
  | PReport st => board sh = Some (Z.of_nat num_seconds) /\ reported sh = None /\ status sh = Some st
  | PDone => board sh = Some (Z.of_nat num_seconds) /\ reported sh = Some 0 /\ status sh = Some (Some 0)
  | _ => False
  end.

Definition child_ok (sh : shared) (p : proc) : Prop :=
  match p with
  | Child i => length (out sh) = i /\ (i <= num_seconds)%nat /\ status sh = None
  | ChildDone => length (out sh) = num_seconds /\ status sh = Some (Some 0)
  | _ => False
  end.

(** The values printed so far do not decrease and do not exceed the page's. *)
Definition ascending (sh : shared) : Prop :=
  exists v, board sh = Some v /\ Sorted Z.le (out sh) /\ Forall (fun x => 0 <= x <= v) (out sh).

Definition inv (sh : shared) (ls : list proc) : Prop :=
  exists p c, ls = [p; c] /\ parent_ok sh p /\ child_ok sh c /\ ascending sh.

Lemma next_parent_ok sh i :
  board sh = Some (Z.of_nat i) -> (i <= num_seconds)%nat -> reported sh = None -> parent_ok sh (next_parent i).
Proof.
  intros Hb Hi Hr. unfold next_parent. destruct (Nat.ltb_spec i num_seconds); simpl; [done|].
  by replace num_seconds with i by lia.
Qed.

Lemma Sorted_snoc (l : list Z) (v : Z) : Sorted Z.le l -> Forall (fun x => x <= v) l -> Sorted Z.le (l ++ [v]).
Proof.
  induction 1 as [|x l Hs IH Hx]; intros Hf; [repeat constructor|]. inversion_clear Hf as [|? ? Hxv Hl].
  simpl. constructor; [by apply IH|]. destruct Hx; simpl; by constructor.
Qed.

(** Raising the page's value keeps what was printed below it. *)
Lemma ascending_store sh v st r :
  ascending sh -> board sh = Some v -> ascending (Shared (Some (v + 1)) (out sh) st r).
Proof.
  intros (w & Hb & Hs & Hf) Hv. assert (w = v) as -> by congruence. exists (v + 1). split_and!; [done|done|].
  eapply Forall_impl; [exact Hf|]. simpl. lia.
Qed.

Lemma ascending_print sh v st r :
  ascending sh -> board sh = Some v -> 0 <= v -> ascending (Shared (board sh) (out sh ++ [v]) st r).
Proof.
  intros (w & Hb & Hs & Hf) Hv H0. assert (w = v) as -> by congruence. exists v. split_and!; [done| |].
  - apply Sorted_snoc; [done|]. eapply Forall_impl; [exact Hf|]. simpl. lia.
  - apply Forall_app. split; [done|]. constructor; [lia|constructor].
Qed.

Lemma parent_board sh p : parent_ok sh p -> exists v, board sh = Some v /\ 0 <= v.
Proof. destruct p; simpl; try done; intros; destruct_and?; subst; eexists; (split; [eassumption|lia]). Qed.

Lemma parent_step sh p c sh' p' :
  parent_ok sh p -> child_ok sh c -> ascending sh -> parent sh p = Some (sh', p') ->
  parent_ok sh' p' /\ child_ok sh' c /\ ascending sh'.
Proof.
  intros Hp Hc Ha Hs. destruct p as [i|i v| |[code|]| | | |]; simpl in *; try done; destruct_and?.
  - destruct (board sh) eqn:E; simplify_eq. simpl. split_and!; solve [done|congruence].
  - simplify_eq. split_and!; [|by destruct c|by apply ascending_store].
    apply next_parent_ok; simpl; [f_equal; lia|lia|done].
  - destruct (status sh) as [st|] eqn:E; simplify_eq/=. done.
  - simplify_eq/=. destruct c; simpl in *; destruct_and?; try done; simplify_eq.
    split_and!; try done; congruence.
  - destruct c; simpl in *; destruct_and?; solve [done|congruence].
Qed.

Lemma child_step sh p c sh' c' :
  parent_ok sh p -> child_ok sh c -> ascending sh -> child sh c = Some (sh', c') ->
  parent_ok sh' p /\ child_ok sh' c' /\ ascending sh'.
Proof.
  intros Hp Hc Ha Hs. destruct (parent_board sh p Hp) as (v & Hv & H0).
  destruct c as [| | | | |i| |]; simpl in *; try done; destruct Hc as (Hl & Hi & Hst).
  destruct (Nat.ltb_spec i num_seconds).
  - rewrite Hv in Hs. simplify_eq. split_and!; simpl.
    + destruct p; simpl in *; congruence.
    + rewrite length_app. simpl. split_and!; [lia|lia|done].
    + rewrite <- Hv. by apply ascending_print.
  - simplify_eq. split; [|split]; simpl.
    + destruct p; simpl in *; destruct_and?; split_and?; solve [done|congruence].
    + split; [lia|done].
    + destruct Ha as (w & ? & ? & ?). by exists w.
Qed.

Lemma inv_reach sh ls :
  rtc (sys_step tstep) (Shared (Some 0) [] None None, [next_parent 0; Child 0]) (sh, ls) -> inv sh ls.
Proof.
  apply thread_invariant.
  - exists (next_parent 0), (Child 0). split; [done|]. split; [|split].
    + apply next_parent_ok; simpl; [done|lia|done].
    + simpl. split_and!; [done|lia|done].
    + exists 0. simpl. split_and!; constructor.
  - intros i sh0 ls0 l sh1 l1 (p & c & -> & Hp & Hc & Ha) Hi Ht.
    destruct i as [|[|i]]; simplify_eq/=.
    + exists l1, c. split; [done|]. apply (parent_step sh0 l c); try done. by destruct l.
    + exists p, l1. split; [done|]. apply (child_step sh0 p l); try done. by destruct l.
Qed.

(** ** Termination *)

Definition steps_left (p : proc) : nat :=
  match p with
  | PLoad i => 2 * (num_seconds - i) + 4 | PStore i _ => 2 * (num_seconds - i) + 3
  | PWait => 2 | PReport _ => 1 | PDone | Killed | ChildDone => 0
  | Child i => S (num_seconds - i)
  end.

Lemma step_decreases sh p sh' p' : tstep sh p = Some (sh', p') -> (steps_left p' < steps_left p)%nat.
Proof.
  unfold tstep, parent, child, next_parent. intros Hs. destruct p; simplify_eq/=.
  - destruct (board sh); simplify_eq/=; lia.
  - destruct (Nat.ltb_spec (S i) num_seconds); simpl; lia.
  - destruct (status sh); simplify_eq/=. lia.
  - destruct st; simplify_eq/=; lia.
  - destruct (Nat.ltb_spec i num_seconds); [destruct (board sh)|]; simplify_eq/=; lia.
Qed.

Lemma inv_progress sh ls :
  inv sh ls -> ls = [PDone; ChildDone] \/ exists c', sys_step tstep (sh, ls) c'.
Proof.
  intros (p & c & -> & Hp & Hc & Ha). destruct (parent_board sh p Hp) as (v & Hv & _).
  destruct c as [| | | | |i| |]; try done.
  - right. apply (thread_can_step tstep sh _ 1 (Child i)); [done|]. simpl.
    destruct (i <? num_seconds)%nat; [rewrite Hv|]; by eexists.
  - destruct p as [| | |[code|]| | | |]; try done; try (by left); right;
      eapply (thread_can_step tstep sh _ 0); try reflexivity; simpl; rewrite ?Hv; try by eexists.
    destruct Hc as [_ ->]. by eexists.
Qed.
End program.

(** The source's constant. *)
Definition seconds : nat := 5.

(** blackboard.c on a mapped, zero-filled page and a fork that succeeds, under
    every schedule of the two processes and for every number of seconds: the
    child's lines never decrease and never exceed the page's value; every
    schedule ends, within [3n + 5] steps, and none is stuck before both
    processes are done; then the page holds [n], the child has printed [n]
    lines and the parent has reported its exit code 0. *)
Theorem blackboard_counts n c0 :
  main n (Some 0) true = Some c0 ->
  (forall sh ls, rtc (sys_step (tstep n)) c0 (sh, ls) ->
     ascending sh /\
     (ls = [PDone; ChildDone] ->
        board sh = Some (Z.of_nat n) /\ length (out sh) = n /\ reported sh = Some 0) /\
     (ls = [PDone; ChildDone] \/ exists c', sys_step (tstep n) (sh, ls) c')) /\
  (forall k c, nsteps (sys_step (tstep n)) k c0 c -> (k <= 3 * n + 5)%nat).
Proof.
  unfold main. intros ?; simplify_eq. split.
  - intros sh ls Hr. pose proof (inv_reach n sh ls Hr) as Hinv. split_and!.
    + by destruct Hinv as (p & c & _ & _ & _ & ?).
    + intros ->. destruct Hinv as (p & c & ? & Hp & Hc & _). simplify_eq/=. naive_solver.
    + by apply (inv_progress n sh ls).
  - intros k c Hk. pose proof (measure_bounds_runs (tstep n) (fun _ => True) (steps_left n) k _ c
      ltac:(done) ltac:(intros; by eapply step_decreases) I Hk) as Hm.
    pose proof (lsum_nonneg (fun p => Z.of_nat (steps_left n p)) c.2 ltac:(intros; simpl; lia)).
    simpl in Hm. unfold next_parent in Hm. destruct (Nat.ltb_spec 0 n); simpl in Hm; lia.
Qed.

Lemma blackboard_counts_witness :
  exists c0, main seconds (Some 0) true = Some c0 /\
    forall k c, nsteps (sys_step (tstep seconds)) k c0 c -> (k <= 20)%nat.
Proof.
  eexists. split; [reflexivity|]. intros k c Hk.
  exact (proj2 (blackboard_counts seconds _ eq_refl) k c Hk).
Defined.

(** A mapping that failed is not noticed: the first access kills the process. *)
Theorem blackboard_unchecked_mmap :
  run_sched (tstep seconds) [1; 0]%nat
    (Shared None [] None None, [next_parent seconds 0; Child 0]) =
  Some (Shared None [] (Some None) None, [Killed; Killed]).
Proof. reflexivity. Qed.
End Blackboard.
