(* ===== verification/FilePrograms.v ===== *)
(** * Programs on files, pipes and descriptors

    - [Libc]: the C strings, [strtol] and [atoi] the programs use;
    - [Tail]: 39_FilesAndDirectories/mytail.c, the last lines of a file;
    - [Patcher]: practiceQs/patcher_040126/patcher.c, one byte of a file;
    - [EventLoop]: 33_EventBasedConcurrency/event_loop.c, keyboard and timer
      events from [poll];
    - [ForkPipe]: 5_processAPI/fork_test.c, a message through a pipe.

    A regular file is the list of its bytes; the files are not written by
    others while a program runs. *)

From S2P Require Import Prelude Threads.

(** A run of a program: its result, undefined behaviour, or not enough fuel. *)
Inductive outcome (A : Type) := Ret (a : A) | Undef | NoFuel.
Arguments Ret {A} _.
Arguments Undef {A}.
Arguments NoFuel {A}.

(** ** The C library *)
Module Libc.

Definition LONG_MAX : Z := 2 ^ 63 - 1.
Definition LONG_MIN : Z := - 2 ^ 63.
Definition INT_MAX : Z := 2 ^ 31 - 1.
Definition INT_MIN : Z := - 2 ^ 31.

(** The characters [%s] prints of an array: up to its first NUL; [None] when
    there is none and the read leaves the array. *)
Fixpoint c_string (buf : list Z) : option (list Z) :=
  match buf with
  | [] => None
  | c :: buf => if c =? 0 then Some [] else s ← c_string buf; Some (c :: s)
  end.

Definition isspace (c : Z) : bool := (c =? 32) || (9 <=? c) && (c <=? 13).
Definition isdigit (c : Z) : bool := (48 <=? c) && (c <=? 57).

Fixpoint prefix_while (p : Z -> bool) (s : list Z) : list Z :=
  match s with
  | c :: s => if p c then c :: prefix_while p s else []
  | [] => []
  end.

(** The number a string of digits denotes. *)
Definition num (ds : list Z) : Z := foldl (fun v c => v * 10 + (c - 48)) 0 ds.

(** [strtol] in base 10 on a string given without its NUL: the value, the index
    of [endptr], and whether [errno] is set to ERANGE. *)
Definition strtol (s : list Z) : Z * nat * bool :=
  let sp := length (prefix_while isspace s) in
  let '(sgn, sl) := match drop sp s with 45 :: _ => (-1, 1%nat) | 43 :: _ => (1, 1%nat) | _ => (1, 0%nat) end in
  let ds := prefix_while isdigit (drop (sp + sl) s) in
  if bool_decide (ds = []) then (0, 0%nat, false)
  else
    let v := sgn * num ds in
    let e := (sp + sl + length ds)%nat in
    if LONG_MAX <? v then (LONG_MAX, e, true) else if v <? LONG_MIN then (LONG_MIN, e, true) else (v, e, false).

(** [atoi]: undefined when the value is not an [int]. *)
Definition atoi (s : list Z) : option Z :=
  let '(v, _, range) := strtol s in
  if negb range && (INT_MIN <=? v) && (v <=? INT_MAX) then Some v else None.

Lemma c_string_app s rest : Forall (fun c => c <> 0) s -> c_string (s ++ 0 :: rest) = Some s.
Proof.
  induction 1 as [|c s Hc Hs IH]; [done|]. simpl. by rewrite (proj2 (Z.eqb_neq c 0) Hc), IH.
Qed.

Lemma c_string_none s : Forall (fun c => c <> 0) s -> c_string s = None.
Proof. induction 1 as [|c s Hc Hs IH]; [done|]. simpl. by rewrite (proj2 (Z.eqb_neq c 0) Hc), IH. Qed.

(** A string with a NUL is printed up to it. *)
Lemma c_string_nul s rest : c_string (s ++ 0 :: rest) = Some (prefix_while (fun c => negb (c =? 0)) s).
Proof. induction s as [|c s IH]; [done|]. simpl. destruct (c =? 0); [done|]. simpl. by rewrite IH. Qed.

Lemma prefix_while_all p s : Forall (fun c => p c = true) s -> prefix_while p s = s.
Proof. induction 1 as [|c s Hc _ IH]; [done|]. simpl. by rewrite Hc, IH. Qed.

Lemma isdigit_range c : isdigit c = true -> 48 <= c <= 57.
Proof. unfold isdigit. lia. Qed.

Lemma foldl_num_ge ds v :
  Forall (fun c => isdigit c = true) ds -> 0 <= v -> 0 <= foldl (fun v c => v * 10 + (c - 48)) v ds.
Proof.
  intros H. revert v. induction H as [|c ds Hc _ IH]; intros v Hv; simpl; [done|].
  apply IH. apply isdigit_range in Hc. lia.
Qed.

Lemma num_nonneg ds : Forall (fun c => isdigit c = true) ds -> 0 <= num ds.
Proof. intros. by apply foldl_num_ge. Qed.

(** On a numeral that fits a [long], [strtol] returns its value and stops at
    its end. *)
Lemma strtol_numeral ds :
  ds <> [] -> Forall (fun c => isdigit c = true) ds -> num ds <= LONG_MAX ->
  strtol ds = (num ds, length ds, false).
Proof.
  intros Hne Hd Hm. pose proof (num_nonneg ds Hd) as H0. unfold strtol.
  destruct ds as [|c ds]; [done|]. pose proof Hd as Hd'. inversion_clear Hd' as [|? ? Hc Hds].
  apply isdigit_range in Hc.
  assert (Hsp : prefix_while isspace (c :: ds) = []).
  { simpl. unfold isspace. destruct (Z.eqb_spec c 32), (Z.leb_spec 9 c), (Z.leb_spec c 13); simpl; try done; lia. }
  rewrite Hsp. cbn [length drop Nat.add].
  assert (Hs : (match c :: ds with 45 :: _ => (-1, 1%nat) | 43 :: _ => (1, 1%nat) | _ => (1, 0%nat) end) = (1, 0%nat)).
  { destruct c as [|q|q]; try done. do 6 (destruct q as [q|q|]; try done); lia. }
  rewrite Hs. cbn [drop Nat.add]. rewrite prefix_while_all by done.
  rewrite bool_decide_eq_false_2 by done. rewrite Z.mul_1_l.
  destruct (Z.ltb_spec LONG_MAX (num (c :: ds))); [lia|].
  destruct (Z.ltb_spec (num (c :: ds)) LONG_MIN); [unfold LONG_MIN in *; lia|done].
Qed.

Lemma atoi_numeral ds :
  ds <> [] -> Forall (fun c => isdigit c = true) ds -> num ds <= INT_MAX -> atoi ds = Some (num ds).
Proof.
  intros Hne Hd Hm. pose proof (num_nonneg ds Hd) as H0. unfold atoi.
  rewrite strtol_numeral by (done || unfold LONG_MAX, INT_MAX in *; lia). cbn [negb andb].
  destruct (Z.leb_spec INT_MIN (num ds)); [|unfold INT_MIN in *; lia].
  by destruct (Z.leb_spec (num ds) INT_MAX); [|lia].
Qed.
End Libc.
Import Libc.

(** ** mytail.c *)
Module Tail.

Definition BUF : nat := Z.to_nat 4096.
Definition NEWLINE : Z := 10.

(** [read] at position [pos] of an open file. *)
Definition read_at (f : list Z) (pos n : nat) : list Z := take n (drop pos f).

(** [read(fd, buffer, n)]: the bytes replace the front of the buffer. *)
Definition fill (buffer data : list Z) : list Z := data ++ drop (length data) buffer.

(** The backward scan, [for (int i = bytes_read; i >= 0; i--)], from [i = n-1]:
    the lines found and, if it broke out, the index it stopped at. *)
Fixpoint scan (n : nat) (buffer : list Z) (num_lines lines_found : Z) : option (Z * option nat) :=
  match n with
  | O => Some (lines_found, None)
  | S i =>
      c ← buffer !! i;
      let lines_found := if c =? NEWLINE then lines_found + 1 else lines_found in
      if lines_found =? num_lines then Some (lines_found, Some i) else scan i buffer num_lines lines_found
  end.

(** The search for [tail_start_pos]; every pass moves [curr_pos] back. *)
Fixpoint find_start (fuel : nat) (f : list Z) (file_size num_lines : Z)
    (lines_found curr_pos tail_start_pos : Z) (buffer : list Z) : outcome Z :=
  match fuel with
  | O => NoFuel
  | S fuel =>
      if (lines_found <? num_lines) && (0 <? curr_pos) then
        let read_size := if file_size <? Z.of_nat BUF then file_size else Z.of_nat BUF in
        let curr_pos := curr_pos - read_size in
        let data := read_at f (length f - Z.to_nat read_size) (Z.to_nat read_size) in
        let buffer := fill buffer data in
        match scan (S (length data)) buffer num_lines lines_found with
        | None => Undef
        | Some (lines_found, brk) =>
            let tail_start_pos := match brk with Some i => curr_pos + Z.of_nat i + 1 | None => tail_start_pos end in
            find_start fuel f file_size num_lines lines_found curr_pos tail_start_pos buffer
        end
      else Ret tail_start_pos
  end.

(** The copy to the standard output. *)
Fixpoint print_from (fuel : nat) (f : list Z) (pos : nat) (stdout : list Z) : outcome (list Z) :=
  match fuel with
  | O => NoFuel
  | S fuel =>
      let data := read_at f pos BUF in
      if bool_decide (data = []) then Ret stdout
      else print_from fuel f (pos + length data) (stdout ++ data)
  end.

(** main, on its arguments after argv[0] and the file that argv[2] names ([None]
    when it cannot be opened: [stat] then leaves the size 0, and [lseek] and
    [read] fail). The result is the exit code and the output. *)
Definition main (fuel : nat) (args : list (list Z)) (file : option (list Z)) : outcome (Z * list Z) :=
  match args with
  | [] | [_] => Ret (1, [])
  | [] :: _ => Undef
  | (_ :: arg) :: _ =>
      match atoi arg with
      | None => Undef
      | Some n =>
          if n =? INT_MAX then Undef
          else
            match file with
            | None => Ret (0, [])
            | Some f =>
                let file_size := swrap 32 (Z.of_nat (length f)) in
                match find_start fuel f file_size (n + 1) 0 file_size 0 (repeat 0 BUF) with
                | Ret pos =>
                    match print_from fuel f (Z.to_nat pos) [] with
                    | Ret stdout => Ret (0, stdout)
                    | Undef => Undef
                    | NoFuel => NoFuel
                    end
                | Undef => Undef
                | NoFuel => NoFuel
                end
            end
      end
  end.

Lemma BUF_val : Z.of_nat BUF = 4096.
Proof. unfold BUF. lia. Qed.
#[global] Opaque BUF.

(** ** The scan *)

Definition newlines (s : list Z) : Z := lsum (ind (fun c => c =? NEWLINE)) s.

Lemma newlines_app s t : newlines (s ++ t) = newlines s + newlines t.
Proof. apply lsum_app. Qed.

Lemma newlines_nonneg s : 0 <= newlines s.
Proof. apply lsum_nonneg. auto with carr. Qed.

(** The scan passes over a suffix with too few newlines. *)
Lemma scan_skip pre suf rest num_lines found :
  found + newlines suf < num_lines ->
  scan (length pre + length suf) (pre ++ suf ++ rest) num_lines found =
  scan (length pre) (pre ++ suf ++ rest) num_lines (found + newlines suf).
Proof.
  revert rest found. induction suf as [|c suf IH] using rev_ind; intros rest found Hlt.
  - replace (length pre + length (@nil Z))%nat with (length pre) by (simpl; lia).
    replace (found + newlines []) with found by (unfold newlines; simpl; lia). done.
  - rewrite length_app. replace (length pre + (length suf + length [c]))%nat with (S (length pre + length suf)) by (simpl; lia).
    rewrite newlines_app in *. pose proof (newlines_nonneg suf).
    assert (Hc : newlines [c] = if c =? NEWLINE then 1 else 0).
    { unfold newlines, ind; simpl. destruct (c =? NEWLINE); lia. }
    cbn [scan]. assert (Hl : (pre ++ (suf ++ [c]) ++ rest) !! (length pre + length suf)%nat = Some c).
    { rewrite lookup_app_r by lia. rewrite lookup_app_l by (rewrite length_app; simpl; lia).
      replace (length pre + length suf - length pre)%nat with (length suf) by lia. by apply list_lookup_middle. }
    rewrite Hl. cbn [mbind option_bind]. set (found' := if c =? NEWLINE then found + 1 else found).
    assert (Hf : found' = found + newlines [c]) by (unfold found'; rewrite Hc; destruct (c =? NEWLINE); lia).
    destruct (Z.eqb_spec found' num_lines); [lia|].
    rewrite <- app_assoc. rewrite IH by lia. f_equal. lia.
Qed.

(** It stops at the newline that completes the count. *)
Lemma scan_stop pre suf rest num_lines found :
  found + newlines suf + 1 = num_lines ->
  scan (length (pre ++ [NEWLINE]) + length suf) ((pre ++ [NEWLINE]) ++ suf ++ rest) num_lines found =
  Some (num_lines, Some (length pre)).
Proof.
  intros Hn. rewrite scan_skip by lia. rewrite length_app. simpl (length [_]).
  rewrite Nat.add_1_r. cbn [scan]. rewrite <- app_assoc.
  rewrite (list_lookup_middle pre ([] ++ suf ++ rest) NEWLINE) by done. cbn [mbind option_bind].
  rewrite Z.eqb_refl. by destruct (Z.eqb_spec (found + newlines suf + 1) num_lines) as [->|]; [|lia].
Qed.

(** ** The copy *)

Lemma print_from_all fuel f pos stdout :
  (length f - pos < fuel)%nat -> print_from fuel f pos stdout = Ret (stdout ++ drop pos f).
Proof.
  revert pos stdout. induction fuel as [|fuel IH]; intros pos stdout Hf; [lia|]. cbn [print_from]. unfold read_at.
  case_bool_decide as Hd.
  - destruct (decide (length f <= pos)%nat) as [Hl|Hl].
    + rewrite drop_ge by done. by rewrite app_nil_r.
    + apply (f_equal length) in Hd. rewrite length_take, length_drop in Hd. cbn [length] in Hd. pose proof BUF_val. lia.
  - assert (0 < length (take BUF (drop pos f)))%nat by (destruct (take BUF (drop pos f)); simpl; [done|lia]).
    assert (length (take BUF (drop pos f)) <= length f - pos)%nat by (rewrite length_take, length_drop; lia).
    rewrite IH by lia. rewrite <- app_assoc. do 2 f_equal. rewrite <- drop_drop.
    rewrite length_take. destruct (Nat.le_ge_cases BUF (length (drop pos f))) as [Hl|Hl].
    + rewrite Nat.min_l by done. apply take_drop.
    + rewrite Nat.min_r by done. rewrite take_ge by done. by rewrite drop_all, app_nil_r.
Qed.

(** ** Files of lines *)

Definition unlines (ls : list (list Z)) : list Z := concat (map (fun l => l ++ [NEWLINE]) ls).

Lemma unlines_app ls ls' : unlines (ls ++ ls') = unlines ls ++ unlines ls'.
Proof. unfold unlines. by rewrite map_app, concat_app. Qed.

Lemma newlines_none l : Forall (fun c => c <> NEWLINE) l -> newlines l = 0.
Proof.
  induction 1 as [|c l Hc _ IH]; [done|]. unfold newlines, ind in *. simpl.
  rewrite IH. by rewrite (proj2 (Z.eqb_neq _ _) Hc).
Qed.

Lemma newlines_unlines ls :
  Forall (Forall (fun c => c <> NEWLINE)) ls -> newlines (unlines ls) = Z.of_nat (length ls).
Proof.
  induction 1 as [|l ls Hl _ IH]; [done|]. change (unlines (l :: ls)) with ((l ++ [NEWLINE]) ++ unlines ls).
  rewrite !newlines_app, IH, newlines_none by done. change (newlines [NEWLINE]) with 1. cbn [length]. lia.
Qed.

(** The position the search returns on a file that fits the buffer, for each of
    its two exits. *)
Lemma find_start_small f num_lines fuel r :
  Z.of_nat (length f) < 4096 -> 0 < num_lines -> (2 <= fuel)%nat -> f <> [] ->
  scan (S (length f)) (f ++ drop (length f) (repeat 0 BUF)) num_lines 0 = Some r ->
  find_start fuel f (Z.of_nat (length f)) num_lines 0 (Z.of_nat (length f)) 0 (repeat 0 BUF) =
  Ret (match r.2 with Some i => Z.of_nat i + 1 | None => 0 end).
Proof.
  intros Hlen Hn Hfuel Hne Hs. destruct fuel as [|[|fuel]]; [lia|lia|].
  assert (0 < length f)%nat by (destruct f; simpl; [done|lia]).
  cbn [find_start]. rewrite BUF_val.
  destruct (Z.ltb_spec 0 num_lines); [|lia]. destruct (Z.ltb_spec 0 (Z.of_nat (length f))); [|lia].
  cbn [andb]. destruct (Z.ltb_spec (Z.of_nat (length f)) 4096); [|lia].
  rewrite Nat2Z.id, Nat.sub_diag, Z.sub_diag. unfold read_at, fill. rewrite drop_0, take_ge by done.
  rewrite Hs. destruct r as [found brk]. rewrite andb_false_r. by destruct brk.
Qed.

(** The first byte the scan looks at is the NUL after the file's bytes. *)
Lemma buffer_small (f : list Z) :
  Z.of_nat (length f) < 4096 -> exists rest, drop (length f) (repeat 0 BUF) = [0] ++ rest.
Proof.
  intros Hl. pose proof BUF_val as HB. assert (Hk : exists k, BUF = (length f + (1 + k))%nat).
  { exists (BUF - length f - 1)%nat. lia. }
  destruct Hk as [k ->]. exists (repeat 0 k).
  rewrite repeat_app, drop_app_length' by (by rewrite repeat_length). done.
Qed.

(** Where the search stops on lines [ls] and an unterminated rest [l]. *)
Lemma find_start_lines fuel n ls l :
  Forall (Forall (fun c => c <> NEWLINE)) ls -> Forall (fun c => c <> NEWLINE) l ->
  Z.of_nat (length (unlines ls ++ l)) < 4096 -> (2 <= fuel)%nat ->
  let f := unlines ls ++ l in
  find_start fuel f (Z.of_nat (length f)) (Z.of_nat n + 1) 0 (Z.of_nat (length f)) 0 (repeat 0 BUF) =
  Ret (Z.of_nat (length (unlines (take (length ls - n) ls)))).
Proof.
  intros Hls Hl Hlen Hfuel f. destruct (decide (f = [])) as [Hnil|Hne].
  { destruct fuel as [|fuel]; [lia|]. rewrite Hnil. cbn [find_start length]. change (Z.of_nat 0) with 0.
    rewrite Z.ltb_irrefl, andb_false_r. unfold f in Hnil. apply app_eq_nil in Hnil as [Hu ->].
    destruct ls as [|a ls]; [done|]. apply (f_equal length) in Hu. unfold unlines in Hu. simpl in Hu.
    rewrite !length_app in Hu. simpl in Hu. lia. }
  destruct (buffer_small f Hlen) as [rest Hb].
  pose proof (take_drop (length ls - n) ls) as Hsplit.
  set (L1 := take (length ls - n) ls) in *. set (L2 := drop (length ls - n) ls) in *.
  assert (H2 : newlines (unlines L2 ++ l ++ [0]) = Z.of_nat (length L2)).
  { rewrite !newlines_app, newlines_unlines, newlines_none by (done || by apply Forall_drop).
    change (newlines [0]) with 0. lia. }
  assert (Hlen2 : length L2 = (length ls - (length ls - n))%nat) by (unfold L2; by rewrite length_drop).
  assert (Hf : f = unlines L1 ++ unlines L2 ++ l) by (unfold f; by rewrite <- Hsplit at 1; rewrite unlines_app, <- app_assoc).
  assert (Hbuf : forall pre, unlines L1 = pre -> f ++ [0] ++ rest = pre ++ (unlines L2 ++ l ++ [0]) ++ rest).
  { intros pre <-. by rewrite Hf, <- !app_assoc. }
  assert (Hlf : S (length f) = (length (unlines L1) + length (unlines L2 ++ l ++ [0%Z]))%nat).
  { rewrite Hf, !length_app. simpl. lia. }
  clearbody L1 L2. destruct L1 as [|l1 L1' _] using rev_ind.
  - rewrite (find_start_small f _ fuel (0 + newlines (unlines L2 ++ l ++ [0]), None)); [done|done|lia|done|done|].
    rewrite Hb, Hlf, (Hbuf [] eq_refl). change (unlines []) with (@nil Z). rewrite scan_skip; [done|].
    rewrite H2. apply (f_equal length) in Hsplit. rewrite length_app in Hsplit. cbn [length] in Hsplit. lia.
  - assert (HL1 : unlines (L1' ++ [l1]) = (unlines L1' ++ l1) ++ [NEWLINE]).
    { rewrite unlines_app. unfold unlines at 2. simpl. by rewrite app_nil_r, app_assoc. }
    assert (Hn : (n < length ls)%nat).
    { apply (f_equal length) in Hsplit. rewrite !length_app in Hsplit. cbn [length] in Hsplit. lia. }
    rewrite (find_start_small f _ fuel (Z.of_nat n + 1, Some (length (unlines L1' ++ l1)))); [|done|lia|done|done|].
    + cbn [snd]. rewrite HL1, (length_app _ [NEWLINE]). f_equal. simpl (length [NEWLINE]). lia.
    + rewrite Hb, Hlf, (Hbuf _ HL1), HL1. rewrite scan_stop; [done|]. rewrite H2, Hlen2. lia.
Qed.

(** C34. On a file of fewer than 4096 bytes, made of newline-terminated lines and a
    possibly empty unterminated rest, [mytail -N file] exits with 0 after
    printing the last [N] lines and the rest. On a file that ends in a newline
    this is what "tail -N" prints. *)
Theorem tail_prints_last_lines fuel ds name ls l :
  ds <> [] -> Forall (fun c => isdigit c = true) ds -> num ds < INT_MAX ->
  Forall (Forall (fun c => c <> NEWLINE)) ls -> Forall (fun c => c <> NEWLINE) l ->
  Z.of_nat (length (unlines ls ++ l)) < 4096 -> (length (unlines ls ++ l) + 2 <= fuel)%nat ->
  main fuel [45 :: ds; name] (Some (unlines ls ++ l)) =
  Ret (0, unlines (drop (length ls - Z.to_nat (num ds)) ls) ++ l).
Proof.
  intros Hne Hd Hmax Hls Hl Hlen Hfuel. pose proof (num_nonneg ds Hd) as H0.
  cbn [main]. rewrite atoi_numeral by (done || lia). destruct (Z.eqb_spec (num ds) INT_MAX); [lia|].
  cbv zeta. rewrite swrap_small by (done || unfold in_s; lia). rewrite <- (Z2Nat.id (num ds)) at 1 by done.
  rewrite find_start_lines by (done || lia). rewrite Nat2Z.id, print_from_all by lia. do 2 f_equal.
  set (k := (length ls - Z.to_nat (num ds))%nat).
  assert (Hk : unlines ls = unlines (take k ls) ++ unlines (drop k ls)) by (by rewrite <- unlines_app, take_drop).
  rewrite Hk at 1. by rewrite <- app_assoc, drop_app_length.
Qed.

Lemma tail_prints_last_lines_witness :
  main 20 [[45; 50]; []] (Some ([97; 10; 98; 10; 99; 10])) = Ret (0, [98; 10; 99; 10]).
Proof.
  refine (tail_prints_last_lines 20 [50] [] [[97]; [98]; [99]] [] _ _ _ _ _ _ _);
    first [done | repeat constructor; done | vm_compute; lia | simpl; lia].
Defined.

(** A file of 4096 bytes or more: the scan starts at [i = bytes_read = 4096],
    one past the buffer. *)
Theorem tail_large_file_undefined fuel arg name a f :
  atoi arg = Some a -> 0 <= a < INT_MAX -> 4096 <= Z.of_nat (length f) < 2 ^ 31 -> (0 < fuel)%nat ->
  forall dash, main fuel [dash :: arg; name] (Some f) = Undef.
Proof.
  intros Ha Hn Hlen Hfuel dash. cbn [main]. rewrite Ha. destruct (Z.eqb_spec a INT_MAX); [lia|].
  cbv zeta. rewrite swrap_small by (done || unfold in_s; lia). destruct fuel as [|fuel]; [lia|]. cbn [find_start]. rewrite BUF_val.
  destruct (Z.ltb_spec 0 (a + 1)); [|lia]. destruct (Z.ltb_spec 0 (Z.of_nat (length f))); [|lia].
  cbn [andb]. destruct (Z.ltb_spec (Z.of_nat (length f)) 4096); [lia|].
  replace (Z.to_nat 4096) with BUF by (pose proof BUF_val; lia). set (data := read_at f (length f - BUF) BUF).
  assert (Hd : length data = BUF).
  { unfold data, read_at. rewrite length_take, length_drop. pose proof BUF_val. lia. }
  rewrite Hd. cbn [scan]. rewrite lookup_ge_None_2; [done|].
  unfold fill. rewrite length_app, length_drop, repeat_length. lia.
Qed.

Lemma tail_large_file_undefined_witness :
  main 1 [[45; 50]; []] (Some (repeat 97 (Z.to_nat 5000))) = Undef.
Proof.
  apply (tail_large_file_undefined 1 [50] [] 2); [done|vm_compute; split; [discriminate|reflexivity]| |lia].
  rewrite repeat_length. lia.
Defined.
End Tail.

(** ** patcher.c *)
Module Patcher.

Definition ERANGE : Z := 34.

(** What the system calls answer: whether [fstat] and [pwrite] succeed. The
    file is [None] when [open] fails. *)
Record calls := Calls { fstat_ok : bool; pwrite_ok : bool }.

(** [pwrite] of one byte: past the end, the gap is filled with zeros. *)
Definition pwrite_file (f : list Z) (offset : nat) (b : Z) : list Z :=
  if (offset <? length f)%nat then <[offset := b]> f else f ++ repeat 0 (offset - length f) ++ [b].

(** The exit code and the file afterwards. *)
Definition main (env : calls) (argv : list (list Z)) (file : option (list Z)) : Z * option (list Z) :=
  match argv with
  | [_; _; off; chr] =>
      match file with
      | None => (1, file)
      | Some f =>
          if negb (fstat_ok env) then (1, file)
          else
            let '(offset, endptr, range) := strtol off in
            let errno := if range then ERANGE else 0 in
            if (errno =? ERANGE) || negb (errno =? 0) && (offset =? 0) then (1, file)
            else if bool_decide (endptr = 0%nat) || negb (bool_decide (endptr = length off)) then (1, file)
            else if offset <? 0 then (1, file)
            else if negb (pwrite_ok env) then (1, file)
            else (0, Some (pwrite_file f (Z.to_nat offset) (default 0 (head chr))))
      end
  | _ => (1, file)
  end.

(** Every failure leaves the file as it was. *)
Theorem patcher_failure_keeps_file env argv file code file' :
  main env argv file = (code, file') -> code <> 0 -> code = 1 /\ file' = file.
Proof.
  unfold main. intros Hm Hc.
  repeat (case_match || simplify_eq/=); try done.
Qed.

Lemma patcher_failure_keeps_file_witness :
  main (Calls true true) [[]; []; [45; 49]; [90]] (Some [1; 2]) = (1, Some [1; 2]) /\ (1 <> 0) /\
  (1 = 1 /\ Some [1; 2] = Some [1; 2]).
Proof.
  split; [reflexivity|]. split; [lia|].
  apply (patcher_failure_keeps_file (Calls true true) [[]; []; [45; 49]; [90]] (Some [1; 2]) 1); [reflexivity|lia].
Defined.

(** On a decimal offset inside the file and calls that succeed, the program
    exits with 0 after replacing exactly the byte at the offset by the first
    character of its last argument: the file keeps its length and all other
    bytes. *)
Theorem patcher_swaps_one_byte env prog name ds c cs f :
  fstat_ok env = true -> pwrite_ok env = true ->
  ds <> [] -> Forall (fun d => isdigit d = true) ds -> num ds < Z.of_nat (length f) -> num ds <= LONG_MAX ->
  main env [prog; name; ds; c :: cs] (Some f) = (0, Some (<[Z.to_nat (num ds) := c]> f)).
Proof.
  intros Hs Hw Hne Hd Hlt Hmax. pose proof (num_nonneg ds Hd) as H0. cbn [main].
  rewrite Hs, strtol_numeral by done. cbn [negb orb andb Z.eqb ERANGE].
  rewrite bool_decide_eq_false_2 by (by destruct ds). rewrite bool_decide_eq_true_2 by done. cbn [negb orb].
  destruct (Z.ltb_spec (num ds) 0); [lia|]. rewrite Hw. cbn [negb].
  unfold pwrite_file. by destruct (Nat.ltb_spec (Z.to_nat (num ds)) (length f)); [|lia].
Qed.

Lemma patcher_swaps_one_byte_witness :
  main (Calls true true) [[]; []; [49]; [90]] (Some [65; 66; 67]) = (0, Some [65; 90; 67]).
Proof.
  refine (patcher_swaps_one_byte (Calls true true) [] [] [49] 90 [] [65; 66; 67] _ _ _ _ _ _);
    first [done | repeat constructor; done | vm_compute; reflexivity | vm_compute; discriminate].
Defined.

(** The offset is not compared with the size that [fstat] returned: past the end
    the file grows. *)
Theorem patcher_extends_file :
  main (Calls true true) [[]; []; [53]; [90]] (Some [65; 66; 67]) = (0, Some [65; 66; 67; 0; 0; 90]).
Proof. reflexivity. Qed.
End Patcher.

(** ** event_loop.c *)
Module EventLoop.

(** What one [poll] and the reads after it deliver: the return value, and for
    each descriptor, when POLLIN is set, what [read] returns ([None] for an
    error; the empty list is the end of file). A read returns at most the bytes
    asked for. *)
Record poll_event := Event { ret : Z; stdin_in : option (option (list Z)); timer_in : option (option (list Z)) }.

Inductive line := Keyboard (s : list Z) | FileUpdated (s : list Z).

Definition SIZE : nat := 1024.

(** The buffers are uninitialised automatic arrays: [junk] is what they hold. *)
Definition check_stdin (junk : list Z) (e : poll_event) : outcome (list line) :=
  match stdin_in e with
  | Some (Some data) =>
      let data := take (SIZE - 1) data in
      if (0 <? length data)%nat then
        let buf := data ++ drop (length data) junk in
        match arr_set buf (Z.of_nat (length data)) 0 with
        | None => Undef
        | Some buf => match c_string buf with Some s => Ret [Keyboard s] | None => Undef end
        end
      else Ret []
  | _ => Ret []
  end.

Definition check_timer (junk : list Z) (e : poll_event) : outcome (list line) :=
  match timer_in e with
  | Some (Some data) =>
      let data := take SIZE data in
      if (0 <? length data)%nat then
        match c_string (data ++ drop (length data) junk) with Some s => Ret [FileUpdated s] | None => Undef end
      else Ret []
  | _ => Ret []
  end.

(** The loop over the events of a run, with the buffers' contents at each pass:
    the output, with [true] when [poll] failed and main returned, and [false] when
    the events are used up and the program is still waiting. *)
Fixpoint loop (evs : list (poll_event * (list Z * list Z))) (out : list line) : outcome (list line * bool) :=
  match evs with
  | [] => Ret (out, false)
  | (e, (junk1, junk2)) :: evs =>
      if ret e <? 0 then Ret (out, true)
      else
        match check_stdin junk1 e, check_timer junk2 e with
        | Ret l1, Ret l2 => loop evs (out ++ l1 ++ l2)
        | _, _ => Undef
        end
  end.

(** What the user typed, up to a NUL. *)
Definition typed (e : poll_event) : list line :=
  match stdin_in e with
  | Some (Some (c :: data)) => [Keyboard (prefix_while (fun c => negb (c =? 0)) (take (SIZE - 1) (c :: data)))]
  | _ => []
  end.

Lemma check_stdin_typed junk e : length junk = SIZE -> check_stdin junk e = Ret (typed e).
Proof.
  intros Hj. unfold check_stdin, typed. destruct (stdin_in e) as [[data|]|]; [|done|done].
  destruct data as [|c data]; [done|]. assert (HS : SIZE = S (S (SIZE - 2))) by done.
  set (d := take (SIZE - 1) (c :: data)).
  assert (Hd : (0 < length d <= SIZE - 1)%nat).
  { unfold d. rewrite length_take. cbn [length]. lia. }
  destruct (Nat.ltb_spec 0 (length d)); [|lia].
  destruct (drop (length d) junk) as [|j rest] eqn:Hr.
  { apply (f_equal length) in Hr. rewrite length_drop in Hr. cbn [length] in Hr. lia. }
  unfold arr_set. rewrite bool_decide_eq_true_2; [|rewrite length_app; cbn [length]; lia].
  rewrite Nat2Z.id, insert_app_r_alt, Nat.sub_diag by lia. cbn [list_insert insert]. by rewrite c_string_nul.
Qed.

(** Keyboard input is handled without undefined behaviour: as long as no timer
    event delivers file data, the loop prints, for every event in order, exactly
    the characters typed, and goes on until [poll] fails. *)
Theorem event_loop_keyboard evs out :
  Forall (fun ev => ret ev.1 >= 0 /\ length ev.2.1 = SIZE /\
                    (forall c data, timer_in ev.1 <> Some (Some (c :: data)))) evs ->
  loop evs out = Ret (out ++ flat_map (fun ev => typed ev.1) evs, false) /\
  (forall e junk rest, ret e < 0 -> loop (evs ++ (e, junk) :: rest) out = Ret (out ++ flat_map (fun ev => typed ev.1) evs, true)).
Proof.
  intros Hall. revert out. induction Hall as [|[e [j1 j2]] evs (Hret & Hj & Ht) _ IH]; intros out.
  - simpl. rewrite app_nil_r. split; [done|]. intros e [j1 j2] rest He. by destruct (Z.ltb_spec (ret e) 0); [|lia].
  - simpl in Hret, Hj, Ht. assert (Hl : check_timer j2 e = Ret []).
    { unfold check_timer. destruct (timer_in e) as [[[|c data]|]|] eqn:E; try done. by destruct (Ht c data). }
    destruct (IH (out ++ typed e)) as [H1 H2]. cbn [flat_map fst]. rewrite app_assoc. split.
    + cbn [loop]. destruct (Z.ltb_spec (ret e) 0); [lia|]. by rewrite check_stdin_typed, Hl, app_nil_r.
    + intros e' junk rest He. cbn [app loop]. destruct (Z.ltb_spec (ret e) 0); [lia|].
      rewrite check_stdin_typed, Hl, app_nil_r by done. by apply H2.
Qed.

Lemma event_loop_keyboard_witness :
  loop [(Event 1 (Some (Some [104; 105; 10])) None, (repeat 7 SIZE, []))] [] = Ret ([Keyboard [104; 105; 10]], false).
Proof.
  refine (proj1 (event_loop_keyboard [(Event 1 (Some (Some [104; 105; 10])) None, (repeat 7 SIZE, []))] [] _)).
  repeat constructor; simpl; lia || done.
Defined.

(** The file's data is printed without a terminator: when the kernel fills the
    whole buffer with non-NUL bytes, [printf] reads past it, whatever the array
    held; when it does not, the junk behind the data is printed too. *)
Theorem file_update_not_terminated junk data e :
  timer_in e = Some (Some data) -> Forall (fun c => c <> 0) data -> length junk = SIZE -> (0 < length data)%nat ->
  (length data = SIZE -> check_timer junk e = Undef) /\
  (forall j rest, (length data + length j < SIZE)%nat -> Forall (fun c => c <> 0) j -> drop (length data) junk = j ++ 0 :: rest ->
     check_timer junk e = Ret [FileUpdated (data ++ j)]).
Proof.
  intros Ht Hd Hj H0. unfold check_timer. rewrite Ht. split.
  - intros Hl. rewrite take_ge by lia. destruct (Nat.ltb_spec 0 (length data)); [|lia].
    rewrite drop_ge by lia. by rewrite app_nil_r, c_string_none.
  - intros j rest Hl Hz Hdrop. rewrite take_ge by lia. destruct (Nat.ltb_spec 0 (length data)); [|lia].
    rewrite Hdrop, app_assoc, c_string_app; [done|]. by apply Forall_app.
Qed.

Lemma file_update_not_terminated_witness :
  check_timer (repeat 7 (SIZE - 1) ++ [0]) (Event 1 None (Some (Some [97]))) =
  Ret [FileUpdated ([97] ++ repeat 7 (SIZE - 2))].
Proof.
  refine (proj2 (file_update_not_terminated (repeat 7 (SIZE - 1) ++ [0]) [97] (Event 1 None (Some (Some [97]))) _ _ _ _)
    (repeat 7 (SIZE - 2)) [] _ _ _); first [done | simpl; lia | apply Forall_repeat; done | by repeat constructor].
Defined.
(** What arrives when the file could not be opened ([fd_file] is -1 and every
    [read] of it fails) or there is no timer ([poll] skips a negative descriptor). *)
Definition deliver (file_ok timer_ok : bool) (e : poll_event) : poll_event :=
  Event (ret e) (stdin_in e)
    (if timer_ok then match timer_in e with Some (Some d) => if file_ok then Some (Some d) else Some None | t => t end
     else None).

(** main: none of the set-up calls is checked. *)
Definition main (file_ok timer_ok : bool) (evs : list (poll_event * (list Z * list Z))) : outcome (list line * bool) :=
  loop ((fun ev => (deliver file_ok timer_ok ev.1, ev.2)) <$> evs) [].

(** Without the file or without the timer the program is an echo of the keyboard,
    and says nothing about the missing half. *)
Theorem event_loop_setup_failure file_ok timer_ok evs :
  file_ok && timer_ok = false -> Forall (fun ev => ret ev.1 >= 0 /\ length ev.2.1 = SIZE) evs ->
  main file_ok timer_ok evs = Ret (flat_map (fun ev => typed ev.1) evs, false).
Proof.
  intros Hf Hall. unfold main.
  destruct (event_loop_keyboard ((fun ev => (deliver file_ok timer_ok ev.1, ev.2)) <$> evs) []) as [-> _].
  - apply Forall_fmap. eapply Forall_impl; [exact Hall|]. intros [e j] [Hr Hj]. simpl in *. split_and!; [done|done|].
    intros c data. destruct timer_ok; [|done]. destruct file_ok; [done|]. destruct (timer_in e) as [[]|]; done.
  - cbn [app]. do 2 f_equal. induction evs as [|[e j] evs IH]; [done|]. cbn [flat_map fmap list_fmap].
    apply Forall_cons in Hall as [_ Hall]. by rewrite <- IH.
Qed.

Lemma event_loop_setup_failure_witness :
  main false true [(Event 1 (Some (Some [104; 105])) (Some (Some [1; 2; 3])), (repeat 7 SIZE, []))] =
  Ret ([Keyboard [104; 105]], false).
Proof.
  refine (event_loop_setup_failure false true [(Event 1 (Some (Some [104; 105])) (Some (Some [1; 2; 3])), (repeat 7 SIZE, []))] _ _);
    [done|]. repeat constructor; simpl; lia || done.
Defined.
End EventLoop.

(** ** fork_test.c *)
Module ForkPipe.

(** Which of the calls of the program succeed. *)
Record calls := Calls { pipe_ok : bool; fork1_ok : bool; dup1_ok : bool; fork2_ok : bool; dup2_ok : bool }.

(** "hellooo". *)
Definition msg1 : list Z := [104; 101; 108; 108; 111; 111; 111].

(** The bytes in the pipe, the open descriptors of its write end in all
    processes, whether child2 exists, which children have exited, and what was
    printed. *)
Record shared := Shared {
  pipe : list Z; write_ends : Z; forked2 : bool; exited1 : bool; exited2 : bool; out : list (list Z) }.
#[export] Instance shared_eq : EqDecision shared.
Proof. solve_decision. Defined.

(** [C2Over] is child2 after a [printf] that read past its buffer. *)
Inductive proc :=
  | C1Dup | C1Write | C1Close | C1Exit | C1Done
  | PFork | PWait1 | PWait2 | PExit | PDone
  | C2Dup | C2Read | C2Print (buff : list Z) | C2Exit | C2Done | C2Over.
#[export] Instance proc_eq : EqDecision proc.
Proof. solve_decision. Defined.

Definition set_ends (d : Z) (s : shared) : shared :=
  Shared (pipe s) (write_ends s + d) (forked2 s) (exited1 s) (exited2 s) (out s).

Section program.
Variable env : calls.

Definition child1 (s : shared) (p : proc) : option (shared * proc) :=
  match p with
  | C1Dup => if dup1_ok env then Some (set_ends 1 s, C1Write) else Some (s, C1Exit)
  | C1Write => Some (Shared (pipe s ++ msg1) (write_ends s) (forked2 s) (exited1 s) (exited2 s) (out s), C1Close)
  | C1Close => Some (set_ends (-1) s, C1Exit)
  | C1Exit => Some (Shared (pipe s) (write_ends s - 1) (forked2 s) true (exited2 s) (out s), C1Done)
  | _ => None
  end.

Definition parent (s : shared) (p : proc) : option (shared * proc) :=
  match p with
  | PFork =>
      if fork2_ok env then
        Some (Shared (pipe s) (write_ends s + 1) true (exited1 s) (exited2 s) (out s), PWait1)
      else Some (s, PExit)
  | PWait1 => if exited1 s then Some (s, PWait2) else None
  | PWait2 => if exited2 s then Some (s, PExit) else None
  | PExit => Some (set_ends (-1) s, PDone)
  | _ => None
  end.

(** A [read] from the pipe waits while the pipe is empty and a write end is open
    anywhere; [calloc] has zeroed the buffer of [strlen(msg1)] bytes. *)
Definition child2 (s : shared) (p : proc) : option (shared * proc) :=
  match p with
  | C2Dup => Some (s, if dup2_ok env then C2Read else C2Exit)
  | C2Read =>
      let n := length msg1 in
      let data := take n (pipe s) in
      if bool_decide (data = []) && (0 <? write_ends s) then None
      else Some (Shared (drop n (pipe s)) (write_ends s) (forked2 s) (exited1 s) (exited2 s) (out s),
                 C2Print (data ++ repeat 0 (n - length data)))
  | C2Print buff =>
      match c_string buff with
      | Some str => Some (Shared (pipe s) (write_ends s) (forked2 s) (exited1 s) (exited2 s) (out s ++ [str]), C2Exit)
      | None => Some (s, C2Over)
      end
  | C2Exit => Some (Shared (pipe s) (write_ends s - 1) (forked2 s) (exited1 s) true (out s), C2Done)
  | _ => None
  end.

Definition tstep (s : shared) (p : proc) : option (shared * proc) :=
  match p with
  | C1Dup | C1Write | C1Close | C1Exit | C1Done => child1 s p
  | PFork | PWait1 | PWait2 | PExit | PDone => parent s p
  | _ => if forked2 s then child2 s p else None
  end.

(** After the pipe and the first fork, each process holds the write end. *)
Definition main : option (shared * list proc) :=
  if pipe_ok env && fork1_ok env then Some (Shared [] 2 false false false [], [PFork; C1Dup; C2Dup]) else None.
End program.

Definition all_ok : calls := Calls true true true true true.
Definition start : shared * list proc := (Shared [] 2 false false false [], [PFork; C1Dup; C2Dup]).

Definition proc_left (p : proc) : nat :=
  match p with
  | C1Dup => 4 | C1Write => 3 | C1Close => 2 | C1Exit => 1 | C1Done => 0
  | PFork => 4 | PWait1 => 3 | PWait2 => 2 | PExit => 1 | PDone => 0
  | C2Dup => 4 | C2Read => 3 | C2Print _ => 2 | C2Exit => 1 | C2Done | C2Over => 0
  end.
Definition steps_left (c : shared * list proc) : nat := sum_list_with proc_left c.2.

Definition overread (c : shared * list proc) : bool := bool_decide (C2Over ∈ c.2).

(** What child2 is about to print is the message, and nothing is printed
    within the rules of C. *)
Definition test (c : shared * list proc) : bool :=
  bool_decide (out c.1 = []) &&
  forallb (fun p => match p with C2Print b => bool_decide (b = msg1) | C2Exit | C2Done => false | _ => true end) c.2.

(** With all calls succeeding, the message arrives whole: whenever child2 has
    read, its buffer is "hellooo". But the buffer has no room for the
    terminator, so under every schedule the program runs, within 12 steps and
    without deadlock, into a [printf] that reads past it. *)
Theorem fork_pipe_overreads :
  main all_ok = Some start /\
  (forall c, rtc (sys_step (tstep all_ok)) start c ->
     (forall buff, C2Print buff ∈ c.2 -> buff = msg1) /\ out c.1 = [] /\
     (C2Over ∈ c.2 \/ exists c', sys_step (tstep all_ok) c c')) /\
  (forall n c, nsteps (sys_step (tstep all_ok)) n start c -> (n <= 12)%nat).
Proof.
  assert (Hv : verify (tstep all_ok) steps_left test overread 1000 start = true) by (vm_compute; reflexivity).
  destruct (verify_sound _ _ _ _ _ _ Hv) as [Hall Hn]. split_and!; [done| |exact Hn].
  intros c Hc. destruct (Hall c Hc) as [Ht Hf]. unfold test in Ht.
  apply andb_true_iff in Ht as [Ho%bool_decide_eq_true_1 Hp]. rewrite forallb_forall in Hp. split_and!.
  - intros buff Hb. specialize (Hp _ (proj1 (list_elem_of_In _ _) Hb)). by apply bool_decide_eq_true_1 in Hp.
  - done.
  - destruct Hf as [Hf|Hf]; [left|by right]. by apply bool_decide_eq_true_1 in Hf.
Qed.

(** If child1 cannot redirect its output, nobody writes, and child2 and the
    parent keep the write end open: child2 waits in [read], and the parent for
    child2, forever. *)
Theorem fork_pipe_hangs :
  exists sched c, run_sched (tstep (Calls true true false true true)) sched start = Some c /\
    (forall c', ~ sys_step (tstep (Calls true true false true true)) c c') /\ PWait2 ∈ c.2 /\ C2Read ∈ c.2.
Proof.
  exists [0; 1; 1; 0; 2]%nat. eexists. split; [reflexivity|]. split.
  - intros c' Hs. apply sys_step_succs in Hs. vm_compute in Hs. by apply not_elem_of_nil in Hs.
  - split; simpl; set_solver.
Qed.
End ForkPipe.
