(* ===== verification/Mains.v ===== *)
(** * The programs with their mains

    The mains of 31_Semaphores/barrier.c, 31_Semaphores/reader-writer.c and
    29_LockedDataStructures/main.c: they read their arguments, create the threads
    of Barrier.v, ReaderWriter.v and CounterThreads.v, join them, and report. The
    theorems are about the whole programs: what the last line says, and that it
    is printed on every schedule, within a bounded number of steps. *)

From S2P Require Import Prelude Threads Spawn Barrier ReaderWriter Counters CounterThreads FilePrograms.
Import FilePrograms.Libc.

(** ** barrier.c *)
Module BarrierMain.

Inductive line := ParentBegin | Child (m : b_msg) | ParentEnd.

(** The argument: [None] when an assertion fails or [atoi] is undefined. *)
Definition args (argv : list (list Z)) : option nat :=
  match argv with
  | [_; a] => n ← atoi a; if 0 <? n then Some (Z.to_nat n) else None
  | _ => None
  end.

Definition returned (t : b_thread) : bool := bool_decide (bt_pc t = B_done).

(** All that was printed when main returns: main prints its first line before it
    creates a thread and its last one after it has joined them all, so the
    children's lines are in between. *)
Definition report (s : b_shared) : list line := ParentBegin :: (Child <$> bs_out s) ++ [ParentEnd].

Definition step (n : nat) := spawn_step child_step returned report n.
Definition start (n : nat) : main_pc (list line) * (b_shared * list b_thread) := (MCreate 0, barrier_main n).

Lemma child_stops s t : returned t = true -> child_step s t = None.
Proof. intros Hr%bool_decide_eq_true_1. unfold child_step. by rewrite Hr. Qed.

(** *** Each line once *)

Definition lines (t : b_thread) : list b_msg :=
  match bt_pc t with
  | B_before => []
  | B_done => [Before (bt_id t); After (bt_id t)]
  | _ => [Before (bt_id t)]
  end.

Lemma child_step_lines s t s' t' :
  child_step s t = Some (s', t') -> exists d, bs_out s' = bs_out s ++ d /\ lines t' = lines t ++ d.
Proof.
  unfold child_step, lines. intros Hs. destruct t as [id pc], s as [b out]; simpl in *.
  destruct pc; simpl in *; inv_sync; repeat case_match; simplify_eq/=; eexists; (split; [|reflexivity]);
    rewrite ?app_nil_r; done.
Qed.

Lemma lines_insert ts i t t' d :
  ts !! i = Some t -> lines t' = lines t ++ d ->
  concat (lines <$> <[i := t']> ts) ≡ₚ concat (lines <$> ts) ++ d.
Proof.
  intros Hi Hl. revert i Hi. induction ts as [|u ts IH]; intros i Hi; [done|]. destruct i as [|i]; simplify_eq/=.
  - rewrite Hl, <- !app_assoc. apply Permutation_app_head, Permutation_app_comm.
  - rewrite (IH i Hi). by rewrite app_assoc.
Qed.

Lemma out_lines n s ts :
  rtc (sys_step child_step) (barrier_main n) (s, ts) -> bs_out s ≡ₚ concat (lines <$> ts) /\ length ts = n.
Proof.
  unfold barrier_main. apply (thread_invariant child_step (fun s ts => bs_out s ≡ₚ concat (lines <$> ts) /\ length ts = n)).
  - simpl. rewrite length_fmap, length_seq. split; [|done]. rewrite <- list_fmap_compose.
    induction (seq 0 n) as [|k ks IH]; [done|]. simpl. exact IH.
  - intros i s0 ls l s' l' [HI Hlen] Hi Ht. rewrite length_insert. split; [|done].
    destruct (child_step_lines _ _ _ _ Ht) as (d & -> & Hd). rewrite (lines_insert _ _ _ _ _ Hi Hd). by rewrite HI.
Qed.

Lemma done_lines n s ts :
  (0 < n)%nat -> rtc (sys_step child_step) (barrier_main n) (s, ts) -> all_returned returned ts ->
  bs_out s ≡ₚ (Before <$> seq 0 n) ++ (After <$> seq 0 n).
Proof.
  intros Hn Hr Hall. destruct (out_lines n s ts Hr) as [-> Hlen].
  destruct (barrier_reach n s ts Hn Hr) as (_ & Hid & _).
  assert (Hts : ts = (fun i => mk_b_thread i B_done) <$> seq 0 n).
  { apply list_eq. intros i. rewrite list_lookup_fmap. destruct (ts !! i) as [t|] eqn:Hi.
    - pose proof (lookup_lt_Some _ _ _ Hi). rewrite lookup_seq_lt by lia. simpl. f_equal.
      destruct (Hid i t Hi) as [Hti _]. specialize (Hall i t Hi). apply bool_decide_eq_true_1 in Hall.
      destruct t; simpl in *; by subst.
    - apply lookup_ge_None in Hi. by rewrite (proj2 (lookup_ge_None (seq 0 n) i)) by (rewrite length_seq; lia). }
  rewrite Hts, <- list_fmap_compose. clear. generalize 0%nat.
  induction n as [|n IH]; intros a; [done|]. simpl. rewrite IH.
  rewrite <- Permutation_middle. by rewrite app_comm_cons.
Qed.

(** *** The "before" lines come first *)

Definition is_before (m : b_msg) : bool := match m with Before _ => true | After _ => false end.

(** A log without repetitions in which every "before" precedes every "after" is
    the ones followed by the others. *)
Lemma befores_first (out : list b_msg) :
  NoDup out -> (forall i j, Before j ∈ out -> printed_before (After i) (Before j) out) ->
  exists bs afs, out = bs ++ afs /\ Forall (fun m => is_before m = true) bs /\ Forall (fun m => is_before m = false) afs.
Proof.
  induction out as [|m out IH] using rev_ind; intros Hnd Hb; [by exists [], []|].
  apply NoDup_app in Hnd as (Hnd & Hdis & _). destruct IH as (bs & afs & -> & Hbs & Hafs); [done| |].
  { intros i j Hj pre post E. apply (Hb i j) with (post := post ++ [m]); [set_solver|]. by rewrite E, <- app_assoc. }
  destruct m as [j|i].
  - destruct afs as [|a afs].
    { exists (bs ++ [Before j]), []. rewrite !app_nil_r. split_and!; [done| |constructor].
      apply Forall_app. split; [done|by repeat constructor]. }
    exfalso. inversion_clear Hafs as [|? ? Ha _]. destruct a as [|i]; [done|].
    assert (Hj : Before j ∈ bs) by (apply (Hb i j) with (post := afs ++ [Before j]); [set_solver|by rewrite <- app_assoc]).
    apply (Hdis (Before j)); [apply elem_of_app; by left|by left].
  - exists bs, (afs ++ [After i]). split_and!; [by rewrite app_assoc|done|]. apply Forall_app. split; [done|by repeat constructor].
Qed.

Lemma filter_phase (l : list b_msg) p :
  Forall (fun m => is_before m = p) l ->
  filter (fun m => is_before m = p) l = l /\ filter (fun m => is_before m = negb p) l = [].
Proof.
  induction 1 as [|m l Hm _ [IH1 IH2]]; [done|]. rewrite !filter_cons.
  rewrite decide_True, decide_False by (rewrite Hm; by destruct p). by rewrite IH1, IH2.
Qed.

Lemma split_phases n (out : list b_msg) :
  out ≡ₚ (Before <$> seq 0 n) ++ (After <$> seq 0 n) ->
  (forall i j, (j < n)%nat -> printed_before (After i) (Before j) out) ->
  exists bs afs, out = bs ++ afs /\ bs ≡ₚ Before <$> seq 0 n /\ afs ≡ₚ After <$> seq 0 n.
Proof.
  intros Hp Hb. assert (Hnd : NoDup out).
  { rewrite Hp. apply NoDup_app. split_and!.
    - apply NoDup_fmap_2; [intros ? ? [=]; done|apply NoDup_seq].
    - intros x (i & -> & _)%list_elem_of_fmap (j & [=] & _)%list_elem_of_fmap.
    - apply NoDup_fmap_2; [intros ? ? [=]; done|apply NoDup_seq]. }
  destruct (befores_first out Hnd) as (bs & afs & -> & Hbs & Hafs).
  { intros i j Hj. apply Hb. revert Hj. rewrite Hp, elem_of_app.
    intros [(k & [=->] & Hk%elem_of_seq)%list_elem_of_fmap|(k & [=] & _)%list_elem_of_fmap]. lia. }
  exists bs, afs. split; [done|].
  assert (HB : Forall (fun m => is_before m = true) (Before <$> seq 0 n)) by (apply Forall_fmap, Forall_true; done).
  assert (HA : Forall (fun m => is_before m = false) (After <$> seq 0 n)) by (apply Forall_fmap, Forall_true; done).
  destruct (filter_phase _ _ Hbs) as [B1 B2], (filter_phase _ _ Hafs) as [A1 A2],
    (filter_phase _ _ HB) as [B3 B4], (filter_phase _ _ HA) as [A3 A4]. cbn [negb] in *.
  assert (Hf : forall p, filter (fun m => is_before m = p) (bs ++ afs)
    ≡ₚ filter (fun m => is_before m = p) ((Before <$> seq 0 n) ++ (After <$> seq 0 n))) by (intros p; by rewrite Hp).
  pose proof (Hf true) as Ht. pose proof (Hf false) as Hfa. rewrite !filter_app in Ht, Hfa.
  rewrite B1, A2, B3, A4, !app_nil_r in Ht. rewrite B2, A1, B4, A3 in Hfa. done.
Qed.

(** C13. barrier.c with an argument [n > 0], its main included: every execution ends,
    within [10 n + 3] steps and from every state it reaches, and then it has
    printed "parent: begin", the "before" lines of all children in some order,
    their "after" lines in some order, each exactly once, and "parent: end". *)
Theorem barrier_program argv n :
  args argv = Some n ->
  (forall r c, rtc (step n) (start n) (MReturned r, c) ->
     exists bs afs, r = ParentBegin :: (Child <$> bs ++ afs) ++ [ParentEnd] /\
       bs ≡ₚ Before <$> seq 0 n /\ afs ≡ₚ After <$> seq 0 n) /\
  (forall k p, nsteps (step n) k (start n) p -> (k <= 10 * n + 3)%nat) /\
  (forall p, rtc (step n) (start n) p -> exists r c, rtc (step n) p (MReturned r, c)).
Proof.
  intros Ha. assert (Hn : (0 < n)%nat).
  { unfold args in Ha. destruct argv as [|? [|a [|]]]; try done. destruct (atoi a); simplify_eq/=. destruct (Z.ltb_spec 0 z); simplify_eq. lia. }
  destruct (spawn_program child_step returned report child_stops (barrier_main n) n (8 * n)
    (fun r => exists bs afs, r = ParentBegin :: (Child <$> bs ++ afs) ++ [ParentEnd] /\
       bs ≡ₚ Before <$> seq 0 n /\ afs ≡ₚ After <$> seq 0 n)) as (H1 & H2 & H3).
  - simpl. by rewrite length_fmap, length_seq.
  - intros s ts Hr Hall. destruct (split_phases n (bs_out s)) as (bs & afs & Hout & Hbs & Hafs).
    + by apply (done_lines _ s ts).
    + intros i j Hj. destruct (barrier_reach _ s ts Hn Hr) as (_ & _ & H). apply H. lia.
    + exists bs, afs. unfold report. by rewrite Hout.
  - intros j [s ts] Hj. by apply (barrier_terminates _ s ts j Hn).
  - intros [s ts] Hc. apply rtc_nsteps_1 in Hc as [j Hj].
    destruct (barrier_terminates _ s ts j Hn Hj) as [_ (c' & Hc' & Hd)]. exists c'. split; [done|].
    intros i t Hi. apply bool_decide_eq_true_2. by apply (Hd i t Hi).
  - split_and!; [exact H1|intros k p Hk; specialize (H2 k p Hk); lia|].
    intros p Hp. destruct (H3 p Hp) as (r & c & _ & Hr). by exists r, c.
Qed.

Lemma barrier_program_witness :
  exists p, rtc (step 2) (start 2) p /\ exists r c, rtc (step 2) p (MReturned r, c).
Proof.
  exists (start 2). split; [done|].
  apply (proj2 (proj2 (barrier_program [[98]; [50]] 2 eq_refl)) (start 2)). done.
Defined.
End BarrierMain.

(** ** reader-writer.c *)
Module ReaderWriterMain.

(** The three arguments; a negative length of [pr] or [pw] is undefined. *)
Definition args (argv : list (list Z)) : option (nat * nat * Z) :=
  match argv with
  | [_; a; b; c] =>
      r ← atoi a; w ← atoi b; loops ← atoi c;
      if (0 <=? r) && (0 <=? w) then Some (Z.to_nat r, Z.to_nat w, loops) else None
  | _ => None
  end.

Definition returned (t : rw_thread) : bool := bool_decide (rwt_pc t = R_done) || bool_decide (rwt_pc t = W_done).

(** "end: value %d". *)
Definition report (s : rw_shared) : Z := rws_value s.

Definition step (loops : Z) (n : nat) := spawn_step (rw_step loops) returned report n.
Definition start (r w : nat) : main_pc Z * (rw_shared * list rw_thread) := (MCreate 0, rw_main r w).

Lemma rw_stops loops s t : returned t = true -> rw_step loops s t = None.
Proof.
  unfold returned. intros [Hr%bool_decide_eq_true_1|Hr%bool_decide_eq_true_1]%orb_true_iff;
    unfold rw_step, reader_step, writer_step; by rewrite Hr.
Qed.

Lemma finished_returned c : rw_finished c <-> all_returned returned c.2.
Proof.
  unfold rw_finished, all_returned, returned. split; intros H i t Hi; specialize (H i t Hi).
  - apply orb_true_iff. destruct H as [H|H]; [left|right]; by apply bool_decide_eq_true_2.
  - apply orb_true_iff in H as [H%bool_decide_eq_true_1|H%bool_decide_eq_true_1]; auto.
Qed.

Lemma main_length r w : length (rw_main r w).2 = (r + w)%nat.
Proof. unfold rw_main; simpl. rewrite length_app, !length_replicate. done. Qed.

(** C12. reader-writer.c with [r] readers, [w] writers and [loops >= 0], when
    [w * loops] fits [int] (beyond it the increments of [value] overflow, which
    is undefined): every execution ends, within a bounded number of steps and
    from every state it reaches, with the line "end: value" [w * loops]. *)
Theorem reader_writer_program argv r w loops :
  args argv = Some (r, w, loops) -> 0 <= loops -> Z.of_nat w * loops < 2 ^ 31 ->
  (forall v c, rtc (step loops (r + w)) (start r w) (MReturned v, c) -> v = Z.of_nat w * loops) /\
  (forall k p, nsteps (step loops (r + w)) k (start r w) p ->
     Z.of_nat k <= Z.of_nat (r + w) * (12 * loops + 3) + 3) /\
  (forall p, rtc (step loops (r + w)) (start r w) p ->
     exists c, rtc (step loops (r + w)) p (MReturned (Z.of_nat w * loops), c)).
Proof.
  intros _ Hl Hfit. destruct (spawn_program (rw_step loops) returned report (rw_stops loops) (rw_main r w) (r + w)
    (Z.to_nat (Z.of_nat (r + w) * (12 * loops + 1))) (fun v => v = Z.of_nat w * loops)) as (H1 & H2 & H3).
  - apply main_length.
  - intros s ts Hr Hall. apply (rw_final_value loops r w s ts Hl Hr). by apply finished_returned.
  - intros j [s ts] Hj. destruct (rw_terminates loops r w s ts j Hl Hfit Hj) as [Hb _]. lia.
  - intros [s ts] Hc. apply rtc_nsteps_1 in Hc as [j Hj].
    destruct (rw_terminates loops r w s ts j Hl Hfit Hj) as [_ (c' & Hc' & Hd)]. exists c'. split; [done|].
    by apply finished_returned.
  - split_and!; [exact H1|intros k p Hk; specialize (H2 k p Hk); nia|].
    intros p Hp. destruct (H3 p Hp) as (v & c & -> & Hr). by exists c.
Qed.

Lemma reader_writer_program_witness :
  exists c, rtc (step 5 3) (start 2 1) (MReturned (Z.of_nat 1 * 5), c).
Proof.
  apply (proj2 (proj2 (reader_writer_program [[]; [50]; [49]; [53]] 2 1 5 eq_refl ltac:(lia) ltac:(lia))) (start 2 1)). done.
Defined.
End ReaderWriterMain.

(** ** 29_LockedDataStructures/main.c *)
Module CounterMain.

Definition PER_THREAD_INCREMENT : Z := 10000000.

(** The value main prints after the joins: [counter_get]. *)
Definition simple_step (n : nat) :=
  spawn_step (SimpleThreads.tstep PER_THREAD_INCREMENT) SimpleThreads.returned SimpleThreads.value n.
Definition approx_step (n : nat) :=
  spawn_step (ApproxThreads.tstep PER_THREAD_INCREMENT) ApproxThreads.returned ApproxThreads.value n.

Definition simple_start (cores : nat) : main_pc Z * _ := (MCreate 0, SimpleThreads.init cores).
Definition approx_start (mem : list Z) (cores : nat) : main_pc Z * _ := (MCreate 0, ApproxThreads.init mem cores).

Lemma simple_stops s t : SimpleThreads.returned t = true -> SimpleThreads.tstep PER_THREAD_INCREMENT s t = None.
Proof. intros Hr%bool_decide_eq_true_1. unfold SimpleThreads.tstep. by rewrite Hr. Qed.

Lemma approx_stops s t : ApproxThreads.returned t = true -> ApproxThreads.tstep PER_THREAD_INCREMENT s t = None.
Proof. intros Hr%bool_decide_eq_true_1. unfold ApproxThreads.tstep. by rewrite Hr. Qed.

(** C14. main.c on up to 214 cores, with either counter, statement by statement;
    for the approximate counter on the condition that the memory that [malloc]
    returns for its [local_value] array is zero (the code does not initialise
    it). On every schedule the program ends: an execution has a bounded number of
    steps, and from every state reached it can go on to the end, where it prints
    the number of increments made, 10,000,000 per core. And at every moment of a
    run with the approximate counter the global value is at most the increments
    made so far, and behind them by at most the threshold per core. *)
Theorem counter_program cores :
  Z.of_nat cores * PER_THREAD_INCREMENT < 2 ^ 31 ->
  (forall k p, nsteps (simple_step cores) k (simple_start cores) p ->
     Z.of_nat k <= Z.of_nat cores * (5 * PER_THREAD_INCREMENT + 3) + 3) /\
  (forall p, rtc (simple_step cores) (simple_start cores) p ->
     exists c, rtc (simple_step cores) p (MReturned (Z.of_nat cores * PER_THREAD_INCREMENT), c)) /\
  (forall v c, rtc (simple_step cores) (simple_start cores) (MReturned v, c) -> v = Z.of_nat cores * PER_THREAD_INCREMENT) /\
  (forall k p, nsteps (approx_step cores) k (approx_start (replicate cores 0) cores) p ->
     Z.of_nat k <= Z.of_nat cores * (11 * PER_THREAD_INCREMENT + 3) + 3) /\
  (forall p, rtc (approx_step cores) (approx_start (replicate cores 0) cores) p ->
     exists c, rtc (approx_step cores) p (MReturned (Z.of_nat cores * PER_THREAD_INCREMENT), c)) /\
  (forall v c, rtc (approx_step cores) (approx_start (replicate cores 0) cores) (MReturned v, c) -> v = Z.of_nat cores * PER_THREAD_INCREMENT) /\
  (forall m s ts, rtc (approx_step cores) (approx_start (replicate cores 0) cores) (m, (s, ts)) ->
     ApproxThreads.value s <= lsum ApproxThreads.made ts <= ApproxThreads.value s + Z.of_nat cores * Approx.threshold).
Proof.
  intros Hroom. assert (Hper : 0 <= PER_THREAD_INCREMENT) by done.
  pose proof (SimpleThreads.simple_terminates _ cores Hper Hroom) as [B1 F1].
  pose proof (ApproxThreads.approx_terminates _ cores Hper Hroom) as [B2 F2].
  destruct (spawn_program _ _ SimpleThreads.value simple_stops (SimpleThreads.init cores) cores
    (Z.to_nat (Z.of_nat cores * (5 * PER_THREAD_INCREMENT + 1)))
    (fun v => v = Z.of_nat cores * PER_THREAD_INCREMENT)) as (H1 & H2 & H3).
  - simpl. by rewrite length_replicate.
  - intros s ts Hr Hall. by apply (SimpleThreads.simple_final_value PER_THREAD_INCREMENT cores Hper Hroom s ts).
  - intros j c Hj. specialize (B1 j c Hj). lia.
  - exact F1.
  - destruct (spawn_program _ _ ApproxThreads.value approx_stops (ApproxThreads.init (replicate cores 0) cores) cores
      (Z.to_nat (Z.of_nat cores * (11 * PER_THREAD_INCREMENT + 1)))
      (fun v => v = Z.of_nat cores * PER_THREAD_INCREMENT)) as (H4 & H5 & H6).
    + simpl. by rewrite length_fmap, length_seq.
    + intros s ts Hr Hall. by apply (ApproxThreads.approx_final_value PER_THREAD_INCREMENT cores Hper Hroom s ts).
    + intros j c Hj. specialize (B2 j c Hj). lia.
    + exact F2.
    + split_and!; [| |exact H1| | |exact H4|].
      * intros k p Hk. specialize (H2 k p Hk). lia.
      * intros p Hp. destruct (H3 p Hp) as (v & c & -> & Hr). by exists c.
      * intros k p Hk. specialize (H5 k p Hk). lia.
      * intros p Hp. destruct (H6 p Hp) as (v & c & -> & Hr). by exists c.
      * intros m s ts Hr. apply spawn_threads in Hr.
        pose proof (ApproxThreads.value_bounds _ cores Hroom s ts (ApproxThreads.approx_inv_reach _ cores Hper Hroom s ts Hr)). lia.
Qed.

Lemma counter_program_witness :
  exists c, rtc (approx_step 8) (approx_start (replicate 8 0) 8) (MReturned 80000000, c).
Proof.
  refine (proj1 (proj2 (proj2 (proj2 (proj2 (counter_program 8 _))))) (approx_start (replicate 8 0) 8) _); [reflexivity|done].
Defined.
End CounterMain.
