(* ===== verification/VectorMain.v ===== *)
(** * The command line and main of 32_ConcurrencyBugs

    main-common.c reads its options with [getopt(argc, argv, "l:n:vtdp")], starts
    the threads of Vectors.v, joins them, and calls [fini]. The options are parsed
    as GNU getopt does: several letters may share one word, the argument of -l and
    -n is the rest of the word or the next word, words that are no options are
    skipped, "--" ends the options, and an unknown letter or a missing argument
    prints the usage. What -v and -t print is in VectorVerbose.v. *)

From S2P Require Import Prelude Threads Spawn Vectors FilePrograms.
Import FilePrograms.Libc.

(** main-header.h: the globals and their initial values. *)
Record options := mk_options {
  loops : Z; verbose : bool; num_threads : Z; do_timing : bool; cause_deadlock : bool; enable_parallelism : bool }.

#[export] Instance options_eq : EqDecision options.
Proof. solve_decision. Defined.

Definition defaults : options := mk_options 1 false 2 false false false.

Definition c_l : Z := 108.
Definition c_n : Z := 110.
Definition c_v : Z := 118.
Definition c_t : Z := 116.
Definition c_d : Z := 100.
Definition c_p : Z := 112.
Definition c_dash : Z := 45.

(** The end of the parsing: options, the usage message with exit code 1, or an
    [atoi] that is undefined. *)
Inductive parsed := Options (o : options) | Usage | BadNumber.

(** What is left of a word: its letters are used up, or one of them needs the
    next word. *)
Inductive word_end := WEnd (o : options) | WNeeds (is_l : bool) (o : options) | WUsage | WBad.

(** [loops = v] or [num_threads = v]. *)
Definition with_number (is_l : bool) (v : Z) (o : options) : options :=
  if is_l then mk_options v (verbose o) (num_threads o) (do_timing o) (cause_deadlock o) (enable_parallelism o)
  else mk_options (loops o) (verbose o) v (do_timing o) (cause_deadlock o) (enable_parallelism o).

(** [loops = atoi(optarg)] or [num_threads = atoi(optarg)]. *)
Definition set_number (is_l : bool) (arg : list Z) (o : options) : option options :=
  v ← atoi arg; Some (with_number is_l v o).

(** The switch, for the letters of one word after its dash. *)
Fixpoint getopt_word (cs : list Z) (o : options) : word_end :=
  match cs with
  | [] => WEnd o
  | c :: cs =>
      if (c =? c_l) || (c =? c_n) then
        if bool_decide (cs = []) then WNeeds (c =? c_l) o
        else match set_number (c =? c_l) cs o with Some o => WEnd o | None => WBad end
      else if c =? c_v then
        getopt_word cs (mk_options (loops o) true (num_threads o) (do_timing o) (cause_deadlock o) (enable_parallelism o))
      else if c =? c_t then
        getopt_word cs (mk_options (loops o) (verbose o) (num_threads o) true (cause_deadlock o) (enable_parallelism o))
      else if c =? c_d then
        getopt_word cs (mk_options (loops o) (verbose o) (num_threads o) (do_timing o) true (enable_parallelism o))
      else if c =? c_p then
        getopt_word cs (mk_options (loops o) (verbose o) (num_threads o) (do_timing o) (cause_deadlock o) true)
      else WUsage
  end.

(** The loop over the words of [argv] after the program's name. *)
Fixpoint parse (ws : list (list Z)) (o : options) : parsed :=
  match ws with
  | [] => Options o
  | w :: ws =>
      match w with
      | d :: ((_ :: _) as cs) =>
          if negb (d =? c_dash) then parse ws o
          else if bool_decide (cs = [c_dash]) then Options o
          else
            match getopt_word cs o with
            | WEnd o => parse ws o
            | WNeeds is_l o =>
                match ws with
                | [] => Usage
                | arg :: ws => match set_number is_l arg o with Some o => parse ws o | None => BadNumber end
                end
            | WUsage => Usage
            | WBad => BadNumber
            end
      | _ => parse ws o
      end
  end.

(** ** Writing options *)

(** Decimal notation. *)
Fixpoint decimal_rev (fuel : nat) (n : Z) : list Z :=
  match fuel with
  | O => []
  | S fuel => if n <? 10 then [48 + n] else (48 + n mod 10) :: decimal_rev fuel (n / 10)
  end.
Definition decimal (n : Z) : list Z := rev (decimal_rev (S (Z.to_nat n)) n).

Definition flag (b : bool) (c : Z) : list (list Z) := if b then [[c_dash; c]] else [].

(** A command line for the options: each number in a word of its own. *)
Definition render (o : options) : list (list Z) :=
  [[c_dash; c_l]; decimal (loops o); [c_dash; c_n]; decimal (num_threads o)] ++
  flag (verbose o) c_v ++ flag (do_timing o) c_t ++ flag (cause_deadlock o) c_d ++ flag (enable_parallelism o) c_p.

Lemma num_snoc ds c : num (ds ++ [c]) = num ds * 10 + (c - 48).
Proof. unfold num. by rewrite foldl_app. Qed.

Lemma decimal_rev_spec fuel n :
  0 <= n < Z.of_nat fuel ->
  num (rev (decimal_rev fuel n)) = n /\ Forall (fun c => isdigit c = true) (rev (decimal_rev fuel n)) /\
  decimal_rev fuel n <> [].
Proof.
  revert n. induction fuel as [|fuel IH]; intros n Hn; [lia|]. cbn [decimal_rev].
  destruct (Z.ltb_spec n 10) as [Hs|Hs].
  - split_and!; [unfold num; simpl; lia| |done]. repeat constructor. unfold isdigit.
    destruct (Z.leb_spec 48 (48 + n)), (Z.leb_spec (48 + n) 57); lia.
  - destruct (IH (n / 10)) as (H1 & H2 & H3); [modlia|]. cbn [rev]. rewrite num_snoc, H1.
    split_and!; [modlia| |done]. apply Forall_app. split; [done|]. repeat constructor. unfold isdigit.
    assert (0 <= n mod 10 < 10) by (apply Z.mod_pos_bound; lia).
    destruct (Z.leb_spec 48 (48 + n mod 10)), (Z.leb_spec (48 + n mod 10) 57); lia.
Qed.

(** [atoi] reads what [decimal] writes. *)
Lemma atoi_decimal n : 0 <= n <= INT_MAX -> atoi (decimal n) = Some n.
Proof.
  intros Hn. destruct (decimal_rev_spec (S (Z.to_nat n)) n) as (H1 & H2 & H3); [lia|]. unfold decimal.
  rewrite atoi_numeral; [by rewrite H1| |done|by rewrite H1; lia].
  intros E. apply H3. rewrite <- (rev_involutive (decimal_rev _ _)), E. done.
Qed.

Lemma parse_number (is_l : bool) v ws o :
  0 <= v <= INT_MAX ->
  parse ([c_dash; if is_l then c_l else c_n] :: decimal v :: ws) o = parse ws (with_number is_l v o).
Proof.
  intros Hv. destruct is_l; cbn -[atoi decimal with_number]; unfold set_number; rewrite atoi_decimal by done; done.
Qed.

(** C17. Round trip: the options that [render] writes are the ones main reads. *)
Theorem options_roundtrip o :
  0 <= loops o <= INT_MAX -> 0 <= num_threads o <= INT_MAX -> parse (render o) defaults = Options o.
Proof.
  intros Hl Hn. unfold render. cbn [app]. rewrite (parse_number true), (parse_number false) by done.
  destruct o as [l [] n [] [] []]; reflexivity.
Qed.

Lemma options_roundtrip_witness :
  parse [[45; 108]; [49; 48]; [45; 110]; [52]; [45; 100]] defaults = Options (mk_options 10 false 4 false true false).
Proof. apply (options_roundtrip (mk_options 10 false 4 false true false)); vm_compute; split; discriminate. Defined.

(** ** The program *)

(** How a command line is answered. *)
Inductive program (A : Type) := Exits (code : Z) | Aborts | Undefined | Runs (start : A).
Arguments Exits {A} _.
Arguments Aborts {A}.
Arguments Undefined {A}.
Arguments Runs {A} _.

(** The loops of main do nothing for negative numbers. *)
Definition opts_of (o : options) : v_opts :=
  mk_opts (Z.to_nat (loops o)) (Z.to_nat (num_threads o)) (cause_deadlock o) (enable_parallelism o).

Definition state : Type := main_pc v_state * (v_state * list v_thread).

Definition main (vector_add : nat -> nat -> list vop) (argv : list (list Z)) : program (options * state) :=
  match parse (tail argv) defaults with
  | Usage => Exits 1
  | BadNumber => Undefined
  | Options o =>
      if num_threads o <? Z.of_nat MAX_THREADS then Runs (o, (MCreate 0, v_main vector_add (opts_of o))) else Aborts
  end.

(** main and its threads; the report is the memory when main returns. *)
Definition step (o : options) : state -> state -> Prop :=
  spawn_step v_step v_finished id (Z.to_nat (num_threads o)).

Lemma finished_stops s t : v_finished t = true -> v_step s t = None.
Proof. unfold v_finished, v_step. by destruct (vt_ops t). Qed.

Lemma main_runs vector_add argv o p :
  main vector_add argv = Runs (o, p) ->
  parse (tail argv) defaults = Options o /\ p = (MCreate 0, v_main vector_add (opts_of o)) /\
  length (v_main vector_add (opts_of o)).2 = Z.to_nat (num_threads o).
Proof.
  unfold main. intros Hm. destruct (parse (tail argv) defaults) as [o'| |]; simplify_eq.
  destruct (num_threads o' <? Z.of_nat MAX_THREADS); simplify_eq. split_and!; [done|done|].
  simpl. by rewrite length_fmap, length_seq.
Qed.

(** Once all unfinished threads wait for each other, main never returns. *)
Lemma deadlocked_stays o (p q : state) : deadlocked p.2 -> rtc (step o) p q -> q.2 = p.2.
Proof.
  intros Hd Hr. induction Hr as [|p p1 q Hs Hr IH]; [done|].
  assert (Hp1 : p1.2 = p.2).
  { destruct Hs as [m i s ls t s' t' Hc Hi Ht|m m' c Hm]; [|done]. exfalso. destruct Hd as [_ Hd]. simpl in Hd.
    destruct (v_finished t) eqn:Hf; [by rewrite finished_stops in Ht|].
    destruct (Hd i t Hi Hf) as (l & Hw & Hl). unfold v_wants in Hw. unfold v_step in Ht. unfold v_taken in Hl.
    destruct (vt_ops t) as [|[] ops]; simplify_eq. destruct (lock_of s l) as [[]|]; done. }
  rewrite IH; [done|]. by rewrite Hp1.
Qed.

Lemma deadlocked_hangs vector_add o (p q : state) :
  length (v_main vector_add (opts_of o)).2 = Z.to_nat (num_threads o) ->
  rtc (step o) (MCreate 0, v_main vector_add (opts_of o)) p -> deadlocked p.2 -> rtc (step o) p q ->
  forall r, q.1 <> MReturned r.
Proof.
  intros Hlen Hp Hd Hq r Hr. pose proof (deadlocked_stays o p q Hd Hq) as Hsame.
  assert (Hall : rtc (step o) (MCreate 0, v_main vector_add (opts_of o)) q) by (by etrans).
  destruct q as [m [s ls]]. simpl in Hr, Hsame. subst m. unfold step in Hall. rewrite <- Hlen in Hall.
  destruct (v_main vector_add (opts_of o)) as [s0 ls0].
  destruct (spawn_report _ _ _ finished_stops _ _ _ _ _ Hall) as (_ & Hfin & _).
  destruct Hd as [(i & t & Hi & Ht) _]. rewrite <- Hsame in Hi. specialize (Hfin i t Hi). congruence.
Qed.

Lemma program_reaches vector_add o c :
  rtc (sys_step v_step) (v_main vector_add (opts_of o)) c ->
  exists m, rtc (step o) (MCreate 0, v_main vector_add (opts_of o)) (m, c).
Proof.
  intros Hc. exists (MJoin 0). etrans; [apply spawn_create_all; lia|]. by apply spawn_lift.
Qed.

(** vector-deadlock.c from its command line: it can reach a state in which its
    threads wait for each other, and then main never returns, if and only if it
    is given -d and not -p, and at least two threads and one loop. *)
Theorem vector_deadlock_command_line argv o start :
  main vector_add_deadlock argv = Runs (o, start) ->
  ((exists p, rtc (step o) start p /\ deadlocked p.2) <->
   cause_deadlock o = true /\ enable_parallelism o = false /\ 2 <= num_threads o /\ 1 <= loops o) /\
  (forall p q r, rtc (step o) start p -> deadlocked p.2 -> rtc (step o) p q -> q.1 <> MReturned r).
Proof.
  intros (_ & -> & Hlen)%main_runs. split.
  - transitivity (exists c, rtc (sys_step v_step) (v_main vector_add_deadlock (opts_of o)) c /\ deadlocked c).
    + split; [intros (p & Hp & Hd); exists p.2; split; [by apply (spawn_threads _ _ _ _ _ _ Hp)|done]|].
      intros (c & Hc & Hd). destruct (program_reaches _ _ _ Hc) as [m Hm]. by exists (m, c).
    + rewrite vector_deadlock_iff. unfold opts_of; simpl. intuition lia.
  - intros p q r Hp Hd Hq. by eapply deadlocked_hangs.
Qed.

Lemma vector_deadlock_command_line_witness :
  exists o start, main vector_add_deadlock [[]; [45; 100]] = Runs (o, start) /\
    exists p, rtc (step o) start p /\ deadlocked p.2.
Proof.
  eexists _, _. split; [reflexivity|].
  apply (proj2 (proj1 (vector_deadlock_command_line [[]; [45; 100]] _ _ eq_refl))). simpl. repeat split; lia.
Defined.

(** vector-global-order.c has no such state, whatever its options. *)
Theorem vector_global_order_command_line argv o start p :
  main vector_add_global_order argv = Runs (o, start) -> rtc (step o) start p -> ~ deadlocked p.2.
Proof.
  intros (_ & -> & _)%main_runs Hp. apply spawn_threads in Hp. cbn [snd] in Hp.
  set (calls := (fun i => replicate (o_loops (opts_of o)) (worker_pair (main_args (opts_of o) i))) <$> seq 0 (o_threads (opts_of o))).
  assert (E : v_main vector_add_global_order (opts_of o) =
    (v_init, (fun cs => mk_vt (caller vector_add_global_order cs) [] 0) <$> calls)).
  { rewrite main_threads. f_equal. unfold calls. rewrite <- !list_fmap_compose. apply list_fmap_ext. intros _ i _. simpl.
    f_equal. destruct (worker_pair (main_args (opts_of o) i)) as [v0 v1]. unfold caller.
    generalize (Z.to_nat (loops o)). intros n. induction n as [|n IH]; [done|]. cbn [replicate concat mbind list_bind]. by rewrite IH. }
  rewrite E in Hp. by apply (global_order_no_deadlock v_init calls p.2 v_init_free).
Qed.

Lemma vector_global_order_command_line_witness :
  ~ deadlocked (v_main vector_add_global_order (opts_of (mk_options 1 false 2 false true false))).
Proof.
  exact (vector_global_order_command_line [[]; [45; 100]] (mk_options 1 false 2 false true false)
    (MCreate 0, v_main vector_add_global_order (opts_of (mk_options 1 false 2 false true false)))
    (MCreate 0, v_main vector_add_global_order (opts_of (mk_options 1 false 2 false true false))) eq_refl ltac:(done)).
Defined.

(** vector-nolock.c without -d and -p ends from every state it reaches, and then
    every element of vector 0 is threads times loops, as an [int]. *)
Theorem vector_nolock_command_line argv o start :
  main vector_add_nolock argv = Runs (o, start) -> cause_deadlock o = false -> enable_parallelism o = false ->
  (forall s c, rtc (step o) start (MReturned s, c) -> forall j, (j < VECTOR_SIZE)%nat ->
     load s 0 j = Some (swrap 32 (Z.of_nat (Z.to_nat (num_threads o) * Z.to_nat (loops o))))) /\
  (forall p, rtc (step o) start p -> exists s c, rtc (step o) p (MReturned s, c)).
Proof.
  intros (_ & -> & Hlen)%main_runs Hd Hp. unfold step. rewrite <- Hlen.
  assert (Hex : forall c, rtc (sys_step v_step) (v_main vector_add_nolock (opts_of o)) c -> _)
    by (intros c Hc; exact (nolock_exact (opts_of o) c Hd Hp Hc)).
  destruct (v_main vector_add_nolock (opts_of o)) as [s0 ls0] eqn:E0. cbn [snd] in *. split.
  - intros s [s1 ls] Hr j Hj. destruct (spawn_report _ _ _ finished_stops _ _ _ _ _ Hr) as (-> & Hall & Hreach).
    destruct (Hex _ Hreach) as (_ & Hv & _). rewrite Hlen. change (id s1) with s1. by apply Hv.
  - intros p Hr. destruct (spawn_finishes v_step v_finished id finished_stops s0 ls0 p) as (s & ls & H); [|done|by eexists _, _].
    intros c Hc. by destruct (Hex c Hc) as (_ & _ & Hf).
Qed.

Lemma vector_nolock_command_line_witness :
  exists o start, main vector_add_nolock [[]] = Runs (o, start) /\ exists s c, rtc (step o) start (MReturned s, c).
Proof.
  eexists _, _. split; [reflexivity|].
  apply (proj2 (vector_nolock_command_line [[]] _ _ eq_refl eq_refl eq_refl)). done.
Defined.
