(* ===== verification/PacketMain.v ===== *)
(** * packet_proc.c: the file, the mappings and the clean-up

    [create_packet_file] and the parts of main around the two loops of
    PacketProc.v. The answers of the system calls are arguments. The theorems:
    no run of the program as written reaches the loops with defined
    behaviour: the file's records are written with an undefined shift and past
    their data, and every early exit cleans up variables that were never set; and
    when the child fails before its loop, the parent never ends. *)

From S2P Require Import Prelude Threads PacketProc FilePrograms.

(** What the two [open]s, [malloc], the three [mmap]s and [fork] answer, and in
    the child [fstat] and the [mmap] of the file; [write]'s return values. *)
Inductive open_result := Opened (fd : Z) | NotFound | OpenError.
Record calls := mk_calls {
  first_open : open_result; create_open : option Z; malloc_ok : bool; writes : list Z;
  map_packets : bool; map_ready : bool; map_free : bool; fork_ok : bool; fstat_ok : bool; map_file : bool }.

(** The size of the packed record: a [uint32_t] and 6 bytes. *)
Definition SIZEOF_PAYLOAD : Z := 4 + MAX_PAYLOAD_DATA_SIZE / 8.

Definition PAYLOAD_HEADER_SIZE : Z := 16.

Definition write_records (env : calls) (fd : Z) (recs : list (list Z)) : outcome Z :=
  match mapM create_record recs with
  | None => Undef
  | Some _ =>
      let buffer_size := SIZEOF_PAYLOAD * EXPECTED_PACKET_COUNT in
      match write_loop SIZEOF_PAYLOAD buffer_size (writes env) 0 with
      | None => Undef
      | Some total => if total <? buffer_size then NoFuel else Ret fd
      end
  end.

(** The descriptor, or -1. [recs] is the uninitialised memory of the
    EXPECTED_PACKET_COUNT records. *)
Definition create_packet_file (env : calls) (recs : list (list Z)) : outcome Z :=
  let after_open fd := if malloc_ok env then write_records env fd recs else Ret (-1) in
  match first_open env with
  | Opened fd => after_open fd
  | NotFound => match create_open env with Some fd => after_open fd | None => Ret (-1) end
  | OpenError => Ret (-1)
  end.

(** The macro PAYLOAD_SIZE has no parentheses, so [PAYLOAD_SIZE * BUFFER_SIZE] is
    16 + (48 * 128). [SIZEOF_PACKET] is the size of [packet_t] with its padding. *)
Definition packet_buf_size : Z := PAYLOAD_HEADER_SIZE + MAX_PAYLOAD_DATA_SIZE * BUFFER_SIZE.
Definition SIZEOF_PACKET : Z := 24.

(** A pointer of main: not yet assigned, the mapping, or MAP_FAILED. *)
Inductive mapping := Unset | Mapped | MapFailed.

(** [cleanup]: comparing an unset pointer is undefined; then 0 is returned. *)
Definition cleanup (packet_buf ready_ring free_ring : mapping) : outcome (option Z) :=
  match packet_buf, ready_ring, free_ring with
  | Unset, _, _ | _, Unset, _ | _, _, Unset => Undef
  | _, _, _ => Ret (Some 0)
  end.

(** main up to the two loops ([Ret None]) or to its exit code. *)
Definition main (env : calls) (recs : list (list Z)) : outcome (option Z) :=
  match create_packet_file env recs with
  | Undef => Undef
  | NoFuel => NoFuel
  | Ret fd =>
      if fd =? -1 then cleanup Unset Unset Unset
      else if negb (map_packets env) then cleanup MapFailed Unset Unset
      else if negb (map_ready env) then cleanup Mapped MapFailed Unset
      else if negb (map_free env) then cleanup Mapped Mapped MapFailed
      else if negb (fork_ok env) then Ret (Some 1)
      else Ret None
  end.

(** The child before its loop: [Some code] when it exits. *)
Definition child_setup (env : calls) : option Z :=
  if negb (fstat_ok env) then Some 1 else if negb (map_file env) then Some 1 else None.

(** The two processes after the fork. *)
Definition processes (env : calls) : list pp_proc :=
  match child_setup env with
  | Some _ => [Consumer Pk_empty 0 0]
  | None => [Producer Pk_empty 0; Consumer Pk_empty 0 0]
  end.

(** The parent after its loop: whether it prints the checksums, and its exit
    code. [waitpid] answers the child's pid, or -1. *)
Definition parent_end (waitpid : Z) (expected checksum : Z) : option (Z * Z) * outcome (option Z) :=
  ((if waitpid =? 0 then None else Some (expected, checksum)), cleanup Mapped Mapped Mapped).

(** No record can be written as the loop is written. *)
Lemma write_records_undefined env fd recs :
  recs <> [] -> Forall (fun d => length d = 6%nat) recs -> write_records env fd recs = Undef.
Proof.
  intros Hne Hl. unfold write_records. destruct recs as [|d recs]; [done|]. inversion_clear Hl as [|? ? Hd _].
  change (mapM create_record (d :: recs)) with (y ← create_record d; k ← mapM create_record recs; mret (y :: k)).
  by rewrite create_record_undefined.
Qed.

(** C39. Whatever the system calls answer, main runs into undefined behaviour before
    its loops: in [create_packet_file], or, when that fails, in [cleanup], which
    looks at three pointers that have no value yet. *)
Theorem packet_main_undefined env recs :
  recs <> [] -> Forall (fun d => length d = 6%nat) recs -> main env recs = Undef.
Proof.
  intros Hne Hl. unfold main, create_packet_file.
  destruct (first_open env) as [fd| |]; [|destruct (create_open env) as [fd|]|];
    try destruct (malloc_ok env); try (by rewrite write_records_undefined); done.
Qed.

Lemma packet_main_undefined_witness :
  main (mk_calls NotFound (Some 3) true [] true true true true true true) (repeat [0; 0; 0; 0; 0; 0] 2) = Undef.
Proof.
  apply packet_main_undefined; [done|by repeat constructor].
Defined.

(** The buffer is smaller than 64 bytes per packet, as the constants intend, and
    still holds all packets. *)
Theorem packet_buf_large_enough :
  SIZEOF_PACKET * BUFFER_SIZE <= packet_buf_size < (PAYLOAD_HEADER_SIZE + MAX_PAYLOAD_DATA_SIZE) * BUFFER_SIZE.
Proof. by vm_compute. Qed.

(** When the child exits before its loop the parent waits for packets for ever:
    it has seen none, and no step is left. *)
Theorem packet_child_failure_hangs env clock file c :
  child_setup env <> None ->
  rtc (sys_step (pp_step clock file EXPECTED_PACKET_COUNT)) (pp_main.1, processes env) c ->
  c = (pp_main.1, [Consumer Pk_empty 0 0]).
Proof.
  intros Hc Hr. unfold processes in Hr. destruct (child_setup env); [clear Hc|done].
  remember (pp_main.1, [Consumer Pk_empty 0 0]) as c0 eqn:E0. induction Hr as [|c0 c1 c2 Hs Hr IH]; [done|].
  exfalso. subst c0. inversion Hs as [i s ls l s' l' Hi Ht]; subst. destruct i as [|[]]; simplify_eq/=.
Qed.

Lemma packet_child_failure_hangs_witness :
  (pp_main.1, [Consumer Pk_empty 0 0]) = (pp_main.1, [Consumer Pk_empty 0 0]).
Proof.
  apply (packet_child_failure_hangs (mk_calls (Opened 3) None true [] true true true true false true) id []);
    [discriminate|done].
Defined.
