(* ===== verification/Listing.v ===== *)
(** * Listing directories and printing file attributes

    - [Myls]: 39_FilesAndDirectories/myls.c, the names of a directory, with
      owner, group and mode under -l;
    - [Stat]: 39_FilesAndDirectories/stat.c, four attributes of one file.

    What [opendir]/[readdir] and [stat] answer are arguments: the names of a
    directory in the order of [readdir], and the attributes of a name, looked up
    from the current directory. A [stat] that fails leaves its buffer alone. *)

From S2P Require Import Prelude FilePrograms.

(** The fields of [struct stat] that the two programs print. *)
Record struct_stat := mk_stat {
  st_uid : Z; st_gid : Z; st_mode : Z; st_ino : Z; st_size : Z; st_blksize : Z; st_blocks : Z }.

#[export] Instance struct_stat_eq : EqDecision struct_stat.
Proof. solve_decision. Defined.

(** [struct stat sb = {0}]. *)
Definition zero_stat : struct_stat := mk_stat 0 0 0 0 0 0 0.

(** ** myls.c *)
Module Myls.

Definition c_dash : Z := 45.
Definition c_l : Z := 108.
Definition DOT : list Z := [46].

(** [getopt(argc, argv, "l")] over the words after the program's name: whether
    -l was seen, and the naked arguments, which getopt moves to the end. Other
    letters are reported and skipped. *)
Fixpoint options (ws : list (list Z)) : bool * list (list Z) :=
  match ws with
  | [] => (false, [])
  | w :: ws =>
      match w with
      | d :: ((_ :: _) as cs) =>
          if negb (d =? c_dash) then let '(l, naked) := options ws in (l, w :: naked)
          else if bool_decide (cs = [c_dash]) then (false, ws)
          else let '(l, naked) := options ws in (bool_decide (c_l ∈ cs) || l, naked)
      | _ => let '(l, naked) := options ws in (l, w :: naked)
      end
  end.

Inductive line := Long (uid gid mode : Z) (name : list Z) | Short (name : list Z) | Newline.

(** The loop over the entries; [verbose] is [None] when it was never assigned,
    and reading it is then undefined. *)
Fixpoint entries (stat : list Z -> option struct_stat) (verbose : option bool)
    (names : list (list Z)) (sb : struct_stat) (out : list line) : outcome (list line) :=
  match names with
  | [] => Ret out
  | name :: names =>
      match verbose with
      | None => Undef
      | Some true =>
          let sb := default sb (stat name) in
          entries stat verbose names sb (out ++ [Long (st_uid sb) (st_gid sb) (st_mode sb) name])
      | Some false => entries stat verbose names sb (out ++ [Short name])
      end
  end.

(** [readdir(NULL)] is undefined. *)
Definition main (opendir : list Z -> option (list (list Z))) (stat : list Z -> option struct_stat)
    (argv : list (list Z)) : outcome (Z * list line) :=
  let '(l, naked) := options (tail argv) in
  let verbose := if l then Some true else None in
  let filename := default DOT (head naked) in
  match opendir filename with
  | None => Undef
  | Some names =>
      match entries stat verbose names zero_stat [] with
      | Ret out => Ret (0, out ++ [Newline])
      | Undef => Undef
      | NoFuel => NoFuel
      end
  end.

(** The attributes printed with a name, when [seen] are the names up to and with
    it: those of the last of them for which [stat] succeeded. *)
Definition last_known (stat : list Z -> option struct_stat) (sb : struct_stat) (seen : list (list Z)) : struct_stat :=
  default sb (last (omap stat seen)).

Definition long_line (sb : struct_stat) (name : list Z) : line := Long (st_uid sb) (st_gid sb) (st_mode sb) name.

Definition listing (stat : list Z -> option struct_stat) (sb : struct_stat) (names : list (list Z)) : list line :=
  imap (fun i name => long_line (last_known stat sb (take (S i) names)) name) names.

Lemma last_known_cons stat sb name seen :
  last_known stat sb (name :: seen) = last_known stat (default sb (stat name)) seen.
Proof.
  unfold last_known. csimpl. destruct (stat name) as [a|]; [|done]. simpl.
  destruct (omap stat seen) as [|b l]; [done|]. rewrite last_cons_cons.
  destruct (last (b :: l)) eqn:El; [done|]. by apply last_None in El.
Qed.

Lemma listing_cons stat sb name names :
  listing stat sb (name :: names) =
  long_line (default sb (stat name)) name :: listing stat (default sb (stat name)) names.
Proof.
  unfold listing. rewrite imap_cons. f_equal.
  - change (take 1 (name :: names)) with [name]. by rewrite last_known_cons.
  - apply imap_ext. intros i n _. unfold compose. cbn [take]. by rewrite last_known_cons.
Qed.

Lemma entries_long stat names sb out :
  entries stat (Some true) names sb out = Ret (out ++ listing stat sb names).
Proof.
  revert sb out. induction names as [|name names IH]; intros sb out; [by rewrite app_nil_r|].
  rewrite listing_cons. cbn [entries]. rewrite IH. by rewrite <- app_assoc.
Qed.

(** myls on every command line and every directory. With -l it prints, in the
    order of [readdir], each name with the attributes of the last name so far
    that [stat] found in the current directory; without -l, listing a directory
    that has an entry (and every directory has) reads a variable that was never
    set; and a directory that cannot be opened is read all the same. *)
Theorem myls_lists opendir stat argv :
  main opendir stat argv =
  match opendir (default DOT (head (options (tail argv)).2)) with
  | None => Undef
  | Some names =>
      if (options (tail argv)).1 then Ret (0, listing stat zero_stat names ++ [Newline])
      else if bool_decide (names = []) then Ret (0, [Newline]) else Undef
  end.
Proof.
  unfold main. destruct (options (tail argv)) as [l naked]. cbn [fst snd].
  destruct (opendir _) as [names|]; [|done]. destruct l; [by rewrite entries_long|].
  destruct names as [|name names]; [done|]. by rewrite bool_decide_eq_false_2.
Qed.

(** When every name has its attributes in the current directory, as for "."
    itself, each line carries the name's own. *)
Theorem myls_own_attributes opendir stat prog names :
  opendir DOT = Some names -> (forall name, name ∈ names -> is_Some (stat name)) ->
  main opendir stat [prog; [c_dash; c_l]] =
  Ret (0, map (fun name => long_line (default zero_stat (stat name)) name) names ++ [Newline]).
Proof.
  intros Ho Hs. rewrite myls_lists. change (default DOT _) with DOT. rewrite Ho.
  change ((options (tail [prog; [c_dash; c_l]])).1) with true. cbn iota. do 3 f_equal.
  clear Ho. generalize zero_stat at 1 as sb. induction names as [|name names IH]; intros sb; [done|].
  rewrite listing_cons, IH by (intros n Hn; apply Hs; by right). cbn [map]. do 2 f_equal.
  destruct (Hs name) as [a ->]; [by left|done].
Qed.

(** In another directory a name that the current one does not have gets the
    attributes of the entry before it. *)
Example myls_wrong_attributes :
  main (fun d => if bool_decide (d = [100]) then Some [[97]; [98]] else None)
       (fun n => if bool_decide (n = [97]) then Some (mk_stat 1 2 3 0 0 0 0) else None)
       [[]; [c_dash; c_l]; [100]] =
  Ret (0, [Long 1 2 3 [97]; Long 1 2 3 [98]; Newline]).
Proof. reflexivity. Qed.
End Myls.

(** ** stat.c *)
Module Stat.

(** The exit code and what is printed on the standard output. *)
Definition main (stat : list Z -> option struct_stat) (argv : list (list Z)) : Z * option (Z * Z * Z * Z) :=
  match argv with
  | [_; filename] =>
      let sb := default zero_stat (stat filename) in
      (0, Some (st_ino sb, st_size sb, st_blksize sb, st_blocks sb))
  | _ => (1, None)
  end.

(** The exit code tells how many arguments there were, not whether [stat]
    succeeded; for a missing file four zeros are printed. *)
Theorem stat_exit_code stat argv :
  ((main stat argv).1 = 0 <-> length argv = 2%nat) /\
  (forall prog filename, stat filename = None -> main stat [prog; filename] = (0, Some (0, 0, 0, 0))) /\
  (forall prog filename sb, stat filename = Some sb ->
     main stat [prog; filename] = (0, Some (st_ino sb, st_size sb, st_blksize sb, st_blocks sb))).
Proof.
  split_and!.
  - destruct argv as [|? [|? [|]]]; simpl; split; done || lia.
  - intros prog filename H. unfold main. by rewrite H.
  - intros prog filename sb H. unfold main. by rewrite H.
Qed.
End Stat.
