(* ===== verification/Paging.v ===== *)
(** * Programs that measure the memory system

    - [Tlb]: 19_TLBs/tlb.c, the time of one access per page;
    - [MemTouch]: 21_SwappingMechanisms/mem.c, which increments every integer of
      a large array, forever.

    Here is the memory they touch; the times they print are in Timing.v. *)

From S2P Require Import Prelude FilePrograms.
Import FilePrograms.Libc.

(** ** tlb.c *)
Module Tlb.

Definition NS_PER_SECOND : Z := 1000000000.

Record timespec := Timespec { tv_sec : Z; tv_nsec : Z }.

Definition sub_timespec (t1 t2 : timespec) : option timespec :=
  nsec ← chk_s 64 (tv_nsec t2 - tv_nsec t1);
  sec ← chk_s 64 (tv_sec t2 - tv_sec t1);
  if (0 <? sec) && (nsec <? 0) then
    nsec ← chk_s 64 (nsec + NS_PER_SECOND); sec ← chk_s 64 (sec - 1); Some (Timespec sec nsec)
  else if (sec <? 0) && (0 <? nsec) then
    nsec ← chk_s 64 (nsec - NS_PER_SECOND); sec ← chk_s 64 (sec + 1); Some (Timespec sec nsec)
  else Some (Timespec sec nsec).

(** A time in nanoseconds. *)
Definition total (t : timespec) : Z := tv_sec t * NS_PER_SECOND + tv_nsec t.

(** A clock's reading. *)
Definition normal (t : timespec) : Prop := 0 <= tv_nsec t < NS_PER_SECOND /\ 0 <= tv_sec t < 2 ^ 62.

(** The difference of two clock readings is exact, its nanoseconds are below a
    second, and its two fields never have opposite signs; nothing overflows. *)
Theorem sub_timespec_exact t1 t2 :
  normal t1 -> normal t2 ->
  exists td, sub_timespec t1 t2 = Some td /\ total td = total t2 - total t1 /\
    Z.abs (tv_nsec td) < NS_PER_SECOND /\ 0 <= tv_sec td * tv_nsec td.
Proof.
  destruct t1 as [s1 n1], t2 as [s2 n2]. unfold normal, sub_timespec, total, NS_PER_SECOND; simpl. intros H1 H2.
  rewrite !chk_s_ok by (unfold in_s; lia). simpl.
  destruct (Z.ltb_spec 0 (s2 - s1)), (Z.ltb_spec (n2 - n1) 0), (Z.ltb_spec (s2 - s1) 0), (Z.ltb_spec 0 (n2 - n1));
    simpl; try lia; rewrite ?chk_s_ok by (unfold in_s; lia); simpl; eexists; (split; [reflexivity|]); simpl; split_and!;
    try lia; nia.
Qed.

Lemma sub_timespec_exact_witness :
  exists td, sub_timespec (Timespec 7 900000000) (Timespec 9 100000000) = Some td /\ total td = 1200000000.
Proof.
  destruct (sub_timespec_exact (Timespec 7 900000000) (Timespec 9 100000000)) as (td & H1 & H2 & _);
    [unfold normal, NS_PER_SECOND; simpl; lia..|]. by exists td.
Defined.

(** The measured loop: [dummy_sum] and the indices of [a] it reads, in order. *)
Fixpoint inner (fuel : nat) (num_pages jump : Z) (a : list Z) (j dummy_sum : Z) (trace : list Z) : outcome (Z * list Z) :=
  match fuel with
  | O => NoFuel
  | S fuel =>
      if j <? num_pages then
        match v ← arr_get a j; s ← chk_s 32 (dummy_sum + v); j' ← chk_s 32 (j + jump); Some (s, j') with
        | Some (s, j') => inner fuel num_pages jump a j' s (trace ++ [j])
        | None => Undef
        end
      else Ret (dummy_sum, trace)
  end.

Fixpoint trails (fuel n : nat) (num_pages jump : Z) (a : list Z) (dummy_sum : Z) (trace : list Z) : outcome (Z * list Z) :=
  match n with
  | O => Ret (dummy_sum, trace)
  | S n =>
      match inner fuel num_pages jump a 0 dummy_sum trace with
      | Ret (s, tr) => trails fuel n num_pages jump a s tr
      | Undef => Undef
      | NoFuel => NoFuel
      end
  end.

Definition SIZEOF_INT : Z := 4.

(** main on its arguments, argv[0] first, with [mem n] the [n] bytes' worth of
    integers that [malloc] returns. A missing argument is a null pointer that
    [atoi] reads; the check is for [argc < 1]. The result is [None] for the
    early return, and the sum and the accesses otherwise. *)
Definition main (fuel : nat) (page_size : Z) (argv : list (list Z)) (mem : Z -> list Z) : outcome (option (Z * list Z)) :=
  let jump := page_size / SIZEOF_INT in
  match argv with
  | [] => Ret None
  | _ :: a1 :: a2 :: _ =>
      match num_pages ← atoi a1; num_trails ← atoi a2; bytes ← chk_s 32 (num_pages * jump);
            Some (num_pages, num_trails, bytes) with
      | None => Undef
      | Some (num_pages, num_trails, bytes) =>
          match trails fuel (Z.to_nat num_trails) num_pages jump (mem bytes) 0 [] with
          | Ret r => Ret (Some r)
          | Undef => Undef
          | NoFuel => NoFuel
          end
      end
  | _ => Undef
  end.

(** The indices one pass reads. *)
Definition stride (num_pages jump : Z) : list Z :=
  map (fun k => Z.of_nat k * jump) (seq 0 (Z.to_nat ((num_pages + jump - 1) / jump))).

Lemma stride_count num_pages jump k :
  0 < jump -> (Z.of_nat k * jump < num_pages <-> (k < Z.to_nat ((num_pages + jump - 1) / jump))%nat).
Proof.
  intros Hj. pose proof (Z.div_mod (num_pages + jump - 1) jump ltac:(lia)) as Hd.
  pose proof (Z.mod_pos_bound (num_pages + jump - 1) jump Hj) as Hm.
  set (q := (num_pages + jump - 1) / jump) in *. split; intros Hk.
  - assert (Z.of_nat k < q) by nia. lia.
  - assert (Z.of_nat k < q) by lia. nia.
Qed.

Section pass.
Context (num_pages jump : Z) (a : list Z).
Hypothesis jump_pos : 0 < jump.
Hypothesis fits : num_pages + jump < 2 ^ 31.
Hypothesis zeros : Forall (fun v => v = 0) a.
Hypothesis long_enough : num_pages <= Z.of_nat (length a).

Lemma zero_get j : 0 <= j < num_pages -> arr_get a j = Some 0.
Proof.
  intros Hj. unfold arr_get. rewrite bool_decide_eq_true_2 by lia.
  destruct (lookup_lt_is_Some_2 a (Z.to_nat j) ltac:(lia)) as [v Hv]. rewrite Hv. f_equal.
  by apply (Forall_lookup_1 _ _ _ _ zeros Hv).
Qed.

Lemma inner_stride n k fuel trace :
  (k + n = Z.to_nat ((num_pages + jump - 1) / jump))%nat -> (n < fuel)%nat ->
  inner fuel num_pages jump a (Z.of_nat k * jump) 0 trace =
  Ret (0, trace ++ map (fun k => Z.of_nat k * jump) (seq k n)).
Proof.
  revert k fuel trace. induction n as [|n IH]; intros k fuel trace Hk Hf; (destruct fuel as [|fuel]; [lia|]); cbn [inner];
    pose proof (stride_count num_pages jump k jump_pos) as Hs.
  - destruct (Z.ltb_spec (Z.of_nat k * jump) num_pages); [lia|]. simpl. by rewrite app_nil_r.
  - destruct (Z.ltb_spec (Z.of_nat k * jump) num_pages); [|lia]. rewrite zero_get by nia. cbn [mbind option_bind].
    rewrite !chk_s_ok by (unfold in_s; nia). cbn [mbind option_bind].
    replace (Z.of_nat k * jump + jump) with (Z.of_nat (S k) * jump) by lia. rewrite Z.add_0_l, IH by lia.
    cbn [seq map]. by rewrite <- app_assoc.
Qed.

Lemma trails_stride fuel n trace :
  (Z.to_nat ((num_pages + jump - 1) / jump) < fuel)%nat ->
  trails fuel n num_pages jump a 0 trace = Ret (0, trace ++ concat (repeat (stride num_pages jump) n)).
Proof.
  intros Hf. revert trace. induction n as [|n IH]; intros trace; cbn [trails]; [by rewrite app_nil_r|].
  rewrite <- (Z.mul_0_l jump) at 1. change 0 with (Z.of_nat 0) at 1.
  rewrite (inner_stride (Z.to_nat ((num_pages + jump - 1) / jump)) 0) by lia.
  rewrite IH. cbn [repeat concat]. by rewrite <- app_assoc.
Qed.
End pass.

(** tlb.c on two numerals, with a page of at least 16 bytes, memory that is
    zero and products that fit an [int]: all accesses are inside the array, and
    each trail reads the elements 0, jump, 2 jump, ... below [num_pages], of
    which there are [num_pages / jump] rounded up. *)
Theorem tlb_accesses fuel page_size prog d1 d2 rest mem :
  let jump := page_size / SIZEOF_INT in
  16 <= page_size -> num d1 + jump < 2 ^ 31 -> num d1 * jump < 2 ^ 31 -> num d2 <= INT_MAX ->
  d1 <> [] -> d2 <> [] -> Forall (fun d => isdigit d = true) d1 -> Forall (fun d => isdigit d = true) d2 ->
  (forall b, 0 <= b -> Z.of_nat (length (mem b)) = b / SIZEOF_INT /\ Forall (fun v => v = 0) (mem b)) ->
  (Z.to_nat ((num d1 + jump - 1) / jump) < fuel)%nat ->
  main fuel page_size (prog :: d1 :: d2 :: rest) mem =
  Ret (Some (0, concat (repeat (stride (num d1) jump) (Z.to_nat (num d2))))).
Proof.
  intros jump Hp Hfit Hprod Hn2 Hne1 Hne2 Hd1 Hd2 Hmem Hf.
  pose proof (num_nonneg d1 Hd1) as H1. pose proof (num_nonneg d2 Hd2) as H2.
  assert (Hj : 4 <= jump) by (unfold jump, SIZEOF_INT; by apply Z.div_le_lower_bound; lia).
  unfold main. fold jump. rewrite !atoi_numeral by (done || unfold INT_MAX; lia). cbn [mbind option_bind].
  rewrite chk_s_ok by (unfold in_s; nia). cbn [mbind option_bind].
  destruct (Hmem (num d1 * jump)) as [Hl Hz]; [nia|].
  rewrite trails_stride; [done|lia|lia|done| |done].
  rewrite Hl. unfold SIZEOF_INT. apply Z.div_le_lower_bound; nia.
Qed.

Lemma tlb_accesses_witness :
  main 10 4096 [[]; [49; 48; 48; 48]; [50]] (fun b => repeat 0 (Z.to_nat (b / 4))) = Ret (Some (0, [0; 0])).
Proof.
  refine (tlb_accesses 10 4096 [] [49; 48; 48; 48] [50] [] (fun b => repeat 0 (Z.to_nat (b / 4))) _ _ _ _ _ _ _ _ _ _).
  1: lia. 1-2: reflexivity. 1: by vm_compute. 1-2: discriminate. 1-2: repeat first [apply Forall_nil_2 | apply Forall_cons_2; [reflexivity|]]. 2: vm_compute; lia.
  intros b Hb. unfold SIZEOF_INT. rewrite repeat_length. split; [|by apply Forall_forall; intros v Hv%list_elem_of_In%repeat_spec].
  rewrite Z2Nat.id; [done|]. apply Z.div_pos; lia.
Defined.

(** So with 4096-byte pages a thousand pages are measured by one access: the
    bound of the loop is a number of pages, its index a number of integers. *)
Theorem tlb_thousand_pages_one_access : stride 1000 1024 = [0].
Proof. reflexivity. Qed.
End Tlb.

(** ** mem.c *)
Module MemTouch.

Record state := State { x : list Z; i : Z; loop_count : Z }.

(** The length, in integers, of the array that main allocates for an argument in
    megabytes. [size_in_bytes] is converted to an unsigned type by the division
    by [sizeof(int)]. *)
Definition size_in_bytes (size : Z) : Z := size * 1024 * 1024.
Definition num_ints (size : Z) : Z := wrap 64 (size_in_bytes size) / 4.

(** One pass of [while (1)]. *)
Definition step (n : Z) (st : state) : option state :=
  v ← arr_get (x st) (i st);
  v' ← chk_s 32 (v + 1);
  x' ← arr_set (x st) (i st) v';
  let i' := i st + 1 in
  if i' =? n then c ← chk_s 32 (loop_count st + 1); Some (State x' 0 c)
  else Some (State x' i' (loop_count st)).

Fixpoint run (k : nat) (n : Z) (st : state) : option state :=
  match k with
  | O => Some st
  | S k => st ← run k n st; step n st
  end.

(** How often element [j] was incremented in [k] passes over [n] integers. *)
Definition visits (n k j : Z) : Z := k / n + (if j <? k mod n then 1 else 0).

Definition touched (n k : Z) (x0 : list Z) : list Z := imap (fun j v => v + visits n k (Z.of_nat j)) x0.

Lemma next_pass n k :
  0 < n -> 0 <= k ->
  (k mod n + 1 = n /\ (k + 1) / n = k / n + 1 /\ (k + 1) mod n = 0) \/
  (k mod n + 1 < n /\ (k + 1) / n = k / n /\ (k + 1) mod n = k mod n + 1).
Proof.
  intros Hn Hk. pose proof (Z.div_mod k n ltac:(lia)). pose proof (Z.mod_pos_bound k n Hn).
  destruct (decide (k mod n + 1 = n)) as [He|He]; [left|right]; (split; [lia|]).
  - destruct (Z.div_mod_unique n ((k + 1) / n) (k / n + 1) ((k + 1) mod n) 0) as [H1 H2];
      [left; by apply Z.mod_pos_bound|left; lia| |done].
    rewrite <- Z.div_mod by lia. nia.
  - destruct (Z.div_mod_unique n ((k + 1) / n) (k / n) ((k + 1) mod n) (k mod n + 1)) as [H1 H2];
      [left; by apply Z.mod_pos_bound|left; lia| |done].
    rewrite <- Z.div_mod by lia. nia.
Qed.

(** Only the element at [k mod n] is visited by pass [k]. *)
Lemma visits_next n k j :
  0 < n -> 0 <= k -> 0 <= j < n ->
  visits n (k + 1) j = visits n k j + (if j =? k mod n then 1 else 0).
Proof.
  intros Hn Hk Hj. pose proof (Z.mod_pos_bound k n Hn). unfold visits.
  destruct (next_pass n k Hn Hk) as [(H1 & -> & ->)|(H1 & -> & ->)];
    destruct (Z.eqb_spec j (k mod n)), (Z.ltb_spec j (k mod n)); try lia;
    match goal with |- context [?a <? ?b] => destruct (Z.ltb_spec a b) end; lia.
Qed.

Lemma touched_next n k x0 v :
  0 < n -> 0 <= k -> Z.of_nat (length x0) = n -> x0 !! Z.to_nat (k mod n) = Some v ->
  <[Z.to_nat (k mod n) := v + visits n k (k mod n) + 1]> (touched n k x0) = touched n (k + 1) x0.
Proof.
  intros Hn Hk Hl Hv. pose proof (Z.mod_pos_bound k n Hn). apply list_eq. intros j.
  destruct (decide (j = Z.to_nat (k mod n))) as [->|Hne].
  - rewrite list_lookup_insert_eq by (unfold touched; rewrite length_imap; lia).
    unfold touched. rewrite list_lookup_imap, Hv. cbn [fmap option_fmap option_map]. f_equal.
    rewrite Z2Nat.id, visits_next, Z.eqb_refl by lia. lia.
  - rewrite list_lookup_insert_ne by done. unfold touched. rewrite !list_lookup_imap.
    destruct (x0 !! j) as [w|] eqn:Hw; [|done]. apply lookup_lt_Some in Hw as Hlt.
    cbn [fmap option_fmap option_map]. f_equal. rewrite visits_next by lia.
    destruct (Z.eqb_spec (Z.of_nat j) (k mod n)); [lia|]. lia.
Qed.

(** One pass, from the state after [k] of them. *)
Lemma step_touched n k x0 :
  0 < n -> 0 <= k -> Z.of_nat (length x0) = n ->
  Forall (fun v => - 2 ^ 31 <= v /\ v + k / n + 1 < 2 ^ 31) x0 -> (k + 1) / n < 2 ^ 31 ->
  step n (State (touched n k x0) (k mod n) (k / n)) =
  Some (State (touched n (k + 1) x0) ((k + 1) mod n) ((k + 1) / n)).
Proof.
  intros Hn Hk Hl Hx Hq. unfold step. cbn [x i loop_count].
  pose proof (Z.mod_pos_bound k n Hn) as Hm. assert (0 <= k / n) by (apply Z.div_pos; lia).
  destruct (lookup_lt_is_Some_2 x0 (Z.to_nat (k mod n)) ltac:(lia)) as [v Hv].
  pose proof (Forall_lookup_1 _ _ _ _ Hx Hv) as Hvb. simpl in Hvb.
  assert (Hsame : visits n k (k mod n) = k / n) by (unfold visits; rewrite Z.ltb_irrefl; lia).
  assert (Hlk : touched n k x0 !! Z.to_nat (k mod n) = Some (v + visits n k (k mod n))).
  { unfold touched. rewrite list_lookup_imap, Hv. cbn [fmap option_fmap option_map]. by rewrite Z2Nat.id by lia. }
  unfold arr_get. rewrite bool_decide_eq_true_2, Hlk by lia. cbn [mbind option_bind].
  rewrite (chk_s_ok 32 (v + visits n k (k mod n) + 1)) by (unfold in_s; lia). cbn [mbind option_bind].
  unfold arr_set. rewrite bool_decide_eq_true_2 by (unfold touched; rewrite length_imap; lia).
  cbn [mbind option_bind]. rewrite touched_next by (done || lia).
  destruct (next_pass n k Hn Hk) as [(H1 & Hd & Hr)|(H1 & Hd & Hr)]; rewrite Hr.
  - rewrite H1, Z.eqb_refl, chk_s_ok by (unfold in_s; lia). by rewrite Hd.
  - rewrite Hd. by destruct (Z.eqb_spec (k mod n + 1) n); [lia|].
Qed.

Lemma touched_0 n x0 : touched n 0 x0 = x0.
Proof.
  unfold touched. apply list_eq. intros j. rewrite list_lookup_imap. destruct (x0 !! j) as [v|]; [|done].
  cbn [fmap option_fmap option_map]. f_equal. unfold visits. rewrite Zmod_0_l, Zdiv_0_l.
  destruct (Z.ltb_spec (Z.of_nat j) 0); lia.
Qed.

(** mem.c increments the integers in turn: after [k] passes over an array of
    [n > 0] integers, the index is [k mod n], the counter of rounds [k / n], and
    every element has been incremented once per finished round, and once more if
    the current round has passed it. No access leaves the array, for any [k]
    before an element or the counter overflows. *)
Theorem mem_touches_in_turn n k x0 :
  0 < n -> Z.of_nat (length x0) = n ->
  Forall (fun v => - 2 ^ 31 <= v /\ v + Z.of_nat k / n + 1 < 2 ^ 31) x0 -> Z.of_nat k / n < 2 ^ 31 ->
  run k n (State x0 0 0) =
  Some (State (touched n (Z.of_nat k) x0) (Z.of_nat k mod n) (Z.of_nat k / n)).
Proof.
  intros Hn Hl. induction k as [|k IH]; intros Hx Hq.
  - change (Z.of_nat 0) with 0. by rewrite Zmod_0_l, Zdiv_0_l, touched_0.
  - assert (Hmono : Z.of_nat k / n <= Z.of_nat (S k) / n) by (apply Z.div_le_mono; lia).
    assert (Hx' : Forall (fun v => - 2 ^ 31 <= v /\ v + Z.of_nat k / n + 1 < 2 ^ 31) x0).
    { eapply Forall_impl; [exact Hx|]. simpl. lia. }
    cbn [run]. rewrite IH by (done || lia). cbn [mbind option_bind].
    rewrite Nat2Z.inj_succ, <- Z.add_1_r in *. apply step_touched; done || lia.
Qed.

Lemma mem_touches_in_turn_witness :
  run 7 3 (State [5; 0; -2] 0 0) = Some (State [8; 2; 0] 1 2).
Proof.
  refine (mem_touches_in_turn 3 7 [5; 0; -2] _ _ _ _); [done|done| |done].
  repeat constructor; done.
Defined.

(** For the argument 0 the array is empty and the first pass is out of bounds;
    for every positive argument there is an integer. *)
Theorem mem_zero_megabytes :
  num_ints 0 = 0 /\ step (num_ints 0) (State [] 0 0) = None /\
  (forall size, 0 < size < 2 ^ 31 -> num_ints size = size * 262144 /\ 0 < num_ints size).
Proof.
  split_and!; [done|done|]. intros size Hs. unfold num_ints, size_in_bytes.
  rewrite wrap_small by (unfold in_u; lia). replace (size * 1024 * 1024) with (size * 262144 * 4) by lia.
  rewrite Z.div_mul by lia. lia.
Qed.

(** main: [malloc] is given the number of bytes as a [size_t] and answers the
    integers of the block, or fails; the loop never ends, so the result is its
    state after [k] passes. *)
Inductive run_result := Exit (code : Z) | Looping (st : state).

Definition main (k : nat) (argv : list (list Z)) (malloc : Z -> option (list Z)) : outcome run_result :=
  match argv with
  | [_; arg] =>
      match atoi arg with
      | None => Undef
      | Some size =>
          match malloc (u64 (size_in_bytes size)) with
          | None => Ret (Exit 1)
          | Some x0 =>
              match run k (num_ints size) (State x0 0 0) with Some st => Ret (Looping st) | None => Undef end
          end
      end
  | _ => Ret (Exit 1)
  end.

(** mem.c from its command line. For a positive number [num d] of megabytes and a
    [malloc] that succeeds, after [k] passes over the [n] integers of the block
    the index is [k mod n], the counter of rounds [k / n], and every element has
    been incremented once per finished round, and once more if the current round
    has passed it. No access leaves the block, for any [k] before an element or
    the counter overflows. *)
Theorem mem_program k prog d malloc x0 :
  let n := num d * 262144 in
  d <> [] -> Forall (fun c => isdigit c = true) d -> 0 < num d <= INT_MAX ->
  malloc (num d * 1048576) = Some x0 -> Z.of_nat (length x0) = n ->
  Forall (fun v => - 2 ^ 31 <= v /\ v + Z.of_nat k / n + 1 < 2 ^ 31) x0 -> Z.of_nat k / n < 2 ^ 31 ->
  main k [prog; d] malloc =
  Ret (Looping (State (touched n (Z.of_nat k) x0) (Z.of_nat k mod n) (Z.of_nat k / n))).
Proof.
  intros n Hne Hdig Hd Hm Hl Hx Hk. destruct mem_zero_megabytes as (_ & _ & Hn).
  destruct (Hn (num d)) as [Hnum Hpos]; [unfold INT_MAX in Hd; lia|].
  unfold main. rewrite atoi_numeral by (done || lia).
  replace (u64 (size_in_bytes (num d))) with (num d * 1048576).
  2: { unfold size_in_bytes. rewrite wrap_small; [lia|]. unfold in_u, INT_MAX in *. lia. }
  rewrite Hm, Hnum. rewrite mem_touches_in_turn; done || lia.
Qed.

Lemma mem_program_witness :
  main 2 [[]; [49]] (fun b => Some (repeat 5 (Z.to_nat (b / 4)))) =
  Ret (Looping (State (touched 262144 2 (repeat 5 (Z.to_nat 262144))) 2 0)).
Proof.
  refine (mem_program 2 [] [49] _ (repeat 5 (Z.to_nat 262144)) _ _ _ _ _ _ _).
  - discriminate.
  - by repeat constructor.
  - by vm_compute.
  - reflexivity.
  - rewrite repeat_length, Z2Nat.id; [reflexivity|by vm_compute].
  - apply Forall_forall. intros v Hv%list_elem_of_In%repeat_spec. subst v. by vm_compute.
  - by vm_compute.
Defined.
End MemTouch.
