(* ===== verification/Timing.v ===== *)
(** * Clocks and measured times

    What the programs compute with the double-precision numbers of Doubles.v:
    - [Clock]: [Time_GetSeconds] of mem.c and of 32_ConcurrencyBugs/common.h, and
      [get_elapsed_time] of 29_LockedDataStructures/main.c;
    - [TlbTime]: the times that tlb.c prints, on top of Paging.v;
    - [Nanos]: the time stamps of packet_proc.c;
    - [MemClock]: mem.c with its clock and the lines it prints.

    The readings of the clock are arguments. *)

From Stdlib Require Import Sorting.Sorted.
From S2P Require Import Prelude Doubles FilePrograms Paging.

(** ** gettimeofday *)
Module Clock.

Record timeval := Timeval { tv_sec : Z; tv_usec : Z }.

Definition MILLION : Z := 1000000.

(** [(double) t.tv_sec + (double) t.tv_usec / 1e6]. *)
Definition Time_GetSeconds (t : timeval) : option Z := seconds (tv_sec t) (tv_usec t) MILLION.

(** The two differences are taken on integers, and then converted. *)
Definition get_elapsed_time (start finish : timeval) : option Z :=
  seconds (tv_sec finish - tv_sec start) (tv_usec finish - tv_usec start) MILLION.

(** A reading in microseconds. *)
Definition usecs (t : timeval) : Z := tv_sec t * MILLION + tv_usec t.

(** A reading before the year 2106. *)
Definition reading (t : timeval) : Prop := 0 <= tv_sec t < 2 ^ 32 /\ 0 <= tv_usec t < MILLION.

Lemma rne_unique n d q : 0 < d -> Z.abs (q * d - n) * 2 < d -> rne n d = q.
Proof. intros Hd Hq. pose proof (rne_spec n d Hd). nia. Qed.

Lemma time_spec t :
  reading t -> exists x, Time_GetSeconds t = Some x /\ rne (x * MILLION) ONE = usecs t.
Proof.
  intros [Hs Hu]. unfold Time_GetSeconds, usecs, MILLION in *. pose proof ONE_big as HO.
  destruct (seconds_err (tv_sec t) (tv_usec t) 1000000) as (x & -> & E); [lia|lia|lia|].
  exists x. split; [done|]. apply rne_unique; [lia|]. rewrite (Z.abs_eq (tv_sec t)) in E by lia.
  assert (tv_sec t * ONE <= (2 ^ 32 - 1) * ONE) by (apply Z.mul_le_mono_nonneg_r; lia). lia.
Qed.

(** C40. Round trip: the double that [Time_GetSeconds] returns determines the reading,
    to the microsecond, up to the year 2106. *)
Theorem time_roundtrip t :
  reading t -> exists x, Time_GetSeconds t = Some x /\ rne (x * MILLION) ONE = usecs t.
Proof. apply time_spec. Qed.

Lemma time_roundtrip_witness :
  exists x, Time_GetSeconds (Timeval 1763424000 123456) = Some x /\ rne (x * MILLION) ONE = 1763424000123456.
Proof. apply (time_roundtrip (Timeval 1763424000 123456)). unfold reading, MILLION; simpl; lia. Defined.

(** So later readings give larger numbers. *)
Lemma time_mono t1 t2 x1 x2 :
  reading t1 -> reading t2 -> Time_GetSeconds t1 = Some x1 -> Time_GetSeconds t2 = Some x2 ->
  usecs t1 <= usecs t2 -> x1 <= x2.
Proof.
  intros H1 H2 E1 E2 Hle. destruct (time_spec t1 H1) as (y1 & F1 & R1), (time_spec t2 H2) as (y2 & F2 & R2).
  rewrite E1 in F1. rewrite E2 in F2. injection F1 as <-. injection F2 as <-. pose proof ONE_big.
  destruct (decide (usecs t1 = usecs t2)) as [E|E].
  - assert (t1 = t2) as ->; [|rewrite E1 in E2; injection E2 as <-; lia].
    destruct t1 as [s1 u1], t2 as [s2 u2]. unfold usecs, reading, MILLION in *; simpl in *. f_equal; lia.
  - destruct (decide (x1 <= x2)) as [|Hn]; [done|exfalso].
    pose proof (rne_mono (x2 * MILLION) (x1 * MILLION) ONE) as Hm. unfold MILLION in Hm at 1 2. lia.
Qed.

(** [get_elapsed_time] is right to a nanosecond for runs of up to twelve days. *)
Theorem elapsed_time_accurate start finish :
  reading start -> reading finish -> Z.abs (tv_sec finish - tv_sec start) < 2 ^ 20 ->
  exists x, get_elapsed_time start finish = Some x /\
    Z.abs (x * MILLION - (usecs finish - usecs start) * ONE) * 1000 <= ONE.
Proof.
  intros [H1 H2] [H3 H4] Hd. unfold get_elapsed_time, usecs, MILLION in *. pose proof ONE_big as HO.
  destruct (seconds_err (tv_sec finish - tv_sec start) (tv_usec finish - tv_usec start) 1000000) as (x & -> & E); [lia..|].
  exists x. split; [done|].
  replace (tv_sec finish * 1000000 + tv_usec finish - (tv_sec start * 1000000 + tv_usec start))
    with ((tv_sec finish - tv_sec start) * 1000000 + (tv_usec finish - tv_usec start)) by lia.
  set (a := Z.abs (x * 1000000 - _)) in *. nia.
Qed.

Lemma elapsed_time_accurate_witness :
  exists x, get_elapsed_time (Timeval 10 900000) (Timeval 12 100000) = Some x /\
    Z.abs (x * MILLION - 1200000 * ONE) * 1000 <= ONE.
Proof.
  apply (elapsed_time_accurate (Timeval 10 900000) (Timeval 12 100000)); unfold reading, MILLION; simpl; lia.
Defined.
End Clock.

(** ** tlb.c *)
Module TlbTime.
Import Tlb.

Definition timespec_to_double (t : timespec) : option Z := seconds (tv_sec t) (tv_nsec t) NS_PER_SECOND.

(** What main passes to its [printf]s: "hi" or not, the time, and the average, which
    is [None] when it is infinite or not a number. The two numbers are doubles;
    the conversion [%g], which shows six significant digits, is left to the
    library. *)
Record report := Report { hi : bool; delta : Z; average : option Z }.

Definition measure (start finish : timespec) (num_pages num_trails dummy_sum : Z) : option report :=
  td ← sub_timespec start finish;
  result ← timespec_to_double td;
  Some (Report (negb (dummy_sum =? 123)) result (ddiv result (dmul (of_int num_pages) (of_int num_trails)))).

(** A product that is not zero is at least one unit, and stays so. *)
Lemma dmul_ints_zero a b :
  Z.abs a < 2 ^ 31 -> Z.abs b < 2 ^ 31 -> (dmul (of_int a) (of_int b) = 0 <-> a * b = 0).
Proof.
  intros Ha Hb. unfold dmul. rewrite !of_int_exact by lia. pose proof ONE_big as HO. split; intros H.
  - destruct (decide (a * b = 0)) as [|Hn]; [done|exfalso].
    pose proof (rnd_err (a * ONE * (b * ONE)) ONE ltac:(lia)) as E. rewrite H, Z.mul_0_l, Z.sub_0_l, Z.abs_opp in E.
    replace (a * ONE * (b * ONE)) with (a * b * ONE * ONE) in E by lia. rewrite !Z.abs_mul, (Z.abs_eq ONE) in E by lia.
    rewrite <- Z.abs_mul in E. set (c := Z.abs (a * b)) in *. assert (1 <= c) by lia. nia.
  - replace (a * ONE * (b * ONE)) with 0 by nia. pose proof (rnd_err 0 ONE ltac:(lia)) as E.
    pose proof (rnd_opp 0 ONE ltac:(lia)) as Ho. change (- 0) with 0 in Ho. lia.
Qed.

(** C38. The time that tlb.c measures: for two readings of the clock, the second not
    before the first and at most twelve days after it, the double that main
    passes to [printf] (which shows six significant digits of it) is within a
    nanosecond of their difference; and the average passed with it is a number
    exactly when there are pages and trails. *)
Theorem tlb_time_accurate start finish num_pages num_trails dummy_sum :
  normal start -> normal finish -> 0 <= total finish - total start < 2 ^ 20 * NS_PER_SECOND ->
  Z.abs num_pages < 2 ^ 31 -> Z.abs num_trails < 2 ^ 31 ->
  exists r, measure start finish num_pages num_trails dummy_sum = Some r /\
    Z.abs (delta r * NS_PER_SECOND - (total finish - total start) * ONE) <= ONE /\
    (average r = None <-> num_pages * num_trails = 0).
Proof.
  intros H1 H2 Ht Hp Hn. destruct (sub_timespec_exact start finish H1 H2) as (td & Etd & Etot & Hns & Hsg).
  unfold measure. rewrite Etd. cbn [mbind option_bind]. unfold timespec_to_double, total, NS_PER_SECOND in *.
  pose proof ONE_big as HO.
  assert (Hs : 0 <= tv_sec td < 2 ^ 20) by nia.
  destruct (seconds_err (tv_sec td) (tv_nsec td) 1000000000) as (x & -> & E); [lia..|]. cbn [mbind option_bind].
  eexists. split; [done|]. cbn [delta average]. split.
  - rewrite <- Etot. rewrite (Z.abs_eq (tv_sec td)) in E by lia. set (a := Z.abs (x * 1000000000 - _)) in *. nia.
  - unfold ddiv. destruct (Z.eqb_spec (dmul (of_int num_pages) (of_int num_trails)) 0) as [E0|E0];
      rewrite dmul_ints_zero in E0 by done; split; done.
Qed.

Lemma tlb_time_accurate_witness :
  exists r, measure (Timespec 7 900000000) (Timespec 9 100000000) 1000 3 0 = Some r /\
    Z.abs (delta r * NS_PER_SECOND - 1200000000 * ONE) <= ONE /\ (average r = None <-> 3000 = 0).
Proof.
  apply (tlb_time_accurate (Timespec 7 900000000) (Timespec 9 100000000) 1000 3 0);
    unfold normal, total, NS_PER_SECOND; simpl; lia.
Defined.
End TlbTime.

(** ** packet_proc.c *)
Module Nanos.
Import Tlb.

(** [((uint64_t)ts.tv_sec * 1000000000ULL) + ts.tv_nsec], on 64 bits. *)
Definition current_nanoseconds (ts : timespec) : Z := (u64 (tv_sec ts) *u64 1000000000) +u64 tv_nsec ts.

(** The time stamps of the packets are exact, and in the order of the readings,
    for 584 years of uptime; the next second wraps around. *)
Theorem nanoseconds_exact t1 t2 :
  normal t1 -> normal t2 -> tv_sec t1 < 18446744073 -> tv_sec t2 < 18446744073 ->
  current_nanoseconds t1 = total t1 /\ (current_nanoseconds t1 <= current_nanoseconds t2 <-> total t1 <= total t2) /\
  current_nanoseconds (Timespec 18446744074 0) < current_nanoseconds (Timespec 1 0).
Proof.
  intros [Hn1 Hs1] [Hn2 Hs2] H1 H2.
  assert (E : forall t, normal t -> tv_sec t < 18446744073 -> current_nanoseconds t = total t).
  { intros t [Hn Hs] Ht. unfold current_nanoseconds, total, NS_PER_SECOND in *.
    rewrite !(wrap_small 64) by (unfold in_u; rewrite ?(wrap_small 64) by (unfold in_u; lia); lia). done. }
  rewrite !E by done. split_and!; [done|done|reflexivity].
Qed.

Lemma nanoseconds_exact_witness :
  current_nanoseconds (Timespec 3 7) = 3000000007 /\
  (current_nanoseconds (Timespec 3 7) <= current_nanoseconds (Timespec 4 0) <-> 3000000007 <= 4000000000) /\
  current_nanoseconds (Timespec 18446744074 0) < current_nanoseconds (Timespec 1 0).
Proof. apply (nanoseconds_exact (Timespec 3 7) (Timespec 4 0)); unfold normal, NS_PER_SECOND; simpl; lia. Defined.
End Nanos.

(** ** mem.c *)
Module MemClock.
Import Clock.

(** The memory, the time of the start of the round, the time not yet reported,
    the readings of the clock so far, and the lines printed: the number of the
    round, its milliseconds, and the bandwidth, [None] when it is infinite. *)
Record state := State {
  touch : MemTouch.state; t : Z; time_since_last_print : Z; readings : nat; lines : list (Z * Z * option Z) }.

Definition POINT_2 : Z := decimal_const 2 10.

(** The end of a round. *)
Definition round_end (clock : nat -> timeval) (size_in_bytes loop_count : Z) (st : state) (m : MemTouch.state) : option state :=
  now ← Time_GetSeconds (clock (readings st));
  let delta_time := dsub now (t st) in
  let since := dadd (time_since_last_print st) delta_time in
  let '(since, lines) :=
    if POINT_2 <=? since then
      (0, lines st ++ [(loop_count, dmul (of_int 1000) delta_time,
                        ddiv (of_int size_in_bytes) (dmul (dmul (of_int 1024) (of_int 1024)) delta_time))])
    else (since, lines st) in
  t ← Time_GetSeconds (clock (S (readings st)));
  Some (State m t since (S (S (readings st))) lines).

(** One pass of [while (1)]. *)
Definition step (clock : nat -> timeval) (size_in_bytes n : Z) (st : state) : option state :=
  m ← MemTouch.step n (touch st);
  if MemTouch.i (touch st) + 1 =? n
  then round_end clock size_in_bytes (MemTouch.loop_count (touch st)) st m
  else Some (State m (t st) (time_since_last_print st) (readings st) (lines st)).

Fixpoint run (k : nat) (clock : nat -> timeval) (size_in_bytes n : Z) (st : state) : option state :=
  match k with
  | O => Some st
  | S k => st ← run k clock size_in_bytes n st; step clock size_in_bytes n st
  end.

(** main before its loop. *)
Definition start (clock : nat -> timeval) (x0 : list Z) : option state :=
  t ← Time_GetSeconds (clock 0%nat);
  Some (State (MemTouch.State x0 0 0) t (of_int 2) 1 []).

(** A clock that does not go back. *)
Definition forward (clock : nat -> timeval) : Prop :=
  (forall r, reading (clock r)) /\ forall r, usecs (clock r) <= usecs (clock (S r)).

Lemma point_2_small : POINT_2 * 10 <= 3 * ONE.
Proof.
  pose proof (rnd_err (2 * ONE) 10 ltac:(lia)) as E. pose proof ONE_big. unfold POINT_2, decimal_const. lia.
Qed.

Lemma point_2_pos : 0 < POINT_2.
Proof.
  pose proof (rnd_err (2 * ONE) 10 ltac:(lia)) as E. pose proof ONE_big. unfold POINT_2, decimal_const. lia.
Qed.

(** The first round is always reported: 2 seconds are due from the start. *)
Lemma first_due d : 0 <= d -> POINT_2 <= dadd (of_int 2) d.
Proof.
  intros Hd. rewrite of_int_exact by lia. pose proof (dadd_err (2 * ONE) d) as E. pose proof point_2_small.
  pose proof ONE_big. lia.
Qed.

Lemma dadd_nonneg a b : 0 <= a -> 0 <= b -> 0 <= dadd a b.
Proof. intros. unfold dadd. apply rnd_nonneg; lia. Qed.

Lemma dsub_nonneg a b : b <= a -> 0 <= dsub a b.
Proof. intros. unfold dsub. apply rnd_nonneg; lia. Qed.

#[local] Opaque dadd dsub dmul ddiv of_int POINT_2 Time_GetSeconds.

Section clock.
Context (clock : nat -> timeval) (size_in_bytes n : Z).
Hypothesis clock_forward : forward clock.
Hypothesis n_pos : 0 < n.

(** The rounds of the lines, in order, are below [c], and once a round has ended
    the first line is that of round 0 and less than 0.2 seconds are unreported. *)
Definition time_ok (st : state) : Prop :=
  let c := MemTouch.loop_count (touch st) in
  (exists r, readings st = S r /\ Time_GetSeconds (clock r) = Some (t st)) /\
  0 <= c /\ 0 <= time_since_last_print st /\
  (if c =? 0 then lines st = [] /\ time_since_last_print st = of_int 2
   else time_since_last_print st < POINT_2 /\ exists l ls, lines st = l :: ls /\ l.1.1 = 0) /\
  StronglySorted Z.lt ((fun l => l.1.1) <$> lines st) /\ Forall (fun l => 0 <= l.1.1 < c) (lines st).

Lemma snoc_sorted (l : list Z) c : StronglySorted Z.lt l -> Forall (fun y => y < c) l -> StronglySorted Z.lt (l ++ [c]).
Proof.
  induction 1 as [|y l Hs IH Hy]; intros Hc; simpl; [repeat constructor|].
  apply Forall_cons in Hc as [Hyc Hc]. constructor; [by apply IH|]. apply Forall_app. split; [done|]. by repeat constructor.
Qed.

Lemma round_end_ok st m :
  time_ok st -> MemTouch.loop_count m = MemTouch.loop_count (touch st) + 1 ->
  exists st', round_end clock size_in_bytes (MemTouch.loop_count (touch st)) st m = Some st' /\ touch st' = m /\ time_ok st'.
Proof.
  intros ((r & Er & Et) & Hc & Hs & Hfirst & Hsort & Hall) Hm. destruct clock_forward as [Hrd Hfw]. unfold round_end. rewrite Er.
  destruct (time_spec _ (Hrd (S r))) as (now & En & _). rewrite En. cbn [mbind option_bind].
  destruct (time_spec _ (Hrd (S (S r)))) as (t' & Et' & _).
  pose proof (time_mono _ _ _ _ (Hrd r) (Hrd (S r)) Et En (Hfw r)) as Hle.
  set (c := MemTouch.loop_count (touch st)) in *. remember (dsub now (t st)) as d eqn:Ed.
  assert (Hd : 0 <= d) by (subst d; by apply dsub_nonneg).
  remember (dadd (time_since_last_print st) d) as since eqn:Esince.
  assert (Hsum : 0 <= since) by (subst since; by apply dadd_nonneg).
  destruct (Z.leb_spec POINT_2 since) as [Hp|Hp]; rewrite Et'; cbn [mbind option_bind];
    (eexists; split; [reflexivity|]; split; [reflexivity|]; unfold time_ok; cbn [touch t time_since_last_print readings lines]; rewrite Hm);
    (split_and!; [exists (S (S r)); split; [reflexivity|exact Et']|lia|try lia|..]).
  - destruct (Z.eqb_spec (c + 1) 0); [lia|]. split; [exact point_2_pos|].
    destruct (Z.eqb_spec c 0) as [E0|E0].
    + destruct Hfirst as [-> _]. eexists _, []. split; [reflexivity|exact E0].
    + destruct Hfirst as (_ & l & ls & -> & Hl). eexists l, _. split; [reflexivity|exact Hl].
  - rewrite fmap_app. apply snoc_sorted; [done|]. apply Forall_fmap. eapply Forall_impl; [exact Hall|]. simpl. lia.
  - apply Forall_app. split; [|repeat constructor; simpl; lia]. eapply Forall_impl; [exact Hall|]. simpl. lia.
  - destruct (Z.eqb_spec (c + 1) 0); [lia|]. destruct (Z.eqb_spec c 0) as [E0|E0].
    + destruct Hfirst as [_ E]. subst since. rewrite E in Hp. pose proof (first_due d Hd). lia.
    + split; [exact Hp|]. apply Hfirst.
  - exact Hsort.
  - eapply Forall_impl; [exact Hall|]. simpl. lia.
Qed.

Lemma start_ok x0 : exists st, start clock x0 = Some st /\ touch st = MemTouch.State x0 0 0 /\ time_ok st.
Proof.
  destruct clock_forward as [Hrd _]. unfold start. destruct (time_spec _ (Hrd 0%nat)) as (t0 & E & _). rewrite E.
  eexists. split; [reflexivity|]. split; [reflexivity|]. unfold time_ok; cbn. rewrite of_int_exact by lia. pose proof ONE_big.
  split_and!; [exists 0%nat; split; [reflexivity|exact E]|lia|lia|reflexivity|reflexivity|constructor|constructor].
Qed.

(** The counter of rounds only moves at the end of one. *)
Lemma touch_step m m' :
  MemTouch.step n m = Some m' ->
  MemTouch.loop_count m' = MemTouch.loop_count m + (if MemTouch.i m + 1 =? n then 1 else 0).
Proof.
  unfold MemTouch.step. intros H. apply bind_Some in H as (v & _ & H). apply bind_Some in H as (v' & _ & H).
  apply bind_Some in H as (x' & _ & H). destruct (MemTouch.i m + 1 =? n).
  - apply bind_Some in H as (c & [-> _]%chk_s_Some & [= <-]). done.
  - injection H as <-. simpl. lia.
Qed.

Lemma step_ok st m :
  time_ok st -> MemTouch.step n (touch st) = Some m -> exists st', step clock size_in_bytes n st = Some st' /\ touch st' = m /\ time_ok st'.
Proof.
  intros Hok Hm. unfold step. rewrite Hm. cbn [mbind option_bind]. pose proof (touch_step _ _ Hm) as Hc.
  destruct (MemTouch.i (touch st) + 1 =? n); [by apply round_end_ok|].
  eexists. split; [done|]. split; [done|]. unfold time_ok in *. cbn [touch t time_since_last_print readings lines].
  by replace (MemTouch.loop_count m) with (MemTouch.loop_count (touch st)) by lia.
Qed.

Lemma run_ok k st :
  time_ok st -> forall m, MemTouch.run k n (touch st) = Some m ->
  exists st', run k clock size_in_bytes n st = Some st' /\ touch st' = m /\ time_ok st'.
Proof.
  intros Hok. induction k as [|k IH]; intros m Hm; [injection Hm as <-; by exists st|].
  cbn [MemTouch.run] in Hm. apply bind_Some in Hm as (m1 & Hm1 & Hm). destruct (IH m1 Hm1) as (st1 & E1 & T1 & O1).
  cbn [run]. rewrite E1. cbn [mbind option_bind]. apply step_ok; [done|by rewrite T1].
Qed.

(** C35. What mem.c reports: after [k] passes over its [n] integers, with a clock
    that does not go back, as long as no element of the (uninitialised) array and
    not the counter of rounds overflows its [int], the array, the index and the
    counter of rounds are those of the passes alone; the printed lines are for
    different rounds, in order, all of them finished; and as soon as a round has
    finished, the first line is that of round 0, and [time_since_last_print], the
    sum of the measured times of the rounds that finished after the round of the
    last line, is below 0.2 seconds. *)
Theorem mem_reports_rounds k x0 :
  Z.of_nat (length x0) = n ->
  Forall (fun v => - 2 ^ 31 <= v /\ v + Z.of_nat k / n + 1 < 2 ^ 31) x0 -> Z.of_nat k / n < 2 ^ 31 ->
  exists st0 st, start clock x0 = Some st0 /\ run k clock size_in_bytes n st0 = Some st /\
    touch st = MemTouch.State (MemTouch.touched n (Z.of_nat k) x0) (Z.of_nat k mod n) (Z.of_nat k / n) /\
    StronglySorted Z.lt ((fun l => l.1.1) <$> lines st) /\
    Forall (fun l => 0 <= l.1.1 < Z.of_nat k / n) (lines st) /\
    (n <= Z.of_nat k ->
     0 <= time_since_last_print st < POINT_2 /\ exists l ls, lines st = l :: ls /\ l.1.1 = 0).
Proof.
  intros Hl Hx Hk. destruct (start_ok x0) as (st0 & E0 & T0 & O0).
  pose proof (MemTouch.mem_touches_in_turn n k x0 n_pos Hl Hx Hk) as Hm. rewrite <- T0 in Hm.
  destruct (run_ok k st0 O0 _ Hm) as (st & E & T & (_ & _ & Hs & Hf & Hsort & Hall)).
  exists st0, st. rewrite T in *. cbn [MemTouch.loop_count] in *.
  split_and!; [exact E0|exact E|reflexivity|exact Hsort|exact Hall|]. intros Hnk.
  assert (1 <= Z.of_nat k / n) by (apply Z.div_le_lower_bound; lia).
  destruct (Z.eqb_spec (Z.of_nat k / n) 0); [lia|]. destruct Hf as [Hlt Hfst]. split; [split; [exact Hs|exact Hlt]|exact Hfst].
Qed.
End clock.

(** At a clock that stands still, two rounds of two integers are one line. *)
Lemma mem_reports_rounds_witness :
  exists st0 st, start (fun _ => Timeval 5 0) [0; 0] = Some st0 /\
    run 5 (fun _ => Timeval 5 0) 8 2 st0 = Some st /\ touch st = MemTouch.State [3; 2] 1 2 /\
    StronglySorted Z.lt ((fun l => l.1.1) <$> lines st) /\ Forall (fun l => 0 <= l.1.1 < 2) (lines st) /\
    (2 <= 5 -> 0 <= time_since_last_print st < POINT_2 /\ exists l ls, lines st = l :: ls /\ l.1.1 = 0).
Proof.
  apply (mem_reports_rounds (fun _ => Timeval 5 0) 8 2).
  - split; intros _; unfold reading, MILLION; simpl; lia.
  - lia.
  - reflexivity.
  - repeat constructor; simpl; lia.
  - reflexivity.
Defined.
End MemClock.
