(* ===== verification/VectorVerbose.v ===== *)
(** * What the vector programs print

    main-common.c with the option -v: [worker] calls [print_info] before and after
    every [vector_add], and [print_info] prints under [print_lock]. Vectors.v runs
    the calls alone; here [worker] is its loop with both, one step for each
    operation on the shared memory and for each [printf], and main ends with
    [fini] and, with -t, the time between its two readings of the clock.

    The theorems: the printing only adds steps ([w_refines]), so that with -v the
    programs deadlock exactly when they do without it ([vector_programs_deadlock])
    and end with the same vectors ([vector_nolock_program]); and [print_lock] does
    what its comment says: the lines come out whole, and those of a thread in the
    order of its calls ([print_outs_make_sense]). *)

From S2P Require Import Prelude Threads Spawn LockOrder Vectors FilePrograms VectorMain Doubles Paging Timing.

(** What is printed: the blanks of one [thread_id], or an arrow and the vectors. *)
Inductive piece := Pad | Arrow (call_return : bool) (v0 v1 : nat).

Record w_state := mk_ws {
  ws_mem : v_state;
  ws_print : bool;          (* print_lock is locked *)
  ws_out : list piece
}.

(** Where [worker] is; [call_return] is the argument of the call of [print_info]. *)
Inductive wpc :=
| WTop                                          (* i < loops *)
| WLock (call_return : bool)                    (* Pthread_mutex_lock(&print_lock) *)
| WPrint (call_return : bool) (j : nat)         (* j < thread_id, and the printf *)
| WUnlock (call_return : bool)                  (* Pthread_mutex_unlock(&print_lock) *)
| WAdd                                          (* in vector_add *)
| WRet.                                         (* return NULL *)

(** A thread: its argument, [i], and the call of [vector_add] it is in. *)
Record w_thread := mk_wt { w_args : thread_arg_t; w_i : nat; w_pc : wpc; w_call : v_thread }.

Section worker.
Context (vector_add : nat -> nat -> list vop) (verbose : bool) (loops : nat).

Definition at_pc (w : w_thread) (p : wpc) : w_thread := mk_wt (w_args w) (w_i w) p (w_call w).

(** After [print_info]: into [vector_add], or to the next [i]. *)
Definition printed (call_return : bool) (w : w_thread) : w_thread :=
  if call_return then mk_wt (w_args w) (S (w_i w)) WTop (w_call w) else at_pc w WAdd.

(** The call of [print_info]. *)
Definition print_info (call_return : bool) (w : w_thread) : w_thread :=
  if negb verbose then printed call_return w else at_pc w (WLock call_return).

Definition body (w : w_thread) : list vop := let '(v0, v1) := worker_pair (w_args w) in vector_add v0 v1.

Definition w_step (s : w_state) (w : w_thread) : option (w_state * w_thread) :=
  let '(v0, v1) := worker_pair (w_args w) in
  match w_pc w with
  | WTop =>
      if (w_i w <? loops)%nat then
        Some (s, print_info false (mk_wt (w_args w) (w_i w) WTop (mk_vt (vector_add v0 v1) (vt_held (w_call w)) (vt_tmp (w_call w)))))
      else Some (s, at_pc w WRet)
  | WLock r => b ← mutex_lock (ws_print s); Some (mk_ws (ws_mem s) b (ws_out s), at_pc w (WPrint r 0))
  | WPrint r j =>
      if (j <? tid (w_args w))%nat
      then Some (mk_ws (ws_mem s) (ws_print s) (ws_out s ++ [Pad]), at_pc w (WPrint r (S j)))
      else Some (mk_ws (ws_mem s) (ws_print s) (ws_out s ++ [Arrow r v0 v1]), at_pc w (WUnlock r))
  | WUnlock r => Some (mk_ws (ws_mem s) (mutex_unlock (ws_print s)) (ws_out s), printed r w)
  | WAdd =>
      match vt_ops (w_call w) with
      | [] => Some (s, print_info true w)
      | _ =>
          '(m, t) ← v_step (ws_mem s) (w_call w);
          Some (mk_ws m (ws_print s) (ws_out s), mk_wt (w_args w) (w_i w) WAdd t)
      end
  | WRet => None
  end.

Definition w_finished (w : w_thread) : bool := match w_pc w with WRet => true | _ => false end.

(** ** The calls alone *)

Definition rounds (n : nat) (w : w_thread) : list vop := concat (replicate n (body w)).

(** The operations of [vector_add] that a thread has left. *)
Definition ops_left (w : w_thread) : list vop :=
  match w_pc w with
  | WTop => rounds (loops - w_i w) w
  | WLock true | WPrint true _ | WUnlock true => rounds (loops - S (w_i w)) w
  | WRet => []
  | _ => vt_ops (w_call w) ++ rounds (loops - S (w_i w)) w
  end.

Definition calls (w : w_thread) : v_thread := mk_vt (ops_left w) (vt_held (w_call w)) (vt_tmp (w_call w)).

Definition extend (rest : list vop) (t : v_thread) : v_thread := mk_vt (vt_ops t ++ rest) (vt_held t) (vt_tmp t).

(** What comes after an operation does not matter to it. *)
Lemma v_step_frame s t rest :
  vt_ops t <> [] -> v_step s (extend rest t) = prod_map id (extend rest) <$> v_step s t.
Proof.
  destruct t as [[|op ops] held tmp]; [done|intros _]. unfold v_step, extend. cbn [vt_ops vt_held vt_tmp app].
  destruct op; cbn [vt_ops vt_held vt_tmp];
    repeat match goal with
    | |- context [?x ≫= _] => destruct x; cbn [mbind option_bind]
    | |- context [if ?b then _ else _] => destruct b
    end; cbn [fmap option_fmap option_map prod_map id vt_ops vt_held vt_tmp app fst snd]; reflexivity.
Qed.

(** A worker that has come to its next call. *)
Definition enters (w : w_thread) : w_thread :=
  mk_wt (w_args w) (w_i w) WTop (mk_vt (body w) (vt_held (w_call w)) (vt_tmp (w_call w))).

Lemma calls_enter w :
  w_pc w = WTop -> (w_i w < loops)%nat ->
  calls (print_info false (enters w)) = calls w /\ calls (printed false (enters w)) = calls w.
Proof.
  intros Hp Hi. unfold calls, ops_left, print_info, printed, at_pc, enters, rounds. rewrite Hp.
  replace (loops - w_i w)%nat with (S (loops - S (w_i w))) by lia. split; [destruct verbose|]; reflexivity.
Qed.

Lemma calls_return w :
  w_pc w = WAdd -> vt_ops (w_call w) = [] -> calls (print_info true w) = calls w /\ calls (printed true w) = calls w.
Proof.
  intros Hp Ho. unfold calls, ops_left, print_info, printed, at_pc. rewrite Hp, Ho. split; [destruct verbose|]; reflexivity.
Qed.

Lemma calls_exit w : w_pc w = WTop -> (loops <= w_i w)%nat -> calls (at_pc w WRet) = calls w.
Proof. intros Hp Hi. unfold calls, ops_left. rewrite Hp. by replace (loops - w_i w)%nat with 0%nat by lia. Qed.

Lemma calls_printed w r j :
  w_pc w = WLock r \/ w_pc w = WPrint r j \/ w_pc w = WUnlock r -> calls (printed r w) = calls w.
Proof. intros Hp. unfold calls, ops_left, printed. destruct Hp as [->|[->| ->]]; by destruct r. Qed.

(** A worker at the top of its loop. *)
Lemma w_step_top s w :
  w_pc w = WTop -> w_step s w = Some (s, if (w_i w <? loops)%nat then print_info false (enters w) else at_pc w WRet).
Proof.
  intros Hp. unfold w_step, enters, body. rewrite Hp. destruct (worker_pair (w_args w)). by destruct (w_i w <? loops)%nat.
Qed.

(** The printing does not touch the vectors: a step of a worker is one of its
    calls, or leaves memory and calls alone. *)
Lemma w_step_calls s w s' w' :
  w_step s w = Some (s', w') ->
  v_step (ws_mem s) (calls w) = Some (ws_mem s', calls w') \/ (ws_mem s' = ws_mem s /\ calls w' = calls w).
Proof.
  intros H. destruct (w_pc w) as [|r|r j|r| |] eqn:Hp.
  { rewrite w_step_top in H by done. injection H as <- <-. right. split; [done|].
    destruct (Nat.ltb_spec (w_i w) loops); [by apply calls_enter|by apply calls_exit]. }
  all: unfold w_step in H; rewrite Hp in H; destruct (worker_pair (w_args w)) as [v0 v1].
  - right. destruct (ws_print s); simplify_eq/=. unfold calls, ops_left. rewrite Hp. done.
  - right. unfold calls, ops_left. rewrite Hp. destruct (j <? tid (w_args w))%nat; by simplify_eq/=.
  - right. unfold calls, ops_left. rewrite Hp. destruct r; by simplify_eq/=.
  - destruct (vt_ops (w_call w)) as [|op ops] eqn:Ho.
    + right. simplify_eq/=. split; [done|]. by apply calls_return.
    + left. destruct (v_step (ws_mem s) (w_call w)) as [[m t]|] eqn:Hs; simplify_eq/=.
      pose proof (v_step_frame (ws_mem s) (w_call w) (rounds (loops - S (w_i w)) w) ltac:(by rewrite Ho)) as Hf.
      rewrite Hs in Hf. unfold calls, ops_left. rewrite Hp. exact Hf.
  - done.
Qed.

Definition vectors (c : w_state * list w_thread) : v_state * list v_thread := (ws_mem c.1, calls <$> c.2).

(** Every execution is one of the calls alone, with steps added. *)
Lemma w_refines c c' : rtc (sys_step w_step) c c' -> rtc (sys_step v_step) (vectors c) (vectors c').
Proof.
  induction 1 as [c|c c1 c' Hs _ IH]; [done|]. etrans; [|exact IH]. clear IH.
  destruct Hs as [k s ls w s' w' Hk Hw]. unfold vectors; cbn [fst snd]. rewrite list_fmap_insert.
  destruct (w_step_calls s w s' w' Hw) as [Hv|[-> ->]].
  - apply rtc_once. econstructor; [|exact Hv]. by rewrite list_lookup_fmap, Hk.
  - rewrite list_insert_id; [done|]. by rewrite list_lookup_fmap, Hk.
Qed.

(** ** print_lock *)

Definition printing (w : w_thread) : bool := match w_pc w with WPrint _ _ | WUnlock _ => true | _ => false end.

Definition print_inv (s : w_state) (ls : list w_thread) : Prop :=
  lsum (ind printing) ls = if ws_print s then 1 else 0.

Lemma printing_info r w : printing (print_info r w) = false.
Proof. unfold print_info, printed. by destruct verbose, r. Qed.

Lemma print_inv_step k s ls w s' w' :
  print_inv s ls -> ls !! k = Some w -> w_step s w = Some (s', w') -> print_inv s' (<[k := w']> ls).
Proof.
  unfold print_inv. intros HI Hk Hs. rewrite (lsum_insert _ _ _ _ _ Hk).
  pose proof (lsum_lookup_le (ind printing) ls k w ltac:(auto with carr) Hk) as Hle.
  unfold w_step in Hs. destruct (worker_pair (w_args w)) as [v0 v1]. unfold ind at 2 3. unfold ind at 1 in Hle. unfold printing at 2. unfold printing in Hle at 1.
  destruct (w_pc w) as [|r|r j|r| |] eqn:Hp.
  - destruct (w_i w <? loops)%nat; simplify_eq/=; [rewrite printing_info|]; lia.
  - destruct (ws_print s); simplify_eq/=. lia.
  - destruct (j <? tid (w_args w))%nat; simplify_eq/=; lia.
  - simplify_eq/=. destruct (ws_print s); [|lia]. unfold printed. destruct r; cbn; lia.
  - destruct (vt_ops (w_call w)); [simplify_eq/=; rewrite printing_info; lia|].
    destruct (v_step (ws_mem s) (w_call w)) as [[m t]|]; simplify_eq/=. lia.
  - done.
Qed.
End worker.

(** ** main *)

(** Before the threads are created. *)
Definition w_main (o : v_opts) : w_state * list w_thread :=
  (mk_ws v_init false [], (fun i => mk_wt (main_args o i) 0 WTop (mk_vt [] [] 0)) <$> seq 0 (o_threads o)).

Lemma w_main_vectors vector_add o : vectors vector_add (o_loops o) (w_main o) = v_main vector_add o.
Proof.
  unfold vectors, w_main, v_main. cbn [fst snd ws_mem]. f_equal. rewrite <- list_fmap_compose. apply list_fmap_ext.
  intros _ i _. unfold calls, ops_left, rounds, body, worker; simpl. rewrite Nat.sub_0_r.
  by destruct (worker_pair (main_args o i)).
Qed.

Lemma w_main_print o : print_inv (w_main o).1 (w_main o).2.
Proof. unfold print_inv, w_main; cbn [fst snd ws_print]. rewrite lsum_fmap, (lsum_const _ 0); [lia|done]. Qed.

Lemma print_inv_reach vector_add verbose o s ls :
  rtc (sys_step (w_step vector_add verbose (o_loops o))) (w_main o) (s, ls) -> print_inv s ls.
Proof.
  intros Hr. pose proof (w_main_print o) as H0. destruct (w_main o) as [s0 ls0].
  refine (thread_invariant _ print_inv s0 ls0 H0 _ s ls Hr). intros. by eapply print_inv_step.
Qed.

(** A thread that waits: for [print_lock], or in [vector_add]. *)
Definition w_waits (s : w_state) (w : w_thread) : Prop :=
  (exists r, w_pc w = WLock r /\ ws_print s = true) \/
  (w_pc w = WAdd /\ exists l, v_wants (w_call w) = Some l /\ v_taken (ws_mem s) l = true).

Definition w_deadlocked (c : w_state * list w_thread) : Prop :=
  (exists i w, c.2 !! i = Some w /\ w_finished w = false) /\
  forall i w, c.2 !! i = Some w -> w_finished w = false -> w_waits c.1 w.

Section deadlock.
Context (vector_add : nat -> nat -> list vop) (verbose : bool) (o : v_opts).
Abbreviation step := (w_step vector_add verbose (o_loops o)).
Abbreviation calls := (calls vector_add (o_loops o)).
Abbreviation vectors := (vectors vector_add (o_loops o)).
Abbreviation body := (body vector_add).

(** Who holds [print_lock] does not wait, so in a deadlock nobody does: the
    threads that wait do so in [vector_add]. *)
Lemma w_deadlocked_calls c : print_inv c.1 c.2 -> w_deadlocked c -> deadlocked (vectors c).
Proof.
  destruct c as [s ls]. intros HI [(i & w & Hi & Hf) Hall]. cbn [fst snd] in *.
  assert (Hfree : ws_print s = false).
  { destruct (ws_print s) eqn:E; [exfalso|done]. unfold print_inv in HI. rewrite E in HI.
    destruct (lsum_pos_inv (ind printing) ls ltac:(auto with carr) ltac:(lia)) as (j & u & Hj & Hu).
    assert (Hpr : printing u = true) by (unfold ind in Hu; destruct (printing u); [done|lia]).
    destruct (Hall j u Hj) as [(r & Hr & _)|[Hr _]]; unfold printing, w_finished in *;
      destruct (w_pc u); done. }
  assert (Hadd : forall j u, ls !! j = Some u -> w_finished u = false ->
    exists l, v_wants (calls u) = Some l /\ v_taken (ws_mem s) l = true).
  { intros j u Hj Hu. destruct (Hall j u Hj Hu) as [(r & _ & E)|(E & l & Hl & Ht)]; [congruence|].
    exists l. split; [|done]. unfold calls, ops_left, v_wants in *. rewrite E. cbn [vt_ops].
    by destruct (vt_ops (w_call u)) as [|[] ?]. }
  assert (Hfin : forall u, v_finished (calls u) = false -> w_finished u = false).
  { intros u. unfold v_finished, calls, ops_left, w_finished. cbn [vt_ops]. by destruct (w_pc u). }
  unfold vectors. split; cbn [fst snd].
  - exists i, (calls w). split; [by rewrite list_lookup_fmap, Hi|].
    destruct (Hadd i w Hi Hf) as (l & Hl & _). unfold v_wants, v_finished in *. by destruct (vt_ops (calls w)).
  - intros j t Hj Ht. rewrite list_lookup_fmap in Hj. destruct (ls !! j) as [u|] eqn:Hu; simplify_eq/=.
    apply (Hadd j u Hu). by apply Hfin.
Qed.

(** *** Every execution of the calls is one of the program *)

(** With [print_lock] free, [print_info] can run to its end. *)
Lemma prints_line s ls k w r j :
  ls !! k = Some w -> w_pc w = WPrint r j ->
  exists out, rtc (sys_step step) (s, ls) (mk_ws (ws_mem s) (ws_print s) out, <[k := at_pc w (WUnlock r)]> ls).
Proof.
  remember (tid (w_args w) - j)%nat as n eqn:En. revert s ls w j En. induction n as [|n IH]; intros s ls w j En Hk Hp.
  - destruct (worker_pair (w_args w)) as [v0 v1] eqn:Hw.
    eexists. apply rtc_once. econstructor; [exact Hk|]. unfold w_step. rewrite Hp, Hw. destruct (Nat.ltb_spec j (tid (w_args w))); [lia|reflexivity].
  - destruct (IH (mk_ws (ws_mem s) (ws_print s) (ws_out s ++ [Pad])) (<[k := at_pc w (WPrint r (S j))]> ls)
      (at_pc w (WPrint r (S j))) (S j)) as [out Hout]; [simpl; lia|by apply list_lookup_insert_eq; eapply lookup_lt_Some|done|].
    exists out. rewrite list_insert_insert_eq in Hout. eapply rtc_l; [|exact Hout]. econstructor; [exact Hk|].
    unfold w_step. rewrite Hp. destruct (worker_pair (w_args w)).
    destruct (Nat.ltb_spec j (tid (w_args w))); [reflexivity|lia].
Qed.

Lemma unlocks s ls k w r j :
  ls !! k = Some w -> w_pc w = WPrint r j \/ w_pc w = WUnlock r ->
  exists out, rtc (sys_step step) (s, ls) (mk_ws (ws_mem s) false out, <[k := printed r w]> ls).
Proof.
  intros Hk Hp. apply lookup_lt_Some in Hk as Hlt.
  assert (H : exists out, rtc (sys_step step) (s, ls) (mk_ws (ws_mem s) (ws_print s) out, <[k := at_pc w (WUnlock r)]> ls)).
  { destruct Hp as [Hp|Hp]; [by eapply prints_line|]. exists (ws_out s). destruct s. rewrite list_insert_id; [done|].
    rewrite Hk. f_equal. destruct w; simpl in Hp. by subst. }
  destruct H as [out H]. exists out. eapply rtc_r; [exact H|].
  replace (<[k:=printed r w]> ls) with (<[k:=printed r w]> (<[k:=at_pc w (WUnlock r)]> ls)) by apply list_insert_insert_eq.
  econstructor; [by apply list_lookup_insert_eq|]. unfold w_step; simpl. destruct (worker_pair (w_args w)). by destruct r.
Qed.

Lemma locks s ls k w r :
  ls !! k = Some w -> ws_print s = false -> w_pc w = WLock r ->
  exists out, rtc (sys_step step) (s, ls) (mk_ws (ws_mem s) false out, <[k := printed r w]> ls).
Proof.
  intros Hk Hs Hp. apply lookup_lt_Some in Hk as Hlt. set (w1 := at_pc w (WPrint r 0)).
  destruct (unlocks (mk_ws (ws_mem s) true (ws_out s)) (<[k := w1]> ls) k w1 r 0) as [out H];
    [by apply list_lookup_insert_eq|by left|].
  exists out. rewrite list_insert_insert_eq in H. eapply rtc_l; [|exact H]. econstructor; [exact Hk|].
  unfold w_step. rewrite Hp, Hs. by destruct (worker_pair (w_args w)).
Qed.

Lemma prints_info s ls k w r :
  ls !! k = Some w -> ws_print s = false ->
  exists out, rtc (sys_step step) (s, <[k := print_info verbose r w]> ls)
    (mk_ws (ws_mem s) false out, <[k := printed r w]> ls).
Proof.
  intros Hk Hs. apply lookup_lt_Some in Hk as Hlt. unfold print_info.
  destruct (negb verbose); [exists (ws_out s); destruct s as [m p out]; simpl in *; by subst|].
  destruct (locks s (<[k := at_pc w (WLock r)]> ls) k (at_pc w (WLock r)) r) as [out H];
    [by apply list_lookup_insert_eq|done|done|].
  exists out. rewrite list_insert_insert_eq in H. by destruct r.
Qed.

(** A thread at its next operation on the vectors, or at its end. *)
Definition settled (w : w_thread) : Prop := (w_pc w = WAdd /\ vt_ops (w_call w) <> []) \/ w_pc w = WRet.

(** A worker that does not hold [print_lock]. *)
Definition calm (w : w_thread) : Prop := printing w = false.

Context (vector_add_ops : forall dst src, vector_add dst src <> []).

Lemma settles_top m out ls k w :
  ls !! k = Some w -> w_pc w = WTop ->
  exists out' w', rtc (sys_step step) (mk_ws m false out, ls) (mk_ws m false out', <[k := w']> ls) /\
    settled w' /\ calls w' = calls w.
Proof.
  intros Hk Hp. apply lookup_lt_Some in Hk as Hlt.
  pose proof (w_step_top vector_add verbose (o_loops o) (mk_ws m false out) w Hp) as Hs.
  destruct (Nat.ltb_spec (w_i w) (o_loops o)) as [Hi|Hi].
  - destruct (prints_info (mk_ws m false out) (<[k := enters vector_add w]> ls) k (enters vector_add w) false) as [out' H];
      [by apply list_lookup_insert_eq|done|].
    exists out', (printed false (enters vector_add w)). rewrite !list_insert_insert_eq in H. split_and!.
    + eapply rtc_l; [|exact H]. by econstructor.
    + left. split; [done|]. simpl. unfold body. destruct (worker_pair (w_args w)). apply vector_add_ops.
    + by apply (calls_enter vector_add verbose).
  - exists out, (at_pc w WRet). split_and!; [apply rtc_once; by econstructor|by right|by apply calls_exit].
Qed.

Lemma settles_out m out ls k w :
  ls !! k = Some w -> w_pc w = WTop \/ w_pc w = WAdd \/ w_pc w = WRet ->
  exists out' w', rtc (sys_step step) (mk_ws m false out, ls) (mk_ws m false out', <[k := w']> ls) /\
    settled w' /\ calls w' = calls w.
Proof.
  intros Hk Hc. assert (Hd : w_pc w = WTop \/ settled w \/ (w_pc w = WAdd /\ vt_ops (w_call w) = [])).
  { unfold settled. destruct Hc as [?|[?|?]], (vt_ops (w_call w)); naive_solver. }
  destruct Hd as [Hp|[Hp|[Hp Ho]]]; [by apply settles_top|exists out, w; by rewrite list_insert_id|].
  apply lookup_lt_Some in Hk as Hlt.
  destruct (prints_info (mk_ws m false out) ls k w true Hk eq_refl) as [out1 H1].
  destruct (settles_top m out1 (<[k := printed true w]> ls) k (printed true w)) as (out2 & w2 & H2 & Hs & Hcl);
    [by apply list_lookup_insert_eq|done|].
  exists out2, w2. split_and!; [|done|rewrite Hcl; by apply (calls_return vector_add verbose)].
  rewrite list_insert_insert_eq in H2. eapply rtc_l; [|etrans; [exact H1|exact H2]].
  econstructor; [exact Hk|]. unfold w_step. rewrite Hp, Ho. by destruct (worker_pair (w_args w)).
Qed.

Lemma settles m out ls k w :
  ls !! k = Some w -> calm w ->
  exists out' w', rtc (sys_step step) (mk_ws m false out, ls) (mk_ws m false out', <[k := w']> ls) /\
    settled w' /\ calls w' = calls w.
Proof.
  intros Hk Hc. destruct (w_pc w) as [|r|r j|r| |] eqn:Hp; try (eapply settles_out; eauto; fail);
    try (unfold calm, printing in Hc; by rewrite Hp in Hc).
  apply lookup_lt_Some in Hk as Hlt. destruct (locks (mk_ws m false out) ls k w r Hk eq_refl Hp) as [out1 H1].
  destruct (settles_out m out1 (<[k := printed r w]> ls) k (printed r w)) as (out2 & w2 & H2 & Hs & Hcl);
    [by apply list_lookup_insert_eq|destruct r; simpl; tauto|].
  exists out2, w2. rewrite list_insert_insert_eq in H2. split_and!; [by etrans|done|].
  rewrite Hcl. apply (calls_printed vector_add (o_loops o) w r 0). by left.
Qed.

Lemma settled_calm w : settled w -> calm w.
Proof. unfold settled, calm, printing. by intros [[-> _]| ->]. Qed.

(** All of them, one after the other. *)
Lemma settles_all n m out ls :
  (forall k w, ls !! k = Some w -> calm w) ->
  exists out' ls', rtc (sys_step step) (mk_ws m false out, ls) (mk_ws m false out', ls') /\
    calls <$> ls' = calls <$> ls /\ length ls' = length ls /\
    forall k w, ls' !! k = Some w -> calm w /\ ((k < n)%nat -> settled w).
Proof.
  intros Hc. induction n as [|n (out1 & ls1 & H1 & Hcl & Hlen & Hset)].
  { exists out, ls. split_and!; [done..|]. intros k w Hk. split; [by eapply Hc|lia]. }
  destruct (ls1 !! n) as [w|] eqn:Hn.
  - destruct (settles m out1 ls1 n w Hn) as (out2 & w2 & H2 & Hs & E); [by apply (Hset n)|].
    exists out2, (<[n := w2]> ls1). split_and!; [by etrans| |by rewrite length_insert|].
    + rewrite list_fmap_insert, E, list_insert_id; [done|]. by rewrite list_lookup_fmap, Hn.
    + intros k u Hk. apply list_lookup_insert_Some in Hk as [(-> & <- & _)|[Hne Hk]]; [by split; [apply settled_calm|]|].
      destruct (Hset k u Hk) as [? Hlt]. split; [done|]. intros. apply Hlt. lia.
  - exists out1, ls1. split_and!; [done..|]. intros k u Hk. destruct (Hset k u Hk) as [? Hlt]. split; [done|].
    intros. apply Hlt. apply lookup_lt_Some in Hk. apply lookup_ge_None in Hn. lia.
Qed.

(** A step of the calls, from settled workers to settled workers. *)
Lemma lift_step m out ls c :
  (forall k w, ls !! k = Some w -> settled w) -> sys_step v_step (vectors (mk_ws m false out, ls)) c ->
  exists out' ls', rtc (sys_step step) (mk_ws m false out, ls) (mk_ws c.1 false out', ls') /\ calls <$> ls' = c.2 /\
    forall k w, ls' !! k = Some w -> settled w.
Proof.
  intros Hset Hs. unfold vectors in Hs; cbn [fst snd ws_mem] in Hs. inversion Hs as [k s ts t m' t' Hk Ht]; subst.
  rewrite list_lookup_fmap in Hk. destruct (ls !! k) as [w|] eqn:Hw; simplify_eq/=.
  apply lookup_lt_Some in Hw as Hlt. destruct (Hset k w Hw) as [[Hp Ho]|Hp].
  - pose proof (v_step_frame m (w_call w) (rounds vector_add (o_loops o - S (w_i w)) w) Ho) as Hf.
    unfold calls, ops_left in Ht. rewrite Hp in Ht. unfold extend in Hf at 1. rewrite Ht in Hf.
    destruct (v_step m (w_call w)) as [[m1 t1]|] eqn:Hv; simplify_eq/=. set (w1 := mk_wt (w_args w) (w_i w) WAdd t1).
    destruct (settles m1 out (<[k := w1]> ls) k w1) as (out2 & w2 & H2 & Hs2 & E);
      [by apply list_lookup_insert_eq|done|].
    exists out2, (<[k := w2]> ls). rewrite list_insert_insert_eq in H2. split_and!.
    + eapply rtc_l; [|exact H2]. econstructor; [exact Hw|]. unfold w_step. rewrite Hp; simpl. rewrite Hv.
      destruct (worker_pair (w_args w)). by destruct (vt_ops (w_call w)).
    + by rewrite list_fmap_insert, E.
    + intros j u Hj. apply list_lookup_insert_Some in Hj as [(-> & <- & _)|[_ Hj]]; [done|by eapply Hset].
  - unfold calls, ops_left in Ht. by rewrite Hp in Ht.
Qed.

Lemma lift_run c0 c :
  rtc (sys_step v_step) c0 c -> forall m out ls, (forall k w, ls !! k = Some w -> settled w) -> vectors (mk_ws m false out, ls) = c0 ->
  exists out' ls', rtc (sys_step step) (mk_ws m false out, ls) (mk_ws c.1 false out', ls') /\ calls <$> ls' = c.2 /\
    forall k w, ls' !! k = Some w -> settled w.
Proof.
  induction 1 as [c|c c1 c' Hs _ IH]; intros m out ls Hset <-.
  - by exists out, ls.
  - destruct (lift_step m out ls c1 Hset Hs) as (out1 & ls1 & H1 & E1 & Hset1).
    destruct (IH c1.1 out1 ls1 Hset1) as (out2 & ls2 & H2 & E2 & Hset2).
    { unfold vectors; cbn [fst snd ws_mem]. rewrite E1. by destruct c1. }
    exists out2, ls2. split_and!; [by etrans|done|done].
Qed.

Lemma deadlocked_settled m out ls :
  (forall k w, ls !! k = Some w -> settled w) -> deadlocked (m, calls <$> ls) -> w_deadlocked (mk_ws m false out, ls).
Proof.
  intros Hset [(i & t & Hi & Ht) Hall]. cbn [fst snd] in *.
  assert (Hfin : forall w, settled w -> v_finished (calls w) = w_finished w).
  { intros w [[Hp Ho]|Hp]; unfold calls, ops_left, v_finished, w_finished; rewrite Hp; cbn [vt_ops]; [|done].
    by destruct (vt_ops (w_call w)). }
  split; cbn [fst snd].
  - rewrite list_lookup_fmap in Hi. destruct (ls !! i) as [w|] eqn:Hw; simplify_eq/=. exists i, w. split; [done|].
    rewrite <- Hfin; [done|by eapply Hset].
  - intros k w Hk Hf. right. pose proof (Hset k w Hk) as Hs. destruct (Hall k (calls w)) as (l & Hl & Htk).
    { by rewrite list_lookup_fmap, Hk. } { by rewrite Hfin. }
    destruct Hs as [[Hp Ho]|Hp]; [|by unfold w_finished in Hf; rewrite Hp in Hf]. split; [done|]. exists l. split; [|done].
    unfold v_wants, calls, ops_left in *. rewrite Hp in Hl. cbn [vt_ops] in Hl. by destruct (vt_ops (w_call w)) as [|[] ?].
Qed.

(** The printing takes locks too, but it neither causes nor prevents a deadlock. *)
Lemma printing_deadlock :
  (exists c, rtc (sys_step step) (w_main o) c /\ w_deadlocked c) <->
  (exists c, rtc (sys_step v_step) (v_main vector_add o) c /\ deadlocked c).
Proof.
  split.
  - intros ([s ls] & Hr & Hd). exists (vectors (s, ls)). rewrite <- w_main_vectors. split; [by eapply w_refines|].
    apply w_deadlocked_calls; [|done]. by eapply print_inv_reach.
  - intros ([m ts] & Hr & Hd). set (ls0 := (w_main o).2).
    destruct (settles_all (length ls0) v_init [] ls0) as (out1 & ls1 & H1 & E1 & Hlen & Hset).
    { intros k w Hk. unfold ls0, w_main in Hk; cbn [snd] in Hk. rewrite list_lookup_fmap in Hk.
      destruct (seq _ _ !! k); simplify_eq/=. done. }
    destruct (lift_run _ _ Hr v_init out1 ls1) as (out2 & ls2 & H2 & E2 & Hset2).
    { intros k w Hk. apply (Hset k w Hk). apply lookup_lt_Some in Hk. lia. }
    { rewrite <- w_main_vectors. unfold vectors; cbn [fst snd ws_mem]. by rewrite E1. }
    cbn [fst snd] in *. exists (mk_ws m false out2, ls2). split; [by etrans|]. apply deadlocked_settled; [done|].
    by rewrite E2.
Qed.
End deadlock.

(** ** The output *)

(** The line of thread [k]: its blanks and its arrow. *)
Definition line (o : v_opts) (m : nat * bool) : list piece :=
  let '(v0, v1) := worker_pair (main_args o m.1) in replicate m.1 Pad ++ [Arrow m.2 v0 v1].

(** The arrows of thread [k] among the lines. *)
Definition said (k : nat) (msgs : list (nat * bool)) : list bool := snd <$> filter (fun m => m.1 = k) msgs.

(** The arrows of [n] calls. *)
Definition arrows (n : nat) : list bool := concat (replicate n [false; true]).
Arguments arrows : simpl never.

(** What a worker has printed. *)
Definition history (w : w_thread) : list bool :=
  arrows (w_i w) ++
  match w_pc w with
  | WUnlock false | WAdd | WLock true | WPrint true _ => [false]
  | WUnlock true => [false; true]
  | _ => []
  end.

Lemma arrows_S n : arrows (S n) = arrows n ++ [false; true].
Proof. unfold arrows. rewrite replicate_S_end, concat_app. simpl. done. Qed.

Lemma said_snoc k msgs k' r :
  said k (msgs ++ [(k', r)]) = said k msgs ++ (if bool_decide (k' = k) then [r] else []).
Proof.
  unfold said. rewrite filter_app, fmap_app. f_equal. rewrite filter_cons, filter_nil. simpl.
  case_bool_decide; by case_decide.
Qed.

Section output.
Context (vector_add : nat -> nat -> list vop) (o : v_opts).
Abbreviation step := (w_step vector_add true (o_loops o)).

(** Whole lines, and the blanks of the thread that is printing one. *)
Definition out_inv (s : w_state) (ls : list w_thread) : Prop :=
  print_inv s ls /\
  (forall k w, ls !! k = Some w -> w_args w = main_args o k /\ (w_i w <= o_loops o)%nat /\
     (w_pc w <> WTop -> w_pc w <> WRet -> (w_i w < o_loops o)%nat) /\ (w_pc w = WRet -> w_i w = o_loops o)) /\
  exists msgs blanks, ws_out s = (m ← msgs; line o m) ++ replicate blanks Pad /\
    Forall (fun m => (m.1 < length ls)%nat) msgs /\
    (forall k w, ls !! k = Some w -> said k msgs = history w) /\
    (forall k w r j, ls !! k = Some w -> w_pc w = WPrint r j -> blanks = j /\ (j <= k)%nat) /\
    ((forall k w r j, ls !! k = Some w -> w_pc w <> WPrint r j) -> blanks = 0%nat).

(** Only one thread prints. *)
Lemma printing_unique s ls j k u w :
  print_inv s ls -> ls !! j = Some u -> ls !! k = Some w -> printing u = true -> printing w = true -> j = k.
Proof.
  intros HI Hj Hk Hu Hw. destruct (decide (j = k)) as [|Hne]; [done|exfalso].
  pose proof (lsum_lookup2_le (ind printing) ls j k u w ltac:(auto with carr) Hne Hj Hk) as H.
  unfold print_inv in HI. unfold ind at 1 2 in H. rewrite Hu, Hw in H. destruct (ws_print s); lia.
Qed.

Lemma main_args_tid k : tid (main_args o k) = k.
Proof. unfold main_args. by destruct (o_parallel o). Qed.

(** A step that prints nothing. *)
Lemma out_quiet k s ls w s' w' :
  out_inv s ls -> ls !! k = Some w -> print_inv s' (<[k := w']> ls) -> ws_out s' = ws_out s ->
  w_args w' = w_args w -> history w' = history w -> (w_i w' <= o_loops o)%nat ->
  (w_pc w' <> WTop -> w_pc w' <> WRet -> (w_i w' < o_loops o)%nat) -> (w_pc w' = WRet -> w_i w' = o_loops o) ->
  (forall r j, w_pc w <> WPrint r j) -> (forall r j, w_pc w' = WPrint r j -> j = 0%nat /\ ws_print s = false) ->
  out_inv s' (<[k := w']> ls).
Proof.
  intros (HI & Hth & msgs & blanks & Hout & Hids & Hsaid & Hpr & Hno) Hk HI' Hq Ha Hh Hle Hlt Hret Hnp Hp'. split; [done|]. split.
  - intros j u Hj. apply list_lookup_insert_Some in Hj as [(<- & <- & _)|[_ Hj]]; [|by apply Hth].
    rewrite Ha. split_and!; [by apply Hth|done..].
  - exists msgs, blanks. rewrite Hq, length_insert. split_and!; [done|done|..].
    + intros j u Hj. apply list_lookup_insert_Some in Hj as [(<- & <- & _)|[_ Hj]]; [|by apply Hsaid].
      rewrite Hh. by apply Hsaid.
    + intros j u r i Hj Hu. apply list_lookup_insert_Some in Hj as [(<- & <- & _)|[_ Hj]]; [|by eapply Hpr].
      destruct (Hp' r i Hu) as [-> Hfree]. split; [|lia]. apply Hno. intros j' u' r' i' Hj' Hu'.
      unfold print_inv in HI. rewrite Hfree in HI.
      pose proof (lsum_lookup_le (ind printing) ls j' u' ltac:(auto with carr) Hj') as H.
      unfold ind at 1, printing at 1 in H. rewrite Hu' in H. lia.
    + intros Hnone. apply Hno. intros j u r i Hj Hu. destruct (decide (j = k)) as [->|Hne].
      * simplify_eq. by eapply Hnp.
      * eapply (Hnone j u r i); [|done]. by rewrite list_lookup_insert_ne.
Qed.

(** A blank, or the arrow that ends the line. *)
Lemma out_print k s ls w r j :
  out_inv s ls -> ls !! k = Some w -> w_pc w = WPrint r j ->
  exists s' w', step s w = Some (s', w') /\ (print_inv s' (<[k := w']> ls) -> out_inv s' (<[k := w']> ls)).
Proof.
  intros (HI & Hth & msgs & blanks & Hout & Hids & Hsaid & Hpr & Hno) Hk Hp.
  destruct (Hth k w Hk) as (Ha & Hle & Hlt & _). destruct (Hpr k w r j Hk Hp) as [-> Hj].
  assert (Hother : forall k' u r' j', ls !! k' = Some u -> w_pc u = WPrint r' j' -> k' = k).
  { intros k' u r' j' Hu Hp'. eapply (printing_unique s ls k' k); [done..| |]; unfold printing; [by rewrite Hp'|by rewrite Hp]. }
  unfold w_step. rewrite Ha, Hp, main_args_tid. destruct (worker_pair (main_args o k)) as [v0 v1] eqn:Hw.
  destruct (Nat.ltb_spec j k) as [Hjk|Hjk]; (eexists _, _; split; [reflexivity|]; intros HI'; split; [done|]; split).
  - intros j' u Hu. apply list_lookup_insert_Some in Hu as [(<- & <- & _)|[_ Hu]]; [|by apply Hth]. cbn.
    split_and!; [done|done| |done]. intros _ _. apply Hlt; by rewrite Hp.
  - exists msgs, (S j). cbn [ws_out]. rewrite length_insert. split_and!.
    + rewrite Hout, <- app_assoc, replicate_S_end. done.
    + done.
    + intros j' u Hu. apply list_lookup_insert_Some in Hu as [(<- & <- & _)|[_ Hu]]; [|by apply Hsaid].
      rewrite (Hsaid k w Hk). unfold history. rewrite Hp. by destruct r.
    + intros j' u r' i Hu Hp'. apply list_lookup_insert_Some in Hu as [(<- & <- & _)|[Hne Hu]].
      * cbn in Hp'. simplify_eq. split; [done|lia].
      * by destruct Hne; symmetry; eapply Hother.
    + intros Hnone. exfalso. eapply (Hnone k); [by apply list_lookup_insert_eq; eapply lookup_lt_Some|done].
  - intros j' u Hu. apply list_lookup_insert_Some in Hu as [(<- & <- & _)|[_ Hu]]; [|by apply Hth]. cbn.
    split_and!; [done|done| |done]. intros _ _. apply Hlt; by rewrite Hp.
  - exists (msgs ++ [(k, r)]), 0%nat. cbn [ws_out]. rewrite length_insert. split_and!.
    + rewrite Hout, bind_app, <- !app_assoc. f_equal. cbn [mbind list_bind]. unfold line. cbn [fst snd]. rewrite Hw.
      replace j with k by lia. by rewrite !app_nil_r.
    + apply Forall_app. split; [done|]. repeat constructor. by eapply lookup_lt_Some.
    + intros j' u Hu. rewrite said_snoc. apply list_lookup_insert_Some in Hu as [(<- & <- & _)|[Hne Hu]].
      * rewrite bool_decide_eq_true_2 by done. rewrite (Hsaid k w Hk). unfold history. rewrite Hp. cbn.
        destruct r; [by rewrite <- app_assoc|by rewrite app_nil_r].
      * rewrite bool_decide_eq_false_2, app_nil_r by done. by apply Hsaid.
    + intros j' u r' i Hu Hp'. apply list_lookup_insert_Some in Hu as [(<- & <- & _)|[Hne Hu]]; [done|].
      by destruct Hne; symmetry; eapply Hother.
    + done.
Qed.

Lemma out_inv_step k s ls w s' w' :
  out_inv s ls -> ls !! k = Some w -> step s w = Some (s', w') -> out_inv s' (<[k := w']> ls).
Proof.
  intros HI Hk Hs.
  assert (HI' : print_inv s' (<[k := w']> ls)) by (eapply print_inv_step; [apply HI|exact Hk|exact Hs]).
  destruct (proj1 (proj2 HI) k w Hk) as (Ha & Hle & Hlt & Hret). destruct (w_pc w) as [|r|r j|r| |] eqn:Hp.
  - rewrite w_step_top in Hs by done. injection Hs as <- <-.
    destruct (Nat.ltb_spec (w_i w) (o_loops o)); eapply out_quiet; try done; try (by unfold history; rewrite Hp);
      try (by rewrite Hp); cbn; intros; try done; lia.
  - unfold w_step in Hs. rewrite Hp in Hs. destruct (worker_pair (w_args w)), (ws_print s) eqn:Hfree; simplify_eq/=.
    eapply out_quiet; try done; try (by rewrite Hp); [unfold history; rewrite Hp; by destruct r| |].
    + intros _ _. by apply Hlt.
    + intros r' j [= _ <-]. done.
  - destruct (out_print k s ls w r j HI Hk Hp) as (s1 & w1 & Hs1 & H). rewrite Hs in Hs1. simplify_eq. by apply H.
  - unfold w_step in Hs. rewrite Hp in Hs. destruct (worker_pair (w_args w)). injection Hs as <- <-.
    assert (w_i w < o_loops o)%nat by (by apply Hlt).
    eapply out_quiet; try done; try (by rewrite Hp); unfold history, printed; rewrite ?Hp; destruct r; cbn; try done; try lia.
    by rewrite arrows_S, app_nil_r.
  - unfold w_step in Hs. rewrite Hp in Hs. destruct (worker_pair (w_args w)).
    assert (w_i w < o_loops o)%nat by (by apply Hlt).
    destruct (vt_ops (w_call w)); [simplify_eq/=|destruct (v_step (ws_mem s) (w_call w)) as [[m t]|]; simplify_eq/=];
      (eapply out_quiet; try done; try (by rewrite Hp); by unfold history; rewrite Hp).
  - unfold w_step in Hs. rewrite Hp in Hs. by destruct (worker_pair (w_args w)).
Qed.

Lemma out_inv_init : out_inv (w_main o).1 (w_main o).2.
Proof.
  assert (Hl : forall k w, (w_main o).2 !! k = Some w -> w = mk_wt (main_args o k) 0 WTop (mk_vt [] [] 0)).
  { intros k w Hk. unfold w_main in Hk; cbn [snd] in Hk. rewrite list_lookup_fmap in Hk.
    destruct (seq _ _ !! k) as [i|] eqn:E; simplify_eq/=. by apply lookup_seq in E as [-> _]. }
  split; [apply w_main_print|]. split.
  - intros k w ->%Hl. cbn. split_and!; [done|lia|done|done].
  - exists [], 0%nat. split_and!; [done|done|by intros k w ->%Hl|by intros k w r j ->%Hl|done].
Qed.
End output.

Lemma history_prefix n w :
  (w_i w <= n)%nat -> (w_pc w <> WTop -> w_pc w <> WRet -> (w_i w < n)%nat) -> history w `prefix_of` arrows n.
Proof.
  intros Hle Hlt. unfold history. assert (E : arrows n = arrows (w_i w) ++ arrows (n - w_i w)).
  { unfold arrows. rewrite <- concat_app, <- replicate_add. f_equal. f_equal. lia. }
  rewrite E. apply prefix_app. destruct (decide (w_i w < n)%nat) as [Hi|Hi].
  - replace (n - w_i w)%nat with (S (n - S (w_i w))) by lia. unfold arrows; cbn [replicate concat app].
    destruct (w_pc w) as [|[]|[] j|[]| |]; repeat apply prefix_cons; apply prefix_nil.
  - destruct (w_pc w) as [|[]|[] j|[]| |]; try (exfalso; apply Hi; by apply Hlt); apply prefix_nil.
Qed.

(** C33. [print_lock] is "used to ensure print outs make sense", and does: at any time
    of any execution with -v, whatever [vector_add] does, the output is a sequence
    of whole lines, each indented by the number of its thread, and then perhaps
    some blanks of the line of the thread that holds the lock; the lines of a
    thread are a call and a return in turn; and there are [loops] of each when it
    has returned. *)
Theorem print_outs_make_sense vector_add o s ls :
  rtc (sys_step (w_step vector_add true (o_loops o))) (w_main o) (s, ls) ->
  exists msgs blanks, ws_out s = (m ← msgs; line o m) ++ replicate blanks Pad /\
    Forall (fun m => (m.1 < o_threads o)%nat) msgs /\ (ws_print s = false -> blanks = 0%nat) /\
    forall k w, ls !! k = Some w ->
      said k msgs `prefix_of` arrows (o_loops o) /\ (w_finished w = true -> said k msgs = arrows (o_loops o)).
Proof.
  intros Hr. assert (Hlen : length ls = o_threads o).
  { transitivity (length (w_main o).2); [|unfold w_main; cbn [snd]; by rewrite length_fmap, length_seq].
    destruct (w_main o) as [s0 ls0]. revert s ls Hr. apply thread_invariant; [done|]. intros. by rewrite length_insert. }
  assert (HI : out_inv o s ls).
  { pose proof (out_inv_init o) as H0. destruct (w_main o) as [s0 ls0].
    refine (thread_invariant _ (out_inv o) s0 ls0 H0 _ s ls Hr). intros. by eapply out_inv_step. }
  destruct HI as (HP & Hth & msgs & blanks & Hout & Hids & Hsaid & _ & Hno).
  exists msgs, blanks. rewrite <- Hlen. split_and!; [done|done| |].
  - intros Hfree. apply Hno. intros k w r j Hk Hp. unfold print_inv in HP. rewrite Hfree in HP.
    pose proof (lsum_lookup_le (ind printing) ls k w ltac:(auto with carr) Hk) as H.
    unfold ind at 1, printing at 1 in H. rewrite Hp in H. lia.
  - intros k w Hk. destruct (Hth k w Hk) as (_ & Hle & Hlt & Hret). rewrite (Hsaid k w Hk).
    split; [by apply history_prefix|]. unfold w_finished, history. destruct (w_pc w); try done.
    intros _. by rewrite Hret, app_nil_r.
Qed.

(** Thread 1 is half-way through its first line while thread 0 waits. *)
Lemma print_outs_make_sense_witness :
  let o := mk_opts 1 2 false false in
  let c := default (w_main o) (run_sched (w_step vector_add_deadlock true 1) [1; 0; 1; 1]%nat (w_main o)) in
  exists msgs blanks, ws_out c.1 = (m ← msgs; line o m) ++ replicate blanks Pad /\
    Forall (fun m => (m.1 < 2)%nat) msgs /\ (ws_print c.1 = false -> blanks = 0%nat) /\
    forall k w, c.2 !! k = Some w ->
      said k msgs `prefix_of` arrows 1 /\ (w_finished w = true -> said k msgs = arrows 1).
Proof.
  intros o c. apply (print_outs_make_sense vector_add_deadlock o c.1 c.2).
  apply (run_sched_rtc _ [1; 0; 1; 1]%nat). vm_compute. reflexivity.
Defined.

(** [vector_print], which main calls in a comment only: the indices and values of
    the lines. *)
Definition vector_print (v : vector_t) : option (list (nat * Z)) :=
  mapM (fun i => z ← v_values v !! i; Some (i, z)) (seq 0 VECTOR_SIZE).

(** What it would print before the threads run. *)
Lemma vector_print_init value : vector_print (vector_init value) = Some ((fun i => (i, value)) <$> seq 0 VECTOR_SIZE).
Proof. reflexivity. Qed.

(** ** Ending *)
Section finish.
Context (vector_add : nat -> nat -> list vop) (verbose : bool) (o : v_opts).
Context (vector_add_ops : forall dst src, vector_add dst src <> []).
Abbreviation step := (w_step vector_add verbose (o_loops o)).
Abbreviation calls := (calls vector_add (o_loops o)).
Abbreviation vectors := (vectors vector_add (o_loops o)).

(** From every state the workers can come to their next calls: who holds
    [print_lock] first. *)
Lemma settles_any s ls :
  print_inv s ls ->
  exists out ls', rtc (sys_step step) (s, ls) (mk_ws (ws_mem s) false out, ls') /\ calls <$> ls' = calls <$> ls /\
    forall k w, ls' !! k = Some w -> settled w.
Proof.
  intros HI. assert (H : exists out ls1, rtc (sys_step step) (s, ls) (mk_ws (ws_mem s) false out, ls1) /\
    calls <$> ls1 = calls <$> ls /\ forall k w, ls1 !! k = Some w -> calm w).
  { destruct (ws_print s) eqn:Hp.
    - destruct (lsum_pos_inv (ind printing) ls ltac:(auto with carr)) as (k & w & Hk & Hw);
        [unfold print_inv in HI; rewrite Hp in HI; lia|].
      assert (Hpr : printing w = true) by (unfold ind in Hw; destruct (printing w); [done|lia]).
      assert (Hpc : exists r j, w_pc w = WPrint r j \/ w_pc w = WUnlock r).
      { unfold printing in Hpr. destruct (w_pc w) as [|r|r j|r| |]; try done; [exists r, j|exists r, 0%nat]; tauto. }
      destruct Hpc as (r & j & Hpc). destruct (unlocks vector_add verbose o s ls k w r j Hk Hpc) as [out Hr].
      exists out, (<[k := printed r w]> ls). split_and!; [done| |].
      + rewrite list_fmap_insert, (calls_printed vector_add (o_loops o) w r j) by tauto. rewrite list_insert_id; [done|].
        by rewrite list_lookup_fmap, Hk.
      + intros i u Hi. apply list_lookup_insert_Some in Hi as [(<- & <- & _)|[Hne Hi]]; [by destruct r|].
        unfold calm. destruct (printing u) eqn:Hu; [|done]. destruct Hne. by eapply printing_unique.
    - exists (ws_out s), ls. split_and!; [destruct s; simpl in *; by subst|done|]. intros k w Hk. unfold calm.
      destruct (printing w) eqn:E; [|done]. pose proof (lsum_lookup_le (ind printing) ls k w ltac:(auto with carr) Hk) as H.
      unfold print_inv in HI. rewrite Hp in HI. unfold ind at 1 in H. rewrite E in H. lia. }
  destruct H as (out1 & ls1 & H1 & E1 & Hc).
  destruct (settles_all vector_add verbose o vector_add_ops (length ls1) (ws_mem s) out1 ls1 Hc) as (out2 & ls2 & H2 & E2 & Hlen & Hset).
  exists out2, ls2. split_and!; [by etrans|by rewrite E2|]. intros k w Hk. apply (Hset k w Hk).
  apply lookup_lt_Some in Hk. lia.
Qed.

(** When the calls can all be run to their end, so can the workers. *)
Lemma workers_finish c c' :
  print_inv c.1 c.2 -> rtc (sys_step v_step) (vectors c) c' -> (forall i t, c'.2 !! i = Some t -> v_finished t = true) ->
  exists c'', rtc (sys_step step) c c'' /\ all_returned w_finished c''.2.
Proof.
  destruct c as [s ls]. intros HI Hr Hfin. destruct (settles_any s ls HI) as (out1 & ls1 & H1 & E1 & Hset1).
  destruct (lift_run vector_add verbose o vector_add_ops _ _ Hr (ws_mem s) out1 ls1 Hset1) as (out2 & ls2 & H2 & E2 & Hset2).
  { unfold vectors; cbn [fst snd ws_mem]. by rewrite E1. }
  eexists. split; [by etrans|]. intros i w Hi. cbn [snd] in Hi. specialize (Hfin i (calls w)). rewrite <- E2 in Hfin.
  rewrite list_lookup_fmap, Hi in Hfin. specialize (Hfin eq_refl). destruct (Hset2 i w Hi) as [[Hp Ho]|Hp].
  - unfold v_finished, calls, ops_left in Hfin. rewrite Hp in Hfin. cbn [vt_ops] in Hfin.
    by destruct (vt_ops (w_call w)).
  - unfold w_finished. by rewrite Hp.
Qed.

(** Who has returned has made all its calls. *)
Lemma returned_calls ls : all_returned w_finished ls -> forall i t, (calls <$> ls) !! i = Some t -> v_finished t = true.
Proof.
  intros Hall i t Hi. rewrite list_lookup_fmap in Hi. destruct (ls !! i) as [w|] eqn:Hw; simplify_eq/=.
  specialize (Hall i w Hw). unfold w_finished, v_finished, calls, ops_left in *. by destruct (w_pc w).
Qed.
End finish.

(** ** The five programs *)

Inductive version := Deadlock | GlobalOrder | HoldAndWait | TryWait | NoLock.

Definition vector_add_of (v : version) : nat -> nat -> list vop :=
  match v with
  | Deadlock => vector_add_deadlock
  | GlobalOrder => vector_add_global_order
  | HoldAndWait => vector_add_hold_and_wait
  | TryWait => vector_add_try_wait
  | NoLock => vector_add_nolock
  end.

(** What main prints at its end: the retries, and the time between the readings. *)
Inductive last_line := Retries (retry : Z) | Time (seconds : Z).

(** Only vector-try-wait.c prints something. *)
Definition fini (v : version) (s : v_state) : list last_line :=
  match v with TryWait => [Retries (vs_retry s)] | _ => [] end.

(** After the threads have been joined; [None] would be a division by zero in
    [Time_GetSeconds]. *)
Definition main_end (v : version) (o : options) (start finish : Clock.timeval) (s : w_state) : option (list last_line) :=
  t1 ← Clock.Time_GetSeconds start; t2 ← Clock.Time_GetSeconds finish;
  Some (fini v (ws_mem s) ++ if do_timing o then [Time (dsub t2 t1)] else []).

(** What -t prints is right to the microsecond for runs of up to twelve days, and
    it is printed after the retries. *)
Theorem main_time_accurate v o start finish s :
  Clock.reading start -> Clock.reading finish -> Z.abs (Clock.usecs finish - Clock.usecs start) <= 2 ^ 20 * Clock.MILLION ->
  exists x, main_end v o start finish s = Some (fini v (ws_mem s) ++ if do_timing o then [Time x] else []) /\
    Z.abs (x * Clock.MILLION - (Clock.usecs finish - Clock.usecs start) * ONE) <= ONE.
Proof.
  intros [H1 H2] [H3 H4] Hd. unfold main_end, Clock.Time_GetSeconds, Clock.usecs, Clock.MILLION in *. pose proof ONE_big as HO.
  destruct (seconds_err (Clock.tv_sec start) (Clock.tv_usec start) 1000000) as (x1 & -> & E1); [lia..|].
  destruct (seconds_err (Clock.tv_sec finish) (Clock.tv_usec finish) 1000000) as (x2 & -> & E2); [lia..|].
  cbn [mbind option_bind]. exists (dsub x2 x1). split; [reflexivity|]. pose proof (dsub_err x2 x1) as Ed.
  set (a := Clock.tv_sec start * 1000000 + Clock.tv_usec start) in *.
  set (b := Clock.tv_sec finish * 1000000 + Clock.tv_usec finish) in *.
  rewrite (Z.abs_eq (Clock.tv_sec start)) in E1 by lia. rewrite (Z.abs_eq (Clock.tv_sec finish)) in E2 by lia.
  assert (B1 : Clock.tv_sec start * ONE <= (2 ^ 32 - 1) * ONE) by (apply Z.mul_le_mono_nonneg_r; lia).
  assert (B2 : Clock.tv_sec finish * ONE <= (2 ^ 32 - 1) * ONE) by (apply Z.mul_le_mono_nonneg_r; lia).
  assert (B3 : Z.abs ((b - a) * ONE) <= 2 ^ 20 * 1000000 * ONE).
  { rewrite Z.abs_mul, (Z.abs_eq ONE) by lia. apply Z.mul_le_mono_nonneg_r; lia. }
  set (u := dsub x2 x1) in *. clearbody u. lia.
Qed.

Lemma main_time_accurate_witness :
  exists x, main_end TryWait (mk_options 1 false 2 true false false) (Clock.Timeval 7 999999) (Clock.Timeval 8 4)
      (mk_ws v_init false []) = Some [Retries 0; Time x] /\
    Z.abs (x * Clock.MILLION - 5 * ONE) <= ONE.
Proof.
  apply (main_time_accurate TryWait (mk_options 1 false 2 true false false) (Clock.Timeval 7 999999) (Clock.Timeval 8 4)
    (mk_ws v_init false [])); unfold Clock.reading, Clock.usecs, Clock.MILLION; simpl; lia.
Defined.

(** *** Which of them deadlock *)

Lemma vector_add_nonempty v dst src : vector_add_of v dst src <> [].
Proof.
  destruct v; try done. simpl. unfold vector_add_global_order.
  by destruct (dst <? src)%nat, (src <? dst)%nat.
Qed.

(** The versions that try, and that do not lock, never wait. *)
Definition no_acq (ops : list vop) : Prop := Forall (fun op => match op with Acq _ => False | _ => True end) ops.

Lemma no_acq_app ops1 ops2 : no_acq ops1 -> no_acq ops2 -> no_acq (ops1 ++ ops2).
Proof. intros. apply Forall_app. by split. Qed.

Lemma no_acq_bind (f : nat -> list vop) l : (forall i, no_acq (f i)) -> no_acq (i ← l; f i).
Proof. intros Hf. induction l as [|i l IH]; [constructor|]. rewrite bind_cons. by apply no_acq_app. Qed.

Lemma no_acq_step s t s' t' : no_acq (vt_ops t) -> v_step s t = Some (s', t') -> no_acq (vt_ops t').
Proof.
  intros Hn Hs. unfold v_step in Hs. destruct (vt_ops t) as [|op ops] eqn:Ho; [done|]. inversion_clear Hn as [|? ? Hop Hops].
  destruct op; try done;
    repeat match type of Hs with
    | ?x ≫= _ = _ => destruct x; cbn [mbind option_bind] in Hs
    | (if ?b then _ else _) = _ => destruct b
    end; simplify_eq; cbn [vt_ops]; try done; try (by rewrite Ho; repeat constructor); repeat constructor; try done.
Qed.

Lemma no_acq_main v o c :
  (forall dst src, no_acq (vector_add_of v dst src)) ->
  rtc (sys_step v_step) (v_main (vector_add_of v) o) c -> ~ deadlocked c.
Proof.
  intros Hv Hr [(i & t & Hi & Ht) Hall]. destruct c as [s ls]. cbn [fst snd] in *.
  assert (Hno : forall k u, ls !! k = Some u -> no_acq (vt_ops u)).
  { refine (thread_invariant v_step (fun _ ls => forall k u, ls !! k = Some u -> no_acq (vt_ops u)) _ _ _ _ s ls Hr).
    - intros k u Hk. rewrite list_lookup_fmap in Hk. destruct (seq _ _ !! k) as [j|]; simplify_eq/=. unfold worker.
      destruct (worker_pair (main_args o j)) as [v0 v1]. cbn [vt_ops]. generalize (o_loops o). intros n.
      induction n; [constructor|]. by apply no_acq_app.
    - intros j s1 ls1 u s' u' HI Hj Hu k w Hk. apply list_lookup_insert_Some in Hk as [(-> & <- & _)|[_ Hk]]; [|by eapply HI].
      eapply no_acq_step; [by eapply HI|done]. }
  destruct (Hall i t Hi Ht) as (l & Hl & _). specialize (Hno i t Hi). unfold v_wants in Hl.
  destruct (vt_ops t) as [|[] ops]; try done. by inversion Hno.
Qed.

Lemma worker_pair_ne o i v0 v1 : worker_pair (main_args o i) = (v0, v1) -> v0 <> v1.
Proof. rewrite main_pair. destruct (_ && _); intros; simplify_eq; lia. Qed.

Lemma ordered_main can v o :
  (forall dst src, dst <> src -> v_ordered can [] (vector_add_of v dst src)) ->
  exists progs, v_main (vector_add_of v) o = (v_init, (fun ops => mk_vt ops [] 0) <$> progs) /\ Forall (v_ordered can []) progs.
Proof.
  intros Hv. eexists. split; [apply main_threads|]. apply Forall_fmap, Forall_true. intros i. simpl.
  destruct (worker_pair (main_args o i)) as [v0 v1] eqn:E. apply v_ordered_calls, Hv. by eapply worker_pair_ne.
Qed.

Lemma version_deadlock v o :
  (exists c, rtc (sys_step v_step) (v_main (vector_add_of v) o) c /\ deadlocked c) <->
  v = Deadlock /\ o_deadlock o = true /\ o_parallel o = false /\ (2 <= o_threads o)%nat /\ (1 <= o_loops o)%nat.
Proof.
  destruct v; [rewrite vector_deadlock_iff; tauto|..]; (split; [|by intros [? _]]); intros (c & Hr & Hd); exfalso; revert Hd.
  - destruct (ordered_main (by_rank Z.of_nat) GlobalOrder o) as (progs & E & Hp); [intros; apply global_order_ordered|].
    rewrite E in Hr. by eapply v_ordered_no_deadlock; [apply v_init_free|..].
  - destruct (ordered_main gated HoldAndWait o) as (progs & E & Hp); [apply hold_and_wait_gated|].
    rewrite E in Hr. destruct c as [s ls]. apply gated_no_deadlock. by apply (v_inv_reach _ _ _ _ v_init_free Hp Hr).
  - apply (no_acq_main TryWait o c); [|done]. intros. by repeat constructor.
  - apply (no_acq_main NoLock o c); [|done]. intros. apply no_acq_bind. intros. by repeat constructor.
Qed.

(** *** From the command line *)

Definition program_state : Type := main_pc (option (list last_line)) * (w_state * list w_thread).

(** main up to the creation of the threads. *)
Definition vector_program (argv : list (list Z)) : program (options * program_state) :=
  match parse (tail argv) defaults with
  | Usage => Exits 1
  | BadNumber => Undefined
  | Options o =>
      if num_threads o <? Z.of_nat MAX_THREADS then Runs (o, (MCreate 0, w_main (opts_of o))) else Aborts
  end.

(** main and its threads, when the clock shows [start] and then [finish]. *)
Definition program_step (v : version) (o : options) (start finish : Clock.timeval) : program_state -> program_state -> Prop :=
  spawn_step (w_step (vector_add_of v) (verbose o) (Z.to_nat (loops o))) w_finished (main_end v o start finish)
    (Z.to_nat (num_threads o)).

Lemma vector_program_runs argv o p0 :
  vector_program argv = Runs (o, p0) ->
  p0 = (MCreate 0, w_main (opts_of o)) /\ length (w_main (opts_of o)).2 = Z.to_nat (num_threads o).
Proof.
  unfold vector_program. intros H. destruct (parse (tail argv) defaults) as [o'| |]; simplify_eq.
  destruct (num_threads o' <? Z.of_nat MAX_THREADS); simplify_eq. split; [done|].
  unfold w_main; cbn [snd]. by rewrite length_fmap, length_seq.
Qed.

Lemma w_finished_stops vector_add verbose loops s w : w_finished w = true -> w_step vector_add verbose loops s w = None.
Proof. unfold w_finished, w_step. by destruct (worker_pair (w_args w)), (w_pc w). Qed.

(** A deadlock lasts. *)
Lemma w_deadlocked_stays v o start finish (p q : program_state) :
  w_deadlocked p.2 -> rtc (program_step v o start finish) p q -> q.2 = p.2.
Proof.
  intros Hd Hr. induction Hr as [|p p1 q Hs Hr IH]; [done|].
  assert (Hp1 : p1.2 = p.2); [|rewrite IH; [done|by rewrite Hp1]].
  destruct Hs as [m i s ls w s' w' _ Hi Ht|m m' c Hm]; [exfalso|done]. destruct Hd as [_ Hd]. cbn [fst snd] in Hd.
  destruct (w_finished w) eqn:Hf; [by rewrite w_finished_stops in Ht|]. unfold w_step in Ht.
  destruct (worker_pair (w_args w)). destruct (Hd i w Hi Hf) as [(r & Hp & E)|(Hp & l & Hl & Htk)]; rewrite Hp in Ht.
  - by rewrite E in Ht.
  - unfold v_wants in Hl. unfold v_step in Ht. unfold v_taken in Htk. destruct (vt_ops (w_call w)) as [|[] ops]; simplify_eq.
    by destruct (lock_of (ws_mem s) l) as [[]|].
Qed.

(** C15. Of the five programs only vector-deadlock.c can deadlock, and it can exactly
    when it is given -d and not -p, and at least two threads and one loop: with -v
    or without, although -v adds a lock that all the threads take. After a
    deadlock main does not return. *)
Theorem vector_programs_deadlock v argv o start finish p0 :
  vector_program argv = Runs (o, p0) ->
  ((exists p, rtc (program_step v o start finish) p0 p /\ w_deadlocked p.2) <->
   v = Deadlock /\ cause_deadlock o = true /\ enable_parallelism o = false /\ 2 <= num_threads o /\ 1 <= loops o) /\
  (forall p q r, rtc (program_step v o start finish) p0 p -> w_deadlocked p.2 ->
     rtc (program_step v o start finish) p q -> q.1 <> MReturned r).
Proof.
  intros (-> & Hlen)%vector_program_runs. split.
  - transitivity (exists c, rtc (sys_step (w_step (vector_add_of v) (verbose o) (o_loops (opts_of o)))) (w_main (opts_of o)) c /\ w_deadlocked c).
    + split.
      * intros (p & Hp & Hd). exists p.2. split; [|done]. by apply spawn_threads in Hp.
      * intros (c & Hc & Hd). exists (MJoin 0, c). split; [|done]. unfold program_step.
        etrans; [apply spawn_create_all; lia|]. by apply spawn_lift.
    + rewrite printing_deadlock by (intros; apply vector_add_nonempty). rewrite version_deadlock.
      unfold opts_of; cbn. intuition lia.
  - intros p [m [s ls]] r Hp Hd Hq Hm. pose proof (w_deadlocked_stays _ _ _ _ _ _ Hd Hq) as Hsame. cbn [fst snd] in *. subst m.
    assert (Hall : rtc (program_step v o start finish) (MCreate 0, w_main (opts_of o)) (MReturned r, (s, ls))) by (by etrans).
    unfold program_step in Hall. rewrite <- Hlen in Hall. destruct (w_main (opts_of o)) as [s0 ls0].
    destruct (spawn_report _ _ _ (w_finished_stops _ _ _) _ _ _ _ _ Hall) as (_ & Hfin & _).
    destruct Hd as [(i & w & Hi & Hf) _]. rewrite <- Hsame in Hi. specialize (Hfin i w Hi). congruence.
Qed.

Lemma vector_programs_deadlock_witness :
  exists o p0, vector_program [[]; [45; 118; 100]] = Runs (o, p0) /\ verbose o = true /\
    exists p, rtc (program_step Deadlock o (Clock.Timeval 0 0) (Clock.Timeval 0 0)) p0 p /\ w_deadlocked p.2.
Proof.
  eexists _, _. split; [reflexivity|]. split; [reflexivity|].
  apply (proj2 (proj1 (vector_programs_deadlock Deadlock [[]; [45; 118; 100]] _ (Clock.Timeval 0 0) (Clock.Timeval 0 0) _ eq_refl))).
  simpl. repeat split; lia.
Defined.

(** C16. vector-nolock.c without -d and -p, from its command line: whether it prints or
    not, it can end from every state it reaches, and when main has returned every
    element of vector 0 is threads times loops wrapped to a 32-bit [int], and the
    last lines, those that main itself prints after the workers' ones (with -v),
    are [main_end]: the time with -t and nothing without. *)
Theorem vector_nolock_program argv o start finish p0 :
  vector_program argv = Runs (o, p0) -> cause_deadlock o = false -> enable_parallelism o = false ->
  (forall r s ls, rtc (program_step NoLock o start finish) p0 (MReturned r, (s, ls)) ->
     r = main_end NoLock o start finish s /\
     forall j, (j < VECTOR_SIZE)%nat ->
       load (ws_mem s) 0 j = Some (swrap 32 (Z.of_nat (Z.to_nat (num_threads o) * Z.to_nat (loops o))))) /\
  (forall p, rtc (program_step NoLock o start finish) p0 p ->
     exists r c, rtc (program_step NoLock o start finish) p (MReturned r, c)).
Proof.
  intros (-> & Hlen)%vector_program_runs Hd Hp. unfold program_step. rewrite <- Hlen.
  assert (Hex : forall c, rtc (sys_step (w_step vector_add_nolock (verbose o) (o_loops (opts_of o)))) (w_main (opts_of o)) c ->
    rtc (sys_step v_step) (v_main vector_add_nolock (opts_of o)) (vectors vector_add_nolock (o_loops (opts_of o)) c)).
  { intros c Hc. rewrite <- w_main_vectors. by eapply w_refines. }
  pose proof (print_inv_reach vector_add_nolock (verbose o) (opts_of o)) as HI.
  destruct (w_main (opts_of o)) as [s0 ls0] eqn:E0. cbn [snd] in *. split.
  - intros r s ls Hr. destruct (spawn_report _ _ _ (w_finished_stops _ _ _) _ _ _ _ _ Hr) as (-> & Hall & Hreach).
    split; [done|]. intros j Hj. destruct (nolock_exact (opts_of o) _ Hd Hp (Hex _ Hreach)) as (_ & Hv & _).
    rewrite Hlen. apply Hv; [|done]. cbn [vectors snd]. by apply returned_calls.
  - intros p Hr.
    destruct (spawn_finishes (w_step vector_add_nolock (verbose o) (Z.to_nat (loops o))) w_finished (main_end NoLock o start finish)
      (w_finished_stops _ _ _) s0 ls0 p) as (s & ls & H); [|done|by eexists _, _].
    intros [s ls] Hc. destruct (nolock_exact (opts_of o) _ Hd Hp (Hex _ Hc)) as (_ & _ & c' & Hc' & Hfin).
    eapply (workers_finish vector_add_nolock (verbose o) (opts_of o)); [done|by apply HI|exact Hc'|done].
Qed.

Lemma vector_nolock_program_witness :
  exists o p0, vector_program [[]; [45; 118; 116]] = Runs (o, p0) /\ verbose o = true /\
    exists r c, rtc (program_step NoLock o (Clock.Timeval 0 0) (Clock.Timeval 1 0)) p0 (MReturned r, c).
Proof.
  eexists _, _. split; [reflexivity|]. split; [reflexivity|].
  apply (proj2 (vector_nolock_program [[]; [45; 118; 116]] _ (Clock.Timeval 0 0) (Clock.Timeval 1 0) _ eq_refl eq_refl eq_refl)).
  apply rtc_refl.
Defined.
